(* ===== verification/_CoqProject ===== *)
-Q . S2P
Prelude.v
GoStrings.v
GoFloat.v
GoIO.v
Headers.v
GoURL.v
Status.v
Request.v
RequestFacts.v
RequestRoundtrip.v
GoTime.v
GoJSON.v
Response.v
Handler.v
Middleware.v
Router.v
RateLimit.v
Sha256.v
Cache.v
Metrics.v
Proxy.v
Server.v
ServerLife.v
ConnMachine.v
App.v
GoFmt.v
Bench.v
Examples.v
RequestProps.v
ServerProps.v
ServerLifeProps.v
MiddlewareProps.v
RouterProps.v
RateLimitProps.v
CacheProps.v
MetricsProps.v
ProxyProps.v
Wire.v
ProxyWire.v
ProxyForward.v
WellFormed.v
Site.v
BenchProps.v
AppProps.v
Process.v
LoadTest.v
ProxyChain.v
Stack.v
