(* ===== verification/Prelude.v ===== *)
(** * PulseHTTP: a verification development

    PulseHTTP (Go, under src/) is an HTTP/1.1 server built on raw TCP, with a
    router, middlewares, a response cache, metrics, a load balancer, a demo
    program and a load generator.  This library models all of them and proves
    what they are meant to do, and states as theorems the places where they
    do something else.

    ** The program and its model

    A connection is a stream of bytes with an ending (end of file, an expired
    deadline or a failure) read through a buffer: [GoIO.reader].  The server's
    loop, [Server.serveConn] (httpcore/server.go), parses a request with
    [Request.ParseRequest] (httpcore/request.go), runs a [Handler.Handler] under
    the recover barrier [safeHandle], and writes [Response.serialize]
    (httpcore/response.go).  A handler maps an exchange, the request, the writer
    and the shared world, to [Returned] or [Panicked] and the exchange it left;
    what it did before a panic stays done.  A middleware maps handlers to
    handlers, so the stack of [App.mainHandler] (cmd/pulsehttp/main.go) is the
    composition the program builds.  A component sees its state through a
    [Lens] into the world, reads the clock through [Clock] and calls the
    network through [Network]: the interfaces its client is proved against.

    Go's standard library, as far as the source uses it:
    - GoStrings: strings, strconv, hex, [textproto] keys, [net.SplitHostPort];
    - GoFloat: IEEE 754 binary64 arithmetic and conversions, one rounding per
      operation (no fused multiply-add);
    - GoIO: [bufio.Reader], [io.ReadFull], [io.ReadAll], a writer;
    - GoURL, GoTime, GoJSON, GoFmt, Sha256: [net/url], [time],
      [encoding/json], [fmt]'s fixed-point decimals, [crypto/sha256].
    Components, each a file with its state, operations and invariant:
    - Headers (httpcore/headers.go): the ordered, case-insensitive map, refined
      to an association list;
    - Status, Request, Response, Handler, Server (httpcore/);
    - ServerLife (httpcore/server.go): [ListenAndServe], [track] and [Shutdown]
      as a step relation over the server's fields and the program points of the
      accept loop, of each connection's goroutine and of the shutdown; [exec] is
      its executable form and the two are proved to agree; ConnMachine puts the
      code of [serveConn] between the program points of one goroutine;
    - Middleware (middleware/middleware.go, auth.go), RateLimit
      (middleware/ratelimit.go), Router (router/router.go), Cache
      (cache/cache.go), Metrics (metrics/metrics.go);
    - Proxy (proxy/proxy.go): selection, connection pool, relay and failover;
    - App (cmd/pulsehttp/main.go): the demo routes, the role table and the
      assembly of the stack from the flags; Process: the rest of [main], the
      signal's goroutine, the deferred calls and the exit of the process around
      the server's life;
    - Bench (cmd/pulsebench/main.go): the load generator's workers as steps of
      a shared counter, its response reader, its reports and its [main].
    Definitions keep the source's names where Rocq allows it.

    ** What is proved

    - RequestFacts, RequestRoundtrip, RequestProps: every request the parser
      accepts is within every limit, every failure has one of six statuses, the
      parser ends on every input, and a printed request parses back to itself;
      a line is read independently of the buffer, a chunked body decodes to its
      chunks, and a chunk size near 2^63 overflows the limit test.
    - ServerProps, ServerLifeProps: pipelined requests are answered in order, a
      panic in a handler costs one response, the loop ends; the server's books
      (tracked connections, wait group, address) are exact in every reachable
      state, a drain ends within a bound and never gets stuck, the connection
      loop is the run of its goroutine and a run of the server, and what
      [Shutdown] misses.
    - MiddlewareProps, RouterProps, RateLimitProps, CacheProps, MetricsProps:
      one forgery-proof access line per request, the 401/403 boundary, first
      match and the exact [Allow] list, the limiter as a token bucket
      whose [Retry-After] is honest and whose janitor forgets nothing, the cache
      as an LRU map whose hits reproduce the response that was stored, exact
      counters.
    - ProxyProps, Wire, ProxyWire, ProxyForward: candidate order, failover, what
      a health check and [Stop] leave, and the two wire formats read back: the
      proxy reads what the server writes, and a server reads what the proxy
      writes.
    - WellFormed, AppProps: every response of the demo program, as a server or
      as a load balancer over upstreams that send clean headers, is one
      well-formed message, whatever the client sends; who reaches the admin
      route.
    - Process: the exit status, and the drain [main] does not wait for.
    - Site, ProxyChain: the server at the other end of a network, and the load
      balancer in front of it: the client gets what the server's handler gave to
      the forwarded request.
    - BenchProps: the load generator reads back what the server writes and
      fires exactly the requests asked for.
    - LoadTest: the load generator run against the demo program over Site, each
      with its own definitions and the connections between them: every schedule
      that ends reports all requests completed and none failed.
    - Stack: a host in front of another instance of the program.  The server
      discharges what the load balancer's theorems ask of the network
      ([lan_envOk]), so chains of instances compose; the load generator, a load
      balancer and a server are run together, with nothing assumed between them.
    Examples holds the runtime, the request and the clock the witnesses use.

    ** Bounds and fuel

    Integers are [Z] wrapped at their width ([wrap64], [uwrap64]) where the
    source computes with them and the theorem does not bound them.  Every loop
    that is not structural takes fuel that the caller derives from the input:
    each header line, trailer line, chunk, request and response line consumes at
    least a byte, so the length of the stream plus one is enough
    ([ParseRequest_terminates], [serveConn_bounded], [length_headerWire_le]).
    [RateLimit] is compared with the integer token bucket where its floats are
    exact: whole seconds, integer rate and burst, products below 2^53, and a
    refill time of less than 2^33 seconds (from 9.3 * 10^9 on the janitor's idle
    period overflows).  What a request gets from it is stated for every configuration.

    ** Not modelled

    TLS and TCP (a listener is its address, a connection its stream), flag
    parsing and the delivery of signals are the runtime's.  The connection
    goroutines share state only through the components' critical sections, each
    of which is one step.  Error texts are kept as format and arguments where a response shows them, otherwise
    dropped.  [strings.ToUpper] outside ASCII, out-of-range float conversions
    and the shortest decimal of a float are parameters ([GoRuntime]).
    [sync.WaitGroup] is its counter; its misuse panic is left out, and so are
    the panics of a negative pool size or health interval, which no flag sets.
    In Site, and so in ProxyChain, LoadTest and Stack, an exchange on a
    connection is one step, and the network neither fails nor delays. *)

From Stdlib Require Export Ascii String ZArith Lia.
From stdpp Require Export base tactics list strings gmap countable sorting.

#[export] Set Default Goal Selector "!".
#[global] Open Scope Z_scope.

(** A Go [string] or [[]byte] is its list of bytes. *)
Abbreviation bytes := (list ascii).

Declare Scope go_scope.
Delimit Scope go_scope with go.
(** [$"GET"] is the byte list of a string literal. *)
Notation "$ s" := (list_ascii_of_string s%string)
  (at level 1, s at level 0, format "$ s") : go_scope.
#[global] Open Scope go_scope.

#[global] Arguments list_ascii_of_string : simpl never.

(** Length of a Go string or slice: Go's [len], an [int]. *)
Definition len {A} (l : list A) : Z := Z.of_nat (length l).

(** Two's complement wrap-around of a value stored in an [int64] (Go's [int]
    on 64-bit targets) and in a [uint64]. *)
Definition wrap64 (z : Z) : Z := (z + 2 ^ 63) `mod` 2 ^ 64 - 2 ^ 63.
Definition uwrap64 (z : Z) : Z := z `mod` 2 ^ 64.
Definition int64_ok (z : Z) : Prop := - 2 ^ 63 <= z < 2 ^ 63.

(** How a call ended: it returned, or it panicked. *)
Inductive flow := Returned | Panicked.

#[global] Instance flow_eq_dec : EqDecision flow.
Proof. solve_decision. Defined.

Create HintDb pulse discriminated.
Create Rewrite HintDb pulse.

Lemma len_nil {A} : len (@nil A) = 0.
Proof. done. Qed.

Lemma len_cons {A} (x : A) l : len (x :: l) = 1 + len l.
Proof. unfold len. simpl. lia. Qed.

Lemma len_app {A} (l k : list A) : len (l ++ k) = len l + len k.
Proof. unfold len. rewrite length_app. lia. Qed.

Lemma len_nonneg {A} (l : list A) : 0 <= len l.
Proof. unfold len. lia. Qed.

#[export] Hint Rewrite @len_nil @len_cons @len_app : pulse.
#[export] Hint Resolve len_nonneg : pulse.

Lemma wrap64_id z : int64_ok z -> wrap64 z = z.
Proof.
  unfold wrap64, int64_ok. intros H. rewrite Z.mod_small; lia.
Qed.

Lemma wrap64_ok z : int64_ok (wrap64 z).
Proof.
  unfold wrap64, int64_ok.
  pose proof (Z.mod_pos_bound (z + 2 ^ 63) (2 ^ 64)). lia.
Qed.

(** A sum of two non-negative [int64] that passes [2^63 - 1] comes out negative. *)
Lemma wrap64_overflow z : 2 ^ 63 <= z < 2 ^ 64 -> wrap64 z = z - 2 ^ 64.
Proof.
  unfold wrap64. intros H.
  replace (z + 2 ^ 63) with ((z - 2 ^ 63) + 1 * 2 ^ 64) by lia.
  rewrite Z.mod_add by lia. rewrite Z.mod_small; lia.
Qed.

Lemma wrap64_add_l a b : wrap64 (wrap64 a + b) = wrap64 (a + b).
Proof.
  unfold wrap64. replace ((a + 2 ^ 63) `mod` 2 ^ 64 - 2 ^ 63 + b + 2 ^ 63)
    with ((a + 2 ^ 63) `mod` 2 ^ 64 + b) by lia.
  rewrite Z.add_mod_idemp_l by lia. f_equal. f_equal. lia.
Qed.

Lemma take_S_app {A} (a b : list A) x : take (S (length a)) (a ++ x :: b) = a ++ [x].
Proof. induction a as [|y a IH]; simpl; [by rewrite take_0|]. by f_equal. Qed.

Lemma drop_S_app {A} (a b : list A) x : drop (S (length a)) (a ++ x :: b) = b.
Proof. induction a as [|y a IH]; simpl; [by rewrite drop_0|]. done. Qed.

(** Refute a membership in a closed list by computation. *)
Ltac absurd_elem H :=
  let E := fresh in pose proof (bool_decide_eq_true_2 _ H) as E; by vm_compute in E.
