(* ===== verification/GoStrings.v ===== *)
(** * The Go string functions the program calls

    Executable models of the parts of [strings], [strconv], [encoding/hex],
    [sort], [net/textproto] and [net] that the sources use, on byte lists.
    Go strings hold arbitrary bytes; where the library decodes UTF-8 the model
    says so.  Two of the definitions follow Go only for the arguments this
    program passes: [EqualFold] and [ToLower] are exact when their result is
    compared with an ASCII string, which is how every caller uses them. *)

From S2P Require Import Prelude.
From Stdlib Require Import SpecFloat.

(** ** Bytes *)

Definition bz (c : ascii) : Z := Z.of_N (N_of_ascii c).
Definition zb (z : Z) : ascii := ascii_of_N (Z.to_N z).

Definition between (lo c hi : Z) : bool := (lo <=? c) && (c <=? hi).
Definition isDigit (c : ascii) : bool := between 48 (bz c) 57.
Definition isLowerAlpha (c : ascii) : bool := between 97 (bz c) 122.
Definition isUpperAlpha (c : ascii) : bool := between 65 (bz c) 90.
Definition isASCII (s : bytes) : bool := forallb (fun c => bz c <? 128) s.

Definition lowerByte (c : ascii) : ascii := if isUpperAlpha c then zb (bz c + 32) else c.
Definition upperByte (c : ascii) : ascii := if isLowerAlpha c then zb (bz c - 32) else c.

(** Go's [==] on strings. *)
Definition beq (s t : bytes) : bool := bool_decide (s = t).

Definition sp : ascii := " ".
Definition cr : ascii := "013".
Definition nl : ascii := "010".
Definition comma : ascii := ",".
Definition colon : ascii := ":".
Definition slash : ascii := "/".
Definition CRLF : bytes := [cr; nl].

(** ** strings *)

Definition HasPrefix (s p : bytes) : bool := beq (take (length p) s) p.

Definition CutPrefix (s p : bytes) : bytes * bool :=
  if HasPrefix s p then (drop (length p) s, true) else (s, false).

Definition HasSuffix (s p : bytes) : bool :=
  (length p <=? length s)%nat && beq (drop (length s - length p) s) p.

Definition TrimSuffix (s p : bytes) : bytes :=
  if HasSuffix s p then take (length s - length p) s else s.

Fixpoint IndexByte (s : bytes) (c : ascii) : option nat :=
  match s with
  | [] => None
  | d :: s' => if decide (d = c) then Some O else S <$> IndexByte s' c
  end.

(** [strings.Index]: offset of the first occurrence of [sub]. *)
Fixpoint Index (s sub : bytes) : option nat :=
  if HasPrefix s sub then Some O
  else match s with
       | [] => None
       | _ :: s' => S <$> Index s' sub
       end.

Definition Contains (s sub : bytes) : bool :=
  match Index s sub with Some _ => true | None => false end.

Definition ContainsAny (s chars : bytes) : bool :=
  existsb (fun c => bool_decide (c ∈ chars)) s.

(** [strings.Split] with a one-byte separator. *)
Fixpoint Split (s : bytes) (sep : ascii) : list bytes :=
  match s with
  | [] => [[]]
  | c :: s' =>
    if decide (c = sep) then [] :: Split s' sep
    else match Split s' sep with
         | p :: ps => (c :: p) :: ps
         | [] => [[c]]
         end
  end.

(** [strings.Cut] with a one-byte separator. *)
Fixpoint Cut (s : bytes) (sep : ascii) : bytes * bytes * bool :=
  match s with
  | [] => ([], [], false)
  | c :: s' =>
    if decide (c = sep) then ([], s', true)
    else let '(before, after, found) := Cut s' sep in (c :: before, after, found)
  end.

(** [strings.SplitN s sep n] with a one-byte separator, for [n >= 1]. *)
Fixpoint SplitN (s : bytes) (sep : ascii) (n : nat) : list bytes :=
  match n with
  | O => []
  | S O => [s]
  | S n' =>
    match Cut s sep with
    | (before, after, true) => before :: SplitN after sep n'
    | (_, _, false) => [s]
    end
  end.

Fixpoint Join (l : list bytes) (sep : bytes) : bytes :=
  match l with
  | [] => []
  | [s] => s
  | s :: l' => s ++ sep ++ Join l' sep
  end.

Fixpoint trimLeftBy (f : ascii -> bool) (s : bytes) : bytes :=
  match s with
  | c :: s' => if f c then trimLeftBy f s' else s
  | [] => []
  end.

Definition trimRightBy (f : ascii -> bool) (s : bytes) : bytes :=
  rev (trimLeftBy f (rev s)).

(** [strings.Trim] and [strings.TrimRight] with an ASCII cut set. *)
Definition Trim (s cutset : bytes) : bytes :=
  let f c := bool_decide (c ∈ cutset) in trimRightBy f (trimLeftBy f s).
Definition TrimRight (s cutset : bytes) : bytes :=
  trimRightBy (fun c => bool_decide (c ∈ cutset)) s.

(** [strings.TrimSpace]: [unicode.IsSpace] on the UTF-8 decoding.  The one-byte
    spaces are tab, newline, vertical tab, form feed, carriage return and
    space; U+0085 and U+00A0 take two bytes; U+1680, U+2000 to U+200A, U+2028,
    U+2029, U+202F, U+205F and U+3000 take three. *)
Definition space1 (c : ascii) : bool := between 9 (bz c) 13 || (bz c =? 32).
Definition space2 (c1 c2 : ascii) : bool :=
  (bz c1 =? 0xC2) && ((bz c2 =? 0x85) || (bz c2 =? 0xA0)).
Definition space3 (c1 c2 c3 : ascii) : bool :=
  let '(a, b, c) := (bz c1, bz c2, bz c3) in
  (a =? 0xE1) && (b =? 0x9A) && (c =? 0x80)
  || (a =? 0xE2) && (b =? 0x80) && (between 0x80 c 0x8A || (c =? 0xA8) || (c =? 0xA9) || (c =? 0xAF))
  || (a =? 0xE2) && (b =? 0x81) && (c =? 0x9F)
  || (a =? 0xE3) && (b =? 0x80) && (c =? 0x80).

Fixpoint trimSpaces (sp2 : ascii -> ascii -> bool) (sp3 : ascii -> ascii -> ascii -> bool)
    (s : bytes) : bytes :=
  match s with
  | [] => []
  | c1 :: s1 =>
    if space1 c1 then trimSpaces sp2 sp3 s1
    else match s1 with
         | [] => s
         | c2 :: s2 =>
           if sp2 c1 c2 then trimSpaces sp2 sp3 s2
           else match s2 with
                | [] => s
                | c3 :: s3 => if sp3 c1 c2 c3 then trimSpaces sp2 sp3 s3 else s
                end
         end
  end.

Definition TrimSpace (s : bytes) : bytes :=
  rev (trimSpaces (fun a b => space2 b a) (fun a b c => space3 c b a)
         (rev (trimSpaces space2 space3 s))).

(** Simple case folding.  Outside ASCII only U+212A (Kelvin sign) and U+017F
    (long s) fold to an ASCII letter. *)
Fixpoint fold (s : bytes) : bytes :=
  match s with
  | [] => []
  | c1 :: s1 =>
    match s1 with
    | c2 :: s2 =>
      if (bz c1 =? 0xC5) && (bz c2 =? 0xBF) then "s"%char :: fold s2
      else match s2 with
           | c3 :: s3 =>
             if (bz c1 =? 0xE2) && (bz c2 =? 0x84) && (bz c3 =? 0xAA)
             then "k"%char :: fold s3 else lowerByte c1 :: fold s1
           | [] => lowerByte c1 :: fold s1
           end
    | [] => lowerByte c1 :: fold s1
    end
  end.

Definition EqualFold (s t : bytes) : bool := beq (fold s) (fold t).

(** [strings.ToLower], up to the non-ASCII bytes it leaves non-ASCII: outside
    ASCII only U+212A and U+0130 have an ASCII lower case. *)
Fixpoint ToLower (s : bytes) : bytes :=
  match s with
  | [] => []
  | c1 :: s1 =>
    match s1 with
    | c2 :: s2 =>
      if (bz c1 =? 0xC4) && (bz c2 =? 0xB0) then "i"%char :: ToLower s2
      else match s2 with
           | c3 :: s3 =>
             if (bz c1 =? 0xE2) && (bz c2 =? 0x84) && (bz c3 =? 0xAA)
             then "k"%char :: ToLower s3 else lowerByte c1 :: ToLower s1
           | [] => lowerByte c1 :: ToLower s1
           end
    | [] => lowerByte c1 :: ToLower s1
    end
  end.

(** What the program needs of the Go runtime and of the Unicode tables and is
    not computed here: [strings.ToUpper] on a string with a non-ASCII byte; the
    conversion of a [float64] outside the [int64] range (or a NaN) to [int64],
    which Go leaves to the platform; and the shortest decimal text of a
    [float64], which only reaches the body of [/metrics]. *)
Class GoRuntime := {
  unicodeToUpper : bytes -> bytes;
  floatToIntOutOfRange : spec_float -> Z;
  formatFloat : spec_float -> bytes;
}.

Definition ToUpper `{GoRuntime} (s : bytes) : bytes :=
  if isASCII s then upperByte <$> s else unicodeToUpper s.

(** A runtime to compute examples with: identity on non-ASCII strings, and the
    amd64 result of an out-of-range conversion. *)
Definition exampleRuntime : GoRuntime :=
  {| unicodeToUpper s := s; floatToIntOutOfRange _ := - 2 ^ 63; formatFloat _ := [] |}.

(** ** strconv *)

Definition digitByte (d : Z) : ascii := if d <? 10 then zb (48 + d) else zb (87 + d).

(** Digits of [n >= 0] in the given base, most significant first. *)
Fixpoint fmtDigits (fuel : nat) (base n : Z) (acc : bytes) : bytes :=
  match fuel with
  | O => acc
  | S fuel' =>
    let acc' := digitByte (n `mod` base) :: acc in
    if n <? base then acc' else fmtDigits fuel' base (n `div` base) acc'
  end.

Definition FormatUint (n base : Z) : bytes :=
  fmtDigits (S (Z.to_nat (Z.log2 n))) base n [].

Definition FormatInt (n base : Z) : bytes :=
  if n <? 0 then "-"%char :: FormatUint (- n) base else FormatUint n base.

Definition Itoa (n : Z) : bytes := FormatInt n 10.

(** Which [*NumError] a conversion returned. *)
Inductive numError := ErrSyntax | ErrRange.

Definition digitValue (c : ascii) : option Z :=
  if isDigit c then Some (bz c - 48)
  else if isLowerAlpha (lowerByte c) then Some (bz (lowerByte c) - 97 + 10)
  else None.

Definition maxUint64 : Z := 2 ^ 64 - 1.

(** The digit loop of [strconv.ParseUint] at 64 bits: it stops at the first
    bad digit or as soon as the value leaves the range. *)
Fixpoint parseDigits (base : Z) (s : bytes) (n : Z) : Z * option numError :=
  match s with
  | [] => (n, None)
  | c :: s' =>
    match digitValue c with
    | None => (0, Some ErrSyntax)
    | Some d =>
      if base <=? d then (0, Some ErrSyntax)
      else if maxUint64 / base + 1 <=? n then (maxUint64, Some ErrRange)
      else let n1 := n * base + d in
           if maxUint64 <? n1 then (maxUint64, Some ErrRange)
           else parseDigits base s' n1
    end
  end.

Definition ParseUint (s : bytes) (base : Z) : Z * option numError :=
  match s with
  | [] => (0, Some ErrSyntax)
  | _ => parseDigits base s 0
  end.

(** [strconv.ParseInt s base 64] for an explicit base of 10 or 16. *)
Definition ParseInt (s : bytes) (base : Z) : Z * option numError :=
  match s with
  | [] => (0, Some ErrSyntax)
  | c :: s' =>
    let '(neg, digits) :=
      if decide (c = "+"%char) then (false, s')
      else if decide (c = "-"%char) then (true, s')
      else (false, s) in
    let '(un, err) := ParseUint digits base in
    match err with
    | Some ErrSyntax => (0, Some ErrSyntax)
    | _ =>
      if negb neg && (2 ^ 63 <=? un) then (2 ^ 63 - 1, Some ErrRange)
      else if neg && (2 ^ 63 <? un) then (- 2 ^ 63, Some ErrRange)
      else (if neg then - un else un, None)
    end
  end.

Definition Atoi (s : bytes) : Z * option numError := ParseInt s 10.

(** ** encoding/hex *)

Definition hexEncode (s : bytes) : bytes :=
  s ≫= fun c => [digitByte (bz c / 16); digitByte (bz c `mod` 16)].

(** ** net/textproto *)

(** The token bytes of RFC 7230: letters, digits and a few marks. *)
Definition validHeaderFieldByte (c : ascii) : bool :=
  isDigit c || isLowerAlpha c || isUpperAlpha c ||
  bool_decide (c ∈ $"!#$%&'*+-.^_`|~").

Fixpoint canonBytes (upper : bool) (s : bytes) : bytes :=
  match s with
  | [] => []
  | c :: s' =>
    (if upper then upperByte c else lowerByte c)
      :: canonBytes (bool_decide (c = "-"%char)) s'
  end.

(** [textproto.CanonicalMIMEHeaderKey]: a key with a byte that is not a token
    byte comes back unchanged. *)
Definition CanonicalMIMEHeaderKey (s : bytes) : bytes :=
  if forallb validHeaderFieldByte s then canonBytes true s else s.

(** ** sort.Strings *)

Fixpoint bytes_leb (s t : bytes) : bool :=
  match s, t with
  | [], _ => true
  | _ :: _, [] => false
  | c :: s', d :: t' =>
    if bz c <? bz d then true else if bz d <? bz c then false else bytes_leb s' t'
  end.

Definition bytes_le (s t : bytes) : Prop := bytes_leb s t = true.
#[global] Instance bytes_le_dec : RelDecision bytes_le := fun s t => decide (bytes_leb s t = true).

Definition sortStrings (l : list bytes) : list bytes := merge_sort bytes_le l.

(** ** net.SplitHostPort *)

Fixpoint LastIndexByte (s : bytes) (c : ascii) : option nat :=
  match s with
  | [] => None
  | d :: s' =>
    match LastIndexByte s' c with
    | Some i => Some (S i)
    | None => if decide (d = c) then Some O else None
    end
  end.

Definition SplitHostPort (hostport : bytes) : option (bytes * bytes) :=
  let hasByte s c := match IndexByte s c with Some _ => true | None => false end in
  match LastIndexByte hostport colon with
  | None => None
  | Some i =>
    let port := drop (S i) hostport in
    match hostport with
    | "["%char :: _ =>
      match IndexByte hostport "]"%char with
      | None => None
      | Some e =>
        if decide (S e = i) then
          if hasByte (drop 1 hostport) "["%char || hasByte (drop (S e) hostport) "]"%char then None
          else Some (take (e - 1) (drop 1 hostport), port)
        else None
      end
    | _ =>
      let host := take i hostport in
      if hasByte host colon then None
      else if hasByte hostport "["%char || hasByte hostport "]"%char then None
      else Some (host, port)
    end
  end.

(** ** Lemmas: numbers print and parse back *)

Definition isDigitOf (base : Z) (c : ascii) : Prop :=
  exists d, digitValue c = Some d /\ 0 <= d < base.

Definition dval (base : Z) (s : bytes) (n : Z) : Z :=
  foldl (fun n c => n * base + default 0 (digitValue c)) n s.

Lemma digitValue_digitByte d : 0 <= d < 16 -> digitValue (digitByte d) = Some d.
Proof.
  intros Hd. assert (Forall (fun d => digitValue (digitByte d) = Some d) (seqZ 0 16)) as HF.
  { vm_compute. repeat constructor. }
  rewrite Forall_forall in HF. apply HF, elem_of_seqZ. lia.
Qed.

Lemma dval_app base s t n : dval base (s ++ t) n = dval base t (dval base s n).
Proof. apply foldl_app. Qed.

Lemma dval_ge base s n :
  1 <= base -> 0 <= n -> Forall (isDigitOf base) s -> n <= dval base s n.
Proof.
  intros Hb Hn HF. revert n Hn. induction HF as [|c s (d & Ed & Hd) _ IH]; intros n Hn; [done|].
  unfold dval. simpl. rewrite Ed. simpl. fold (dval base s (n * base + d)).
  etransitivity; [|apply IH]; nia.
Qed.

Lemma parseDigits_ok base s n :
  1 <= base -> 0 <= n -> Forall (isDigitOf base) s -> dval base s n <= maxUint64 ->
  parseDigits base s n = (dval base s n, None).
Proof.
  intros Hb Hn HF. revert n Hn.
  induction HF as [|c s (d & Ed & Hd) HF IH]; intros n Hn Hmax; [done|].
  simpl. rewrite Ed. unfold dval in *. simpl in *. rewrite Ed in *. simpl in *.
  fold (dval base s (n * base + d)) in *.
  pose proof (dval_ge base s (n * base + d) Hb ltac:(nia) HF).
  destruct (Z.leb_spec base d); [lia|].
  destruct (Z.leb_spec (maxUint64 / base + 1) n) as [Hc|_].
  { exfalso. assert (n <= maxUint64 / base); [|lia]. apply Z.div_le_lower_bound; nia. }
  destruct (Z.ltb_spec maxUint64 (n * base + d)); [lia|]. apply IH; [nia|done].
Qed.

Lemma fmtDigits_spec base fuel n acc :
  2 <= base <= 16 -> 0 <= n < base ^ (1 + Z.of_nat fuel) ->
  exists ds, fmtDigits (S fuel) base n acc = ds ++ acc /\ ds <> [] /\
    Forall (isDigitOf base) ds /\ dval base ds 0 = n /\
    (forall k, 1 <= k -> n < base ^ k -> len ds <= k).
Proof.
  intros Hb. revert n acc. induction fuel as [|fuel IH]; intros n acc Hn.
  all: assert (isDigitOf base (digitByte (n `mod` base))) as Hdig
    by (exists (n `mod` base); pose proof (Z.mod_pos_bound n base);
        split; [apply digitValue_digitByte; lia|lia]).
  all: assert (digitValue (digitByte (n `mod` base)) = Some (n `mod` base)) as Edig
    by (apply digitValue_digitByte; pose proof (Z.mod_pos_bound n base); lia).
  all: cbn [fmtDigits]; destruct (Z.ltb_spec n base) as [Hlt|Hge].
  1,3: exists [digitByte (n `mod` base)]; split_and!; [done|done|auto|
    unfold dval; simpl; rewrite Edig; simpl; apply Z.mod_small; lia|
    intros k Hk _; unfold len; simpl; lia].
  - exfalso. simpl in Hn. lia.
  - destruct (IH (n `div` base) (digitByte (n `mod` base) :: acc)) as (ds & E & Hne & HF & Hv & Hl).
    { split; [apply Z.div_pos; lia|]. apply Z.div_lt_upper_bound; [lia|].
      rewrite <- Z.pow_succ_r by lia. replace (Z.succ (1 + Z.of_nat fuel)) with (1 + Z.of_nat (S fuel)) by lia. lia. }
    exists (ds ++ [digitByte (n `mod` base)]). split_and!.
    + change (fmtDigits (S fuel) base (n `div` base) (digitByte (n `mod` base) :: acc)
        = (ds ++ [digitByte (n `mod` base)]) ++ acc). rewrite E. by rewrite <- app_assoc.
    + by destruct ds.
    + apply Forall_app; auto.
    + rewrite dval_app, Hv. unfold dval. simpl. rewrite Edig. simpl.
      rewrite Z.mul_comm. symmetry. apply Z.div_mod. lia.
    + intros k Hk Hnk. rewrite len_app. change (len [digitByte (n `mod` base)]) with 1.
      destruct (decide (k = 1)) as [->|Hk1]; [rewrite Z.pow_1_r in Hnk; lia|].
      enough (len ds <= k - 1) by lia. apply Hl; [lia|].
      apply Z.div_lt_upper_bound; [lia|]. rewrite <- Z.pow_succ_r by lia.
      replace (Z.succ (k - 1)) with k by lia. done.
Qed.

Lemma FormatUint_spec base n :
  2 <= base <= 16 -> 0 <= n ->
  FormatUint n base <> [] /\ Forall (isDigitOf base) (FormatUint n base) /\
  dval base (FormatUint n base) 0 = n /\
  (forall k, 1 <= k -> n < base ^ k -> len (FormatUint n base) <= k).
Proof.
  intros Hb Hn. unfold FormatUint.
  destruct (fmtDigits_spec base (Z.to_nat (Z.log2 n)) n []) as (ds & E & H); [done| |].
  { split; [done|]. rewrite Z2Nat.id by apply Z.log2_nonneg.
    destruct (decide (n = 0)) as [->|Hz]; [apply Z.pow_pos_nonneg; simpl; lia|].
    pose proof (Z.log2_spec n ltac:(lia)) as [_ Hlt].
    rewrite Z.add_1_l. eapply Z.lt_le_trans; [exact Hlt|].
    apply Z.pow_le_mono_l. lia. }
  rewrite E, app_nil_r. done.
Qed.

Lemma ParseInt_FormatInt base n :
  2 <= base <= 16 -> 0 <= n < 2 ^ 63 -> ParseInt (FormatInt n base) base = (n, None).
Proof.
  intros Hb Hn. unfold FormatInt. destruct (Z.ltb_spec n 0); [lia|].
  destruct (FormatUint_spec base n) as (Hne & HF & Hv & _); [done|lia|].
  destruct (FormatUint n base) as [|c s] eqn:E; [done|].
  pose proof (proj1 (Forall_cons_1 _ _ _ HF)) as (d & Ed & _).
  unfold ParseInt. rewrite !decide_False by (intros ->; by vm_compute in Ed).
  unfold ParseUint. rewrite parseDigits_ok, Hv; [| lia | lia | done | rewrite Hv; unfold maxUint64; lia].
  simpl. destruct (Z.leb_spec (2 ^ 63) n); [lia|done].
Qed.

(** ** Lemmas: trimming *)

(** Visible ASCII: no trimming function removes such a byte. *)
Definition graphic (c : ascii) : bool := between 33 (bz c) 126.

Lemma between_spec lo c hi : between lo c hi = true <-> lo <= c <= hi.
Proof. unfold between. rewrite andb_true_iff, !Z.leb_le. done. Qed.

Lemma between_false lo c hi : between lo c hi = false <-> ~ lo <= c <= hi.
Proof. rewrite <- between_spec. by destruct (between lo c hi). Qed.

Lemma bz_range c : 0 <= bz c < 256.
Proof.
  unfold bz. split; [apply N2Z.is_nonneg|].
  pose proof (N_ascii_bounded c). lia.
Qed.

Ltac byte_lia :=
  repeat match goal with
  | H : between _ _ _ = true |- _ => apply between_spec in H
  | H : between _ _ _ = false |- _ => apply between_false in H
  end;
  repeat match goal with
  | |- andb _ _ = false => apply andb_false_iff
  | |- orb _ _ = false => apply orb_false_iff; split
  | |- between _ _ _ = false => apply between_false
  | |- (_ =? _) = false => apply Z.eqb_neq
  end; try lia.

Lemma graphic_space1 c : graphic c = true -> space1 c = false.
Proof. unfold graphic, space1. intros H. byte_lia. Qed.

Lemma trimSpaces_stop sp2 sp3 c s :
  space1 c = false -> (forall a, sp2 c a = false) -> (forall a b, sp3 c a b = false) ->
  trimSpaces sp2 sp3 (c :: s) = c :: s.
Proof.
  intros H1 H2 H3. simpl. rewrite H1. destruct s as [|a s]; [done|]. rewrite H2.
  destruct s as [|b s]; [done|]. by rewrite H3.
Qed.

Lemma graphic_space2 c a :
  graphic c = true -> space2 c a = false /\ space2 a c = false.
Proof.
  unfold graphic, space2. intros H%between_spec.
  assert ((bz c =? 0xC2) = false) as -> by (apply Z.eqb_neq; lia).
  assert ((bz c =? 0x85) = false) as -> by (apply Z.eqb_neq; lia).
  assert ((bz c =? 0xA0) = false) as -> by (apply Z.eqb_neq; lia).
  by rewrite andb_false_r.
Qed.

Lemma graphic_space3 c a b :
  graphic c = true -> space3 c a b = false /\ space3 a b c = false.
Proof.
  unfold graphic, space3. intros H%between_spec.
  assert (forall k, 126 < k -> (bz c =? k) = false) as Hk by (intros; apply Z.eqb_neq; lia).
  assert (between 0x80 (bz c) 0x8A = false) as -> by (apply between_false; lia).
  rewrite !Hk by lia. simpl. by rewrite !andb_false_r.
Qed.

Lemma TrimSpace_id s :
  (forall c, head s = Some c -> graphic c = true) ->
  (forall c, last s = Some c -> graphic c = true) -> TrimSpace s = s.
Proof.
  intros Hh Hl. unfold TrimSpace.
  assert (trimSpaces space2 space3 s = s) as ->.
  { destruct s as [|c s]; [done|]. specialize (Hh c eq_refl).
    apply trimSpaces_stop; intros; auto using graphic_space1;
      [exact (proj1 (graphic_space2 _ _ Hh))|exact (proj1 (graphic_space3 _ _ _ Hh))]. }
  destruct s as [|c s] using rev_ind; [done|]. specialize (Hl c (last_snoc _ _)).
  rewrite rev_app_distr. simpl rev at 2. cbn [app].
  rewrite trimSpaces_stop.
  - simpl. by rewrite rev_involutive.
  - by apply graphic_space1.
  - intros a. exact (proj2 (graphic_space2 _ _ Hl)).
  - intros a b. exact (proj2 (graphic_space3 _ _ _ Hl)).
Qed.

Lemma TrimSpace_graphic s : Forall (fun c => graphic c = true) s -> TrimSpace s = s.
Proof.
  intros HF. rewrite Forall_forall in HF. apply TrimSpace_id; intros c Hc; apply HF.
  - destruct s; simplify_eq/=. by left.
  - by apply last_Some_elem_of.
Qed.

(** Leading and trailing ASCII spaces around a trimmed string disappear. *)
Lemma TrimSpace_sp s : TrimSpace (sp :: s) = TrimSpace s.
Proof. done. Qed.

Lemma isDigitOf_graphic base c : base <= 16 -> isDigitOf base c -> graphic c = true.
Proof.
  intros Hb (d & Hd & _). revert Hd. clear.
  destruct c as [[] [] [] [] [] [] [] []]; vm_compute; intros; first [done|congruence].
Qed.

Lemma FormatUint_graphic base n :
  2 <= base <= 16 -> 0 <= n -> Forall (fun c => graphic c = true) (FormatUint n base).
Proof.
  intros Hb Hn. destruct (FormatUint_spec base n) as (_ & HF & _); [done|done|].
  eapply Forall_impl; [exact HF|]. intros c Hc. apply (isDigitOf_graphic base); [lia|done].
Qed.

Lemma TrimSuffix_app s p : TrimSuffix (s ++ p) p = s.
Proof.
  unfold TrimSuffix, HasSuffix. rewrite length_app.
  replace (length s + length p - length p)%nat with (length s) by lia.
  rewrite drop_app_length, take_app_length. unfold beq.
  rewrite bool_decide_true by done.
  destruct (Nat.leb_spec (length p) (length s + length p)); [done|lia].
Qed.

Lemma TrimSuffix_none s c : last s <> Some c -> TrimSuffix s [c] = s.
Proof.
  intros Hl. unfold TrimSuffix, HasSuffix, beq.
  case_bool_decide as E; [|by rewrite andb_false_r].
  exfalso. apply Hl. rewrite <- (take_drop (length s - length [c]) s), E. apply last_snoc.
Qed.

Lemma Cut_app s t c : c ∉ s -> Cut (s ++ c :: t) c = (s, t, true).
Proof.
  induction s as [|d s IH]; simpl; [by rewrite decide_True|].
  intros [? ?]%not_elem_of_cons. rewrite decide_False by congruence. by rewrite IH.
Qed.

Lemma Cut_none s c : c ∉ s -> Cut s c = (s, [], false).
Proof.
  induction s as [|d s IH]; simpl; [done|].
  intros [? ?]%not_elem_of_cons. rewrite decide_False by congruence. by rewrite IH.
Qed.

Lemma Split_cons s t c : c ∉ s -> Split (s ++ c :: t) c = s :: Split t c.
Proof.
  induction s as [|d s IH]; simpl; [by rewrite decide_True|].
  intros [? ?]%not_elem_of_cons. rewrite decide_False by congruence. by rewrite IH.
Qed.

Lemma Split_one s c : c ∉ s -> Split s c = [s].
Proof.
  induction s as [|d s IH]; simpl; [done|].
  intros [? ?]%not_elem_of_cons. rewrite decide_False by congruence. by rewrite IH.
Qed.

(** [trimSpaces] drops a prefix and stops where no space starts. *)
Definition startsSpace (sp2 : ascii -> ascii -> bool) (sp3 : ascii -> ascii -> ascii -> bool)
    (s : bytes) : bool :=
  match s with
  | [] => false
  | c1 :: s1 =>
    space1 c1 ||
    match s1 with
    | [] => false
    | c2 :: s2 => sp2 c1 c2 || match s2 with [] => false | c3 :: _ => sp3 c1 c2 c3 end
    end
  end.

Lemma trimSpaces_stopped sp2 sp3 s :
  startsSpace sp2 sp3 s = false -> trimSpaces sp2 sp3 s = s.
Proof.
  destruct s as [|c1 [|c2 [|c3 s]]]; simpl; try done.
  - by intros [-> _]%orb_false_iff.
  - by intros [-> [-> _]%orb_false_iff]%orb_false_iff.
  - by intros [-> [-> ->]%orb_false_iff]%orb_false_iff.
Qed.

Lemma trimSpaces_suffix sp2 sp3 s :
  (exists p, s = p ++ trimSpaces sp2 sp3 s) /\ startsSpace sp2 sp3 (trimSpaces sp2 sp3 s) = false.
Proof.
  remember (length s) as n eqn:Hn. revert s Hn.
  induction n as [n IH] using lt_wf_ind. intros s ->.
  destruct (startsSpace sp2 sp3 s) eqn:E.
  2: { rewrite trimSpaces_stopped by done. split; [by exists []|done]. }
  destruct s as [|c1 s1]; [done|]. simpl in *.
  destruct (space1 c1).
  { destruct (IH (length s1) ltac:(lia) s1 eq_refl) as [[p Ep] Es].
    split; [|done]. exists (c1 :: p). simpl. by rewrite <- Ep. }
  destruct s1 as [|c2 s2]; [done|]. simpl in *. destruct (sp2 c1 c2).
  { destruct (IH (length s2) ltac:(lia) s2 eq_refl) as [[p Ep] Es].
    split; [|done]. exists (c1 :: c2 :: p). simpl. by rewrite <- Ep. }
  destruct s2 as [|c3 s3]; [done|]. simpl in *. rewrite E.
  destruct (IH (length s3) ltac:(lia) s3 eq_refl) as [[p Ep] Es].
  split; [|done]. exists (c1 :: c2 :: c3 :: p). simpl. by rewrite <- Ep.
Qed.

Lemma startsSpace_app sp2 sp3 s t :
  startsSpace sp2 sp3 (s ++ t) = false -> startsSpace sp2 sp3 s = false.
Proof.
  destruct s as [|c1 [|c2 [|c3 s]]]; simpl; try done.
  - by intros [-> _]%orb_false_iff.
  - by intros [-> [-> _]%orb_false_iff]%orb_false_iff.
Qed.

Lemma TrimSpace_infix s : exists p q, s = p ++ TrimSpace s ++ q.
Proof.
  unfold TrimSpace. destruct (trimSpaces_suffix space2 space3 s) as [[p Ep] _].
  destruct (trimSpaces_suffix (fun a b => space2 b a) (fun a b c => space3 c b a)
    (rev (trimSpaces space2 space3 s))) as [[q Eq] _].
  exists p, (rev q). apply (f_equal (@rev ascii)) in Eq.
  rewrite rev_involutive, rev_app_distr in Eq. by rewrite <- Eq.
Qed.

Lemma TrimSpace_elem c s : c ∈ TrimSpace s -> c ∈ s.
Proof. destruct (TrimSpace_infix s) as (p & q & E). rewrite E at 2. set_solver. Qed.

Lemma TrimSpace_idem s : TrimSpace (TrimSpace s) = TrimSpace s.
Proof.
  set (t := TrimSpace s).
  assert (startsSpace space2 space3 t = false) as HL.
  { unfold t, TrimSpace. destruct (trimSpaces_suffix space2 space3 s) as [_ Es].
    destruct (trimSpaces_suffix (fun a b => space2 b a) (fun a b c => space3 c b a)
      (rev (trimSpaces space2 space3 s))) as [[q Eq] _].
    apply (f_equal (@rev ascii)) in Eq. rewrite rev_involutive, rev_app_distr in Eq.
    eapply startsSpace_app. by rewrite <- Eq. }
  assert (startsSpace (fun a b => space2 b a) (fun a b c => space3 c b a) (rev t) = false) as HR.
  { unfold t, TrimSpace. rewrite rev_involutive. apply trimSpaces_suffix. }
  unfold TrimSpace at 1. rewrite (trimSpaces_stopped space2 space3 t HL).
  rewrite (trimSpaces_stopped _ _ (rev t) HR). apply rev_involutive.
Qed.
