(* ===== verification/GoFloat.v ===== *)
(** * float64

    IEEE 754 binary64 as the Standard Library specifies it ([SpecFloat] at
    precision 53), rounding to nearest even, with the conversions and the [math]
    functions the program uses.  Integers below 2^53 are exact, and so are the
    operations on them: the lemmas say so.  A quotient of two of them rounds, and
    its integer part is the integer quotient or one more. *)

From S2P Require Import Prelude GoStrings.
From Stdlib Require Import SpecFloat.

Abbreviation float := spec_float.

Definition fadd : float -> float -> float := SFadd 53 1024.
Definition fsub : float -> float -> float := SFsub 53 1024.
Definition fmul : float -> float -> float := SFmul 53 1024.
Definition fdiv : float -> float -> float := SFdiv 53 1024.

(** [float64(n)]. *)
Definition ofInt (n : Z) : float := binary_normalize 53 1024 n 0 false.

Definition isNaN (x : float) : bool := match x with S754_nan => true | _ => false end.
Definition signbit (x : float) : bool :=
  match x with
  | S754_zero s | S754_infinity s | S754_finite s _ _ => s
  | S754_nan => false
  end.

(** The integer part of a finite value, toward zero. *)
Definition truncMag (m : positive) (e : Z) : Z := Z.shiftl (Zpos m) e.

(** [int64(x)] and [int(x)]. *)
Definition toInt `{GoRuntime} (x : float) : Z :=
  match x with
  | S754_zero _ => 0
  | S754_finite s m e =>
    let z := cond_Zopp s (truncMag m e) in
    if (- 2 ^ 63 <=? z) && (z <? 2 ^ 63) then z else floatToIntOutOfRange x
  | _ => floatToIntOutOfRange x
  end.

(** [math.Min]. *)
Definition fmin (x y : float) : float :=
  match x, y with
  | S754_infinity true, _ | _, S754_infinity true => S754_infinity true
  | S754_nan, _ | _, S754_nan => S754_nan
  | S754_zero s, S754_zero _ => if s then x else y
  | _, _ => if SFltb x y then x else y
  end.

(** [math.Ceil]: integral values are their own ceiling. *)
Definition fceil (x : float) : float :=
  match x with
  | S754_finite s m e =>
    if 0 <=? e then x
    else
      let q := Z.shiftr (Zpos m) (- e) in
      let up := if Z.shiftl q (- e) =? Zpos m then q else q + 1 in
      let z := if s then - q else up in
      if z =? 0 then S754_zero s else ofInt z
  | _ => x
  end.

(** [d.Seconds()]. *)
Definition Seconds (d : Z) : float :=
  fadd (ofInt (Z.quot d 1000000000)) (fdiv (ofInt (Z.rem d 1000000000)) (ofInt 1000000000)).

(** ** Exactness on integers *)

Definition dig (p : positive) : Z := Zpos (digits2_pos p).

Lemma dig_spec p : 1 <= dig p /\ 2 ^ (dig p - 1) <= Zpos p < 2 ^ dig p.
Proof.
  unfold dig. induction p as [p IH|p IH|]; cbn [digits2_pos]; [| |by vm_compute].
  all: rewrite Pos2Z.inj_succ; destruct IH as [IH1 IH2]; split; [lia|].
  all: replace (Z.succ (Zpos (digits2_pos p)) - 1) with (Z.succ (Zpos (digits2_pos p) - 1)) by lia.
  all: rewrite !Z.pow_succ_r by lia; lia.
Qed.

Lemma dig_unique p d : 1 <= d -> 2 ^ (d - 1) <= Zpos p < 2 ^ d -> dig p = d.
Proof.
  intros Hd H. destruct (dig_spec p) as [H1 H2].
  destruct (Z.lt_trichotomy (dig p) d) as [Hl|[?|Hl]]; [|done|]; exfalso.
  - assert (2 ^ dig p <= 2 ^ (d - 1)) by (apply Z.pow_le_mono_r; lia). lia.
  - assert (2 ^ d <= 2 ^ (dig p - 1)) by (apply Z.pow_le_mono_r; lia). lia.
Qed.

Lemma dig_shift p k q : 0 <= k -> Zpos q = Zpos p * 2 ^ k -> dig q = dig p + k.
Proof.
  intros Hk E. destruct (dig_spec p) as [H1 H2]. apply dig_unique; [lia|].
  replace (dig p + k - 1) with ((dig p - 1) + k) by lia.
  rewrite E, !Z.pow_add_r by lia. pose proof (Z.pow_pos_nonneg 2 k). nia.
Qed.

Lemma dig_le p k : 0 <= k -> Zpos p < 2 ^ k -> dig p <= k.
Proof.
  intros Hk H. destruct (dig_spec p) as [H1 H2]. destruct (Z.le_gt_cases (dig p) k); [done|].
  assert (2 ^ k <= 2 ^ (dig p - 1)) by (apply Z.pow_le_mono_r; lia). lia.
Qed.

Lemma shr_1_even m : 0 <= m -> shr_1 (Build_shr_record (2 * m) false false) = Build_shr_record m false false.
Proof. by destruct m. Qed.

Lemma iter_shr n m :
  0 <= m -> iter_pos shr_1 n (Build_shr_record (m * 2 ^ Zpos n) false false) = Build_shr_record m false false.
Proof.
  revert m. induction n as [n IH|n IH|]; intros m Hm; cbn [iter_pos].
  - replace (m * 2 ^ Zpos n~1) with (2 * (m * 2 ^ Zpos n * 2 ^ Zpos n)).
    2: { rewrite (Pos2Z.inj_xI n), Z.pow_add_r by lia. replace (2 * Zpos n) with (Zpos n + Zpos n) by lia. rewrite Z.pow_add_r by lia. lia. }
    rewrite shr_1_even by lia. rewrite IH by lia. by apply IH.
  - replace (m * 2 ^ Zpos n~0) with (m * 2 ^ Zpos n * 2 ^ Zpos n).
    2: { rewrite (Pos2Z.inj_xO n). replace (2 * Zpos n) with (Zpos n + Zpos n) by lia. rewrite Z.pow_add_r by lia. lia. }
    rewrite IH by lia. by apply IH.
  - change (2 ^ 1) with 2. rewrite Z.mul_comm. by apply shr_1_even.
Qed.

(** The mantissa of [p] on 53 bits. *)
Definition mant (p : positive) : positive := Z.to_pos (Zpos p * 2 ^ (53 - dig p)).

Lemma mant_spec p : dig p <= 53 -> Zpos (mant p) = Zpos p * 2 ^ (53 - dig p) /\ dig (mant p) = 53.
Proof.
  intros Hd. assert (0 < 2 ^ (53 - dig p)) by (apply Z.pow_pos_nonneg; lia).
  assert (Zpos (mant p) = Zpos p * 2 ^ (53 - dig p)) as E by (unfold mant; rewrite Z2Pos.id by nia; done).
  split; [done|]. rewrite (dig_shift p (53 - dig p)) by (done || lia). lia.
Qed.

Lemma shr_fexp_exact m q n e :
  0 <= n -> Zpos m = Zpos q * 2 ^ n -> fexp 53 1024 (dig m + e) - e = n ->
  shr_fexp 53 1024 (Zpos m) e loc_Exact = (Build_shr_record (Zpos q) false false, e + n).
Proof.
  intros Hn E Hf. unfold shr_fexp, shr_record_of_loc. cbn [Zdigits2]. fold (dig m). rewrite Hf.
  unfold shr. destruct n as [|n|n]; [|rewrite E, iter_shr by lia; done|lia].
  rewrite E, Z.mul_1_r, Z.add_0_r. done.
Qed.

Lemma fexp_normal e : -1021 <= e -> fexp 53 1024 e = e - 53.
Proof. unfold fexp, emin. lia. Qed.

(** Rounding a number of at most 53 significant bits changes nothing. *)
Lemma round_aux_exact s p k q e :
  dig p <= 53 -> 53 <= dig p + k -> 0 <= k -> Zpos q = Zpos p * 2 ^ k -> -1021 <= dig p + k + e <= 1024 ->
  binary_round_aux 53 1024 s (Zpos q) e loc_Exact = S754_finite s (mant p) (dig p + k + e - 53).
Proof.
  intros Hd HD Hk E He. destruct (mant_spec p Hd) as [Em Dm]. unfold binary_round_aux.
  pose proof (dig_shift p k q Hk E) as Dq.
  rewrite (shr_fexp_exact q (mant p) (dig p + k - 53)); [|lia| |rewrite fexp_normal; lia].
  2: { rewrite E, Em. rewrite <- Z.mul_assoc, <- Z.pow_add_r by lia. do 2 f_equal. lia. }
  cbn [loc_of_shr_record shr_m round_nearest_even].
  rewrite (shr_fexp_exact (mant p) (mant p) 0); [|lia|lia|rewrite fexp_normal; lia]. cbn [shr_m].
  destruct (Z.leb_spec (e + (dig p + k - 53) + 0) (1024 - 53)); [|lia]. f_equal. lia.
Qed.

Lemma iter_xO p d : Zpos (Pos.iter xO p d) = Zpos p * 2 ^ Zpos d.
Proof.
  induction d as [|d IH] using Pos.peano_ind; [cbn; lia|].
  rewrite Pos.iter_succ, Pos2Z.inj_xO, IH, Pos2Z.inj_succ, Z.pow_succ_r by lia. lia.
Qed.

Lemma round_exact s p k q e :
  dig p <= 53 -> 0 <= k -> Zpos q = Zpos p * 2 ^ k -> -1021 <= dig p + k + e <= 1024 ->
  binary_round 53 1024 s q e = S754_finite s (mant p) (dig p + k + e - 53).
Proof.
  intros Hd Hk E He. unfold binary_round. pose proof (dig_shift p k q Hk E) as Dq. fold (dig q).
  rewrite fexp_normal by lia. unfold shl_align.
  destruct (dig q + e - 53 - e) as [|d|d] eqn:Ed.
  - apply (round_aux_exact s p k); lia || done.
  - apply (round_aux_exact s p k); lia || done.
  - rewrite (round_aux_exact s p (k + Zpos d)); [f_equal; lia|lia..| |lia].
    rewrite iter_xO, E, Z.pow_add_r by lia. lia.
Qed.

(** The binary64 value of a natural number below 2^53. *)
Definition canon (n : Z) : float :=
  match n with
  | Zpos p => S754_finite false (mant p) (dig p - 53)
  | _ => S754_zero false
  end.

Lemma small_dig p : Zpos p < 2 ^ 53 -> dig p <= 53.
Proof. by apply dig_le. Qed.

(** Any dyadic writing of a small natural number normalizes to it. *)
Lemma normalize_canon n k m :
  0 <= n < 2 ^ 53 -> 0 <= k <= 1000 -> m = n * 2 ^ k -> binary_normalize 53 1024 m (- k) false = canon n.
Proof.
  intros Hn Hk ->. destruct n as [|p|p]; [done| |lia]. pose proof (small_dig p ltac:(lia)).
  destruct (dig_spec p) as [? _].
  assert (0 < 2 ^ k) by (apply Z.pow_pos_nonneg; lia).
  destruct (Zpos p * 2 ^ k) as [|q|q] eqn:E; [lia| |lia]. cbn [binary_normalize canon].
  rewrite (round_exact false p k q) by (done || lia). f_equal. lia.
Qed.

Lemma ofInt_canon n : 0 <= n < 2 ^ 53 -> ofInt n = canon n.
Proof. intros H. unfold ofInt. apply (normalize_canon n 0); lia. Qed.

Lemma shl_align_spec m e e' : e' <= e -> Zpos (fst (shl_align m e e')) = Zpos m * 2 ^ (e - e').
Proof.
  intros He. unfold shl_align. destruct (e' - e) as [|d|d] eqn:Ed; [|lia|]; cbn [fst].
  - replace (e - e') with 0 by lia. lia.
  - rewrite iter_xO. do 2 f_equal. lia.
Qed.

(** Aligning the mantissa of [p] at any lower exponent. *)
Lemma align_canon p ez :
  dig p <= 53 -> ez <= dig p - 53 ->
  Zpos (fst (shl_align (mant p) (dig p - 53) ez)) = Zpos p * 2 ^ (- ez).
Proof.
  intros Hd He. rewrite shl_align_spec by lia. destruct (mant_spec p Hd) as [-> _].
  rewrite <- Z.mul_assoc, <- Z.pow_add_r by lia. do 2 f_equal. lia.
Qed.

Ltac canon_digits :=
  repeat match goal with
  | p : positive |- _ =>
    lazymatch goal with
    | _ : dig p <= 53 |- _ => fail
    | _ => pose proof (small_dig p ltac:(lia)); pose proof (proj1 (dig_spec p))
    end
  end.

Lemma fadd_canon a b : 0 <= a -> 0 <= b -> a + b < 2 ^ 53 -> fadd (canon a) (canon b) = canon (a + b).
Proof.
  intros Ha Hb H. destruct a as [|p|p], b as [|q|q]; try lia; try done.
  canon_digits. set (ez := Z.min (dig p - 53) (dig q - 53)).
  change (fadd (canon (Zpos p)) (canon (Zpos q))) with (binary_normalize 53 1024
    (Zpos (fst (shl_align (mant p) (dig p - 53) ez)) + Zpos (fst (shl_align (mant q) (dig q - 53) ez)))
    ez false).
  rewrite !align_canon by lia. rewrite <- (Z.opp_involutive ez) at 3.
  apply normalize_canon; lia.
Qed.

Lemma fsub_canon a b : 0 <= b <= a -> a < 2 ^ 53 -> fsub (canon a) (canon b) = canon (a - b).
Proof.
  intros Ha H. destruct a as [|p|p], b as [|q|q]; try lia; try done.
  canon_digits. set (ez := Z.min (dig p - 53) (dig q - 53)).
  change (fsub (canon (Zpos p)) (canon (Zpos q))) with (binary_normalize 53 1024
    (Zpos (fst (shl_align (mant p) (dig p - 53) ez)) - Zpos (fst (shl_align (mant q) (dig q - 53) ez)))
    ez false).
  rewrite !align_canon by lia. rewrite <- (Z.opp_involutive ez) at 3.
  apply normalize_canon; lia.
Qed.

Lemma fmul_canon a b : 0 <= a -> 0 <= b -> a * b < 2 ^ 53 -> a < 2 ^ 53 -> b < 2 ^ 53 ->
  fmul (canon a) (canon b) = canon (a * b).
Proof.
  intros Ha Hb H Ha' Hb'. destruct a as [|p|p], b as [|q|q]; try lia; try done.
  canon_digits. change (fmul (canon (Zpos p)) (canon (Zpos q)))
    with (binary_round_aux 53 1024 false (Zpos (mant p * mant q)) (dig p - 53 + (dig q - 53)) loc_Exact).
  destruct (mant_spec p) as [Ep _]; [done|]. destruct (mant_spec q) as [Eq _]; [done|].
  change (Zpos p * Zpos q) with (Zpos (p * q)). cbn [canon].
  assert (dig (p * q) <= 53) by (apply small_dig; lia).
  assert (dig p + dig q - 1 <= dig (p * q)).
  { destruct (dig_spec p) as [_ [? _]], (dig_spec q) as [_ [? _]], (dig_spec (p * q)) as [? [_ Hu]].
    destruct (Z.le_gt_cases (dig p + dig q - 1) (dig (p * q))) as [|Hlt]; [done|exfalso].
    assert (2 ^ dig (p * q) <= 2 ^ (dig p - 1 + (dig q - 1))) as Hle by (apply Z.pow_le_mono_r; lia).
    rewrite Z.pow_add_r in Hle by lia. nia. }
  rewrite (round_aux_exact false (p * q) (106 - dig p - dig q)); [f_equal; lia|lia..| |lia].
  replace (106 - dig p - dig q) with ((53 - dig p) + (53 - dig q)) by lia.
  rewrite Pos2Z.inj_mul, Ep, Eq, Z.pow_add_r by lia. lia.
Qed.

Lemma mant_compare p q : dig p = dig q -> dig p <= 53 -> (mant p ?= mant q)%positive = (p ?= q)%positive.
Proof.
  intros E Hd. destruct (mant_spec p) as [Ep _]; [done|]. destruct (mant_spec q) as [Eq _]; [lia|].
  change ((Zpos (mant p) ?= Zpos (mant q)) = (Zpos p ?= Zpos q)). rewrite Ep, Eq, E.
  symmetry. apply Zmult_compare_compat_r. apply Z.lt_gt, Z.pow_pos_nonneg; lia.
Qed.

Lemma SFcompare_canon a b :
  0 <= a < 2 ^ 53 -> 0 <= b < 2 ^ 53 -> SFcompare (canon a) (canon b) = Some (a ?= b).
Proof.
  intros Ha Hb. destruct a as [|p|p], b as [|q|q]; try lia; try done.
  canon_digits. cbn [canon SFcompare]. f_equal. change (Zpos p ?= Zpos q) with (p ?= q)%positive.
  destruct (Z.compare_spec (dig p - 53) (dig q - 53)) as [E|Hl|Hl].
  - apply mant_compare; lia.
  - symmetry. apply Pos.compare_lt_iff. destruct (dig_spec p) as [_ [_ Hu]], (dig_spec q) as [_ [Hq _]].
    assert (2 ^ dig p <= 2 ^ (dig q - 1)) by (apply Z.pow_le_mono_r; lia). lia.
  - symmetry. apply Pos.compare_gt_iff. destruct (dig_spec p) as [_ [Hu _]], (dig_spec q) as [_ [_ Hq]].
    assert (2 ^ dig q <= 2 ^ (dig p - 1)) by (apply Z.pow_le_mono_r; lia). lia.
Qed.

Lemma SFltb_canon a b : 0 <= a < 2 ^ 53 -> 0 <= b < 2 ^ 53 -> SFltb (canon a) (canon b) = (a <? b).
Proof. intros. unfold SFltb. rewrite SFcompare_canon by done. unfold Z.ltb. by destruct (a ?= b). Qed.

Lemma SFleb_canon a b : 0 <= a < 2 ^ 53 -> 0 <= b < 2 ^ 53 -> SFleb (canon a) (canon b) = (a <=? b).
Proof. intros. unfold SFleb. rewrite SFcompare_canon by done. unfold Z.leb. by destruct (a ?= b). Qed.

Lemma fmin_canon a b : 0 <= a < 2 ^ 53 -> 0 <= b < 2 ^ 53 -> fmin (canon a) (canon b) = canon (Z.min a b).
Proof.
  intros Ha Hb. assert (a = 0 /\ b = 0 \/ (a <> 0 \/ b <> 0)) as [[-> ->]|Hz] by lia; [done|].
  transitivity (if SFltb (canon a) (canon b) then canon a else canon b).
  { destruct a as [|p|p], b as [|q|q]; try lia; done. }
  rewrite SFltb_canon by done. destruct (Z.ltb_spec a b); f_equal; lia.
Qed.

Lemma toInt_canon `{GoRuntime} n : 0 <= n < 2 ^ 53 -> toInt (canon n) = n.
Proof.
  intros Hn. destruct n as [|p|p]; [done| |lia]. canon_digits. cbn [canon toInt cond_Zopp].
  assert (truncMag (mant p) (dig p - 53) = Zpos p) as ->.
  { unfold truncMag. destruct (mant_spec p) as [-> _]; [done|].
    replace (dig p - 53) with (- (53 - dig p)) by lia. rewrite Z.shiftl_opp_r, Z.shiftr_div_pow2 by lia.
    apply Z.div_mul. apply Z.pow_nonzero; lia. }
  destruct (Z.leb_spec (- 2 ^ 63) (Zpos p)), (Z.ltb_spec (Zpos p) (2 ^ 63)); done || lia.
Qed.

Lemma Seconds_whole s : 0 <= s < 2 ^ 53 -> Seconds (s * 1000000000) = canon s.
Proof.
  intros Hs. unfold Seconds. rewrite Z.quot_mul, Z.rem_mul, ofInt_canon by lia.
  replace (fdiv (ofInt 0) (ofInt 1000000000)) with (canon 0) by (by vm_compute).
  rewrite fadd_canon by lia. f_equal. lia.
Qed.

(** ** Quotients *)

Lemma dig_range p k n : 0 <= n -> 1 <= k -> 2 ^ (k - 1) <= Zpos p < 2 ^ (k + n) -> k <= dig p <= k + n.
Proof.
  intros Hn Hk [Hl Hu]. split; [|apply dig_le; lia]. destruct (Z.le_gt_cases k (dig p)) as [|Hlt]; [done|].
  destruct (dig_spec p) as [? [_ Hp]]. assert (2 ^ dig p <= 2 ^ (k - 1)) by (apply Z.pow_le_mono_r; lia). lia.
Qed.

(** Normalizing a mantissa of 53 or 54 bits drops the last bit of the longer. *)
Lemma shr_fexp_div q e loc :
  53 <= dig q <= 54 -> -1000 <= e ->
  exists rec, shr_fexp 53 1024 (Zpos q) e loc = (rec, e + (dig q - 53)) /\ shr_m rec = Zpos q / 2 ^ (dig q - 53).
Proof.
  intros Hd He. unfold shr_fexp. cbn [Zdigits2]. fold (dig q). rewrite fexp_normal by lia.
  replace (dig q + e - 53 - e) with (dig q - 53) by lia.
  assert (shr_m (shr_record_of_loc (Zpos q) loc) = Zpos q) as E by by destruct loc as [|[]].
  assert (dig q - 53 = 0 \/ dig q - 53 = 1) as [-> | ->] by lia; cbn [shr].
  - eexists. split; [f_equal; lia|]. by rewrite E, Z.div_1_r.
  - eexists. split; [reflexivity|]. cbn [iter_pos]. revert E. destruct (shr_record_of_loc (Zpos q) loc) as [m r s].
    cbn [shr_m]. intros ->. change (2 ^ 1) with 2. rewrite <- Z.div2_div. by destruct q.
Qed.

Lemma round_nearest_even_between m loc : m <= round_nearest_even m loc <= m + 1.
Proof. destruct loc as [|[]]; cbn; try lia. destruct (Z.even m); lia. Qed.

(** Rounding moves a quotient's integer part up by one at most. *)
Lemma toInt_round_aux `{GoRuntime} q e loc :
  53 <= dig q <= 54 -> -1000 <= e -> e + (dig q - 53) <= 0 ->
  exists m, Zpos q / 2 ^ (dig q - 53) <= m <= Zpos q / 2 ^ (dig q - 53) + 1 /\
    toInt (binary_round_aux 53 1024 false (Zpos q) e loc) = m / 2 ^ (- (e + (dig q - 53))).
Proof.
  intros Hd He Hle. unfold binary_round_aux. destruct (shr_fexp_div q e loc Hd He) as (rec & -> & ->).
  set (k := dig q - 53) in *. set (e1 := e + k) in *.
  pose proof (round_nearest_even_between (Zpos q / 2 ^ k) (loc_of_shr_record rec)) as Hm.
  set (m := round_nearest_even _ _) in *. exists m. split; [done|].
  assert (2 ^ 52 <= Zpos q / 2 ^ k < 2 ^ 53) as Hq.
  { destruct (dig_spec q) as [_ Hq]. replace (dig q) with (53 + k) in Hq by lia.
    replace (53 + k - 1) with (52 + k) in Hq by lia. rewrite !Z.pow_add_r in Hq by lia.
    assert (0 < 2 ^ k) by (apply Z.pow_pos_nonneg; lia). split.
    - apply Z.div_le_lower_bound; lia.
    - apply Z.div_lt_upper_bound; lia. }
  destruct m as [|p|p] eqn:Em; [lia| |lia]. clear Em.
  assert (53 <= dig p <= 54) as Hdp by (apply (dig_range p 53 1); lia).
  destruct (shr_fexp_div p e1 loc_Exact Hdp ltac:(lia)) as (rec' & -> & ->).
  assert (0 <= Zpos p / 2 ^ (- e1) < 2 ^ 63) as Hr.
  { assert (0 < 2 ^ (- e1)) by (apply Z.pow_pos_nonneg; lia). split; [apply Z.div_pos; lia|].
    apply Z.div_lt_upper_bound; nia. }
  assert (exists p', Zpos p / 2 ^ (dig p - 53) = Zpos p' /\ Z.shiftl (Zpos p') (e1 + (dig p - 53)) = Zpos p / 2 ^ (- e1))
    as (p' & -> & Hs).
  { assert (dig p = 53 \/ dig p = 54) as [E|E] by lia; rewrite E.
    - exists p. split; [apply Z.div_1_r|]. replace (e1 + (53 - 53)) with (- (- e1)) by lia.
      by rewrite Z.shiftl_opp_r, Z.shiftr_div_pow2 by lia.
    - destruct (dig_spec p) as [_ [Hlo _]]. rewrite E in Hlo. assert (Zpos p = 2 ^ 53) as Ep by lia.
      exists (Z.to_pos (2 ^ 52)). rewrite Ep. split; [done|]. rewrite Z2Pos.id by lia.
      destruct (Z.eq_dec e1 0) as [->|Hne]; [done|]. replace (e1 + (54 - 53)) with (- (- e1 - 1)) by lia.
      rewrite Z.shiftl_opp_r, Z.shiftr_div_pow2 by lia.
      replace (- e1) with (- e1 - 1 + 1) at 2 by lia. rewrite Z.pow_add_r by lia.
      change (2 ^ 53) with (2 ^ 52 * 2 ^ 1). by rewrite Z.div_mul_cancel_r by (apply Z.pow_nonzero; lia). }
  destruct (Z.leb_spec (e1 + (dig p - 53)) (1024 - 53)); [|lia].
  cbn [toInt cond_Zopp]. unfold truncMag. rewrite Hs.
  destruct (Z.leb_spec (- 2 ^ 63) (Zpos p / 2 ^ (- e1))), (Z.ltb_spec (Zpos p / 2 ^ (- e1)) (2 ^ 63)); done || lia.
Qed.

(** [int64(a / b)] is the integer quotient, or one more when the division
    rounds up to an integer. *)
Lemma toInt_fdiv `{GoRuntime} a b :
  0 < a < 2 ^ 53 -> 0 < b < 2 ^ 53 -> a / b <= toInt (fdiv (canon a) (canon b)) <= a / b + 1.
Proof.
  intros Ha Hb. destruct a as [|p|p], b as [|r|r]; try lia. canon_digits.
  destruct (mant_spec p) as [Ep Dp]; [done|]. destruct (mant_spec r) as [Er Dr]; [done|].
  unfold fdiv. cbn [canon SFdiv]. unfold SFdiv_core_binary. cbn [Zdigits2]. fold (dig (mant p)) (dig (mant r)). rewrite Dp, Dr.
  set (d := dig p - dig r). replace (53 + (dig p - 53) - (53 + (dig r - 53))) with d by (unfold d; lia).
  replace (dig p - 53 - (dig r - 53)) with d by (unfold d; lia). rewrite fexp_normal by lia.
  rewrite Z.min_l by lia. replace (d - (d - 53)) with 53 by lia. rewrite Z.shiftl_mul_pow2 by lia.
  rewrite (surjective_pairing (Z.div_eucl _ _)). change (Z.div_eucl ?x ?y).1 with (x / y).
  set (u := Zpos (mant p)) in *. set (v := Zpos (mant r)) in *.
  assert (2 ^ 52 <= u < 2 ^ 53 /\ 2 ^ 52 <= v < 2 ^ 53) as [Hu Hv].
  { destruct (dig_spec (mant p)) as [_ Hp], (dig_spec (mant r)) as [_ Hr]. rewrite Dp in Hp. rewrite Dr in Hr. done. }
  assert (2 ^ 52 <= u * 2 ^ 53 / v < 2 ^ 54) as Hq.
  { split; [apply Z.div_le_lower_bound; nia|apply Z.div_lt_upper_bound; nia]. }
  destruct (u * 2 ^ 53 / v) as [|q|q] eqn:Eq; [lia| |lia].
  assert (53 <= dig q <= 54) as Hd by (apply (dig_range q 53 1); lia).
  change (xorb false false) with false.
  destruct (toInt_round_aux q (d - 53) (new_location v (Z.div_eucl (u * 2 ^ 53) v).2)) as (m & Hm & ->); [done|lia..|].
  set (k := dig q - 53) in *. set (P := 2 ^ (- (d - 53 + k))).
  assert (0 < P) by (apply Z.pow_pos_nonneg; lia). assert (0 < 2 ^ k) by (apply Z.pow_pos_nonneg; lia).
  set (V := 2 ^ (106 - dig p)). assert (0 < V) by (apply Z.pow_pos_nonneg; lia).
  assert (u * 2 ^ 53 = Zpos p * V) as Eu.
  { rewrite Ep. unfold V. replace (106 - dig p) with (53 - dig p + 53) by lia. rewrite Z.pow_add_r by lia. lia. }
  assert (P * 2 ^ k * v = Zpos r * V) as Ev.
  { rewrite Er. unfold P, V. replace (106 - dig p) with (- (d - 53 + k) + k + (53 - dig r)) by (unfold d; lia).
    rewrite !Z.pow_add_r by lia. lia. }
  pose proof (Z.div_mod (Zpos p) (Zpos r) ltac:(lia)). pose proof (Z.mod_pos_bound (Zpos p) (Zpos r) ltac:(lia)).
  set (N := Zpos p / Zpos r) in *.
  assert (N * P <= Zpos q / 2 ^ k) as Hlo.
  { apply Z.div_le_lower_bound; [done|]. rewrite <- Eq. apply Z.div_le_lower_bound; nia. }
  assert (Zpos q / 2 ^ k < (N + 1) * P) as Hhi.
  { apply Z.div_lt_upper_bound; [done|]. rewrite <- Eq. apply Z.div_lt_upper_bound; nia. }
  split; [apply Z.div_le_lower_bound; nia|]. apply Z.div_le_upper_bound; nia.
Qed.
