(* ===== verification/GoIO.v ===== *)
(** * Buffered input and output on a connection

    [reader] is a [bufio.Reader] over a connection: the bytes the peer will
    deliver before the deadline, how the stream ends after them (end of file,
    an expired deadline or another failure), and the size of the buffer, which
    [ReadSlice] exposes.  [writer] is a [bufio.Writer] over a connection that
    accepts all bytes, or only a number of them. *)

From S2P Require Import Prelude GoStrings.

Inductive ioerr := EOF | ErrUnexpectedEOF | NetTimeout | NetFailure.

#[global] Instance ioerr_eq_dec : EqDecision ioerr.
Proof. solve_decision. Defined.

Record reader := mkReader {
  rest : bytes;      (* not yet consumed *)
  ending : ioerr;    (* the error a read past them returns *)
  bufsize : nat;     (* [bufio.NewReaderSize] *)
}.

Definition advance (r : reader) (n : nat) : reader :=
  {| rest := drop n (rest r); ending := ending r; bufsize := bufsize r |}.

(** How [ReadSlice] ended: at the delimiter, with [bufio.ErrBufferFull], or
    with the stream's error. *)
Inductive sliceEnd := SliceOk | SliceFull | SliceErr (e : ioerr).

(** [ReadSlice('\n')]: a line that fits the buffer, a full buffer without a
    newline and [ErrBufferFull], or what is left and the stream's error. *)
Definition ReadSlice (r : reader) : bytes * sliceEnd * reader :=
  match IndexByte (take (bufsize r) (rest r)) nl with
  | Some i => (take (S i) (rest r), SliceOk, advance r (S i))
  | None =>
    if (bufsize r <=? length (rest r))%nat
    then (take (bufsize r) (rest r), SliceFull, advance r (bufsize r))
    else (rest r, SliceErr (ending r), advance r (length (rest r)))
  end.

(** [ReadString('\n')]: through the newline, or everything left and the error. *)
Definition ReadString (r : reader) : bytes * option ioerr * reader :=
  match IndexByte (rest r) nl with
  | Some i => (take (S i) (rest r), None, advance r (S i))
  | None => (rest r, Some (ending r), advance r (length (rest r)))
  end.

(** [io.ReadFull] into a slice of [n] bytes: the bytes, or the error. *)
Definition ReadFull (r : reader) (n : Z) : (bytes + ioerr) * reader :=
  if n <=? len (rest r) then (inl (take (Z.to_nat n) (rest r)), advance r (Z.to_nat n))
  else (inr (if decide (ending r = EOF)
             then if decide (rest r = []) then EOF else ErrUnexpectedEOF
             else ending r),
        advance r (length (rest r))).

(** [io.ReadAll(io.LimitReader(br, n))]. *)
Definition ReadAllLimit (r : reader) (n : Z) : (bytes + ioerr) * reader :=
  if n <=? len (rest r) then (inl (take (Z.to_nat n) (rest r)), advance r (Z.to_nat n))
  else if decide (ending r = EOF) then (inl (rest r), advance r (length (rest r)))
  else (inr (ending r), advance r (length (rest r))).

(** [Peek(1)]: does the peer send another byte? *)
Definition Peek1 (r : reader) : option ioerr :=
  match rest r with [] => Some (ending r) | _ => None end.

Record writer := mkWriter {
  sent : bytes;             (* what the peer received *)
  accepts : option nat;     (* [Some n]: the connection fails after [n] more bytes *)
}.

(** Write [data] through the buffer and flush. *)
Definition flushTo (w : writer) (data : bytes) : option ioerr * writer :=
  match accepts w with
  | None => (None, {| sent := sent w ++ data; accepts := None |})
  | Some n =>
    if (length data <=? n)%nat
    then (None, {| sent := sent w ++ data; accepts := Some (n - length data)%nat |})
    else (Some NetFailure, {| sent := sent w ++ take n data; accepts := Some O |})
  end.

(** ** Lemmas *)

Lemma IndexByte_Some s c i :
  IndexByte s c = Some i -> s !! i = Some c /\ (c ∉ take i s) /\ (i < length s)%nat.
Proof.
  revert i. induction s as [|d s IH]; intros i; simpl; [done|].
  case_decide as E.
  - intros [= <-]. subst. simpl. split; [done|]. split; [apply not_elem_of_nil|lia].
  - destruct (IndexByte s c) as [j|]; simpl; [|done]. intros [= <-].
    destruct (IH j eq_refl) as (? & ? & ?). simpl. split; [done|].
    split; [|lia]. apply not_elem_of_cons. split; congruence.
Qed.

Lemma IndexByte_None s c : IndexByte s c = None <-> c ∉ s.
Proof.
  induction s as [|d s IH]; simpl; [split; [intros _; apply not_elem_of_nil|done]|].
  case_decide as E; [subst; rewrite not_elem_of_cons; naive_solver|].
  rewrite not_elem_of_cons, <- IH. destruct (IndexByte s c); naive_solver.
Qed.

Lemma IndexByte_app s t c : c ∉ s -> IndexByte (s ++ c :: t) c = Some (length s).
Proof.
  induction s as [|d s IH]; simpl; [by rewrite decide_True|].
  intros [? ?]%not_elem_of_cons. rewrite decide_False by congruence. by rewrite IH.
Qed.

(** The first newline of a stream splits it. *)
Lemma IndexByte_split s c i :
  IndexByte s c = Some i -> exists a b, s = a ++ c :: b /\ (c ∉ a) /\ length a = i.
Proof.
  intros (Hl & Hn & Hi)%IndexByte_Some. exists (take i s), (drop (S i) s).
  split; [by rewrite take_drop_middle|]. split; [done|]. rewrite length_take. lia.
Qed.

Lemma rest_advance r n : rest (advance r n) = drop n (rest r).
Proof. done. Qed.

Lemma ReadString_line r a b :
  rest r = a ++ nl :: b -> nl ∉ a ->
  ReadString r = (a ++ [nl], None, mkReader b (ending r) (bufsize r)).
Proof.
  intros E Hn. unfold ReadString, advance. rewrite E, IndexByte_app by done.
  replace (S (length a)) with (length (a ++ [nl])) by (rewrite length_app; simpl; lia).
  change (nl :: b) with ([nl] ++ b). rewrite app_assoc.
  by rewrite take_app_length, drop_app_length.
Qed.

Lemma ReadString_eof r :
  nl ∉ rest r -> ReadString r = (rest r, Some (ending r), mkReader [] (ending r) (bufsize r)).
Proof.
  intros Hn. unfold ReadString, advance.
  apply IndexByte_None in Hn as ->. by rewrite drop_all.
Qed.

Lemma ReadFull_app r a b :
  rest r = a ++ b -> ReadFull r (len a) = (inl a, mkReader b (ending r) (bufsize r)).
Proof.
  intros E. unfold ReadFull, advance, len. rewrite E, length_app, Nat2Z.id.
  destruct (Z.leb_spec (Z.of_nat (length a)) (Z.of_nat (length a + length b))); [|lia].
  by rewrite take_app_length, drop_app_length.
Qed.

Lemma ReadFull_inl r n bs r' :
  0 <= n -> ReadFull r n = (inl bs, r') -> len bs = n /\ rest r = bs ++ rest r' /\
  ending r' = ending r /\ bufsize r' = bufsize r.
Proof.
  intros Hn. unfold ReadFull, advance, len.
  destruct (Z.leb_spec n (Z.of_nat (length (rest r)))); [|done].
  intros [= <- <-]. simpl. rewrite length_take, take_drop. split_and!; auto; lia.
Qed.
