(* ===== verification/Headers.v ===== *)
(** * httpcore/headers.go: the insertion-ordered, case-insensitive header map

    [Headers] keeps the code's two fields, the key order and the value map.
    [entries] is its abstract view, an ordered association list whose own
    operations ([spec_set], [spec_add], [spec_del], ...) say what the map
    promises; the refinement lemmas show that each operation of the code
    implements the one of the specification under the well-formedness
    invariant [wf]. *)

From S2P Require Import Prelude GoStrings.

(** ** The code *)

Record Headers := mkHeaders {
  keys : list bytes;                 (* canonical form, insertion order *)
  vals : gmap bytes (list bytes);    (* canonical key -> values *)
}.

Definition NewHeaders : Headers := {| keys := []; vals := ∅ |}.

Definition canonical (key : bytes) : bytes := CanonicalMIMEHeaderKey key.

(** [h.keys] after the [exists] test of [Set] and [Add]. *)
Definition noteKey (h : Headers) (ck : bytes) : list bytes :=
  match vals h !! ck with Some _ => keys h | None => keys h ++ [ck] end.

Definition Set_ (h : Headers) (key value : bytes) : Headers :=
  let ck := canonical key in
  {| keys := noteKey h ck; vals := <[ck := [value]]> (vals h) |}.

Definition Add (h : Headers) (key value : bytes) : Headers :=
  let ck := canonical key in
  {| keys := noteKey h ck;
     vals := <[ck := default [] (vals h !! ck) ++ [value]]> (vals h) |}.

(** [h.vals[canonical(key)]]: nil when the key is absent. *)
Definition Values (h : Headers) (key : bytes) : list bytes :=
  default [] (vals h !! canonical key).

Definition Get (h : Headers) (key : bytes) : bytes :=
  match Values h key with v :: _ => v | [] => [] end.

Definition Has (h : Headers) (key : bytes) : bool :=
  match vals h !! canonical key with Some _ => true | None => false end.

(** The [for i, k := range h.keys] loop of [Del]: cut the first match. *)
Fixpoint removeKey (ck : bytes) (ks : list bytes) : list bytes :=
  match ks with
  | [] => []
  | k :: ks' => if decide (k = ck) then ks' else k :: removeKey ck ks'
  end.

Definition Del (h : Headers) (key : bytes) : Headers :=
  let ck := canonical key in
  match vals h !! ck with
  | None => h
  | Some _ => {| keys := removeKey ck (keys h); vals := delete ck (vals h) |}
  end.

(** [Range fn] threads the state [fn] mutates. *)
Definition Range {S} (h : Headers) (fn : bytes -> bytes -> S -> S) (s : S) : S :=
  foldl (fun s k => foldl (fun s v => fn k v s) s (default [] (vals h !! k))) s (keys h).

Definition Len (h : Headers) : Z := len (keys h).

(** What [WriteTo] appends to the writer's output. *)
Definition WriteTo (h : Headers) (out : bytes) : bytes :=
  Range h (fun k v out => out ++ k ++ $": " ++ v ++ CRLF) out.

Definition ContainsToken (h : Headers) (key token : bytes) : bool :=
  existsb (fun v => existsb (fun part => EqualFold (TrimSpace part) token) (Split v comma))
    (Values h key).

(** ** The invariant and the abstract view *)

Record wf (h : Headers) : Prop := {
  wf_nodup : NoDup (keys h);
  wf_dom : forall k, k ∈ keys h <-> is_Some (vals h !! k);
  wf_vals : forall k vs, vals h !! k = Some vs -> vs <> [];
}.

(** Distinct canonical keys in order of first insertion, each with its values. *)
Definition entries (h : Headers) : list (bytes * list bytes) :=
  (fun k => (k, default [] (vals h !! k))) <$> keys h.

Fixpoint spec_lookup (ck : bytes) (l : list (bytes * list bytes)) : option (list bytes) :=
  match l with
  | [] => None
  | (k, vs) :: l' => if decide (k = ck) then Some vs else spec_lookup ck l'
  end.

(** Rewrite the entry of [ck] in place, or append a new one. *)
Fixpoint spec_update (f : list bytes -> list bytes) (ck : bytes)
    (l : list (bytes * list bytes)) : list (bytes * list bytes) :=
  match l with
  | [] => [(ck, f [])]
  | (k, vs) :: l' =>
    if decide (k = ck) then (k, f vs) :: l' else (k, vs) :: spec_update f ck l'
  end.

Definition spec_set (ck v : bytes) := spec_update (fun _ => [v]) ck.
Definition spec_add (ck v : bytes) := spec_update (fun vs => vs ++ [v]) ck.

Definition spec_del (ck : bytes) (l : list (bytes * list bytes)) : list (bytes * list bytes) :=
  filter (fun e => e.1 <> ck) l.

(** The header lines of an association list, in wire format. *)
Definition spec_lines (l : list (bytes * list bytes)) : bytes :=
  l ≫= fun '(k, vs) => vs ≫= fun v => k ++ $": " ++ v ++ CRLF.

(** ** Lemmas: the view of the key list *)

Section entries_lemmas.
Implicit Types (m : gmap bytes (list bytes)) (ks : list bytes) (h : Headers).

Let ent m ks : list (bytes * list bytes) := (fun k => (k, default [] (m !! k))) <$> ks.

Lemma ent_insert_notin m ks ck x : ck ∉ ks -> ent (<[ck := x]> m) ks = ent m ks.
Proof.
  intros Hn. apply list_fmap_ext. intros i k Hk.
  rewrite lookup_insert_ne; [done|]. intros ->. by apply Hn, list_elem_of_lookup; eauto.
Qed.

Lemma ent_delete_notin m ks ck : ck ∉ ks -> ent (delete ck m) ks = ent m ks.
Proof.
  intros Hn. apply list_fmap_ext. intros i k Hk.
  rewrite lookup_delete_ne; [done|]. intros ->. by apply Hn, list_elem_of_lookup; eauto.
Qed.

Lemma spec_update_ent_new f m ks ck :
  ck ∉ ks -> spec_update f ck (ent m ks) = ent m ks ++ [(ck, f [])].
Proof.
  induction ks as [|k ks IH]; intros Hn; [done|].
  apply not_elem_of_cons in Hn as [Hk Hn]. simpl.
  rewrite decide_False by congruence. f_equal. by apply IH.
Qed.

Lemma spec_update_ent_old f m ks ck :
  NoDup ks -> ck ∈ ks ->
  spec_update f ck (ent m ks) = ent (<[ck := f (default [] (m !! ck))]> m) ks.
Proof.
  induction 1 as [|k ks Hk Hnd IH]; [by intros ?%elem_of_nil|].
  intros Hin. simpl. case_decide as E.
  - subst k. rewrite lookup_insert_eq. simpl. f_equal. symmetry. by apply ent_insert_notin.
  - apply elem_of_cons in Hin as [->|Hin]; [done|].
    rewrite lookup_insert_ne by done. f_equal. by apply IH.
Qed.

Lemma removeKey_notin ck ks : ck ∉ ks -> removeKey ck ks = ks.
Proof.
  induction ks as [|k ks IH]; [done|]. intros [Hk Hn]%not_elem_of_cons. simpl.
  rewrite decide_False by congruence. f_equal. by apply IH.
Qed.

Lemma spec_del_ent m ks ck :
  NoDup ks -> spec_del ck (ent m ks) = ent (delete ck m) (removeKey ck ks).
Proof.
  unfold spec_del. induction 1 as [|k ks Hk Hnd IH]; [done|]. simpl.
  destruct (decide (k = ck)) as [->|E].
  - rewrite filter_cons_False by (simpl; tauto). by rewrite IH, removeKey_notin.
  - rewrite filter_cons_True by done. simpl. rewrite lookup_delete_ne by done.
    f_equal. apply IH.
Qed.

Lemma spec_lookup_ent m ks ck :
  spec_lookup ck (ent m ks) = if decide (ck ∈ ks) then Some (default [] (m !! ck)) else None.
Proof.
  induction ks as [|k ks IH]; [done|]. simpl.
  destruct (decide (k = ck)) as [->|E].
  - rewrite decide_True by apply elem_of_cons, or_introl, eq_refl. done.
  - rewrite IH. destruct (decide (ck ∈ ks)) as [Hi|Hi].
    + rewrite decide_True by (by apply elem_of_cons; right). done.
    + rewrite decide_False by (rewrite elem_of_cons; naive_solver). done.
Qed.

Lemma removeKey_elem ck ks k : NoDup ks -> k ∈ removeKey ck ks <-> k ∈ ks /\ k <> ck.
Proof.
  induction 1 as [|k' ks Hk Hnd IH]; simpl.
  - rewrite elem_of_nil. tauto.
  - case_decide; rewrite ?elem_of_cons; naive_solver.
Qed.

Lemma removeKey_NoDup ck ks : NoDup ks -> NoDup (removeKey ck ks).
Proof.
  induction 1 as [|k' ks Hk Hnd IH]; simpl; [constructor|].
  case_decide; [done|]. constructor; [|done]. rewrite removeKey_elem by done. tauto.
Qed.

End entries_lemmas.

(** ** The invariant is preserved *)

Lemma wf_vals_None h ck : wf h -> vals h !! ck = None <-> ck ∉ keys h.
Proof. intros W. rewrite (wf_dom _ W), <- eq_None_not_Some. done. Qed.

Lemma wf_insert h ck vs :
  wf h -> vs <> [] -> wf {| keys := noteKey h ck; vals := <[ck := vs]> (vals h) |}.
Proof.
  intros W Hvs. unfold noteKey. constructor; simpl.
  - destruct (vals h !! ck) eqn:E; [apply W|]. apply NoDup_app. repeat split.
    + apply W.
    + intros k Hk ->%list_elem_of_singleton. by apply wf_vals_None in E.
    + apply NoDup_singleton.
  - intros k. rewrite lookup_insert_is_Some'. rewrite <- (wf_dom _ W).
    destruct (vals h !! ck) eqn:E.
    + assert (ck ∈ keys h) by (apply (wf_dom _ W); eauto). naive_solver.
    + rewrite elem_of_app, list_elem_of_singleton. naive_solver.
  - intros k vs'. rewrite lookup_insert_Some. intros [[<- <-]|[? ?]]; [done|]. by eapply W.
Qed.

Lemma wf_New : wf NewHeaders.
Proof.
  constructor; simpl.
  - constructor.
  - intros k. rewrite lookup_empty, elem_of_nil. split; [done|by intros []].
  - intros k vs. by rewrite lookup_empty.
Qed.

Lemma wf_Set h key v : wf h -> wf (Set_ h key v).
Proof. intros. by apply wf_insert. Qed.

Lemma wf_Add h key v : wf h -> wf (Add h key v).
Proof. intros. apply wf_insert; [done|]. by destruct (default [] _). Qed.

Lemma wf_Del h key : wf h -> wf (Del h key).
Proof.
  intros W. unfold Del. destruct (vals h !! canonical key) eqn:E; [|done].
  pose proof (wf_nodup _ W). constructor; simpl.
  - by apply removeKey_NoDup.
  - intros k. rewrite removeKey_elem, lookup_delete_is_Some, (wf_dom _ W) by done. naive_solver.
  - intros k vs. rewrite lookup_delete_Some. intros [? ?]. by eapply W.
Qed.

#[export] Hint Resolve wf_New wf_Set wf_Add wf_Del : pulse.

(** ** Refinement of the ordered association list *)

Lemma entries_update h ck f :
  wf h ->
  entries {| keys := noteKey h ck; vals := <[ck := f (default [] (vals h !! ck))]> (vals h) |}
  = spec_update f ck (entries h).
Proof.
  intros W. unfold entries, noteKey; simpl. destruct (vals h !! ck) eqn:E; simpl.
  - rewrite spec_update_ent_old; [by rewrite E|apply W|]. apply (wf_dom _ W). eauto.
  - apply wf_vals_None in E as Hn; [|done].
    rewrite spec_update_ent_new, fmap_app by done. simpl. rewrite lookup_insert_eq.
    f_equal. by apply ent_insert_notin.
Qed.

Lemma entries_Set h k v : wf h -> entries (Set_ h k v) = spec_set (canonical k) v (entries h).
Proof. intros W. by apply (entries_update h (canonical k) (fun _ => [v])). Qed.

Lemma entries_Add h k v : wf h -> entries (Add h k v) = spec_add (canonical k) v (entries h).
Proof. intros W. by apply (entries_update h (canonical k) (fun vs => vs ++ [v])). Qed.

Lemma entries_Del h k : wf h -> entries (Del h k) = spec_del (canonical k) (entries h).
Proof.
  intros W. unfold Del. destruct (vals h !! canonical k) eqn:E.
  - unfold entries. simpl. by rewrite spec_del_ent by apply W.
  - apply wf_vals_None in E; [|done]. unfold entries.
    rewrite spec_del_ent by apply W. by rewrite removeKey_notin, ent_delete_notin.
Qed.

Lemma spec_lookup_entries h ck : wf h -> spec_lookup ck (entries h) = vals h !! ck.
Proof.
  intros W. unfold entries. rewrite spec_lookup_ent. case_decide as Hin.
  - apply (wf_dom _ W) in Hin as [vs ->]. done.
  - by apply wf_vals_None in Hin as ->.
Qed.

(** A well-formed header map is determined by its view. *)
Lemma entries_inj h1 h2 : wf h1 -> wf h2 -> entries h1 = entries h2 -> h1 = h2.
Proof.
  intros W1 W2 E.
  assert (keys h1 = keys h2) as Ek.
  { apply (f_equal (fmap fst)) in E. unfold entries in E.
    rewrite <- !list_fmap_compose in E. by rewrite !list_fmap_id in E. }
  assert (vals h1 = vals h2) as Ev.
  { apply map_eq. intros k. by rewrite <- !spec_lookup_entries, E. }
  destruct h1, h2. simpl in *. by subst.
Qed.

Lemma WriteTo_entries h out : WriteTo h out = out ++ spec_lines (entries h).
Proof.
  unfold WriteTo, Range, spec_lines, entries.
  generalize (keys h) as ks. intros ks. revert out.
  induction ks as [|k ks IH]; intros out; simpl; [by rewrite app_nil_r|].
  rewrite IH, app_assoc. f_equal.
  generalize (default [] (vals h !! k)) as vs. intros vs. revert out.
  induction vs as [|v vs IHv]; intros out; simpl; [by rewrite app_nil_r|].
  rewrite IHv. by rewrite <- !app_assoc.
Qed.

Lemma Len_entries h : Len h = len (entries h).
Proof. unfold Len, entries, len. by rewrite length_fmap. Qed.

(** ** Case-insensitivity *)

(** Two names that differ only in ASCII letter case. *)
Definition same_name (s t : bytes) : Prop := lowerByte <$> s = lowerByte <$> t.

Lemma lowerByte_facts c :
  lowerByte (lowerByte c) = lowerByte c /\ upperByte (lowerByte c) = upperByte c /\
  lowerByte (upperByte c) = lowerByte c /\ upperByte (upperByte c) = upperByte c /\
  validHeaderFieldByte (lowerByte c) = validHeaderFieldByte c /\
  validHeaderFieldByte (upperByte c) = validHeaderFieldByte c /\
  bool_decide (lowerByte c = "-"%char) = bool_decide (c = "-"%char) /\
  bool_decide (upperByte c = "-"%char) = bool_decide (c = "-"%char).
Proof. destruct c as [[] [] [] [] [] [] [] []]; vm_compute; tauto. Qed.

Ltac byte_facts c :=
  pose proof (lowerByte_facts c) as (? & ? & ? & ? & ? & ? & ? & ?).

Lemma canonBytes_lower up s : canonBytes up (lowerByte <$> s) = canonBytes up s.
Proof.
  revert up. induction s as [|c s IH]; intros up; [done|]. simpl.
  byte_facts c. rewrite IH. f_equal; [by destruct up|congruence].
Qed.

Lemma canonBytes_idem up s : canonBytes up (canonBytes up s) = canonBytes up s.
Proof.
  revert up. induction s as [|c s IH]; intros up; [done|]. simpl. byte_facts c.
  f_equal; [by destruct up|].
  replace (bool_decide ((if up then upperByte c else lowerByte c) = "-"%char))
    with (bool_decide (c = "-"%char)) by (by destruct up). apply IH.
Qed.

Lemma valid_canonBytes up s :
  forallb validHeaderFieldByte (canonBytes up s) = forallb validHeaderFieldByte s.
Proof.
  revert up. induction s as [|c s IH]; intros up; [done|]. simpl. rewrite IH.
  byte_facts c. f_equal. by destruct up.
Qed.

Lemma canonical_idem s : canonical (canonical s) = canonical s.
Proof.
  unfold canonical, CanonicalMIMEHeaderKey.
  destruct (forallb validHeaderFieldByte s) eqn:E; [|by rewrite E].
  rewrite valid_canonBytes, E. apply canonBytes_idem.
Qed.

Lemma valid_lower s :
  forallb validHeaderFieldByte (lowerByte <$> s) = forallb validHeaderFieldByte s.
Proof. induction s as [|c s IH]; [done|]. simpl. byte_facts c. by f_equal. Qed.

Lemma canonical_same_name s t :
  forallb validHeaderFieldByte s = true -> same_name s t -> canonical s = canonical t.
Proof.
  unfold same_name. intros Hs E. assert (forallb validHeaderFieldByte t = true) as Ht.
  { rewrite <- Hs, <- (valid_lower s), <- (valid_lower t). by f_equal. }
  unfold canonical, CanonicalMIMEHeaderKey. rewrite Hs, Ht.
  by rewrite <- (canonBytes_lower true s), E, canonBytes_lower.
Qed.

Lemma Values_Set h k v k' :
  Values (Set_ h k v) k' = if decide (canonical k = canonical k') then [v] else Values h k'.
Proof. unfold Values, Set_; simpl. rewrite lookup_insert. by case_decide. Qed.

Lemma Values_Add h k v k' :
  Values (Add h k v) k' =
  if decide (canonical k = canonical k') then Values h k' ++ [v] else Values h k'.
Proof. unfold Values, Add; simpl. rewrite lookup_insert. case_decide as E; [by rewrite E|done]. Qed.

Lemma Values_Del h k k' :
  Values (Del h k) k' = if decide (canonical k = canonical k') then [] else Values h k'.
Proof.
  unfold Values, Del. destruct (vals h !! canonical k) eqn:E; simpl.
  - rewrite lookup_delete. by case_decide.
  - case_decide as Ek; [|done]. by rewrite <- Ek, E.
Qed.

Lemma Has_Set h k v k' :
  Has (Set_ h k v) k' = bool_decide (canonical k = canonical k') || Has h k'.
Proof. unfold Has, Set_; simpl. rewrite lookup_insert. by repeat case_decide. Qed.

Lemma Has_Add h k v k' :
  Has (Add h k v) k' = bool_decide (canonical k = canonical k') || Has h k'.
Proof. unfold Has, Add; simpl. rewrite lookup_insert. by repeat case_decide. Qed.

Lemma Has_Del h k k' :
  Has (Del h k) k' = negb (bool_decide (canonical k = canonical k')) && Has h k'.
Proof.
  unfold Has, Del. destruct (vals h !! canonical k) eqn:E; simpl.
  - rewrite lookup_delete. by repeat case_decide.
  - case_bool_decide as Ek; [|done]. by rewrite <- Ek, E.
Qed.

Lemma Get_Set h k v k' :
  Get (Set_ h k v) k' = if decide (canonical k = canonical k') then v else Get h k'.
Proof. unfold Get. rewrite Values_Set. by case_decide. Qed.

#[export] Hint Rewrite Values_Set Values_Add Values_Del Has_Set Has_Add Has_Del Get_Set : pulse.

(** ** Properties *)

(** C15: every operation of the header map implements the corresponding one of
    the ordered association list, and keeps the map well formed: [Set] rewrites
    in place or appends, [Add] extends the values, [Del] removes the key, the
    readers look the key up, and [WriteTo] prints the list in order. *)
Theorem Headers_refine (h : Headers) (k v out : bytes) :
  wf h ->
  (wf (Set_ h k v) /\ entries (Set_ h k v) = spec_set (canonical k) v (entries h)) /\
  (wf (Add h k v) /\ entries (Add h k v) = spec_add (canonical k) v (entries h)) /\
  (wf (Del h k) /\ entries (Del h k) = spec_del (canonical k) (entries h)) /\
  Values h k = default [] (spec_lookup (canonical k) (entries h)) /\
  Has h k = bool_decide (is_Some (spec_lookup (canonical k) (entries h))) /\
  Len h = len (entries h) /\
  WriteTo h out = out ++ spec_lines (entries h).
Proof.
  intros W. rewrite entries_Set, entries_Add, entries_Del, spec_lookup_entries by done.
  split_and!; auto with pulse.
  - unfold Has. by destruct (vals h !! canonical k).
  - apply Len_entries.
  - apply WriteTo_entries.
Qed.

Lemma Headers_refine_witness :
  let h := Add (Set_ NewHeaders $"host" $"a") $"X-Two" $"1" in
  wf h /\ entries (Add h $"HOST" $"b") = [($"Host", [$"a"; $"b"]); ($"X-Two", [$"1"])].
Proof.
  intros h. assert (wf h) as W by (apply wf_Add, wf_Set, wf_New). split; [done|].
  destruct (Headers_refine h $"HOST" $"b" [] W) as (_ & (_ & E) & _). rewrite E. by vm_compute.
Defined.

(** Names that differ only in letter case address the same entry: a value
    set or added under one spelling is read, tested and deleted under the
    other, and other names are untouched. *)
Theorem Headers_case_insensitive (h : Headers) (k k' other v : bytes) :
  forallb validHeaderFieldByte k = true -> same_name k k' -> canonical other <> canonical k ->
  Get (Set_ h k v) k' = v /\
  Values (Add h k v) k' = Values h k' ++ [v] /\
  Has (Add h k v) k' = true /\ Has (Set_ h k v) k' = true /\
  Has (Del h k) k' = false /\
  Values (Set_ h k v) other = Values h other /\
  Values (Add h k v) other = Values h other /\
  Values (Del h k) other = Values h other.
Proof.
  intros Hk E Ho. pose proof (canonical_same_name _ _ Hk E) as Ec.
  autorewrite with pulse. rewrite !decide_True by done. rewrite !decide_False by congruence.
  rewrite !bool_decide_true by done. done.
Qed.

Lemma Headers_case_insensitive_witness :
  Get (Set_ NewHeaders $"X-Request-ID" $"7") $"x-request-id" = $"7".
Proof.
  apply (Headers_case_insensitive NewHeaders $"X-Request-ID" $"x-request-id" $"Host" $"7");
    vm_compute; congruence.
Defined.
