(* ===== verification/GoURL.v ===== *)
(** * The parts of [net/url] the request parser uses

    [PathUnescape] and [ParseQuery], on byte lists.  A result of [None] is a
    non-nil error. *)

From S2P Require Import Prelude GoStrings.

(** [%XX] decoding; [plus] is set for query components, where ['+'] is a space. *)
Fixpoint unescape (plus : bool) (s : bytes) : option bytes :=
  match s with
  | [] => Some []
  | c :: s1 =>
    if decide (c = "%"%char) then
      match s1 with
      | h1 :: h2 :: s3 =>
        match digitValue h1, digitValue h2 with
        | Some a, Some b =>
          if (a <? 16) && (b <? 16) then cons (zb (16 * a + b)) <$> unescape plus s3 else None
        | _, _ => None
        end
      | _ => None
      end
    else if plus && bool_decide (c = "+"%char) then cons sp <$> unescape plus s1
    else cons c <$> unescape plus s1
  end.

Definition PathUnescape : bytes -> option bytes := unescape false.
Definition QueryUnescape : bytes -> option bytes := unescape true.

Abbreviation URLValues := (gmap bytes (list bytes)).

(** One [key=value] piece between two ampersands. *)
Definition parsePair (m : URLValues) (piece : bytes) : option URLValues :=
  if bool_decide (";"%char ∈ piece) then None
  else if beq piece [] then Some m
  else
    let '(key, value, _) := Cut piece "=" in
    key ← QueryUnescape key; value ← QueryUnescape value;
    Some (<[key := default [] (m !! key) ++ [value]]> m).

Definition ParseQuery (query : bytes) : option URLValues :=
  foldl (fun om piece => m ← om; parsePair m piece) (Some ∅) (Split query "&").

(** [Values.Get]. *)
Definition QueryGet (m : URLValues) (key : bytes) : bytes :=
  match m !! key with Some (v :: _) => v | _ => [] end.

(** A byte string without escapes is its own decoding. *)
Lemma unescape_id s : "%"%char ∉ s -> unescape false s = Some s.
Proof.
  induction s as [|c s IH]; [done|]. intros [Hc Hs]%not_elem_of_cons. simpl.
  rewrite decide_False by congruence. by rewrite IH.
Qed.
