(* ===== verification/Status.v ===== *)
(** * httpcore/status.go: status codes and reason phrases *)

From S2P Require Import Prelude GoStrings.

Definition StatusOK := 200.
Definition StatusCreated := 201.
Definition StatusNoContent := 204.
Definition StatusMovedPermanently := 301.
Definition StatusNotModified := 304.
Definition StatusBadRequest := 400.
Definition StatusUnauthorized := 401.
Definition StatusForbidden := 403.
Definition StatusNotFound := 404.
Definition StatusMethodNotAllowed := 405.
Definition StatusRequestTimeout := 408.
Definition StatusLengthRequired := 411.
Definition StatusPayloadTooLarge := 413.
Definition StatusURITooLong := 414.
Definition StatusTooManyRequests := 429.
Definition StatusHeaderFieldsTooLarge := 431.
Definition StatusInternalServerError := 500.
Definition StatusNotImplemented := 501.
Definition StatusBadGateway := 502.
Definition StatusServiceUnavailable := 503.
Definition StatusGatewayTimeout := 504.
Definition StatusHTTPVersionNotSupported := 505.

Definition reasonPhraseList : list (Z * bytes) :=
  [(100, $"Continue"); (200, $"OK"); (201, $"Created"); (202, $"Accepted");
   (204, $"No Content"); (301, $"Moved Permanently"); (302, $"Found");
   (304, $"Not Modified"); (400, $"Bad Request"); (401, $"Unauthorized");
   (403, $"Forbidden"); (404, $"Not Found"); (405, $"Method Not Allowed");
   (408, $"Request Timeout"); (409, $"Conflict"); (411, $"Length Required");
   (413, $"Payload Too Large"); (414, $"URI Too Long");
   (415, $"Unsupported Media Type"); (429, $"Too Many Requests");
   (431, $"Request Header Fields Too Large"); (500, $"Internal Server Error");
   (501, $"Not Implemented"); (502, $"Bad Gateway"); (503, $"Service Unavailable");
   (504, $"Gateway Timeout"); (505, $"HTTP Version Not Supported")].

Definition reasonPhrases : gmap Z bytes := list_to_map reasonPhraseList.

Definition ReasonPhrase (code : Z) : bytes :=
  match reasonPhrases !! code with Some p => p | None => $"Status" end.
