(* ===== verification/Request.v ===== *)
(** * httpcore/request.go: the bounded request parser

    [ParseRequest] reads one request off a [reader].  A parse step is a
    function [io A] from the reader to an outcome and the advanced reader: it
    returns, raises a Go [error], panics (a [make] with an impossible length),
    or runs out of the loop fuel, which the lemmas below show never happens
    with the fuel the definitions use (the number of bytes left plus one: each
    iteration consumes at least one). *)

From S2P Require Import Prelude GoStrings GoIO GoURL Headers Status.

(** ** Limits *)

Record Limits := mkLimits {
  MaxRequestLine : Z;
  MaxHeaderLine : Z;
  MaxHeaderBytes : Z;
  MaxHeaderCount : Z;
  MaxBodyBytes : Z;
}.

#[global] Instance Limits_eq_dec : EqDecision Limits.
Proof. solve_decision. Defined.

Definition DefaultLimits : Limits := {|
  MaxRequestLine := Z.shiftl 8 10;
  MaxHeaderLine := Z.shiftl 8 10;
  MaxHeaderBytes := Z.shiftl 64 10;
  MaxHeaderCount := 100;
  MaxBodyBytes := Z.shiftl 1 20;
|}.

(** ** Errors *)

Inductive fmtArg := FInt (z : Z) | FStr (s : bytes).

(** Go [error] values.  A [ParseError] keeps its [Reason] as the format string
    and its integer and string arguments: the text is only for logs.  For
    [perrc] the remaining [%v] argument is the cause itself. *)
#[warnings="-register-all"]
Inductive error :=
| ErrIO (e : ioerr)
| errLineTooLong
| errCleanClose
| ParseError (Status : Z) (Reason : bytes * list fmtArg) (cause : option error)
| Errorf (msg : bytes) (wrapped : error).

Definition perr (status : Z) (format : bytes) (args : list fmtArg) : error :=
  ParseError status (format, args) None.

Definition perrc (status : Z) (cause : error) (format : bytes) : error :=
  ParseError status (format, []) (Some cause).

(** [errors.As(err, &pe)] for [*ParseError]: the first one on the chain. *)
Fixpoint asParseError (e : error) : option error :=
  match e with
  | ParseError _ _ _ => Some e
  | Errorf _ w => asParseError w
  | _ => None
  end.

(** [errors.As(err, &ne)] for [net.Error]: the first connection error on the
    chain. *)
Fixpoint asNetError (e : error) : option ioerr :=
  match e with
  | ErrIO NetTimeout => Some NetTimeout
  | ErrIO NetFailure => Some NetFailure
  | ParseError _ _ (Some c) => asNetError c
  | Errorf _ w => asNetError w
  | _ => None
  end.

(** ** The parse monad *)

Inductive outcome (A : Type) :=
| Ret (a : A)
| Raise (e : error)
| GoPanic
| NoFuel.
Arguments Ret {A} a.
Arguments Raise {A} e.
Arguments GoPanic {A}.
Arguments NoFuel {A}.

Definition io (A : Type) : Type := reader -> outcome A * reader.

Definition ret {A} (a : A) : io A := fun r => (Ret a, r).
Definition raise {A} (e : error) : io A := fun r => (Raise e, r).
Definition bind {A B} (m : io A) (k : A -> io B) : io B := fun r =>
  match m r with
  | (Ret a, r') => k a r'
  | (Raise e, r') => (Raise e, r')
  | (GoPanic, r') => (GoPanic, r')
  | (NoFuel, r') => (NoFuel, r')
  end.

(** [if err != nil { return nil, f(err) }]. *)
Definition mapErr {A} (m : io A) (f : error -> error) : io A := fun r =>
  match m r with
  | (Raise e, r') => (Raise (f e), r')
  | res => res
  end.

Notation "'let*' x ':=' m 'in' k" := (bind m (fun x => k))
  (at level 10, x name, m at level 100, k at level 200) : go_scope.
Notation "m ';;;' k" := (bind m (fun _ => k)) (at level 199, right associativity) : go_scope.

(** The largest allocation of the Go runtime on 64-bit targets: [make] of a
    byte slice panics below zero and above it. *)
Definition maxAlloc : Z := 2 ^ 48.
Definition makeBytes (n : Z) : io unit := fun r =>
  if (0 <=? n) && (n <=? maxAlloc) then (Ret tt, r) else (GoPanic, r).

Definition readFull (n : Z) : io bytes := fun r =>
  match ReadFull r n with
  | (inl bs, r') => (Ret bs, r')
  | (inr e, r') => (Raise (ErrIO e), r')
  end.

(** Run a loop with one more unit of fuel than there are bytes to read. *)
Definition withFuel {A} (loop : nat -> io A) : io A := fun r => loop (S (length (rest r))) r.

(** ** Lines *)

Fixpoint lineLoop (fuel : nat) (max : Z) (buf : bytes) : io bytes := fun r =>
  match fuel with
  | O => (NoFuel, r)
  | S fuel' =>
    let '(chunk, err, r') := ReadSlice r in
    let buf := buf ++ chunk in
    if max <? len buf then (Raise errLineTooLong, r')
    else match err with
         | SliceOk => (Ret buf, r')
         | SliceFull => lineLoop fuel' max buf r'
         | SliceErr e => (Raise (ErrIO e), r')
         end
  end.

Definition trimEOL (buf : bytes) : bytes := TrimSuffix (TrimSuffix buf [nl]) [cr].

Definition readBoundedLine (max : Z) : io bytes :=
  let* buf := withFuel (fun fuel => lineLoop fuel max []) in
  ret (trimEOL buf).

(** ** Chunked bodies *)

Fixpoint trailerLoop (fuel : nat) (lim : Limits) : io unit :=
  match fuel with
  | O => fun r => (NoFuel, r)
  | S fuel' =>
    let* t := mapErr (readBoundedLine (MaxHeaderLine lim)) (Errorf $"reading trailers: %w") in
    if beq t [] then ret tt else trailerLoop fuel' lim
  end.

Definition chunkCRLF : io unit := fun r =>
  match ReadFull r 2 with
  | (inl crlf, r') =>
    if beq crlf CRLF then (Ret tt, r')
    else (Raise (perr StatusBadRequest $"chunk data not terminated by CRLF" []), r')
  | (inr _, r') => (Raise (perr StatusBadRequest $"chunk data not terminated by CRLF" []), r')
  end.

(** The sum [int64(len(body))+size] is an [int64]. *)
Fixpoint chunkLoop (fuel : nat) (lim : Limits) (body : bytes) : io bytes :=
  match fuel with
  | O => fun r => (NoFuel, r)
  | S fuel' =>
    let* sizeLine := mapErr (readBoundedLine (MaxHeaderLine lim)) (Errorf $"reading chunk size: %w") in
    let sizeHex := (Cut sizeLine ";").1.1 in
    let '(size, err) := ParseInt (TrimSpace sizeHex) 16 in
    if bool_decide (err <> None) || (size <? 0) then
      raise (perr StatusBadRequest $"invalid chunk size %q" [FStr sizeLine])
    else if size =? 0 then
      withFuel (fun fuel => trailerLoop fuel lim) ;;; ret body
    else if MaxBodyBytes lim <? wrap64 (len body + size) then
      raise (perr StatusPayloadTooLarge $"chunked body exceeds limit %d" [FInt (MaxBodyBytes lim)])
    else
      makeBytes size ;;;
      let* chunk := mapErr (readFull size) (Errorf $"short chunk read: %w") in
      chunkCRLF ;;;
      chunkLoop fuel' lim (body ++ chunk)
  end.

Definition readChunkedBody (lim : Limits) : io bytes :=
  withFuel (fun fuel => chunkLoop fuel lim []).

(** ** Requests *)

Inductive metaValue := MetaStr (s : bytes) | MetaRole (role : Z).

Record Request := mkRequest {
  Method : bytes;
  RawTarget : bytes;
  Path : bytes;
  Proto : bytes;
  Query : URLValues;
  ReqHeaders : Headers;
  Body : bytes;
  RemoteAddr : bytes;
  PathParams : gmap bytes bytes;
  Meta : gmap bytes metaValue;
}.

Definition wantClose (r : Request) : bool :=
  if ContainsToken (ReqHeaders r) $"Connection" $"close" then true
  else beq (Proto r) $"HTTP/1.0" && negb (ContainsToken (ReqHeaders r) $"Connection" $"keep-alive").

Definition knownMethodList : list bytes :=
  [$"GET"; $"HEAD"; $"POST"; $"PUT"; $"DELETE"; $"PATCH"; $"OPTIONS"].
Definition knownMethods (method : bytes) : bool := bool_decide (method ∈ knownMethodList).

(** The header section, up to and including the blank line. *)
Fixpoint headerLoop (fuel : nat) (lim : Limits) (headers : Headers) (totalHeaderBytes : Z) : io Headers :=
  match fuel with
  | O => fun r => (NoFuel, r)
  | S fuel' =>
    let* hline := mapErr (readBoundedLine (MaxHeaderLine lim)) (fun err =>
      match err with
      | errLineTooLong =>
        perr StatusHeaderFieldsTooLarge $"header line exceeds %d bytes" [FInt (MaxHeaderLine lim)]
      | _ => perrc StatusBadRequest err $"reading headers: %v"
      end) in
    if beq hline [] then ret headers
    else
      let totalHeaderBytes := totalHeaderBytes + len hline in
      if MaxHeaderBytes lim <? totalHeaderBytes then
        raise (perr StatusHeaderFieldsTooLarge $"headers exceed %d bytes" [FInt (MaxHeaderBytes lim)])
      else
        let '(name, value, found) := Cut hline colon in
        if negb found || beq name [] || ContainsAny name [sp; "009"%char] then
          raise (perr StatusBadRequest $"malformed header line %q" [FStr hline])
        else
          let headers := Add headers name (TrimSpace value) in
          if MaxHeaderCount lim <? Len headers then
            raise (perr StatusHeaderFieldsTooLarge $"more than %d header fields" [FInt (MaxHeaderCount lim)])
          else headerLoop fuel' lim headers totalHeaderBytes
  end.

(** The body, by the framing headers. *)
Definition readBody (lim : Limits) (headers : Headers) : io bytes :=
  if ContainsToken headers $"Transfer-Encoding" $"chunked" then
    mapErr (readChunkedBody lim) (fun err =>
      match asParseError err with
      | Some pe => pe
      | None => perrc StatusBadRequest err $"reading chunked body: %v"
      end)
  else if Has headers $"Transfer-Encoding" then
    raise (perr StatusNotImplemented $"transfer-encoding %q not supported"
             [FStr (Get headers $"Transfer-Encoding")])
  else if Has headers $"Content-Length" then
    let '(n, convErr) := ParseInt (Get headers $"Content-Length") 10 in
    if bool_decide (convErr <> None) || (n <? 0) then
      raise (perr StatusBadRequest $"invalid Content-Length %q" [FStr (Get headers $"Content-Length")])
    else if MaxBodyBytes lim <? n then
      raise (perr StatusPayloadTooLarge $"declared body of %d bytes exceeds limit %d"
               [FInt n; FInt (MaxBodyBytes lim)])
    else
      makeBytes n ;;;
      mapErr (readFull n) (fun err => perrc StatusBadRequest err $"short body read: %v")
  else ret [].

Section ParseRequest.
Context `{GoRuntime}.

Definition requestLineErr (lim : Limits) (err : error) : error :=
  match err with
  | errLineTooLong =>
    perr StatusURITooLong $"request line exceeds %d bytes" [FInt (MaxRequestLine lim)]
  | ErrIO EOF => errCleanClose      (* the returned line is always "" here *)
  | _ => perrc StatusBadRequest err $"reading request line: %v"
  end.

(** The checks on the three parts of the request line: the error to return. *)
Definition checkRequestLine (method target proto : bytes) : option error :=
  if negb (knownMethods method) then
    if negb (beq method (ToUpper method)) || beq method [] then
      Some (perr StatusBadRequest $"malformed method %q" [FStr method])
    else Some (perr StatusNotImplemented $"method %q not implemented" [FStr method])
  else if negb (beq proto $"HTTP/1.1") && negb (beq proto $"HTTP/1.0") then
    Some (perr StatusHTTPVersionNotSupported $"unsupported protocol %q" [FStr proto])
  else if negb (HasPrefix target $"/") then
    Some (perr StatusBadRequest $"target %q must be origin-form" [FStr target])
  else None.

(** Everything after the request line has been accepted. *)
Definition parseRest (lim : Limits) (remoteAddr method target proto : bytes) : io Request :=
  let* headers := withFuel (fun fuel => headerLoop fuel lim NewHeaders 0) in
  if beq proto $"HTTP/1.1" && negb (Has headers $"Host") then
    raise (perr StatusBadRequest $"HTTP/1.1 request without Host header" [])
  else
    let* body := readBody lim headers in
    let '(rawPath, rawQuery, _) := Cut target "?" in
    match PathUnescape rawPath with
    | None => raise (perr StatusBadRequest $"undecodable path %q" [FStr rawPath])
    | Some path =>
      match ParseQuery rawQuery with
      | None => raise (perr StatusBadRequest $"undecodable query %q" [FStr rawQuery])
      | Some query =>
        ret {| Method := method; RawTarget := target; Path := path; Proto := proto;
               Query := query; ReqHeaders := headers; Body := body; RemoteAddr := remoteAddr;
               PathParams := ∅; Meta := ∅ |}
      end
    end.

Definition ParseRequest (lim : Limits) (remoteAddr : bytes) : io Request :=
  let* line := mapErr (readBoundedLine (MaxRequestLine lim)) (requestLineErr lim) in
  match Split line sp with
  | [method; target; proto] =>
    match checkRequestLine method target proto with
    | Some err => raise err
    | None => parseRest lim remoteAddr method target proto
    end
  | _ => raise (perr StatusBadRequest $"malformed request line %q" [FStr line])
  end.

End ParseRequest.

(** ** A program logic for parse steps

    [wp m Q E P r]: run from [r], [m] returns a value and reader in [Q], or
    raises an error in [E], or panics and [P] holds; it never runs out of
    fuel. *)

Definition wp {A} (m : io A) (Q : A -> reader -> Prop) (E : error -> Prop) (P : Prop)
    (r : reader) : Prop :=
  match m r with
  | (Ret a, r') => Q a r'
  | (Raise e, _) => E e
  | (GoPanic, _) => P
  | (NoFuel, _) => False
  end.

Section wp_rules.
Context {A B : Type}.
Implicit Types (E : error -> Prop) (P : Prop) (r : reader).

Lemma wp_ret (a : A) Q E P r : Q a r -> wp (ret a) Q E P r.
Proof. done. Qed.

Lemma wp_raise e (Q : A -> reader -> Prop) E P r : E e -> wp (raise e) Q E P r.
Proof. done. Qed.

Lemma wp_bind (m : io A) (k : A -> io B) Q E P r :
  wp m (fun a r' => wp (k a) Q E P r') E P r -> wp (bind m k) Q E P r.
Proof. unfold wp, bind. by destruct (m r) as [[] ?]. Qed.

Lemma wp_mapErr (m : io A) f Q E P r :
  wp m Q (fun e => E (f e)) P r -> wp (mapErr m f) Q E P r.
Proof. unfold wp, mapErr. by destruct (m r) as [[] ?]. Qed.

Lemma wp_mono (m : io A) (Q Q' : A -> reader -> Prop) E E' (P P' : Prop) r :
  wp m Q E P r -> (forall a r', Q a r' -> Q' a r') -> (forall e, E e -> E' e) -> (P -> P') ->
  wp m Q' E' P' r.
Proof. unfold wp. destruct (m r) as [[] ?]; naive_solver. Qed.

Lemma wp_withFuel (loop : nat -> io A) Q E P r :
  (forall fuel, (length (rest r) < fuel)%nat -> wp (loop fuel) Q E P r) ->
  wp (withFuel loop) Q E P r.
Proof. intros H. apply H. lia. Qed.

Lemma wp_Ret (m : io A) Q E P r a r' : wp m Q E P r -> m r = (Ret a, r') -> Q a r'.
Proof. unfold wp. intros H Em. by rewrite Em in H. Qed.

End wp_rules.

Ltac wp_step :=
  lazymatch goal with
  | |- wp (bind _ _) _ _ _ _ => apply wp_bind
  | |- wp (mapErr _ _) _ _ _ _ => apply wp_mapErr
  | |- wp (ret _) _ _ _ _ => apply wp_ret
  | |- wp (raise _) _ _ _ _ => apply wp_raise
  end.

(** [r'] is [r] after reading some bytes. *)
Record later (r r' : reader) : Prop := {
  later_rest : exists pre, rest r = pre ++ rest r';
  later_ending : ending r' = ending r;
  later_buf : bufsize r' = bufsize r;
}.

#[global] Instance later_preorder : PreOrder later.
Proof.
  split.
  - intros r. constructor; [by exists []|done|done].
  - intros r1 r2 r3 [[p1 E1] ? ?] [[p2 E2] ? ?]. constructor; [|congruence|congruence].
    exists (p1 ++ p2). by rewrite <- app_assoc, <- E2.
Qed.

Lemma later_cut r a b : rest r = a ++ b -> later r (mkReader b (ending r) (bufsize r)).
Proof. intros E. constructor; [by exists a|done|done]. Qed.

Lemma later_length r r' : later r r' -> (length (rest r') <= length (rest r))%nat.
Proof. intros [[p ->] _ _]. rewrite length_app. lia. Qed.

#[export] Hint Resolve later_cut : pulse.

(** ** Reading a line *)

Section lines.
Implicit Types (r : reader) (buf : bytes).

Lemma IndexByte_take n s c :
  IndexByte (take n s) c =
  match IndexByte s c with Some i => if (i <? n)%nat then Some i else None | None => None end.
Proof.
  revert n. induction s as [|d s IH]; intros [|n]; simpl; try done.
  - case_decide; [done|]. by destruct (IndexByte s c).
  - case_decide; [done|]. rewrite IH. destruct (IndexByte s c) as [i|]; [simpl|done].
    change (S i <? S n)%nat with (i <? n)%nat. by destruct (i <? n)%nat.
Qed.

Lemma IndexByte_drop n s c i :
  IndexByte s c = Some i -> (n <= i)%nat -> IndexByte (drop n s) c = Some (i - n)%nat.
Proof.
  revert n i. induction s as [|d s IH]; intros [|n] i; simpl; try done.
  - intros Hi _. rewrite Nat.sub_0_r. done.
  - case_decide; [intros [= <-]; lia|]. destruct (IndexByte s c) as [j|] eqn:E; simpl; [|done].
    intros [= <-] Hn. rewrite (IH n j); [done|done|lia].
Qed.

(** What the loop computes, whatever the buffer size: the line through its
    newline when everything read so far fits, and an error otherwise. *)
Definition lineResult (max : Z) (buf : bytes) (r : reader) : outcome bytes :=
  match IndexByte (rest r) nl with
  | Some i => if max <? len buf + Z.of_nat (S i) then Raise errLineTooLong
              else Ret (buf ++ take (S i) (rest r))
  | None => if max <? len buf + len (rest r) then Raise errLineTooLong
            else Raise (ErrIO (ending r))
  end.

Definition afterLine (r : reader) : reader :=
  match IndexByte (rest r) nl with
  | Some i => advance r (S i)
  | None => advance r (length (rest r))
  end.

(** A full buffer without a newline moves the question past it. *)
Lemma lineResult_full max buf r :
  (bufsize r <= length (rest r))%nat -> IndexByte (take (bufsize r) (rest r)) nl = None ->
  let chunk := take (bufsize r) (rest r) in
  let r' := advance r (bufsize r) in
  len (buf ++ chunk) = len buf + Z.of_nat (bufsize r) /\
  lineResult max (buf ++ chunk) r' = lineResult max buf r /\
  (is_Some (IndexByte (rest r) nl) -> afterLine r' = afterLine r) /\
  (max < len (buf ++ chunk) -> lineResult max buf r = Raise errLineTooLong).
Proof.
  intros Hle Hn chunk r'. rewrite IndexByte_take in Hn.
  assert (len chunk = Z.of_nat (bufsize r)) as El by (unfold len, chunk; rewrite length_take; lia).
  assert (rest r = chunk ++ rest r') as Er by (symmetry; apply take_drop).
  unfold lineResult, afterLine. rewrite len_app, El. split; [done|].
  destruct (IndexByte (rest r) nl) as [i|] eqn:Ei.
  - destruct (Nat.ltb_spec i (bufsize r)) as [|Hge]; [done|].
    pose proof (IndexByte_Some _ _ _ Ei) as (_ & _ & Hl).
    replace (IndexByte (rest r') nl) with (Some (i - bufsize r)%nat)
      by (symmetry; by apply IndexByte_drop).
    replace (len buf + Z.of_nat (bufsize r) + Z.of_nat (S (i - bufsize r)))
      with (len buf + Z.of_nat (S i)) by lia.
    split_and!.
    + assert (take (S i) (rest r) = chunk ++ take (S (i - bufsize r)) (rest r')) as ->.
      { unfold len in El. rewrite Er, take_app_ge by lia. do 2 f_equal. lia. }
      by rewrite <- app_assoc.
    + intros _. unfold r', advance. simpl. rewrite drop_drop. do 2 f_equal. lia.
    + intros Hm. destruct (Z.ltb_spec max (len buf + Z.of_nat (S i))); [done|lia].
  - assert (IndexByte (rest r') nl = None) as ->.
    { apply IndexByte_None. apply IndexByte_None in Ei. rewrite Er in Ei. set_solver. }
    rewrite Er, len_app, El, Z.add_assoc. split_and!; [done|by intros []|].
    intros Hm. pose proof (len_nonneg (rest r')).
    destruct (Z.ltb_spec max (len buf + Z.of_nat (bufsize r) + len (rest r'))); [done|lia].
Qed.

Lemma lineLoop_spec fuel max buf r :
  (length (rest r) < fuel)%nat -> (0 < bufsize r)%nat ->
  (lineLoop fuel max buf r).1 = lineResult max buf r /\
  (forall a, lineResult max buf r = Ret a -> (lineLoop fuel max buf r).2 = afterLine r).
Proof.
  revert buf r. induction fuel as [|fuel IH]; intros buf r Hf Hb; [lia|].
  simpl. unfold ReadSlice. destruct (IndexByte (take (bufsize r) (rest r)) nl) as [i|] eqn:Et.
  - rewrite IndexByte_take in Et. unfold lineResult, afterLine.
    destruct (IndexByte (rest r) nl) as [j|] eqn:Ej; [|done].
    destruct (j <? bufsize r)%nat; simplify_eq.
    pose proof (IndexByte_Some _ _ _ Ej) as (_ & _ & Hl).
    assert (len (take (S i) (rest r)) = Z.of_nat (S i)) as El by (unfold len; rewrite length_take; lia).
    rewrite len_app, El. by destruct (_ <? _).
  - destruct (Nat.leb_spec (bufsize r) (length (rest r))) as [Hle|Hgt].
    + pose proof (lineResult_full max buf r Hle Et) as (_ & ER & EA & EL).
      destruct (Z.ltb_spec max (len (buf ++ take (bufsize r) (rest r)))) as [Hm|Hm].
      { by rewrite EL. }
      destruct (IH (buf ++ take (bufsize r) (rest r)) (advance r (bufsize r))) as [IH1 IH2];
        [simpl; rewrite length_drop; lia|done|]. rewrite IH1, ER. split; [done|].
      intros a Ha. rewrite (IH2 a) by congruence. apply EA.
      unfold lineResult in Ha. destruct (IndexByte (rest r) nl); [done|]. by destruct (_ <? _).
    + rewrite IndexByte_take in Et. unfold lineResult, afterLine. rewrite len_app.
      destruct (IndexByte (rest r) nl) as [j|] eqn:Ej.
      { pose proof (IndexByte_Some _ _ _ Ej) as (_ & _ & Hl).
        destruct (Nat.ltb_spec j (bufsize r)); [done|lia]. }
      by destruct (max <? len buf + len (rest r)).
Qed.

End lines.

Lemma trimEOL_nl a : trimEOL (a ++ [nl]) = TrimSuffix a [cr].
Proof. unfold trimEOL. by rewrite TrimSuffix_app. Qed.

Lemma readBoundedLine_eq max r :
  (0 < bufsize r)%nat ->
  (readBoundedLine max r).1 =
    match lineResult max [] r with Ret buf => Ret (trimEOL buf) | Raise e => Raise e
    | GoPanic => GoPanic | NoFuel => NoFuel end /\
  (forall a, (readBoundedLine max r).1 = Ret a -> (readBoundedLine max r).2 = afterLine r).
Proof.
  intros Hb. unfold readBoundedLine, bind, withFuel.
  destruct (lineLoop_spec (S (length (rest r))) max [] r) as [E1 E2]; [lia|done|].
  destruct (lineLoop _ _ _ r) as [o r'] eqn:E. simpl in *. subst o.
  destruct (lineResult max [] r) eqn:ER; simpl; try done.
  split; [done|]. intros _ _. by eapply E2.
Qed.

(** A line that is there and fits is returned without its terminator. *)
Lemma readBoundedLine_line max r a b :
  (0 < bufsize r)%nat -> rest r = a ++ nl :: b -> nl ∉ a -> len a < max ->
  readBoundedLine max r = (Ret (TrimSuffix a [cr]), mkReader b (ending r) (bufsize r)).
Proof.
  intros Hb E Hn Hl. destruct (readBoundedLine_eq max r Hb) as [E1 E2].
  unfold lineResult, afterLine, advance in *. rewrite E, IndexByte_app in * by done.
  rewrite take_S_app in E1. rewrite drop_S_app in E2.
  rewrite len_nil in E1.
  destruct (Z.ltb_spec max (0 + Z.of_nat (S (length a)))); [unfold len in *; lia|].
  simpl app in E1. rewrite trimEOL_nl in E1.
  destruct (readBoundedLine max r) as [o r']. simpl in *. subst o. by rewrite (E2 _ eq_refl).
Qed.

Lemma wp_line max r (Q : bytes -> reader -> Prop) E P :
  (0 < bufsize r)%nat ->
  (forall a b, rest r = a ++ nl :: b -> nl ∉ a -> len a < max ->
     Q (TrimSuffix a [cr]) (mkReader b (ending r) (bufsize r))) ->
  E errLineTooLong -> E (ErrIO (ending r)) ->
  wp (readBoundedLine max) Q E P r.
Proof.
  intros Hb HQ HL HE. unfold wp. destruct (readBoundedLine_eq max r Hb) as [E1 _].
  unfold lineResult in E1. destruct (IndexByte (rest r) nl) as [i|] eqn:Ei.
  - destruct (IndexByte_split _ _ _ Ei) as (a & b & Er & Hn & Hl).
    destruct (Z.ltb_spec max (len (@nil ascii) + Z.of_nat (S i))) as [Hm|Hm].
    + destruct (readBoundedLine max r) as [o r']. simpl in E1. by subst o.
    + rewrite len_nil in Hm.
      rewrite (readBoundedLine_line max r a b); auto; unfold len; try lia.
      apply HQ; auto. unfold len. lia.
  - destruct (readBoundedLine max r) as [o r']. simpl in E1. subst o.
    by destruct (_ <? _).
Qed.
