(* ===== verification/RequestFacts.v ===== *)
(** * What the request parser guarantees

    Lemmas about [Request]: bounds, totality, error statuses and the panic of
    the chunk-size sum, all derived from one weakest-precondition lemma per
    loop; then the chunked and [Content-Length] round trips. *)

From S2P Require Import Prelude GoStrings GoIO GoURL Headers Status Request.

(** ** Definitions used by the statements *)

(** A parser error carries one of these statuses. *)
Definition statusIn (l : list Z) (e : error) : Prop :=
  exists s reason cause, e = ParseError s reason cause /\ s ∈ l.

Definition parseStatuses : list Z :=
  [StatusBadRequest; StatusPayloadTooLarge; StatusURITooLong; StatusHeaderFieldsTooLarge;
   StatusNotImplemented; StatusHTTPVersionNotSupported].

(** Limits a server can be configured with: non-negative, and a body bound the
    allocator can satisfy. *)
Record sane (lim : Limits) : Prop := {
  sane_count : 0 <= MaxHeaderCount lim;
  sane_bytes : 0 <= MaxHeaderBytes lim;
  sane_body : 0 <= MaxBodyBytes lim <= maxAlloc;
}.

(** Bytes held by a header map: every value with its key. *)
Definition entryBytes (l : list (bytes * list bytes)) : Z :=
  foldr (fun '(k, vs) n => foldr (fun v n => len k + len v + n) n vs) 0 l.

(** The size a chunk line declares. *)
Definition chunkSize (line : bytes) : Z * option numError :=
  ParseInt (TrimSpace (Cut line ";").1.1) 16.

(** Some line of the input declares a chunk so large that adding the body
    bound to its size leaves the [int64] range. *)
Definition overflowingChunk (lim : Limits) (input : bytes) : Prop :=
  exists pre line post size,
    input = pre ++ line ++ nl :: post /\ chunkSize (TrimSuffix line [cr]) = (size, None) /\
    2 ^ 63 <= MaxBodyBytes lim + size.

(** ** Small facts *)

Lemma digitValue_nonneg c d : digitValue c = Some d -> 0 <= d.
Proof.
  destruct c as [[] [] [] [] [] [] [] []]; vm_compute; intros [= <-]; first [done|congruence].
Qed.

Lemma parseDigits_nonneg base s n : 1 <= base -> 0 <= n -> 0 <= (parseDigits base s n).1.
Proof.
  intros Hb. revert n. induction s as [|c s IH]; intros n Hn; [done|]. simpl.
  destruct (digitValue c) as [d|] eqn:Ed; [|done]. apply digitValue_nonneg in Ed.
  repeat (case_match; [done|]). apply IH. nia.
Qed.

Lemma ParseInt_lt s base n e : 1 <= base -> ParseInt s base = (n, e) -> n < 2 ^ 63.
Proof.
  intros Hb. unfold ParseInt. destruct s as [|c s]; [by intros [= <- _]|].
  destruct (if decide (c = "+"%char) then _ else _) as [neg digits].
  assert (0 <= (ParseUint digits base).1) as Hu.
  { destruct digits; [done|]. by apply parseDigits_nonneg. }
  destruct (ParseUint digits base) as [un err]. simpl in Hu.
  destruct (Z.leb_spec (2 ^ 63) un), (Z.ltb_spec (2 ^ 63) un), neg, err as [[]|];
    simpl; intros [= <- _]; lia.
Qed.

Lemma length_trimSpaces sp2 sp3 n s :
  (length s <= n)%nat -> (length (trimSpaces sp2 sp3 s) <= length s)%nat.
Proof.
  revert s. induction n as [|n IH]; intros [|c1 s1] Hn; simpl in *; try lia.
  case_match; [etransitivity; [apply IH|]; lia|].
  destruct s1 as [|c2 s2]; [simpl; lia|]. simpl in *.
  case_match; [etransitivity; [apply IH|]; lia|].
  destruct s2 as [|c3 s3]; [simpl; lia|]. simpl in *.
  case_match; [etransitivity; [apply IH|]; lia|]. simpl. lia.
Qed.

Lemma len_TrimSpace s : len (TrimSpace s) <= len s.
Proof.
  unfold len, TrimSpace. rewrite length_rev.
  pose proof (length_trimSpaces space2 space3 _ s (le_n _)).
  pose proof (length_trimSpaces (fun a b => space2 b a) (fun a b c => space3 c b a) _
    (rev (trimSpaces space2 space3 s)) (le_n _)) as H2.
  rewrite length_rev in H2. lia.
Qed.

Lemma len_canonical s : len (canonical s) = len s.
Proof.
  unfold canonical, CanonicalMIMEHeaderKey. destruct (forallb _ _); [|done].
  unfold len. f_equal. generalize true.
  induction s as [|c s IH]; intros b; [done|]. simpl. by rewrite IH.
Qed.

Lemma Cut_found s c a b : Cut s c = (a, b, true) -> s = a ++ c :: b /\ c ∉ a.
Proof.
  revert a. induction s as [|d s IH]; intros a; simpl; [done|].
  case_decide as E; [intros [= <- <-]; subst; split; [done|apply not_elem_of_nil]|].
  destruct (Cut s c) as [[p q] f]. intros [= <- <- ->].
  destruct (IH p eq_refl) as [-> ?]. split; [done|]. apply not_elem_of_cons. split; congruence.
Qed.

Lemma entryBytes_cons k vs l :
  entryBytes ((k, vs) :: l) = foldr (fun v n => len k + len v + n) 0 vs + entryBytes l.
Proof.
  unfold entryBytes. simpl. generalize (foldr (fun '(k, vs) n =>
    foldr (fun v n => len k + len v + n) n vs) 0 l) as n.
  intros n. induction vs as [|w vs IH]; simpl; lia.
Qed.

Lemma entryBytes_add ck v l :
  entryBytes (spec_add ck v l) = entryBytes l + (len ck + len v).
Proof.
  unfold spec_add. induction l as [|[k vs] l IH]; cbn [spec_update].
  - rewrite entryBytes_cons. unfold entryBytes. simpl. lia.
  - destruct (decide (k = ck)) as [->|E]; rewrite !entryBytes_cons; [|rewrite IH; lia].
    rewrite foldr_app. simpl.
    enough (forall n, foldr (fun v n => len ck + len v + n) n vs =
      foldr (fun v n => len ck + len v + n) 0 vs + n) as -> by lia.
    intros n. induction vs as [|w vs IHv]; simpl; lia.
Qed.

(** ** The loops *)

Section loops.
Variable lim : Limits.
Hypothesis Hlim : sane lim.

Lemma overflowingChunk_later r r' :
  later r r' -> overflowingChunk lim (rest r') -> overflowingChunk lim (rest r).
Proof.
  intros [[p E] _ _] (pre & line & post & size & E' & H).
  exists (p ++ pre), line, post, size. split; [|done]. by rewrite E, E', <- app_assoc.
Qed.

(** Every error of the chunk reader is a [ParseError] or wraps an I/O error. *)
Definition chunkErr (e : error) : Prop :=
  statusIn [StatusBadRequest; StatusPayloadTooLarge] e \/ asParseError e = None.

Lemma wp_trailerLoop fuel (Q : unit -> reader -> Prop) P r :
  (length (rest r) < fuel)%nat -> (0 < bufsize r)%nat ->
  (forall r', later r r' -> Q tt r') -> wp (trailerLoop fuel lim) Q chunkErr P r.
Proof.
  revert r. induction fuel as [|fuel IH]; intros r Hf Hb HQ; [lia|].
  simpl. repeat wp_step. apply wp_line; [done| |by right|by right].
  intros a b Er _ _. destruct (beq _ []).
  - apply wp_ret, HQ. apply (later_cut _ (a ++ [nl])). by rewrite <- app_assoc.
  - apply IH; [simpl; rewrite Er, length_app in Hf; simpl in Hf; lia|done|].
    intros r' Hr'. apply HQ. etransitivity; [|exact Hr'].
    apply (later_cut _ (a ++ [nl])). by rewrite <- app_assoc.
Qed.

Lemma wp_readFull n (Q : bytes -> reader -> Prop) E P r :
  0 <= n ->
  (forall a b, rest r = a ++ b -> len a = n -> Q a (mkReader b (ending r) (bufsize r))) ->
  (forall e, E (ErrIO e)) -> wp (readFull n) Q E P r.
Proof.
  intros Hn HQ HE. unfold wp, readFull. destruct (ReadFull r n) as [[bs|e] r'] eqn:ER; [|apply HE].
  apply ReadFull_inl in ER as (Hl & Er & He & Hb); [|done].
  destruct r'; simpl in *. subst. by apply HQ.
Qed.

Lemma wp_chunkCRLF (Q : unit -> reader -> Prop) (E : error -> Prop) P r :
  (forall b, rest r = CRLF ++ b -> Q tt (mkReader b (ending r) (bufsize r))) ->
  (forall reason, E (ParseError StatusBadRequest reason None)) -> wp chunkCRLF Q E P r.
Proof.
  intros HQ HE. unfold wp, chunkCRLF. destruct (ReadFull r 2) as [[bs|e] r'] eqn:ER; [|apply HE].
  apply ReadFull_inl in ER as (Hl & Er & He & Hb); [|done].
  unfold beq. case_bool_decide as Ec; [|apply HE]. subst bs.
  destruct r'; simpl in *. subst. by apply HQ.
Qed.

Lemma wp_makeBytes n (Q : unit -> reader -> Prop) E (P : Prop) r :
  0 <= n -> (n <= maxAlloc -> Q tt r) -> (maxAlloc < n -> P) -> wp (makeBytes n) Q E P r.
Proof.
  intros Hn HQ HP. unfold wp, makeBytes.
  destruct (Z.leb_spec 0 n); [|lia]. destruct (Z.leb_spec n maxAlloc); simpl; auto.
Qed.

(** The body stays within [MaxBodyBytes], and the only panic is the one of an
    overflowing chunk size. *)
Lemma wp_chunkLoop fuel body r :
  (length (rest r) < fuel)%nat -> (0 < bufsize r)%nat -> len body <= MaxBodyBytes lim ->
  wp (chunkLoop fuel lim body)
    (fun b r' => len b <= MaxBodyBytes lim /\ later r r') chunkErr
    (overflowingChunk lim (rest r)) r.
Proof.
  pose proof (sane_body _ Hlim) as Hmax. unfold maxAlloc in Hmax.
  revert body r. induction fuel as [|fuel IH]; intros body r Hf Hb Hl; [lia|].
  cbn [chunkLoop]. repeat wp_step. apply wp_line; [done| |by right|by right].
  intros a b Er Hnl _. set (r1 := mkReader b _ _).
  assert (later r r1) as L1 by (apply (later_cut _ (a ++ [nl])); by rewrite <- app_assoc).
  fold (chunkSize (TrimSuffix a [cr])).
  destruct (chunkSize (TrimSuffix a [cr])) as [size err] eqn:Esz.
  destruct (bool_decide (err <> None) || (size <? 0)) eqn:Ebad.
  { apply wp_raise. left. by exists StatusBadRequest; repeat econstructor. }
  apply orb_false_iff in Ebad as [Eerr%bool_decide_eq_false Hsz%Z.ltb_ge].
  assert (err = None) as -> by (destruct err; [by destruct Eerr|done]).
  pose proof (ParseInt_lt _ 16 _ _ ltac:(lia) Esz) as Hlt.
  destruct (Z.eqb_spec size 0) as [Hz|Hz].
  { wp_step. apply wp_withFuel. intros f Hf1. apply wp_trailerLoop; [done|done|].
    intros r' L2. apply wp_ret. split; [done|]. by etransitivity. }
  destruct (Z.ltb_spec (MaxBodyBytes lim) (wrap64 (len body + size))) as [_|Hsum].
  { apply wp_raise. left. exists StatusPayloadTooLarge. repeat econstructor. }
  assert (len body + size < 2 ^ 63 \/ 2 ^ 63 <= len body + size) as [Hfit|Hover] by lia;
    pose proof (len_nonneg body).
  - rewrite wrap64_id in Hsum by (unfold int64_ok; lia).
    wp_step. apply wp_makeBytes; [lia| |unfold maxAlloc; lia]. intros _.
    repeat wp_step. apply wp_readFull; [lia| |by right]. intros chunk b2 Er1 Hchunk.
    wp_step. apply wp_chunkCRLF; [|intros; left; exists StatusBadRequest; repeat econstructor].
    simpl. intros b3 ->. set (r3 := mkReader b3 _ _).
    assert (later r1 r3) as L2 by (apply (later_cut r1 (chunk ++ CRLF) b3); by rewrite <- app_assoc).
    eapply wp_mono; [apply IH| | |].
    + apply later_length in L1, L2. simpl in *. rewrite Er, length_app in Hf. simpl in *. lia.
    + done.
    + rewrite len_app. lia.
    + intros b' r' [? ?]. split; [done|]. etransitivity; [exact L1|]. by etransitivity.
    + done.
    + apply overflowingChunk_later. by etransitivity.
  - wp_step. apply wp_makeBytes; [lia|unfold maxAlloc; lia|].
    intros _. exists [], a, b, size. split_and!; [done|done|lia].
Qed.

Lemma wp_readChunkedBody r :
  (0 < bufsize r)%nat ->
  wp (readChunkedBody lim) (fun b r' => len b <= MaxBodyBytes lim /\ later r r') chunkErr
    (overflowingChunk lim (rest r)) r.
Proof.
  intros Hb. apply wp_withFuel. intros fuel Hf. apply wp_chunkLoop; [done|done|].
  pose proof (sane_body _ Hlim). rewrite len_nil. lia.
Qed.

End loops.

(** ** Headers and the request line *)

Definition tab : ascii := "009".

(** What the parser stores: names without separators, trimmed values, no
    newline anywhere. *)
Definition cleanName (k : bytes) : Prop :=
  k <> [] /\ (nl ∉ k) /\ (colon ∉ k) /\ (sp ∉ k) /\ (tab ∉ k).
Definition cleanValue (v : bytes) : Prop := (nl ∉ v) /\ TrimSpace v = v.
Definition cleanHeaders (h : Headers) : Prop :=
  map_Forall (fun k vs => cleanName k /\ Forall cleanValue vs) (vals h).

Lemma canonical_elem c s :
  validHeaderFieldByte c = false -> c ∈ canonical s -> c ∈ s.
Proof.
  intros Hc. unfold canonical, CanonicalMIMEHeaderKey.
  destruct (forallb validHeaderFieldByte s) eqn:E; [|done]. intros Hin. exfalso.
  rewrite <- (valid_canonBytes true), forallb_forall in E.
  specialize (E c). rewrite E in Hc; [done|]. by apply list_elem_of_In.
Qed.

Lemma canonical_nonempty s : s <> [] -> canonical s <> [].
Proof. intros Hs E. apply (f_equal len) in E. rewrite len_canonical in E. by destruct s. Qed.

Lemma cleanName_canonical k : cleanName k -> cleanName (canonical k).
Proof.
  intros (H0 & H1 & H2 & H3 & H4). split; [by apply canonical_nonempty|].
  split_and!; intros Hc; apply canonical_elem in Hc; done.
Qed.

Lemma cleanHeaders_Add h k v :
  cleanHeaders h -> cleanName k -> cleanValue v -> cleanHeaders (Add h k v).
Proof.
  intros H Hk Hv. unfold cleanHeaders, Add. simpl. apply map_Forall_insert_2; [|done].
  split; [by apply cleanName_canonical|]. apply Forall_app. split; [|by constructor].
  destruct (vals h !! canonical k) as [vs|] eqn:E; [|constructor]. by apply H in E as [_ ?].
Qed.

Lemma cleanName_line hline name value :
  Cut hline colon = (name, value, true) -> nl ∉ hline ->
  beq name [] = false -> ContainsAny name [sp; tab] = false -> cleanName name.
Proof.
  intros [-> Hc]%Cut_found Hn He Hw. apply bool_decide_eq_false in He.
  assert (forall c, c ∈ [sp; tab] -> c ∉ name) as Hany.
  { intros c Hc' Hin. apply not_true_iff_false in Hw. apply Hw.
    apply existsb_exists. exists c. split; [by apply list_elem_of_In|]. by apply bool_decide_eq_true. }
  split_and!; [done|set_solver|done|apply Hany; set_solver|apply Hany; set_solver].
Qed.

Section header_loop.
Variable lim : Limits.

(** The invariant of the header loop. *)
Record headersIn (h : Headers) (total : Z) : Prop := {
  hi_wf : wf h;
  hi_clean : cleanHeaders h;
  hi_count : Len h <= MaxHeaderCount lim;
  hi_bytes : entryBytes (entries h) <= total <= MaxHeaderBytes lim;
}.

Lemma headersIn_Add h total hline name value :
  headersIn h total -> Cut hline colon = (name, value, true) -> nl ∉ hline ->
  beq name [] = false -> ContainsAny name [sp; tab] = false ->
  total + len hline <= MaxHeaderBytes lim ->
  Len (Add h name (TrimSpace value)) <= MaxHeaderCount lim ->
  headersIn (Add h name (TrimSpace value)) (total + len hline).
Proof.
  intros [W C _ B] Ecut Hnl He Hw Ht Hc. constructor; [by apply wf_Add| |done|].
  - apply cleanHeaders_Add; [done|by eapply cleanName_line|].
    split; [|apply TrimSpace_idem]. intros ?%TrimSpace_elem.
    apply Cut_found in Ecut as [-> _]. set_solver.
  - apply Cut_found in Ecut as [-> _]. rewrite entries_Add, entryBytes_add, len_canonical by done.
    pose proof (len_TrimSpace value). rewrite len_app, len_cons in *. lia.
Qed.

Lemma TrimSuffix_elem c s p : c ∈ TrimSuffix s p -> c ∈ s.
Proof.
  unfold TrimSuffix. destruct (HasSuffix s p); [|done]. intros Hin.
  rewrite <- (take_drop (length s - length p) s). apply elem_of_app. by left.
Qed.

Lemma wp_headerLoop fuel h total r :
  (length (rest r) < fuel)%nat -> (0 < bufsize r)%nat -> headersIn h total ->
  wp (headerLoop fuel lim h total)
    (fun h' r' => (exists t, headersIn h' t) /\ later r r')
    (statusIn [StatusBadRequest; StatusHeaderFieldsTooLarge]) False r.
Proof.
  revert h total r. induction fuel as [|fuel IH]; intros h total r Hf Hb HI; [lia|].
  assert (forall s reason cause, s ∈ [StatusBadRequest; StatusHeaderFieldsTooLarge] ->
    statusIn [StatusBadRequest; StatusHeaderFieldsTooLarge] (ParseError s reason cause)) as HE
    by (intros; do 3 eexists; by split).
  cbn [headerLoop]. repeat wp_step.
  apply wp_line; [done| |apply HE; set_solver|apply HE; set_solver].
  intros a b Er Hnl _. set (r1 := mkReader b _ _).
  assert (later r r1) as L1 by (apply (later_cut _ (a ++ [nl])); by rewrite <- app_assoc).
  assert (nl ∉ TrimSuffix a [cr]) as Hnl' by (by intros ?%TrimSuffix_elem).
  destruct (beq (TrimSuffix a [cr]) []); [apply wp_ret; eauto|].
  destruct (Z.ltb_spec (MaxHeaderBytes lim) (total + len (TrimSuffix a [cr])));
    [apply wp_raise, HE; set_solver|].
  destruct (Cut (TrimSuffix a [cr]) colon) as [[name value] found] eqn:Ecut.
  destruct (negb found || beq name [] || ContainsAny name [sp; "009"%char]) eqn:Ebad;
    [apply wp_raise, HE; set_solver|].
  apply orb_false_iff in Ebad as [[Hf1%negb_false_iff He]%orb_false_iff Hw]. subst found.
  destruct (Z.ltb_spec (MaxHeaderCount lim) (Len (Add h name (TrimSpace value))));
    [apply wp_raise, HE; set_solver|].
  eapply wp_mono; [apply IH| |done|done].
  - rewrite Er, length_app in Hf. simpl in *. lia.
  - done.
  - by eapply headersIn_Add.
  - intros h' r' [? ?]. split; [done|]. by etransitivity.
Qed.

End header_loop.

(** ** The whole parser *)

(** What a returned request satisfies. *)
Record accepted (lim : Limits) (remoteAddr : bytes) (req : Request) : Prop := {
  ac_method : knownMethods (Method req) = true;
  ac_proto : Proto req = $"HTTP/1.1" \/ Proto req = $"HTTP/1.0";
  ac_target : HasPrefix (RawTarget req) $"/" = true /\ len (RawTarget req) < MaxRequestLine lim;
  ac_target_clean : (nl ∉ RawTarget req) /\ (sp ∉ RawTarget req);
  ac_path : PathUnescape (Cut (RawTarget req) "?").1.1 = Some (Path req);
  ac_query : ParseQuery (Cut (RawTarget req) "?").1.2 = Some (Query req);
  ac_headers : exists total, headersIn lim (ReqHeaders req) total;
  ac_host : Proto req = $"HTTP/1.1" -> Has (ReqHeaders req) $"Host" = true;
  ac_body : len (Body req) <= MaxBodyBytes lim;
  ac_addr : RemoteAddr req = remoteAddr;
  ac_fresh : PathParams req = ∅ /\ Meta req = ∅;
}.

Definition parserErr (e : error) : Prop := e = errCleanClose \/ statusIn parseStatuses e.

Lemma parserErr_status s reason cause :
  s ∈ parseStatuses -> parserErr (ParseError s reason cause).
Proof. intros. right. by repeat eexists. Qed.

Ltac status_in := apply parserErr_status; unfold parseStatuses; set_solver.

Lemma statusIn_parserErr l e : l ⊆ parseStatuses -> statusIn l e -> parserErr e.
Proof. intros Hl (s & reason & cause & -> & ?). apply parserErr_status. by apply Hl. Qed.

Section parser.
Variable lim : Limits.
Hypothesis Hlim : sane lim.

Lemma wp_readBody h r :
  (0 < bufsize r)%nat ->
  wp (readBody lim h) (fun b r' => len b <= MaxBodyBytes lim /\ later r r') parserErr
    (overflowingChunk lim (rest r)) r.
Proof.
  intros Hb. pose proof (sane_body _ Hlim). unfold readBody.
  destruct (ContainsToken h _ _).
  { apply wp_mapErr. eapply wp_mono; [by apply wp_readChunkedBody|done| |done].
    intros e [(s & reason & cause & -> & Hs)|He]; simpl.
    - apply parserErr_status. unfold parseStatuses. set_solver.
    - rewrite He. status_in. }
  destruct (Has h $"Transfer-Encoding"); [apply wp_raise; status_in|].
  destruct (Has h $"Content-Length").
  2: { apply wp_ret. rewrite len_nil. split; [lia|done]. }
  destruct (ParseInt (Get h $"Content-Length") 10) as [n convErr].
  destruct (bool_decide (convErr <> None) || (n <? 0)) eqn:Ebad; [apply wp_raise; status_in|].
  apply orb_false_iff in Ebad as [_ Hn%Z.ltb_ge].
  destruct (Z.ltb_spec (MaxBodyBytes lim) n); [apply wp_raise; status_in|].
  wp_step. apply wp_makeBytes; [done| |lia]. intros _. wp_step.
  apply wp_readFull; [done| |intros; status_in].
  intros a b Er Hl. split; [lia|]. by apply (later_cut _ a).
Qed.

Context `{GoRuntime}.

Lemma checkRequestLine_None method target proto :
  checkRequestLine method target proto = None ->
  knownMethods method = true /\ (proto = $"HTTP/1.1" \/ proto = $"HTTP/1.0") /\
  HasPrefix target $"/" = true.
Proof.
  unfold checkRequestLine. destruct (knownMethods method); [simpl|by destruct (_ || _)].
  destruct (HasPrefix target $"/"); simpl; [|by destruct (_ && _)].
  unfold beq. repeat case_bool_decide; simpl; auto; done.
Qed.

Lemma checkRequestLine_Some method target proto e :
  checkRequestLine method target proto = Some e -> parserErr e.
Proof.
  unfold checkRequestLine. repeat (case_match; intros; simplify_eq; try status_in).
Qed.

Lemma Split_elem s c p : p ∈ Split s c -> (c ∉ p) /\ (forall d, d ∈ p -> d ∈ s) /\ len p <= len s.
Proof.
  revert p. induction s as [|d s IH]; intros p; simpl.
  - intros ->%list_elem_of_singleton. split; [apply not_elem_of_nil|done].
  - case_decide as E.
    + intros [->|Hp]%elem_of_cons.
      * split; [apply not_elem_of_nil|]. split; [set_solver|]. rewrite len_nil. apply len_nonneg.
      * destruct (IH _ Hp) as (? & ? & ?). rewrite len_cons. split_and!; [done|set_solver|lia].
    + destruct (Split s c) as [|q qs] eqn:Eq.
      * intros ->%list_elem_of_singleton. rewrite !len_cons, len_nil.
        pose proof (len_nonneg s). split_and!; [set_solver|set_solver|lia].
      * intros [->|Hp]%elem_of_cons.
        -- destruct (IH q) as (? & ? & ?); [by left|]. rewrite !len_cons.
           split_and!; [set_solver|set_solver|lia].
        -- destruct (IH p) as (? & ? & ?); [by right|]. rewrite len_cons.
           split_and!; [set_solver|set_solver|lia].
Qed.

Lemma len_TrimSuffix s p : len (TrimSuffix s p) <= len s.
Proof.
  unfold TrimSuffix, len. destruct (HasSuffix s p); [|lia]. rewrite length_take. lia.
Qed.

Lemma wp_parseRest remoteAddr method target proto r :
  (0 < bufsize r)%nat -> checkRequestLine method target proto = None ->
  len target < MaxRequestLine lim -> nl ∉ target -> sp ∉ target ->
  wp (parseRest lim remoteAddr method target proto)
    (fun req r' => accepted lim remoteAddr req /\ later r r') parserErr
    (overflowingChunk lim (rest r)) r.
Proof.
  intros Hb (Hm & Hp & Ht)%checkRequestLine_None Hl Hn Hs. unfold parseRest.
  wp_step. apply wp_withFuel. intros fuel Hf. eapply wp_mono.
  { apply (wp_headerLoop lim fuel NewHeaders 0); [done|done|].
    destruct Hlim. by constructor; [apply wf_New|apply map_Forall_empty| |]. }
  2: { intros e. apply statusIn_parserErr. unfold parseStatuses. set_solver. }
  2: done.
  intros h r1 [HI L1]. destruct (beq proto $"HTTP/1.1" && negb (Has h $"Host")) eqn:Ehost.
  { apply wp_raise. status_in. }
  wp_step. eapply wp_mono; [apply wp_readBody; by rewrite (later_buf _ _ L1)| |done|].
  2: { by apply overflowingChunk_later. }
  intros body r2 [Hbody L2].
  destruct (Cut target "?") as [[rawPath rawQuery] found] eqn:Ecut.
  destruct (PathUnescape rawPath) as [path|] eqn:Epath; [|apply wp_raise; status_in].
  destruct (ParseQuery rawQuery) as [query|] eqn:Equery; [|apply wp_raise; status_in].
  apply wp_ret. split; [|by etransitivity].
  constructor; simpl; rewrite ?Ecut; auto.
  intros ->. by destruct (Has h $"Host").
Qed.

Lemma wp_ParseRequest remoteAddr r :
  (0 < bufsize r)%nat ->
  wp (ParseRequest lim remoteAddr)
    (fun req r' => accepted lim remoteAddr req /\ later r r') parserErr
    (overflowingChunk lim (rest r)) r.
Proof.
  intros Hb. unfold ParseRequest. repeat wp_step. apply wp_line; [done| |simpl; status_in|].
  2: { destruct (ending r); simpl; [by left|status_in..]. }
  intros a b Er Hnl Hl. set (line := TrimSuffix a [cr]). set (r1 := mkReader b _ _).
  assert (later r r1) as L1 by (apply (later_cut _ (a ++ [nl])); by rewrite <- app_assoc).
  pose proof (len_TrimSuffix a [cr]) as Hl1. fold line in Hl1.
  destruct (Split line sp) as [|method [|target [|proto [|]]]] eqn:Es;
    try (apply wp_raise; status_in).
  destruct (checkRequestLine method target proto) as [e|] eqn:Ec.
  { apply wp_raise. by eapply checkRequestLine_Some. }
  destruct (Split_elem line sp target) as (Hsp & Hin & Hlt); [rewrite Es; set_solver|].
  eapply wp_mono; [apply wp_parseRest| |done|].
  - done.
  - done.
  - lia.
  - intros Hx. by apply Hnl, (TrimSuffix_elem _ _ [cr]), Hin.
  - done.
  - intros req r' [? ?]. split; [done|]. by etransitivity.
  - by apply overflowingChunk_later.
Qed.

Lemma ParseRequest_Ret remoteAddr r req r' :
  (0 < bufsize r)%nat -> ParseRequest lim remoteAddr r = (Ret req, r') ->
  accepted lim remoteAddr req /\ later r r'.
Proof.
  intros Hb E. pose proof (wp_ParseRequest remoteAddr r Hb) as W.
  unfold wp in W. by rewrite E in W.
Qed.

Lemma ParseRequest_Raise remoteAddr r e r' :
  (0 < bufsize r)%nat -> ParseRequest lim remoteAddr r = (Raise e, r') -> parserErr e.
Proof.
  intros Hb E. pose proof (wp_ParseRequest remoteAddr r Hb) as W.
  unfold wp in W. by rewrite E in W.
Qed.

Lemma ParseRequest_total remoteAddr r :
  (0 < bufsize r)%nat ->
  (ParseRequest lim remoteAddr r).1 <> NoFuel /\
  ((ParseRequest lim remoteAddr r).1 = GoPanic -> overflowingChunk lim (rest r)).
Proof.
  intros Hb. pose proof (wp_ParseRequest remoteAddr r Hb) as W.
  unfold wp in W. by destruct (ParseRequest lim remoteAddr r) as [[] ?].
Qed.

End parser.
