(* ===== verification/RequestRoundtrip.v ===== *)
(** * Round trips of the request parser

    Chunked bodies decode to what was encoded, printed header sections parse
    back to the same map, and a printed request parses back to the same
    request.  The printers here are the wire formats the program's own writers
    produce ([Headers.WriteTo], the proxy's forwarded request). *)

From S2P Require Import Prelude GoStrings GoIO GoURL Headers Status Request RequestFacts.

(** ** Printers *)

Definition encodeChunk (c : bytes) : bytes := FormatInt (len c) 16 ++ CRLF ++ c ++ CRLF.
Definition encodeChunked (cs : list bytes) : bytes :=
  (cs ≫= encodeChunk) ++ $"0" ++ CRLF ++ CRLF.

Definition headerLine (kv : bytes * bytes) : bytes := kv.1 ++ $": " ++ kv.2.
Definition headerWire (hs : list (bytes * bytes)) : bytes := hs ≫= fun kv => headerLine kv ++ CRLF.

(** The [key, value] pairs of an association list, in [Range] order. *)
Definition flat (l : list (bytes * list bytes)) : list (bytes * bytes) :=
  l ≫= fun '(k, vs) => pair k <$> vs.

Definition requestLine (method target proto : bytes) : bytes :=
  method ++ [sp] ++ target ++ [sp] ++ proto.

Definition printRequest (req : Request) : bytes :=
  requestLine (Method req) (RawTarget req) (Proto req) ++ CRLF ++
  WriteTo (ReqHeaders req) [] ++ CRLF ++ Body req.

(** The header section fits the limits. *)
Record headersFit (lim : Limits) (hs : list (bytes * bytes)) : Prop := {
  fit_line : Forall (fun kv => len (headerLine kv) + 1 < MaxHeaderLine lim) hs;
  fit_bytes : foldr (fun kv n => len (headerLine kv) + n) 0 hs <= MaxHeaderBytes lim;
}.

(** ** Stepping through the parse monad *)

Lemma bind_Ret {A B} (m : io A) (k : A -> io B) r a r' :
  m r = (Ret a, r') -> bind m k r = k a r'.
Proof. unfold bind. by intros ->. Qed.

Lemma mapErr_Ret {A} (m : io A) f r a r' :
  m r = (Ret a, r') -> mapErr m f r = (Ret a, r').
Proof. unfold mapErr. by intros ->. Qed.

(** A line terminated by CRLF. *)
Lemma line_crlf max line more e b :
  (0 < b)%nat -> nl ∉ line -> len line + 1 < max ->
  readBoundedLine max (mkReader (line ++ CRLF ++ more) e b) = (Ret line, mkReader more e b).
Proof.
  intros Hb Hn Hl. rewrite (readBoundedLine_line _ _ (line ++ [cr]) more).
  - simpl. by rewrite TrimSuffix_app.
  - done.
  - simpl. by rewrite <- app_assoc.
  - intros [?|?%list_elem_of_singleton]%elem_of_app; done.
  - rewrite len_app. unfold len at 2. simpl. lia.
Qed.

Lemma FormatInt_notin base n c :
  2 <= base <= 16 -> 0 <= n -> digitValue c = None -> c ∉ FormatInt n base.
Proof.
  intros Hb Hn Hc Hin. unfold FormatInt in Hin. destruct (Z.ltb_spec n 0); [lia|].
  destruct (FormatUint_spec base n) as (_ & HF & _); [done|done|].
  rewrite Forall_forall in HF. destruct (HF c Hin) as (d & Hd & _). congruence.
Qed.

Lemma FormatInt_trim base n :
  2 <= base <= 16 -> 0 <= n -> TrimSpace (FormatInt n base) = FormatInt n base.
Proof.
  intros Hb Hn. unfold FormatInt. destruct (Z.ltb_spec n 0); [lia|].
  by apply TrimSpace_graphic, FormatUint_graphic.
Qed.

Lemma FormatInt_len base n k :
  2 <= base <= 16 -> 1 <= k -> 0 <= n < base ^ k -> len (FormatInt n base) <= k.
Proof.
  intros Hb Hk Hn. unfold FormatInt. destruct (Z.ltb_spec n 0); [lia|].
  destruct (FormatUint_spec base n) as (_ & _ & _ & HL); [done|lia|]. apply HL; lia.
Qed.

Lemma chunkSize_FormatInt n :
  0 <= n < 2 ^ 63 -> chunkSize (FormatInt n 16) = (n, None).
Proof.
  intros Hn. unfold chunkSize. rewrite Cut_none by (by apply FormatInt_notin; [| lia|]). simpl.
  rewrite FormatInt_trim, ParseInt_FormatInt by lia. done.
Qed.

Lemma FormatInt16_len n : 0 <= n < 2 ^ 63 -> len (FormatInt n 16) <= 16.
Proof. intros Hn. apply FormatInt_len; lia. Qed.

(** ** Chunked bodies *)

Section chunked.
Variable lim : Limits.
Hypothesis Hline : 18 <= MaxHeaderLine lim.
Hypothesis Hsane : sane lim.

Lemma readFull_app a more e b :
  readFull (len a) (mkReader (a ++ more) e b) = (Ret a, mkReader more e b).
Proof. unfold readFull. by rewrite (ReadFull_app _ a more). Qed.

Lemma makeBytes_ok n r : 0 <= n <= maxAlloc -> makeBytes n r = (Ret tt, r).
Proof.
  intros Hn. unfold makeBytes. destruct (Z.leb_spec 0 n), (Z.leb_spec n maxAlloc); done || lia.
Qed.

Lemma chunkCRLF_ok more e b : chunkCRLF (mkReader (CRLF ++ more) e b) = (Ret tt, mkReader more e b).
Proof. unfold chunkCRLF. change 2 with (len CRLF). by rewrite (ReadFull_app _ CRLF more). Qed.

(** The size line of a chunk. *)
Lemma sizeLine_eq n more e b :
  (0 < b)%nat -> 0 <= n < 2 ^ 63 ->
  mapErr (readBoundedLine (MaxHeaderLine lim)) (Errorf $"reading chunk size: %w")
    (mkReader (FormatInt n 16 ++ CRLF ++ more) e b) = (Ret (FormatInt n 16), mkReader more e b).
Proof.
  intros Hb Hn. apply mapErr_Ret, line_crlf; [done|by apply FormatInt_notin; [|lia|]|].
  pose proof (FormatInt16_len n Hn). lia.
Qed.

(** A size line within the limits leads to the read of the data. *)
Lemma chunkLoop_size fuel body n more e b :
  (0 < b)%nat -> 0 < n -> len body + n <= MaxBodyBytes lim ->
  chunkLoop (S fuel) lim body (mkReader (FormatInt n 16 ++ CRLF ++ more) e b) =
  (let* chunk := mapErr (readFull n) (Errorf $"short chunk read: %w") in
   chunkCRLF ;;; chunkLoop fuel lim (body ++ chunk)) (mkReader more e b).
Proof.
  intros Hb Hn Hl. pose proof (sane_body _ Hsane) as Hmax. unfold maxAlloc in Hmax.
  pose proof (len_nonneg body). cbn [chunkLoop].
  rewrite (bind_Ret _ _ _ _ _ (sizeLine_eq n _ _ _ Hb ltac:(lia))).
  fold (chunkSize (FormatInt n 16)). rewrite chunkSize_FormatInt by lia.
  rewrite bool_decide_false by congruence.
  destruct (Z.ltb_spec n 0); [lia|]. destruct (Z.eqb_spec n 0); [lia|]. cbn [orb].
  rewrite wrap64_id by (unfold int64_ok; lia).
  destruct (Z.ltb_spec (MaxBodyBytes lim) (len body + n)); [lia|].
  by rewrite (bind_Ret _ _ _ tt _ (makeBytes_ok n _ ltac:(unfold maxAlloc; lia))).
Qed.

Lemma len_pos {A} (l : list A) : l <> [] -> 0 < len l.
Proof. destruct l; [done|]. rewrite len_cons. pose proof (len_nonneg l). lia. Qed.

(** One iteration of the loop on a well-formed chunk. *)
Lemma chunkLoop_chunk fuel body c more e b :
  (0 < b)%nat -> c <> [] -> len body + len c <= MaxBodyBytes lim ->
  chunkLoop (S fuel) lim body (mkReader (encodeChunk c ++ more) e b) =
  chunkLoop fuel lim (body ++ c) (mkReader more e b).
Proof.
  intros Hb Hc Hl. unfold encodeChunk. rewrite <- !app_assoc.
  rewrite chunkLoop_size by (done || by apply len_pos).
  rewrite (bind_Ret _ _ _ _ _ (mapErr_Ret _ _ _ _ _ (readFull_app _ _ _ _))).
  exact (bind_Ret _ (fun _ => chunkLoop fuel lim (body ++ c)) _ _ _ (chunkCRLF_ok more e b)).
Qed.

Lemma chunkLoop_last fuel body more e b :
  (0 < b)%nat ->
  chunkLoop (S fuel) lim body (mkReader ($"0" ++ CRLF ++ CRLF ++ more) e b) =
  (Ret body, mkReader more e b).
Proof.
  intros Hb. cbn [chunkLoop].
  rewrite (bind_Ret _ _ _ $"0" (mkReader (CRLF ++ more) e b)) by (by apply (sizeLine_eq 0)).
  replace (ParseInt (TrimSpace (Cut $"0" ";").1.1) 16) with (0, @None numError) by (by vm_compute).
  cbn [Z.ltb Z.eqb Z.compare]. rewrite bool_decide_false by congruence. cbn [orb].
  rewrite (bind_Ret _ _ _ tt (mkReader more e b)); [done|]. unfold withFuel. cbn [trailerLoop].
  rewrite (bind_Ret _ _ _ [] (mkReader more e b)); [done|].
  apply mapErr_Ret. apply (line_crlf _ []); [done|apply not_elem_of_nil|rewrite len_nil; lia].
Qed.

Lemma chunkLoop_encoded fuel body cs more e b :
  (0 < b)%nat -> (length cs < fuel)%nat -> Forall (fun c => c <> []) cs ->
  len body + len (concat cs) <= MaxBodyBytes lim ->
  chunkLoop fuel lim body (mkReader (encodeChunked cs ++ more) e b) =
  (Ret (body ++ concat cs), mkReader more e b).
Proof.
  intros Hb Hf HF. unfold encodeChunked. revert fuel body Hf.
  induction HF as [|c cs Hc HF IH]; intros [|fuel] body Hf Hl; simpl in Hf; try lia.
  - simpl. rewrite app_nil_r. apply (chunkLoop_last fuel body more e b Hb).
  - cbn [mbind list_bind]. simpl in Hl. rewrite len_app in Hl. rewrite <- !app_assoc.
    pose proof (len_nonneg (concat cs)). rewrite chunkLoop_chunk by (done || lia).
    rewrite <- !app_assoc in IH. rewrite IH by (rewrite ?len_app; lia).
    simpl. by rewrite <- app_assoc.
Qed.

Lemma length_encodeChunked cs : (length cs <= length (cs ≫= encodeChunk))%nat.
Proof.
  induction cs as [|c cs IH]; simpl; [done|]. rewrite length_app.
  assert (2 <= length (encodeChunk c))%nat.
  { unfold encodeChunk. rewrite !length_app. simpl. lia. }
  unfold mbind in IH. lia.
Qed.

End chunked.

(** ** Header sections *)

Section headers.
Variable lim : Limits.

Lemma cleanName_colon k v : colon ∉ k -> Cut (headerLine (k, v)) colon = (k, sp :: v, true).
Proof. intros Hk. unfold headerLine. simpl. by apply (Cut_app k (sp :: v)). Qed.

(** One iteration of the header loop on a printed header. *)
Lemma headerLoop_line fuel h total k v more e b :
  (0 < b)%nat -> cleanName k -> cleanValue v ->
  len (headerLine (k, v)) + 1 < MaxHeaderLine lim ->
  total + len (headerLine (k, v)) <= MaxHeaderBytes lim ->
  Len (Add h k v) <= MaxHeaderCount lim ->
  headerLoop (S fuel) lim h total (mkReader (headerLine (k, v) ++ CRLF ++ more) e b) =
  headerLoop fuel lim (Add h k v) (total + len (headerLine (k, v))) (mkReader more e b).
Proof.
  intros Hb (Hk & Hnl & Hcol & Hsp & Htab) [Hv Htrim] Hl Ht Hc. cbn [headerLoop].
  erewrite bind_Ret by (apply mapErr_Ret, line_crlf; [done| |done];
    unfold headerLine; simpl; rewrite !elem_of_app; set_solver).
  rewrite cleanName_colon by done.
  assert (beq (headerLine (k, v)) [] = false) as ->.
  { apply bool_decide_eq_false. unfold headerLine. by destruct k. }
  destruct (Z.ltb_spec (MaxHeaderBytes lim) (total + len (headerLine (k, v)))); [lia|].
  assert (beq k [] = false) as -> by (by apply bool_decide_eq_false).
  assert (ContainsAny k [sp; "009"%char] = false) as ->.
  { apply not_true_iff_false. intros (c & Hin%list_elem_of_In & Hc')%existsb_exists.
    apply bool_decide_eq_true in Hc'. unfold tab in Htab. set_solver. }
  cbn [negb orb]. rewrite TrimSpace_sp, Htrim.
  destruct (Z.ltb_spec (MaxHeaderCount lim) (Len (Add h k v))); [lia|done].
Qed.

Definition addAll (h : Headers) (hs : list (bytes * bytes)) : Headers :=
  foldl (fun h kv => Add h kv.1 kv.2) h hs.

Lemma Len_Add_le h k v : wf h -> Len h <= Len (Add h k v).
Proof.
  intros W. unfold Len, Add, noteKey. simpl. destruct (vals h !! canonical k); [lia|].
  rewrite len_app. unfold len at 3. simpl. lia.
Qed.

Lemma wf_addAll h hs : wf h -> wf (addAll h hs) /\ Len h <= Len (addAll h hs).
Proof.
  revert h. induction hs as [|[k v] hs IH]; intros h W; simpl; [split; [done|lia]|].
  destruct (IH (Add h k v)) as [? ?]; [by apply wf_Add|].
  pose proof (Len_Add_le h k v W). split; [done|lia].
Qed.

(** A printed header section parses to the map that adds its lines in order. *)
Lemma headerLoop_wire fuel h total hs more e b :
  (0 < b)%nat -> (length hs < fuel)%nat -> wf h ->
  Forall (fun kv => cleanName kv.1 /\ cleanValue kv.2) hs ->
  Forall (fun kv => len (headerLine kv) + 1 < MaxHeaderLine lim) hs ->
  1 < MaxHeaderLine lim ->
  total + foldr (fun kv n => len (headerLine kv) + n) 0 hs <= MaxHeaderBytes lim ->
  Len (addAll h hs) <= MaxHeaderCount lim ->
  headerLoop fuel lim h total (mkReader (headerWire hs ++ CRLF ++ more) e b) =
  (Ret (addAll h hs), mkReader more e b).
Proof.
  intros Hb. revert fuel h total.
  induction hs as [|[k v] hs IH]; intros [|fuel] h total Hf W HC HL H1 HT HN; simpl in Hf; try lia.
  - cbn [headerLoop]. rewrite (bind_Ret _ _ _ [] (mkReader more e b)); [done|].
    apply mapErr_Ret, (line_crlf _ []); [done|apply not_elem_of_nil|rewrite len_nil; lia].
  - apply Forall_cons_1 in HC as [[Hk Hv] HC]. apply Forall_cons_1 in HL as [Hkv HL].
    simpl in HT, HN.
    assert (0 <= foldr (fun kv n => len (headerLine kv) + n) 0 hs).
    { clear. induction hs as [|kv hs IH]; simpl; [lia|]. pose proof (len_nonneg (headerLine kv)). lia. }
    unfold headerWire. cbn [mbind list_bind]. rewrite <- !app_assoc.
    pose proof (wf_addAll (Add h k v) hs (wf_Add _ _ _ W)) as [_ HLe].
    rewrite headerLoop_line by (done || lia). simpl.
    apply IH; auto using wf_Add; lia.
Qed.

End headers.

(** ** Printing a header map and adding its lines back *)

Definition spec_addAll (l : list (bytes * list bytes)) (hs : list (bytes * bytes)) :=
  foldl (fun l kv => spec_add (canonical kv.1) kv.2 l) l hs.

Lemma entries_addAll h hs : wf h -> entries (addAll h hs) = spec_addAll (entries h) hs.
Proof.
  revert h. induction hs as [|[k v] hs IH]; intros h W; [done|]. simpl.
  rewrite IH, entries_Add by auto using wf_Add. done.
Qed.

Lemma spec_update_snoc f k acc ws :
  k ∉ acc.*1 -> spec_update f k (acc ++ [(k, ws)]) = acc ++ [(k, f ws)].
Proof.
  induction acc as [|[k' vs'] acc IH]; simpl; [by rewrite decide_True|].
  intros [? ?]%not_elem_of_cons. rewrite decide_False by congruence. f_equal. by apply IH.
Qed.

Lemma spec_update_fresh f k acc :
  k ∉ acc.*1 -> spec_update f k acc = acc ++ [(k, f [])].
Proof.
  induction acc as [|[k' vs'] acc IH]; simpl; [done|].
  intros [? ?]%not_elem_of_cons. rewrite decide_False by congruence. f_equal. by apply IH.
Qed.

Lemma spec_addAll_same k acc ws vs :
  k ∉ acc.*1 -> canonical k = k ->
  spec_addAll (acc ++ [(k, ws)]) (pair k <$> vs) = acc ++ [(k, ws ++ vs)].
Proof.
  intros Hk Hc. revert ws. induction vs as [|v vs IH]; intros ws; simpl.
  - by rewrite app_nil_r.
  - rewrite Hc. unfold spec_add. rewrite spec_update_snoc by done.
    change (spec_addAll (acc ++ [(k, ws ++ [v])]) (pair k <$> vs) = acc ++ [(k, ws ++ v :: vs)]).
    by rewrite IH, <- app_assoc.
Qed.

Lemma spec_addAll_flat acc l :
  NoDup (acc.*1 ++ l.*1) -> Forall (fun kv => canonical kv.1 = kv.1 /\ kv.2 <> []) l ->
  spec_addAll acc (flat l) = acc ++ l.
Proof.
  intros Hnd HF. revert acc Hnd. induction HF as [|[k vs] l [Hc Hne] HF IH]; intros acc Hnd.
  { simpl. by rewrite app_nil_r. }
  destruct vs as [|v vs]; [done|]. simpl in Hc.
  assert (k ∉ acc.*1) as Hk.
  { apply NoDup_app in Hnd as (_ & Hd & _). intros Hin. apply (Hd k Hin). by left. }
  change (flat ((k, v :: vs) :: l)) with ((k, v) :: (pair k <$> vs) ++ flat l).
  change (spec_addAll (spec_add (canonical k) v acc) ((pair k <$> vs) ++ flat l) =
    acc ++ (k, v :: vs) :: l).
  unfold spec_addAll at 1. rewrite foldl_app, Hc. unfold spec_add at 3.
  rewrite spec_update_fresh by done.
  fold (spec_addAll (acc ++ [(k, [] ++ [v])]) (pair k <$> vs)).
  rewrite spec_addAll_same by done.
  fold (spec_addAll (acc ++ [(k, ([] ++ [v]) ++ vs)]) (flat l)).
  rewrite IH; [by rewrite <- app_assoc|].
  rewrite fmap_app. by rewrite <- app_assoc.
Qed.

Lemma headerWire_app a b : headerWire (a ++ b) = headerWire a ++ headerWire b.
Proof. apply bind_app. Qed.

Lemma headerWire_flat l : headerWire (flat l) = spec_lines l.
Proof.
  induction l as [|[k vs] l IH]; [done|].
  change (flat ((k, vs) :: l)) with ((pair k <$> vs) ++ flat l).
  change (spec_lines ((k, vs) :: l)) with
    ((vs ≫= fun v => k ++ $": " ++ v ++ CRLF) ++ spec_lines l).
  rewrite headerWire_app, IH. f_equal. clear. induction vs as [|v vs IH]; [done|].
  change (headerWire (pair k <$> v :: vs)) with
    ((headerLine (k, v) ++ CRLF) ++ headerWire (pair k <$> vs)).
  rewrite IH. unfold headerLine. cbn [mbind list_bind fst snd]. rewrite <- !app_assoc. done.
Qed.

Definition canonicalKeys (h : Headers) : Prop := Forall (fun k => canonical k = k) (keys h).

Lemma addAll_flat h :
  wf h -> canonicalKeys h -> addAll NewHeaders (flat (entries h)) = h.
Proof.
  intros W HC. apply entries_inj; [apply wf_addAll, wf_New|done|].
  rewrite entries_addAll by apply wf_New. apply (spec_addAll_flat []).
  - simpl. unfold entries. rewrite <- list_fmap_compose, list_fmap_id. apply W.
  - unfold entries. apply Forall_fmap. apply Forall_forall. intros k Hk. simpl. split.
    + unfold canonicalKeys in HC. rewrite Forall_forall in HC. by apply HC.
    + apply (wf_dom _ W) in Hk as [vs Hvs]. rewrite Hvs. by eapply W.
Qed.

Lemma flat_clean h :
  wf h -> cleanHeaders h ->
  Forall (fun kv => cleanName kv.1 /\ cleanValue kv.2) (flat (entries h)).
Proof.
  intros W HC. apply Forall_forall. intros [k v] Hin. unfold flat in Hin.
  apply list_elem_of_bind in Hin as ([k' vs] & Hin & He).
  apply list_elem_of_fmap in Hin as (v' & [= -> ->] & Hv).
  unfold entries in He. apply list_elem_of_fmap in He as (k'' & [= -> ->] & Hk).
  apply (wf_dom _ W) in Hk as [ws Hws]. rewrite Hws in Hv. simpl in Hv.
  destruct (HC _ _ Hws) as [? HF]. rewrite Forall_forall in HF. split; [done|]. by apply HF.
Qed.

(** The parser only stores canonical names, so what it returns is in range. *)
Lemma canonicalKeys_Add h k v : canonicalKeys h -> canonicalKeys (Add h k v).
Proof.
  intros H. unfold canonicalKeys, Add, noteKey. simpl. destruct (vals h !! canonical k); [done|].
  apply Forall_app. split; [done|]. constructor; [apply canonical_idem|constructor].
Qed.

(** ** Requests *)

(** A request whose printed form frames its body: no transfer coding, and a
    [Content-Length] that is the body's length, or no body at all. *)
Definition framed (req : Request) : Prop :=
  Has (ReqHeaders req) $"Transfer-Encoding" = false /\
  (Get (ReqHeaders req) $"Content-Length" = Itoa (len (Body req)) /\
     Has (ReqHeaders req) $"Content-Length" = true
   \/ Has (ReqHeaders req) $"Content-Length" = false /\ Body req = []).

Lemma ContainsToken_absent h k t : Has h k = false -> ContainsToken h k t = false.
Proof. unfold Has, ContainsToken, Values. by destruct (vals h !! canonical k). Qed.

Lemma length_headerWire hs : (length hs <= length (headerWire hs))%nat.
Proof.
  induction hs as [|kv hs IH]; [done|].
  change (headerWire (kv :: hs)) with ((headerLine kv ++ CRLF) ++ headerWire hs).
  rewrite !length_app. simpl. lia.
Qed.

Section request_roundtrip.
Context `{GoRuntime} (lim : Limits).
Hypothesis Hsane : sane lim.

Lemma readBody_framed req more e b :
  framed req -> len (Body req) <= MaxBodyBytes lim ->
  readBody lim (ReqHeaders req) (mkReader (Body req ++ more) e b) =
  (Ret (Body req), mkReader more e b).
Proof.
  intros [Hte Hcl] Hl. pose proof (sane_body _ Hsane) as Hmax. unfold maxAlloc in Hmax.
  pose proof (len_nonneg (Body req)). unfold readBody.
  rewrite ContainsToken_absent, Hte by done. destruct Hcl as [[HG HH]|[HH HB]]; rewrite HH.
  - unfold Itoa in HG. rewrite HG, ParseInt_FormatInt by lia.
    rewrite bool_decide_false by congruence. destruct (Z.ltb_spec (len (Body req)) 0); [lia|].
    destruct (Z.ltb_spec (MaxBodyBytes lim) (len (Body req))); [lia|]. cbn [orb].
    rewrite (bind_Ret _ _ _ tt _ (makeBytes_ok (len (Body req)) _ ltac:(unfold maxAlloc; lia))).
    apply mapErr_Ret, readFull_app.
  - by rewrite HB.
Qed.

Lemma knownMethods_clean m c :
  knownMethods m = true -> c ∈ [nl; sp] -> c ∉ m.
Proof.
  intros Hm%bool_decide_eq_true Hc Hin. unfold knownMethodList in Hm.
  repeat (apply elem_of_cons in Hm as [->|Hm]); [..|by apply elem_of_nil in Hm];
    repeat (apply elem_of_cons in Hc as [->|Hc]);
    try (by apply elem_of_nil in Hc); absurd_elem Hin.
Qed.

Lemma parseRest_wire req remoteAddr hs more e b :
  (0 < b)%nat -> accepted lim remoteAddr req -> framed req -> ReqHeaders req = addAll NewHeaders hs ->
  Forall (fun kv => cleanName kv.1 /\ cleanValue kv.2) hs -> headersFit lim hs -> 1 < MaxHeaderLine lim ->
  parseRest lim remoteAddr (Method req) (RawTarget req) (Proto req)
    (mkReader (headerWire hs ++ CRLF ++ Body req ++ more) e b) =
  (Ret req, mkReader more e b).
Proof.
  intros Hb [_ _ _ _ HPath HQuery [total HI] HHost HBody HAddr [HPP HMeta]] HF EH HC [FL FB] H1.
  unfold parseRest.
  rewrite (bind_Ret _ _ _ (ReqHeaders req) (mkReader (Body req ++ more) e b)).
  2: { unfold withFuel. rewrite EH. apply headerLoop_wire; auto using wf_New.
       - cbn [rest]. rewrite length_app. pose proof (length_headerWire hs). lia.
       - rewrite <- EH. by apply HI. }
  assert (beq (Proto req) $"HTTP/1.1" && negb (Has (ReqHeaders req) $"Host") = false) as ->.
  { unfold beq. case_bool_decide as Ep; [|done]. by rewrite (HHost Ep). }
  rewrite (bind_Ret _ _ _ (Body req) (mkReader more e b)) by (by apply readBody_framed).
  destruct (Cut (RawTarget req) "?") as [[rawPath rawQuery] found]. simpl in HPath, HQuery.
  rewrite HPath, HQuery. destruct req. simpl in *. by subst.
Qed.

(** A request line, header lines in any order and a framed body. *)
Lemma ParseRequest_wire req remoteAddr hs more e b :
  (0 < b)%nat -> accepted lim remoteAddr req -> framed req -> ReqHeaders req = addAll NewHeaders hs ->
  Forall (fun kv => cleanName kv.1 /\ cleanValue kv.2) hs -> headersFit lim hs -> 1 < MaxHeaderLine lim ->
  len (requestLine (Method req) (RawTarget req) (Proto req)) + 1 < MaxRequestLine lim ->
  ParseRequest lim remoteAddr (mkReader (requestLine (Method req) (RawTarget req) (Proto req) ++ CRLF ++
    headerWire hs ++ CRLF ++ Body req ++ more) e b) =
  (Ret req, mkReader more e b).
Proof.
  intros Hb HA HF EH HC HFit H1 HL. pose proof HA as [HM HP [HT _] [HTnl HTsp] _ _ _ _ _ _ _].
  unfold ParseRequest.
  rewrite (bind_Ret _ _ _ (requestLine (Method req) (RawTarget req) (Proto req))
    (mkReader (headerWire hs ++ CRLF ++ Body req ++ more) e b)).
  2: { apply mapErr_Ret, line_crlf; [done| |done]. unfold requestLine.
       pose proof (knownMethods_clean (Method req) nl HM ltac:(set_solver)).
       rewrite !elem_of_app, !list_elem_of_singleton.
       destruct HP as [HP|HP]; rewrite HP; intros [?|[?|[?|[?|Hx]]]]; try done;
         absurd_elem Hx. }
  assert (Split (requestLine (Method req) (RawTarget req) (Proto req)) sp =
    [Method req; RawTarget req; Proto req]) as ->.
  { unfold requestLine. cbn [app].
    rewrite (Split_cons (Method req)) by (apply knownMethods_clean; [done|set_solver]).
    rewrite (Split_cons (RawTarget req)) by done. rewrite Split_one; [done|].
    destruct HP as [->| ->]; intros Hx; absurd_elem Hx. }
  assert (checkRequestLine (Method req) (RawTarget req) (Proto req) = None) as ->.
  { unfold checkRequestLine. rewrite HM, HT. destruct HP as [->| ->]; by vm_compute. }
  by apply parseRest_wire.
Qed.

Lemma ParseRequest_print req remoteAddr more e b :
  (0 < b)%nat -> accepted lim remoteAddr req -> framed req -> canonicalKeys (ReqHeaders req) ->
  headersFit lim (flat (entries (ReqHeaders req))) -> 1 < MaxHeaderLine lim ->
  len (requestLine (Method req) (RawTarget req) (Proto req)) + 1 < MaxRequestLine lim ->
  ParseRequest lim remoteAddr (mkReader (printRequest req ++ more) e b) =
  (Ret req, mkReader more e b).
Proof.
  intros Hb HA HF HC HFit H1 HL. destruct (ac_headers _ _ _ HA) as [total HI].
  unfold printRequest. rewrite WriteTo_entries, <- headerWire_flat, <- !app_assoc. cbn [app].
  apply (ParseRequest_wire req remoteAddr (flat (entries (ReqHeaders req)))); try done.
  - symmetry. apply addAll_flat; [exact (hi_wf _ _ _ HI)|exact HC].
  - apply flat_clean; apply HI.
Qed.

End request_roundtrip.
