(* ===== verification/GoTime.v ===== *)
(** * Times and durations

    A [time.Time] is its nanoseconds since the Unix epoch and a
    [time.Duration] an [int64] of nanoseconds; the calendar is the proleptic
    Gregorian one of [time.Time.Format], for the [Date] header. *)

From S2P Require Import Prelude GoStrings.

Definition Microsecond : Z := 1000.
Definition Millisecond : Z := 1000 * Microsecond.
Definition Second : Z := 1000 * Millisecond.
Definition Minute : Z := 60 * Second.

(** [t.Sub(u)] saturates at the bounds of a [Duration]. *)
Definition timeSub (t u : Z) : Z := Z.max (- 2 ^ 63) (Z.min (2 ^ 63 - 1) (t - u)).

(** [t.Add(d)] and [t.After(u)], [t.Before(u)]. *)
Definition timeAdd (t d : Z) : Z := t + d.
Definition timeAfter (t u : Z) : bool := u <? t.
Definition timeBefore (t u : Z) : bool := t <? u.

(** [d.Microseconds()] truncates toward zero. *)
Definition Microseconds (d : Z) : Z := Z.quot d 1000.

(** Year, month and day of a day number counted from 1970-01-01. *)
Definition civil (days : Z) : Z * Z * Z :=
  let z := days + 719468 in
  let era := z / 146097 in
  let doe := z `mod` 146097 in
  let yoe := (doe - doe / 1460 + doe / 36524 - doe / 146096) / 365 in
  let doy := doe - (365 * yoe + yoe / 4 - yoe / 100) in
  let mp := (5 * doy + 2) / 153 in
  let d := doy - (153 * mp + 2) / 5 + 1 in
  let m := if mp <? 10 then mp + 3 else mp - 9 in
  (yoe + era * 400 + (if m <=? 2 then 1 else 0), m, d).

Definition dayNames : list bytes := [$"Sun"; $"Mon"; $"Tue"; $"Wed"; $"Thu"; $"Fri"; $"Sat"].
Definition monthNames : list bytes :=
  [$"Jan"; $"Feb"; $"Mar"; $"Apr"; $"May"; $"Jun"; $"Jul"; $"Aug"; $"Sep"; $"Oct"; $"Nov"; $"Dec"].

Definition pad (width : nat) (n : Z) : bytes :=
  let s := Itoa n in replicate (width - length s) "0"%char ++ s.

(** [t.UTC().Format("Mon, 02 Jan 2006 15:04:05 GMT")]. *)
Definition httpDate (t : Z) : bytes :=
  let secs := t / Second in
  let days := secs / 86400 in
  let s := secs `mod` 86400 in
  let '(y, m, d) := civil days in
  default [] (dayNames !! Z.to_nat ((days + 4) `mod` 7)) ++ $", " ++ pad 2 d ++ $" " ++
  default [] (monthNames !! Z.to_nat (m - 1)) ++ $" " ++ pad 4 y ++ $" " ++
  pad 2 (s / 3600) ++ $":" ++ pad 2 ((s / 60) `mod` 60) ++ $":" ++ pad 2 (s `mod` 60) ++ $" GMT".

Example httpDate_epoch : httpDate 0 = $"Thu, 01 Jan 1970 00:00:00 GMT".
Proof. by vm_compute. Qed.

Example httpDate_leap : httpDate (951782399 * Second) = $"Mon, 28 Feb 2000 23:59:59 GMT".
Proof. by vm_compute. Qed.

Example httpDate_go : httpDate (1136239445 * Second) = $"Mon, 02 Jan 2006 22:04:05 GMT".
Proof. by vm_compute. Qed.

(** The fraction [.999999999] of a layout: nine digits less the trailing zeros. *)
Definition fraction (ns : Z) : bytes :=
  match TrimRight (pad 9 ns) $"0" with
  | [] => []
  | ds => $"." ++ ds
  end.

(** [t.UTC().Format(time.RFC3339Nano)]. *)
Definition rfc3339Nano (t : Z) : bytes :=
  let secs := t / Second in
  let s := secs `mod` 86400 in
  let '(y, m, d) := civil (secs / 86400) in
  pad 4 y ++ $"-" ++ pad 2 m ++ $"-" ++ pad 2 d ++ $"T" ++
  pad 2 (s / 3600) ++ $":" ++ pad 2 ((s / 60) `mod` 60) ++ $":" ++ pad 2 (s `mod` 60) ++
  fraction (t `mod` Second) ++ $"Z".

Example rfc3339Nano_ex : rfc3339Nano (1136239445 * Second + 120000000) = $"2006-01-02T22:04:05.12Z".
Proof. by vm_compute. Qed.
