(* ===== verification/GoJSON.v ===== *)
(** * encoding/json: what the access log and the demo routes marshal

    Object members are rendered in order; strings are escaped the way
    [json.Marshal] does it, HTML characters and invalid UTF-8 included. *)

From S2P Require Import Prelude GoStrings.

Definition contByte (c : ascii) : bool := between 128 (bz c) 191.

(** The width of the UTF-8 sequence a string starts with, 1 for a byte that
    starts none ([utf8.RuneError]). *)
Definition runeWidth (s : bytes) : nat * bool :=
  match s with
  | [] => (0%nat, false)
  | a :: s' =>
    if bz a <? 128 then (1%nat, true)
    else match s' with
    | b :: s'' =>
      if between 194 (bz a) 223 && contByte b then (2%nat, true)
      else match s'' with
      | c :: s''' =>
        if between 224 (bz a) 239 && contByte c &&
           between (if bz a =? 224 then 160 else 128) (bz b) (if bz a =? 237 then 159 else 191)
        then (3%nat, true)
        else match s''' with
        | d :: _ =>
          if between 240 (bz a) 244 && contByte c && contByte d &&
             between (if bz a =? 240 then 144 else 128) (bz b) (if bz a =? 244 then 143 else 191)
          then (4%nat, true) else (1%nat, false)
        | [] => (1%nat, false)
        end
      | [] => (1%nat, false)
      end
    | [] => (1%nat, false)
    end
  end.

Definition bslash : ascii := "092".
Definition dquote : ascii := "034".

Definition escapeByte (c : ascii) : bytes :=
  if (bz c =? 34) || (bz c =? 92) then [bslash; c]
  else if bz c =? 8 then [bslash; "b"%char]
  else if bz c =? 12 then [bslash; "f"%char]
  else if bz c =? 10 then [bslash; "n"%char]
  else if bz c =? 13 then [bslash; "r"%char]
  else if bz c =? 9 then [bslash; "t"%char]
  else if (bz c <? 32) || (bz c =? 60) || (bz c =? 62) || (bz c =? 38)
  then [bslash] ++ $"u00" ++ hexEncode [c]
  else [c].

(** [lineSep s]: [s] starts with U+2028 or U+2029, and the last digit of it. *)
Definition lineSep (s : bytes) : option bytes :=
  match s with
  | a :: b :: c :: _ =>
    if (bz a =? 226) && (bz b =? 128) && (bz c =? 168) then Some ([bslash] ++ $"u2028")
    else if (bz a =? 226) && (bz b =? 128) && (bz c =? 169) then Some ([bslash] ++ $"u2029")
    else None
  | _ => None
  end.

(** [keep] bytes of the current rune are still to be copied, [skip] to be dropped. *)
Fixpoint escapeString (keep skip : nat) (s : bytes) : bytes :=
  match s with
  | [] => []
  | c :: s' =>
    match keep, skip with
    | S k, _ => c :: escapeString k 0 s'
    | O, S k => escapeString 0 k s'
    | O, O =>
      if bz c <? 128 then escapeByte c ++ escapeString 0 0 s'
      else match lineSep s with
      | Some esc => esc ++ escapeString 0 2 s'
      | None =>
        match runeWidth s with
        | (n, true) => c :: escapeString (n - 1) 0 s'
        | (_, false) => [bslash] ++ $"ufffd" ++ escapeString 0 0 s'
        end
      end
    end
  end.

Definition jsonString (s : bytes) : bytes := [dquote] ++ escapeString 0 0 s ++ [dquote].

#[local] Set Warnings "-register-all".

Inductive json :=
| JString (s : bytes)
| JInt (n : Z)
| JBool (b : bool)
| JList (l : list json)
| JObject (l : list (bytes * json)).

(** [json.Marshal]. *)
Fixpoint jsonEncode (j : json) : bytes :=
  match j with
  | JString s => jsonString s
  | JInt n => Itoa n
  | JBool b => if b then $"true" else $"false"
  | JList l => $"[" ++ Join (jsonEncode <$> l) $"," ++ $"]"
  | JObject l =>
    $"{" ++ Join ((fun '(k, v) => jsonString k ++ $":" ++ jsonEncode v) <$> l) $"," ++ $"}"
  end.

(** A [map[string]any]: the keys of an object come out sorted. *)
Definition key_le {A} (p q : bytes * A) : Prop := bytes_le p.1 q.1.
#[global] Instance key_le_dec {A} : RelDecision (@key_le A) := fun p q => decide (bytes_le p.1 q.1).

Definition jsonMap (l : list (bytes * json)) : json :=
  JObject (merge_sort key_le l).

Example json_ex1 : jsonEncode (jsonMap [($"rounds", JInt 3); ($"digest", JString $"a<b")]) =
  $"{" ++ jsonString $"digest" ++ $":" ++ [dquote] ++ $"a\u003cb" ++ [dquote] ++ $"," ++ jsonString $"rounds" ++ $":3}".
Proof. by vm_compute. Qed.

Example json_ex2 : jsonString [nl; "200"%char; "226"%char; "128"%char; "168"%char; "195"%char; "169"%char] =
  [dquote] ++ $"\n\ufffd\u2028" ++ ["195"%char; "169"%char; dquote].
Proof. by vm_compute. Qed.

(** ** What is encoded has no control byte *)

Definition printing (c : ascii) : Prop := 32 <= bz c.

Lemma escapeByte_printing c : bz c < 128 -> Forall printing (escapeByte c).
Proof.
  intros _. apply Forall_forall. destruct c as [[] [] [] [] [] [] [] []];
    vm_compute escapeByte; intros x Hx;
    repeat (apply elem_of_cons in Hx as [->|Hx]; [vm_compute; congruence|]);
    by apply elem_of_nil in Hx.
Qed.

#[global] Instance printing_dec c : Decision (printing c) := decide (32 <= bz c).

(** Closed byte lists. *)
Ltac printing_list := refine (bool_decide_unpack _ _); by vm_compute.

Lemma contByte_printing c : contByte c = true -> printing c.
Proof. unfold contByte, printing. rewrite between_spec. lia. Qed.

Lemma runeWidth_cont s n :
  runeWidth s = (n, true) -> Forall (fun c => 128 <= bz c) (take (n - 1) (tail s)).
Proof.
  destruct s as [|a [|b [|c [|d s]]]]; simpl; intros E;
    repeat (case_match; simplify_eq/=); try done;
    repeat match goal with
    | H : _ && _ = true |- _ => apply andb_prop in H as [? ?]
    | H : contByte _ = true |- _ => unfold contByte in H
    | H : between _ _ _ = true |- _ => apply between_spec in H
    end; repeat constructor; lia.
Qed.

Lemma lineSep_printing s esc : lineSep s = Some esc -> Forall printing esc.
Proof.
  destruct s as [|a [|b [|c s]]]; simpl; try done.
  repeat case_match; intros E; simplify_eq; printing_list.
Qed.

Lemma escapeString_printing s keep skip :
  Forall (fun c => 128 <= bz c) (take keep s) -> Forall printing (escapeString keep skip s).
Proof.
  revert keep skip. induction s as [|c s IH]; intros keep skip Hk; [constructor|].
  cbn [escapeString]. destruct keep as [|k].
  2: { cbn in Hk. apply Forall_cons in Hk as [? ?]. constructor; [unfold printing; lia|auto]. }
  destruct skip as [|k]; [|apply IH; rewrite take_0; constructor].
  destruct (Z.ltb_spec (bz c) 128).
  { apply Forall_app; split; [by apply escapeByte_printing|apply IH; rewrite take_0; constructor]. }
  destruct (lineSep (c :: s)) as [esc|] eqn:El.
  { apply Forall_app; split; [by eapply lineSep_printing|apply IH; rewrite take_0; constructor]. }
  destruct (runeWidth (c :: s)) as [n []] eqn:Er.
  - constructor; [unfold printing; lia|]. apply IH. by apply runeWidth_cont in Er.
  - apply Forall_app; split; [printing_list|].
    apply Forall_app; split; [printing_list|]. apply IH; rewrite take_0; constructor.
Qed.

Lemma jsonString_printing s : Forall printing (jsonString s).
Proof.
  unfold jsonString. apply Forall_app; split; [printing_list|].
  apply Forall_app; split; [apply escapeString_printing; rewrite take_0; constructor|printing_list].
Qed.

Lemma Itoa_printing n : Forall printing (Itoa n).
Proof.
  assert (forall z, 0 <= z -> Forall printing (FormatUint z 10)) as HU.
  { intros z Hz. eapply Forall_impl; [by apply FormatUint_graphic|].
    unfold graphic, printing. intros c Hc. apply between_spec in Hc. lia. }
  unfold Itoa, FormatInt. case_match.
  - constructor; [vm_compute; congruence|]. apply HU. lia.
  - apply HU. lia.
Qed.

Lemma Join_printing l sep : Forall printing sep -> Forall (Forall printing) l -> Forall printing (Join l sep).
Proof.
  intros Hs Hl. induction Hl as [|x l Hx Hl IH]; [constructor|]. simpl.
  destruct l; [done|]. repeat (apply Forall_app; split); done.
Qed.

Fixpoint jsonEncode_printing (j : json) : Forall printing (jsonEncode j).
Proof.
  destruct j as [s|n|b|l|l]; cbn [jsonEncode].
  - apply jsonString_printing.
  - apply Itoa_printing.
  - destruct b; printing_list.
  - apply Forall_app; split; [printing_list|]. apply Forall_app; split; [|printing_list].
    apply Join_printing; [printing_list|]. induction l as [|j l IH]; constructor; auto.
  - apply Forall_app; split; [printing_list|]. apply Forall_app; split; [|printing_list].
    apply Join_printing; [printing_list|]. induction l as [|[k j] l IH]; constructor; auto.
    apply Forall_app; split; [apply jsonString_printing|].
    apply Forall_app; split; [printing_list|auto].
Qed.
