(* ===== verification/Response.v ===== *)
(** * httpcore/response.go: the buffered response writer

    A [Handler] mutates a [ResponseWriter]; here each method returns the
    updated writer.  [serialize] returns the writer with its final headers and
    the bytes it hands to the connection. *)

From S2P Require Import Prelude GoStrings GoIO GoTime Headers Status.

Record ResponseWriter := mkRW {
  status : Z;
  headers : Headers;
  body : bytes;
  isHead : bool;
  hijacked : bool;
}.

Definition NewResponseWriter : ResponseWriter :=
  {| status := StatusOK; headers := NewHeaders; body := []; isHead := false; hijacked := false |}.

Definition withStatus (w : ResponseWriter) (s : Z) : ResponseWriter :=
  {| status := s; headers := headers w; body := body w; isHead := isHead w; hijacked := hijacked w |}.
Definition withHeaders (w : ResponseWriter) (h : Headers) : ResponseWriter :=
  {| status := status w; headers := h; body := body w; isHead := isHead w; hijacked := hijacked w |}.
Definition withBody (w : ResponseWriter) (b : bytes) : ResponseWriter :=
  {| status := status w; headers := headers w; body := b; isHead := isHead w; hijacked := hijacked w |}.
Definition withIsHead (w : ResponseWriter) (b : bool) : ResponseWriter :=
  {| status := status w; headers := headers w; body := body w; isHead := b; hijacked := hijacked w |}.
Definition withHijacked (w : ResponseWriter) (b : bool) : ResponseWriter :=
  {| status := status w; headers := headers w; body := body w; isHead := isHead w; hijacked := b |}.

(** [w.Header().Set(k, v)]. *)
Definition setHeader (w : ResponseWriter) (k v : bytes) : ResponseWriter :=
  withHeaders w (Set_ (headers w) k v).

Definition WriteHeader (w : ResponseWriter) (s : Z) : ResponseWriter :=
  if hijacked w then w else withStatus w s.

Definition Write (w : ResponseWriter) (p : bytes) : ResponseWriter :=
  if hijacked w then w else withBody w (body w ++ p).

Definition WriteString (w : ResponseWriter) (s : bytes) : ResponseWriter := Write w s.

Definition JSON (w : ResponseWriter) (s : Z) (payload : bytes) : ResponseWriter :=
  Write (setHeader (WriteHeader w s) $"Content-Type" $"application/json") payload.

Definition Error (w : ResponseWriter) (s : Z) (msg : bytes) : ResponseWriter :=
  if hijacked w then w
  else
    let w := withBody (withStatus w s) [] in
    let w := setHeader w $"Content-Type" $"text/plain; charset=utf-8" in
    let msg := if beq msg [] then ReasonPhrase s else msg in
    withBody w (body w ++ Itoa s ++ $" " ++ msg ++ [nl]).

Definition Hijack (w : ResponseWriter) : ResponseWriter := withHijacked w true.
Definition BodyLen (w : ResponseWriter) : Z := len (body w).
Definition SetBody (w : ResponseWriter) (b : bytes) : ResponseWriter := withBody w b.

Definition bodyless (s : Z) : bool :=
  (s =? StatusNoContent) || (s =? StatusNotModified) || ((100 <=? s) && (s <? 200)).

(** The header updates of [serialize], at time [now]. *)
Definition finalHeaders (w : ResponseWriter) (keepAlive : bool) (now : Z) : Headers :=
  let h := headers w in
  let h := if Has h $"Date" then h else Set_ h $"Date" (httpDate now) in
  let h := if Has h $"Server" then h else Set_ h $"Server" $"PulseHTTP/1.0" in
  let h := if bodyless (status w) then Del h $"Content-Length"
           else Set_ h $"Content-Length" (Itoa (len (body w))) in
  if keepAlive then Set_ h $"Connection" $"keep-alive" else Set_ h $"Connection" $"close".

Definition serialize (w : ResponseWriter) (proto : bytes) (keepAlive : bool) (now : Z)
    : ResponseWriter * bytes :=
  let h := finalHeaders w keepAlive now in
  let out := proto ++ $" " ++ Itoa (status w) ++ $" " ++ ReasonPhrase (status w) ++ CRLF in
  let out := WriteTo h out ++ CRLF in
  (withHeaders w h,
   if negb (isHead w) && negb (bodyless (status w)) then out ++ body w else out).

(** ** Lemmas *)

Lemma body_Error w s msg :
  hijacked w = false ->
  body (Error w s msg) = Itoa s ++ $" " ++ (if beq msg [] then ReasonPhrase s else msg) ++ [nl].
Proof. unfold Error. by intros ->. Qed.

Lemma status_Error w s msg : hijacked w = false -> status (Error w s msg) = s.
Proof. unfold Error. by intros ->. Qed.

Lemma headers_Error w s msg :
  hijacked w = false ->
  headers (Error w s msg) = Set_ (headers w) $"Content-Type" $"text/plain; charset=utf-8".
Proof. unfold Error. by intros ->. Qed.

Lemma flags_Error w s msg :
  isHead (Error w s msg) = isHead w /\ hijacked (Error w s msg) = hijacked w.
Proof. unfold Error. by destruct (hijacked w) eqn:E. Qed.

Lemma wf_finalHeaders w keepAlive now : wf (headers w) -> wf (finalHeaders w keepAlive now).
Proof.
  intros W. unfold finalHeaders.
  destruct (Has (headers w) _); destruct (Has _ $"Server"); destruct (bodyless _); destruct keepAlive;
    auto 10 with pulse.
Qed.

(** Distinct names of the headers [serialize] sets. *)
Lemma final_names :
  NoDup (canonical <$> [$"Date"; $"Server"; $"Content-Length"; $"Connection"]).
Proof. refine (bool_decide_unpack _ _). by vm_compute. Qed.

Ltac name_neq := let E := fresh in intros E; vm_compute in E; discriminate E.

Lemma serialize_bytes w proto keepAlive now :
  (serialize w proto keepAlive now).2 =
  proto ++ $" " ++ Itoa (status w) ++ $" " ++ ReasonPhrase (status w) ++ CRLF ++
  spec_lines (entries (finalHeaders w keepAlive now)) ++ CRLF ++
  (if negb (isHead w) && negb (bodyless (status w)) then body w else []).
Proof.
  unfold serialize. rewrite WriteTo_entries. cbn [snd].
  destruct (negb (isHead w) && negb (bodyless (status w))); rewrite <- !app_assoc; [done|].
  by rewrite app_nil_r.
Qed.

(** Which of the four names a [Set]/[Del] of [finalHeaders] touches. *)
Lemma canonical_final_ne k1 k2 :
  k1 ∈ [$"Date"; $"Server"; $"Content-Length"; $"Connection"] ->
  k2 ∈ [$"Date"; $"Server"; $"Content-Length"; $"Connection"] ->
  k1 <> k2 -> canonical k1 <> canonical k2.
Proof.
  intros H1 H2 Hne E. apply Hne.
  assert (canonical k1 = k1 /\ canonical k2 = k2) as [<- <-]; [|done].
  split; [clear H2|clear H1]; [rename H1 into Hx|rename H2 into Hx];
    repeat (apply elem_of_cons in Hx as [->|Hx]; [by vm_compute|]); by apply elem_of_nil in Hx.
Qed.

Ltac final_ne := apply canonical_final_ne; [set_solver|set_solver|];
  let E := fresh in intros E; vm_compute in E; discriminate E.

(** What [finalHeaders] leaves under each name. *)
Lemma Values_finalHeaders w keepAlive now :
  let h := finalHeaders w keepAlive now in
  Values h $"Connection" = [if keepAlive then $"keep-alive" else $"close"] /\
  Values h $"Content-Length" =
    (if bodyless (status w) then [] else [Itoa (len (body w))]) /\
  Has h $"Content-Length" = negb (bodyless (status w)) /\
  Has h $"Date" = true /\ Has h $"Server" = true /\
  (Has (headers w) $"Date" = false -> Get h $"Date" = httpDate now) /\
  (forall other, Has (headers w) $"Date" = true -> Has (headers w) $"Server" = true ->
     canonical other <> canonical $"Content-Length" -> canonical other <> canonical $"Connection" ->
     Values h other = Values (headers w) other).
Proof.
  assert (canonical $"Date" <> canonical $"Server") by final_ne.
  assert (canonical $"Content-Length" <> canonical $"Connection") by final_ne.
  assert (canonical $"Connection" <> canonical $"Content-Length") by final_ne.
  assert (canonical $"Content-Length" <> canonical $"Date") by final_ne.
  assert (canonical $"Content-Length" <> canonical $"Server") by final_ne.
  assert (canonical $"Connection" <> canonical $"Date") by final_ne.
  assert (canonical $"Connection" <> canonical $"Server") by final_ne.
  assert (canonical $"Server" <> canonical $"Date") by final_ne.
  intros h. unfold h, finalHeaders. clear h.
  remember $"Date" as kD. remember $"Server" as kS. remember $"Content-Length" as kL.
  remember $"Connection" as kC. clear HeqkD HeqkS HeqkL HeqkC.
  destruct (Has (headers w) kD) eqn:ED; destruct (Has _ kS) eqn:ES;
    destruct (bodyless (status w)); destruct keepAlive; split_and!; intros;
    unfold Get; autorewrite with pulse in *;
    repeat (rewrite ?decide_True, ?decide_False, ?bool_decide_true, ?bool_decide_false by congruence);
    rewrite ?ED, ?ES; simpl; try done; try congruence.
  all: by rewrite bool_decide_false in ES by congruence.
Qed.

(** A response that [Error] was called on. *)
Record isError (w : ResponseWriter) (s : Z) : Prop := {
  err_status : status w = s;
  err_type : Values (headers w) $"Content-Type" = [$"text/plain; charset=utf-8"];
  err_body : exists msg, body w = Itoa s ++ $" " ++ msg ++ [nl];
}.

Lemma isError_Error w s msg : hijacked w = false -> isError (Error w s msg) s.
Proof.
  intros H. constructor; [by apply status_Error| |].
  - rewrite headers_Error by done. autorewrite with pulse. by rewrite decide_True.
  - eexists. by apply body_Error.
Qed.

(** ** Properties *)

(** A serialized response is the status line, one line per header value in
    order, a blank line and the body, where the body is left out for HEAD and
    for bodyless statuses; [Content-Length] is the body's length even for HEAD
    and is absent for bodyless statuses; [Connection] says what the server will
    do next, [Date] and [Server] are filled in when missing, and no other
    header changes. *)
Theorem serialize_framing (w : ResponseWriter) (keepAlive : bool) (now : Z) (proto : bytes) :
  let h := headers (serialize w proto keepAlive now).1 in
  (serialize w proto keepAlive now).2 =
    proto ++ $" " ++ Itoa (status w) ++ $" " ++ ReasonPhrase (status w) ++ CRLF ++
    spec_lines (entries h) ++ CRLF ++
    (if negb (isHead w) && negb (bodyless (status w)) then body w else []) /\
  Values h $"Content-Length" = (if bodyless (status w) then [] else [Itoa (len (body w))]) /\
  Has h $"Content-Length" = negb (bodyless (status w)) /\
  Values h $"Connection" = [if keepAlive then $"keep-alive" else $"close"] /\
  Has h $"Date" = true /\ Has h $"Server" = true /\
  (Has (headers w) $"Date" = false -> Get h $"Date" = httpDate now) /\
  (forall other, Has (headers w) $"Date" = true -> Has (headers w) $"Server" = true ->
     canonical other <> canonical $"Content-Length" -> canonical other <> canonical $"Connection" ->
     Values h other = Values (headers w) other).
Proof.
  intros h. destruct (Values_finalHeaders w keepAlive now) as (? & ? & ? & ? & ? & ? & ?).
  split; [apply serialize_bytes|]. by split_and!.
Qed.
