(* ===== verification/Handler.v ===== *)
(** * Handlers, middleware and the world they share

    A [httpcore.Handler] mutates the request and the response writer it gets by
    pointer and the state its closure shares with other requests; it returns or
    panics, and what it did before a panic stays done.  So a [Handler] maps an
    exchange, the request, the writer and the shared world, to a [flow] and the
    exchange it leaves.  Components see only their part of the world through a
    [Lens]. *)

From S2P Require Import Prelude GoStrings GoIO Headers Status Request Response.

Record Exch (W : Type) := mkExch {
  xreq : Request;
  xw : ResponseWriter;
  xst : W;
}.
Arguments mkExch {W} _ _ _.
Arguments xreq {W} _.
Arguments xw {W} _.
Arguments xst {W} _.

Definition Handler (W : Type) : Type := Exch W -> flow * Exch W.
Definition Middleware (W : Type) : Type := Handler W -> Handler W.

(** A component's state inside the world of the process. *)
Class Lens (W A : Type) := {
  view : W -> A;
  put : A -> W -> W;
  view_put : forall a w, view (put a w) = a;
  put_view : forall w, put (view w) w = w;
  put_put : forall a b w, put b (put a w) = put b w;
}.
#[export] Hint Rewrite @view_put @put_view @put_put : pulse.

#[export, refine] Instance Lens_id (A : Type) : Lens A A :=
  {| view a := a; put a _ := a |}.
Proof. all: done. Defined.

(** Reading the clock may move it. *)
Class Clock (W : Type) := timeNow : W -> Z * W.

Definition onW {W} (f : ResponseWriter -> ResponseWriter) (x : Exch W) : Exch W :=
  {| xreq := xreq x; xw := f (xw x); xst := xst x |}.
Definition onReq {W} (f : Request -> Request) (x : Exch W) : Exch W :=
  {| xreq := f (xreq x); xw := xw x; xst := xst x |}.
Definition withSt {W} (st : W) (x : Exch W) : Exch W :=
  {| xreq := xreq x; xw := xw x; xst := st |}.

(** A handler that only writes its response. *)
Definition respond {W} (f : Request -> ResponseWriter -> ResponseWriter) : Handler W :=
  fun x => (Returned, onW (f (xreq x)) x).

(** [m], then [k] unless [m] panicked. *)
Definition andThen {W} (m : flow * Exch W) (k : Exch W -> flow * Exch W) : flow * Exch W :=
  match m with
  | (Returned, x) => k x
  | (Panicked, x) => (Panicked, x)
  end.

(** [defer func() { if r := recover(); r != nil { onPanic() } }(); body()]. *)
Definition withRecover {W} (onPanic : Exch W -> Exch W) (m : flow * Exch W) : flow * Exch W :=
  match m with
  | (Returned, x) => (Returned, x)
  | (Panicked, x) => (Returned, onPanic x)
  end.

Definition setMeta (k : bytes) (v : metaValue) (r : Request) : Request :=
  {| Method := Method r; RawTarget := RawTarget r; Path := Path r; Proto := Proto r;
     Query := Query r; ReqHeaders := ReqHeaders r; Body := Body r; RemoteAddr := RemoteAddr r;
     PathParams := PathParams r; Meta := <[k := v]> (Meta r) |}.

Definition setPathParams (p : gmap bytes bytes) (r : Request) : Request :=
  {| Method := Method r; RawTarget := RawTarget r; Path := Path r; Proto := Proto r;
     Query := Query r; ReqHeaders := ReqHeaders r; Body := Body r; RemoteAddr := RemoteAddr r;
     PathParams := p; Meta := Meta r |}.

(** A clock that leaves a component's state alone. *)
Class ClockFrame (W A : Type) `{Clock W, Lens W A} :=
  clock_frame : forall st : W, view (timeNow st).2 = view st.
#[export] Hint Rewrite @clock_frame : pulse.

(** [x] was answered [s] by a middleware, its handler never ran. *)
Record refused {W} (x : Exch W) (res : flow * Exch W) (s : Z) : Prop := {
  rf_flow : res.1 = Returned;
  rf_error : isError (xw res.2) s;
  rf_req : xreq res.2 = xreq x;
  rf_st : xst res.2 = xst x;
}.
