(* ===== verification/Middleware.v ===== *)
(** * middleware/middleware.go and middleware/auth.go

    The chain and its layers: panic recovery, request ids, the access log and
    bearer authorization.  The log writer is a list of the lines written, which
    another component's state sits beside in the world [W]. *)

From S2P Require Import Prelude GoStrings GoIO GoTime GoJSON Headers Status Request Response Handler.

(** [Chain(h, mws...)]: the loop runs [i] from the last index down to 0. *)
Fixpoint chainLoop {W} (mws : list (Middleware W)) (i : nat) (h : Handler W) : Handler W :=
  match i with
  | O => h
  | S i' =>
    match mws !! i' with
    | Some mw => chainLoop mws i' (mw h)
    | None => h
    end
  end.

Definition Chain {W} (h : Handler W) (mws : list (Middleware W)) : Handler W :=
  chainLoop mws (length mws) h.

Definition Recover {W} : Middleware W := fun next x =>
  withRecover (onW (fun w => Error w StatusInternalServerError $"internal error")) (next x).

(** [crypto/rand.Read] of [n] bytes moves the entropy source. *)
Class Entropy (W : Type) := randRead : Z -> W -> bytes * W.

(** [req.Meta[k].(string)]. *)
Definition metaString (r : Request) (k : bytes) : option bytes :=
  match Meta r !! k with
  | Some (MetaStr s) => Some s
  | _ => None
  end.

Definition RequestID {W} `{Entropy W} : Middleware W := fun next x =>
  let id := Get (ReqHeaders (xreq x)) $"X-Request-ID" in
  let '(id, x) :=
    if beq id [] then
      let (b, st) := randRead 6 (xst x) in (hexEncode b, withSt st x)
    else (id, x) in
  let x := onReq (setMeta $"request_id" (MetaStr id)) x in
  let x := onW (fun w => setHeader w $"X-Request-ID" id) x in
  next x.

Record accessRecord := mkAccessRecord {
  Time : bytes;
  RecRequestID : bytes;
  Remote : bytes;
  RecMethod : bytes;
  Target : bytes;
  RecStatus : Z;
  Bytes : Z;
  DurMicros : Z;
  UserAgent : bytes;
}.

Definition omitEmpty (k v : bytes) : list (bytes * json) :=
  if beq v [] then [] else [(k, JString v)].

(** The struct tags of [accessRecord]. *)
Definition accessJSON (r : accessRecord) : json := JObject (
  [($"ts", JString (Time r))] ++
  omitEmpty $"request_id" (RecRequestID r) ++
  [($"remote", JString (Remote r)); ($"method", JString (RecMethod r));
   ($"target", JString (Target r)); ($"status", JInt (RecStatus r));
   ($"bytes", JInt (Bytes r)); ($"dur_us", JInt (DurMicros r))] ++
  omitEmpty $"ua" (UserAgent r)).

(** What reached the log writer, one element per [Write]. *)
Record LogSink := mkLogSink { logged : list bytes }.

Definition logWrite (p : bytes) (l : LogSink) : LogSink := {| logged := logged l ++ [p] |}.

Section layers.
Context {W : Type} `{Clock W}.

Definition Logging `{Lens W LogSink} : Middleware W := fun next x =>
  let (start, st) := timeNow (xst x) in
  andThen (next (withSt st x)) (fun x =>
    let (now, st) := timeNow (xst x) in
    let req := xreq x in
    let rec := {|
      Time := rfc3339Nano start;
      RecRequestID := default [] (metaString req $"request_id");
      Remote := RemoteAddr req;
      RecMethod := Method req;
      Target := RawTarget req;
      RecStatus := status (xw x);
      Bytes := BodyLen (xw x);
      DurMicros := Microseconds (timeSub now start);
      UserAgent := Get (ReqHeaders req) $"User-Agent";
    |} in
    let line := jsonEncode (accessJSON rec) in
    (Returned, withSt (put (logWrite (line ++ [nl]) (view st)) st) x)).

(** ** Authorization *)

Definition RoleAnonymous : Z := 0.
Definition RoleUser : Z := 1.
Definition RoleAdmin : Z := 2.

Record AuthConfig := mkAuthConfig {
  Tokens : gmap bytes Z;
  RequiredRole : bytes -> Z;
}.

Definition BearerAuth (cfg : AuthConfig) : Middleware W := fun next x =>
  let req := xreq x in
  let need := RequiredRole cfg (Path req) in
  if need =? RoleAnonymous then next x
  else
    let raw := Get (ReqHeaders req) $"Authorization" in
    let (token, isBearer) := CutPrefix raw $"Bearer " in
    if beq raw [] || negb isBearer then
      respond (fun _ w => Error (setHeader w $"WWW-Authenticate" ($"Bearer realm=" ++ [dquote] ++ $"pulse" ++ [dquote]))
        StatusUnauthorized $"missing or malformed bearer credentials") x
    else
      match Tokens cfg !! TrimSpace token with
      | None =>
        respond (fun _ w => Error (setHeader w $"WWW-Authenticate"
          ($"Bearer realm=" ++ [dquote] ++ $"pulse" ++ [dquote] ++ $", error=" ++ [dquote] ++ $"invalid_token" ++ [dquote]))
          StatusUnauthorized $"unknown token") x
      | Some role =>
        if role <? need then
          respond (fun req w => Error w StatusForbidden ($"insufficient privileges for " ++ Path req)) x
        else next (onReq (setMeta $"role" (MetaRole role)) x)
      end.

End layers.
