(* ===== verification/Router.v ===== *)
(** * router/router.go: method and path dispatch *)

From S2P Require Import Prelude GoStrings GoIO Headers Status Request Response Handler.

Record segment := mkSegment { literal : bytes; param : bytes }.

Section router.
Context {W : Type}.

Record route := mkRoute {
  method : bytes;
  segments : list segment;
  handler : Handler W;
}.

Record Router := mkRouter {
  routes : list route;
  NotFound : Handler W;
}.

Definition New : Router := {|
  routes := [];
  NotFound := respond (fun req w => Error w StatusNotFound ($"no such resource: " ++ Path req));
|}.

Definition splitPath (p : bytes) : list bytes := Split (Trim p $"/") slash.

Definition parseSegment (part : bytes) : segment :=
  if HasPrefix part $":" then {| literal := []; param := drop 1 part |}
  else {| literal := part; param := [] |}.

Definition Handle (r : Router) (m pattern : bytes) (h : Handler W) : Router :=
  {| routes := routes r ++ [{| method := m; segments := parseSegment <$> splitPath pattern; handler := h |}];
     NotFound := NotFound r |}.

Definition GET (r : Router) (p : bytes) (h : Handler W) : Router := Handle r $"GET" p h.
Definition HEAD (r : Router) (p : bytes) (h : Handler W) : Router := Handle r $"HEAD" p h.
Definition POST (r : Router) (p : bytes) (h : Handler W) : Router := Handle r $"POST" p h.
Definition PUT (r : Router) (p : bytes) (h : Handler W) : Router := Handle r $"PUT" p h.
Definition DELETE (r : Router) (p : bytes) (h : Handler W) : Router := Handle r $"DELETE" p h.

Fixpoint matchLoop (segs : list segment) (parts : list bytes) (params : gmap bytes bytes)
    : option (gmap bytes bytes) :=
  match segs, parts with
  | s :: segs', part :: parts' =>
    if negb (beq (param s) []) then matchLoop segs' parts' (<[param s := part]> params)
    else if negb (beq (literal s) part) then None
    else matchLoop segs' parts' params
  | _, _ => Some params
  end.

Definition match_ (segs : list segment) (parts : list bytes) : option (gmap bytes bytes) :=
  if negb (len segs =? len parts) then None else matchLoop segs parts ∅.

Definition methodOk (rt req : bytes) : bool := beq rt req || (beq req $"HEAD" && beq rt $"GET").

(** The loop of [Serve]: the handler it reached, or the verbs that matched. *)
Fixpoint dispatchLoop (rts : list route) (parts : list bytes) (m : bytes) (allowed : gset bytes)
    : (gmap bytes bytes * Handler W) + gset bytes :=
  match rts with
  | [] => inr allowed
  | rt :: rts' =>
    match match_ (segments rt) parts with
    | None => dispatchLoop rts' parts m allowed
    | Some params =>
      if methodOk (method rt) m then inl (params, handler rt)
      else dispatchLoop rts' parts m ({[method rt]} ∪ allowed)
    end
  end.

Definition Serve (r : Router) : Handler W := fun x =>
  let req := xreq x in
  match dispatchLoop (routes r) (splitPath (Path req)) (Method req) ∅ with
  | inl (params, h) => h (onReq (setPathParams params) x)
  | inr allowed =>
    if 0 <? Z.of_nat (size allowed) then
      let verbs := sortStrings (elements allowed) in
      respond (fun req w => Error (setHeader w $"Allow" (Join verbs $", "))
        StatusMethodNotAllowed (Method req ++ $" not allowed here")) x
    else NotFound r x
  end.

End router.
Arguments route : clear implicits.
Arguments Router : clear implicits.
