(* ===== verification/RateLimit.v ===== *)
(** * middleware/ratelimit.go: a token bucket per client

    Tokens are [float64]; the products and sums are rounded one operation at a
    time, as on platforms without fused multiply-add.  [take] reads the clock
    before it takes the lock, so it is a function of the time it read and of
    the buckets it found; the janitor's tick is another such function. *)

From S2P Require Import Prelude GoStrings GoFloat GoIO GoTime Headers Status Request Response Handler.
From Stdlib Require Import SpecFloat.

Record RateLimitConfig := mkRateLimitConfig {
  RequestsPerSec : float;
  Burst : float;
  Key : Request -> bytes;
}.

Record bucket := mkBucket { tokens : float; last : Z }.

Record RateLimiter := mkRateLimiter { buckets : gmap bytes bucket }.

(** The key [NewRateLimiter] installs when none is configured. *)
Definition defaultKey (req : Request) : bytes :=
  match SplitHostPort (RemoteAddr req) with
  | None => RemoteAddr req
  | Some (host, _) => host
  end.

Definition NewRateLimiter : RateLimiter := {| buckets := ∅ |}.

Section limiter.
Context `{GoRuntime}.
Variable cfg : RateLimitConfig.

(** One tick of [janitor] at time [now]. *)
Definition idle : Z :=
  wrap64 (wrap64 (toInt (fdiv (Burst cfg) (RequestsPerSec cfg)) * Second) + Minute).

Definition janitorTick (now : Z) (rl : RateLimiter) : RateLimiter :=
  let cutoff := timeAdd now (wrap64 (- idle)) in
  {| buckets := filter (fun '(k, b) => timeBefore (last b) cutoff = false) (buckets rl) |}.

Definition take (key : bytes) (now : Z) (rl : RateLimiter) : (bool * Z * Z) * RateLimiter :=
  let b := default {| tokens := Burst cfg; last := now |} (buckets rl !! key) in
  let t := fmin (Burst cfg)
    (fadd (tokens b) (fmul (Seconds (timeSub now (last b))) (RequestsPerSec cfg))) in
  if SFleb (ofInt 1) t then
    let t := fsub t (ofInt 1) in
    (true, toInt t, 0, {| buckets := <[key := {| tokens := t; last := now |}]> (buckets rl) |})
  else
    let deficit := fsub (ofInt 1) t in
    (false, 0, toInt (fmul (fdiv deficit (RequestsPerSec cfg)) (ofInt Second)),
     {| buckets := <[key := {| tokens := t; last := now |}]> (buckets rl) |}).

Definition retrySeconds (wait : Z) : Z :=
  let retryAfter := toInt (fceil (Seconds wait)) in
  if retryAfter <? 1 then 1 else retryAfter.

Section middleware.
Context {W : Type} `{Clock W} `{Lens W RateLimiter}.

Definition RateLimit : Middleware W := fun next x =>
  let limit := Itoa (toInt (Burst cfg)) in
  let key := Key cfg (xreq x) in
  let (now, st) := timeNow (xst x) in
  let '(allowed, remaining, wait, rl) := take key now (view st) in
  let x := withSt (put rl st) x in
  let x := onW (fun w => setHeader w $"X-RateLimit-Limit" limit) x in
  let x := onW (fun w => setHeader w $"X-RateLimit-Remaining" (Itoa remaining)) x in
  if negb allowed then
    let retryAfter := retrySeconds wait in
    let x := onW (fun w => setHeader w $"Retry-After" (Itoa retryAfter)) x in
    respond (fun _ w => Error w StatusTooManyRequests
      ($"rate limit exceeded; retry after " ++ Itoa retryAfter ++ $"s")) x
  else next x.

End middleware.
End limiter.
