(* ===== verification/Sha256.v ===== *)
(** * crypto/sha256

    SHA-256 of a byte string, as FIPS 180-4 defines it, on 32-bit words kept in
    [Z]: what entity tags and the demo's CPU-bound route are computed from. *)

From S2P Require Import Prelude GoStrings.

Definition w32 (z : Z) : Z := z `mod` 2 ^ 32.
Definition rotr (x n : Z) : Z := w32 (Z.lor (Z.shiftr x n) (Z.shiftl x (32 - n))).
Definition not32 (x : Z) : Z := 2 ^ 32 - 1 - x.

Definition bsig0 (x : Z) : Z := Z.lxor (Z.lxor (rotr x 2) (rotr x 13)) (rotr x 22).
Definition bsig1 (x : Z) : Z := Z.lxor (Z.lxor (rotr x 6) (rotr x 11)) (rotr x 25).
Definition ssig0 (x : Z) : Z := Z.lxor (Z.lxor (rotr x 7) (rotr x 18)) (Z.shiftr x 3).
Definition ssig1 (x : Z) : Z := Z.lxor (Z.lxor (rotr x 17) (rotr x 19)) (Z.shiftr x 10).
Definition choose (x y z : Z) : Z := Z.lxor (Z.land x y) (Z.land (not32 x) z).
Definition majority (x y z : Z) : Z := Z.lxor (Z.lxor (Z.land x y) (Z.land x z)) (Z.land y z).

(** The constants: the first 32 bits of the fractional parts of the cube roots
    of the first 64 primes, and of the square roots of the first 8. *)
Definition isPrime (n : nat) : bool :=
  forallb (fun d => negb (Z.of_nat n `mod` Z.of_nat d =? 0)) (seq 2 (n - 2)).
Definition primes : list Z := Z.of_nat <$> List.filter isPrime (seq 2 310).

(** The integer cube root of [n], bit by bit from bit [b]. *)
Fixpoint cubeRoot (b : nat) (n acc : Z) : Z :=
  let acc' := acc + 2 ^ Z.of_nat b in
  let acc := if acc' * acc' * acc' <=? n then acc' else acc in
  match b with
  | O => acc
  | S b' => cubeRoot b' n acc
  end.

Definition roundK : list Z :=
  Eval vm_compute in (fun p => w32 (cubeRoot 36 (p * 2 ^ 96) 0)) <$> primes.
Definition initial : list Z :=
  Eval vm_compute in (fun p => w32 (Z.sqrt (p * 2 ^ 64))) <$> take 8 primes.

Example roundK_ends : length roundK = 64%nat /\ head roundK = Some 0x428a2f98 /\ last roundK = Some 0xc67178f2.
Proof. by vm_compute. Qed.

(** Big-endian bytes of a word, [n] of them. *)
Fixpoint bigEndian (n : nat) (z : Z) : bytes :=
  match n with
  | O => []
  | S n' => bigEndian n' (z / 256) ++ [zb (z `mod` 256)]
  end.

Fixpoint words (s : bytes) : list Z :=
  match s with
  | a :: b :: c :: d :: s' =>
    (((bz a * 256 + bz b) * 256 + bz c) * 256 + bz d) :: words s'
  | _ => []
  end.

Definition padded (s : bytes) : bytes :=
  let zeros := Z.to_nat ((55 - len s) `mod` 64) in
  s ++ [zb 128] ++ replicate zeros (zb 0) ++ bigEndian 8 ((8 * len s) `mod` 2 ^ 64).

(** [W_t] for the next [n] steps from the last 16 words. *)
Fixpoint schedule (n : nat) (ws : list Z) : list Z :=
  match n with
  | O => ws
  | S n' =>
    match ws with
    | w0 :: ws' =>
      let at_ i := nth i ws 0 in
      let w := w32 (ssig1 (at_ 14%nat) + at_ 9%nat + ssig0 (at_ 1%nat) + w0) in
      w0 :: schedule n' (ws' ++ [w])
    | [] => []
    end
  end.

Definition round (h : list Z) (kw : Z * Z) : list Z :=
  match h with
  | [a; b; c; d; e; f; g; hh] =>
    let t1 := hh + bsig1 e + choose e f g + kw.1 + kw.2 in
    let t2 := bsig0 a + majority a b c in
    [w32 (t1 + t2); a; b; c; w32 (d + t1); e; f; g]
  | _ => h
  end.

Definition block (h : list Z) (ws : list Z) : list Z :=
  zip_with (fun x y => w32 (x + y)) h (foldl round h (zip roundK (schedule 48 ws))).

Fixpoint blocks (fuel : nat) (h ws : list Z) : list Z :=
  match fuel with
  | O => h
  | S fuel' =>
    match ws with
    | [] => h
    | _ => blocks fuel' (block h (take 16 ws)) (drop 16 ws)
    end
  end.

(** [sha256.Sum256]. *)
Definition Sum256 (s : bytes) : bytes :=
  let ws := words (padded s) in
  blocks (S (length ws)) initial ws ≫= bigEndian 4.

Example Sum256_abc : hexEncode (Sum256 $"abc") =
  $"ba7816bf8f01cfea414140de5dae2223b00361a396177a9cb410ff61f20015ad".
Proof. by vm_compute. Qed.

Example Sum256_two_blocks :
  hexEncode (Sum256 $"abcdbcdecdefdefgefghfghighijhijkijkljklmklmnlmnomnopnopq") =
  $"248d6a61d20638b8e5c026930c3e6039a33ce45964ff2167f6ecedd419db06c1".
Proof. by vm_compute. Qed.
