(* ===== verification/Cache.v ===== *)
(** * cache/cache.go: the LRU response cache

    [order] is the linked list, front first, and [items] the map into it.  A
    [*list.Element] is its identity and the entry it holds, which never
    changes; [Remove] goes by identity.  The middleware takes the lock twice,
    once to look up and once to store, so those two critical sections are
    definitions of their own. *)

From S2P Require Import Prelude GoStrings GoIO GoTime Sha256 Headers Status Request Response Handler.

Record entry := mkEntry {
  key : bytes;
  ebody : bytes;
  contentType : bytes;
  etag : bytes;
  expires : Z;
}.

Record element := mkElement { elId : Z; Value : entry }.

Record Cache := mkCache {
  capacity : Z;
  ttl : Z;
  order : list element;
  items : gmap bytes element;
  hits : Z;
  misses : Z;
  nextId : Z;           (* the next element allocated *)
}.

Definition New (capacity ttl : Z) : Cache := mkCache capacity ttl [] ∅ 0 0 0.

(** [c.order.Remove(el)] and [delete(c.items, key)]. *)
Definition remove (el : element) (l : list element) : list element :=
  filter (fun el' => elId el' <> elId el) l.

Definition withLists (c : Cache) (l : list element) (m : gmap bytes element) : Cache :=
  mkCache (capacity c) (ttl c) l m (hits c) (misses c) (nextId c).

Definition countHit (c : Cache) : Cache :=
  mkCache (capacity c) (ttl c) (order c) (items c) (uwrap64 (hits c + 1)) (misses c) (nextId c).
Definition countMiss (c : Cache) : Cache :=
  mkCache (capacity c) (ttl c) (order c) (items c) (hits c) (uwrap64 (misses c + 1)) (nextId c).

Module LRU.

Definition get (c : Cache) (k : bytes) (now : Z) : option entry * Cache :=
  match items c !! k with
  | None => (None, c)
  | Some el =>
    let e := Value el in
    if timeAfter now (expires e)
    then (None, withLists c (remove el (order c)) (delete k (items c)))
    else (Some e, withLists c (el :: remove el (order c)) (items c))
  end.

(** [for c.order.Len() > c.capacity]; [None] is the nil dereference of
    [c.order.Remove(c.order.Back())] on an empty list. *)
Fixpoint evict (fuel : nat) (cap : Z) (l : list element) (m : gmap bytes element)
    : option (list element * gmap bytes element) :=
  if len l <=? cap then Some (l, m)
  else match fuel with
  | O => None
  | S fuel' =>
    match last l with
    | None => None
    | Some el => evict fuel' cap (remove el l) (delete (key (Value el)) m)
    end
  end.

Definition put (c : Cache) (e : entry) : option Cache :=
  let '(l, m) :=
    match items c !! key e with
    | Some el => (remove el (order c), delete (key e) (items c))
    | None => (order c, items c)
    end in
  let el := {| elId := nextId c; Value := e |} in
  match evict (S (length l)) (capacity c) (el :: l) (<[key e := el]> m) with
  | None => None
  | Some (l, m) => Some (mkCache (capacity c) (ttl c) l m (hits c) (misses c) (nextId c + 1))
  end.

Definition invalidate (c : Cache) (k : bytes) : Cache :=
  match items c !! k with
  | None => c
  | Some el => withLists c (remove el (order c)) (delete k (items c))
  end.

Definition Stats (c : Cache) : Z * Z * Z := (hits c, misses c, len (order c)).

End LRU.

Definition etagFor (b : bytes) : bytes :=
  ["034"%char] ++ hexEncode (take 8 (Sum256 b)) ++ ["034"%char].

Definition mutating (m : bytes) : bool :=
  beq m $"POST" || beq m $"PUT" || beq m $"DELETE" || beq m $"PATCH".

(** The time to live of a response with this [Cache-Control]. *)
Definition responseTTL (def : Z) (respCC : bytes) : Z :=
  match Index respCC $"max-age=" with
  | None => def
  | Some idx =>
    match Atoi (TrimRight (drop (idx + 8) respCC) $" ,;") with
    | (secs, None) => if 0 <=? secs then wrap64 (secs * Second) else def
    | (_, Some _) => def
    end
  end.

(** The first critical section of a GET. *)
Definition lookupStep (k : bytes) (now : Z) (c : Cache) : option entry * Cache :=
  match LRU.get c k now with
  | (Some e, c) => (Some e, countHit c)
  | (None, c) => (None, countMiss c)
  end.

(** The critical section of a mutating request. *)
Definition invalidateStep (path k : bytes) (c : Cache) : Cache :=
  LRU.invalidate (LRU.invalidate c path) k.

(** What a hit answers. *)
Definition serveHit (e : entry) (req : Request) (w : ResponseWriter) : ResponseWriter :=
  let w := setHeader w $"ETag" (etag e) in
  let w := setHeader w $"X-Cache" $"HIT" in
  if beq (Get (ReqHeaders req) $"If-None-Match") (etag e)
  then Hijack (WriteHeader w StatusNotModified)
  else
    let w := if beq (contentType e) [] then w else setHeader w $"Content-Type" (contentType e) in
    Hijack (SetBody (WriteHeader w StatusOK) (ebody e)).

(** The entry a miss stores, if any. *)
Definition storable (defaultTTL : Z) (k : bytes) (now : Z) (w : ResponseWriter) : option entry :=
  let respCC := Get (headers w) $"Cache-Control" in
  if Contains respCC $"no-store" then None
  else if status w =? StatusOK then
    Some {| key := k; ebody := body w; contentType := Get (headers w) $"Content-Type";
            etag := etagFor (body w); expires := timeAdd now (responseTTL defaultTTL respCC) |}
  else None.

Definition serveMiss (e : entry) (req : Request) (w : ResponseWriter) : ResponseWriter :=
  let w := setHeader w $"ETag" (etag e) in
  let w := setHeader w $"X-Cache" $"MISS" in
  if beq (Get (ReqHeaders req) $"If-None-Match") (etag e)
  then SetBody (WriteHeader w StatusNotModified) []
  else w.

Section middleware.
Context {W : Type} `{Clock W} `{Lens W Cache}.

Definition CacheMiddleware : Middleware W := fun next x =>
  let k := RawTarget (xreq x) in
  if negb (beq (Method (xreq x)) $"GET") then
    andThen (next x) (fun x =>
      if mutating (Method (xreq x)) then
        (Returned, withSt (put (invalidateStep (Path (xreq x)) k (view (xst x))) (xst x)) x)
      else (Returned, x))
  else
    let bypass := ContainsToken (ReqHeaders (xreq x)) $"Cache-Control" $"no-cache" in
    let (now, st) := timeNow (xst x) in
    let '(e, x) :=
      if bypass then (None, withSt st x)
      else let (e, c) := lookupStep k now (view st) in (e, withSt (put c st) x) in
    match e with
    | Some e => respond (serveHit e) x
    | None =>
      andThen (next x) (fun x =>
        match storable (ttl (view (xst x))) k now (xw x) with
        | None => (Returned, x)
        | Some e =>
          match LRU.put (view (xst x)) e with
          | None => (Panicked, x)
          | Some c => respond (serveMiss e) (withSt (put c (xst x)) x)
          end
        end)
    end.

End middleware.
