(* ===== verification/Metrics.v ===== *)
(** * metrics/metrics.go: request telemetry

    Counters are kept at their widths: [uint64] totals and buckets, [int64]
    latency sum and in-flight gauge.  The atomics and the mutex make each update
    of the registry one step of the shared world. *)

From S2P Require Import Prelude GoStrings GoFloat GoIO GoTime GoJSON Headers Status Request Response Handler.
From Stdlib Require Import SpecFloat.

Definition bucketBoundsUS : list Z :=
  [100; 250; 500; 1000; 2500; 5000; 10000; 25000; 50000; 100000; 250000; 1000000].

Record Registry := mkRegistry {
  start : Z;
  total : Z;
  inflight : Z;
  sumUS : Z;
  byStatus : gmap Z Z;
  mbuckets : list Z;
}.

Definition NewRegistry (now : Z) : Registry :=
  mkRegistry now 0 0 0 ∅ (replicate (length bucketBoundsUS + 1) 0).

(** [sort.Search(n, f)]: the loop [for i < j]. *)
Fixpoint searchLoop (fuel : nat) (f : Z -> bool) (i j : Z) : Z :=
  match fuel with
  | O => i
  | S fuel' =>
    if i <? j then
      let h := (i + j) / 2 in
      if negb (f h) then searchLoop fuel' f (h + 1) j else searchLoop fuel' f i h
    else i
  end.

Definition Search (n : Z) (f : Z -> bool) : Z := searchLoop (S (Z.to_nat n)) f 0 n.

Definition boundAt (i : Z) : Z := nth (Z.to_nat i) bucketBoundsUS 0.

Definition Observe (status : Z) (dur : Z) (r : Registry) : Registry :=
  let us := Microseconds dur in
  let idx := Search (len bucketBoundsUS) (fun i => us <=? boundAt i) in
  {| start := start r;
     total := uwrap64 (total r + 1);
     inflight := inflight r;
     sumUS := wrap64 (sumUS r + us);
     byStatus := <[status := uwrap64 (default 0 (byStatus r !! status) + 1)]> (byStatus r);
     mbuckets := alter (fun n => uwrap64 (n + 1)) (Z.to_nat idx) (mbuckets r) |}.

Definition addInflight (d : Z) (r : Registry) : Registry :=
  {| start := start r; total := total r; inflight := wrap64 (inflight r + d); sumUS := sumUS r;
     byStatus := byStatus r; mbuckets := mbuckets r |}.

(** The loop of [percentile] over the buckets from index [i], [cum] counted so far. *)
Fixpoint percentileLoop (rank : float) (bs : list Z) (i : nat) (cum : Z) : float :=
  match bs with
  | [] => ofInt (nth (length bucketBoundsUS - 1) bucketBoundsUS 0)
  | cnt :: bs' =>
    let prev := cum in
    let cum := uwrap64 (cum + cnt) in
    if SFleb rank (ofInt cum) then
      let lo := if (0 <? i)%nat then nth (i - 1) bucketBoundsUS 0 else 0 in
      let hi := if (i <? length bucketBoundsUS)%nat then nth i bucketBoundsUS 0 else 2000000 in
      if cnt =? 0 then ofInt hi
      else
        let frac := fdiv (fsub rank (ofInt prev)) (ofInt cnt) in
        fadd (ofInt lo) (fmul frac (ofInt (hi - lo)))
    else percentileLoop rank bs' (S i) cum
  end.

Definition percentile (p : float) (bs : list Z) (tot : Z) : float :=
  if tot =? 0 then S754_zero false
  else percentileLoop (fmul p (ofInt tot)) bs 0 0.

Record Snapshot := mkSnapshot {
  UptimeSec : float;
  Total : Z;
  InFlight : Z;
  ByStatus : gmap bytes Z;
  AvgLatencyMS : float;
  P50MS : float;
  P90MS : float;
  P99MS : float;
}.

(** The constants 0.50, 0.90 and 0.99 as [float64]. *)
Definition p50 : float := fdiv (ofInt 1) (ofInt 2).
Definition p90 : float := fdiv (ofInt 9) (ofInt 10).
Definition p99 : float := fdiv (ofInt 99) (ofInt 100).

Definition snapshot (now : Z) (r : Registry) : Snapshot :=
  let pc p := fdiv (percentile p (mbuckets r) (total r)) (ofInt 1000) in
  let zero := S754_zero false in
  {| UptimeSec := Seconds (timeSub now (start r));
     Total := total r;
     InFlight := inflight r;
     ByStatus := kmap Itoa (byStatus r);
     AvgLatencyMS := if 0 <? total r
       then fdiv (fdiv (ofInt (sumUS r)) (ofInt (total r))) (ofInt 1000) else zero;
     P50MS := if 0 <? total r then pc p50 else zero;
     P90MS := if 0 <? total r then pc p90 else zero;
     P99MS := if 0 <? total r then pc p99 else zero |}.

(** [json.MarshalIndent(v, "", "  ")] of an object whose members are encoded. *)
Definition indentObject (indent : bytes) (l : list (bytes * bytes)) : bytes :=
  match l with
  | [] => $"{}"
  | _ =>
    $"{" ++ [nl] ++
    Join ((fun '(k, v) => indent ++ $"  " ++ jsonString k ++ $": " ++ v) <$> l) ($"," ++ [nl]) ++
    [nl] ++ indent ++ $"}"
  end.

Definition finite (x : float) : bool :=
  match x with S754_nan | S754_infinity _ => false | _ => true end.

(** [None] is the error [json] returns for a value that is not finite; the code
    drops the error and sends what it got, nothing. *)
Definition marshalSnapshot `{GoRuntime} (s : Snapshot) : option bytes :=
  if forallb finite [UptimeSec s; AvgLatencyMS s; P50MS s; P90MS s; P99MS s] then
    let statuses := merge_sort key_le (map_to_list (ByStatus s)) in
    Some (indentObject [] [
      ($"uptime_sec", formatFloat (UptimeSec s));
      ($"requests_total", Itoa (Total s));
      ($"requests_in_flight", Itoa (InFlight s));
      ($"by_status", indentObject $"  " ((fun '(k, n) => (k, Itoa n)) <$> statuses));
      ($"latency_avg_ms", formatFloat (AvgLatencyMS s));
      ($"latency_p50_ms", formatFloat (P50MS s));
      ($"latency_p90_ms", formatFloat (P90MS s));
      ($"latency_p99_ms", formatFloat (P99MS s))])
  else None.

Section middleware.
Context {W : Type} `{GoRuntime} `{Clock W} `{Lens W Registry}.

Definition onRegistry (f : Registry -> Registry) (x : Exch W) : Exch W :=
  withSt (put (f (view (xst x))) (xst x)) x.

Definition MetricsMiddleware : Middleware W := fun next x =>
  let x := onRegistry (addInflight 1) x in
  let (started, st) := timeNow (xst x) in
  andThen (next (withSt st x)) (fun x =>
    let x := onRegistry (addInflight (-1)) x in
    let (now, st) := timeNow (xst x) in
    (Returned, onRegistry (Observe (status (xw x)) (timeSub now started)) (withSt st x))).

Definition MetricsHandler : Handler W := fun x =>
  let (now, st) := timeNow (xst x) in
  let payload := default [] (marshalSnapshot (snapshot now (view st))) in
  respond (fun _ w => JSON w StatusOK payload) (withSt st x).

End middleware.

Example Search_ex : (Search 12 (fun i => 100 <=? boundAt i), Search 12 (fun i => 101 <=? boundAt i),
  Search 12 (fun i => 5000000 <=? boundAt i)) = (0, 1, 12).
Proof. by vm_compute. Qed.
