(* ===== verification/Proxy.v ===== *)
(** * proxy/proxy.go: the load balancer

    The pool's upstreams keep their order, so an upstream is its index.  A
    candidate index, like every slice index, panics out of range.  The network
    is an interface: dialling gives a connection or an error, and an exchange on
    a connection gives the error of the write, or the stream the upstream
    answers with before the deadline. *)

From S2P Require Import Prelude GoStrings GoIO GoTime Headers Status Request Response Handler.

(** ** Configuration and pool *)

Record Config := mkConfig {
  Upstreams : list bytes;
  Strategy : bytes;
  DialTimeout : Z;
  ResponseTimeout : Z;
  HealthInterval : Z;
  MaxAttempts : Z;
  RelayMaxBodyBytes : Z;
  PoolSize : Z;
}.

Definition RoundRobin : bytes := $"round-robin".
Definition LeastConnections : bytes := $"least-conn".

Definition withDefaults (c : Config) : Config := {|
  Upstreams := Upstreams c;
  Strategy := if beq (Strategy c) [] then RoundRobin else Strategy c;
  DialTimeout := if DialTimeout c =? 0 then 2 * Second else DialTimeout c;
  ResponseTimeout := if ResponseTimeout c =? 0 then 10 * Second else ResponseTimeout c;
  HealthInterval := if HealthInterval c =? 0 then 2 * Second else HealthInterval c;
  MaxAttempts := if MaxAttempts c =? 0 then 3 else MaxAttempts c;
  RelayMaxBodyBytes := if RelayMaxBodyBytes c =? 0 then Z.shiftl 8 20 else RelayMaxBodyBytes c;
  PoolSize := if PoolSize c =? 0 then 32 else PoolSize c;
|}.

(** Why a relay failed: [fmt.Errorf]'s format, its address and its operand. *)
Inductive relayErr :=
| DialErr (addr : bytes) (e : ioerr)
| StaleDialErr (addr : bytes) (e : ioerr)
| WriteErr (addr : bytes) (e : ioerr)
| ReadStatusErr (addr : bytes) (e : ioerr)
| BadStatusLine (addr line : bytes)
| BadStatusCode (addr code : bytes)
| ReadHeadersErr (addr : bytes) (e : ioerr)
| BodyTooLarge (addr : bytes) (n : Z)
| ReadBodyErr (addr : bytes) (e : ioerr)
| BodyExceeds (addr : bytes).

Section proxy.
Context {W Conn : Type}.

(** The network and the text [fmt] renders an error as. *)
Class Network := {
  netDial : bytes -> Z -> W -> (Conn + ioerr) * W;
  netExchange : Conn -> bytes -> W -> (option ioerr * reader) * W;
  netClose : Conn -> W -> W;
  errText : option relayErr -> bytes;
}.

Record Upstream := mkUpstream {
  UpAddr : bytes;
  healthy : bool;
  active : Z;
  conns : list Conn;     (* the channel of idle connections, next to receive first *)
}.

Record Pool := mkPool {
  cfg : Config;
  ups : list Upstream;
  next : Z;
}.

Definition NewPool (c : Config) : Pool :=
  let c := withDefaults c in
  {| cfg := c;
     ups := (fun addr => mkUpstream addr true 0 []) <$> Upstreams c;
     next := 0 |}.

Definition setHealthy (b : bool) (u : Upstream) : Upstream :=
  mkUpstream (UpAddr u) b (active u) (conns u).
Definition addActive (d : Z) (u : Upstream) : Upstream :=
  mkUpstream (UpAddr u) (healthy u) (wrap64 (active u + d)) (conns u).
Definition setConns (l : list Conn) (u : Upstream) : Upstream :=
  mkUpstream (UpAddr u) (healthy u) (active u) l.

Definition onUp (i : nat) (f : Upstream -> Upstream) (p : Pool) : Pool :=
  {| cfg := cfg p; ups := alter f i (ups p); next := next p |}.

(** ** Choosing candidates *)

Definition healthyIndices (p : Pool) : list nat :=
  List.filter (fun i => match ups p !! i with Some u => healthy u | None => false end)
    (seq 0 (length (ups p))).

Definition activeOf (p : Pool) (i : nat) : Z :=
  match ups p !! i with Some u => active u | None => 0 end.

(** The loop [for _, u := range healthy[1:]]. *)
Definition least (p : Pool) (first : nat) (others : list nat) : nat :=
  foldl (fun best i => if activeOf p i <? activeOf p best then i else best) first others.

(** [healthy[(start+i) % len(healthy)]] for each [i]; [None] is an index out of
    range.  Go's [%] truncates. *)
Definition rotate (l : list nat) (start : Z) : option (list nat) :=
  mapM (fun i =>
    let idx := Z.rem (wrap64 (start + Z.of_nat i)) (len l) in
    if idx <? 0 then None else l !! Z.to_nat idx) (seq 0 (length l)).

(** [pick]: [None] when it panics, otherwise the candidates and the pool with
    its counter moved. *)
Definition pick (p : Pool) : option (list nat) * Pool :=
  let h := healthyIndices p in
  match h with
  | [] => (Some [], p)
  | first :: others =>
    if beq (Strategy (cfg p)) LeastConnections then
      let best := least p first others in
      (Some (best :: List.filter (fun i => negb (i =? best)%nat) h), p)
    else
      let n := uwrap64 (next p + 1) in
      let start := Z.rem (wrap64 (uwrap64 (n - 1))) (len h) in
      (rotate h start, {| cfg := cfg p; ups := ups p; next := n |})
  end.

(** ** The exchange *)

Definition clientHost (req : Request) : bytes :=
  match SplitHostPort (RemoteAddr req) with
  | Some (host, _) => host
  | None => []
  end.

(** The callback of [req.Headers.Range]: what was written, and [wroteXFF]. *)
Definition forwardHeader (req : Request) (k v : bytes) (out : bytes * bool) : bytes * bool :=
  let (b, wroteXFF) := out in
  let lk := ToLower k in
  if bool_decide (lk ∈ [$"connection"; $"keep-alive"; $"transfer-encoding"; $"content-length"])
  then (b, wroteXFF)
  else if beq lk $"x-forwarded-for"
  then (b ++ k ++ $": " ++ v ++ $", " ++ clientHost req ++ CRLF, true)
  else (b ++ k ++ $": " ++ v ++ CRLF, wroteXFF).

(** The bytes [relayConn] writes. *)
Definition upstreamRequest (req : Request) : bytes :=
  let (b, wroteXFF) :=
    Range (ReqHeaders req) (forwardHeader req)
      (Method req ++ $" " ++ RawTarget req ++ $" HTTP/1.1" ++ CRLF, false) in
  b ++
  (if wroteXFF then [] else $"X-Forwarded-For: " ++ clientHost req ++ CRLF) ++
  $"Content-Length: " ++ Itoa (len (Body req)) ++ CRLF ++
  $"Connection: keep-alive" ++ CRLF ++ CRLF ++
  Body req.

(** The upstream's header section: its last [Content-Length] and the headers to
    relay, in order.  Each line takes at least a byte of the stream. *)
Fixpoint upHeaderLoop (fuel : nat) (addr : bytes) (r : reader) (cl : Z) (acc : list (bytes * bytes))
    : (Z * list (bytes * bytes) + option relayErr) * reader :=
  match fuel with
  | O => (inr None, r)
  | S fuel' =>
    match ReadString r with
    | (_, Some e, r) => (inr (Some (ReadHeadersErr addr e)), r)
    | (line, None, r) =>
      let line := TrimRight line CRLF in
      if beq line [] then (inl (cl, acc), r)
      else
        match Cut line colon with
        | (_, _, false) => upHeaderLoop fuel' addr r cl acc
        | (name, value, true) =>
          let value := TrimSpace value in
          let ln := ToLower name in
          if beq ln $"content-length" then
            upHeaderLoop fuel' addr r (ParseInt value 10).1 acc
          else if bool_decide (ln ∈ [$"connection"; $"keep-alive"; $"transfer-encoding"; $"date"; $"server"])
          then upHeaderLoop fuel' addr r cl acc
          else upHeaderLoop fuel' addr r cl (acc ++ [(name, value)])
        end
    end
  end.

(** A response read off a connection, and whether that can be used again. *)
Record upResponse := mkUpResponse {
  upStatus : Z;
  upHeaders : list (bytes * bytes);
  upBody : bytes;
  upReuse : bool;
}.

(** [relayConn] from the status line to the body; [inr None] is fuel run out. *)
Definition readUpstream (c : Config) (addr : bytes) (r : reader)
    : (upResponse + option relayErr) * reader :=
  match ReadString r with
  | (_, Some e, r) => (inr (Some (ReadStatusErr addr e)), r)
  | (statusLine, None, r) =>
    match SplitN (TrimRight statusLine CRLF) sp 3 with
    | proto :: code :: _ =>
      if negb (HasPrefix proto $"HTTP/1.") then (inr (Some (BadStatusLine addr statusLine)), r)
      else
        match Atoi code with
        | (_, Some _) => (inr (Some (BadStatusCode addr code)), r)
        | (status, None) =>
          match upHeaderLoop (S (length (rest r))) addr r (-1) [] with
          | (inr e, r) => (inr e, r)
          | (inl (cl, hs), r) =>
            if 0 <=? cl then
              if RelayMaxBodyBytes c <? cl then (inr (Some (BodyTooLarge addr cl)), r)
              else
                match ReadFull r cl with
                | (inr e, r) => (inr (Some (ReadBodyErr addr e)), r)
                | (inl body, r) => (inl (mkUpResponse status hs body true), r)
                end
            else
              match ReadAllLimit r (wrap64 (RelayMaxBodyBytes c + 1)) with
              | (inr e, r) => (inr (Some (ReadBodyErr addr e)), r)
              | (inl body, r) =>
                if RelayMaxBodyBytes c <? len body then (inr (Some (BodyExceeds addr)), r)
                else (inl (mkUpResponse status hs body false), r)
              end
          end
        end
    | _ => (inr (Some (BadStatusLine addr statusLine)), r)
    end
  end.

(** The response [relayConn] leaves on the writer. *)
Definition applyUpstream (u : upResponse) (w : ResponseWriter) : ResponseWriter :=
  let w := WriteHeader w (upStatus u) in
  let w := foldl (fun w kv => setHeader w kv.1 kv.2) w (upHeaders u) in
  SetBody w (upBody u).

Context `{Network} `{Lens W Pool}.

Definition onPool (f : Pool -> Pool) (st : W) : W := put (f (view st)) st.

(** [putConn]: park the connection, or close it when the channel is full. *)
Definition putConn (i : nat) (conn : Conn) (st : W) : W :=
  match ups (view st) !! i with
  | Some u =>
    if len (conns u) <? PoolSize (cfg (view st))
    then onPool (onUp i (setConns (conns u ++ [conn]))) st
    else netClose conn st
  | None => st
  end.

(** [getConn]: an idle connection, or a fresh one. *)
Definition getConn (i : nat) (addr : bytes) (st : W) : (Conn * bool + ioerr) * W :=
  match conns <$> ups (view st) !! i with
  | Some (conn :: others) => (inl (conn, true), onPool (onUp i (setConns others)) st)
  | _ =>
    match netDial addr (DialTimeout (cfg (view st))) st with
    | (inl conn, st) => (inl (conn, false), st)
    | (inr e, st) => (inr e, st)
    end
  end.

(** [relayConn]: one exchange on [conn], which is parked or closed after it. *)
Definition relayConn (conn : Conn) (i : nat) (addr : bytes) (req : Request) (w : ResponseWriter) (st : W)
    : option (option relayErr) * ResponseWriter * W :=
  match netExchange conn (upstreamRequest req) st with
  | (Some e, _, st) => (Some (Some (WriteErr addr e)), w, netClose conn st)
  | (None, r, st) =>
    match readUpstream (cfg (view st)) addr r with
    | (inr e, _) => (Some e, w, netClose conn st)
    | (inl u, _) =>
      (None, applyUpstream u w, if upReuse u then putConn i conn st else netClose conn st)
    end
  end.

(** [relay]: through the pool, with one retry on a fresh connection when a
    pooled one fails. *)
Definition relay (i : nat) (addr : bytes) (req : Request) (w : ResponseWriter) (st : W)
    : option (option relayErr) * ResponseWriter * W :=
  match getConn i addr st with
  | (inr e, st) => (Some (Some (DialErr addr e)), w, st)
  | (inl (conn, reused), st) =>
    match relayConn conn i addr req w st with
    | (Some e, w, st) =>
      if reused then
        match netDial addr (DialTimeout (cfg (view st))) st with
        | (inr e, st) => (Some (Some (StaleDialErr addr e)), w, st)
        | (inl conn, st) => relayConn conn i addr req w st
        end
      else (Some e, w, st)
    | ok => ok
    end
  end.

(** The loop over the attempts; [left] of them remain. *)
Fixpoint attemptLoop (left : nat) (candidates : list nat) (lastErr : option relayErr) (x : Exch W)
    : option (option relayErr) * Exch W :=
  match left, candidates with
  | S left', i :: candidates' =>
    let addr := match ups (view (xst x)) !! i with Some u => UpAddr u | None => [] end in
    let st := onPool (onUp i (addActive 1)) (xst x) in
    let '(err, w, st) := relay i addr (xreq x) (xw x) st in
    let st := onPool (onUp i (addActive (-1))) st in
    match err with
    | None => (None, {| xreq := xreq x; xw := setHeader w $"X-Upstream" addr; xst := st |})
    | Some e =>
      let st := onPool (onUp i (setHealthy false)) st in
      attemptLoop left' candidates' e {| xreq := xreq x; xw := w; xst := st |}
    end
  | _, _ => (Some lastErr, x)
  end.

Definition ProxyHandler : Handler W := fun x =>
  match pick (view (xst x)) with
  | (None, p) => (Panicked, withSt (put p (xst x)) x)
  | (Some [], p) =>
    respond (fun _ w => Error (setHeader w $"Retry-After" $"2") StatusServiceUnavailable $"no healthy upstreams")
      (withSt (put p (xst x)) x)
  | (Some candidates, p) =>
    let attempts := Z.min (MaxAttempts (cfg p)) (len candidates) in
    match attemptLoop (Z.to_nat attempts) candidates None (withSt (put p (xst x)) x) with
    | (None, x) => (Returned, x)
    | (Some lastErr, x) =>
      respond (fun _ w => Error w StatusBadGateway
        ($"all " ++ Itoa attempts ++ $" upstream attempts failed: " ++ errText lastErr)) x
    end
  end.

(** One pass of the health loop's [check]. *)
Definition checkUpstream (i : nat) (st : W) : W :=
  match ups (view st) !! i with
  | None => st
  | Some u =>
    match netDial (UpAddr u) (DialTimeout (cfg (view st))) st with
    | (inr _, st) => onPool (onUp i (setHealthy false)) st
    | (inl conn, st) => onPool (onUp i (setHealthy true)) (netClose conn st)
    end
  end.

Definition check (st : W) : W := foldl (fun st i => checkUpstream i st) st (seq 0 (length (ups (view st)))).

(** The health loop until [Stop]: a check at once and one at each tick of
    [HealthInterval]; [others] is what the rest of the process does before each
    tick. *)
Definition healthLoop (others : list (W -> W)) (st : W) : W :=
  foldl (fun st other => check (other st)) (check st) others.

(** [Stop] closes every idle connection. *)
Definition Stop (st : W) : W :=
  foldl (fun st i =>
    match ups (view st) !! i with
    | Some u => onPool (onUp i (setConns [])) (foldl (fun st c => netClose c st) st (conns u))
    | None => st
    end) st (seq 0 (length (ups (view st)))).

End proxy.
