(* ===== verification/Server.v ===== *)
(** * httpcore/server.go: configuration and the connection loop

    [serveConn] runs the keep-alive loop of one connection over a [reader] and
    a [writer].  The draining flag is an oracle [drain]: its value at each of
    the two loads of an iteration.  Deadlines show up as the reader's ending:
    the bytes arrive in time and then the stream ends, times out or fails.  The
    clock is read once per response, as the code does for the write deadline
    whatever the headers; the reading for a missing [Date] is taken to be the
    same, and those for the read deadlines are left out.
    [safeHandle] is the code's recover barrier around the handler; nothing
    protects [ParseRequest], so a panic there ends the process. *)

From S2P Require Import Prelude GoStrings GoIO GoTime Headers Status Request Response Handler.

(** ** Configuration *)

(** [TLS] wraps the listener and is not part of the protocol engine. *)
Record Config (W : Type) := mkConfig {
  Addr : bytes;
  CfgHandler : Handler W;
  CfgLimits : Limits;
  ReadTimeout : Z;
  IdleTimeout : Z;
  WriteTimeout : Z;
  MaxRequestsPerConn : Z;
  ShutdownGrace : Z;
}.
Arguments mkConfig {W} _ _ _ _ _ _ _ _.
Arguments Addr {W} _.
Arguments CfgHandler {W} _.
Arguments CfgLimits {W} _.
Arguments ReadTimeout {W} _.
Arguments IdleTimeout {W} _.
Arguments WriteTimeout {W} _.
Arguments MaxRequestsPerConn {W} _.
Arguments ShutdownGrace {W} _.

Definition withDefaults {W} (c : Config W) : Config W := {|
  Addr := Addr c;
  CfgHandler := CfgHandler c;
  CfgLimits := if decide (CfgLimits c = mkLimits 0 0 0 0 0) then DefaultLimits else CfgLimits c;
  ReadTimeout := if ReadTimeout c =? 0 then 10 * Second else ReadTimeout c;
  IdleTimeout := if IdleTimeout c =? 0 then 30 * Second else IdleTimeout c;
  WriteTimeout := if WriteTimeout c =? 0 then 10 * Second else WriteTimeout c;
  MaxRequestsPerConn := MaxRequestsPerConn c;
  ShutdownGrace := if ShutdownGrace c =? 0 then 5 * Second else ShutdownGrace c;
|}.

(** ** One connection *)

(** The status [serveConn] answers a failed parse with. *)
Definition errorStatus (err : error) : Z :=
  let status := match asParseError err with
                | Some (ParseError s _ _) => s
                | _ => StatusBadRequest
                end in
  match asNetError err with
  | Some NetTimeout => StatusRequestTimeout
  | _ => status
  end.

Section serve.
Context {W : Type} `{GoRuntime} `{Clock W}.

Definition safeHandle (h : Handler W) (x : Exch W) : Exch W :=
  (withRecover (onW (fun w =>
     Error (withHijacked w false) StatusInternalServerError $"internal error")) (h x)).2.

(** The response [writeError] serializes. *)
Definition errorResponse (status : Z) : ResponseWriter :=
  let w := Error NewResponseWriter status [] in
  if (status =? StatusRequestTimeout) || (status =? StatusServiceUnavailable)
  then setHeader w $"Retry-After" $"1" else w.

Definition writeError (bw : writer) (status : Z) (st : W) : writer * W :=
  let (now, st) := timeNow st in
  ((flushTo bw (serialize (errorResponse status) $"HTTP/1.1" false now).2).2, st).

(** Why the goroutine of the connection ended. *)
Inductive connEnd :=
| Drained           (* draining, and a response was already sent *)
| IdleClose         (* no further byte: silent close *)
| CleanClose        (* the parser reported [errCleanClose] *)
| ParseFailed (e : error)
| WriteFailed
| ResponseClose     (* the response said [Connection: close] *)
| Crashed           (* a panic outside [safeHandle] *)
| LoopNoFuel.

Record connResult := mkConnResult {
  connOut : writer;
  connSt : W;
  connServed : Z;
  connEnded : connEnd;
}.

Variable cfg : Config W.
Variable remoteAddr : bytes.
Variable drain : Z -> bool * bool.    (* served -> the loads at the top and after the handler *)

Definition keepAliveAfter (req : Request) (draining : bool) (served : Z) : bool :=
  negb (wantClose req) && negb draining &&
  ((MaxRequestsPerConn cfg =? 0) || (served <? MaxRequestsPerConn cfg)).

Fixpoint serveLoop (fuel : nat) (served : Z) (br : reader) (bw : writer) (st : W) : connResult :=
  match fuel with
  | O => mkConnResult bw st served LoopNoFuel
  | S fuel' =>
    if (drain served).1 && (0 <? served) then mkConnResult bw st served Drained
    else match Peek1 br with
    | Some _ => mkConnResult bw st served IdleClose
    | None =>
      match ParseRequest (CfgLimits cfg) remoteAddr br with
      | (Raise errCleanClose, _) => mkConnResult bw st served CleanClose
      | (Raise err, _) =>
        let (bw, st) := writeError bw (errorStatus err) st in
        mkConnResult bw st served (ParseFailed err)
      | (GoPanic, _) => mkConnResult bw st served Crashed
      | (NoFuel, _) => mkConnResult bw st served LoopNoFuel
      | (Ret req, br) =>
        let w := withIsHead NewResponseWriter (beq (Method req) $"HEAD") in
        let x := safeHandle (CfgHandler cfg) {| xreq := req; xw := w; xst := st |} in
        let keepAlive := keepAliveAfter (xreq x) (drain served).2 (served + 1) in
        let (now, st) := timeNow (xst x) in
        match flushTo bw (serialize (xw x) $"HTTP/1.1" keepAlive now).2 with
        | (Some _, bw) => mkConnResult bw st (served + 1) WriteFailed
        | (None, bw) =>
          if negb keepAlive then mkConnResult bw st (served + 1) ResponseClose
          else serveLoop fuel' (served + 1) br bw st
        end
      end
    end
  end.

(** [bufio.NewReaderSize(conn, 16<<10)]. *)
Definition connReader (input : bytes) (e : ioerr) : reader := mkReader input e (Z.to_nat (Z.shiftl 16 10)).

Definition serveConn (input : bytes) (e : ioerr) (bw : writer) (st : W) : connResult :=
  serveLoop (S (length input)) 0 (connReader input e) bw st.

End serve.
Arguments connOut {W} _.
Arguments connSt {W} _.
Arguments connServed {W} _.
Arguments connEnded {W} _.
