(* ===== verification/ServerLife.v ===== *)
(** * httpcore/server.go: the life of a server

    [Server] has the fields of the Go struct and [System] adds what runs
    around it: the accept loop of [ListenAndServe], one goroutine per accepted
    connection, [Shutdown] and the goroutine that waits for it, each at a
    program point.  A connection is the number of its accept.  [exec] takes one
    step of one of them; what the network, the clock, a peer or a handler
    decides is in the event.  [Shutdown] is called once, as the program does. *)

From stdpp Require Import relations fin_maps fin_sets.
From S2P Require Import Prelude.
From S2P Require Import Headers.
From S2P Require Import Request.
From S2P Require Import Handler.
From S2P Require Import Server.

(** A bound [net.Listener] is known by its address. *)
Record Listener := mkListener { lnAddr : bytes }.

Record ServerState := mkServer {
  boundAddr : bytes;             (* [s.cfg.Addr] *)
  listener : option Listener;
  tracked : gset nat;            (* [s.conns] *)
  wg : Z;
  draining : bool;
  ready : bool;                  (* [s.ready] is closed *)
  addr : option bytes;
}.

Definition NewServer (cfgAddr : bytes) : ServerState :=
  {| boundAddr := cfgAddr; listener := None; tracked := ∅; wg := 0; draining := false;
     ready := false; addr := None |}.

(** [Server.Addr]. *)
Definition AddrOf (s : ServerState) : bytes :=
  match addr s with Some v => v | None => boundAddr s end.

(** [Server.Ready]: has the channel been closed? *)
Definition Ready (s : ServerState) : bool := ready s.

Definition track (s : ServerState) (c : nat) (add : bool) : ServerState :=
  {| boundAddr := boundAddr s; listener := listener s;
     tracked := if add then {[c]} ∪ tracked s else tracked s ∖ {[c]};
     wg := wg s; draining := draining s; ready := ready s; addr := addr s |}.

Definition setListener (ln : Listener) (s : ServerState) : ServerState :=
  mkServer (boundAddr s) (Some ln) (tracked s) (wg s) (draining s) (ready s) (addr s).
Definition storeAddr (a : bytes) (s : ServerState) : ServerState :=
  mkServer (boundAddr s) (listener s) (tracked s) (wg s) (draining s) (ready s) (Some a).
Definition closeReady (s : ServerState) : ServerState :=
  mkServer (boundAddr s) (listener s) (tracked s) (wg s) (draining s) true (addr s).
Definition wgAdd (d : Z) (s : ServerState) : ServerState :=
  mkServer (boundAddr s) (listener s) (tracked s) (wg s + d) (draining s) (ready s) (addr s).
Definition setDraining (s : ServerState) : ServerState :=
  mkServer (boundAddr s) (listener s) (tracked s) (wg s) true (ready s) (addr s).

(** What [ListenAndServe] returns, [None] for nil. *)
Inductive serveErr := ListenErr (a : bytes) | AcceptErr.

(** Where [ListenAndServe] is. *)
Inductive loopPc :=
| AtListen
| AtStore (ln : Listener)        (* bound, before [s.listener = ln] *)
| AtAddr (ln : Listener)
| AtReady
| AtAccept
| HasConn (c : nat)              (* accepted, before [s.track] *)
| Tracked (c : nat)              (* before [s.wg.Add(1)] *)
| Added (c : nat)                (* before [go] *)
| LoopReturned (err : option serveErr).

(** Where the goroutine of a connection is; [served] as in [serveConn]. *)
Inductive connPc :=
| AtTop (served : Z)             (* the top of the keep-alive loop *)
| AtPeek (served : Z)
| AtParse (served : Z)
| AtHandle (served : Z) (req : Request)
| AtWrite (served : Z) (keepAlive : bool)
| AtWriteError                   (* answering a request that did not parse *)
| AtClose                        (* [serveConn] returned; the deferred calls *)
| AtUntrack
| AtDone.

Inductive shutdownPc :=
| NotCalled
| AtCloseListener                (* [draining] is stored *)
| AtSpawn
| AtSelect
| AtForce                        (* the grace period or the context is over *)
| AtAwait                        (* [<-done] after the forced close *)
| ShutdownReturned.

Inductive waiterPc := NotSpawned | AtWait | WaitDone.

Record System := mkSystem {
  srv : ServerState;
  loop : loopPc;
  shut : shutdownPc;
  waiter : waiterPc;             (* the goroutine in [s.wg.Wait], which closes [done] *)
  goroutines : gmap nat connPc;
  lnClosed : bool;
  closedConns : gset nat;        (* closed by [Shutdown] *)
  nextConn : nat;
}.

Definition initSystem (cfgAddr : bytes) : System :=
  mkSystem (NewServer cfgAddr) AtListen NotCalled NotSpawned ∅ false ∅ 0.

Definition onSrv (f : ServerState -> ServerState) (s : System) : System :=
  mkSystem (f (srv s)) (loop s) (shut s) (waiter s) (goroutines s) (lnClosed s) (closedConns s) (nextConn s).
Definition atLoop (pc : loopPc) (s : System) : System :=
  mkSystem (srv s) pc (shut s) (waiter s) (goroutines s) (lnClosed s) (closedConns s) (nextConn s).
Definition atShut (pc : shutdownPc) (s : System) : System :=
  mkSystem (srv s) (loop s) pc (waiter s) (goroutines s) (lnClosed s) (closedConns s) (nextConn s).
Definition atWaiter (pc : waiterPc) (s : System) : System :=
  mkSystem (srv s) (loop s) (shut s) pc (goroutines s) (lnClosed s) (closedConns s) (nextConn s).
Definition withGoroutines (g : gmap nat connPc) (s : System) : System :=
  mkSystem (srv s) (loop s) (shut s) (waiter s) g (lnClosed s) (closedConns s) (nextConn s).
Definition closeListener (s : System) : System :=
  mkSystem (srv s) (loop s) (shut s) (waiter s) (goroutines s) true (closedConns s) (nextConn s).
Definition closeConns (cs : gset nat) (s : System) : System :=
  mkSystem (srv s) (loop s) (shut s) (waiter s) (goroutines s) (lnClosed s) (closedConns s ∪ cs) (nextConn s).
Definition acceptNext (s : System) : System :=
  mkSystem (srv s) (HasConn (nextConn s)) (shut s) (waiter s) (goroutines s) (lnClosed s)
    (closedConns s) (S (nextConn s)).

(** Events.  A blocking call's outcome is the event's; a program point with one
    outcome takes [LoopGo], [ConnGo] or the [Shutdown] event of that point. *)
Inductive acceptResult := Accepted | AcceptTimedOut | AcceptFailed.

Inductive connEvent :=
| ConnGo
| PeekByte | PeekErr
| ParsedRequest (req : Request) | ParseRefused | ParsedCleanClose
| Handled (req : Request)        (* the handler returned, or panicked and was recovered *)
| WriteOk | WriteErr.

Inductive event :=
| NetListen (r : option Listener)
| LoopGo
| NetAccept (r : acceptResult)
| ConnEvent (c : nat) (e : connEvent)
| ShutdownCall | ShutdownGo | GraceOver
| WgZero.                        (* [s.wg.Wait] returns *)

Section life.
Context {W : Type}.
Variable cfg : Config W.

(** [Accept] on a closed listener fails; its error is not a timeout. *)
Definition acceptStep (r : acceptResult) (s : System) : option System :=
  match r with
  | Accepted => if lnClosed s then None else Some (acceptNext s)
  | AcceptTimedOut =>
    if lnClosed s then None
    else Some (if draining (srv s) then atLoop (LoopReturned None) s else s)
  | AcceptFailed =>
    Some (atLoop (LoopReturned (if draining (srv s) then None else Some AcceptErr)) s)
  end.

Definition loopGo (s : System) : option System :=
  match loop s with
  | AtStore ln => Some (atLoop (AtAddr ln) (onSrv (setListener ln) s))
  | AtAddr ln => Some (atLoop AtReady (onSrv (storeAddr (lnAddr ln)) s))
  | AtReady => Some (atLoop AtAccept (onSrv closeReady s))
  | HasConn c => Some (atLoop (Tracked c) (onSrv (fun x => track x c true) s))
  | Tracked c => Some (atLoop (Added c) (onSrv (wgAdd 1) s))
  | Added c => Some (atLoop AtAccept (withGoroutines (<[c := AtTop 0]> (goroutines s)) s))
  | _ => None
  end.

(** The next program point of a connection in [serveConn].  On a connection
    [Shutdown] closed no write succeeds; a request may still come out of the
    read buffer. *)
Definition connNext (drain closed : bool) (pc : connPc) (e : connEvent) : option connPc :=
  match pc, e with
  | AtTop served, ConnGo => Some (if drain && (0 <? served) then AtClose else AtPeek served)
  | AtPeek served, PeekByte => Some (AtParse served)
  | AtPeek _, PeekErr => Some AtClose
  | AtParse served, ParsedRequest req => Some (AtHandle served req)
  | AtParse _, ParseRefused => Some AtWriteError
  | AtParse _, ParsedCleanClose => Some AtClose
  | AtHandle served _, Handled req =>
    Some (AtWrite (served + 1) (keepAliveAfter cfg req drain (served + 1)))
  | AtWrite served keepAlive, WriteOk =>
    if closed then None else Some (if keepAlive then AtTop served else AtClose)
  | AtWrite _ _, WriteErr => Some AtClose
  | AtWriteError, ConnGo => Some AtClose
  | AtClose, ConnGo => Some AtUntrack
  | _, _ => None
  end.

Definition connStep (c : nat) (e : connEvent) (s : System) : option System :=
  match goroutines s !! c, e with
  | Some AtUntrack, ConnGo =>
    Some (withGoroutines (<[c := AtDone]> (goroutines s)) (onSrv (fun x => track x c false) s))
  | Some AtDone, ConnGo => Some (withGoroutines (delete c (goroutines s)) (onSrv (wgAdd (-1)) s))
  | Some pc, _ =>
    (fun pc' => withGoroutines (<[c := pc']> (goroutines s)) s) <$>
      connNext (draining (srv s)) (bool_decide (c ∈ closedConns s)) pc e
  | None, _ => None
  end.

Definition shutdownGo (s : System) : option System :=
  match shut s with
  | AtCloseListener =>
    Some (atShut AtSpawn (match listener (srv s) with Some _ => closeListener s | None => s end))
  | AtSpawn => Some (atShut AtSelect (atWaiter AtWait s))
  | AtSelect => match waiter s with WaitDone => Some (atShut ShutdownReturned s) | _ => None end
  | AtForce => Some (atShut AtAwait (closeConns (tracked (srv s)) s))
  | AtAwait => match waiter s with WaitDone => Some (atShut ShutdownReturned s) | _ => None end
  | _ => None
  end.

Definition exec (e : event) (s : System) : option System :=
  match e with
  | NetListen r =>
    match loop s with
    | AtListen =>
      Some (atLoop (match r with
                    | Some ln => AtStore ln
                    | None => LoopReturned (Some (ListenErr (boundAddr (srv s))))
                    end) s)
    | _ => None
    end
  | LoopGo => loopGo s
  | NetAccept r => match loop s with AtAccept => acceptStep r s | _ => None end
  | ConnEvent c e => connStep c e s
  | ShutdownCall =>
    match shut s with NotCalled => Some (atShut AtCloseListener (onSrv setDraining s)) | _ => None end
  | ShutdownGo => shutdownGo s
  | GraceOver => match shut s with AtSelect => Some (atShut AtForce s) | _ => None end
  | WgZero =>
    match waiter s with
    | AtWait => if wg (srv s) =? 0 then Some (atWaiter WaitDone s) else None
    | _ => None
    end
  end.

(** The same moves as a relation, one rule per move. *)
Inductive step (s : System) : System -> Prop :=
| step_listen_err :
    loop s = AtListen -> step s (atLoop (LoopReturned (Some (ListenErr (boundAddr (srv s))))) s)
| step_listen ln : loop s = AtListen -> step s (atLoop (AtStore ln) s)
| step_store ln : loop s = AtStore ln -> step s (atLoop (AtAddr ln) (onSrv (setListener ln) s))
| step_addr ln : loop s = AtAddr ln -> step s (atLoop AtReady (onSrv (storeAddr (lnAddr ln)) s))
| step_ready : loop s = AtReady -> step s (atLoop AtAccept (onSrv closeReady s))
| step_accept : loop s = AtAccept -> lnClosed s = false -> step s (acceptNext s)
| step_accept_timeout : loop s = AtAccept -> lnClosed s = false -> draining (srv s) = false -> step s s
| step_accept_fail :
    loop s = AtAccept ->
    step s (atLoop (LoopReturned (if draining (srv s) then None else Some AcceptErr)) s)
| step_track c : loop s = HasConn c -> step s (atLoop (Tracked c) (onSrv (fun x => track x c true) s))
| step_add c : loop s = Tracked c -> step s (atLoop (Added c) (onSrv (wgAdd 1) s))
| step_go c : loop s = Added c -> step s (atLoop AtAccept (withGoroutines (<[c := AtTop 0]> (goroutines s)) s))
| step_conn c pc pc' e :
    goroutines s !! c = Some pc ->
    connNext (draining (srv s)) (bool_decide (c ∈ closedConns s)) pc e = Some pc' ->
    step s (withGoroutines (<[c := pc']> (goroutines s)) s)
| step_untrack c :
    goroutines s !! c = Some AtUntrack ->
    step s (withGoroutines (<[c := AtDone]> (goroutines s)) (onSrv (fun x => track x c false) s))
| step_done c :
    goroutines s !! c = Some AtDone ->
    step s (withGoroutines (delete c (goroutines s)) (onSrv (wgAdd (-1)) s))
| step_call : shut s = NotCalled -> step s (atShut AtCloseListener (onSrv setDraining s))
| step_close ln : shut s = AtCloseListener -> listener (srv s) = Some ln -> step s (atShut AtSpawn (closeListener s))
| step_close_none : shut s = AtCloseListener -> listener (srv s) = None -> step s (atShut AtSpawn s)
| step_spawn : shut s = AtSpawn -> step s (atShut AtSelect (atWaiter AtWait s))
| step_grace : shut s = AtSelect -> step s (atShut AtForce s)
| step_force : shut s = AtForce -> step s (atShut AtAwait (closeConns (tracked (srv s)) s))
| step_return :
    shut s = AtSelect \/ shut s = AtAwait -> waiter s = WaitDone -> step s (atShut ShutdownReturned s)
| step_wg : waiter s = AtWait -> wg (srv s) = 0 -> step s (atWaiter WaitDone s).

(** A run of events. *)
Definition run (es : list event) (s : System) : option System :=
  foldl (fun o e => s ← o; exec e s) (Some s) es.

Definition reachable (s : System) : Prop := rtc step (initSystem (Addr cfg)) s.

Lemma connStep_step c e s s' : connStep c e s = Some s' -> step s s'.
Proof.
  unfold connStep. intros He. destruct (goroutines s !! c) as [pc|] eqn:Ec; [|done].
  assert (forall s0 pc0, goroutines s !! c = Some pc0 ->
    (fun pc' => withGoroutines (<[c := pc']> (goroutines s)) s) <$>
      connNext (draining (srv s)) (bool_decide (c ∈ closedConns s)) pc0 e = Some s0 -> step s s0) as Hn.
  { intros s0 pc0 Hc (pc' & Hp & ->)%fmap_Some. by econstructor. }
  destruct pc; try (by eapply Hn); destruct e; simplify_eq/=; by constructor.
Qed.

Lemma exec_step e s s' : exec e s = Some s' -> step s s'.
Proof.
  destruct e; cbn [exec]; [| | |apply connStep_step|..].
  - destruct (loop s) eqn:El; try done. destruct r; intros; simplify_eq; by constructor.
  - unfold loopGo. destruct (loop s) eqn:El; intros; simplify_eq; by constructor.
  - destruct (loop s) eqn:El; try done. pose proof (step_accept_fail s El) as Hf.
    destruct r; cbn [acceptStep]; [| |by intros [= <-]]; destruct (lnClosed s) eqn:Ec; try done; [by intros [= <-]; constructor|].
    destruct (draining (srv s)) eqn:Ed; intros [= <-]; [done|by constructor].
  - destruct (shut s) eqn:Es; intros; simplify_eq; by constructor.
  - unfold shutdownGo. destruct (shut s) eqn:Es; try done; [|by intros [= <-]; constructor| |by intros [= <-]; constructor|].
    + destruct (listener (srv s)) eqn:El; intros; simplify_eq; by econstructor.
    + destruct (waiter s) eqn:Ew; intros; simplify_eq; constructor; auto.
    + destruct (waiter s) eqn:Ew; intros; simplify_eq; constructor; auto.
  - destruct (shut s) eqn:Es; intros; simplify_eq; by constructor.
  - destruct (waiter s) eqn:Ew; try done. destruct (Z.eqb_spec (wg (srv s)) 0); intros; simplify_eq; by constructor.
Qed.

Lemma run_rtc es s s' : run es s = Some s' -> rtc step s s'.
Proof.
  unfold run. revert s s'. induction es as [|e es IH] using rev_ind; intros s s'; [by intros [= <-]|].
  rewrite foldl_app. cbn [foldl]. intros (s1 & H1 & H2)%bind_Some.
  eapply rtc_r; [by apply IH|]. by eapply exec_step.
Qed.

Lemma run_reachable es s : run es (initSystem (Addr cfg)) = Some s -> reachable s.
Proof. apply run_rtc. Qed.

Ltac fire e :=
  exists e; cbn [exec acceptStep]; unfold loopGo, shutdownGo;
  repeat match goal with H : _ = _ |- _ => rewrite H; clear H end; reflexivity.

(** Every move is a step of [exec]. *)
Lemma step_exec s s' : step s s' -> exists e, exec e s = Some s'.
Proof.
  intros Hs. destruct Hs as
    [El|ln El|ln El|ln El|El|El Hc|El Hc Hd|El|c El|c El|c El|c pc pc' e Hg Hn|c Hg|c Hg|Es|ln Es Hl|Es Hl|Es|Es|Es|Es Hw|Hw Hz].
  12: { exists (ConnEvent c e). cbn [exec]. unfold connStep. rewrite Hg.
        destruct pc; try (by rewrite Hn); by destruct e. }
  12, 13: exists (ConnEvent c ConnGo); cbn [exec]; unfold connStep; by rewrite Hg.
  1: fire (NetListen None). 1: fire (NetListen (Some ln)). 1-3: fire LoopGo.
  1: fire (NetAccept Accepted). 1: fire (NetAccept AcceptTimedOut). 1: fire (NetAccept AcceptFailed).
  1-3: fire LoopGo. 1: fire ShutdownCall. 1-3: fire ShutdownGo. 1: fire GraceOver. 1: fire ShutdownGo.
  2: fire WgZero. destruct Es; fire ShutdownGo.
Qed.

End life.
