(* ===== verification/ConnMachine.v ===== *)
(** * httpcore/server.go: the connection's goroutine, one program point at a time

    [Server.serveLoop] runs a connection from its bytes in one go; [ServerLife]
    moves its goroutine from program point to program point, by events.  Here the
    events are made by the code between two points, the peek, the parser, the
    handler and the write, on the connection's own reader, writer and world, so
    that a goroutine determines its moves. *)

From stdpp Require Import fin_maps.
From S2P Require Import Prelude.
From S2P Require Import GoIO.
From S2P Require Import GoStrings.
From S2P Require Import Headers.
From S2P Require Import Request.
From S2P Require Import Response.
From S2P Require Import Handler.
From S2P Require Import Server.
From S2P Require Import ServerLife.

Section machine.
Context {W : Type} `{GoRuntime} `{Clock W}.
Variable cfg : Config W.
Variable remoteAddr : bytes.
Variable drain : Z -> bool * bool.    (* as in [serveLoop] *)

(** A goroutine in [serveConn]; [pending] is the response it is about to write. *)
Record Goroutine := mkGoroutine {
  pc : connPc;
  rd : reader;
  pending : ResponseWriter;
  out : writer;
  gst : W;
}.

(** The draining flag the code loads at a program point. *)
Definition drainAt (p : connPc) : bool :=
  match p with AtTop n => (drain n).1 | AtHandle n _ => (drain n).2 | _ => false end.

(** The code at a program point: what it comes to, and what it leaves.  [None]
    is a panic of the parser, or the end of [serveConn]. *)
Definition act (g : Goroutine) : option (connEvent * (reader * ResponseWriter * writer * W)) :=
  let '(mkGoroutine p r w bw st) := g in
  match p with
  | AtTop _ => Some (ConnGo, (r, w, bw, st))
  | AtPeek _ => Some (match Peek1 r with Some _ => PeekErr | None => PeekByte end, (r, w, bw, st))
  | AtParse _ =>
    match ParseRequest (CfgLimits cfg) remoteAddr r with
    | (Ret req, r) => Some (ParsedRequest req, (r, w, bw, st))
    | (Raise errCleanClose, r) => Some (ParsedCleanClose, (r, w, bw, st))
    | (Raise err, r) => Some (ParseRefused, (r, errorResponse (errorStatus err), bw, st))
    | _ => None
    end
  | AtHandle _ req =>
    let w := withIsHead NewResponseWriter (beq (Method req) $"HEAD") in
    let x := safeHandle (CfgHandler cfg) {| xreq := req; xw := w; xst := st |} in
    Some (Handled (xreq x), (r, xw x, bw, xst x))
  | AtWrite _ keepAlive =>
    let (now, st) := timeNow st in
    match flushTo bw (serialize w $"HTTP/1.1" keepAlive now).2 with
    | (Some _, bw) => Some (WriteErr, (r, w, bw, st))
    | (None, bw) => Some (WriteOk, (r, w, bw, st))
    end
  | AtWriteError =>
    let (now, st) := timeNow st in
    Some (ConnGo, (r, w, (flushTo bw (serialize w $"HTTP/1.1" false now).2).2, st))
  | AtClose | AtUntrack | AtDone => None
  end.

(** One move: the code at the point, then the next point of [ServerLife]. *)
Definition goMove (g : Goroutine) : option (connEvent * Goroutine) :=
  match act g with
  | None => None
  | Some (e, (r, w, bw, st)) =>
    match connNext cfg (drainAt (pc g)) false (pc g) e with
    | None => None
    | Some p => Some (e, mkGoroutine p r w bw st)
    end
  end.

(** [goRun g tr g']: from [g] the goroutine makes the moves [tr] and is at [g']. *)
Inductive goRun : Goroutine -> list connEvent -> Goroutine -> Prop :=
| run_here g : goRun g [] g
| run_move g e g1 tr g' : goMove g = Some (e, g1) -> goRun g1 tr g' -> goRun g (e :: tr) g'.

(** A goroutine that can make no move has come to one place, by one trace. *)
Lemma goRun_unique g tr1 g1 tr2 g2 :
  goRun g tr1 g1 -> goRun g tr2 g2 -> goMove g1 = None -> goMove g2 = None -> tr1 = tr2 /\ g1 = g2.
Proof.
  intros H1. revert tr2. induction H1 as [g|g e g1' tr1 g1 Hm H1 IH]; intros tr2 H2 E1 E2.
  - inversion H2; subst; [done|congruence].
  - inversion H2 as [|? e' g2' tr2' ? Hm2 H2']; subst; [congruence|].
    rewrite Hm in Hm2. injection Hm2 as <- <-. by destruct (IH _ H2' E1 E2) as [-> ->].
Qed.

(** The moves of a goroutine are moves of the server it belongs to, when the
    draining flag is the server's and [Shutdown] has not closed the connection. *)
Lemma goRun_system g tr g' c s :
  goRun g tr g' -> goroutines s !! c = Some (pc g) -> c ∉ closedConns s ->
  (forall n, drain n = (draining (srv s), draining (srv s))) ->
  run cfg (ConnEvent c <$> tr) s = Some (withGoroutines (<[c := pc g']> (goroutines s)) s).
Proof.
  intros Hr. revert s. induction Hr as [g|g e g1 tr g' Hm Hr IH]; intros s Hc Hcl Hd.
  { cbn. by rewrite insert_id by done; destruct s. }
  cbn [fmap list_fmap]. unfold run. cbn [foldl mbind option_bind exec].
  assert (connStep cfg c e s = Some (withGoroutines (<[c := pc g1]> (goroutines s)) s)) as ->.
  { unfold goMove in Hm. destruct (act g) as [[e' [[[r w] bw] st]]|] eqn:Ea; [|done].
    destruct (connNext cfg (drainAt (pc g)) false (pc g) e') as [p|] eqn:En; [|done]. injection Hm as -> <-. cbn [pc].
    unfold connStep. rewrite Hc, (bool_decide_false (c ∈ closedConns s)) by done.
    assert (connNext cfg (draining (srv s)) false (pc g) e = Some p) as Hn.
    { rewrite <- En. unfold drainAt. destruct (pc g); try done; by rewrite Hd. }
    destruct g as [q]. cbn [pc] in *. destruct q; cbn [act] in Ea; try done; by rewrite Hn. }
  specialize (IH (withGoroutines (<[c := pc g1]> (goroutines s)) s)). cbn [withGoroutines goroutines srv closedConns] in IH.
  unfold run in IH. rewrite IH; [by rewrite insert_insert_eq|by rewrite lookup_insert_eq|done|done].
Qed.
End machine.
Arguments Goroutine : clear implicits.
