(* ===== verification/App.v ===== *)
(** * cmd/pulsehttp/main.go: the demo server and load balancer

    The process' world puts the state of every component beside the
    environment, the clock, the entropy source, the network and [time.Sleep].
    [buildAPI] registers the demo routes and [mainStart] assembles what [main]
    starts from its flags. *)

From S2P Require Import Prelude.
From S2P Require Import GoStrings.
From S2P Require Import GoFloat.
From S2P Require Import GoIO.
From S2P Require Import GoURL.
From S2P Require Import GoTime.
From S2P Require Import GoJSON.
From S2P Require Import Headers.
From S2P Require Import Status.
From S2P Require Import Request.
From S2P Require Import Response.
From S2P Require Import Handler.
From S2P Require Import Middleware.
From S2P Require Import Router.
From S2P Require Import RateLimit.
From S2P Require Import Sha256.
From S2P Require Import Cache.
From S2P Require Import Metrics.
From S2P Require Import Proxy.
From S2P Require Import Server.
From Stdlib Require Import SpecFloat.

(** [time.Sleep]. *)
Class Sleeper (E : Type) := sleep : Z -> E -> E.

Section world.
Context {E Conn : Type}.

Record World := mkWorld {
  env : E;
  registry : Registry;
  logs : LogSink;
  limiter : RateLimiter;
  rcache : Cache;
  upool : @Pool Conn;
}.

Definition withEnv (e : E) (w : World) : World :=
  mkWorld e (registry w) (logs w) (limiter w) (rcache w) (upool w).

#[export] Instance world_clock `{Clock E} : Clock World :=
  fun w => let (t, e) := timeNow (env w) in (t, withEnv e w).
#[export] Instance world_entropy `{Entropy E} : Entropy World :=
  fun n w => let (b, e) := randRead n (env w) in (b, withEnv e w).
#[export] Instance world_sleeper `{Sleeper E} : Sleeper World :=
  fun d w => withEnv (sleep d (env w)) w.
#[export] Instance world_network `{Network E Conn} : @Network World Conn := {
  netDial a d w := let (r, e) := netDial a d (env w) in (r, withEnv e w);
  netExchange c b w := let (r, e) := netExchange c b (env w) in (r, withEnv e w);
  netClose c w := withEnv (netClose c (env w)) w;
  errText := errText (W := E);
}.

#[export, refine] Instance lens_registry : Lens World Registry :=
  {| view := registry; put r w := mkWorld (env w) r (logs w) (limiter w) (rcache w) (upool w) |}.
Proof. all: by repeat intros []. Defined.
#[export, refine] Instance lens_logs : Lens World LogSink :=
  {| view := logs; put l w := mkWorld (env w) (registry w) l (limiter w) (rcache w) (upool w) |}.
Proof. all: by repeat intros []. Defined.
#[export, refine] Instance lens_limiter : Lens World RateLimiter :=
  {| view := limiter; put l w := mkWorld (env w) (registry w) (logs w) l (rcache w) (upool w) |}.
Proof. all: by repeat intros []. Defined.
#[export, refine] Instance lens_cache : Lens World Cache :=
  {| view := rcache; put c w := mkWorld (env w) (registry w) (logs w) (limiter w) c (upool w) |}.
Proof. all: by repeat intros []. Defined.
#[export, refine] Instance lens_pool : Lens World (@Pool Conn) :=
  {| view := upool; put p w := mkWorld (env w) (registry w) (logs w) (limiter w) (rcache w) p |}.
Proof. all: by repeat intros []. Defined.
End world.
Arguments World : clear implicits.

(** ** The demo routes *)

(** [json.Marshal] of the values below cannot fail. *)
Definition mustJSON (v : json) : bytes := jsonEncode v.

(** [fmt.Sprintf("user-%04d", id)]. *)
Definition userName (id : Z) : bytes :=
  $"user-" ++ (if id <? 0 then $"-" ++ pad 3 (- id) else pad 4 id).

(** [fmt.Sprint] of a value of [req.Meta]. *)
Definition sprintMeta (v : option metaValue) : bytes :=
  match v with
  | None => $"<nil>"
  | Some (MetaStr s) => s
  | Some (MetaRole r) => Itoa r
  end.

(** [sum] after [n] more rounds. *)
Definition hashRounds (n : Z) (sum : bytes) : bytes := Nat.iter (Z.to_nat n) Sum256 sum.

Section api.
Context {W : Type} `{GoRuntime} `{Clock W} `{Sleeper W} `{Lens W Registry}.

Definition indexHandler : Handler W := respond (fun _ w => JSON w 200 (mustJSON (jsonMap [
  ($"service", JString $"PulseHTTP");
  ($"proto", JString $"HTTP/1.1 from raw TCP");
  ($"routes", JList (JString <$> [
    $"GET /healthz"; $"GET /metrics"; $"GET /api/users/:id";
    $"POST /api/echo"; $"GET /api/heavy?n="; $"GET /api/slow?ms=";
    $"GET /api/private/profile"; $"GET /admin/stats"; $"GET /boom"]))]))).

Definition healthz : Handler W := respond (fun _ w =>
  JSON w 200 ($"{" ++ [dquote] ++ $"status" ++ [dquote] ++ $":" ++ [dquote] ++ $"ok" ++ [dquote] ++ $"}")).

Definition usersHandler : Handler W := respond (fun req w =>
  match Atoi (default [] (PathParams req !! $"id")) with
  | (_, Some _) => Error w StatusBadRequest $"user id must be numeric"
  | (id, None) =>
    JSON w 200 (mustJSON (jsonMap [
      ($"id", JInt id); ($"name", JString (userName id)); ($"active", JBool (Z.rem id 2 =? 0))]))
  end).

Definition echoHandler : Handler W := respond (fun req w =>
  Write (WriteHeader (setHeader w $"Content-Type" (Get (ReqHeaders req) $"Content-Type")) 200) (Body req)).

Definition heavyRounds (req : Request) : Z :=
  let n := (Atoi (QueryGet (Query req) $"n")).1 in
  if n <=? 0 then 20000 else n.

Definition heavyHandler : Handler W := respond (fun req w =>
  let n := heavyRounds req in
  let sum := hashRounds n (Sum256 $"pulse") in
  JSON w 200 (mustJSON (jsonMap [
    ($"rounds", JInt n); ($"digest", JString (hexEncode (firstn 8 sum)))]))).

Definition slowMillis (req : Request) : Z :=
  let ms := (Atoi (QueryGet (Query req) $"ms")).1 in
  let ms := if ms <=? 0 then 100 else ms in
  if 10000 <? ms then 10000 else ms.

Definition slowHandler : Handler W := fun x =>
  let ms := slowMillis (xreq x) in
  let x := withSt (sleep (wrap64 (ms * 1000000)) (xst x)) x in
  respond (fun _ w => JSON w 200 (mustJSON (jsonMap [($"slept_ms", JInt ms)]))) x.

Definition profileHandler : Handler W := respond (fun req w =>
  JSON w 200 (mustJSON (jsonMap [
    ($"role", JString (sprintMeta (Meta req !! $"role"))); ($"plan", JString $"pro")]))).

Definition boomHandler : Handler W := fun x => (Panicked, x).

Definition apiRouter : Router W :=
  let r := Router.New in
  let r := GET r $"/" indexHandler in
  let r := GET r $"/healthz" healthz in
  let r := GET r $"/metrics" MetricsHandler in
  let r := GET r $"/api/users/:id" usersHandler in
  let r := POST r $"/api/echo" echoHandler in
  let r := GET r $"/api/heavy" heavyHandler in
  let r := GET r $"/api/slow" slowHandler in
  let r := GET r $"/api/private/profile" profileHandler in
  let r := GET r $"/admin/stats" MetricsHandler in
  GET r $"/boom" boomHandler.

Definition buildAPI : Handler W := Serve apiRouter.
End api.

(** ** [main] *)

Definition demoTokens : gmap bytes Z :=
  <[$"user-alpha-token" := RoleUser]> (<[$"admin-omega-token" := RoleAdmin]> ∅).

Definition demoRole (path : bytes) : Z :=
  if HasPrefix path $"/admin/" then RoleAdmin
  else if HasPrefix path $"/api/private/" then RoleUser
  else RoleAnonymous.

Definition demoAuth : AuthConfig := {| Tokens := demoTokens; RequiredRole := demoRole |}.

(** The flags; [fTLS] is the key pair asked for and whether it loads. *)
Record Flags := mkFlags {
  fAddr : bytes;
  fMode : bytes;
  fUpstreams : bytes;
  fStrategy : bytes;
  fRate : float;
  fBurst : float;
  fCacheCap : Z;
  fCacheTTL : Z;
  fQuiet : bool;
  fTLS : option bool;
}.

Section main.
Context {E Conn : Type} `{GoRuntime} `{Clock E} `{Entropy E} `{Sleeper E} `{Network E Conn}.

Definition poolConfig (f : Flags) : Proxy.Config :=
  Proxy.mkConfig (Split (fUpstreams f) comma) (fStrategy f) 0 0 0 0 0 0.

Definition limiterConfig (f : Flags) : RateLimitConfig :=
  mkRateLimitConfig (fRate f) (fBurst f) defaultKey.

(** [*rate > 0]. *)
Definition rateOn (f : Flags) : bool := SFltb (ofInt 0) (fRate f).

Definition mainMiddlewares (f : Flags) : list (Middleware (World E Conn)) :=
  let mws := [MetricsMiddleware] in
  let mws := if fQuiet f then mws else mws ++ [Logging] in
  let mws := mws ++ [RequestID; Recover] in
  let mws := if rateOn f then mws ++ [RateLimit (limiterConfig f)] else mws in
  if beq (fMode f) $"server" then
    let mws := mws ++ [BearerAuth demoAuth] in
    if 0 <? fCacheCap f then mws ++ [CacheMiddleware] else mws
  else mws.

Definition mainHandler (f : Flags) : Handler (World E Conn) :=
  Chain (if beq (fMode f) $"proxy" then ProxyHandler else buildAPI) (mainMiddlewares f).

(** The components [main] allocates; those the flags turn off are never used. *)
Definition mainWorld (f : Flags) (e : E) : World E Conn :=
  let (now, e) := timeNow e in
  mkWorld e (NewRegistry now) (mkLogSink []) NewRateLimiter
    (Cache.New (fCacheCap f) (fCacheTTL f))
    (NewPool (poolConfig f)).

Definition mainConfig (f : Flags) : Server.Config (World E Conn) :=
  Server.withDefaults (Server.mkConfig (fAddr f) (mainHandler f) (mkLimits 0 0 0 0 0) 0 0 0 0 0).

(** [main] up to [ListenAndServe]: an exit status, or the server it starts. *)
Definition mainStart (f : Flags) (e : E) : Z + (Server.Config (World E Conn) * World E Conn) :=
  if decide (fTLS f = Some false) then inl 2
  else if beq (fMode f) $"proxy" && beq (fUpstreams f) [] then inl 2
  else inr (mainConfig f, mainWorld f e).

End main.
