(* ===== verification/GoFmt.v ===== *)
(** * fmt: fixed-point decimals

    [fmt]'s [%.2f] and [%.0f]: the decimal nearest to the exact value of a
    [float64], ties to even, as [strconv.FormatFloat] rounds them. *)

From S2P Require Import Prelude.
From S2P Require Import GoStrings.
From S2P Require Import GoFloat.
From S2P Require Import GoTime.
From Stdlib Require Import SpecFloat.

(** [num / den] to the nearest integer, ties to even. *)
Definition roundQ (num den : Z) : Z :=
  let q := num / den in
  let r := num mod den in
  if 2 * r <? den then q else if den <? 2 * r then q + 1 else if Z.even q then q else q + 1.

(** [n / 10^prec] with [prec] digits after the point. *)
Definition fixedDec (prec : nat) (n : Z) : bytes :=
  let p := 10 ^ Z.of_nat prec in
  Itoa (n / p) ++ match prec with O => [] | _ => $"." ++ pad prec (n mod p) end.

Definition sign (s : bool) : bytes := if s then $"-" else [].

(** [m * 2^e] in units of [10^-prec]. *)
Definition decimalUnits (prec : nat) (m : positive) (e : Z) : Z :=
  let n := Zpos m * 10 ^ Z.of_nat prec in
  if 0 <=? e then Z.shiftl n e else roundQ n (2 ^ (- e)).

Definition fmtFixed (prec : nat) (x : float) : bytes :=
  match x with
  | S754_nan => $"NaN"
  | S754_infinity s => (if s then $"-" else $"+") ++ $"Inf"
  | S754_zero s => sign s ++ fixedDec prec 0
  | S754_finite s m e => sign s ++ fixedDec prec (decimalUnits prec m e)
  end.

Lemma roundQ_exact n den : 0 < den -> roundQ (n * den) den = n.
Proof. intros Hd. unfold roundQ. rewrite Z.div_mul, Z_mod_mult by lia. destruct (Z.ltb_spec (2 * 0) den); lia. Qed.

(** The printed decimal is within half a unit of the value. *)
Lemma roundQ_near num den : 0 < den -> Z.abs (2 * (roundQ num den * den - num)) <= den.
Proof.
  intros Hd. unfold roundQ. pose proof (Z.div_mod num den ltac:(lia)). pose proof (Z.mod_pos_bound num den Hd).
  destruct (Z.ltb_spec (2 * (num mod den)) den); [nia|]. destruct (Z.ltb_spec den (2 * (num mod den))); [nia|].
  destruct (Z.even (num / den)); nia.
Qed.

(** Integers print as integers. *)
Lemma fmtFixed_canon prec n : 0 <= n < 2 ^ 53 -> fmtFixed prec (canon n) = fixedDec prec (n * 10 ^ Z.of_nat prec).
Proof.
  intros Hn. destruct n as [|p|p]; [done| |lia]. canon_digits. cbn [canon fmtFixed sign app].
  destruct (mant_spec p) as [E _]; [done|]. f_equal. unfold decimalUnits. rewrite E.
  pose proof (Z.pow_pos_nonneg 2 (53 - dig p) ltac:(lia) ltac:(lia)).
  destruct (Z.leb_spec 0 (dig p - 53)) as [He|He].
  - replace (dig p - 53) with 0 by lia. replace (53 - dig p) with 0 by lia. rewrite Z.shiftl_0_r. lia.
  - replace (- (dig p - 53)) with (53 - dig p) by lia. rewrite <- (roundQ_exact (Zpos p * 10 ^ Z.of_nat prec) (2 ^ (53 - dig p))) by lia.
    f_equal. lia.
Qed.

Lemma fixedDec_int prec n : 0 <= n -> fixedDec prec (n * 10 ^ Z.of_nat prec) =
  Itoa n ++ match prec with O => [] | _ => $"." ++ pad prec 0 end.
Proof.
  intros Hn. unfold fixedDec. cbv zeta. pose proof (Z.pow_pos_nonneg 10 (Z.of_nat prec) ltac:(lia) ltac:(lia)).
  by rewrite Z.div_mul, Z_mod_mult by lia.
Qed.

Example fmtFixed_ties :
  fmtFixed 2 (fdiv (ofInt 1) (ofInt 8)) = $"0.12" /\ fmtFixed 2 (fdiv (ofInt 3) (ofInt 8)) = $"0.38" /\
  fmtFixed 2 (fdiv (ofInt 2675) (ofInt 1000)) = $"2.67" /\ fmtFixed 0 (fdiv (ofInt 5) (ofInt 2)) = $"2" /\
  fmtFixed 2 (fdiv (ofInt (-1)) (ofInt 1000)) = $"-0.00" /\ fmtFixed 0 (fdiv (ofInt 7) (ofInt 0)) = $"+Inf" /\
  fmtFixed 0 (fdiv (ofInt 0) (ofInt 0)) = $"NaN" /\ fmtFixed 2 (ofInt 1234567) = $"1234567.00".
Proof. split_and!; by vm_compute. Qed.
