(* ===== verification/Bench.v ===== *)
(** * cmd/pulsebench/main.go: the load generator

    A worker's connection keeps the bytes its [bufio.Reader] holds beyond the
    last response.  [loadStep] lets one worker take its next step: the atomic
    [remaining.Add(-1)], or the exchange that it paid for. *)

From stdpp Require Import fin_maps.
From S2P Require Import Prelude.
From S2P Require Import GoStrings.
From S2P Require Import GoFloat.
From S2P Require Import GoIO.
From S2P Require Import GoTime.
From S2P Require Import GoFmt.
From S2P Require Import GoJSON.
From S2P Require Import Handler.
From S2P Require Import Metrics.
From Stdlib Require Import SpecFloat.

(** [-url]: the host and port, and the path. *)
Definition splitTarget (target : bytes) : bytes * bytes :=
  let '(hostport, path, _) := Cut target slash in (hostport, $"/" ++ path).

Definition buildRequest (hostport path extra : bytes) : bytes :=
  $"GET " ++ path ++ $" HTTP/1.1" ++ CRLF ++
  $"Host: " ++ hostport ++ CRLF ++
  $"User-Agent: pulsebench/1.0" ++ CRLF ++
  foldl (fun b h => let h := TrimSpace h in if beq h [] then b else b ++ h ++ CRLF) [] (Split extra ";") ++
  CRLF.

(** ** Reading a response *)

Inductive benchErr :=
| BenchIO (e : ioerr)
| BadLine (line : bytes)
| BadStatus (s : bytes)
| BenchNoFuel.

(** [io.CopyN(io.Discard, br, n)]. *)
Definition discardN (r : reader) (n : Z) : option ioerr * reader :=
  if n <=? len (rest r) then (None, advance r (Z.to_nat n))
  else (Some (ending r), advance r (length (rest r))).

(** The header section: the last [Content-Length] in it.  Each line takes at
    least a byte. *)
Fixpoint benchHeaders (fuel : nat) (r : reader) (contentLength : Z) : (Z + benchErr) * reader :=
  match fuel with
  | O => (inr BenchNoFuel, r)
  | S fuel' =>
    match ReadString r with
    | (_, Some e, r) => (inr (BenchIO e), r)
    | (line, None, r) =>
      let line := TrimRight line CRLF in
      if beq line [] then (inl contentLength, r)
      else
        let '(name, val, ok) := Cut line colon in
        if ok && EqualFold name $"Content-Length"
        then benchHeaders fuel' r (Atoi (TrimSpace val)).1
        else benchHeaders fuel' r contentLength
    end
  end.

Definition readResponse (r : reader) : (Z + benchErr) * reader :=
  match ReadString r with
  | (_, Some e, r) => (inr (BenchIO e), r)
  | (statusLine, None, r) =>
    match SplitN statusLine sp 3 with
    | _ :: code :: _ =>
      match Atoi code with
      | (_, Some _) => (inr (BadStatus code), r)
      | (status, None) =>
        match benchHeaders (S (length (rest r))) r 0 with
        | (inr e, r) => (inr e, r)
        | (inl contentLength, r) =>
          if 0 <? contentLength then
            match discardN r contentLength with
            | (Some e, r) => (inr (BenchIO e), r)
            | (None, r) => (inl status, r)
            end
          else (inl status, r)
        end
      end
    | _ => (inr (BadLine statusLine), r)
    end
  end.

(** ** Workers *)

Record result := mkResult {
  latencies : list Z;
  statuses : gmap Z Z;
  errors : Z;
}.

Definition addError (r : result) : result :=
  {| latencies := latencies r; statuses := statuses r; errors := wrap64 (errors r + 1) |}.

Definition addSample (dur status : Z) (r : result) : result :=
  {| latencies := latencies r ++ [dur];
     statuses := <[status := wrap64 (default 0 (statuses r !! status) + 1)]> (statuses r);
     errors := errors r |}.

Inductive workerPc := AtAdd | AtExchange | WorkerDone.

Section bench.
Context {E Conn : Type}.

(** Dialling; a request written and what arrives before the deadline, with how
    the stream then ends; closing. *)
Class BenchNet := {
  benchDial : bytes -> Z -> E -> (Conn + ioerr) * E;
  benchSend : Conn -> bytes -> E -> (option ioerr * (bytes * ioerr)) * E;
  benchClose : Conn -> E -> E;
}.

Record worker := mkWorker {
  wpc : workerPc;
  wconn : option (Conn * bytes);
  wres : result;
}.

Definition newWorker : worker := mkWorker AtAdd None (mkResult [] ∅ 0).

Context `{BenchNet} `{Clock E}.
Variables (hostport request : bytes) (keepAlive : bool).

(** One turn of the worker's loop, after it got a request to send. *)
Definition exchange (w : worker) (st : E) : worker * E :=
  let failed st := (mkWorker AtAdd None (addError (wres w)), st) in
  let '(c, st) :=
    match wconn w with
    | Some c => (Some c, st)
    | None =>
      match benchDial hostport (2 * Second) st with
      | (inl c, st) => (Some (c, []), st)
      | (inr _, st) => (None, st)
      end
    end in
  match c with
  | None => failed st
  | Some (c, buffered) =>
    let (_, st) := timeNow st in
    let (t0, st) := timeNow st in
    match benchSend c request st with
    | (Some _, _, st) => failed (benchClose c st)
    | (None, (arrived, e), st) =>
      match readResponse (mkReader (buffered ++ arrived) e (Z.to_nat (Z.shiftl 32 10))) with
      | (inr _, _) => failed (benchClose c st)
      | (inl status, r) =>
        let (t1, st) := timeNow st in
        let res := addSample (timeSub t1 t0) status (wres w) in
        if keepAlive then (mkWorker AtAdd (Some (c, rest r)) res, st)
        else (mkWorker AtAdd None res, benchClose c st)
      end
    end
  end.

Record Load := mkLoad {
  remaining : Z;
  workers : list worker;
  lenv : E;
}.

(** Worker [i] takes its next step; [None] when there is none to take. *)
Definition loadStep (i : nat) (l : Load) : option Load :=
  w ← workers l !! i;
  match wpc w with
  | AtAdd =>
    let n := wrap64 (remaining l - 1) in
    if 0 <=? n then Some (mkLoad n (<[i := mkWorker AtExchange (wconn w) (wres w)]> (workers l)) (lenv l))
    else
      let st := match wconn w with Some (c, _) => benchClose c (lenv l) | None => lenv l end in
      Some (mkLoad n (<[i := mkWorker WorkerDone None (wres w)]> (workers l)) st)
  | AtExchange =>
    let (w, st) := exchange w (lenv l) in
    Some (mkLoad (remaining l) (<[i := w]> (workers l)) st)
  | WorkerDone => None
  end.

(** The load before its workers start; a negative [conc] panics. *)
Definition startLoad (conc total : Z) (st : E) : option Load :=
  if conc <? 0 then None else Some (mkLoad total (replicate (Z.to_nat conc) newWorker) st).

(** [wg.Wait()] returns when every worker is done. *)
Definition loadDone (l : Load) : bool :=
  forallb (fun w => match wpc w with WorkerDone => true | _ => false end) (workers l).

(** The workers scheduled by [sched]. *)
Definition runSchedule (sched : list nat) (l : Load) : option Load :=
  foldl (fun o i => l ← o; loadStep i l) (Some l) sched.

(** [runLoad] under a schedule that lets every worker finish. *)
Definition runLoad (conc total : Z) (sched : list nat) (st : E) : option (list result * E) :=
  l ← startLoad conc total st;
  l ← runSchedule sched l;
  if loadDone l then Some (wres <$> workers l, lenv l) else None.

End bench.
Arguments worker : clear implicits.
Arguments Load : clear implicits.

(** ** The report *)

Definition allLatencies (rs : list result) : list Z := merge_sort Z.le (rs ≫= latencies).

Definition mergeStatuses (m : gmap Z Z) (r : result) : gmap Z Z :=
  map_fold (fun s n m => <[s := wrap64 (default 0 (m !! s) + n)]> m) m (statuses r).

Definition totalErrors (rs : list result) : Z := foldl (fun n r => wrap64 (n + errors r)) 0 rs.

(** [pct(p)] of the sorted samples; [None] is an index out of range. *)
Definition pct `{GoRuntime} (all : list Z) (p : float) : option Z :=
  if len all =? 0 then Some 0
  else
    let idx := wrap64 (toInt (fmul p (ofInt (len all))) - 1) in
    let idx := if idx <? 0 then 0 else idx in
    let idx := if len all <=? idx then len all - 1 else idx in
    if idx <? 0 then None else all !! Z.to_nat idx.

Definition avg (sum n : Z) : Z := if n =? 0 then 0 else Z.quot sum n.

Definition msf (d : Z) : float := fdiv (ofInt (Microseconds d)) (ofInt 1000).

Record Report := mkReport {
  completed : Z;
  rerrors : Z;
  elapsedSec : float;
  rps : float;
  rstatuses : gmap Z Z;
  dAvg : Z; d50 : option Z; d90 : option Z; d99 : option Z; d999 : option Z; dMax : option Z;
}.

(** A constant such as 0.999 is the nearest [float64]. *)
Definition permille (n : Z) : float := fdiv (ofInt n) (ofInt 1000).

Definition report `{GoRuntime} (rs : list result) (elapsed : Z) : Report :=
  let all := allLatencies rs in
  let sum := foldl (fun s d => wrap64 (s + d)) 0 all in
  let n := len all in
  {| completed := n;
     rerrors := totalErrors rs;
     elapsedSec := Seconds elapsed;
     rps := fdiv (ofInt n) (Seconds elapsed);
     rstatuses := foldl mergeStatuses ∅ rs;
     dAvg := avg sum n;
     d50 := pct all (permille 500);
     d90 := pct all (permille 900);
     d99 := pct all (permille 990);
     d999 := pct all (permille 999);
     dMax := pct all (ofInt 1) |}.

(** [-json]: the object the report is encoded to, members sorted as
    [encoding/json] sorts the keys of a map; nothing when a number is not
    finite, which the encoder refuses. *)
Definition reportJSON `{GoRuntime} (r : Report) (conc : Z) (keepAlive : bool) : option bytes :=
  let num (d : option Z) := msf (default 0 d) in
  let object (l : list (bytes * bytes)) :=
    $"{" ++ Join ((fun '(k, v) => jsonString k ++ $":" ++ v) <$> merge_sort key_le l) $"," ++ $"}" in
  let lat := [($"avg", msf (dAvg r)); ($"p50", num (d50 r)); ($"p90", num (d90 r));
              ($"p99", num (d99 r)); ($"p999", num (d999 r)); ($"max", num (dMax r))] in
  if forallb finite ([elapsedSec r; rps r] ++ lat.*2) then
    Some (object [
      ($"completed", Itoa (completed r)); ($"errors", Itoa (rerrors r));
      ($"elapsed_sec", formatFloat (elapsedSec r)); ($"rps", formatFloat (rps r));
      ($"connections", Itoa conc); ($"keepalive", if keepAlive then $"true" else $"false");
      ($"statuses", object ((fun '(s, n) => (Itoa s, Itoa n)) <$> map_to_list (rstatuses r)));
      ($"latency_ms", object ((fun '(k, x) => (k, formatFloat x)) <$> lat))] ++ [nl])
  else None.

(** The plain report.  A percentile is always in range ([pct_in_range]). *)
Definition ms (d : Z) : bytes := fmtFixed 2 (msf d) ++ $"ms".

Definition sortedStatuses (m : gmap Z Z) : list Z := merge_sort Z.le (map_to_list m).*1.

Definition reportText (r : Report) (conc : Z) (keepAlive : bool) : bytes :=
  let q d := ms (default 0 d) in
  $"Requests     " ++ Itoa (completed r) ++ $" completed, " ++ Itoa (rerrors r) ++ $" errors in " ++
    fmtFixed 2 (elapsedSec r) ++ $"s" ++ [nl] ++
  $"Throughput   " ++ fmtFixed 0 (rps r) ++ $" req/s  (" ++ Itoa conc ++ $" conns, keepalive=" ++
    (if keepAlive then $"true" else $"false") ++ $")" ++ [nl] ++
  $"Latency      avg " ++ ms (dAvg r) ++ $" | p50 " ++ q (d50 r) ++ $" | p90 " ++ q (d90 r) ++
    $" | p99 " ++ q (d99 r) ++ $" | p99.9 " ++ q (d999 r) ++ $" | max " ++ q (dMax r) ++ [nl] ++
  $"Statuses     " ++
    (sortedStatuses (rstatuses r) ≫= fun s => Itoa s ++ $":" ++ Itoa (default 0 (rstatuses r !! s)) ++ $"  ") ++ [nl].

(** ** [main] *)

Record BenchFlags := mkBenchFlags {
  bTarget : bytes;
  bConc : Z;
  bTotal : Z;
  bKeepAlive : bool;
  bWarmup : Z;
  bHdrs : bytes;
  bJSON : bool;
}.

Definition defaultBenchFlags : BenchFlags :=
  mkBenchFlags $"127.0.0.1:8080/" 50 100000 true 1000 [] false.

Definition warmupConc (conc : Z) : Z := Z.min conc 8.

(** [main] under the schedules of its two loads: what it prints.  An encoding
    error of the JSON report is dropped. *)
Definition benchMain `{GoRuntime} {E Conn : Type} `{@BenchNet E Conn} `{Clock E}
    (f : BenchFlags) (warmSched sched : list nat) (st : E) : option (bytes * E) :=
  let '(hostport, path) := splitTarget (bTarget f) in
  let request := buildRequest hostport path (bHdrs f) in
  st ← (if 0 <? bWarmup f
        then snd <$> runLoad hostport request (bKeepAlive f) (warmupConc (bConc f)) (bWarmup f) warmSched st
        else Some st);
  let (start, st) := timeNow st in
  '(results, st) ← runLoad hostport request (bKeepAlive f) (bConc f) (bTotal f) sched st;
  let (now, st) := timeNow st in
  let r := report results (timeSub now start) in
  Some (if bJSON f then default [] (reportJSON r (bConc f) (bKeepAlive f)) else reportText r (bConc f) (bKeepAlive f), st).
