(* ===== verification/Examples.v ===== *)
(** * Concrete requests and worlds

    The inputs the examples and witnesses of the development run on. *)

From S2P Require Import Prelude GoStrings GoIO GoURL Headers Status Request RequestFacts RequestRoundtrip Response Handler.

Definition exampleInput : bytes :=
  $"POST /a%20b?x=1 HTTP/1.1" ++ CRLF ++ $"hosT: h" ++ CRLF ++ $"Content-Length: 2" ++ CRLF ++
  CRLF ++ $"hiGET".

Lemma sane_DefaultLimits : sane DefaultLimits.
Proof. constructor; vm_compute; split || idtac; congruence. Qed.

Definition exampleHeaders : Headers :=
  Add (Add (Add NewHeaders $"Host" $"h") $"X-A" $"1") $"x-a" $"two words".

Lemma exampleHeaders_facts :
  wf exampleHeaders /\ canonicalKeys exampleHeaders /\ cleanHeaders exampleHeaders.
Proof.
  unfold exampleHeaders. split_and!; auto with pulse.
  - repeat apply canonicalKeys_Add. constructor.
  - repeat apply cleanHeaders_Add; [apply map_Forall_empty|..];
      repeat split; try (by vm_compute); intros Hx; absurd_elem Hx.
Qed.

Definition exampleRequest : Request :=
  match (@ParseRequest exampleRuntime DefaultLimits $"1.2.3.4:5" (mkReader exampleInput EOF 16)).1 with
  | Ret req => req
  | _ => mkRequest [] [] [] [] ∅ NewHeaders [] [] ∅ ∅
  end.

Lemma exampleRequest_accepted : accepted DefaultLimits $"1.2.3.4:5" exampleRequest.
Proof.
  unfold exampleRequest.
  destruct (@ParseRequest exampleRuntime DefaultLimits $"1.2.3.4:5" (mkReader exampleInput EOF 16))
    as [[req| | |] r'] eqn:E; [|by vm_compute in E..].
  eapply (@ParseRequest_Ret DefaultLimits sane_DefaultLimits exampleRuntime);
    [|exact E]. simpl. lia.
Qed.


Lemma exampleRequest_framed : framed exampleRequest.
Proof. split; [by vm_compute|]. left. by vm_compute. Qed.

Lemma exampleRequest_canonical : canonicalKeys (ReqHeaders exampleRequest).
Proof. unfold canonicalKeys. refine (bool_decide_unpack _ _). by vm_compute. Qed.

Lemma exampleRequest_fit : headersFit DefaultLimits (flat (entries (ReqHeaders exampleRequest))).
Proof.
  constructor; [refine (bool_decide_unpack _ _); by vm_compute|]. vm_compute. congruence.
Qed.

(** A world that is only a clock. *)
#[export] Instance ClockZ : Clock Z := fun t => (t, t + 1).

(** A handler that panics at once. *)
Definition panics {W} : Handler W := fun x => (Panicked, x).
