(* ===== verification/RequestProps.v ===== *)
(** * Properties of the request parser *)

From S2P Require Import Prelude GoStrings GoIO GoURL Headers Status Request RequestFacts RequestRoundtrip Examples.

(** C20: [readBoundedLine] does not depend on the buffer size: it returns the
    bytes before the first newline, without the line terminator, exactly when
    they fit [max] with the newline; it fails with [errLineTooLong] exactly
    when more than [max] bytes precede the end of the line or of the stream;
    otherwise it fails with the stream's error. *)
Theorem readBoundedLine_spec (max : Z) (r : reader) :
  (0 < bufsize r)%nat ->
  match IndexByte (rest r) nl with
  | Some i =>
    if max <? Z.of_nat i + 1 then (readBoundedLine max r).1 = Raise errLineTooLong
    else readBoundedLine max r = (Ret (TrimSuffix (take i (rest r)) [cr]), advance r (S i))
  | None =>
    (readBoundedLine max r).1 =
      Raise (if max <? len (rest r) then errLineTooLong else ErrIO (ending r))
  end.
Proof.
  intros Hb. destruct (IndexByte (rest r) nl) as [i|] eqn:Ei.
  - destruct (IndexByte_split _ _ _ Ei) as (a & b & Er & Hn & <-).
    destruct (Z.ltb_spec max (Z.of_nat (length a) + 1)).
    + destruct (readBoundedLine_eq max r Hb) as [-> _]. unfold lineResult.
      rewrite Ei, len_nil. destruct (Z.ltb_spec max (0 + Z.of_nat (S (length a)))); [done|lia].
    + rewrite (readBoundedLine_line _ _ a b) by (done || unfold len; lia).
      unfold advance. by rewrite Er, take_app_length, drop_S_app.
  - destruct (readBoundedLine_eq max r Hb) as [-> _]. unfold lineResult.
    rewrite Ei, len_nil, Z.add_0_l. by destruct (max <? len (rest r)).
Qed.

Lemma readBoundedLine_spec_witness :
  let r := mkReader ($"Host: x" ++ CRLF ++ $"rest") EOF 4 in
  (0 < bufsize r)%nat /\
  readBoundedLine 20 r = (Ret $"Host: x", mkReader $"rest" EOF 4).
Proof.
  intros r. split; [simpl; lia|].
  pose proof (readBoundedLine_spec 20 r ltac:(simpl; lia)) as E. vm_compute in E.
  vm_compute. exact E.
Defined.



(** Every failure of the parser is the clean-close signal or a
    [*ParseError] whose status is 400, 413, 414, 431, 501 or 505. *)
Theorem ParseRequest_errors `{GoRuntime} (lim : Limits) (remoteAddr : bytes) (r r' : reader)
    (e : error) :
  sane lim -> (0 < bufsize r)%nat ->
  ParseRequest lim remoteAddr r = (Raise e, r') ->
  e = errCleanClose \/
  exists status reason cause, e = ParseError status reason cause /\
    status ∈ [400; 413; 414; 431; 501; 505].
Proof.
  intros Hs Hb E. by apply (ParseRequest_Raise lim Hs remoteAddr r e r').
Qed.

Lemma ParseRequest_errors_witness :
  let r := mkReader $"BREW / HTTP/1.1
" EOF 16 in
  exists e r', @ParseRequest exampleRuntime DefaultLimits [] r = (Raise e, r') /\
    (e = errCleanClose \/ exists status reason cause, e = ParseError status reason cause /\
       status ∈ [400; 413; 414; 431; 501; 505]).
Proof.
  intros r. destruct (@ParseRequest exampleRuntime DefaultLimits [] r) as [o r'] eqn:E.
  destruct o as [|e| |]; [by vm_compute in E| |by vm_compute in E..].
  exists e, r'. split; [done|].
  eapply (@ParseRequest_errors exampleRuntime DefaultLimits [] r); [apply sane_DefaultLimits|simpl; lia|exact E].
Defined.

(** C19: the parser terminates on every input with the fuel it is given, and
    the only way it can panic is a chunk line whose size, added to the body
    bound, leaves the [int64] range. *)
Theorem ParseRequest_terminates `{GoRuntime} (lim : Limits) (remoteAddr : bytes) (r : reader) :
  sane lim -> (0 < bufsize r)%nat ->
  (ParseRequest lim remoteAddr r).1 <> NoFuel /\
  ((ParseRequest lim remoteAddr r).1 = GoPanic -> overflowingChunk lim (rest r)).
Proof.
  intros Hs Hb. by apply (ParseRequest_total lim Hs).
Qed.

Lemma ParseRequest_terminates_witness :
  let r := mkReader exampleInput NetTimeout 3 in
  sane DefaultLimits /\ (@ParseRequest exampleRuntime DefaultLimits [] r).1 <> NoFuel.
Proof.
  intros r. split; [apply sane_DefaultLimits|].
  apply (@ParseRequest_terminates exampleRuntime DefaultLimits [] r);
    [apply sane_DefaultLimits|simpl; lia].
Defined.

(** The sum [int64(len(body)) + size] can wrap: after a non-empty chunk
    [c], a chunk line whose size brings the sum to [2^63] or more passes the
    [MaxBodyBytes] test and panics in [make], whatever the limit is. *)
Theorem readChunkedBody_overflow_panics (lim : Limits) (c more : bytes) (size : Z) (e : ioerr)
    (b : nat) :
  sane lim -> 18 <= MaxHeaderLine lim -> (0 < b)%nat ->
  c <> [] -> len c <= MaxBodyBytes lim -> size < 2 ^ 63 -> 2 ^ 63 <= len c + size ->
  (readChunkedBody lim
     (mkReader (encodeChunk c ++ FormatInt size 16 ++ CRLF ++ more) e b)).1 = GoPanic.
Proof.
  intros Hs HL Hb Hc Hlc Hlt Hsum. pose proof (sane_body _ Hs) as Hmax. unfold maxAlloc in Hmax.
  unfold readChunkedBody, withFuel. cbn [rest].
  assert (exists n, length (encodeChunk c) = S (S n)) as [n En].
  { unfold encodeChunk. rewrite !length_app. simpl. eexists. by rewrite (Nat.add_comm _ (S (S _))). }
  rewrite length_app, En.
  rewrite chunkLoop_chunk by (done || rewrite ?len_nil; lia). cbn [plus chunkLoop app].
  rewrite (bind_Ret _ _ _ _ _ (sizeLine_eq lim HL size more e b Hb ltac:(lia))).
  fold (chunkSize (FormatInt size 16)). rewrite chunkSize_FormatInt by lia.
  rewrite bool_decide_false by congruence.
  destruct (Z.ltb_spec size 0); [lia|]. destruct (Z.eqb_spec size 0); [lia|]. cbn [orb].
  rewrite wrap64_overflow by lia.
  destruct (Z.ltb_spec (MaxBodyBytes lim) (len c + size - 2 ^ 64)); [lia|].
  unfold bind at 1, makeBytes, maxAlloc.
  destruct (Z.leb_spec 0 size); [|lia]. by destruct (Z.leb_spec size (2 ^ 48)); [lia|].
Qed.

Lemma readChunkedBody_overflow_panics_witness :
  (readChunkedBody DefaultLimits
     (mkReader (encodeChunk $"a" ++ FormatInt (2 ^ 63 - 1) 16 ++ CRLF ++ []) EOF 16)).1 = GoPanic.
Proof.
  apply (readChunkedBody_overflow_panics DefaultLimits $"a" [] (2 ^ 63 - 1) EOF 16);
    [apply sane_DefaultLimits|by vm_compute|lia|by vm_compute|by vm_compute|lia|].
  vm_compute. congruence.
Defined.

(** C21: decoding a chunked body returns the concatenation of the chunks that
    were encoded and leaves the reader at the byte after the coding. *)
Theorem readChunkedBody_roundtrip (lim : Limits) (cs : list bytes) (more : bytes) (e : ioerr)
    (b : nat) :
  sane lim -> 18 <= MaxHeaderLine lim -> (0 < b)%nat ->
  Forall (fun c => c <> []) cs -> len (concat cs) <= MaxBodyBytes lim ->
  readChunkedBody lim (mkReader (encodeChunked cs ++ more) e b) =
  (Ret (concat cs), mkReader more e b).
Proof.
  intros Hs HL Hb HF Hl. unfold readChunkedBody, withFuel.
  apply (chunkLoop_encoded lim HL Hs _ []); auto.
  simpl. unfold encodeChunked. rewrite !length_app. pose proof (length_encodeChunked cs). lia.
Qed.

Lemma readChunkedBody_roundtrip_witness :
  readChunkedBody DefaultLimits
    (mkReader (encodeChunked [$"hello"; $" world"] ++ $"GET /") EOF 16) =
  (Ret $"hello world", mkReader $"GET /" EOF 16).
Proof.
  rewrite (readChunkedBody_roundtrip DefaultLimits [$"hello"; $" world"] $"GET /" EOF 16);
    [done|apply sane_DefaultLimits|by vm_compute|lia|repeat constructor; done|by vm_compute].
Defined.

(** A printed header map followed by a blank line parses back to the same
    map, when its names are canonical, its entries are clean and it fits the
    limits. *)
Theorem headers_roundtrip (lim : Limits) (h : Headers) (more : bytes) (e : ioerr) (b : nat) :
  (0 < b)%nat -> wf h -> canonicalKeys h -> cleanHeaders h ->
  headersFit lim (flat (entries h)) -> 1 < MaxHeaderLine lim -> Len h <= MaxHeaderCount lim ->
  withFuel (fun fuel => headerLoop fuel lim NewHeaders 0)
    (mkReader (WriteTo h [] ++ CRLF ++ more) e b) = (Ret h, mkReader more e b).
Proof.
  intros Hb W HC HCl [FL FB] H1 HN. rewrite WriteTo_entries, <- headerWire_flat. cbn [app].
  unfold withFuel. rewrite headerLoop_wire; rewrite ?addAll_flat; auto using wf_New, flat_clean.
  simpl. rewrite length_app. pose proof (length_headerWire (flat (entries h))). lia.
Qed.

Lemma headers_roundtrip_witness :
  withFuel (fun fuel => headerLoop fuel DefaultLimits NewHeaders 0)
    (mkReader (WriteTo exampleHeaders [] ++ CRLF ++ $"body") EOF 16) =
  (Ret exampleHeaders, mkReader $"body" EOF 16).
Proof.
  destruct exampleHeaders_facts as (W & HC & HCl).
  apply (headers_roundtrip DefaultLimits exampleHeaders $"body" EOF 16); try done; try lia.
  - constructor; [repeat constructor|]; by vm_compute.
Defined.

(** C2: an accepted request with canonical header names and consistent
    framing survives the wire: printing it (the format the proxy forwards in)
    and parsing the result gives the same request and consumes exactly its
    bytes, so the next pipelined request starts where it should. *)
Theorem ParseRequest_roundtrip `{GoRuntime} (lim : Limits) (req : Request) (remoteAddr more : bytes)
    (e : ioerr) (b : nat) :
  sane lim -> (0 < b)%nat -> accepted lim remoteAddr req -> framed req ->
  canonicalKeys (ReqHeaders req) -> headersFit lim (flat (entries (ReqHeaders req))) ->
  1 < MaxHeaderLine lim ->
  len (requestLine (Method req) (RawTarget req) (Proto req)) + 1 < MaxRequestLine lim ->
  ParseRequest lim remoteAddr (mkReader (printRequest req ++ more) e b) =
  (Ret req, mkReader more e b).
Proof. intros. by apply ParseRequest_print. Qed.

Lemma ParseRequest_roundtrip_witness :
  @ParseRequest exampleRuntime DefaultLimits $"1.2.3.4:5"
    (mkReader (printRequest exampleRequest ++ $"GET") EOF 16) =
  (Ret exampleRequest, mkReader $"GET" EOF 16).
Proof.
  apply (@ParseRequest_roundtrip exampleRuntime DefaultLimits exampleRequest $"1.2.3.4:5" $"GET" EOF 16);
    [apply sane_DefaultLimits|lia|apply exampleRequest_accepted| | | |by vm_compute|by vm_compute].
  - apply exampleRequest_framed.
  - apply exampleRequest_canonical.
  - apply exampleRequest_fit.
Defined.
