(* ===== verification/ServerProps.v ===== *)
(** * Properties of the connection loop *)

From S2P Require Import Prelude GoStrings GoIO GoTime Headers GoURL Status Request RequestFacts RequestRoundtrip Response Handler Server Examples.

(** ** Pipelining: the reference behaviour *)

Section spec.
Context {W : Type} `{GoRuntime} `{Clock W}.
Variable h : Handler W.

(** The exchange of one request, and its response with [Connection: keep-alive]. *)
Definition exchange (req : Request) (st : W) : Exch W :=
  safeHandle h {| xreq := req; xw := withIsHead NewResponseWriter (beq (Method req) $"HEAD"); xst := st |}.

Fixpoint serveSpec (reqs : list Request) (st : W) : bytes * W :=
  match reqs with
  | [] => ([], st)
  | req :: reqs' =>
    let x := exchange req st in
    let (now, st) := timeNow (xst x) in
    let '(out, st) := serveSpec reqs' st in
    ((serialize (xw x) $"HTTP/1.1" true now).2 ++ out, st)
  end.

End spec.

(** A request that prints within the limits and parses back. *)
Record printable (lim : Limits) (remoteAddr : bytes) (req : Request) : Prop := {
  pr_accepted : accepted lim remoteAddr req;
  pr_framed : framed req;
  pr_canonical : canonicalKeys (ReqHeaders req);
  pr_fit : headersFit lim (flat (entries (ReqHeaders req)));
  pr_line : len (requestLine (Method req) (RawTarget req) (Proto req)) + 1 < MaxRequestLine lim;
}.

Section loop.
Context {W : Type} `{GoRuntime} `{Clock W}.
Variable cfg : Config W.
Variable remoteAddr : bytes.
Hypothesis Hsane : sane (CfgLimits cfg).
Hypothesis Hline : 1 < MaxHeaderLine (CfgLimits cfg).

Lemma printRequest_nonempty lim addr req :
  accepted lim addr req -> exists c s, printRequest req = c :: s.
Proof.
  intros HA. pose proof (ac_method _ _ _ HA) as HM. unfold printRequest, requestLine.
  destruct (Method req) as [|c m]; [by vm_compute in HM|]. simpl. eauto.
Qed.

(** One iteration of the loop on a request that parses. *)
Lemma serveLoop_parsed drain fuel served r req r' bw st :
  Peek1 r = None -> ParseRequest (CfgLimits cfg) remoteAddr r = (Ret req, r') -> accepts bw = None ->
  (drain served).1 = false \/ served = 0 ->
  let x := exchange (CfgHandler cfg) req st in
  let keepAlive := keepAliveAfter cfg (xreq x) (drain served).2 (served + 1) in
  let (now, st') := timeNow (xst x) in
  let bw' := mkWriter (sent bw ++ (serialize (xw x) $"HTTP/1.1" keepAlive now).2) None in
  serveLoop cfg remoteAddr drain (S fuel) served r bw st =
  if keepAlive
  then serveLoop cfg remoteAddr drain fuel (served + 1) r' bw' st'
  else mkConnResult bw' st' (served + 1) ResponseClose.
Proof.
  intros Hp EP Hbw Hd x keepAlive. cbn [serveLoop].
  assert ((drain served).1 && (0 <? served) = false) as ->.
  { destruct Hd as [->| ->]; [done|]. apply andb_false_r. }
  rewrite Hp, EP. fold (exchange (CfgHandler cfg) req st). fold x.
  fold keepAlive. destruct (timeNow (xst x)) as [now st']. unfold flushTo. rewrite Hbw.
  by destruct keepAlive.
Qed.

(** One iteration of the loop on a printed request that keeps the connection. *)
Lemma serveLoop_request drain fuel served req more e b bw st :
  (0 < b)%nat -> printable (CfgLimits cfg) remoteAddr req -> accepts bw = None ->
  (drain served).1 = false \/ served = 0 ->
  let x := exchange (CfgHandler cfg) req st in
  let keepAlive := keepAliveAfter cfg (xreq x) (drain served).2 (served + 1) in
  let (now, st') := timeNow (xst x) in
  let bw' := mkWriter (sent bw ++ (serialize (xw x) $"HTTP/1.1" keepAlive now).2) None in
  serveLoop cfg remoteAddr drain (S fuel) served (mkReader (printRequest req ++ more) e b) bw st =
  if keepAlive
  then serveLoop cfg remoteAddr drain fuel (served + 1) (mkReader more e b) bw' st'
  else mkConnResult bw' st' (served + 1) ResponseClose.
Proof.
  intros Hb [HA HF HC HFit HL]. apply serveLoop_parsed; [|by apply ParseRequest_print].
  destruct (printRequest_nonempty _ _ _ HA) as (c & s & Ep). by rewrite Ep.
Qed.

(** The whole pipeline. *)
Lemma serveLoop_pipelined drain reqs fuel served e b bw st :
  (0 < b)%nat -> (length reqs < fuel)%nat -> accepts bw = None ->
  MaxRequestsPerConn cfg = 0 -> (forall n, drain n = (false, false)) ->
  Forall (fun req => printable (CfgLimits cfg) remoteAddr req /\
    forall st, wantClose (xreq (exchange (CfgHandler cfg) req st)) = false) reqs ->
  serveLoop cfg remoteAddr drain fuel served (mkReader (reqs ≫= printRequest) e b) bw st =
  mkConnResult (mkWriter (sent bw ++ (serveSpec (CfgHandler cfg) reqs st).1) None)
    (serveSpec (CfgHandler cfg) reqs st).2 (served + len reqs) IdleClose.
Proof.
  intros Hb Hf Hbw Hmax Hd HF. revert fuel served bw st Hf Hbw.
  induction HF as [|req reqs [Hp Hw] HF IH]; intros [|fuel] served bw st Hf Hbw; simpl in Hf; try lia.
  - cbn [serveLoop]. rewrite Hd. simpl. rewrite app_nil_r, Z.add_0_r.
    by destruct bw; simpl in *; subst.
  - cbn [mbind list_bind].
    pose proof (serveLoop_request drain fuel served req (reqs ≫= printRequest) e b bw st Hb Hp Hbw) as E.
    rewrite Hd in E. specialize (E (or_introl eq_refl)). cbn [fst snd] in E.
    cbn [serveSpec].
    destruct (timeNow (xst (exchange (CfgHandler cfg) req st))) as [now st'] eqn:Et.
    unfold keepAliveAfter in E. rewrite Hw, Hmax in E. cbn [negb andb orb Z.eqb] in E.
    etransitivity; [exact E|]. rewrite IH; [|lia|reflexivity]. cbn [sent].
    destruct (serveSpec (CfgHandler cfg) reqs st') as [out st'']. cbn [fst snd].
    rewrite len_cons, <- app_assoc. f_equal. lia.
Qed.

End loop.

Lemma connReader_size : (0 < Z.to_nat (Z.shiftl 16 10))%nat.
Proof. replace (Z.shiftl 16 10) with 16384 by done. lia. Qed.

Lemma connReader_ok input e : (0 < bufsize (connReader input e))%nat.
Proof. apply connReader_size. Qed.

Lemma Peek1_conn input e : input <> [] -> Peek1 (connReader input e) = None.
Proof. destruct input; [intros Hn; by destruct Hn|intros _; reflexivity]. Qed.

(** A response the server writes on its own closes the connection. *)
Definition closingResponse (status now : Z) : bytes :=
  (serialize (errorResponse status) $"HTTP/1.1" false now).2.

(** What a parse error can be answered with. *)
Lemma parserErr_answer err :
  parserErr err -> errorStatus err ∈ [400; 408; 413; 414; 431; 501; 505] \/ err = errCleanClose.
Proof.
  intros [->|(s & reason & cause & -> & Hin')]; [by right|left].
  unfold errorStatus. simpl. unfold parseStatuses in Hin'. repeat case_match; set_solver.
Qed.

Section bounds.
Context {W : Type} `{GoRuntime} `{Clock W}.
Variable cfg : Config W.
Variable remoteAddr : bytes.
Hypothesis Hsane : sane (CfgLimits cfg).

Lemma ParseRequest_consumes r req r' :
  (0 < bufsize r)%nat -> ParseRequest (CfgLimits cfg) remoteAddr r = (Ret req, r') ->
  (length (rest r') < length (rest r))%nat /\ bufsize r' = bufsize r.
Proof.
  intros Hb E. split.
  2: { by destruct (ParseRequest_Ret (CfgLimits cfg) Hsane remoteAddr r req r' Hb E) as [_ [_ _ ?]]. }
  unfold ParseRequest in E.
  assert (wp (mapErr (readBoundedLine (MaxRequestLine (CfgLimits cfg))) (requestLineErr (CfgLimits cfg)))
    (fun _ r1 => (length (rest r1) < length (rest r))%nat /\ (0 < bufsize r1)%nat) (fun _ => True) False r) as W1.
  { apply wp_mapErr, wp_line; try done. intros a b Er _ _. simpl. rewrite Er, length_app. simpl. lia. }
  unfold bind, wp in *. destruct (mapErr _ _ r) as [[line| | |] r1]; try done.
  destruct W1 as [Hlt Hb1].
  destruct (Split line sp) as [|method [|target [|proto [|]]]]; try done.
  destruct (checkRequestLine method target proto) eqn:Ec; [done|].
  assert (wp (parseRest (CfgLimits cfg) remoteAddr method target proto)
    (fun _ r2 => (length (rest r2) <= length (rest r1))%nat) (fun _ => True) True r1) as W2.
  { unfold parseRest. wp_step. apply wp_withFuel. intros fuel Hf.
    eapply wp_mono; [apply (wp_headerLoop (CfgLimits cfg) fuel NewHeaders 0)|..]; try done.
    { destruct Hsane. by constructor; [apply wf_New|apply map_Forall_empty| |]. }
    intros h r2 [_ L1]. destruct (beq proto _ && _); [done|]. wp_step.
    eapply wp_mono; [apply wp_readBody; [done|by rewrite (later_buf _ _ L1)]| |done|done].
    intros body r3 [_ L2]. destruct (Cut target "?") as [[? ?] ?].
    apply later_length in L1, L2. destruct (PathUnescape _); [|done].
    destruct (ParseQuery _); [|done]. apply wp_ret. lia. }
  unfold wp in W2. rewrite E in W2. lia.
Qed.

(** The loop ends, serves at most [MaxRequestsPerConn] requests, and once the
    drain flag is up serves nothing new. *)
Lemma serveLoop_bounds drain fuel served br bw st :
  (length (rest br) < fuel)%nat -> (0 < bufsize br)%nat -> 0 <= served ->
  let res := serveLoop cfg remoteAddr drain fuel served br bw st in
  connEnded res <> LoopNoFuel /\ served <= connServed res /\
  (forall m, 0 < m -> MaxRequestsPerConn cfg = m -> served < m -> connServed res <= m) /\
  (forall k, 0 <= k -> served <= Z.max k 1 -> (forall n, k <= n -> drain n = (true, true)) ->
     connServed res <= Z.max k 1).
Proof.
  revert served br bw st. induction fuel as [|fuel IH]; intros served br bw st Hf Hb Hs; [lia|].
  cbn [serveLoop]. destruct ((drain served).1 && (0 <? served)) eqn:Ed; [simpl; split_and!; [done|lia..]|].
  destruct (Peek1 br); [simpl; split_and!; [done|lia..]|].
  destruct (ParseRequest (CfgLimits cfg) remoteAddr br) as [[req|e| |] br'] eqn:EP.
  2: { destruct e; try (destruct (writeError _ _ _)); simpl; split_and!; done || lia. }
  2: { simpl; split_and!; [done|lia..]. }
  2: { destruct (ParseRequest_total (CfgLimits cfg) Hsane remoteAddr br Hb) as [Hn _].
       by rewrite EP in Hn. }
  destruct (ParseRequest_consumes br req br' Hb EP) as [Hlt Hb'].
  set (x := safeHandle _ _). set (ka := keepAliveAfter _ _ _ _).
  assert (forall k, 0 <= k -> served <= Z.max k 1 -> (forall n, k <= n -> drain n = (true, true)) ->
    served + 1 <= Z.max k 1) as Hk.
  { intros k Hk1 Hk2 Hd. destruct (decide (served + 1 <= Z.max k 1)); [done|].
    rewrite (Hd served) in Ed by lia. simpl in Ed. apply Z.ltb_ge in Ed. lia. }
  destruct (timeNow (xst x)) as [now st']. destruct (flushTo _ _) as [[e|] bw'];
    [simpl; split_and!; try done; try lia; intros; by apply Hk|].
  destruct ka eqn:Eka; simpl; [|split_and!; try done; try lia; intros; by apply Hk].
  destruct (IH (served + 1) br' bw' st') as (I1 & I2 & I3 & I4); [lia|lia|lia|].
  split_and!; [done|lia| |intros k Hk1 Hk2 Hd; apply I4; [done|by apply Hk|done]].
  intros m Hm Em Hlt'. apply I3; [done|done|].
  unfold ka, keepAliveAfter in Eka. rewrite Em in Eka.
  apply andb_true_iff in Eka as [_ [Hz%Z.eqb_eq|Hz%Z.ltb_lt]%orb_true_iff]; lia.
Qed.

End bounds.

(** ** Properties *)

(** C12: pipelined keep-alive requests are answered one by one, in order: the
    bytes sent are the concatenation of the responses of the handler run on
    each request in turn, and the connection then waits for the next byte. *)
Theorem serveConn_pipelined {W : Type} `{GoRuntime} `{Clock W} (cfg : Config W)
    (remoteAddr : bytes) (drain : Z -> bool * bool) (reqs : list Request) (e : ioerr) (st : W) :
  sane (CfgLimits cfg) -> 1 < MaxHeaderLine (CfgLimits cfg) -> MaxRequestsPerConn cfg = 0 ->
  (forall n, drain n = (false, false)) ->
  Forall (fun req => printable (CfgLimits cfg) remoteAddr req /\
    forall st, wantClose (xreq (exchange (CfgHandler cfg) req st)) = false) reqs ->
  serveConn cfg remoteAddr drain (reqs ≫= printRequest) e (mkWriter [] None) st =
  mkConnResult (mkWriter (serveSpec (CfgHandler cfg) reqs st).1 None)
    (serveSpec (CfgHandler cfg) reqs st).2 (len reqs) IdleClose.
Proof.
  intros Hs Hl Hm Hd HF. unfold serveConn, connReader.
  rewrite (serveLoop_pipelined cfg remoteAddr Hs Hl); auto using connReader_size.
  enough (length reqs <= length (reqs ≫= printRequest))%nat by lia.
  clear -HF. induction HF as [|req reqs [[HA _ _ _ _] _] HF IH]; [done|].
  change ((req :: reqs) ≫= printRequest) with (printRequest req ++ (reqs ≫= printRequest)).
  rewrite length_app. destruct (printRequest_nonempty _ _ _ HA) as (c & s & ->). simpl length. lia.
Qed.

Definition echoHandler : Handler Z := respond (fun req w => Write w (Body req)).

Definition exampleConfig (h : Handler Z) : Config Z :=
  mkConfig $":8080" h DefaultLimits 0 0 0 0 0.

Lemma exampleRequest_printable : printable DefaultLimits $"1.2.3.4:5" exampleRequest.
Proof.
  constructor; auto using exampleRequest_accepted, exampleRequest_framed,
    exampleRequest_canonical, exampleRequest_fit. by vm_compute.
Qed.

Lemma serveConn_pipelined_witness :
  connServed (@serveConn Z exampleRuntime _ (exampleConfig echoHandler) $"1.2.3.4:5"
    (fun _ => (false, false)) ([exampleRequest; exampleRequest] ≫= printRequest) EOF
    (mkWriter [] None) 0) = 2.
Proof.
  rewrite (@serveConn_pipelined Z exampleRuntime _ (exampleConfig echoHandler) $"1.2.3.4:5"
    (fun _ => (false, false)) [exampleRequest; exampleRequest] EOF 0);
    [done|apply sane_DefaultLimits|by vm_compute|done|done|].
  repeat constructor; try apply exampleRequest_printable; intros; by vm_compute.
Defined.

(** C32: a panicking handler costs its own request only: the client gets a 500
    whose body is the fixed text, with whatever headers the handler had set,
    and the loop goes on with the world the handler left. *)
Theorem serveLoop_panic_isolated {W : Type} `{GoRuntime} `{Clock W} (cfg : Config W)
    (remoteAddr : bytes) (drain : Z -> bool * bool) (fuel : nat) (served : Z) (req : Request)
    (more : bytes) (e : ioerr) (b : nat) (bw : writer) (st : W) (x : Exch W) :
  sane (CfgLimits cfg) -> 1 < MaxHeaderLine (CfgLimits cfg) -> MaxRequestsPerConn cfg = 0 ->
  (0 < b)%nat -> accepts bw = None -> (forall n, drain n = (false, false)) ->
  printable (CfgLimits cfg) remoteAddr req ->
  CfgHandler cfg {| xreq := req;
    xw := withIsHead NewResponseWriter (beq (Method req) $"HEAD"); xst := st |} = (Panicked, x) ->
  wantClose (xreq x) = false ->
  let w := Error (withHijacked (xw x) false) StatusInternalServerError $"internal error" in
  let (now, st') := timeNow (xst x) in
  status w = 500 /\ body w = $"500 internal error
" /\
  serveLoop cfg remoteAddr drain (S fuel) served (mkReader (printRequest req ++ more) e b) bw st =
  serveLoop cfg remoteAddr drain fuel (served + 1) (mkReader more e b)
    (mkWriter (sent bw ++ (serialize w $"HTTP/1.1" true now).2) None) st'.
Proof.
  intros Hs Hl Hm Hb Hbw Hd Hp Hh Hw w.
  pose proof (serveLoop_request cfg remoteAddr Hs Hl drain fuel served req more e b bw st Hb Hp Hbw) as E.
  rewrite Hd in E. specialize (E (or_introl eq_refl)). unfold exchange, safeHandle in E.
  rewrite Hh in E. cbn [withRecover snd fst onW xreq xw xst] in E. destruct (timeNow (xst x)) as [now st'].
  unfold keepAliveAfter in E. rewrite Hw, Hm in E. cbn [negb andb orb Z.eqb] in E. split; [done|]. split; [by vm_compute|]. exact E.
Qed.

Definition panicHandler : Handler Z := fun x => (Panicked, onW (fun w => Write w $"partial") x).

Lemma serveLoop_panic_isolated_witness :
  connServed (@serveLoop Z exampleRuntime _ (exampleConfig panicHandler) $"1.2.3.4:5"
    (fun _ => (false, false)) 2 0 (mkReader (printRequest exampleRequest ++ []) EOF 16)
    (mkWriter [] None) 0) = 1.
Proof.
  pose proof (@serveLoop_panic_isolated Z exampleRuntime _ (exampleConfig panicHandler) $"1.2.3.4:5"
    (fun _ => (false, false)) 1 0 exampleRequest [] EOF 16 (mkWriter [] None) 0 _
    sane_DefaultLimits ltac:(by vm_compute) eq_refl ltac:(lia) eq_refl (fun _ => eq_refl)
    exampleRequest_printable eq_refl ltac:(by vm_compute)) as (_ & _ & E).
  refine (eq_trans (f_equal connServed E) _). by vm_compute.
Defined.

#[local] Opaque connReader.

(** C33: a request that fails to parse gets exactly one response, of status
    400, 408, 413, 414, 431, 501 or 505, announcing [Connection: close], and
    the connection ends; only the clean-close signal is answered by silence. *)
Theorem serveConn_parse_error {W : Type} `{GoRuntime} `{Clock W} (cfg : Config W)
    (remoteAddr : bytes) (drain : Z -> bool * bool) (input : bytes) (e : ioerr) (bw : writer)
    (st : W) (err : error) (r' : reader) :
  sane (CfgLimits cfg) -> accepts bw = None -> input <> [] ->
  ParseRequest (CfgLimits cfg) remoteAddr (connReader input e) = (Raise err, r') ->
  let res := serveConn cfg remoteAddr drain input e bw st in
  let (now, st') := timeNow st in
  (err = errCleanClose /\ res = mkConnResult bw st 0 CleanClose) \/
  (err <> errCleanClose /\
   res = mkConnResult (mkWriter (sent bw ++ closingResponse (errorStatus err) now) None) st' 0
           (ParseFailed err) /\
   errorStatus err ∈ [400; 408; 413; 414; 431; 501; 505] /\
   Values (headers (serialize (errorResponse (errorStatus err)) $"HTTP/1.1" false now).1)
     $"Connection" = [$"close"]).
Proof.
  intros Hs Hbw Hin EP res.
  pose proof (parserErr_answer err (ParseRequest_Raise (CfgLimits cfg) Hs remoteAddr _ _ _ (connReader_ok input e) EP)) as Hst.
  unfold res, serveConn. cbn [serveLoop]. change (0 <? 0) with false. rewrite andb_false_r.
  rewrite Peek1_conn, EP by done.
  destruct (timeNow st) as [now st'] eqn:Et.
  destruct err; try (right; split; [done|]; destruct Hst as [Hst|Hst]; [|done];
    unfold writeError; rewrite Et; unfold flushTo; rewrite Hbw;
    split; [done|]; split; [done|]; apply Values_finalHeaders).
  by left.
Qed.

Lemma serveConn_parse_error_witness :
  exists err r', @ParseRequest exampleRuntime DefaultLimits [] (connReader $"GET /
" EOF) = (Raise err, r') /\ errorStatus err = 400 /\
  connOut (@serveConn Z exampleRuntime _ (exampleConfig echoHandler) [] (fun _ => (false, false))
    $"GET /
" EOF (mkWriter [] None) 0) = mkWriter (closingResponse 400 0) None.
Proof.
  destruct (@ParseRequest exampleRuntime DefaultLimits [] (connReader $"GET /
" EOF)) as [o r'] eqn:E.
  destruct o as [|err| |]; [by vm_compute in E| |by vm_compute in E..].
  exists err, r'. split; [done|].
  pose proof (f_equal fst E) as E1. vm_compute in E1. injection E1 as E1.
  destruct (@serveConn_parse_error Z exampleRuntime _ (exampleConfig echoHandler) []
    (fun _ => (false, false)) $"GET /
" EOF (mkWriter [] None) 0 err r' sane_DefaultLimits eq_refl ltac:(discriminate) E)
    as [[Hc _]|(_ & -> & _)]; [by rewrite Hc in E1|].
  subst err. split; by vm_compute.
Defined.

Lemma ParseRequest_truncated `{GoRuntime} lim remoteAddr r :
  (0 < bufsize r)%nat -> nl ∉ rest r -> len (rest r) <= MaxRequestLine lim ->
  exists r', ParseRequest lim remoteAddr r =
    (Raise (requestLineErr lim (ErrIO (ending r))), r').
Proof.
  intros Hb Hnl%IndexByte_None Hlen.
  destruct (readBoundedLine_eq (MaxRequestLine lim) r Hb) as [E _].
  unfold lineResult in E. rewrite Hnl, len_nil in E.
  destruct (Z.ltb_spec (MaxRequestLine lim) (0 + len (rest r))); [lia|].
  unfold ParseRequest, bind, mapErr.
  destruct (readBoundedLine (MaxRequestLine lim) r) as [o r']. cbn [fst] in E. subst o. eauto.
Qed.

(** A peer that stops inside the request line is answered by how the
    stream ends: after a timeout with 408, after another failure with 400, but
    after an end of file with silence, although bytes of a request had arrived
    (the clean-close signal is not limited to "before the first byte"). *)
Theorem serveConn_truncated_line {W : Type} `{GoRuntime} `{Clock W} (cfg : Config W)
    (remoteAddr : bytes) (drain : Z -> bool * bool) (input : bytes) (e : ioerr) (bw : writer)
    (st : W) :
  input <> [] -> nl ∉ input -> len input <= MaxRequestLine (CfgLimits cfg) -> accepts bw = None ->
  let res := serveConn cfg remoteAddr drain input e bw st in
  let (now, st') := timeNow st in
  match e with
  | EOF => res = mkConnResult bw st 0 CleanClose
  | NetTimeout => connOut res = mkWriter (sent bw ++ closingResponse 408 now) None
  | _ => connOut res = mkWriter (sent bw ++ closingResponse 400 now) None
  end.
Proof.
  intros Hin Hnl Hlen Hbw res. unfold res, serveConn. cbn [serveLoop].
  change (0 <? 0) with false. rewrite andb_false_r, Peek1_conn by done.
  destruct (ParseRequest_truncated (CfgLimits cfg) remoteAddr (connReader input e)
    (connReader_ok input e) Hnl Hlen) as [r' ->].
  destruct (timeNow st) as [now st'] eqn:Et. change (ending (connReader input e)) with e.
  destruct e; unfold requestLineErr, perrc; cbv beta iota; unfold writeError; rewrite ?Et;
    unfold flushTo; rewrite ?Hbw; reflexivity.
Qed.

Lemma serveConn_truncated_line_witness :
  connEnded (@serveConn Z exampleRuntime _ (exampleConfig echoHandler) [] (fun _ => (false, false))
    $"GET / HT" EOF (mkWriter [] None) 0) = CleanClose.
Proof.
  pose proof (@serveConn_truncated_line Z exampleRuntime _ (exampleConfig echoHandler) []
    (fun _ => (false, false)) $"GET / HT" EOF (mkWriter [] None) 0 ltac:(discriminate)
    ltac:(intros Hx; absurd_elem Hx) ltac:(by vm_compute) eq_refl) as E.
  exact (f_equal connEnded E).
Defined.

Lemma readBody_chunked lim h r :
  ContainsToken h $"Transfer-Encoding" $"chunked" = true ->
  (readBody lim h r).1 =
  match (chunkLoop (S (length (rest r))) lim [] r).1 with
  | Raise err => Raise (match asParseError err with
                        | Some pe => pe
                        | None => perrc StatusBadRequest err $"reading chunked body: %v"
                        end)
  | o => o
  end.
Proof.
  intros HT. unfold readBody, readChunkedBody, withFuel, mapErr. rewrite HT.
  by destruct (chunkLoop _ _ _ _) as [[] ?].
Qed.

(** A peer that stalls in a chunked body is answered 408 while its size
    line or its data is awaited, but 400 when only the CRLF after the data is
    missing: that error drops its cause. *)
Theorem chunk_stall_status (lim : Limits) (h : Headers) (c sizePart dataPart crlfPart : bytes)
    (b : nat) :
  sane lim -> 18 <= MaxHeaderLine lim -> (0 < b)%nat ->
  ContainsToken h $"Transfer-Encoding" $"chunked" = true ->
  c <> [] -> len c <= MaxBodyBytes lim ->
  nl ∉ sizePart -> len sizePart <= MaxHeaderLine lim ->
  len dataPart < len c -> len crlfPart < 2 ->
  let stalledAfter input :=
    match (readBody lim h (mkReader input NetTimeout b)).1 with
    | Raise err => Some (errorStatus err)
    | _ => None
    end in
  stalledAfter sizePart = Some 408 /\
  stalledAfter (FormatInt (len c) 16 ++ CRLF ++ dataPart) = Some 408 /\
  stalledAfter (FormatInt (len c) 16 ++ CRLF ++ c ++ crlfPart) = Some 400.
Proof.
  intros Hs HL Hb HT Hc Hlc Hnl Hsz Hd Hcr stalledAfter. unfold stalledAfter. rewrite !readBody_chunked by done. cbn [rest].
  pose proof (len_pos c Hc). pose proof (len_nonneg dataPart).
  split; [|split].
  - cbn [chunkLoop]. unfold bind at 1, mapErr.
    destruct (readBoundedLine_eq (MaxHeaderLine lim) (mkReader sizePart NetTimeout b) Hb) as [E _].
    unfold lineResult in E. cbn [rest ending] in E. apply IndexByte_None in Hnl.
    rewrite Hnl, len_nil in E.
    destruct (Z.ltb_spec (MaxHeaderLine lim) (0 + len sizePart)); [lia|].
    destruct (readBoundedLine _ _) as [o r']. cbn [fst] in E. by subst o.
  - rewrite chunkLoop_size by (done || rewrite ?len_nil; lia).
    unfold bind at 1, mapErr, readFull, ReadFull. cbn [rest ending].
    by destruct (Z.leb_spec (len c) (len dataPart)); [lia|].
  - rewrite chunkLoop_size by (done || rewrite ?len_nil; lia).
    rewrite (bind_Ret _ _ _ _ _ (mapErr_Ret _ _ _ _ _ (readFull_app _ _ _ _))).
    unfold bind at 1, chunkCRLF, ReadFull. cbn [rest ending].
    by destruct (Z.leb_spec 2 (len crlfPart)); [lia|].
Qed.

Definition chunkedHeaders : Headers := Set_ NewHeaders $"Transfer-Encoding" $"chunked".

Lemma chunk_stall_status_witness :
  match (readBody DefaultLimits chunkedHeaders
    (mkReader (FormatInt (len $"hi") 16 ++ CRLF ++ $"hi" ++ []) NetTimeout 16)).1 with
  | Raise err => Some (errorStatus err)
  | _ => None
  end = Some 400.
Proof.
  apply (chunk_stall_status DefaultLimits chunkedHeaders $"hi" $"2" $"h" [] 16);
    [apply sane_DefaultLimits|by vm_compute|lia|by vm_compute|done|by vm_compute| |by vm_compute..].
  intros Hx. absurd_elem Hx.
Defined.

Definition overflowInput : bytes :=
  $"POST / HTTP/1.1" ++ CRLF ++ $"Host: x" ++ CRLF ++ $"Transfer-Encoding: chunked" ++ CRLF ++ CRLF ++
  $"1" ++ CRLF ++ $"a" ++ CRLF ++ $"7fffffffffffffff" ++ CRLF.

(** C35: a single request crashes the server: whatever the handler, with the
    default limits, the 80 bytes of [overflowInput] make the parser panic in
    the connection's goroutine, outside the recover barrier, before any
    response is sent. *)
Theorem serveConn_overflow_crashes {W : Type} `{GoRuntime} `{Clock W} (cfg : Config W)
    (remoteAddr : bytes) (drain : Z -> bool * bool) (e : ioerr) (bw : writer) (st : W) :
  CfgLimits cfg = DefaultLimits ->
  serveConn cfg remoteAddr drain overflowInput e bw st = mkConnResult bw st 0 Crashed.
Proof.
  intros HL. unfold serveConn. cbn [serveLoop]. change (0 <? 0) with false.
  rewrite andb_false_r, Peek1_conn by discriminate. rewrite HL.
  assert ((ParseRequest DefaultLimits remoteAddr (connReader overflowInput e)).1 = GoPanic) as E
    by (by vm_compute).
  destruct (ParseRequest _ _ _) as [o r']. cbn [fst] in E. by subst o.
Qed.

Lemma serveConn_overflow_crashes_witness :
  connEnded (@serveConn Z exampleRuntime _ (exampleConfig echoHandler) [] (fun _ => (false, false))
    overflowInput EOF (mkWriter [] None) 0) = Crashed.
Proof. by rewrite (@serveConn_overflow_crashes Z exampleRuntime _ (exampleConfig echoHandler)). Defined.

(** C34: on any input the connection loop ends with its fuel, it serves at most
    [MaxRequestsPerConn] requests when that is set, and once the drain flag is
    up it takes no further request (at most the first one of a connection). *)
Theorem serveConn_bounded {W : Type} `{GoRuntime} `{Clock W} (cfg : Config W)
    (remoteAddr : bytes) (drain : Z -> bool * bool) (input : bytes) (e : ioerr) (bw : writer)
    (st : W) :
  sane (CfgLimits cfg) ->
  let res := serveConn cfg remoteAddr drain input e bw st in
  connEnded res <> LoopNoFuel /\
  (0 < MaxRequestsPerConn cfg -> connServed res <= MaxRequestsPerConn cfg) /\
  (forall k, 0 <= k -> (forall n, k <= n -> drain n = (true, true)) -> connServed res <= Z.max k 1).
Proof.
  intros Hs res.
  destruct (serveLoop_bounds cfg remoteAddr Hs drain (S (length input)) 0 (connReader input e) bw st)
    as (B1 & _ & B3 & B4); [change (rest (connReader input e)) with input; lia|apply connReader_ok|lia|].
  split_and!; [exact B1|intros Hm; by apply B3|]. intros k Hk Hd. apply B4; auto. lia.
Qed.

Lemma serveConn_bounded_witness :
  connServed (@serveConn Z exampleRuntime _ (exampleConfig echoHandler) $"1.2.3.4:5"
    (fun _ => (true, true)) ([exampleRequest; exampleRequest] ≫= printRequest) EOF
    (mkWriter [] None) 0) <= Z.max 0 1.
Proof.
  exact (proj2 (proj2 (@serveConn_bounded Z exampleRuntime _ (exampleConfig echoHandler) $"1.2.3.4:5"
    (fun _ => (true, true)) ([exampleRequest; exampleRequest] ≫= printRequest) EOF
    (mkWriter [] None) 0 sane_DefaultLimits)) 0 (Z.le_refl 0) (fun _ _ => eq_refl)).
Defined.
