(* ===== verification/ServerLifeProps.v ===== *)
(** * The life of a server: bookkeeping, drain and shutdown

    Invariants of the step relation of ServerLife.v, the measure that bounds a
    drain, what [Shutdown] guarantees and what it does not, and the connection
    loop of Server.v as the run of the goroutine of ConnMachine.v. *)

From stdpp Require Import relations fin_maps fin_sets.
From S2P Require Import Prelude.
From S2P Require Import Headers.
From S2P Require Import Request.
From S2P Require Import Response.
From S2P Require Import Handler.
From S2P Require Import Server.
From S2P Require Import ServerLife.
From S2P Require Import ConnMachine.
From S2P Require Import Examples.
From S2P Require Import GoStrings.
From S2P Require Import GoIO.

Section props.
Context {W : Type}.
Variable cfg : Config W.

(** The connection the accept loop has in hand, which no goroutine serves yet. *)
Definition inHand (s : System) : option nat :=
  match loop s with HasConn c | Tracked c | Added c => Some c | _ => None end.

Definition handCount (s : System) : nat := match inHand s with Some _ => 1 | None => 0 end.

Definition connOk (pc : connPc) : Prop :=
  match pc with
  | AtTop n | AtPeek n | AtParse n | AtHandle n _ => 0 <= n
  | AtWrite n _ => 1 <= n
  | _ => True
  end.

(** The bookkeeping of connections. *)
Record accounted (s : System) : Prop := {
  acc_tracked c : c ∈ tracked (srv s) <->
    (exists pc, goroutines s !! c = Some pc /\ pc <> AtDone) \/ loop s = Tracked c \/ loop s = Added c;
  acc_wg : wg (srv s) = Z.of_nat (size (goroutines s)) + (match loop s with Added _ => 1 | _ => 0 end);
  acc_fresh c : is_Some (goroutines s !! c) -> (c < nextConn s)%nat;
  acc_hand c : inHand s = Some c -> (c < nextConn s)%nat /\ goroutines s !! c = None;
  acc_ok c pc : goroutines s !! c = Some pc -> connOk pc;
}.

(** The listener and the shutdown protocol. *)
Record protocol (s : System) : Prop := {
  pro_unbound : listener (srv s) = None ->
    match loop s with AtListen | AtStore _ | LoopReturned (Some (ListenErr _)) => True | _ => False end;
  pro_addr : match loop s with
             | AtListen | AtStore _ | LoopReturned (Some (ListenErr _)) => listener (srv s) = None
             | AtAddr ln => listener (srv s) = Some ln
             | _ => exists ln, listener (srv s) = Some ln /\ addr (srv s) = Some (lnAddr ln)
             end;
  pro_ready : ready (srv s) = match loop s with
             | AtListen | AtStore _ | LoopReturned (Some (ListenErr _)) | AtAddr _ | AtReady => false
             | _ => true
             end;
  pro_draining : draining (srv s) = match shut s with NotCalled => false | _ => true end;
  pro_closed : lnClosed s = true -> listener (srv s) <> None /\ shut s <> NotCalled /\ shut s <> AtCloseListener;
  pro_waiter : waiter s = NotSpawned <-> (shut s = NotCalled \/ shut s = AtCloseListener \/ shut s = AtSpawn);
  pro_returned : shut s = ShutdownReturned -> waiter s = WaitDone;
  pro_nil : loop s = LoopReturned None -> draining (srv s) = true;
}.


Lemma protocol_init a : protocol (initSystem a).
Proof. constructor; simpl; naive_solver. Qed.

Lemma protocol_step s s' : protocol s -> step cfg s s' -> protocol s'.
Proof.
  intros [] Hs. destruct s as [sv lp sh wt gs lc cc nx].
  destruct Hs as [| | | | | | | | | | | | | | | | | | | |H|]; simpl in *; simplify_eq; constructor; simpl in *;
    try (done || congruence); try (intuition congruence);
    try (by destruct pro_addr0 as (? & ? & ?); eauto); try (by eauto); try (by repeat case_match).
  by destruct H; subst.
Qed.

Lemma connNext_inv d cl pc e pc' :
  connNext cfg d cl pc e = Some pc' ->
  pc <> AtDone /\ pc' <> AtDone /\ (connOk pc -> connOk pc').
Proof.
  destruct pc, e; simpl; intros; simplify_eq; try done; repeat case_match; simplify_eq/=; split_and!; lia || done.
Qed.

Lemma accounted_init a : accounted (initSystem a).
Proof.
  constructor; simpl; try done.
  - intros c. split; [set_solver|]. naive_solver.
  - intros c [? Hc]. by rewrite lookup_empty in Hc.
Qed.

(** A move of the goroutine of [c] that keeps it in the table. *)
Lemma accounted_conn s c pc pc' :
  accounted s -> goroutines s !! c = Some pc -> pc <> AtDone -> pc' <> AtDone -> connOk pc' ->
  accounted (withGoroutines (<[c := pc']> (goroutines s)) s).
Proof.
  intros [Ht Hw Hf Hh Hok] Hc Hpc Hpc' Ho. constructor; simpl.
  - intros d. rewrite Ht. destruct (decide (c = d)) as [<-|].
    + rewrite lookup_insert_eq. naive_solver.
    + by rewrite lookup_insert_ne.
  - rewrite Hw. by rewrite map_size_insert_Some.
  - intros d [->|[_ Hd]]%lookup_insert_is_Some; apply Hf; by eauto.
  - intros d Hd. destruct (Hh d Hd) as [? ?]. split; [done|]. rewrite lookup_insert_ne; congruence.
  - intros d pc1 [[<- <-]|[_ Hd]]%lookup_insert_Some; [done|by eapply Hok].
Qed.

Lemma accounted_untrack s c :
  accounted s -> goroutines s !! c = Some AtUntrack ->
  accounted (withGoroutines (<[c := AtDone]> (goroutines s)) (onSrv (fun x => track x c false) s)).
Proof.
  intros [Ht Hw Hf Hh Hok] Hc. constructor; simpl.
  - intros d. rewrite elem_of_difference, Ht, not_elem_of_singleton. destruct (decide (d = c)) as [->|].
    + rewrite lookup_insert_eq. split; [naive_solver|]. intros [(? & [= <-] & ?)|Hl]; [done|].
      destruct (Hh c) as [_ ?]; [|congruence]. unfold inHand. by destruct Hl as [-> | ->].
    + rewrite lookup_insert_ne by done. naive_solver.
  - rewrite Hw. by rewrite map_size_insert_Some.
  - intros d [->|[_ Hd]]%lookup_insert_is_Some; apply Hf; by eauto.
  - intros d Hd. destruct (Hh d Hd) as [? ?]. split; [done|]. rewrite lookup_insert_ne; congruence.
  - intros d pc1 [[<- <-]|[_ Hd]]%lookup_insert_Some; [done|by eapply Hok].
Qed.

Lemma accounted_done s c :
  accounted s -> goroutines s !! c = Some AtDone ->
  accounted (withGoroutines (delete c (goroutines s)) (onSrv (wgAdd (-1)) s)).
Proof.
  intros [Ht Hw Hf Hh Hok] Hc. constructor; simpl.
  - intros d. rewrite Ht. destruct (decide (d = c)) as [->|].
    + rewrite lookup_delete_eq. naive_solver.
    + by rewrite lookup_delete_ne.
  - rewrite Hw, map_size_delete, Hc.
    assert (size (goroutines s) <> 0)%nat by (apply map_size_ne_0_lookup_2 with c; eauto). lia.
  - intros d [_ Hd]%lookup_delete_is_Some. by apply Hf.
  - intros d Hd. destruct (Hh d Hd) as [? ?]. split; [done|]. rewrite lookup_delete_None. by right.
  - intros d pc1 [_ Hd]%lookup_delete_Some. by eapply Hok.
Qed.

Lemma accounted_go s c :
  accounted s -> loop s = Added c ->
  accounted (atLoop AtAccept (withGoroutines (<[c := AtTop 0]> (goroutines s)) s)).
Proof.
  intros [Ht Hw Hf Hh Hok] El. unfold inHand in Hh. rewrite El in *.
  destruct (Hh c eq_refl) as [Hn Hc]. constructor; simpl.
  - intros d. rewrite Ht. destruct (decide (d = c)) as [->|].
    + rewrite lookup_insert_eq. naive_solver.
    + rewrite lookup_insert_ne by done. naive_solver.
  - rewrite Hw, map_size_insert_None by done. lia.
  - intros d [->|[_ Hd]]%lookup_insert_is_Some; [done|by apply Hf].
  - done.
  - intros d pc1 [[<- <-]|[_ Hd]]%lookup_insert_Some; [done|by eapply Hok].
Qed.

Lemma accounted_step s s' : accounted s -> step cfg s s' -> accounted s'.
Proof.
  intros A Hs. destruct Hs.
  12: { destruct (connNext_inv _ _ _ _ _ H0) as (? & ? & Ho). eapply accounted_conn; eauto. apply Ho. by eapply acc_ok. }
  12: by apply accounted_untrack. 12: by apply accounted_done. 11: by apply accounted_go.
  all: destruct A as [Ht Hw Hf Hh Hok]; unfold inHand in Hh; constructor; unfold inHand; simpl in *; try done.
  all: try match goal with E : loop _ = _ |- _ => rewrite E in *; clear E end; try lia; try (by eauto).
  all: try (intros d; rewrite ?elem_of_union, ?elem_of_singleton, Ht; naive_solver).
  - intros c Hc. specialize (Hf c Hc). lia.
  - intros c [= <-]. split; [lia|]. apply eq_None_not_Some. intros Hc%Hf. lia.
Qed.

(** ** The drain *)

(** Steps a goroutine may still take once the server drains. *)
Definition connRank (pc : connPc) : nat :=
  match pc with
  | AtTop n => if 0 <? n then 4 else 9
  | AtPeek _ => 8
  | AtParse _ => 7
  | AtHandle _ _ => 6
  | AtWrite _ _ => 5
  | AtWriteError => 4
  | AtClose => 3
  | AtUntrack => 2
  | AtDone => 1
  end.

Definition work (g : gmap nat connPc) : nat := map_fold (fun _ pc n => connRank pc + n)%nat O g.

Definition loopRank (pc : loopPc) : nat :=
  match pc with
  | AtAddr _ => 3
  | AtReady => 2
  | AtAccept => 1
  | HasConn _ => 13
  | Tracked _ => 12
  | Added _ => 11
  | _ => 0
  end.

Definition shutRank (pc : shutdownPc) : nat :=
  match pc with AtSpawn => 6 | AtSelect => 4 | AtForce => 3 | AtAwait => 2 | _ => 0 end.

Definition measure (s : System) : nat :=
  (loopRank (loop s) + shutRank (shut s) + (if waiter s is AtWait then 1 else 0) + work (goroutines s))%nat.

Lemma work_delete g c pc : g !! c = Some pc -> work g = (connRank pc + work (delete c g))%nat.
Proof. intros Hc. unfold work. apply (map_fold_delete_L (fun _ p n => connRank p + n)%nat); [lia|done]. Qed.

Lemma work_insert g c pc : g !! c = None -> work (<[c := pc]> g) = (connRank pc + work g)%nat.
Proof. intros Hc. unfold work. apply (map_fold_insert_L (fun _ p n => connRank p + n)%nat); [lia|done]. Qed.

Lemma work_replace g c pc pc' :
  g !! c = Some pc -> (work (<[c := pc']> g) + connRank pc = connRank pc' + work g)%nat.
Proof.
  intros Hc. rewrite (work_delete g c pc Hc), (work_delete (<[c := pc']> g) c pc') by apply lookup_insert_eq.
  rewrite delete_insert_eq. lia.
Qed.

Lemma connRank_decreases cl pc e pc' :
  connNext cfg true cl pc e = Some pc' -> connOk pc -> (connRank pc' < connRank pc)%nat.
Proof.
  destruct pc as [n| | | | | | | |], e; simpl; intros He Ho; simplify_eq/=; try lia.
  - destruct (Z.ltb_spec 0 n); simplify_eq; simpl; lia.
  - destruct cl; [done|]. destruct keepAlive; simplify_eq; simpl; [|lia].
    destruct (Z.ltb_spec 0 served); lia.
Qed.

Definition closedOk (s : System) : Prop := accounted s /\ protocol s.

Lemma drain_decreases s s' :
  accounted s -> protocol s -> lnClosed s = true -> step cfg s s' ->
  (measure s' < measure s)%nat /\ lnClosed s' = true.
Proof.
  intros A P Hc Hs. destruct (pro_closed _ P Hc) as (Hl & Hn & Hn2).
  assert (draining (srv s) = true) as Hd by (rewrite (pro_draining _ P); by destruct (shut s)).
  pose proof (pro_addr _ P) as Pa.
  split; [|by destruct Hs].
  destruct Hs as [El|? El|? El|? El|El|El ?|El ? ?|El|? El|? El|c El|c pc pc' e Hg Hx|c Hg|c Hg|Es|? Es ?|Es ?|Es|Es|Es|Es Ew|Ew Ez];
    unfold measure; simpl; rewrite ?El, ?Es, ?Ew in *; simpl in *; try congruence; try lia.
  - rewrite work_insert by (apply (acc_hand _ A); unfold inHand; by rewrite El). simpl. lia.
  - rewrite Hd in Hx. apply connRank_decreases in Hx; [|by eapply acc_ok].
    pose proof (work_replace _ _ _ pc' Hg). lia.
  - pose proof (work_replace _ _ _ AtDone Hg). simpl in *. lia.
  - rewrite (work_delete _ _ _ Hg). simpl. lia.
  - destruct Es as [Es|Es]; rewrite Es; simpl; lia.
Qed.

(** Everything the server started has ended. *)
Record finished (s : System) : Prop := {
  fin_loop : exists err, loop s = LoopReturned err;
  fin_shut : shut s = ShutdownReturned;
  fin_goroutines : goroutines s = ∅;
  fin_tracked : tracked (srv s) = ∅;
  fin_wg : wg (srv s) = 0;
}.

Lemma loop_progress s : (exists err, loop s = LoopReturned err) \/ exists s', step cfg s s'.
Proof.
  destruct (loop s) eqn:El; try (by left; eauto); right; eexists.
  1: by apply step_listen_err. all: try (by constructor). all: by eapply step_store || by eapply step_addr.
Qed.

Lemma conn_progress s : goroutines s = ∅ \/ exists s', step cfg s s'.
Proof.
  destruct (decide (goroutines s = ∅)) as [|(c & pc & Hc)%map_choose]; [by left|right].
  destruct pc; eexists; try (by eapply step_untrack); try (by eapply step_done).
  - by eapply (step_conn _ _ _ _ _ ConnGo).
  - by eapply (step_conn _ _ _ _ _ PeekErr).
  - by eapply (step_conn _ _ _ _ _ ParseRefused).
  - by eapply (step_conn _ _ _ _ _ (Handled req)).
  - by eapply (step_conn _ _ _ _ _ WriteErr).
  - by eapply (step_conn _ _ _ _ _ ConnGo).
  - by eapply (step_conn _ _ _ _ _ ConnGo).
Qed.

(** While it drains the server is never stuck before it has finished. *)
Lemma drain_progress s :
  accounted s -> protocol s -> lnClosed s = true -> finished s \/ exists s', step cfg s s'.
Proof.
  intros A P Hc. destruct (pro_closed _ P Hc) as (_ & Hn & Hn2).
  destruct (loop_progress s) as [[err El]|]; [|by right].
  destruct (conn_progress s) as [Eg|]; [|by right].
  assert (wg (srv s) = 0) as Ew by (by rewrite (acc_wg _ A), Eg, El).
  destruct (waiter s) eqn:Ewt; [|right; eexists; by eapply step_wg|].
  - destruct (proj1 (pro_waiter _ P) Ewt) as [|[|Es]]; [done..|]. right. eexists. by eapply step_spawn.
  - destruct (shut s) eqn:Es; try done.
    + right. eexists. by eapply step_spawn.
    + right. eexists. eapply step_return; [by left|done].
    + right. eexists. by eapply step_force.
    + right. eexists. eapply step_return; [by right|done].
    + left. constructor; try done; [by eauto|]. apply set_eq. intros c. rewrite (acc_tracked _ A), Eg, El.
      split; [|set_solver]. intros [(? & Hx & _)|[?|?]]; [by rewrite lookup_empty in Hx|done..].
Qed.

Lemma reachable_inv s : reachable cfg s -> accounted s /\ protocol s.
Proof.
  revert s. apply (rtc_ind_r (fun s => accounted s /\ protocol s)).
  - split; [apply accounted_init|apply protocol_init].
  - intros s s' _ Hs [A P]. split; [by eapply accounted_step|by eapply protocol_step].
Qed.

Lemma drain_bounded n s s' :
  accounted s -> protocol s -> lnClosed s = true -> nsteps (step cfg) n s s' -> (n + measure s' <= measure s)%nat.
Proof.
  intros A P Hc Hn. induction Hn as [|n s s1 s' Hs Hn IH]; [lia|].
  destruct (drain_decreases s s1 A P Hc Hs) as [? Hc1].
  specialize (IH (accounted_step _ _ A Hs) (protocol_step _ _ P Hs) Hc1). lia.
Qed.

Lemma drain_reaches s :
  accounted s -> protocol s -> lnClosed s = true -> exists s', rtc (step cfg) s s' /\ finished s'.
Proof.
  remember (measure s) as n eqn:En. revert s En. induction n as [n IH] using lt_wf_ind. intros s -> A P Hc.
  destruct (drain_progress s A P Hc) as [?|[s1 Hs]]; [by exists s|].
  destruct (drain_decreases s s1 A P Hc Hs) as [Hm Hc1].
  destruct (IH _ Hm s1 eq_refl (accounted_step _ _ A Hs) (protocol_step _ _ P Hs) Hc1) as (s' & ? & ?).
  exists s'. split; [by eapply rtc_l|done].
Qed.

(** A closed listener leaves at most the connection the accept loop had in hand
    to be served after the wait group was seen at zero. *)
Definition oneLate (s : System) : Prop :=
  waiter s = WaitDone -> lnClosed s = true -> (size (goroutines s) + handCount s <= 1)%nat.

Lemma oneLate_step s s' : accounted s -> protocol s -> oneLate s -> step cfg s s' -> oneLate s'.
Proof.
  unfold oneLate, handCount, inHand. intros A P L Hs. pose proof (pro_closed _ P) as Pc. pose proof (pro_waiter _ P) as Pw.
  destruct Hs as [El|? El|? El|? El|El|El ?|El ? ?|El|? El|? El|c El|c pc pc' e Hg Hx|c Hg|c Hg|Es|? Es ?|Es ?|Es|Es|Es|Es Ew|Ew Ez];
    simpl; intros Hw Hc; rewrite ?El, ?Es, ?Hc in *; specialize (Pc Hc) || idtac; try congruence; try (by apply L).
  - rewrite map_size_insert_None by (apply (acc_hand _ A); unfold inHand; by rewrite El). specialize (L Hw eq_refl). lia.
  - rewrite map_size_insert_Some by eauto. by apply L.
  - rewrite map_size_insert_Some by eauto. by apply L.
  - rewrite map_size_delete, Hg. specialize (L Hw eq_refl). simpl. lia.
  - assert (waiter s = NotSpawned) by (apply Pw; auto). congruence.
  - pose proof (acc_wg _ A) as Hwg. rewrite Ez in Hwg. destruct (loop s); lia.
Qed.

Lemma reachable_oneLate s : reachable cfg s -> oneLate s.
Proof.
  intros Hr. enough (accounted s /\ protocol s /\ oneLate s) by tauto. revert s Hr.
  apply (rtc_ind_r (fun s => accounted s /\ protocol s /\ oneLate s)).
  - split_and!; [apply accounted_init|apply protocol_init|done].
  - intros s s' _ Hs (A & P & L).
    split_and!; [by eapply accounted_step|by eapply protocol_step|by eapply oneLate_step].
Qed.

(** How many requests on [c] a run hands to the handler. *)
Definition handledOn (c : nat) (e : event) : bool :=
  match e with ConnEvent d (Handled _) => (d =? c)%nat | _ => false end.

Definition handles (c : nat) (es : list event) : nat := length (List.filter (handledOn c) es).

(** May this goroutine still hand a request to the handler during the drain? *)
Definition mayHandle (pc : connPc) : bool :=
  match pc with
  | AtTop n => negb (0 <? n)
  | AtPeek _ | AtParse _ | AtHandle _ _ => true
  | _ => false
  end.

Lemma mayHandle_next cl pc e pc' :
  connNext cfg true cl pc e = Some pc' -> connOk pc -> mayHandle pc' = true -> mayHandle pc = true.
Proof.
  destruct pc, e; simpl; intros He Ho; simplify_eq/=; try done.
  - by destruct (0 <? served).
  - destruct cl; [done|]. destruct keepAlive; simplify_eq; simpl; [|done]. destruct (Z.ltb_spec 0 served); [done|lia].
Qed.

(** Requests on [c] a draining server may still handle. *)
Definition allowance (c : nat) (s : System) : nat :=
  match goroutines s !! c with
  | Some pc => if mayHandle pc then 1 else 0
  | None => if (c <? nextConn s)%nat && negb (bool_decide (inHand s = Some c)) then 0 else 1
  end.

Lemma allowance_le c s : (allowance c s <= 1)%nat.
Proof. unfold allowance. repeat case_match; lia. Qed.

Lemma draining_step s s' : step cfg s s' -> draining (srv s) = true -> draining (srv s') = true.
Proof. by intros [] ?. Qed.

Lemma allowance_step c s s' :
  accounted s -> draining (srv s) = true -> step cfg s s' -> (allowance c s' <= allowance c s)%nat.
Proof.
  intros A Hd Hs. unfold allowance.
  destruct Hs as [El|? El|? El|? El|El|El ?|El ? ?|El|? El|? El|d El|d pc pc' e Hg Hx|d Hg|d Hg|Es|? Es ?|Es ?|Es|Es|Es|Es Ew|Ew Ez];
    unfold inHand; simpl; rewrite ?El; try done; try (by destruct (goroutines s !! c); [done|]; repeat case_match; simpl in *; lia).
  - destruct (goroutines s !! c) eqn:Eg; [done|].
    destruct (Nat.ltb_spec c (S (nextConn s))), (Nat.ltb_spec c (nextConn s)); simpl; try lia.
    { rewrite !bool_decide_false by (congruence || (intros [= ?]; lia)). done. }
    assert (nextConn s = c) as -> by lia. by rewrite bool_decide_true.
  - destruct (decide (d = c)) as [->|Hne].
    + pose proof (acc_hand _ A c) as Hh. unfold inHand in Hh. rewrite El in Hh. destruct (Hh eq_refl) as [_ ->].
      rewrite bool_decide_true, andb_false_r by done. repeat case_match; lia.
    + rewrite lookup_insert_ne, bool_decide_false by congruence. by destruct (goroutines s !! c).
  - destruct (decide (d = c)) as [->|Hne]; [|by rewrite lookup_insert_ne].
    rewrite lookup_insert_eq, Hg. rewrite Hd in Hx.
    destruct (mayHandle pc') eqn:E; [|by destruct (mayHandle pc); lia].
    by rewrite (mayHandle_next _ _ _ _ Hx (acc_ok _ A _ _ Hg) E).
  - destruct (decide (d = c)) as [->|Hne]; [|by rewrite lookup_insert_ne]. by rewrite lookup_insert_eq, Hg.
  - destruct (decide (d = c)) as [->|Hne]; [|by rewrite lookup_delete_ne]. rewrite lookup_delete_eq, Hg.
    pose proof (acc_fresh _ A c (mk_is_Some _ _ Hg)) as Hf. apply Nat.ltb_lt in Hf as ->.
    rewrite bool_decide_false; [done|]. intros Hh. destruct (acc_hand _ A c Hh). congruence.
Qed.

Lemma allowance_handled c req s s' :
  exec cfg (ConnEvent c (Handled req)) s = Some s' -> allowance c s = 1%nat /\ allowance c s' = 0%nat.
Proof.
  cbn [exec]. unfold connStep, allowance. destruct (goroutines s !! c) as [pc|] eqn:Eg; [|done].
  destruct pc; try done. intros [= <-]. cbn [goroutines withGoroutines]. by rewrite lookup_insert_eq.
Qed.

Lemma allowance_run c es s s' :
  accounted s -> draining (srv s) = true -> run cfg es s = Some s' ->
  (handles c es + allowance c s' <= allowance c s)%nat /\ accounted s' /\ draining (srv s') = true.
Proof.
  intros A Hd. unfold run. revert s'. induction es as [|e es IH] using rev_ind; intros s'; [by intros [= <-]|].
  rewrite foldl_app. cbn [foldl]. intros (s1 & H1 & H2)%bind_Some. destruct (IH s1 H1) as (Hle & A1 & Hd1).
  pose proof (exec_step cfg e s1 s' H2) as Hs.
  split_and!; [|by eapply accounted_step|by eapply draining_step].
  unfold handles in *. rewrite List.filter_app, length_app. cbn [List.filter].
  pose proof (allowance_step c s1 s' A1 Hd1 Hs).
  destruct (handledOn c e) eqn:Eh; simpl; [|lia]. destruct e as [| | |d e| | | |]; try done. destruct e; try done.
  apply Nat.eqb_eq in Eh as ->. apply allowance_handled in H2. lia.
Qed.

(** ** The connection loop as its program points *)

Definition isHandled (e : connEvent) : bool := match e with Handled _ => true | _ => false end.

(** How many requests a trace hands to the handler. *)
Definition handledIn (tr : list connEvent) : Z := len (List.filter isHandled tr).

Lemma handledIn_cons e tr : handledIn (e :: tr) = (if isHandled e then 1 else 0) + handledIn tr.
Proof. unfold handledIn. cbn [List.filter]. destruct (isHandled e); [by rewrite len_cons|lia]. Qed.

Lemma handledIn_nil : handledIn [] = 0.
Proof. done. Qed.

(** The last moves of a loop that ended so. *)
Definition lastMoves (e : connEnd) : list connEvent :=
  match e with
  | Drained => [ConnGo]
  | IdleClose => [PeekErr]
  | CleanClose => [ParsedCleanClose]
  | ParseFailed _ => [ParseRefused; ConnGo]
  | WriteFailed => [WriteErr]
  | ResponseClose => [WriteOk]
  | Crashed => [PeekByte]
  | LoopNoFuel => []
  end.

Section machine.
Context `{GoRuntime} `{Clock W}.
Variables (remoteAddr : bytes) (drain : Z -> bool * bool).
#[local] Abbreviation goRun := (goRun cfg remoteAddr drain).
#[local] Abbreviation goMove := (goMove cfg remoteAddr drain).

(** Where a goroutine is when the loop ended with [r]. *)
Record loopEnd (served : Z) (r : @connResult W) (tr : list connEvent) (g : Goroutine W) : Prop := {
  le_out : out g = connOut r;
  le_st : gst g = connSt r;
  le_served : served + handledIn tr = connServed r;
  le_pc : pc g = match connEnded r with Crashed => AtParse (connServed r) | _ => AtClose end;
  le_stuck : goMove g = None;
  le_last : lastMoves (connEnded r) `suffix_of` tr;
}.

Lemma loopEnd_cons served r e tr g :
  isHandled e = false -> loopEnd served r tr g -> loopEnd served r (e :: tr) g.
Proof.
  intros He []. constructor; try done; [by rewrite handledIn_cons, He|by apply suffix_cons_r].
Qed.

Ltac to_move :=
  eapply run_move; [unfold goMove; cbn [act pc connNext drainAt];
    repeat match goal with E : _ = _ |- _ => rewrite E end; reflexivity|].

Ltac ended before :=
  constructor; cbn [out gst pc connOut connSt connServed connEnded];
    [done|done|rewrite ?handledIn_cons, ?handledIn_nil; cbn [isHandled]; lia|done| |by exists before].

Lemma serveLoop_run fuel served br w bw st :
  let r := serveLoop cfg remoteAddr drain fuel served br bw st in
  connEnded r <> LoopNoFuel ->
  exists tr g, goRun (mkGoroutine (AtTop served) br w bw st) tr g /\ loopEnd served r tr g.
Proof.
  revert served br w bw st. induction fuel as [|fuel IH]; intros served br w bw st r Hf; [done|].
  subst r. revert Hf. cbn [serveLoop]. destruct ((drain served).1 && (0 <? served)) eqn:Ed.
  { intros _. eexists [ConnGo], _. split; [to_move; apply run_here|]. ended (@nil connEvent). done. }
  assert (forall r tr g, goRun (mkGoroutine (AtPeek served) br w bw st) tr g -> loopEnd served r tr g ->
    exists tr g, goRun (mkGoroutine (AtTop served) br w bw st) tr g /\ loopEnd served r tr g) as Htop.
  { intros r tr g Hr He. exists (ConnGo :: tr), g. split; [to_move; exact Hr|by apply loopEnd_cons]. }
  destruct (Peek1 br) as [e|] eqn:Ep.
  { intros _. eapply (Htop _ [PeekErr]); [to_move; apply run_here|]. ended (@nil connEvent). done. }
  destruct (ParseRequest _ _ _) as [[req|err| |] br1] eqn:EP; cbn [connEnded]; [| | |done].
  3: { intros _. eapply (Htop _ [PeekByte]); [to_move; apply run_here|]. ended (@nil connEvent).
       unfold goMove. cbn. by rewrite EP. }
  - set (x := safeHandle _ _). destruct (timeNow (xst x)) as [now st1] eqn:Et.
    destruct (flushTo bw _) as [[e|] bw1] eqn:Ew; cbn [connEnded].
    + intros _. eapply (Htop _ [PeekByte; ParsedRequest req; Handled (xreq x); WriteErr]).
      * do 3 to_move. fold x. to_move. apply run_here.
      * ended [PeekByte; ParsedRequest req; Handled (xreq x)]. done.
    + destruct (keepAliveAfter _ _ _ _) eqn:Ek; cbn [negb connEnded].
      * intros Hf. destruct (IH (served + 1) br1 (xw x) bw1 st1 Hf) as (tr & g & Hr & [Ho Hs Hn Hp Hm Hl]).
        eapply (Htop _ (PeekByte :: ParsedRequest req :: Handled (xreq x) :: WriteOk :: tr)).
        -- do 3 to_move. fold x. to_move. exact Hr.
        -- constructor; try done; [rewrite !handledIn_cons; cbn [isHandled]; lia|]. by repeat apply suffix_cons_r.
      * intros _. eapply (Htop _ [PeekByte; ParsedRequest req; Handled (xreq x); WriteOk]).
        -- do 3 to_move. fold x. to_move. apply run_here.
        -- ended [PeekByte; ParsedRequest req; Handled (xreq x)]. done.
  - assert (err = errCleanClose \/ err <> errCleanClose) as [->|Hne] by (destruct err; (by left) || by right).
    { intros _. eapply (Htop _ [PeekByte; ParsedCleanClose]); [do 2 to_move; apply run_here|]. ended [PeekByte]. done. }
    assert (ParseRequest (CfgLimits cfg) remoteAddr br = (Raise err, br1) ->
      act cfg remoteAddr (mkGoroutine (AtParse served) br w bw st) =
      Some (ParseRefused, (br1, errorResponse (errorStatus err), bw, st))) as Ha.
    { intros E. cbn [act]. rewrite E. by destruct err. }
    specialize (Ha EP). unfold writeError. destruct (timeNow st) as [now st1] eqn:Et.
    replace (match err with errCleanClose => _ | _ => _ end) with
      (mkConnResult (flushTo bw (serialize (errorResponse (errorStatus err)) $"HTTP/1.1" false now).2).2 st1 served (ParseFailed err))
      by by destruct err.
    intros _. eapply (Htop _ [PeekByte; ParseRefused; ConnGo]).
    + to_move. eapply run_move; [unfold goMove; rewrite Ha; reflexivity|]. to_move. apply run_here.
    + ended [PeekByte]. done.
Qed.
End machine.

(** ** Properties *)

(** C22: the books of a running server.  In every reachable state the tracked
    connections are exactly those whose goroutine has not yet untracked them or
    is about to start, the wait group counts the goroutines, [Addr] is the bound
    address once [Ready] is closed, and [ListenAndServe] returns nil only when
    [Shutdown] was called. *)
Theorem server_books (s : System) :
  reachable cfg s ->
  (forall c, c ∈ tracked (srv s) <->
     (exists pc, goroutines s !! c = Some pc /\ pc <> AtDone) \/ loop s = Tracked c \/ loop s = Added c) /\
  wg (srv s) = Z.of_nat (size (goroutines s)) + (match loop s with Added _ => 1 | _ => 0 end) /\
  (Ready (srv s) = true -> exists ln, listener (srv s) = Some ln /\ AddrOf (srv s) = lnAddr ln) /\
  (loop s = LoopReturned None -> shut s <> NotCalled).
Proof.
  intros [A P]%reachable_inv. split_and!; [apply A|apply A| |].
  - intros Hr. pose proof (pro_ready _ P) as Hp. pose proof (pro_addr _ P) as Ha. unfold Ready, AddrOf in *.
    rewrite Hr in Hp. destruct (loop s) as [| | | | | | | |[[]|]]; try done; destruct Ha as (ln & ? & ->); by exists ln.
  - intros El E. pose proof (pro_nil _ P El). pose proof (pro_draining _ P) as Hd. rewrite E in Hd. congruence.
Qed.

(** C6: a drain completes.  Once [Shutdown] has closed the listener, however the
    server is scheduled, it takes at most [measure s] further moves (every
    handler that returns, every deadline that strikes is one); it is never
    stuck before the accept loop and [Shutdown] have returned, every goroutine
    has ended and no connection is tracked, and that state can be reached. *)
Theorem drain_completes (s : System) :
  reachable cfg s -> lnClosed s = true ->
  (forall n s', nsteps (step cfg) n s s' -> (n <= measure s)%nat) /\
  (forall s', rtc (step cfg) s s' -> (forall s'', ~ step cfg s' s'') -> finished s') /\
  (exists s', rtc (step cfg) s s' /\ finished s').
Proof.
  intros [A P]%reachable_inv Hc. split_and!.
  - intros n s' Hn. pose proof (drain_bounded n s s' A P Hc Hn). lia.
  - intros s' Hr Hstuck. assert (accounted s' /\ protocol s' /\ lnClosed s' = true) as (A' & P' & Hc').
    { clear Hstuck. induction Hr as [|s s1 s' Hs _ IH]; [done|]. apply IH;
        [by eapply accounted_step|by eapply protocol_step|by eapply drain_decreases]. }
    destruct (drain_progress s' A' P' Hc') as [?|[s'' Hs]]; [done|]. by destruct (Hstuck s'').
  - by apply drain_reaches.
Qed.

(** What may outlive [Shutdown].  When [Shutdown] has returned after closing
    the listener, at most one connection is left in the server, the one the
    accept loop had in hand when the listener was closed, and nothing new is
    ever accepted. *)
Theorem Shutdown_leaves_one (s : System) :
  reachable cfg s -> shut s = ShutdownReturned -> lnClosed s = true ->
  (size (goroutines s) + handCount s <= 1)%nat /\
  (forall s', rtc (step cfg) s s' -> nextConn s' = nextConn s).
Proof.
  intros Hr Es Hc. split.
  - apply (reachable_oneLate s Hr); [|done]. by apply (pro_returned _ (proj2 (reachable_inv s Hr))).
  - intros s' Hs. assert (lnClosed s' = true /\ nextConn s' = nextConn s) as [_ ?]; [|done]. clear Hr Es.
    induction Hs as [|s s1 s' Hs _ IH]; [done|].
    assert (lnClosed s1 = true /\ nextConn s1 = nextConn s) as [Hc1 Hn1] by (destruct Hs; simpl in *; congruence || done).
    destruct (IH Hc1). split; [done|congruence].
Qed.

(** C24: the connection loop is its goroutine's run.  Started at the top of the
    loop with the loop's reader, writer and world, the goroutine, moved from one
    program point to the next by the code between them, comes to exactly one
    place where it can make no further move, by exactly one trace.  There it has
    written what [serveConn]'s loop wrote and left the world the loop left, it
    has handed as many requests to the handler, its last moves are the ones the
    loop ended for, and it is at the deferred calls, or in the parser when that
    panics.  And the trace is one of the server's: with the server's draining
    flag, on a connection [Shutdown] has not closed, its events move this
    goroutine and nothing else. *)
Theorem serveLoop_connRun `{GoRuntime} `{Clock W} (remoteAddr : bytes) (drain : Z -> bool * bool)
    (fuel : nat) (served : Z) (br : reader) (bw : writer) (st : W) :
  let r := serveLoop cfg remoteAddr drain fuel served br bw st in
  let start := mkGoroutine (AtTop served) br NewResponseWriter bw st in
  let stopped tr g := goRun cfg remoteAddr drain start tr g /\ goMove cfg remoteAddr drain g = None in
  connEnded r <> LoopNoFuel ->
  exists tr g, stopped tr g /\ (forall tr' g', stopped tr' g' -> tr' = tr /\ g' = g) /\
    out g = connOut r /\ gst g = connSt r /\ served + handledIn tr = connServed r /\
    lastMoves (connEnded r) `suffix_of` tr /\
    pc g = (match connEnded r with Crashed => AtParse (connServed r) | _ => AtClose end) /\
    forall s c, goroutines s !! c = Some (AtTop served) -> c ∉ closedConns s ->
      (forall n, drain n = (draining (srv s), draining (srv s))) ->
      run cfg (ConnEvent c <$> tr) s = Some (withGoroutines (<[c := pc g]> (goroutines s)) s).
Proof.
  intros r start stopped Hf.
  destruct (serveLoop_run remoteAddr drain fuel served br NewResponseWriter bw st Hf) as (tr & g & Hr & [Ho Hs Hn Hp Hm Hl]).
  exists tr, g. split_and!; try done.
  - intros tr' g' [Hr' Hm']. by eapply goRun_unique.
  - intros s c Hc Hcl Hd. by apply (goRun_system cfg remoteAddr drain start).
Qed.

(** C23: a draining server hands at most one more request of each connection to
    the handler, whatever the peers send. *)
Theorem drain_requests (es : list event) (s s' : System) (c : nat) :
  reachable cfg s -> draining (srv s) = true -> run cfg es s = Some s' -> (handles c es <= 1)%nat.
Proof.
  intros [A _]%reachable_inv Hd Hr. destruct (allowance_run c es s s' A Hd Hr) as [? _].
  pose proof (allowance_le c s). lia.
Qed.

End props.

(** ** Runs of a small server *)

Definition lifeConfig : Config Z := withDefaults (mkConfig $":8080" panics DefaultLimits 0 0 0 0 0).

Definition bindEvents : list event := [NetListen (Some (mkListener $"0.0.0.0:8080")); LoopGo; LoopGo; LoopGo].
Definition acceptEvents : list event := [NetAccept Accepted; LoopGo; LoopGo; LoopGo].
Definition readEvents : list event :=
  [ConnEvent 0 ConnGo; ConnEvent 0 PeekByte; ConnEvent 0 (ParsedRequest exampleRequest)].
Definition shutdownEvents : list event := [ShutdownCall; ShutdownGo; ShutdownGo].

(** The state a run ends in. *)
Definition after (es : list event) : System :=
  default (initSystem (Addr lifeConfig)) (run lifeConfig es (initSystem (Addr lifeConfig))).

Lemma after_run es : is_Some (run lifeConfig es (initSystem (Addr lifeConfig))) ->
  run lifeConfig es (initSystem (Addr lifeConfig)) = Some (after es).
Proof. unfold after. by intros [s ->]. Qed.

Ltac by_run es :=
  exists (after es); split; [apply (run_reachable lifeConfig es), after_run; vm_compute; by eexists|by vm_compute].

Definition handling (s : System) : bool :=
  match goroutines s !! 0%nat with Some (AtHandle _ _) => true | _ => false end.

(** What [Shutdown] does not wait for.  There are runs in which the
    connection the accept loop had in hand has its request handled after
    [Shutdown] returned; in which [ListenAndServe] has returned nil, so that the
    program is about to exit, while a request is being handled and [Shutdown]
    still waits; in which [Shutdown] is called before the listener is stored,
    returns, and the server goes on accepting; and in which a connection that
    was already answered has another request handled during the drain. *)
Theorem Shutdown_gaps :
  (exists s, reachable lifeConfig s /\ (shut s = ShutdownReturned /\ lnClosed s = true /\ handling s = true)) /\
  (exists s, reachable lifeConfig s /\ (loop s = LoopReturned None /\ shut s = AtSelect /\ handling s = true)) /\
  (exists s, reachable lifeConfig s /\ (shut s = ShutdownReturned /\ loop s = AtAccept /\ lnClosed s = false)) /\
  (exists s, reachable lifeConfig s /\ (draining (srv s) = true /\ goroutines s !! 0%nat = Some (AtHandle 1 exampleRequest))).
Proof.
  split_and!.
  - by_run (bindEvents ++ [NetAccept Accepted] ++ shutdownEvents ++ [WgZero; ShutdownGo; LoopGo; LoopGo; LoopGo] ++ readEvents).
  - by_run (bindEvents ++ acceptEvents ++ readEvents ++ shutdownEvents ++ [NetAccept AcceptFailed]).
  - by_run ([NetListen (Some (mkListener $"0.0.0.0:8080"))] ++ shutdownEvents ++ [WgZero; ShutdownGo; LoopGo; LoopGo; LoopGo]).
  - by_run (bindEvents ++ acceptEvents ++ readEvents ++
      [ConnEvent 0 (Handled exampleRequest); ConnEvent 0 WriteOk; ConnEvent 0 ConnGo; ShutdownCall;
       ConnEvent 0 PeekByte; ConnEvent 0 (ParsedRequest exampleRequest)]).
Qed.

(** A run to the drain of one connection. *)
Definition drainRun : list event := bindEvents ++ acceptEvents ++ readEvents ++ shutdownEvents.

Lemma drainRun_reachable : reachable lifeConfig (after drainRun).
Proof. apply (run_reachable lifeConfig drainRun), after_run. vm_compute. by eexists. Qed.

Lemma server_books_witness :
  reachable lifeConfig (after (bindEvents ++ acceptEvents)) /\
  (exists ln, AddrOf (srv (after (bindEvents ++ acceptEvents))) = lnAddr ln) /\
  wg (srv (after (bindEvents ++ acceptEvents))) = 1.
Proof.
  assert (reachable lifeConfig (after (bindEvents ++ acceptEvents))) as Hr.
  { eapply run_reachable, after_run. vm_compute. by eexists. }
  destruct (server_books lifeConfig _ Hr) as (_ & Hw & Ha & _).
  split; [exact Hr|]. split.
  - destruct Ha as (ln & _ & Ha); [by vm_compute|]. by exists ln.
  - rewrite Hw. by vm_compute.
Defined.

Lemma drain_completes_witness :
  exists s', rtc (step lifeConfig) (after drainRun) s' /\ finished s'.
Proof. apply (drain_completes lifeConfig (after drainRun) drainRun_reachable). by vm_compute. Defined.

Lemma Shutdown_leaves_one_witness :
  let s := after (bindEvents ++ [NetAccept Accepted] ++ shutdownEvents ++ [WgZero; ShutdownGo; LoopGo; LoopGo; LoopGo]) in
  (size (goroutines s) + handCount s <= 1)%nat /\ size (goroutines s) = 1%nat.
Proof.
  intros s. split; [|by vm_compute].
  apply (Shutdown_leaves_one lifeConfig s); [|by vm_compute..].
  eapply run_reachable, after_run. vm_compute. by eexists.
Defined.

Definition lateEvents : list event := [ConnEvent 0 (Handled exampleRequest); ConnEvent 0 WriteOk].

Lemma drain_requests_witness :
  is_Some (run lifeConfig lateEvents (after drainRun)) /\ (handles 0 lateEvents <= 1)%nat /\ handles 0 lateEvents = 1%nat.
Proof.
  assert (is_Some (run lifeConfig lateEvents (after drainRun))) as Hs by (vm_compute; by eexists).
  split; [exact Hs|]. split; [|by vm_compute]. destruct Hs as [s' Hs].
  apply (drain_requests lifeConfig lateEvents (after drainRun) s' 0); [exact drainRun_reachable|by vm_compute|exact Hs].
Defined.

Lemma serveLoop_connRun_witness :
  let r := @serveLoop Z exampleRuntime ClockZ lifeConfig $"1.2.3.4:5" (fun _ => (false, false)) 3 0
    (mkReader exampleInput EOF 4096) (mkWriter [] None) 0 in
  let s := after (bindEvents ++ acceptEvents) in
  exists tr (g : Goroutine Z), out g = connOut r /\ handledIn tr = 1 /\
    run lifeConfig (ConnEvent 0 <$> tr) s = Some (withGoroutines (<[0%nat := AtClose]> (goroutines s)) s).
Proof.
  intros r s. assert (connServed r = 1) as En by (by vm_compute).
  destruct (@serveLoop_connRun Z lifeConfig exampleRuntime ClockZ $"1.2.3.4:5" (fun _ => (false, false)) 3 0
    (mkReader exampleInput EOF 4096) (mkWriter [] None) 0) as (tr & g & _ & _ & Ho & _ & Hn & _ & Hp & Hrun); [by vm_compute|].
  fold r in Ho, Hn, Hp. exists tr, g. split; [exact Ho|]. split; [rewrite En in Hn; exact Hn|].
  assert (pc g = AtClose) as Ep by (rewrite Hp; by vm_compute). rewrite Ep in Hrun. apply Hrun.
  - by vm_compute.
  - refine (bool_decide_unpack _ _). by vm_compute.
  - intros n. by vm_compute.
Defined.
