(* ===== verification/MiddlewareProps.v ===== *)
(** * Properties of the middleware chain *)

From S2P Require Import Prelude GoStrings GoIO GoTime GoJSON Headers Status Request Response Handler Middleware Examples.

(** ** Helpers *)

Lemma chainLoop_foldr {W} (mws : list (Middleware W)) i h :
  (i <= length mws)%nat -> chainLoop mws i h = foldr (fun mw h => mw h) h (take i mws).
Proof.
  revert h. induction i as [|i IH]; intros h Hi; [by rewrite take_0|]. cbn [chainLoop].
  destruct (mws !! i) as [mw|] eqn:E.
  - rewrite (take_S_r _ _ _ E : firstn (S i) mws = firstn i mws ++ [mw]), foldr_app. apply IH.
    exact (Nat.lt_le_incl _ _ Hi).
  - apply lookup_ge_None in E.
    exfalso. exact (Nat.lt_irrefl _ (Nat.lt_le_trans _ _ _ Hi E)).
Qed.

Lemma Chain_foldr {W} (mws : list (Middleware W)) h : Chain h mws = foldr (fun mw h => mw h) h mws.
Proof. unfold Chain. rewrite chainLoop_foldr by done. by rewrite firstn_all. Qed.

Lemma Chain_cons {W} (mw : Middleware W) mws h : Chain h (mw :: mws) = mw (Chain h mws).
Proof. by rewrite !Chain_foldr. Qed.

Lemma Chain_app {W} (l k : list (Middleware W)) h : Chain h (l ++ k) = Chain (Chain h k) l.
Proof. by rewrite !Chain_foldr, foldr_app. Qed.

Lemma metaString_setMeta k v r : metaString (setMeta k (MetaStr v) r) k = Some v.
Proof. unfold metaString, setMeta. simpl. by rewrite lookup_insert_eq. Qed.

Lemma hexEncode_length s : len (hexEncode s) = 2 * len s.
Proof.
  unfold hexEncode. induction s as [|c s IH]; [done|]. cbn [mbind list_bind].
  rewrite len_app, IH, len_cons. unfold len. simpl. lia.
Qed.

Lemma CutPrefix_true s p t : CutPrefix s p = (t, true) -> s = p ++ t.
Proof.
  unfold CutPrefix, HasPrefix, beq. case_bool_decide as E; intros; simplify_eq.
  rewrite <- E at 1. by rewrite take_drop.
Qed.

Lemma CutPrefix_app p t : CutPrefix (p ++ t) p = (t, true).
Proof.
  unfold CutPrefix, HasPrefix, beq. rewrite take_app_length, drop_app_length.
  by rewrite bool_decide_true.
Qed.

(** ** Properties *)

Section access.
Context {W : Type} `{Clock W} `{Entropy W} `{!Lens W LogSink} `{!ClockFrame W LogSink}.

(** What the access chain relies on. *)
Record transparent (next : Handler W) : Prop := {
  tr_id : forall y, metaString (xreq (next y).2) $"request_id" = metaString (xreq y) $"request_id";
  tr_header : forall y, Get (headers (xw (next y).2)) $"X-Request-ID" = Get (headers (xw y)) $"X-Request-ID";
  tr_log : forall y, view (xst (next y).2) = view (A := LogSink) (xst y);
}.
Record entropyOk : Prop := {
  en_len : forall n st, 0 <= n -> len (randRead n st).1 = n;
  en_log : forall n st, view (randRead n st).2 = view (A := LogSink) st;
}.

Lemma Get_Error_id w s msg : Get (headers (Error w s msg)) $"X-Request-ID" = Get (headers w) $"X-Request-ID".
Proof.
  destruct (hijacked w) eqn:E; [by unfold Error; rewrite E|].
  rewrite headers_Error by done. autorewrite with pulse. rewrite decide_False; [done|].
  intros Hc. by vm_compute in Hc.
Qed.

End access.

(** [Chain] nests the middlewares in list order, the first one outermost,
    and applies each exactly once. *)
Theorem Chain_nests {W} (mws : list (Middleware W)) (h : Handler W) :
  Chain h mws = foldr (fun mw inner => mw inner) h mws.
Proof. apply Chain_foldr. Qed.

(** C30: behind [Logging], [RequestID] and [Recover], as the demo server chains
    them, every request returns and writes exactly one access line, whatever
    the handler does, panics included.  The line has no byte below 32, so no
    header or target a client chooses can forge a second line; its status and
    size are those of the response, and its id is the response's
    [X-Request-ID], which is the client's own id when it sent one and 12
    characters otherwise. *)
Theorem access_log {W : Type} `{Clock W} `{Entropy W} `{!Lens W LogSink} `{!ClockFrame W LogSink}
    (next : Handler W) (x : Exch W) :
  transparent next -> entropyOk (W := W) ->
  let res := Chain next [Logging; RequestID; Recover] x in
  let sent := Get (ReqHeaders (xreq x)) $"X-Request-ID" in
  let id := Get (headers (xw res.2)) $"X-Request-ID" in
  res.1 = Returned /\
  (sent <> [] -> id = sent) /\ (sent = [] -> len id = 12) /\
  (exists y, xw res.2 = match (next y).1 with
                       | Returned => xw (next y).2
                       | Panicked => Error (xw (next y).2) StatusInternalServerError $"internal error"
                       end) /\
  exists rec, Forall printing (jsonEncode (accessJSON rec)) /\
    logged (view (xst res.2)) = logged (view (xst x)) ++ [jsonEncode (accessJSON rec) ++ [nl]] /\
    RecRequestID rec = id /\ RecStatus rec = status (xw res.2) /\ Bytes rec = len (body (xw res.2)).
Proof.
  intros [Tid Thd Tlog] [El Ev]. rewrite Chain_foldr. cbn [foldr]. unfold Logging.
  pose proof (clock_frame (xst x)) as F1. destruct (timeNow (xst x)) as [start st1].
  cbn [snd] in F1. unfold RequestID. cbn [xreq withSt xst].
  set (sent := Get (ReqHeaders (xreq x)) $"X-Request-ID").
  destruct (if beq sent [] then _ else _) as [id x1] eqn:E1.
  assert (view (A := LogSink) (xst x1) = view (xst x) /\
    (sent <> [] -> id = sent) /\ (sent = [] -> len id = 12)) as (F2 & Hs1 & Hs2).
  { destruct (beq sent []) eqn:Eb; unfold beq in Eb.
    - apply bool_decide_eq_true in Eb. pose proof (El 6 st1 ltac:(lia)). pose proof (Ev 6 st1).
      destruct (randRead 6 st1) as [b st2]. cbn [fst snd] in *. simplify_eq. cbn.
      split_and!; [congruence|done|intros _; rewrite hexEncode_length; lia].
    - apply bool_decide_eq_false in Eb. simplify_eq. cbn. by split_and!. }
  set (y := onW _ (onReq _ x1)).
  assert (Get (headers (xw y)) $"X-Request-ID" = id) as Hy1.
  { unfold y, onW, setHeader. cbn. autorewrite with pulse. by rewrite decide_True. }
  assert (metaString (xreq y) $"request_id" = Some id) as Hy2 by apply metaString_setMeta.
  assert (view (A := LogSink) (xst y) = view (xst x)) as Hy3 by done.
  specialize (Thd y). specialize (Tid y). specialize (Tlog y).
  unfold Recover, withRecover. destruct (next y) as [f z] eqn:En. cbn [fst snd] in *.
  set (w' := match f with Returned => xw z
             | Panicked => Error (xw z) StatusInternalServerError $"internal error" end).
  assert (Get (headers w') $"X-Request-ID" = id) as Hw.
  { unfold w'. destruct f; [congruence|]. rewrite Get_Error_id. congruence. }
  set (x' := {| xreq := xreq z; xw := w'; xst := xst z |}).
  assert (match f with Returned => (Returned, z) | Panicked => (Returned, onW (fun w =>
    Error w StatusInternalServerError $"internal error") z) end = (Returned, x')) as ->.
  { unfold x', w'. by destruct f, z. }
  cbn [andThen]. pose proof (clock_frame (xst x')) as F3.
  destruct (timeNow (xst x')) as [now st4]. cbn [fst snd xw xst withSt] in *.
  subst x'. cbn [xw xst xreq] in *. rewrite Hw. split_and!; try done.
  - exists y. by rewrite En.
  - eexists. split; [apply jsonEncode_printing|]. rewrite view_put. cbn [logWrite logged].
    split_and!; [rewrite F3, Tlog, Hy3; reflexivity|cbn; by rewrite Tid, Hy2|done|done].
Qed.

(** A world of a clock and a log, whose entropy is constant. *)
#[local] Instance lensLog : Lens (Z * LogSink) LogSink :=
  {| view := snd; put a w := (fst w, a);
     view_put _ _ := eq_refl; put_view w := ltac:(by destruct w); put_put _ _ _ := eq_refl |}.
#[local] Instance clockLog : Clock (Z * LogSink) := fun w => (fst w, (fst w + 1, snd w)).
#[local] Instance clockFrameLog : ClockFrame (Z * LogSink) LogSink := fun _ => eq_refl.
#[local] Instance entropyLog : Entropy (Z * LogSink) := fun n w => (replicate (Z.to_nat n) "a"%char, w).

Definition boom : Handler (Z * LogSink) := fun x => (Panicked, onW (fun w => Write w $"half") x).
Definition freshExch : Exch (Z * LogSink) :=
  {| xreq := exampleRequest; xw := NewResponseWriter; xst := (0, mkLogSink []) |}.

Lemma access_log_witness :
  let res := Chain boom [Logging; RequestID; Recover] freshExch in
  res.1 = Returned /\ exists rec, logged (view (xst res.2)) = [jsonEncode (accessJSON rec) ++ [nl]] /\
    RecStatus rec = 500.
Proof.
  destruct (access_log boom freshExch) as (E & _ & _ & _ & rec & _ & L & _ & S & _).
  - constructor; intros y; [reflexivity| |reflexivity].
    unfold boom, onW, Write. cbn [fst snd xw]. by destruct (hijacked (xw y)).
  - constructor; [|done]. intros n st Hn. unfold randRead, entropyLog, len. cbn [fst].
    rewrite length_replicate. lia.
  - split; [exact E|]. exists rec. split; [exact L|]. rewrite S. by vm_compute.
Defined.

(** ** Bearer authorization *)

(** The request carries the bearer token [tok]. *)
Definition presents (h : Headers) (tok : bytes) : Prop :=
  exists raw, Get h $"Authorization" = $"Bearer " ++ raw /\ TrimSpace raw = tok.

(** The four outcomes of the check. *)
Lemma BearerAuth_cases {W : Type} (cfg : AuthConfig) (next : Handler W) (x : Exch W) :
  hijacked (xw x) = false ->
  let need := RequiredRole cfg (Path (xreq x)) in
  let res := BearerAuth cfg next x in
  let challenge := Values (headers (xw res.2)) $"WWW-Authenticate" in
  (need = RoleAnonymous /\ res = next x) \/
  (need <> RoleAnonymous /\ exists tok role,
     presents (ReqHeaders (xreq x)) tok /\ Tokens cfg !! tok = Some role /\ need <= role /\
     res = next (onReq (setMeta $"role" (MetaRole role)) x)) \/
  (need <> RoleAnonymous /\ exists tok role,
     presents (ReqHeaders (xreq x)) tok /\ Tokens cfg !! tok = Some role /\ role < need /\
     refused x res StatusForbidden /\
     challenge = Values (headers (xw x)) $"WWW-Authenticate") \/
  (need <> RoleAnonymous /\
     (forall tok, presents (ReqHeaders (xreq x)) tok -> Tokens cfg !! tok = None) /\
     refused x res StatusUnauthorized /\
     exists ch, challenge = [$"Bearer realm=" ++ ch]).
Proof.
  intros Hh need res challenge. unfold challenge, res. clear challenge res.
  assert (canonical $"Content-Type" <> canonical $"WWW-Authenticate") as Hne
    by (intros E; by vm_compute in E).
  assert (forall s msg, refused x (respond (fun _ w => Error w s msg) x) s) as Hrf.
  { intros s msg. constructor; try done. by apply isError_Error. }
  assert (forall v s msg, refused x (respond (fun _ w => Error (setHeader w $"WWW-Authenticate" v) s msg) x) s /\
    Values (headers (xw (respond (fun _ w => Error (setHeader w $"WWW-Authenticate" v) s msg) x).2))
      $"WWW-Authenticate" = [v]) as Hrf2.
  { intros v s msg. split; [constructor; try done; by apply isError_Error|].
    cbn. rewrite headers_Error by done. unfold setHeader. cbn [headers withHeaders].
    autorewrite with pulse. by rewrite decide_False, decide_True. }
  unfold BearerAuth. fold need. destruct (Z.eqb_spec need RoleAnonymous) as [E|Hneed]; [by left|right].
  set (raw := Get (ReqHeaders (xreq x)) $"Authorization").
  destruct (CutPrefix raw $"Bearer ") as [token isBearer] eqn:Ec.
  destruct (beq raw [] || negb isBearer) eqn:Eb.
  - right; right. split; [done|]. split_and!.
    + intros tok (raw' & Er & _). fold raw in Er. rewrite Er, CutPrefix_app in Ec. simplify_eq.
      rewrite Er in Eb. by vm_compute in Eb.
    + apply Hrf2.
    + eexists. apply Hrf2.
  - apply orb_false_elim in Eb as [_ Eb]. destruct isBearer; [|done]. apply CutPrefix_true in Ec.
    assert (presents (ReqHeaders (xreq x)) (TrimSpace token)) as Hp by (by exists token).
    destruct (Tokens cfg !! TrimSpace token) as [role|] eqn:Et.
    + destruct (Z.ltb_spec role need) as [Hlt|Hge].
      * right; left. split; [done|]. exists (TrimSpace token), role. split_and!; try done.
        { constructor; try done. by apply isError_Error. }
        cbn. rewrite headers_Error by done. autorewrite with pulse. by rewrite decide_False.
      * left. split; [done|]. by exists (TrimSpace token), role.
    + right; right. split; [done|]. split_and!.
      * intros tok (raw' & Er & Et'). fold raw in Er. rewrite Ec in Er. apply app_inv_head in Er. by subst.
      * apply Hrf2.
      * eexists. apply Hrf2.
Qed.

(** C13: the 401/403 boundary.  A path that needs no role passes; otherwise the
    handler runs exactly when the request presents a known token whose role is
    high enough, and then sees that role; a known token with a lower role is
    403 and gets no challenge; no, malformed or unknown credentials are 401
    with a [WWW-Authenticate] challenge.  A refused request changes nothing but
    its response. *)
Theorem BearerAuth_decision {W : Type} (cfg : AuthConfig) (next : Handler W) (x : Exch W) :
  hijacked (xw x) = false ->
  let need := RequiredRole cfg (Path (xreq x)) in
  let res := BearerAuth cfg next x in
  let challenge := Values (headers (xw res.2)) $"WWW-Authenticate" in
  (need = RoleAnonymous /\ res = next x) \/
  (need <> RoleAnonymous /\ exists tok role,
     presents (ReqHeaders (xreq x)) tok /\ Tokens cfg !! tok = Some role /\ need <= role /\
     res = next (onReq (setMeta $"role" (MetaRole role)) x)) \/
  (need <> RoleAnonymous /\ exists tok role,
     presents (ReqHeaders (xreq x)) tok /\ Tokens cfg !! tok = Some role /\ role < need /\
     refused x res StatusForbidden /\
     challenge = Values (headers (xw x)) $"WWW-Authenticate") \/
  (need <> RoleAnonymous /\
     (forall tok, presents (ReqHeaders (xreq x)) tok -> Tokens cfg !! tok = None) /\
     refused x res StatusUnauthorized /\
     exists ch, challenge = [$"Bearer realm=" ++ ch]).
Proof. apply BearerAuth_cases. Qed.

Definition demoTokens : AuthConfig :=
  {| Tokens := {[ $"user" := RoleUser; $"admin" := RoleAdmin ]}; RequiredRole _ := RoleAdmin |}.

Definition withHeader (r : Request) (k v : bytes) : Request :=
  mkRequest (Method r) (RawTarget r) (Path r) (Proto r) (Query r) (Set_ (ReqHeaders r) k v) (Body r)
    (RemoteAddr r) (PathParams r) (Meta r).

Lemma BearerAuth_decision_witness :
  let x := onReq (fun r => withHeader r $"Authorization" $"Bearer user") freshExch in
  status (xw (BearerAuth demoTokens boom x).2) = StatusForbidden.
Proof.
  destruct (BearerAuth_decision demoTokens boom
    (onReq (fun r => withHeader r $"Authorization" $"Bearer user") freshExch) eq_refl)
    as [[E _]|[(_ & tok & role & (raw & Er & Et) & Hr & Hl & _)|[(_ & tok & role & _ & _ & _ & R & _)|(_ & N & _)]]].
  - by vm_compute in E.
  - exfalso. assert (raw = $"user") as -> by (vm_compute in Er; vm_compute; congruence).
    subst tok. vm_compute in Hr. vm_compute in Hl. simplify_eq.
  - apply (err_status _ _ (rf_error _ _ _ R)).
  - exfalso. specialize (N $"user"). discriminate N. by exists $"user".
Defined.
