(* ===== verification/RouterProps.v ===== *)
(** * Properties of the router *)

From S2P Require Import Prelude GoStrings GoIO Headers Status Request Response Handler Router Examples.

(** ** Matching *)

Definition segMatches (s : segment) (part : bytes) : Prop := param s <> [] \/ literal s = part.

(** The parameters a match captures; the last one of a name wins. *)
Definition bindings (segs : list segment) (parts : list bytes) (params : gmap bytes bytes)
    : gmap bytes bytes :=
  foldl (fun m '(s, part) => if decide (param s = []) then m else <[param s := part]> m)
    params (zip segs parts).

Lemma matchLoop_spec segs parts params params' :
  length segs = length parts ->
  matchLoop segs parts params = Some params' <->
  Forall2 segMatches segs parts /\ params' = bindings segs parts params.
Proof.
  revert parts params. induction segs as [|s segs IH]; intros [|part parts] params Hl; try done.
  { unfold bindings. simpl. split; [intros; simplify_eq; by split|by intros [_ ->]]. }
  simpl in Hl. cbn [matchLoop]. unfold bindings. cbn [zip zip_with foldl].
  rewrite Forall2_cons_iff. unfold segMatches at 1, beq.
  destruct (decide (param s = [])) as [->|Hp].
  - rewrite bool_decide_true by done. cbn [negb].
    case_bool_decide as El; cbn [negb]; [rewrite IH by lia; naive_solver|naive_solver].
  - rewrite bool_decide_false by done. cbn [negb]. rewrite IH by lia. naive_solver.
Qed.

Lemma match_spec segs parts params :
  match_ segs parts = Some params <->
  Forall2 segMatches segs parts /\ params = bindings segs parts ∅.
Proof.
  unfold match_. destruct (Z.eqb_spec (len segs) (len parts)) as [E|E]; cbn [negb].
  - apply matchLoop_spec. unfold len in E. lia.
  - split; [done|]. intros [HF _]. apply Forall2_length in HF. unfold len in E. lia.
Qed.

Lemma match_None segs parts : match_ segs parts = None <-> ~ Forall2 segMatches segs parts.
Proof.
  destruct (match_ segs parts) as [params|] eqn:E.
  - apply match_spec in E as [? _]. split; [done|]. by intros [].
  - split; [|done]. intros _ HF.
    assert (match_ segs parts = Some (bindings segs parts ∅)) by (by apply match_spec). congruence.
Qed.

(** ** Dispatch *)

Section dispatch.
Context {W : Type}.

Definition fits (parts : list bytes) (rt : route W) : Prop := Forall2 segMatches (segments rt) parts.
Definition serves (parts : list bytes) (m : bytes) (rt : route W) : Prop :=
  fits parts rt /\ methodOk (method rt) m = true.

Lemma dispatchLoop_spec (rts : list (route W)) parts m allowed :
  match dispatchLoop rts parts m allowed with
  | inl (params, h) => exists pre rt post, rts = pre ++ rt :: post /\
      Forall (fun rt => ~ serves parts m rt) pre /\ serves parts m rt /\
      params = bindings (segments rt) parts ∅ /\ h = handler rt
  | inr verbs => Forall (fun rt => ~ serves parts m rt) rts /\
      forall v, v ∈ verbs <-> v ∈ allowed \/ exists rt, rt ∈ rts /\ fits parts rt /\ method rt = v
  end.
Proof.
  revert allowed. induction rts as [|rt rts IH]; intros allowed; cbn [dispatchLoop].
  { split; [done|]. intros v. split; [auto|]. intros [?|(rt & Hx & _)]; [done|]. inversion Hx. }
  destruct (match_ (segments rt) parts) as [params|] eqn:E.
  - apply match_spec in E as [HF ->]. destruct (methodOk (method rt) m) eqn:Em.
    { exists [], rt, rts. by split_and!. }
    specialize (IH ({[method rt]} ∪ allowed)).
    destruct (dispatchLoop rts parts m _) as [[params h]|verbs].
    + destruct IH as (pre & rt' & post & -> & Hpre & ?). exists (rt :: pre), rt', post.
      split; [done|]. split; [|done]. constructor; [|done]. unfold serves. intros [_ ?]. congruence.
    + destruct IH as [Hn Hv]. split; [constructor; [unfold serves; intros [_ ?]; congruence|done]|].
      intros v. rewrite Hv, elem_of_union, elem_of_singleton. setoid_rewrite elem_of_cons. naive_solver.
  - apply match_None in E. specialize (IH allowed).
    destruct (dispatchLoop rts parts m allowed) as [[params h]|verbs].
    + destruct IH as (pre & rt' & post & -> & Hpre & ?). exists (rt :: pre), rt', post.
      split; [done|]. split; [|done]. constructor; [|done]. by intros [? _].
    + destruct IH as [Hn Hv]. split; [constructor; [by intros [? _]|done]|].
      intros v. rewrite Hv. setoid_rewrite elem_of_cons. naive_solver.
Qed.

End dispatch.

(** ** The order of verbs *)

Lemma bytes_leb_total s t : bytes_leb s t = true \/ bytes_leb t s = true.
Proof.
  revert t. induction s as [|c s IH]; intros [|d t]; simpl; auto.
  destruct (Z.ltb_spec (bz c) (bz d)), (Z.ltb_spec (bz d) (bz c)); auto.
Qed.

#[global] Instance bytes_le_total : Total bytes_le.
Proof. exact bytes_leb_total. Qed.

Lemma sortStrings_spec (l : list bytes) : Sorted bytes_le (sortStrings l) /\ sortStrings l ≡ₚ l.
Proof. split; [apply (Sorted_merge_sort _)|apply merge_sort_Permutation]. Qed.

(** ** Splitting what was joined *)

Lemma trimLeftBy_stop f c s : f c = false -> trimLeftBy f (c :: s) = c :: s.
Proof. simpl. by intros ->. Qed.

Lemma trimRightBy_stop f s c : last s = Some c -> f c = false -> trimRightBy f s = s.
Proof.
  intros Hl Hf. apply last_Some in Hl as [s' ->]. unfold trimRightBy.
  rewrite rev_app_distr. simpl. rewrite Hf. simpl. by rewrite rev_involutive.
Qed.

Definition plain (part : bytes) : Prop := part <> [] /\ slash ∉ part.

Lemma Split_Join parts : parts <> [] -> Forall plain parts -> Split (Join parts [slash]) slash = parts.
Proof.
  intros Hne HF. induction HF as [|p parts [Hp1 Hp2] HF IH]; [done|].
  destruct parts as [|q parts]; [by apply Split_one|].
  cbn [Join app]. rewrite Split_cons by done. f_equal. by apply IH.
Qed.

Lemma Join_last parts :
  parts <> [] -> Forall plain parts -> exists c, last (Join parts [slash]) = Some c /\ c <> slash.
Proof.
  intros Hne HF. induction HF as [|p parts [Hp1 Hp2] HF IH]; [done|].
  destruct parts as [|q parts].
  - destruct (last p) as [c|] eqn:E; [|by apply last_None in E].
    exists c. split; [done|]. intros ->. apply Hp2. apply last_Some in E as [l ->]. set_solver.
  - destruct IH as (c & E & Hc); [done|]. exists c. split; [|done].
    change (last (p ++ [slash] ++ Join (q :: parts) [slash]) = Some c).
    by rewrite !last_app, E.
Qed.

(** A path spelled from its segments. *)
Definition pathOf (parts : list bytes) : bytes := slash :: Join parts [slash].

Lemma splitPath_pathOf parts : parts <> [] -> Forall plain parts -> splitPath (pathOf parts) = parts.
Proof.
  intros Hne HF. unfold splitPath, pathOf, Trim.
  assert (forall c, c <> slash -> bool_decide (c ∈ $"/") = false) as Hs.
  { intros c Hc. apply bool_decide_eq_false. intros Hx. apply Hc.
    change ($"/") with [slash] in Hx. set_solver. }
  change (trimLeftBy ?f (slash :: ?s)) with (trimLeftBy f s).
  destruct (Join_last parts Hne HF) as (c & Hl & Hc).
  destruct parts as [|[|d p] parts]; [done|by apply Forall_cons in HF as [[? _] _]|].
  assert (exists s, Join ((d :: p) :: parts) [slash] = d :: s) as [s Es] by (destruct parts; simpl; eauto).
  rewrite Es in *. rewrite trimLeftBy_stop, <- Es; [|apply Hs; intros ->].
  - rewrite (trimRightBy_stop _ _ c); [by apply Split_Join|by rewrite Es|by apply Hs].
  - apply Forall_cons in HF as [[_ Hp] _]. set_solver.
Qed.

(** ** Properties *)

(** C14: dispatch.  The first registered route that fits the path and serves
    the verb (GET routes serve HEAD) gets the request with the parameters its
    pattern captures; when routes fit the path but none serves the verb, the
    answer is 405 whose [Allow] lists each of their verbs once, in order; when
    no route fits, and only then, [NotFound] runs. *)
Theorem Serve_dispatch {W : Type} (r : Router W) (x : Exch W) :
  hijacked (xw x) = false ->
  let parts := splitPath (Path (xreq x)) in
  let m := Method (xreq x) in
  let res := Serve r x in
  (exists pre rt post, routes r = pre ++ rt :: post /\
     Forall (fun rt => ~ serves parts m rt) pre /\ serves parts m rt /\
     res = handler rt (onReq (setPathParams (bindings (segments rt) parts ∅)) x)) \/
  (Forall (fun rt => ~ serves parts m rt) (routes r) /\ Exists (fits parts) (routes r) /\
     refused x res StatusMethodNotAllowed /\
     exists verbs, Values (headers (xw res.2)) $"Allow" = [Join verbs $", "] /\
       Sorted bytes_le verbs /\ NoDup verbs /\
       forall v, v ∈ verbs <-> exists rt, rt ∈ routes r /\ fits parts rt /\ method rt = v) \/
  (Forall (fun rt => ~ fits parts rt) (routes r) /\ res = NotFound r x).
Proof.
  intros Hh parts m res. unfold res, Serve. fold parts m. clear res.
  pose proof (dispatchLoop_spec (routes r) parts m ∅) as D.
  destruct (dispatchLoop (routes r) parts m ∅) as [[params h]|verbs].
  { left. destruct D as (pre & rt & post & -> & ? & ? & -> & ->). by exists pre, rt, post. }
  right. destruct D as [Hn Hv]. destruct (Z.ltb_spec 0 (Z.of_nat (size verbs))) as [Hs|Hs].
  - left. split; [done|]. split_and!.
    + destruct (decide (verbs = ∅)) as [->|Hne]; [by rewrite size_empty in Hs|].
      apply set_choose_L in Hne as [v Hin]. apply Hv in Hin as [?|(rt & ? & ? & _)]; [set_solver|].
      apply Exists_exists. by exists rt.
    + constructor; try done. by apply isError_Error.
    + destruct (sortStrings_spec (elements verbs)) as [HS HP].
      exists (sortStrings (elements verbs)). split_and!; [|done|rewrite HP; apply NoDup_elements|].
      * cbn. rewrite headers_Error by done. unfold setHeader. cbn [headers withHeaders].
        autorewrite with pulse. rewrite decide_False, decide_True by (done || (intros E; by vm_compute in E)). done.
      * intros v. rewrite HP, elem_of_elements, Hv. set_solver.
  - right. split; [|done]. apply Forall_forall. intros rt Hin HF.
    assert (method rt ∈ verbs) as Hm by (apply Hv; right; by exists rt).
    assert (size verbs = 0%nat) as Hz by lia. apply size_empty_inv in Hz. set_solver.
Qed.

(** ** Patterns *)

Inductive piece := Lit (s : bytes) | Par (name value : bytes).

Definition patternPart (p : piece) : bytes := match p with Lit s => s | Par n _ => colon :: n end.
Definition pathPart (p : piece) : bytes := match p with Lit s => s | Par _ v => v end.
Definition parName (p : piece) : option bytes := match p with Lit _ => None | Par n _ => Some n end.
Definition pieceOk (p : piece) : Prop :=
  match p with
  | Lit s => plain s /\ head s <> Some colon
  | Par n v => plain n /\ plain v
  end.

Definition pieceSegment (p : piece) : segment :=
  match p with Lit s => mkSegment s [] | Par n _ => mkSegment [] n end.

Lemma parseSegment_piece p : pieceOk p -> parseSegment (patternPart p) = pieceSegment p.
Proof.
  destruct p as [s|n v]; simpl.
  - intros [[Hs _] Hh]. unfold parseSegment, HasPrefix, beq. change (length $":") with 1%nat.
    destruct s as [|c s]; [done|]. rewrite bool_decide_false; [done|].
    cbn. rewrite ?take_0. intros E. apply Hh. by injection E as ->.
  - intros _. unfold parseSegment, HasPrefix, beq. cbn. by rewrite ?take_0.
Qed.

Lemma piece_plain p : pieceOk p -> plain (patternPart p) /\ plain (pathPart p).
Proof.
  destruct p as [s|n v]; simpl; [by intros [? _]|]. intros [[Hn Hs] Hv]. split; [|done].
  split; [done|]. apply not_elem_of_cons. split; [|done]. intros E. by vm_compute in E.
Qed.

Lemma piece_matches pieces :
  Forall pieceOk pieces -> Forall2 segMatches (pieceSegment <$> pieces) (pathPart <$> pieces).
Proof.
  intros HF. induction HF as [|[s|n v] pieces Hp HF IH]; constructor; try done; [by right|].
  left. apply Hp.
Qed.

Lemma piece_bindings pieces params n v :
  Forall pieceOk pieces -> NoDup (omap parName pieces) ->
  (forall n, n ∈ omap parName pieces -> params !! n = None) ->
  bindings (pieceSegment <$> pieces) (pathPart <$> pieces) params !! n = Some v <->
  params !! n = Some v \/ Par n v ∈ pieces.
Proof.
  intros HF. revert params. induction HF as [|[s|k u] pieces Hp HF IH]; intros params Hnd Hfresh.
  - split; [by left|]. intros [?|Hx]; [done|inversion Hx].
  - unfold bindings. cbn [fmap list_fmap zip zip_with foldl pieceSegment param].
    rewrite decide_True by done. etransitivity; [by apply IH|]. rewrite elem_of_cons. naive_solver.
  - cbn in Hnd, Hfresh. apply NoDup_cons in Hnd as [Hk Hnd].
    unfold bindings. cbn [fmap list_fmap zip zip_with foldl pieceSegment param pathPart].
    rewrite decide_False by apply Hp. etransitivity; [apply IH; [done|]|].
    { intros n' Hn'. rewrite lookup_insert_ne by congruence. apply Hfresh. by right. }
    rewrite elem_of_cons, lookup_insert.
    pose proof (Hfresh k ltac:(by left)). destruct (decide (k = n)) as [->|]; naive_solver.
Qed.

(** Patterns and the paths they describe.  A route registered for a
    pattern of literal and parameter segments, which no earlier route shadows,
    gets the request for the path spelled with any non-empty values for the
    parameters, and finds exactly those values under the parameters' names. *)
Theorem Handle_roundtrip {W : Type} (r : Router W) (m : bytes) (pieces : list piece) (h : Handler W)
    (x : Exch W) :
  pieces <> [] -> Forall pieceOk pieces -> NoDup (omap parName pieces) ->
  Path (xreq x) = pathOf (pathPart <$> pieces) -> Method (xreq x) = m ->
  Forall (fun rt => ~ serves (pathPart <$> pieces) m rt) (routes r) ->
  exists params,
    Serve (Handle r m (pathOf (patternPart <$> pieces)) h) x = h (onReq (setPathParams params) x) /\
    forall n v, params !! n = Some v <-> Par n v ∈ pieces.
Proof.
  intros Hne HF Hnd Hp Hm Hn.
  assert (splitPath (pathOf (patternPart <$> pieces)) = patternPart <$> pieces) as E1.
  { apply splitPath_pathOf; [by destruct pieces|]. apply Forall_fmap.
    eapply Forall_impl; [exact HF|]. intros p Hpo. by apply piece_plain. }
  assert (splitPath (Path (xreq x)) = pathPart <$> pieces) as E2.
  { rewrite Hp. apply splitPath_pathOf; [by destruct pieces|]. apply Forall_fmap.
    eapply Forall_impl; [exact HF|]. intros p Hpo. by apply piece_plain. }
  assert (parseSegment <$> (patternPart <$> pieces) = pieceSegment <$> pieces) as E3.
  { rewrite <- list_fmap_compose. apply list_fmap_ext. intros i p Hi.
    apply parseSegment_piece. by eapply Forall_lookup_1. }
  unfold Serve, Handle. cbn [routes]. rewrite E1, E2, E3, Hm.
  pose proof (dispatchLoop_spec (routes r ++ [mkRoute m (pieceSegment <$> pieces) h])
    (pathPart <$> pieces) m ∅) as D.
  assert (serves (pathPart <$> pieces) m (mkRoute m (pieceSegment <$> pieces) h)) as Hs.
  { split; [by apply piece_matches|]. unfold methodOk, beq. by rewrite bool_decide_true. }
  destruct (dispatchLoop _ _ _ _) as [[params h']|verbs].
  - destruct D as (pre & rt & post & Eq & Hpre & Hrt & -> & ->).
    destruct post as [|rt' post] using rev_ind.
    + apply app_inj_tail in Eq as [_ <-]. eexists. split; [done|]. intros n v.
      etransitivity; [by apply piece_bindings|]. split; [by intros [|]|by right].
    + rewrite app_comm_cons, app_assoc in Eq. apply app_inj_tail in Eq as [Eq _].
      rewrite Eq in Hn. apply Forall_app in Hn as [_ Hn]. by apply Forall_cons in Hn as [? _].
  - destruct D as [D _]. apply Forall_app in D as [_ D]. by apply Forall_cons in D as [? _].
Qed.

Definition userPieces : list piece := [Lit $"users"; Par $"id" $"42"].

Definition showId : Handler Z := respond (fun req w => Write w (default [] (PathParams req !! $"id"))).

Definition atPath (p m : bytes) : Exch Z :=
  {| xreq := mkRequest m p p $"HTTP/1.1" ∅ NewHeaders [] [] ∅ ∅; xw := NewResponseWriter; xst := 0 |}.

Lemma Handle_roundtrip_witness :
  body (xw (Serve (Handle New $"GET" $"/users/:id" showId) (atPath $"/users/42" $"GET")).2) = $"42".
Proof.
  destruct (Handle_roundtrip New $"GET" userPieces showId (atPath $"/users/42" $"GET"))
    as (params & E & Hp).
  - done.
  - repeat constructor; try done; intros Hx; absurd_elem Hx.
  - refine (bool_decide_unpack _ _). by vm_compute.
  - by vm_compute.
  - done.
  - constructor.
  - change (Handle New _ $"/users/:id" showId)
      with (Handle New $"GET" (pathOf (patternPart <$> userPieces)) showId).
    rewrite E. assert (params !! $"id" = Some $"42") as Hid by (apply Hp; right; left).
    unfold showId, respond, onW, onReq, setPathParams. cbn [snd xw xreq PathParams].
    by rewrite Hid.
Defined.

Lemma Serve_dispatch_witness :
  status (xw (Serve (Handle New $"GET" $"/users/:id" showId) (atPath $"/users/42" $"PUT")).2) = 405.
Proof.
  destruct (Serve_dispatch (Handle New $"GET" $"/users/:id" showId) (atPath $"/users/42" $"PUT") eq_refl)
    as [(pre & rt & post & Eq & _ & [_ Hm] & _)|[(_ & _ & R & _)|[Hn _]]].
  - exfalso. destruct pre as [|rt' pre].
    + injection Eq as <- _. by vm_compute in Hm.
    + injection Eq as _ Eq. by destruct pre.
  - apply (err_status _ _ (rf_error _ _ _ R)).
  - exfalso. apply Forall_cons in Hn as [Hn _]. apply Hn. apply match_spec with (params := {[ $"id" := $"42" ]}).
    by vm_compute.
Defined.
