(* ===== verification/RateLimitProps.v ===== *)
(** * Properties of the rate limiter

    On whole seconds, with an integral rate and burst, every float operation of
    [take] is exact, and the limiter is an integer token bucket: that bucket is
    the specification, [take] refines it, and its bounds hold of the code.  The
    janitor's idle period is computed by a division that rounds; it covers the
    refill of a bucket as long as its nanoseconds fit an [int64]. *)

From S2P Require Import Prelude GoStrings GoFloat GoIO GoTime Headers Status Request Response Handler RateLimit Examples.
From Stdlib Require Import SpecFloat.

(** ** The integer token bucket *)

(** Tokens and time of the last request, per key. *)
Abbreviation specBuckets := (gmap bytes (Z * Z)).

Definition specTake (B r : Z) (key : bytes) (s : Z) (m : specBuckets) : bool * specBuckets :=
  let '(t, l) := default (B, s) (m !! key) in
  let t := Z.min B (t + (s - l) * r) in
  if 1 <=? t then (true, <[key := (t - 1, s)]> m) else (false, <[key := (t, s)]> m).

Fixpoint specRun (B r : Z) (sched : list (Z * bytes)) (m : specBuckets) : list (bytes * bool) :=
  match sched with
  | [] => []
  | (s, key) :: sched' =>
    let '(ok, m) := specTake B r key s m in (key, ok) :: specRun B r sched' m
  end.

(** How many of [key]'s requests were admitted. *)
Definition admitted (key : bytes) (l : list (bytes * bool)) : Z :=
  len (filter (fun p => p.1 = key /\ p.2 = true) l).

Lemma admitted_cons key k ok l :
  admitted key ((k, ok) :: l) = (if decide (k = key /\ ok = true) then 1 else 0) + admitted key l.
Proof.
  unfold admitted. destruct (decide (k = key /\ ok = true)) as [Hk|Hk].
  - rewrite filter_cons_True by done. by rewrite len_cons.
  - rewrite filter_cons_False by done. lia.
Qed.

(** Times that do not decrease, between two bounds. *)
Fixpoint ordered {A} (lo : Z) (sched : list (Z * A)) (hi : Z) : Prop :=
  match sched with
  | [] => lo <= hi
  | (s, _) :: sched' => lo <= s /\ ordered s sched' hi
  end.

Lemma ordered_le {A} lo (sched : list (Z * A)) hi : ordered lo sched hi -> lo <= hi.
Proof. revert lo. induction sched as [|[s a] l IH]; simpl; [done|]. intros lo [? H]. apply IH in H. lia. Qed.

Lemma specTake_other B r key key' s m :
  key <> key' -> (specTake B r key s m).2 !! key' = m !! key'.
Proof.
  intros Hne. unfold specTake. destruct (default _ _) as [t l].
  destruct (1 <=? _); by apply lookup_insert_ne.
Qed.

Lemma specTake_same B r key s m t l :
  default (B, s) (m !! key) = (t, l) ->
  let t' := Z.min B (t + (s - l) * r) in
  specTake B r key s m = (1 <=? t', <[key := (t' - (if 1 <=? t' then 1 else 0), s)]> m).
Proof.
  intros E. unfold specTake. rewrite E.
  destruct (1 <=? _); [done|]. by rewrite Z.sub_0_r.
Qed.

Lemma specRun_bound B r sched key m lo hi :
  0 <= r -> ordered lo sched hi ->
  match m !! key with
  | Some (t, l) => 0 <= t <= B /\ l <= lo ->
    admitted key (specRun B r sched m) <= Z.min B (t + (lo - l) * r) + (hi - lo) * r
  | None => 0 <= B -> admitted key (specRun B r sched m) <= B + (hi - lo) * r
  end.
Proof.
  intros Hr. revert lo m. induction sched as [|[s k] sched IH]; intros lo m Ho.
  { simpl in Ho. change (admitted key (specRun B r [] m)) with 0. destruct (m !! key) as [[t l]|]; intros; nia. }
  destruct Ho as [Hs Ho]. pose proof (ordered_le _ _ _ Ho). cbn [specRun].
  destruct (decide (k = key)) as [->|Hne].
  - destruct (default (B, s) (m !! key)) as [t l] eqn:Ed. rewrite (specTake_same _ _ _ _ _ t l Ed).
    set (t' := Z.min B (t + (s - l) * r)). set (m' := <[key := _]> m).
    specialize (IH s m' Ho). rewrite (lookup_insert_eq m key _ : m' !! key = _) in IH.
    rewrite admitted_cons. destruct (m !! key) as [[t0 l0]|]; cbn in Ed; simplify_eq; intros Hb.
    all: destruct (Z.leb_spec 1 t'); [rewrite decide_True by done|rewrite decide_False by naive_solver].
    all: specialize (IH ltac:(nia)); nia.
  - pose proof (specTake_other B r k key s m Hne) as E.
    destruct (specTake B r k s m) as [ok m'] eqn:Em. cbn [snd] in E.
    rewrite admitted_cons, decide_False by naive_solver.
    specialize (IH s m' Ho). rewrite E in IH. destruct (m !! key) as [[t l]|]; intros; [|nia].
    specialize (IH ltac:(lia)). nia.
Qed.

Lemma specRun_burst B r sched key m s :
  Forall (fun p => p.1 = s) sched ->
  let n := len (filter (fun p => p.2 = key) sched) in
  match m !! key with
  | Some (t, l) => 0 <= t <= B /\ l = s -> admitted key (specRun B r sched m) = Z.min t n
  | None => 0 <= B -> admitted key (specRun B r sched m) = Z.min B n
  end.
Proof.
  intros HF. revert m. induction HF as [|[s' k] sched Hs HF IH]; intros m n; subst n.
  { change (admitted key (specRun B r [] m)) with 0. change (len _) with 0.
    destruct (m !! key) as [[t l]|]; intros; lia. }
  simpl in Hs. subst s'. cbn [specRun].
  destruct (decide (k = key)) as [->|Hne].
  - rewrite filter_cons_True, len_cons by done. set (n := len _) in *. assert (0 <= n) by apply len_nonneg.
    destruct (default (B, s) (m !! key)) as [t l] eqn:Ed. rewrite (specTake_same _ _ _ _ _ t l Ed).
    set (t' := Z.min B (t + (s - l) * r)). set (m' := <[key := _]> m).
    specialize (IH m'). rewrite (lookup_insert_eq m key _ : m' !! key = _) in IH.
    rewrite admitted_cons. destruct (m !! key) as [[t0 l0]|]; cbn in Ed; simplify_eq; intros Hb.
    all: try destruct Hb as [Hb ->].
    all: assert (t' = t) by (unfold t'; nia).
    all: destruct (Z.leb_spec 1 t'); [rewrite decide_True by done|rewrite decide_False by naive_solver].
    all: specialize (IH ltac:(lia)); lia.
  - rewrite filter_cons_False by done. pose proof (specTake_other B r k key s m Hne) as E.
    destruct (specTake B r k s m) as [ok m'] eqn:Em. cbn [snd] in E.
    rewrite admitted_cons, decide_False by naive_solver.
    specialize (IH m'). rewrite E in IH. exact IH.
Qed.

(** ** The code in the exact regime *)

(** Integral burst [B] and rate [r], whole seconds for at most [T] of them, and a
    refill time whose nanoseconds fit an [int64]. *)
Record exactRegime (cfg : RateLimitConfig) (B r T : Z) : Prop := {
  ex_burst : Burst cfg = canon B;
  ex_rate : RequestsPerSec cfg = canon r;
  ex_B : 1 <= B;
  ex_r : 1 <= r < 2 ^ 53;
  ex_T : 0 <= T < 2 ^ 33;
  ex_fit : B + T * r < 2 ^ 53;
  ex_refill : B < 2 ^ 33 * r;
}.

(** The janitor's idle period in this regime: the refill time, to the second
    above it at most, and a minute.  A bucket idle for it is full again. *)
Lemma idle_spec `{GoRuntime} cfg B r T :
  exactRegime cfg B r T -> (B / r + 60) * Second <= idle cfg <= (B / r + 61) * Second.
Proof.
  intros [Eb Er HB Hr HT Hfit Href]. assert (0 <= B / r < 2 ^ 33) as Hd.
  { split; [apply Z.div_pos; lia|]. apply Z.div_lt_upper_bound; lia. }
  pose proof (toInt_fdiv B r ltac:(nia) ltac:(lia)) as Hq. unfold idle. rewrite Eb, Er.
  set (k := toInt _) in *. unfold Minute, Second, Millisecond, Microsecond in *.
  rewrite (wrap64_id (k * _)) by (unfold int64_ok; lia). rewrite wrap64_id by (unfold int64_ok; lia). lia.
Qed.

Lemma idle_refills `{GoRuntime} cfg B r T :
  exactRegime cfg B r T -> 0 <= idle cfg < 2 ^ 63 /\ B * Second <= idle cfg * r.
Proof.
  intros Hex. pose proof (idle_spec _ _ _ _ Hex) as Hi. destruct Hex as [_ _ HB Hr _ _ Href].
  assert (0 <= B / r < 2 ^ 33) as Hd.
  { split; [apply Z.div_pos; lia|]. apply Z.div_lt_upper_bound; lia. }
  pose proof (Z.mul_succ_div_gt B r ltac:(lia)). unfold Second, Millisecond, Microsecond in *. split; [lia|]. nia.
Qed.

(** What the limiter is asked over time: a request of a key, or a janitor tick. *)
Inductive event := Request_ (key : bytes) | Tick.

Fixpoint runEvents `{GoRuntime} (cfg : RateLimitConfig) (sched : list (Z * event)) (rl : RateLimiter)
    : list (bytes * bool) :=
  match sched with
  | [] => []
  | (s, Request_ key) :: sched' =>
    let '(ok, _, _, rl) := take cfg key (s * Second) rl in (key, ok) :: runEvents cfg sched' rl
  | (s, Tick) :: sched' => runEvents cfg sched' (janitorTick cfg (s * Second) rl)
  end.

Fixpoint requests (sched : list (Z * event)) : list (Z * bytes) :=
  match sched with
  | [] => []
  | (s, Request_ key) :: sched' => (s, key) :: requests sched'
  | (s, Tick) :: sched' => requests sched'
  end.

Section exact.
Context `{GoRuntime} (cfg : RateLimitConfig) (B r T t0 : Z).
Hypothesis Hex : exactRegime cfg B r T.

(** The buckets of the code against those of the specification, at time [s]: a
    bucket the janitor dropped is a full one. *)
Definition bucketSim (s : Z) (c : option bucket) (a : option (Z * Z)) : Prop :=
  match c, a with
  | None, None => True
  | Some b, Some (t, l) => b = mkBucket (canon t) (l * Second) /\ 0 <= t <= B /\ t0 <= l <= s
  | None, Some (t, l) => B <= t + (s - l) * r /\ 0 <= t <= B /\ t0 <= l <= s
  | Some _, None => False
  end.

Definition sim (s : Z) (rl : RateLimiter) (m : specBuckets) : Prop :=
  forall k, bucketSim s (buckets rl !! k) (m !! k).

Lemma bucketSim_later s s' c a : s <= s' -> bucketSim s c a -> bucketSim s' c a.
Proof.
  destruct Hex. intros Hs. destruct c as [b|], a as [[t l]|]; simpl; try done.
  - intros (? & ? & ?). split_and!; try done; lia.
  - intros (? & ? & ?). split_and!; nia.
Qed.

Lemma refill_exact t l s :
  0 <= t <= B -> t0 <= l <= s -> s <= t0 + T ->
  fmin (Burst cfg) (fadd (canon t) (fmul (Seconds (timeSub (s * Second) (l * Second))) (RequestsPerSec cfg))) =
  canon (Z.min B (t + (s - l) * r)).
Proof.
  destruct Hex as [Eb Er HB Hr HT Hfit _]. intros Ht Hl Hs.
  assert (timeSub (s * Second) (l * Second) = (s - l) * 1000000000) as ->.
  { unfold timeSub, Second, Millisecond, Microsecond. lia. }
  rewrite Seconds_whole, Eb, Er by lia.
  assert (0 <= (s - l) * r <= T * r) by nia.
  rewrite fmul_canon, fadd_canon, fmin_canon by lia. done.
Qed.

Lemma take_sim key s rl m :
  t0 <= s <= t0 + T -> sim s rl m ->
  exists ok rem wait rl' m',
    take cfg key (s * Second) rl = (ok, rem, wait, rl') /\
    specTake B r key s m = (ok, m') /\ sim s rl' m'.
Proof.
  intros Hs Hsim. pose proof (Hsim key) as Hk. destruct Hex as [Eb Er HB Hr HT Hfit _].
  assert (exists t l, default (mkBucket (Burst cfg) (s * Second)) (buckets rl !! key) =
      mkBucket (canon t) (l * Second) /\ 0 <= t <= B /\ t0 <= l <= s /\
    let '(t1, l1) := default (B, s) (m !! key) in Z.min B (t1 + (s - l1) * r) = Z.min B (t + (s - l) * r))
    as (t & l & Ec & Ht & Hl & Et).
  { destruct (buckets rl !! key) as [b|], (m !! key) as [[t l]|]; simpl in Hk; try done.
    - destruct Hk as (-> & ? & ?). by exists t, l.
    - exists B, s. rewrite Eb. split_and!; try done; try lia. cbn. nia.
    - exists B, s. rewrite Eb. split_and!; try done; try lia. }
  unfold take. rewrite Ec. cbn [tokens last]. rewrite refill_exact by (done || lia).
  destruct (default (B, s) (m !! key)) as [t1 l1] eqn:Ed.
  rewrite (specTake_same _ _ _ _ _ t1 l1 Ed), Et.
  set (t' := Z.min B (t + (s - l) * r)). assert (0 <= t' <= B) by (unfold t'; nia).
  change (ofInt 1) with (canon 1). rewrite SFleb_canon by lia.
  destruct (Z.leb_spec 1 t').
  - do 5 eexists. split; [done|]. split; [done|]. intros k. cbn [buckets].
    rewrite fsub_canon by lia. destruct (decide (key = k)) as [->|Hne].
    + rewrite !lookup_insert_eq. cbn [bucketSim]. split; [done|lia].
    + rewrite !lookup_insert_ne by done. apply Hsim.
  - do 5 eexists. split; [done|]. split; [done|]. intros k. cbn [buckets].
    destruct (decide (key = k)) as [->|Hne].
    + rewrite !lookup_insert_eq. cbn [bucketSim]. rewrite Z.sub_0_r. split; [done|lia].
    + rewrite !lookup_insert_ne by done. apply Hsim.
Qed.

Lemma tick_sim s rl m : t0 <= s -> sim s rl m -> sim s (janitorTick cfg (s * Second) rl) m.
Proof.
  intros Hs Hsim k. specialize (Hsim k). destruct (idle_refills _ _ _ _ Hex) as [Hi Hfull]. destruct Hex as [_ _ HB Hr _ _ _].
  unfold janitorTick. cbn [buckets].
  set (m' := filter _ _). assert (m' !! k = match buckets rl !! k with
    | Some b => if timeBefore (last b) (timeAdd (s * Second) (wrap64 (- idle cfg))) then None else Some b
    | None => None end) as ->.
  { unfold m'. destruct (buckets rl !! k) as [b|] eqn:Eb.
    - destruct (timeBefore _ _) eqn:Et.
      + apply map_lookup_filter_None. right. intros b' Hb'. rewrite Eb in Hb'. simplify_eq. by rewrite Et.
      + by apply map_lookup_filter_Some.
    - apply map_lookup_filter_None. by left. }
  destruct (buckets rl !! k) as [b|]; [|done]. destruct (timeBefore _ _) eqn:Et; [|done].
  destruct (m !! k) as [[t l]|]; simpl in Hsim |- *; [|done].
  destruct Hsim as (-> & Ht & Hl). unfold timeBefore, timeAdd in Et. cbn [last] in Et.
  apply Z.ltb_lt in Et. rewrite wrap64_id in Et by (unfold int64_ok; lia).
  split; [|by split]. unfold Second, Millisecond, Microsecond in *. nia.
Qed.

Lemma runEvents_sim sched s rl m :
  t0 <= s -> ordered s sched (t0 + T) -> sim s rl m ->
  runEvents cfg sched rl = specRun B r (requests sched) m.
Proof.
  revert s rl m. induction sched as [|[s' [key|]] sched IH]; intros s rl m Hs Ho Hsim; [done|..].
  all: destruct Ho as [Hs' Ho]; pose proof (ordered_le _ _ _ Ho).
  all: assert (sim s' rl m) as Hsim' by (intros k; eapply bucketSim_later; [exact Hs'|apply Hsim]).
  - cbn [runEvents requests specRun].
    destruct (take_sim key s' rl m) as (ok & rem & wait & rl' & m' & -> & -> & Hs2); [lia|done|].
    f_equal. apply (IH s'); [lia|done..].
  - cbn [runEvents requests]. apply (IH s'); [lia|done|]. apply tick_sim; [lia|done].
Qed.

End exact.

(** The limiter after a schedule. *)
Fixpoint afterEvents `{GoRuntime} (cfg : RateLimitConfig) (sched : list (Z * event)) (rl : RateLimiter)
    : RateLimiter :=
  match sched with
  | [] => rl
  | (s, Request_ key) :: sched' => afterEvents cfg sched' (take cfg key (s * Second) rl).2
  | (s, Tick) :: sched' => afterEvents cfg sched' (janitorTick cfg (s * Second) rl)
  end.

Lemma afterEvents_sim `{GoRuntime} cfg B r T t0 sched s hi rl m :
  exactRegime cfg B r T -> t0 <= s -> hi <= t0 + T -> ordered s sched hi -> sim B r t0 s rl m ->
  exists m', sim B r t0 hi (afterEvents cfg sched rl) m' /\
    forall key, (forall s, (s, Request_ key) ∉ sched) -> m' !! key = m !! key.
Proof.
  intros Hex. revert s rl m. induction sched as [|[s' ev] sched IH]; intros s rl m Hs Hhi Ho Hsim.
  { exists m. split; [|done]. intros k. eapply (bucketSim_later cfg); [exact Hex|exact Ho|apply Hsim]. }
  destruct Ho as [Hs' Ho]. pose proof (ordered_le _ _ _ Ho).
  assert (sim B r t0 s' rl m) as Hsim'.
  { intros k. eapply (bucketSim_later cfg); [exact Hex|exact Hs'|apply Hsim]. }
  destruct ev as [key|]; cbn [afterEvents].
  - destruct (take_sim cfg B r T t0 Hex key s' rl m) as (ok & rem & wait & rl' & m1 & Et & Em & Hs2);
      [lia|done|]. rewrite Et. cbn [snd].
    destruct (IH s' rl' m1) as (m' & Hm' & Hk); [lia|done|done|done|].
    exists m'. split; [done|]. intros k Hnot. rewrite Hk.
    + assert (k <> key) by (intros ->; apply (Hnot s'); left).
      pose proof (specTake_other B r key k s' m ltac:(done)) as E. by rewrite Em in E.
    + intros s0 Hin. apply (Hnot s0). by right.
  - destruct (IH s' (janitorTick cfg (s' * Second) rl) m) as (m' & Hm' & Hk); [lia|done|done| |].
    { eapply tick_sim; [exact Hex|lia|done]. }
    exists m'. split; [done|]. intros k Hnot. apply Hk. intros s0 Hin. apply (Hnot s0). by right.
Qed.

Lemma sim_empty B r t0 s : sim B r t0 s NewRateLimiter ∅.
Proof. intros k. unfold NewRateLimiter. cbn [buckets]. by rewrite !lookup_empty. Qed.

(** ** Properties *)

(** C7: in the exact regime (integral rate and burst, whole seconds, up to the
    point where the products reach 2^53, a refill time below 2^33 seconds) the
    limiter decides every request as the integer token bucket does, and the
    janitor, whenever it runs, changes no decision: by the idle period it
    computes from burst and rate, a bucket it drops is full again. *)
Theorem take_refines_token_bucket `{GoRuntime} (cfg : RateLimitConfig) (B r T t0 : Z)
    (sched : list (Z * event)) :
  exactRegime cfg B r T -> ordered t0 sched (t0 + T) ->
  runEvents cfg sched NewRateLimiter = specRun B r (requests sched) ∅.
Proof. intros Hex Ho. eapply runEvents_sim; [exact Hex|reflexivity|exact Ho|apply sim_empty]. Qed.

(** C29: the rate bound, in the exact regime (integral rate and burst, requests
    and janitor ticks at whole seconds, products below 2^53, a refill time below
    2^33 seconds).  In any window between two such instants, whatever came
    before it, whatever other keys ask and whenever the janitor runs, a key gets
    at most [B] requests admitted plus [r] per second of the window; and [n]
    requests of a new key at one instant get exactly [min B n] admitted. *)
Theorem RateLimit_bound `{GoRuntime} (cfg : RateLimitConfig) (B r T t0 : Z)
    (before window : list (Z * event)) (lo hi : Z) (key : bytes) :
  exactRegime cfg B r T -> ordered t0 before lo -> ordered lo window hi -> hi <= t0 + T ->
  let rl := afterEvents cfg before NewRateLimiter in
  admitted key (runEvents cfg window rl) <= B + (hi - lo) * r /\
  (lo = hi -> (forall s, (s, Request_ key) ∉ before) ->
   admitted key (runEvents cfg window rl) =
   Z.min B (len (filter (fun p => p.2 = key) (requests window)))).
Proof.
  intros Hex Hb Hw Hhi rl. pose proof (ordered_le _ _ _ Hb). pose proof (ordered_le _ _ _ Hw).
  destruct (afterEvents_sim cfg B r T t0 before t0 lo NewRateLimiter ∅) as (m & Hm & Hnew);
    [done|lia|lia|done|apply sim_empty|]. fold rl in Hm.
  assert (forall w l h, h <= t0 + T -> ordered l w h -> ordered l (requests w) h) as Hreq.
  { intros w. induction w as [|[s [k|]] w IH]; intros l h Hh; [done|..]; cbn [ordered requests].
    - intros [? ?]. auto.
    - intros [Hl Hw']. apply IH in Hw'; [|done]. destruct (requests w) as [|[s1 k1] w1]; cbn in *; [lia|].
      destruct Hw'. split; [lia|done]. }
  assert (runEvents cfg window rl = specRun B r (requests window) m) as ->.
  { eapply runEvents_sim; [exact Hex| |
      |exact Hm]; [lia|]. clear -Hw Hhi. revert lo Hw. induction window as [|[s e] w IH]; intros lo; cbn; [lia|].
    intros [? ?]. auto. }
  destruct Hex as [_ _ HB Hr _ _ _]. split.
  - pose proof (specRun_bound B r (requests window) key m lo hi ltac:(lia) (Hreq _ _ _ Hhi Hw)) as Hsb.
    specialize (Hm key). destruct (m !! key) as [[t l]|]; [|by apply Hsb; lia].
    assert (0 <= t <= B /\ l <= lo) as Htl by (destruct (buckets rl !! key); simpl in Hm; lia).
    specialize (Hsb Htl). lia.
  - intros -> Hnot. specialize (Hnew key Hnot). rewrite lookup_empty in Hnew.
    pose proof (specRun_burst B r (requests window) key m hi) as Hsb. rewrite Hnew in Hsb.
    apply Hsb; [|lia]. clear -Hw. induction window as [|[s [k|]] w IH]; cbn in *; [constructor|..].
    all: destruct Hw as [? Hw]; pose proof (ordered_le _ _ _ Hw); assert (s = hi) as -> by lia; auto.
Qed.

(** The limits [pulsehttp] starts with: 500 requests a second, bursts of 1000. *)
Definition demoLimit : RateLimitConfig :=
  {| RequestsPerSec := ofInt 500; Burst := ofInt 1000; Key := defaultKey |}.

Lemma demoLimit_regime T : 0 <= T < 2 ^ 33 -> exactRegime demoLimit 1000 500 T.
Proof.
  intros HT. constructor; [| |lia..].
  - by apply ofInt_canon.
  - by apply ofInt_canon.
Qed.

Definition demoSchedule : list (Z * event) :=
  [(0, Request_ $"a"); (0, Request_ $"b"); (70, Tick); (70, Request_ $"a"); (71, Request_ $"a")].

Lemma take_refines_token_bucket_witness :
  @runEvents exampleRuntime demoLimit demoSchedule NewRateLimiter =
  [($"a", true); ($"b", true); ($"a", true); ($"a", true)].
Proof.
  rewrite (@take_refines_token_bucket exampleRuntime demoLimit 1000 500 100 0 demoSchedule).
  - by vm_compute.
  - by apply demoLimit_regime.
  - by vm_compute.
Defined.

Lemma RateLimit_bound_witness :
  admitted $"a" (@runEvents exampleRuntime demoLimit demoSchedule NewRateLimiter) <= 1000 + (100 - 0) * 500.
Proof.
  assert (ordered 0 demoSchedule 100) as Ho by (by vm_compute).
  exact (proj1 (@RateLimit_bound exampleRuntime demoLimit 1000 500 100 0 [] demoSchedule 0 100 $"a"
    (demoLimit_regime 100 ltac:(lia)) (Z.le_refl 0) Ho (Z.le_refl 100))).
Defined.

(** The tokens of a key at time [now]: a full bucket for a new key, else what was
    left and the refill since, at most the burst. *)
Definition level (cfg : RateLimitConfig) (key : bytes) (now : Z) (rl : RateLimiter) : float :=
  let b := default (mkBucket (Burst cfg) now) (buckets rl !! key) in
  fmin (Burst cfg) (fadd (tokens b) (fmul (Seconds (timeSub now (last b))) (RequestsPerSec cfg))).

(** A whole token, and the tokens left by a request that finds [t]. *)
Definition wholeToken (t : float) : bool := SFleb (ofInt 1) t.
Definition leftOf (t : float) : float := if wholeToken t then fsub t (ofInt 1) else t.

Lemma take_level `{GoRuntime} cfg key now rl :
  let t := level cfg key now rl in
  let rl' := {| buckets := <[key := mkBucket (leftOf t) now]> (buckets rl) |} in
  take cfg key now rl =
  (if wholeToken t then (true, toInt (leftOf t), 0)
   else (false, 0, toInt (fmul (fdiv (fsub (ofInt 1) t) (RequestsPerSec cfg)) (ofInt Second))), rl').
Proof. cbv zeta. unfold take, leftOf, wholeToken, level. by destruct (SFleb _ _). Qed.

Lemma retrySeconds_pos `{GoRuntime} wait : 1 <= retrySeconds wait.
Proof. unfold retrySeconds. destruct (Z.ltb_spec (toInt (fceil (Seconds wait))) 1); lia. Qed.

(** After [n] whole seconds a key that was refused gets a request through, when
    it made none meanwhile. *)
Lemma refused_returns `{GoRuntime} cfg B r T t0 before during s n key rl :
  exactRegime cfg B r T -> ordered t0 before s -> 1 <= n -> ordered s during (s + n) -> s + n <= t0 + T ->
  (forall s', (s', Request_ key) ∉ during) ->
  take cfg key (s * Second) (afterEvents cfg before NewRateLimiter) = (false, 0, rl.1, rl.2) ->
  (take cfg key ((s + n) * Second) (afterEvents cfg during rl.2)).1.1.1 = true.
Proof.
  intros Hex Hb Hn Hd HT Hnot Et. pose proof (ordered_le _ _ _ Hb). pose proof (ordered_le _ _ _ Hd).
  destruct (afterEvents_sim cfg B r T t0 before t0 s NewRateLimiter ∅) as (m & Hm & _);
    [done|lia|lia|done|apply sim_empty|].
  destruct (take_sim cfg B r T t0 Hex key s _ m ltac:(lia) Hm) as (ok & rem & wait & rl1 & m1 & E1 & Es & Hs1).
  rewrite E1 in Et. destruct rl as [w rl]. cbn [fst snd] in *. simplify_eq.
  destruct (default (B, s) (m !! key)) as [t l] eqn:Ed. rewrite (specTake_same _ _ _ _ _ t l Ed) in Es.
  set (t' := Z.min B (t + (s - l) * r)) in *. injection Es as Ht' <-. rewrite Ht' in Hs1. apply Z.leb_gt in Ht'.
  rewrite Z.sub_0_r in Hs1.
  destruct (afterEvents_sim cfg B r T t0 during s (s + n) rl _ Hex ltac:(lia) HT Hd Hs1) as (m2 & Hm2 & Hk).
  destruct (take_sim cfg B r T t0 Hex key (s + n) _ m2 ltac:(lia) Hm2) as (ok & rem & wait & rl2 & m3 & -> & Es2 & _).
  cbn [fst]. specialize (Hk key Hnot). rewrite (lookup_insert_eq m key) in Hk.
  specialize (Hs1 key). rewrite (lookup_insert_eq m key) in Hs1.
  rewrite (specTake_same B r key (s + n) m2 t' s) in Es2 by by rewrite Hk.
  injection Es2 as <- _. apply Z.leb_le. destruct Hex as [_ _ HB Hr _ _ _].
  assert (0 <= t') by (destruct (buckets rl !! key); cbn in Hs1; lia). nia.
Qed.

(** C39: what a request gets from the limiter.  It is decided by the tokens of its
    key: the rest of a full bucket or of what was left and refilled since.  With
    a whole token the handler runs, on the same request, with the limit and the
    tokens left in the headers; without one the handler does not run and the
    answer is 429, with nothing left and the wait for the missing part of a token
    as [Retry-After].  Either way the key's bucket keeps what is left, from now,
    and no other bucket changes.  In the exact regime the wait is honest: after
    [Retry-After] seconds without a request of the key, whatever other keys and
    the janitor do, its next request passes. *)
Theorem RateLimit_decision {W : Type} `{GoRuntime} `{Clock W} `{!Lens W RateLimiter}
    `{!ClockFrame W RateLimiter} (cfg : RateLimitConfig) (next : Handler W) (x : Exch W) :
  hijacked (xw x) = false ->
  let key := Key cfg (xreq x) in
  let now := (timeNow (xst x)).1 in
  let rl0 := view (xst x) in
  let t := level cfg key now rl0 in
  let rl := {| buckets := <[key := mkBucket (leftOf t) now]> (buckets rl0) |} in
  let retry := retrySeconds (toInt (fmul (fdiv (fsub (ofInt 1) t) (RequestsPerSec cfg)) (ofInt Second))) in
  let res := RateLimit cfg next x in
  (if wholeToken t then
     exists y, res = next y /\ xreq y = xreq x /\ view (xst y) = rl /\ status (xw y) = status (xw x) /\
       body (xw y) = body (xw x) /\
       Values (headers (xw y)) $"X-RateLimit-Limit" = [Itoa (toInt (Burst cfg))] /\
       Values (headers (xw y)) $"X-RateLimit-Remaining" = [Itoa (toInt (leftOf t))]
   else
     res.1 = Returned /\ xreq res.2 = xreq x /\ view (xst res.2) = rl /\
     isError (xw res.2) StatusTooManyRequests /\
     Values (headers (xw res.2)) $"X-RateLimit-Limit" = [Itoa (toInt (Burst cfg))] /\
     Values (headers (xw res.2)) $"X-RateLimit-Remaining" = [Itoa 0] /\
     Values (headers (xw res.2)) $"Retry-After" = [Itoa retry]) /\
  (forall B r T t0 before during s,
     exactRegime cfg B r T -> ordered t0 before s -> rl0 = afterEvents cfg before NewRateLimiter ->
     now = s * Second -> wholeToken t = false ->
     ordered s during (s + retry) -> s + retry <= t0 + T -> (forall s', (s', Request_ key) ∉ during) ->
     wholeToken (level cfg key ((s + retry) * Second) (afterEvents cfg during rl)) = true).
Proof.
  intros Hh key now rl0 t rl retry res. split.
  2: { intros B r T t0 before during s Hex Hb Hrl Hnow Hw Hd HT Hnot.
    pose proof (take_level cfg key (s * Second) rl0) as Et. cbv zeta in Et. rewrite <- Hnow in Et. fold t rl in Et.
    rewrite Hw, Hrl, Hnow in Et.
    pose proof (refused_returns cfg B r T t0 before during s retry key (_, rl) Hex Hb (retrySeconds_pos _) Hd HT Hnot Et) as Hr.
    rewrite take_level in Hr. revert Hr. by destruct (wholeToken (level _ _ ((s + retry) * Second) _)); cbn. }
  unfold res, RateLimit. fold key. pose proof (clock_frame (xst x)) as Hf. subst now. clear res.
  destruct (timeNow (xst x)) as [now st]. cbn [fst snd] in *. rewrite Hf. fold rl0.
  pose proof (take_level cfg key now rl0) as Et. cbv zeta in Et. fold t rl in Et. rewrite Et.
  assert (canonical $"X-RateLimit-Remaining" <> canonical $"X-RateLimit-Limit") as N1 by (intros E; by vm_compute in E).
  assert (canonical $"Retry-After" <> canonical $"X-RateLimit-Limit") as N2 by (intros E; by vm_compute in E).
  assert (canonical $"Retry-After" <> canonical $"X-RateLimit-Remaining") as N3 by (intros E; by vm_compute in E).
  assert (canonical $"Content-Type" <> canonical $"X-RateLimit-Limit") as N4 by (intros E; by vm_compute in E).
  assert (canonical $"Content-Type" <> canonical $"X-RateLimit-Remaining") as N5 by (intros E; by vm_compute in E).
  assert (canonical $"Content-Type" <> canonical $"Retry-After") as N6 by (intros E; by vm_compute in E).
  destruct (wholeToken t); cbn [negb].
  - eexists. split; [reflexivity|]. cbn. rewrite view_put. split_and!; try done.
    all: unfold setHeader; cbn [headers withHeaders]; autorewrite with pulse.
    all: by rewrite ?(decide_False _ _ N1), ?decide_True.
  - unfold respond, onW. cbn [fst snd xw xst xreq withSt].
    rewrite view_put. split_and!; try done; [by apply isError_Error|..].
    all: rewrite headers_Error by done; unfold setHeader; cbn [headers withHeaders]; autorewrite with pulse.
    all: repeat first [rewrite decide_True by done | rewrite decide_False by done]; done.
Qed.

#[local] Instance lensRL : Lens (Z * RateLimiter) RateLimiter :=
  {| view := snd; put a w := (fst w, a);
     view_put _ _ := eq_refl; put_view w := ltac:(by destruct w); put_put _ _ _ := eq_refl |}.
#[local] Instance clockRL : Clock (Z * RateLimiter) := fun w => (fst w, (fst w + 1, snd w)).
#[local] Instance clockFrameRL : ClockFrame (Z * RateLimiter) RateLimiter := fun _ => eq_refl.

(** One request a second at most: the second of two requests is refused. *)
Definition oneLimit : RateLimitConfig :=
  {| RequestsPerSec := ofInt 1; Burst := ofInt 1; Key := defaultKey |}.
Definition drained : RateLimiter :=
  (@take exampleRuntime oneLimit $"1.2.3.4" 0 NewRateLimiter).2.
Definition limitedExch : Exch (Z * RateLimiter) :=
  {| xreq := exampleRequest; xw := NewResponseWriter; xst := (0, drained) |}.

Lemma oneLimit_regime : exactRegime oneLimit 1 1 10.
Proof. constructor; [by apply ofInt_canon|by apply ofInt_canon|lia..]. Qed.

(** Refused at once, with a wait of a second, after which the key passes. *)
Lemma RateLimit_decision_witness :
  let res := @RateLimit exampleRuntime oneLimit _ _ _ panics limitedExch in
  isError (xw res.2) 429 /\ Values (headers (xw res.2)) $"Retry-After" = [$"1"] /\
  wholeToken (level oneLimit $"1.2.3.4" (1 * Second) (view (xst res.2))) = true.
Proof.
  assert (@retrySeconds exampleRuntime (@toInt exampleRuntime (fmul (fdiv (fsub (ofInt 1)
    (level oneLimit $"1.2.3.4" 0 drained)) (RequestsPerSec oneLimit)) (ofInt Second))) = 1) as Er by (by vm_compute).
  destruct (@RateLimit_decision _ exampleRuntime _ _ _ oneLimit panics limitedExch eq_refl) as [Hd Hr].
  change (Key oneLimit (xreq limitedExch)) with $"1.2.3.4" in *.
  change (timeNow (xst limitedExch)).1 with 0 in *. change (view (xst limitedExch)) with drained in *.
  assert (wholeToken (level oneLimit $"1.2.3.4" 0 drained) = false) as Ew by (by vm_compute).
  rewrite Ew, Er in *. destruct Hd as (_ & _ & Ev & He & _ & _ & Hv). split; [exact He|]. split; [exact Hv|].
  cbv zeta. rewrite Ev.
  apply (Hr 1 1 10 0 [(0, Request_ $"1.2.3.4")] [] 0 oneLimit_regime).
  - cbn. lia.
  - reflexivity.
  - reflexivity.
  - exact Ew.
  - cbn. lia.
  - lia.
  - intros s'. apply not_elem_of_nil.
Defined.

(** With a refill time of 10^10 seconds the idle period overflows and comes out
    negative: the janitor's next tick drops a bucket that was just used. *)
Definition slowLimit : RateLimitConfig :=
  {| RequestsPerSec := ofInt 1; Burst := ofInt 10000000000; Key := defaultKey |}.

Example idle_overflows :
  @idle exampleRuntime slowLimit < 0 /\
  @afterEvents exampleRuntime slowLimit [(0, Request_ $"a"); (60, Tick)] NewRateLimiter = NewRateLimiter.
Proof. split; by vm_compute. Qed.
