(* ===== verification/CacheProps.v ===== *)
(** * Properties of the response cache *)

From S2P Require Import Prelude GoStrings GoIO GoTime Sha256 Headers Status Request Response Handler Cache Examples.

(** ** The abstract LRU: entries, most recently used first *)

Definition without (k : bytes) (l : list entry) : list entry := filter (fun e => key e <> k) l.
Definition lookupKey (k : bytes) (l : list entry) : option entry := find (fun e => beq (key e) k) l.

Definition specGet (k : bytes) (now : Z) (l : list entry) : option entry * list entry :=
  match lookupKey k l with
  | None => (None, l)
  | Some e => if expires e <? now then (None, without k l) else (Some e, e :: without k l)
  end.

Definition specPut (cap : Z) (e : entry) (l : list entry) : list entry :=
  take (Z.to_nat cap) (e :: without (key e) l).

Definition specInvalidate (k : bytes) (l : list entry) : list entry := without k l.

(** ** The invariant of the list and the map *)

Definition ekey (el : element) : bytes := key (Value el).

Record linked (l : list element) (m : gmap bytes element) : Prop := {
  ln_ids : NoDup (elId <$> l);
  ln_keys : NoDup (ekey <$> l);
  ln_items : forall k el, m !! k = Some el <-> el ∈ l /\ ekey el = k;
}.

Record inv (c : Cache) : Prop := {
  inv_linked : linked (order c) (items c);
  inv_fresh : Forall (fun el => elId el < nextId c) (order c);
  inv_cap : len (order c) <= capacity c;
}.

Definition entries (c : Cache) : list entry := Value <$> order c.

Lemma NoDup_fmap_inj {A B} (f : A -> B) l x y : NoDup (f <$> l) -> x ∈ l -> y ∈ l -> f x = f y -> x = y.
Proof.
  intros Hnd Hx Hy E. apply list_elem_of_lookup in Hx as [i Hi], Hy as [j Hj].
  assert (i = j) as ->; [|congruence].
  eapply NoDup_lookup; [exact Hnd|by rewrite list_lookup_fmap, Hi|]. by rewrite list_lookup_fmap, Hj, E.
Qed.

Lemma filter_all {A} (P : A -> Prop) `{!forall x, Decision (P x)} (l : list A) :
  (forall x, x ∈ l -> P x) -> filter P l = l.
Proof.
  induction l as [|x l IH]; intros HP; [done|]. rewrite filter_cons_True by (apply HP; left).
  f_equal. apply IH. intros y Hy. apply HP. by right.
Qed.

(** Removing an element of the list by identity removes its key. *)
Lemma remove_key l m el k :
  linked l m -> el ∈ l -> ekey el = k -> remove el l = filter (fun el' => ekey el' <> k) l.
Proof.
  intros [Hi Hk _] Hel <-. unfold remove.
  assert (forall el', el' ∈ l -> elId el' <> elId el <-> ekey el' <> ekey el) as Hiff.
  { intros el' Hel'. split; intros Hne E; apply Hne.
    - f_equal. by eapply (NoDup_fmap_inj ekey).
    - f_equal. by eapply (NoDup_fmap_inj elId). }
  clear Hi Hk Hel. induction l as [|x l IH]; [done|].
  assert (filter (fun el' => elId el' <> elId el) l = filter (fun el' => ekey el' <> ekey el) l) as E.
  { apply IH. intros el' Hin. apply Hiff. by right. }
  destruct (decide (ekey x <> ekey el)) as [Hx|Hx].
  - assert (elId x <> elId el) by (apply Hiff; [by left|done]). by rewrite !filter_cons_True, E.
  - rewrite !filter_cons_False, E; [done|done|]. intros Hx'. apply Hx. apply Hiff; [by left|done].
Qed.

Lemma fmap_without k l : Value <$> filter (fun el => ekey el <> k) l = without k (Value <$> l).
Proof.
  unfold without, ekey. induction l as [|x l IH]; [done|]. cbn [fmap list_fmap].
  destruct (decide (key (Value x) <> k)).
  - rewrite !filter_cons_True by done. cbn [fmap list_fmap]. by rewrite <- IH.
  - rewrite !filter_cons_False by done. done.
Qed.

Lemma linked_filter l m k :
  linked l m -> linked (filter (fun el => ekey el <> k) l) (delete k m).
Proof.
  intros [Hi Hk Hm]. constructor.
  - eapply sublist_NoDup; [exact Hi|apply fmap_sublist, sublist_filter].
  - eapply sublist_NoDup; [exact Hk|apply fmap_sublist, sublist_filter].
  - intros k' el. rewrite lookup_delete_Some, Hm, list_elem_of_filter. naive_solver.
Qed.

Lemma linked_cons l m el :
  linked l m -> ~ (ekey el ∈ ekey <$> l) -> Forall (fun el' => elId el' < elId el) l ->
  linked (el :: l) (<[ekey el := el]> m).
Proof.
  intros [Hi Hk Hm] Hnk Hf. constructor; cbn [fmap list_fmap].
  - constructor; [|done]. intros (el' & E & Hin)%list_elem_of_fmap.
    rewrite Forall_forall in Hf. apply Hf in Hin. lia.
  - by constructor.
  - intros k el'. rewrite lookup_insert_Some, Hm, elem_of_cons. split.
    + intros [[<- <-]|[Hne [Hin <-]]]; auto.
    + intros [[->|Hin] <-]; [by left|]. right. split; [|done]. intros E. apply Hnk. rewrite E.
      by apply list_elem_of_fmap_2.
Qed.

(** The move to the front. *)
Lemma linked_front l m k el :
  linked l m -> m !! k = Some el ->
  linked (el :: filter (fun el' => ekey el' <> k) l) m.
Proof.
  intros HL Hk. pose proof (linked_filter l m k HL) as [Hi' Hk' _]. destruct HL as [Hi Hkk Hm].
  apply Hm in Hk as [Hin <-]. constructor; cbn [fmap list_fmap].
  - constructor; [|done]. intros (el' & E & [Hne Hin']%list_elem_of_filter)%list_elem_of_fmap.
    apply Hne. f_equal. symmetry. eapply (NoDup_fmap_inj elId); [exact Hi|exact Hin|exact Hin'|exact E].
  - constructor; [|done]. intros (el' & E & [Hne Hin']%list_elem_of_filter)%list_elem_of_fmap. by apply Hne.
  - intros k el'. rewrite Hm, elem_of_cons, list_elem_of_filter. split; [|naive_solver].
    intros [Hin' <-]. split; [|done]. destruct (decide (ekey el' = ekey el)) as [E|]; [left|by right].
    eapply (NoDup_fmap_inj ekey); [exact Hkk|exact Hin'|exact Hin|exact E].
Qed.

Lemma evict_spec fuel cap l m :
  (length l <= fuel)%nat -> 0 <= cap -> linked l m ->
  exists m', LRU.evict fuel cap l m = Some (take (Z.to_nat cap) l, m') /\ linked (take (Z.to_nat cap) l) m'.
Proof.
  intros Hf Hc. revert l m Hf. induction fuel as [|fuel IH]; intros l m Hf HL; cbn [LRU.evict].
  { destruct l; [|simpl in Hf; lia]. rewrite take_nil. exists m.
    by destruct (Z.leb_spec (len (@nil element)) cap); [|rewrite len_nil in *; lia]. }
  destruct (Z.leb_spec (len l) cap) as [Hle|Hlt].
  { exists m. unfold len in Hle. rewrite take_ge by lia. done. }
  destruct l as [|el l _] using rev_ind; [rewrite len_nil in Hlt; lia|]. rewrite last_snoc.
  assert (ekey el ∉ ekey <$> l) as Hnk.
  { destruct HL as [_ Hk _]. rewrite fmap_app in Hk. apply NoDup_app in Hk as (_ & Hd & _).
    intros Hin. by apply (Hd _ Hin), list_elem_of_singleton. }
  assert (remove el (l ++ [el]) = l) as Er.
  { rewrite (remove_key _ m el (ekey el)); [|done|set_solver|done].
    rewrite filter_app, filter_cons_False by (by intros []). rewrite filter_nil, app_nil_r.
    apply filter_all. intros x Hx E. apply Hnk. rewrite <- E. by apply list_elem_of_fmap_2. }
  assert (linked l (delete (ekey el) m)) as HL'.
  { pose proof (linked_filter _ _ (ekey el) HL) as H. rewrite <- (remove_key _ m el) in H; [|done|set_solver|done].
    by rewrite Er in H. }
  rewrite Er, length_app in *. cbn [length] in Hf.
  destruct (IH l (delete (ekey el) m)) as (m' & E & HL2); [lia|done|].
  exists m'. rewrite take_app_le; [done|]. unfold len in Hlt. rewrite length_app in Hlt. cbn in Hlt. lia.
Qed.

Lemma lookup_linked l m k : linked l m -> lookupKey k (Value <$> l) = Value <$> (m !! k).
Proof.
  intros HL. unfold lookupKey. destruct (find _ (Value <$> l)) as [e|] eqn:Ef.
  - apply find_some in Ef as [Hin Hk]. apply bool_decide_eq_true in Hk.
    apply list_elem_of_In, list_elem_of_fmap in Hin as (el & -> & Hin).
    assert (m !! k = Some el) as -> by (by apply HL). done.
  - destruct (m !! k) as [el|] eqn:Em; [|done]. apply HL in Em as [Hin Hk]. exfalso.
    pose proof (find_none _ _ Ef (Value el)) as Hn. cbv beta in Hn.
    unfold beq in Hn. rewrite bool_decide_true in Hn by done.
    discriminate Hn. apply list_elem_of_In. by apply list_elem_of_fmap_2.
Qed.

Lemma inv_New cap ttl : 0 <= cap -> inv (New cap ttl).
Proof.
  intros Hc. constructor; cbn; [|constructor|done]. constructor; try constructor.
  - intros E. by rewrite lookup_empty in E.
  - intros [Hin _]. by apply elem_of_nil in Hin.
Qed.

Lemma entries_filter c k : Value <$> filter (fun el => ekey el <> k) (order c) = without k (entries c).
Proof. apply fmap_without. Qed.

Lemma Forall_remove {A} (P Q : A -> Prop) `{!forall x, Decision (Q x)} (l : list A) :
  Forall P l -> Forall P (filter Q l).
Proof. rewrite !Forall_forall. intros HP x Hx. apply HP. by apply list_elem_of_filter in Hx as [_ ?]. Qed.

Lemma len_filter_le {A} (Q : A -> Prop) `{!forall x, Decision (Q x)} (l : list A) : len (filter Q l) <= len l.
Proof. unfold len. pose proof (length_filter Q l). lia. Qed.

Lemma get_refines c k now :
  inv c ->
  let '(r, c') := LRU.get c k now in
  inv c' /\ (r, entries c') = specGet k now (entries c) /\ capacity c' = capacity c /\ ttl c' = ttl c.
Proof.
  intros [HL Hf Hc]. unfold LRU.get, specGet.
  rewrite (lookup_linked _ _ k HL : lookupKey k (entries c) = _).
  destruct (items c !! k) as [el|] eqn:Ek; [|by split_and!].
  pose proof Ek as Hel. apply HL in Hel as [Hin Hk]. cbn [fmap option_fmap option_map].
  rewrite (remove_key _ _ el k HL Hin Hk). unfold timeAfter.
  destruct (expires (Value el) <? now).
  - split_and!; [|by rewrite <- entries_filter|done..]. constructor; cbn [withLists order items nextId capacity].
    + by apply linked_filter.
    + by apply Forall_remove.
    + etransitivity; [apply len_filter_le|done].
  - split_and!; [|by rewrite <- entries_filter|done..]. constructor; cbn [withLists order items nextId capacity].
    + by apply linked_front.
    + constructor; [|by apply Forall_remove]. by rewrite Forall_forall in Hf; apply Hf.
    + rewrite len_cons. etransitivity; [|exact Hc].
      assert (length (filter (fun el' => ekey el' <> k) (order c)) < length (order c))%nat; [|unfold len; lia].
      apply list_elem_of_split in Hin as (l1 & l2 & ->).
      rewrite filter_app, filter_cons_False by (by intros []). rewrite !length_app. cbn [length].
      pose proof (length_filter (fun el' => ekey el' <> k) l1).
      pose proof (length_filter (fun el' => ekey el' <> k) l2). lia.
Qed.

Lemma invalidate_refines c k :
  inv c ->
  inv (LRU.invalidate c k) /\ entries (LRU.invalidate c k) = specInvalidate k (entries c) /\
  capacity (LRU.invalidate c k) = capacity c /\ ttl (LRU.invalidate c k) = ttl c.
Proof.
  intros [HL Hf Hc]. unfold LRU.invalidate, specInvalidate.
  destruct (items c !! k) as [el|] eqn:Ek.
  - pose proof Ek as Hel. apply HL in Hel as [Hin Hk]. rewrite (remove_key _ _ el k HL Hin Hk).
    split_and!; [|by rewrite <- entries_filter|done..]. constructor; cbn [withLists order items nextId capacity].
    + by apply linked_filter.
    + by apply Forall_remove.
    + etransitivity; [apply len_filter_le|done].
  - split_and!; [done| |done|done]. symmetry. apply filter_all. intros e Hin E.
    apply list_elem_of_fmap in Hin as (el & -> & Hin).
    assert (items c !! k = Some el) by (by apply HL). congruence.
Qed.

Lemma put_refines c e :
  inv c -> 0 <= capacity c ->
  exists c', LRU.put c e = Some c' /\ inv c' /\ entries c' = specPut (capacity c) e (entries c) /\
    capacity c' = capacity c /\ ttl c' = ttl c.
Proof.
  intros [HL Hf Hc] Hcap. unfold LRU.put.
  set (lm := match items c !! key e with Some el => _ | None => _ end).
  assert (lm = (filter (fun el => ekey el <> key e) (order c), delete (key e) (items c))) as ->.
  { unfold lm. destruct (items c !! key e) as [el|] eqn:Ek.
    - pose proof Ek as Hel. apply HL in Hel as [Hin Hk]. by rewrite (remove_key _ _ el (key e) HL Hin Hk).
    - rewrite delete_id by done. f_equal. symmetry. apply filter_all. intros el Hin E.
      assert (items c !! key e = Some el) by (by apply HL). congruence. }
  set (l := filter _ (order c)). set (el := mkElement (nextId c) e).
  assert (linked (el :: l) (<[key e := el]> (delete (key e) (items c)))) as HL'.
  { apply (linked_cons l _ el); [by apply linked_filter| |by apply Forall_remove].
    intros (el' & E & [Hne _]%list_elem_of_filter)%list_elem_of_fmap. by apply Hne. }
  destruct (evict_spec (S (length l)) (capacity c) (el :: l) _ (le_n _) Hcap HL') as (m' & -> & HL2).
  eexists. split; [done|]. split_and!; [|unfold entries at 1, specPut; cbn [order]; rewrite <- entries_filter; etransitivity; [apply fmap_take|reflexivity]|done|done].
  constructor; cbn [order items nextId capacity].
  - done.
  - apply Forall_take. constructor; [cbn; lia|]. apply Forall_remove.
    eapply Forall_impl; [exact Hf|]. cbn. lia.
  - unfold len. rewrite length_take. lia.
Qed.

(** ** Lookups in the abstract list *)

Lemma lookupKey_cons k e l : lookupKey k (e :: l) = if decide (key e = k) then Some e else lookupKey k l.
Proof. unfold lookupKey, beq. cbn [find]. by repeat case_decide; case_bool_decide. Qed.

Lemma lookupKey_without k k' l : lookupKey k (without k' l) = if decide (k' = k) then None else lookupKey k l.
Proof.
  unfold without. induction l as [|e l IH]; [by case_decide|].
  destruct (decide (key e = k')) as [<-|Hne].
  - rewrite filter_cons_False by (by intros []). rewrite IH, lookupKey_cons. by case_decide.
  - rewrite filter_cons_True by done. rewrite !lookupKey_cons, IH. repeat case_decide; congruence.
Qed.

Lemma lookupKey_take k n l : lookupKey k (take n l) = None \/ lookupKey k (take n l) = lookupKey k l.
Proof.
  revert n. induction l as [|e l IH]; intros n; [rewrite take_nil; by left|].
  destruct n as [|n]; [by left|]. cbn [take firstn]. rewrite !lookupKey_cons. case_decide; [by right|apply IH].
Qed.

Lemma lookupKey_elem k l e : lookupKey k l = Some e -> e ∈ l /\ key e = k.
Proof.
  unfold lookupKey. intros [Hin Hk]%find_some. apply bool_decide_eq_true in Hk.
  split; [by apply list_elem_of_In|done].
Qed.

(** ** Histories *)

Inductive op := OpGet (k : bytes) (now : Z) | OpPut (e : entry) | OpInvalidate (k : bytes).

Definition stepOp (o : op) (c : Cache) : option (option entry * Cache) :=
  match o with
  | OpGet k now => Some (LRU.get c k now)
  | OpPut e => match LRU.put c e with Some c => Some (None, c) | None => None end
  | OpInvalidate k => Some (None, LRU.invalidate c k)
  end.

Fixpoint runOps (ops : list op) (c : Cache) : option (list (option entry)) :=
  match ops with
  | [] => Some []
  | o :: ops' =>
    match stepOp o c with
    | None => None
    | Some (r, c) => match runOps ops' c with Some rs => Some (r :: rs) | None => None end
    end
  end.

(** The unbounded map with a time to live. *)
Definition specOp (o : op) (s : gmap bytes entry) : option entry * gmap bytes entry :=
  match o with
  | OpGet k now =>
    match s !! k with
    | Some e => if expires e <? now then (None, delete k s) else (Some e, s)
    | None => (None, s)
    end
  | OpPut e => (None, <[key e := e]> s)
  | OpInvalidate k => (None, delete k s)
  end.

Fixpoint specOps (ops : list op) (s : gmap bytes entry) : list (option entry) :=
  match ops with
  | [] => []
  | o :: ops' => (specOp o s).1 :: specOps ops' (specOp o s).2
  end.

Definition putKeys (ops : list op) : gset bytes :=
  list_to_set (omap (fun o => match o with OpPut e => Some (key e) | _ => None end) ops).

(** Every operation on the concrete cache is the abstract one. *)
Lemma stepOp_refines o c :
  inv c -> 0 <= capacity c ->
  exists r c', stepOp o c = Some (r, c') /\ inv c' /\ capacity c' = capacity c /\ ttl c' = ttl c /\
    match o with
    | OpGet k now => (r, entries c') = specGet k now (entries c)
    | OpPut e => r = None /\ entries c' = specPut (capacity c) e (entries c)
    | OpInvalidate k => r = None /\ entries c' = specInvalidate k (entries c)
    end.
Proof.
  intros Hi Hc. destruct o as [k now|e|k]; cbn [stepOp].
  - pose proof (get_refines c k now Hi) as G. destruct (LRU.get c k now) as [r c'].
    destruct G as (? & ? & ? & ?). by exists r, c'.
  - destruct (put_refines c e Hi Hc) as (c' & -> & ? & ? & ? & ?). by exists None, c'.
  - destruct (invalidate_refines c k Hi) as (? & ? & ? & ?). by eexists None, _.
Qed.

Lemma inv_keys c : inv c -> NoDup (key <$> entries c).
Proof. intros [[_ Hk _] _ _]. unfold entries. by rewrite <- list_fmap_compose. Qed.

(** With room for every key in [K], the list is the map. *)
Definition within (K : gset bytes) (l : list entry) : Prop := forall e, e ∈ l -> key e ∈ K.

Lemma within_len K l : NoDup (key <$> l) -> within K l -> len l <= Z.of_nat (size K).
Proof.
  intros Hnd HK. assert (list_to_set (C := gset bytes) (key <$> l) ⊆ K) as Hs.
  { intros k. rewrite elem_of_list_to_set, list_elem_of_fmap. intros (e & -> & He). by apply HK. }
  apply subseteq_size in Hs. rewrite size_list_to_set, length_fmap in Hs by done. unfold len. lia.
Qed.

Lemma specPut_full K cap e l :
  NoDup (key <$> l) -> within K l -> key e ∈ K -> Z.of_nat (size K) <= cap ->
  specPut cap e l = e :: without (key e) l.
Proof.
  intros Hnd HK He Hcap. unfold specPut. apply take_ge.
  assert (len (e :: without (key e) l) <= Z.of_nat (size K)) as Hl; [|unfold len in Hl; lia].
  apply within_len.
  - cbn [fmap list_fmap]. constructor.
    + intros (e' & E & [Hne _]%list_elem_of_filter)%list_elem_of_fmap. by apply Hne.
    + eapply sublist_NoDup; [exact Hnd|apply fmap_sublist, sublist_filter].
  - intros e' [->|[_ Hin]%list_elem_of_filter]%elem_of_cons; [done|by apply HK].
Qed.

Definition subsumed (l : list entry) (s : gmap bytes entry) : Prop :=
  forall k, lookupKey k l = None \/ lookupKey k l = s !! k.
Definition equivalent (l : list entry) (s : gmap bytes entry) : Prop :=
  forall k, lookupKey k l = s !! k.

Lemma specGet_lookup k now l k' :
  lookupKey k' (specGet k now l).2 =
  if decide (k = k') then (specGet k now l).1 else lookupKey k' l.
Proof.
  unfold specGet. destruct (lookupKey k l) as [e|] eqn:E.
  - pose proof (lookupKey_elem _ _ _ E) as [_ Hk]. destruct (expires e <? now); cbn [fst snd].
    + by rewrite lookupKey_without.
    + rewrite lookupKey_cons, lookupKey_without, Hk. by repeat case_decide.
  - cbn [fst snd]. case_decide; congruence.
Qed.

Lemma step_subsumed o c s r c' :
  inv c -> 0 <= capacity c -> subsumed (entries c) s -> stepOp o c = Some (r, c') ->
  subsumed (entries c') (specOp o s).2 /\ (r = None \/ r = (specOp o s).1).
Proof.
  intros Hi Hc HR E. destruct (stepOp_refines o c Hi Hc) as (r1 & c1 & E1 & _ & _ & _ & Ho).
  rewrite E in E1. simplify_eq. destruct o as [k now|e|k].
  - assert (r1 = (specGet k now (entries c)).1 /\ entries c1 = (specGet k now (entries c)).2) as [-> ->].
    { by rewrite <- Ho. }
    assert ((specGet k now (entries c)).1 = None \/ (specGet k now (entries c)).1 = (specOp (OpGet k now) s).1) as Hr.
    { specialize (HR k). unfold specGet, specOp. destruct (lookupKey k (entries c)) as [e|]; [|by left].
      destruct HR as [|<-]; [done|]. destruct (expires e <? now); [by left|by right]. }
    split; [|done]. intros k'. rewrite specGet_lookup. case_decide as Hk; [subst k'|].
    + destruct Hr as [|Hr]; [by left|]. rewrite Hr. cbn [specOp]. destruct (s !! k) as [e|] eqn:Es; [|by left].
      destruct (expires e <? now); cbn [fst snd]; [by left|by right].
    + cbn [specOp]. specialize (HR k'). destruct (s !! k) as [e|]; [|exact HR].
      destruct (expires e <? now); cbn [snd]; [|exact HR]. by rewrite lookup_delete_ne.
  - destruct Ho as [-> ->]. split; [|by left]. intros k. cbn [specOp snd].
    destruct (lookupKey_take k (Z.to_nat (capacity c)) (e :: without (key e) (entries c))) as [?|E2]; [by left|].
    unfold specPut. rewrite E2, lookupKey_cons, lookupKey_without, lookup_insert.
    specialize (HR k). by case_decide; [right|].
  - destruct Ho as [-> ->]. split; [|by left]. intros k'. cbn [specOp snd]. unfold specInvalidate.
    rewrite lookupKey_without, lookup_delete. specialize (HR k'). by case_decide; [right|].
Qed.

Lemma step_equivalent K o c s r c' :
  inv c -> Z.of_nat (size K) <= capacity c -> within K (entries c) ->
  match o with OpPut e => key e ∈ K | _ => True end ->
  equivalent (entries c) s -> stepOp o c = Some (r, c') ->
  equivalent (entries c') (specOp o s).2 /\ r = (specOp o s).1 /\ within K (entries c').
Proof.
  intros Hi Hc HK Ho' HR E.
  destruct (stepOp_refines o c Hi ltac:(lia)) as (r1 & c1 & E1 & _ & _ & _ & Ho).
  rewrite E in E1. simplify_eq. destruct o as [k now|e|k].
  - assert (r1 = (specGet k now (entries c)).1 /\ entries c1 = (specGet k now (entries c)).2) as [-> ->].
    { by rewrite <- Ho. }
    assert ((specGet k now (entries c)).1 = (specOp (OpGet k now) s).1) as Hr.
    { specialize (HR k). unfold specGet, specOp. rewrite HR. destruct (s !! k) as [e|]; [|done].
      by destruct (expires e <? now). }
    split_and!; [|done|].
    + intros k'. rewrite specGet_lookup, Hr. cbn [specOp]. case_decide as Hk; [subst k'|].
      * destruct (s !! k) as [e|] eqn:Es; [|done]. destruct (expires e <? now); cbn [fst snd]; [|done].
        by rewrite lookup_delete_eq.
      * rewrite HR. destruct (s !! k) as [e|]; [|done]. destruct (expires e <? now); [|done].
        cbn [snd]. by rewrite lookup_delete_ne.
    + unfold specGet. destruct (lookupKey k (entries c)) as [e|] eqn:El; [|done].
      apply lookupKey_elem in El as [Hin _]. destruct (expires e <? now); cbn [snd].
      * intros e' [_ ?]%list_elem_of_filter. by apply HK.
      * intros e' [->|[_ ?]%list_elem_of_filter]%elem_of_cons; by apply HK.
  - destruct Ho as [-> ->]. rewrite (specPut_full K) by (done || by apply inv_keys). split_and!; [|done|].
    + intros k. cbn [specOp snd]. rewrite lookupKey_cons, lookupKey_without, lookup_insert, HR.
      by repeat case_decide.
    + intros e' [->|[_ ?]%list_elem_of_filter]%elem_of_cons; [done|by apply HK].
  - destruct Ho as [-> ->]. split_and!; [|done|].
    + intros k'. cbn [specOp snd]. unfold specInvalidate. rewrite lookupKey_without, lookup_delete, HR.
      by repeat case_decide.
    + intros e' [_ ?]%list_elem_of_filter. by apply HK.
Qed.

Lemma runOps_history ops c s :
  inv c -> 0 <= capacity c -> subsumed (entries c) s ->
  exists rs, runOps ops c = Some rs /\ Forall2 (fun r r' => r = None \/ r = r') rs (specOps ops s).
Proof.
  revert c s. induction ops as [|o ops IH]; intros c s Hi Hc HR; [by exists []|]. cbn [runOps specOps].
  destruct (stepOp_refines o c Hi Hc) as (r & c' & E & Hi' & Hcap & _ & _). rewrite E.
  destruct (step_subsumed _ _ _ _ _ Hi Hc HR E) as [HR' Hr].
  destruct (IH c' _ Hi' ltac:(lia) HR') as (rs & -> & HF). eexists. split; [done|]. by constructor.
Qed.

Lemma runOps_exact K ops c s :
  inv c -> Z.of_nat (size K) <= capacity c -> within K (entries c) ->
  Forall (fun o => match o with OpPut e => key e ∈ K | _ => True end) ops ->
  equivalent (entries c) s -> runOps ops c = Some (specOps ops s).
Proof.
  intros Hi Hc HK HF HR. revert c s Hi Hc HK HR. induction HF as [|o ops Ho HF IH]; intros c s Hi Hc HK HR; [done|].
  cbn [runOps specOps].
  destruct (stepOp_refines o c Hi ltac:(lia)) as (r & c' & E & Hi' & Hcap & _ & _). rewrite E.
  destruct (step_equivalent K _ _ _ _ _ Hi Hc HK Ho HR E) as (HR' & -> & HK').
  by rewrite (IH c' _ Hi' ltac:(lia) HK' HR').
Qed.

(** ** Properties *)

(** C8: the linked list and the map implement the abstract LRU: every
    operation keeps them consistent (unique elements and keys, every map entry
    in the list and back, never more elements than the capacity), never panics,
    and acts on the entries as the specification does, most recently used
    first, the least recently used ones evicted. *)
Theorem LRU_refines (o : op) (c : Cache) :
  inv c -> 0 <= capacity c ->
  exists r c', stepOp o c = Some (r, c') /\ inv c' /\
    match o with
    | OpGet k now => (r, entries c') = specGet k now (entries c)
    | OpPut e => entries c' = specPut (capacity c) e (entries c)
    | OpInvalidate k => entries c' = specInvalidate k (entries c)
    end.
Proof.
  intros Hi Hc. destruct (stepOp_refines o c Hi Hc) as (r & c' & ? & ? & _ & _ & Ho).
  exists r, c'. split_and!; [done|done|]. by destruct o; [|destruct Ho..].
Qed.

(** C25: what a cache answers over any history of operations, at any times.  A
    lookup that hits returns exactly the last entry put under its key, not
    invalidated and not expired since; eviction can only turn a hit into a
    miss, and when the capacity holds every key put, never does. *)
Theorem LRU_history (ops : list op) (cap ttl : Z) :
  0 <= cap ->
  exists rs, runOps ops (New cap ttl) = Some rs /\
    Forall2 (fun r r' => r = None \/ r = r') rs (specOps ops ∅) /\
    (Z.of_nat (size (putKeys ops)) <= cap -> rs = specOps ops ∅).
Proof.
  intros Hc. pose proof (inv_New cap ttl Hc) as Hi.
  destruct (runOps_history ops (New cap ttl) ∅ Hi Hc) as (rs & E & HF); [by intros k; left|].
  exists rs. split_and!; [done|done|]. intros HK.
  assert (runOps ops (New cap ttl) = Some (specOps ops ∅)) as E2; [|congruence].
  apply (runOps_exact (putKeys ops)); [done|done|by intros e He%elem_of_nil| |by intros k].
  apply Forall_forall. intros [k now|e|k] Hin; [done| |done]. unfold putKeys.
  rewrite elem_of_list_to_set, list_elem_of_omap. by exists (OpPut e).
Qed.

Definition demoEntry (k v : bytes) (exp : Z) : entry := mkEntry k v [] (etagFor v) exp.
Definition demoOps : list op :=
  [OpPut (demoEntry $"/a" $"1" 10); OpPut (demoEntry $"/b" $"2" 10); OpGet $"/a" 5; OpGet $"/a" 11;
   OpPut (demoEntry $"/b" $"3" 20); OpGet $"/b" 15; OpInvalidate $"/b"; OpGet $"/b" 15].

Lemma LRU_history_witness :
  exists rs, runOps demoOps (New 2 0) = Some rs /\ rs !! 5%nat = Some (Some (demoEntry $"/b" $"3" 20)).
Proof.
  destruct (LRU_history demoOps 2 0 ltac:(lia)) as (rs & E & _ & HK).
  exists rs. split; [exact E|]. rewrite HK by (by vm_compute). by vm_compute.
Defined.

Lemma LRU_refines_witness :
  exists r c', stepOp (OpPut (demoEntry $"/a" $"1" 10)) (New 1 0) = Some (r, c') /\ len (order c') <= 1.
Proof.
  destruct (LRU_refines (OpPut (demoEntry $"/a" $"1" 10)) (New 1 0) (inv_New 1 0 ltac:(lia)) ltac:(cbn; lia))
    as (r & c' & E & Hi & _).
  exists r, c'. split; [exact E|]. destruct Hi as [_ _ Hc]. vm_compute in E. injection E as _ <-. exact Hc.
Defined.

(** ** The middleware *)

Lemma inv_countMiss c : inv c -> inv (countMiss c).
Proof. by intros [? ? ?]. Qed.
Lemma inv_countHit c : inv c -> inv (countHit c).
Proof. by intros [? ? ?]. Qed.

Lemma lookupStep_spec k now c :
  inv c ->
  let '(r, c') := lookupStep k now c in
  inv c' /\ (r, entries c') = specGet k now (entries c) /\ capacity c' = capacity c /\ ttl c' = ttl c.
Proof.
  intros Hi. unfold lookupStep. pose proof (get_refines c k now Hi) as G.
  destruct (LRU.get c k now) as [[e|] c']; destruct G as (? & ? & ? & ?);
    (split; [by first [apply inv_countHit|apply inv_countMiss]|done]).
Qed.

Lemma specPut_lookup cap e l : 1 <= cap -> lookupKey (key e) (specPut cap e l) = Some e.
Proof.
  intros Hc. unfold specPut. replace (Z.to_nat cap) with (S (Z.to_nat (cap - 1))) by lia.
  cbn [take firstn]. rewrite lookupKey_cons. by rewrite decide_True.
Qed.

(** On this request and writer [next] returns [wresp], leaving the request and
    the cache alone; what else it does to the world is its own business. *)
Definition answers {W} `{Lens W Cache} (next : Handler W) (req : Request) (w wresp : ResponseWriter) : Prop :=
  forall y, xreq y = req -> xw y = w ->
    (next y).1 = Returned /\ xw (next y).2 = wresp /\ xreq (next y).2 = req /\
    view (xst (next y).2) = view (A := Cache) (xst y).

Definition noCache (req : Request) : bool := ContainsToken (ReqHeaders req) $"Cache-Control" $"no-cache".

Section middleware.
Context {W : Type} `{Clock W} `{!Lens W Cache} `{!ClockFrame W Cache}.

(** A GET whose lookup misses. *)
Lemma get_miss (next : Handler W) (x : Exch W) wresp :
  Method (xreq x) = $"GET" -> inv (view (xst x)) ->
  (noCache (xreq x) = true \/ lookupKey (RawTarget (xreq x)) (entries (view (xst x))) = None) ->
  answers next (xreq x) (xw x) wresp ->
  let k := RawTarget (xreq x) in
  let now := (timeNow (xst x)).1 in
  exists c1 y, inv c1 /\ entries c1 = entries (view (xst x)) /\ capacity c1 = capacity (view (xst x)) /\
    ttl c1 = ttl (view (xst x)) /\ xreq y = xreq x /\ xw y = wresp /\ view (xst y) = c1 /\
    CacheMiddleware next x =
    match storable (ttl c1) k now wresp with
    | None => (Returned, y)
    | Some e =>
      match LRU.put c1 e with
      | None => (Panicked, y)
      | Some c2 => respond (serveMiss e) (withSt (put c2 (xst y)) y)
      end
    end.
Proof.
  intros Hm Hi Hmiss Hans k now. unfold CacheMiddleware. rewrite Hm.
  change (negb (beq $"GET" $"GET")) with false. cbv iota. fold (noCache (xreq x)) k.
  pose proof (clock_frame (xst x)) as Hf. subst now. destruct (timeNow (xst x)) as [now st]. cbn [fst snd] in *.
  assert (exists x1 c1, (if noCache (xreq x) then (None, withSt st x)
    else let (e, c) := lookupStep k now (view st) in (e, withSt (put c st) x)) = (None, x1) /\
    xreq x1 = xreq x /\ xw x1 = xw x /\ view (xst x1) = c1 /\ inv c1 /\
    entries c1 = entries (view (xst x)) /\ capacity c1 = capacity (view (xst x)) /\ ttl c1 = ttl (view (xst x)))
    as (x1 & c1 & E & Hq & Hw & Hv & Hi1 & He & Hc & Ht).
  { destruct (noCache (xreq x)).
    - exists (withSt st x), (view (xst x)). by split_and!.
    - destruct Hmiss as [|Hmiss]; [done|]. pose proof (lookupStep_spec k now (view st)) as L. rewrite Hf in L.
      rewrite Hf. destruct (lookupStep k now _) as [r c]. destruct (L Hi) as (? & E & ? & ?).
      unfold specGet in E. fold k in Hmiss. rewrite Hmiss in E. simplify_eq.
      exists (withSt (put c st) x), c. cbn [xreq xw xst withSt]. rewrite view_put. by split_and!. }
  rewrite E. destruct (Hans x1 Hq Hw) as (Hr & Hw' & Hq' & Hv').
  destruct (next x1) as [f y]. cbn [fst snd] in *. subst f. cbn [andThen].
  exists c1, y. rewrite Hw', Hv', Hv. by split_and!.
Qed.

(** A GET whose lookup hits: the handler does not run. *)
Lemma get_hit (next : Handler W) (x : Exch W) e :
  Method (xreq x) = $"GET" -> inv (view (xst x)) -> noCache (xreq x) = false ->
  lookupKey (RawTarget (xreq x)) (entries (view (xst x))) = Some e ->
  (timeNow (xst x)).1 <= expires e ->
  exists c, inv c /\
    CacheMiddleware next x =
    respond (serveHit e) (withSt (put c (timeNow (xst x)).2) x).
Proof.
  intros Hm Hi Hn He Hex. unfold CacheMiddleware. rewrite Hm.
  change (negb (beq $"GET" $"GET")) with false. cbv iota. unfold noCache in Hn. rewrite Hn.
  pose proof (clock_frame (xst x)) as Hf. destruct (timeNow (xst x)) as [now st]. cbn [fst snd] in *.
  pose proof (lookupStep_spec (RawTarget (xreq x)) now (view st)) as L. rewrite Hf in L. rewrite Hf.
  destruct (lookupStep _ now _) as [r c]. destruct (L Hi) as (Hi' & E & _ & _).
  unfold specGet in E. rewrite He in E. destruct (Z.ltb_spec (expires e) now); [lia|]. simplify_eq.
  by exists c.
Qed.

End middleware.

Lemma storable_ok def k now w e :
  storable def k now w = Some e ->
  status w = StatusOK /\ Contains (Get (headers w) $"Cache-Control") $"no-store" = false /\
  key e = k /\ ebody e = body w /\ contentType e = Get (headers w) $"Content-Type" /\
  etag e = etagFor (body w) /\
  expires e = now + responseTTL def (Get (headers w) $"Cache-Control").
Proof.
  unfold storable. destruct (Contains _ _); [done|].
  destruct (Z.eqb_spec (status w) StatusOK); intros; by simplify_eq.
Qed.

Lemma storable_some def k now w :
  status w = StatusOK -> Contains (Get (headers w) $"Cache-Control") $"no-store" = false ->
  exists e, storable def k now w = Some e.
Proof. intros Hs Hn. unfold storable. rewrite Hn, Hs. eauto. Qed.

(** What a client reads off a hit. *)
Lemma serveHit_spec e req w :
  hijacked w = false ->
  let w' := serveHit e req w in
  Get (headers w') $"ETag" = etag e /\ Get (headers w') $"X-Cache" = $"HIT" /\
  (Get (ReqHeaders req) $"If-None-Match" = etag e -> status w' = StatusNotModified) /\
  (Get (ReqHeaders req) $"If-None-Match" <> etag e ->
     status w' = StatusOK /\ body w' = ebody e /\
     (contentType e <> [] -> Get (headers w') $"Content-Type" = contentType e)).
Proof.
  intros Hh. unfold serveHit, beq, WriteHeader.
  assert (canonical $"X-Cache" <> canonical $"ETag") as N1 by (intros E; by vm_compute in E).
  assert (canonical $"Content-Type" <> canonical $"ETag") as N2 by (intros E; by vm_compute in E).
  assert (canonical $"Content-Type" <> canonical $"X-Cache") as N3 by (intros E; by vm_compute in E).
  case_bool_decide as Ei; [|case_bool_decide as Ec].
  all: unfold setHeader, SetBody, withHeaders, withBody, withStatus, Hijack, withHijacked;
    cbn [hijacked headers status body]; rewrite Hh; cbn [hijacked headers status body].
  all: autorewrite with pulse; repeat first [rewrite decide_True by done | rewrite decide_False by done].
  all: split_and!; try done; intros; try done; by rewrite ?decide_True.
Qed.

Lemma serveMiss_spec e req w :
  hijacked w = false ->
  let w' := serveMiss e req w in
  Get (headers w') $"ETag" = etag e /\ Get (headers w') $"X-Cache" = $"MISS" /\
  (Get (ReqHeaders req) $"If-None-Match" = etag e -> status w' = StatusNotModified /\ body w' = []) /\
  (Get (ReqHeaders req) $"If-None-Match" <> etag e -> status w' = status w /\ body w' = body w).
Proof.
  intros Hh. unfold serveMiss, beq, WriteHeader.
  assert (canonical $"X-Cache" <> canonical $"ETag") as N1 by (intros E; by vm_compute in E).
  case_bool_decide as Ei.
  all: unfold setHeader, SetBody, withHeaders, withBody, withStatus;
    cbn [hijacked headers status body]; rewrite ?Hh; cbn [hijacked headers status body].
  all: autorewrite with pulse; repeat first [rewrite decide_True by done | rewrite decide_False by done].
  all: by split_and!.
Qed.

(** C10: a hit is the miss it came from.  When a GET misses and its handler
    answers 200 without [no-store], a later GET of the same target within the
    time to live does not run the handler, and gets the same body, content
    type and entity tag; either request gets 304 instead when it presents that
    tag. *)
Theorem cache_hit_after_miss {W : Type} `{Clock W} `{!Lens W Cache} `{!ClockFrame W Cache}
    (next : Handler W) (x1 x2 : Exch W) (wresp : ResponseWriter) :
  let c0 := view (xst x1) in
  let tag := etagFor (body wresp) in
  let res1 := CacheMiddleware next x1 in
  let res2 := CacheMiddleware next x2 in
  inv c0 -> 1 <= capacity c0 ->
  Method (xreq x1) = $"GET" ->
  noCache (xreq x1) = true \/ lookupKey (RawTarget (xreq x1)) (entries c0) = None ->
  answers next (xreq x1) (xw x1) wresp ->
  status wresp = StatusOK -> hijacked wresp = false ->
  Contains (Get (headers wresp) $"Cache-Control") $"no-store" = false ->
  Method (xreq x2) = $"GET" -> RawTarget (xreq x2) = RawTarget (xreq x1) ->
  noCache (xreq x2) = false -> hijacked (xw x2) = false -> xst x2 = xst res1.2 ->
  (timeNow (xst x2)).1 <=
    (timeNow (xst x1)).1 + responseTTL (ttl c0) (Get (headers wresp) $"Cache-Control") ->
  res1.1 = Returned /\ Get (headers (xw res1.2)) $"ETag" = tag /\
  (Get (ReqHeaders (xreq x1)) $"If-None-Match" <> tag ->
     status (xw res1.2) = StatusOK /\ body (xw res1.2) = body wresp) /\
  res2.1 = Returned /\ (exists c, xst res2.2 = put c (timeNow (xst x2)).2) /\
  Get (headers (xw res2.2)) $"ETag" = tag /\
  (Get (ReqHeaders (xreq x2)) $"If-None-Match" = tag -> status (xw res2.2) = StatusNotModified) /\
  (Get (ReqHeaders (xreq x2)) $"If-None-Match" <> tag ->
     status (xw res2.2) = StatusOK /\ body (xw res2.2) = body wresp /\
     (Get (headers wresp) $"Content-Type" <> [] ->
      Get (headers (xw res2.2)) $"Content-Type" = Get (headers wresp) $"Content-Type")).
Proof.
  intros c0 tag res1 res2 Hi Hcap Hm1 Hmiss Hans Hs Hh Hns Hm2 Hk Hn2 Hh2 Hst Ht. unfold c0 in *.
  destruct (get_miss next x1 wresp Hm1 Hi Hmiss Hans)
    as (c1 & y & Hi1 & He1 & Hc1 & Ht1 & Hqy & Hwy & Hvy & E1).
  destruct (storable_some (ttl c1) (RawTarget (xreq x1)) (timeNow (xst x1)).1 wresp Hs Hns) as [e Ee].
  destruct (storable_ok _ _ _ _ _ Ee) as (_ & _ & Ek & Eb & Ect & Etag & Eexp).
  rewrite Ee in E1. destruct (put_refines c1 e Hi1 ltac:(lia)) as (c2 & Ep & Hi2 & He2 & _ & _).
  rewrite Ep in E1. fold res1 in E1.
  assert (view (xst x2) = c2) as Hv2 by (rewrite Hst, E1; cbn; by rewrite view_put).
  destruct (get_hit next x2 e) as (c3 & Hi3 & E2); try done.
  { by rewrite Hv2. }
  { rewrite Hv2, Hk, <- Ek, He2. apply specPut_lookup. lia. }
  { rewrite Eexp, Ht1. exact Ht. }
  fold res2 in E2. rewrite E1, E2. cbn [fst snd respond onW withSt xw xst xreq].
  destruct (serveMiss_spec e (xreq y) (xw y)) as (M1 & _ & _ & M4); [by rewrite Hwy|].
  destruct (serveHit_spec e (xreq x2) (xw x2) Hh2) as (G1 & _ & G3 & G4).
  rewrite Etag in M1, M4, G1, G3, G4. rewrite Ect, Eb in G4. rewrite Hqy, Hwy, Hs in M4.
  rewrite Hqy, Hwy in M1. rewrite Hqy, Hwy. fold tag in M1, M4, G1, G3, G4.
  split_and!; try done. by exists c3.
Qed.

(** What is never stored.  A response that says [no-store], or whose status
    is not 200, reaches the client as the handler left it and leaves the
    cache's entries as they were; nor does any request but a GET store
    anything. *)
Theorem cache_never_stores {W : Type} `{Clock W} `{!Lens W Cache} `{!ClockFrame W Cache}
    (next : Handler W) (x : Exch W) (wresp : ResponseWriter) :
  let c0 := view (xst x) in
  let res := CacheMiddleware next x in
  inv c0 -> answers next (xreq x) (xw x) wresp ->
  (Method (xreq x) = $"GET" ->
   noCache (xreq x) = true \/ lookupKey (RawTarget (xreq x)) (entries c0) = None ->
   Contains (Get (headers wresp) $"Cache-Control") $"no-store" = true \/ status wresp <> StatusOK ->
   res.1 = Returned /\ xw res.2 = wresp /\ entries (view (xst res.2)) = entries c0) /\
  (Method (xreq x) <> $"GET" ->
   res.1 = Returned /\ xw res.2 = wresp /\ entries (view (xst res.2)) ⊆ entries c0).
Proof.
  intros c0 res Hi Hans. split.
  - intros Hm Hmiss Hno.
    destruct (get_miss next x wresp Hm Hi Hmiss Hans) as (c1 & y & _ & He & _ & Ht & _ & Hw & Hv & E).
    assert (storable (ttl c1) (RawTarget (xreq x)) (timeNow (xst x)).1 wresp = None) as Es.
    { destruct (storable _ _ _ _) as [e|] eqn:Es; [|done].
      destruct (storable_ok _ _ _ _ _ Es) as (? & ? & _). by destruct Hno; congruence. }
    rewrite Es in E. fold res in E. rewrite E. cbn [fst snd]. rewrite Hv. by split_and!.
  - intros Hm. unfold res, CacheMiddleware.
    assert (negb (beq (Method (xreq x)) $"GET") = true) as -> by (unfold beq; by rewrite bool_decide_false).
    destruct (Hans x eq_refl eq_refl) as (Hr & Hw & Hq & Hv). destruct (next x) as [f y].
    cbn [fst snd] in *. subst f. cbn [andThen]. destruct (mutating (Method (xreq y))).
    + cbn [fst snd xw xst withSt]. rewrite view_put, Hv. split_and!; [done|done|].
      unfold invalidateStep.
      destruct (invalidate_refines c0 (Path (xreq y)) Hi) as (Hi1 & E1 & _).
      destruct (invalidate_refines _ (RawTarget (xreq x)) Hi1) as (_ & E2 & _).
      fold c0. rewrite E2, E1. unfold specInvalidate, without. intros e. rewrite !list_elem_of_filter. naive_solver.
    + cbn [fst snd]. rewrite Hv. by split_and!.
Qed.

(** C26: what a write invalidates.  After a POST, PUT, DELETE or PATCH whose
    handler returned, the entries stored under its decoded path and under its
    raw target are gone, so a GET of either runs its handler; every other entry
    is still there, those of the same path with another query included. *)
Theorem write_invalidates {W : Type} `{Clock W} `{!Lens W Cache} (next : Handler W) (x : Exch W)
    (wresp : ResponseWriter) (k : bytes) :
  let c0 := view (xst x) in
  let c1 := view (xst (CacheMiddleware next x).2) in
  inv c0 -> mutating (Method (xreq x)) = true -> answers next (xreq x) (xw x) wresp ->
  inv c1 /\
  (k = Path (xreq x) \/ k = RawTarget (xreq x) -> lookupKey k (entries c1) = None) /\
  (k <> Path (xreq x) -> k <> RawTarget (xreq x) -> lookupKey k (entries c1) = lookupKey k (entries c0)).
Proof.
  intros c0 c1 Hi Hm Hans. unfold c1, CacheMiddleware.
  assert (negb (beq (Method (xreq x)) $"GET") = true) as ->.
  { unfold beq. case_bool_decide as E; [|done]. rewrite E in Hm. by vm_compute in Hm. }
  destruct (Hans x eq_refl eq_refl) as (Hr & _ & Hq & Hv). destruct (next x) as [f y].
  cbn [fst snd] in *. subst f. cbn [andThen]. rewrite Hq, Hm. cbn [fst snd xst withSt].
  rewrite view_put, Hv. fold c0. unfold invalidateStep.
  destruct (invalidate_refines c0 (Path (xreq x)) Hi) as (Hi1 & E1 & _).
  destruct (invalidate_refines _ (RawTarget (xreq x)) Hi1) as (Hi2 & E2 & _).
  rewrite E2, E1. unfold specInvalidate. rewrite !lookupKey_without.
  split; [done|]. split; [intros [-> | ->]|intros]; repeat case_decide; congruence.
Qed.

(** A stale read can survive a write the server observed.  The middleware
    takes the lock once to look up and once to store, and nothing ties the two
    together: whatever the cache, when a GET misses, then a write of the same
    target invalidates, and then the GET stores the response it computed before
    the write, the next GET is served that response. *)
Theorem stale_read_survives (c : Cache) (k path : bytes) (now later : Z) (e : entry) :
  inv c -> 1 <= capacity c -> lookupKey k (entries c) = None ->
  key e = k -> later <= expires e ->
  let (missed, c1) := lookupStep k now c in
  let c2 := invalidateStep path k c1 in
  missed = None /\
  exists c3 c4, LRU.put c2 e = Some c3 /\ lookupStep k later c3 = (Some e, c4).
Proof.
  intros Hi Hc Hk <- Hl. pose proof (lookupStep_spec (key e) now c Hi) as L.
  destruct (lookupStep (key e) now c) as [missed c1]. destruct L as (Hi1 & E1 & Hc1 & _).
  unfold specGet in E1. rewrite Hk in E1. simplify_eq. split; [done|]. unfold invalidateStep.
  destruct (invalidate_refines c1 path Hi1) as (Hi2 & _ & Hc2 & _).
  destruct (invalidate_refines _ (key e) Hi2) as (Hi3 & _ & Hc3 & _).
  destruct (put_refines _ e Hi3) as (c3 & -> & Hi4 & E4 & _ & _); [lia|].
  pose proof (lookupStep_spec (key e) later c3 Hi4) as L. destruct (lookupStep (key e) later c3) as [r c4] eqn:El.
  destruct L as (_ & E5 & _). unfold specGet in E5. rewrite E4, specPut_lookup in E5 by lia.
  destruct (Z.ltb_spec (expires e) later); [lia|]. simplify_eq. by exists c3, c4.
Qed.

Lemma stale_read_survives_witness :
  let c1 := (lookupStep $"/n" 0 (New 4 30)).2 in
  exists c3 c4, LRU.put (invalidateStep $"/n" $"/n" c1) (demoEntry $"/n" $"old" 30) = Some c3 /\
    lookupStep $"/n" 5 c3 = (Some (demoEntry $"/n" $"old" 30), c4).
Proof.
  exact (proj2 (stale_read_survives (New 4 30) $"/n" $"/n" 0 5 (demoEntry $"/n" $"old" 30)
    (inv_New 4 30 ltac:(lia)) ltac:(cbn; lia) eq_refl eq_refl ltac:(cbn; lia))).
Defined.

(** A world of a clock and a cache, and a handler that answers "hello". *)
#[local] Instance lensCache : Lens (Z * Cache) Cache :=
  {| view := snd; put a w := (fst w, a);
     view_put _ _ := eq_refl; put_view w := ltac:(by destruct w); put_put _ _ _ := eq_refl |}.
#[local] Instance clockCache : Clock (Z * Cache) := fun w => (fst w, (fst w + 1, snd w)).
#[local] Instance clockFrameCache : ClockFrame (Z * Cache) Cache := fun _ => eq_refl.

Definition hello : Handler (Z * Cache) := respond (fun _ w => Write w $"hello").
Definition helloResp : ResponseWriter := Write NewResponseWriter $"hello".
Definition cacheReq (m p : bytes) : Request :=
  mkRequest m p p $"HTTP/1.1" ∅ NewHeaders [] [] ∅ ∅.
Definition cacheExch (m p : bytes) (st : Z * Cache) : Exch (Z * Cache) :=
  {| xreq := cacheReq m p; xw := NewResponseWriter; xst := st |}.

Lemma hello_answers m p : answers hello (cacheReq m p) NewResponseWriter helloResp.
Proof. intros [? ? ?] Hr Hw. cbn in Hr, Hw. subst. by vm_compute. Qed.

Definition firstGet : Exch (Z * Cache) := cacheExch $"GET" $"/h" (0, New 4 (30 * Second)).
Definition secondGet : Exch (Z * Cache) :=
  cacheExch $"GET" $"/h" (xst (CacheMiddleware hello firstGet).2).

Lemma cache_hit_after_miss_witness :
  body (xw (CacheMiddleware hello secondGet).2) = $"hello".
Proof.
  assert (inv (view (xst firstGet))) as Hi by (apply inv_New; lia).
  destruct (cache_hit_after_miss hello firstGet secondGet helloResp Hi) as (_ & _ & _ & _ & _ & _ & _ & R).
  - cbn. lia.
  - done.
  - right. by vm_compute.
  - apply hello_answers.
  - done.
  - done.
  - by vm_compute.
  - done.
  - done.
  - by vm_compute.
  - done.
  - done.
  - vm_compute. congruence.
  - apply R. intros E. by vm_compute in E.
Defined.

Lemma cache_never_stores_witness :
  let x := cacheExch $"HEAD" $"/h" (0, New 4 30) in
  entries (view (xst (CacheMiddleware hello x).2)) ⊆ [].
Proof.
  intros x. assert (inv (view (xst x))) as Hi by (apply inv_New; lia).
  apply (proj2 (cache_never_stores hello x helloResp Hi (hello_answers $"HEAD" $"/h"))).
  intros E. by vm_compute in E.
Defined.

Lemma write_invalidates_witness :
  let x := cacheExch $"POST" $"/h" (xst (CacheMiddleware hello firstGet).2) in
  lookupKey $"/h" (entries (view (xst (CacheMiddleware hello x).2))) = None.
Proof.
  intros x. assert (inv (view (xst x))) as Hi.
  { assert (view (xst x) = (default (New 4 0) (LRU.put (countMiss (New 4 (30 * Second)))
      (default (demoEntry [] [] 0) (storable (30 * Second) $"/h" 0 helloResp))))) as -> by (by vm_compute).
    destruct (put_refines (countMiss (New 4 (30 * Second)))
      (default (demoEntry [] [] 0) (storable (30 * Second) $"/h" 0 helloResp)))
      as (c' & -> & Hi' & _); [by apply inv_countMiss, inv_New|cbn; lia|done]. }
  apply (write_invalidates hello x helloResp $"/h" Hi); [by vm_compute|apply hello_answers|by left].
Defined.
