(* ===== verification/MetricsProps.v ===== *)
(** * Properties of the metrics registry *)

From S2P Require Import Prelude GoStrings GoFloat GoIO GoTime GoJSON Headers Status Request Response Handler Middleware Metrics Examples.
From Stdlib Require Import SpecFloat.

(** ** Binary search *)

Definition monotone (n : Z) (f : Z -> bool) : Prop :=
  forall i j, 0 <= i <= j -> j < n -> f i = true -> f j = true.

Lemma searchLoop_least fuel n f i j :
  monotone n f -> 0 <= i <= j -> j <= n -> j - i < Z.of_nat fuel ->
  (forall k, 0 <= k < i -> f k = false) -> (forall k, j <= k < n -> f k = true) ->
  let res := searchLoop fuel f i j in
  i <= res <= j /\ (forall k, 0 <= k < res -> f k = false) /\ (forall k, res <= k < n -> f k = true).
Proof.
  intros Hm. revert i j. induction fuel as [|fuel IH]; intros i j Hij Hjn Hf Hlo Hhi; [lia|].
  cbn [searchLoop]. destruct (Z.ltb_spec i j) as [Hlt|Hge].
  2: { assert (i = j) as <- by lia. split_and!; [lia|lia|done|done]. }
  assert (i <= (i + j) / 2 < j) as Hh.
  { split; [apply Z.div_le_lower_bound; lia|apply Z.div_lt_upper_bound; lia]. }
  destruct (f ((i + j) / 2)) eqn:Ef; cbn [negb].
  - destruct (IH i ((i + j) / 2)) as (? & ? & ?); [lia|lia|lia|done| |split_and!; [lia|lia|done|done]].
    intros k Hk. destruct (Z.lt_ge_cases k j); [|apply Hhi; lia].
    apply (Hm ((i + j) / 2)); [lia|lia|done].
  - destruct (IH ((i + j) / 2 + 1) j) as (? & ? & ?); [lia|lia|lia| |done|split_and!; [lia|lia|done|done]].
    intros k Hk. destruct (f k) eqn:Ek; [|done].
    assert (f ((i + j) / 2) = true) by (apply (Hm k); [lia|lia|done]). congruence.
Qed.

Lemma Search_least n f :
  0 <= n -> monotone n f ->
  0 <= Search n f <= n /\ (forall k, 0 <= k < Search n f -> f k = false) /\
  (forall k, Search n f <= k < n -> f k = true).
Proof. intros Hn Hm. unfold Search. apply searchLoop_least; try lia; done. Qed.

(** ** Buckets *)

(** The bucket of a latency: above the bound before it, at most its own. *)
Definition inBucket (i : Z) (us : Z) : Prop :=
  0 <= i <= len bucketBoundsUS /\
  (forall k, 0 <= k < i -> boundAt k < us) /\
  (i < len bucketBoundsUS -> us <= boundAt i).

Definition bucketOf (us : Z) : Z := Search (len bucketBoundsUS) (fun i => us <=? boundAt i).

Lemma boundAt_le i j : 0 <= i <= j -> j < len bucketBoundsUS -> boundAt i <= boundAt j.
Proof.
  intros Hij Hj. change (len bucketBoundsUS) with 12 in Hj.
  assert (forallb (fun p => implb (p.1 <=? p.2)%nat (boundAt (Z.of_nat p.1) <=? boundAt (Z.of_nat p.2)))
    (list_prod (seq 0 12) (seq 0 12)) = true) as Hc by (by vm_compute).
  rewrite forallb_forall in Hc. specialize (Hc (Z.to_nat i, Z.to_nat j)). cbn [fst snd] in Hc.
  rewrite !Z2Nat.id in Hc by lia. destruct (Nat.leb_spec (Z.to_nat i) (Z.to_nat j)); [|lia].
  apply Z.leb_le, Hc, in_prod; apply in_seq; lia.
Qed.

Lemma bounds_monotone us : monotone (len bucketBoundsUS) (fun i => us <=? boundAt i).
Proof. intros i j Hij Hj. rewrite !Z.leb_le. pose proof (boundAt_le i j Hij Hj). lia. Qed.

Lemma bucketOf_spec us i : bucketOf us = i <-> inBucket i us.
Proof.
  destruct (Search_least (len bucketBoundsUS) (fun i => us <=? boundAt i)) as (Hr & Hlo & Hhi);
    [apply len_nonneg|apply bounds_monotone|]. fold (bucketOf us) in Hr, Hlo, Hhi. split.
  - intros <-. split_and!; try lia.
    + intros k Hk. specialize (Hlo k Hk). lia.
    + intros Hk. specialize (Hhi (bucketOf us)). lia.
  - intros (Hi & Ha & Hb). destruct (Z.lt_trichotomy (bucketOf us) i) as [Hl|[?|Hg]]; [|done|].
    + specialize (Ha (bucketOf us)). specialize (Hhi (bucketOf us)). lia.
    + specialize (Hlo i). lia.
Qed.

#[global] Instance inBucket_dec i us : Decision (inBucket i us).
Proof. refine (cast_if (decide (bucketOf us = i))); abstract (by rewrite <- bucketOf_spec). Defined.

(** ** Histories of observations *)

(** Status and duration of each completed exchange, oldest first. *)
Definition observe (r : Registry) (o : Z * Z) : Registry := Observe o.1 o.2 r.

Definition statusCount (s : Z) (obs : list (Z * Z)) : Z := len (filter (fun o => o.1 = s) obs).
Definition bucketCount (i : Z) (obs : list (Z * Z)) : Z :=
  len (filter (fun o => inBucket i (Microseconds o.2)) obs).

Lemma len_filter_snoc {A} (P : A -> Prop) `{!forall x, Decision (P x)} (l : list A) x :
  len (filter P (l ++ [x])) = len (filter P l) + (if decide (P x) then 1 else 0).
Proof.
  rewrite filter_app, len_app. f_equal. destruct (decide (P x)).
  - by rewrite filter_cons_True.
  - by rewrite filter_cons_False.
Qed.

Lemma uwrap64_id z : 0 <= z < 2 ^ 64 -> uwrap64 z = z.
Proof. intros. unfold uwrap64. by apply Z.mod_small. Qed.

Lemma filter_len_bound {A} (P : A -> Prop) `{!forall x, Decision (P x)} (l : list A) :
  0 <= len (filter P l) <= len l.
Proof. unfold len. pose proof (length_filter P l). lia. Qed.

Lemma observe_history t0 obs :
  len obs < 2 ^ 64 ->
  let r := foldl observe (NewRegistry t0) obs in
  total r = len obs /\ inflight r = 0 /\
  sumUS r = wrap64 (foldr Z.add 0 ((fun o => Microseconds o.2) <$> obs)) /\
  (forall s, default 0 (byStatus r !! s) = statusCount s obs) /\
  length (mbuckets r) = 13%nat /\
  (forall i, 0 <= i <= 12 -> mbuckets r !! Z.to_nat i = Some (bucketCount i obs)).
Proof.
  induction obs as [|o obs IH] using rev_ind; intros Hlen r; subst r.
  { cbn [foldl]. unfold NewRegistry, statusCount, bucketCount. cbn [total inflight sumUS byStatus mbuckets].
    split_and!; try done. intros i Hi. change (filter _ (@nil (Z * Z))) with (@nil (Z * Z)).
    apply lookup_replicate_2. cbn. lia. }
  rewrite len_app, len_cons, len_nil in Hlen. rewrite foldl_app. cbn [foldl].
  destruct IH as (IH1 & IH2 & IH3 & IH4 & IH5 & IH6); [lia|]. set (r := foldl _ _ obs) in *.
  unfold observe, Observe. cbn [total inflight sumUS byStatus mbuckets].
  pose proof (len_nonneg obs). split_and!.
  - rewrite IH1, len_app, len_cons, len_nil, uwrap64_id; lia.
  - done.
  - rewrite IH3, fmap_app, foldr_app. cbn [fmap list_fmap foldr]. rewrite Z.add_0_r.
    assert (forall l z, foldr Z.add z l = foldr Z.add 0 l + z) as Hfold.
    { intros l z. induction l as [|x l IHl]; cbn [foldr]; lia. }
    rewrite wrap64_add_l. by rewrite (Hfold _ (Microseconds o.2)).
  - intros s. unfold statusCount. rewrite len_filter_snoc, lookup_insert. specialize (IH4 s).
    pose proof (filter_len_bound (fun o => o.1 = s) obs).
    destruct (decide (o.1 = s)) as [<-|Hne].
    + cbn [default]. unfold statusCount in IH4. rewrite IH4. apply uwrap64_id. lia.
    + rewrite IH4. unfold statusCount. lia.
  - by rewrite length_alter.
  - intros i Hi. fold (bucketOf (Microseconds o.2)). unfold bucketCount. rewrite len_filter_snoc.
    pose proof (filter_len_bound (fun o => inBucket i (Microseconds o.2)) obs).
    assert (0 <= bucketOf (Microseconds o.2)) by apply (proj1 (bucketOf_spec _ _) eq_refl).
    destruct (decide (inBucket i (Microseconds o.2))) as [Hin|Hn].
    + apply bucketOf_spec in Hin as ->. rewrite list_lookup_alter_eq, IH6 by done. cbn.
      unfold bucketCount. rewrite uwrap64_id; [done|lia].
    + rewrite list_lookup_alter_ne, IH6, Z.add_0_r; [done|done|].
      intros E. apply Hn. apply bucketOf_spec. lia.
Qed.

(** ** Properties *)

(** C37: the counters are exact.  After any sequence of fewer than 2^64
    observations the total is their number, each status has its own count, the
    latency sum is their sum in microseconds (modulo the [int64] width), and each
    histogram bucket counts exactly the latencies above the bound before it and
    at most its own, the last one those above every bound. *)
Theorem Observe_counts (t0 : Z) (obs : list (Z * Z)) :
  len obs < 2 ^ 64 ->
  let r := foldl observe (NewRegistry t0) obs in
  total r = len obs /\
  (forall s, default 0 (byStatus r !! s) = statusCount s obs) /\
  sumUS r = wrap64 (foldr Z.add 0 ((fun o => Microseconds o.2) <$> obs)) /\
  length (mbuckets r) = 13%nat /\
  (forall i, 0 <= i <= 12 -> mbuckets r !! Z.to_nat i = Some (bucketCount i obs)).
Proof. intros H r. by destruct (observe_history t0 obs H) as (? & ? & ? & ? & ? & ?). Qed.

Lemma Observe_counts_witness :
  mbuckets (foldl observe (NewRegistry 0) [(200, 100 * Microsecond); (404, 101 * Microsecond); (200, 2 * Second)])
    !! 12%nat = Some 1.
Proof.
  assert (len [(200, 100 * Microsecond); (404, 101 * Microsecond); (200, 2 * Second)] < 2 ^ 64) as Hl by (by vm_compute).
  destruct (Observe_counts 0 _ Hl) as (_ & _ & _ & _ & Hb). apply (Hb 12 ltac:(lia)).
Defined.

Lemma wrap64_inflight n : int64_ok n -> wrap64 (wrap64 (n + 1) + -1) = n.
Proof. intros Hn. rewrite wrap64_add_l. replace (n + 1 + -1) with n by lia. by apply wrap64_id. Qed.

Lemma addInflight_inverse r : int64_ok (inflight r) -> addInflight (-1) (addInflight 1 r) = r.
Proof. intros Hr. unfold addInflight. cbn. rewrite wrap64_inflight by done. by destruct r. Qed.

(** C38: the middleware observes every request that returns, with the status
    its client gets, and the in-flight gauge is back where it was; a handler
    that panics leaves the gauge one too high for good and is not counted at
    all.  Wrapped around [Recover], no request does that. *)
Theorem MetricsMiddleware_accounting {W : Type} `{Clock W} `{!Lens W Registry} `{!ClockFrame W Registry}
    (next : Handler W) (x : Exch W) :
  (forall y, view (xst (next y).2) = view (A := Registry) (xst y)) ->
  int64_ok (inflight (view (xst x))) ->
  let r0 := view (xst x) in
  (let res := MetricsMiddleware next x in
   exists y, xreq y = xreq x /\ xw y = xw x /\ res.1 = (next y).1 /\ xw res.2 = xw (next y).2 /\
     match (next y).1 with
     | Returned => exists dur, view (xst res.2) = Observe (status (xw res.2)) dur r0
     | Panicked => view (xst res.2) = addInflight 1 r0
     end) /\
  (let res := MetricsMiddleware (Recover next) x in
   res.1 = Returned /\ inflight (view (xst res.2)) = inflight r0 /\
   total (view (xst res.2)) = uwrap64 (total r0 + 1)).
Proof.
  intros Hn Hi r0. unfold MetricsMiddleware.
  set (x1 := onRegistry (addInflight 1) x). pose proof (clock_frame (xst x1)) as Hf.
  destruct (timeNow (xst x1)) as [started st]. cbn [snd] in Hf.
  assert (view st = addInflight 1 r0) as Hst.
  { rewrite Hf. unfold x1, onRegistry. cbn [xst withSt]. by rewrite view_put. }
  set (y := withSt st x1). specialize (Hn y). change (xst y) with st in Hn. rewrite Hst in Hn.
  assert (forall z, view (xst z) = addInflight 1 r0 ->
    let res := (let x := onRegistry (addInflight (-1)) z in let (now, st) := timeNow (xst x) in
      (Returned, onRegistry (Observe (status (xw x)) (timeSub now started)) (withSt st x))) in
    res.1 = Returned /\ xw res.2 = xw z /\
    exists dur, view (xst res.2) = Observe (status (xw res.2)) dur r0) as Hobs.
  { intros z Hz. cbv zeta. pose proof (clock_frame (xst (onRegistry (addInflight (-1)) z))) as Hf2.
    destruct (timeNow (xst (onRegistry (addInflight (-1)) z))) as [now st']. cbn [snd] in Hf2.
    split_and!; [done|done|]. exists (timeSub now started). cbn [snd onRegistry withSt xst xw].
    rewrite view_put, Hf2. cbn [onRegistry withSt xst]. rewrite view_put, Hz.
    by rewrite addInflight_inverse. }
  split; cbv zeta.
  - exists y. split_and!; [done|done|..]; destruct (next y) as [[] z] eqn:En; cbn [fst snd andThen] in *;
      try apply Hobs; done.
  - unfold Recover, withRecover. destruct (next y) as [[] z]; cbn [fst snd andThen] in *.
    + destruct (Hobs z Hn) as (-> & _ & dur & ->). by cbn.
    + destruct (Hobs (onW (fun w => Error w StatusInternalServerError $"internal error") z) Hn) as (-> & _ & dur & ->).
      by cbn.
Qed.

#[local] Instance lensReg : Lens (Z * Registry) Registry :=
  {| view := snd; put a w := (fst w, a);
     view_put _ _ := eq_refl; put_view w := ltac:(by destruct w); put_put _ _ _ := eq_refl |}.
#[local] Instance clockReg : Clock (Z * Registry) := fun w => (fst w, (fst w + 1, snd w)).
#[local] Instance clockFrameReg : ClockFrame (Z * Registry) Registry := fun _ => eq_refl.

Lemma MetricsMiddleware_accounting_witness :
  let x := {| xreq := exampleRequest; xw := NewResponseWriter; xst := (0, NewRegistry 0) |} in
  inflight (view (xst (MetricsMiddleware panics x).2)) = 1.
Proof.
  intros x. destruct (MetricsMiddleware_accounting panics x) as [(y & _ & _ & _ & _ & E) _].
  - done.
  - by vm_compute.
  - cbn [fst panics] in E. rewrite E. by vm_compute.
Defined.
