(* ===== verification/ProxyProps.v ===== *)
(** * Properties of the load balancer: candidates and failover *)

From S2P Require Import Prelude GoStrings GoIO GoTime Headers Status Request Response Handler Proxy Examples.

(** ** Candidates *)

Lemma rotate_spec (l : list nat) k :
  0 <= k < len l -> len l < 2 ^ 62 -> rotate l k = Some (drop (Z.to_nat k) l ++ take (Z.to_nat k) l).
Proof.
  intros Hk Hl. unfold rotate, len in *. apply mapM_Some.
  apply Forall2_same_length_lookup. split.
  { rewrite length_seq, length_app, length_drop, length_take. lia. }
  intros i j x Hi Hx. apply lookup_seq in Hi as [-> Hi]. rewrite Nat.add_0_l.
  rewrite wrap64_id by (unfold int64_ok; lia).
  destruct (Z.lt_ge_cases (k + Z.of_nat i) (Z.of_nat (length l))) as [Hlt|Hge].
  - rewrite Z.rem_small by lia. destruct (Z.ltb_spec (k + Z.of_nat i) 0); [lia|].
    rewrite lookup_app_l, lookup_drop in Hx by (rewrite length_drop; lia).
    rewrite <- Hx. f_equal. lia.
  - assert (Z.rem (k + Z.of_nat i) (Z.of_nat (length l)) = k + Z.of_nat i - Z.of_nat (length l)) as ->.
    { rewrite Z.rem_mod_nonneg by lia. symmetry. apply (Z.mod_unique_pos _ _ 1); lia. }
    destruct (Z.ltb_spec (k + Z.of_nat i - Z.of_nat (length l)) 0); [lia|].
    rewrite lookup_app_r in Hx by (rewrite length_drop; lia). rewrite length_drop in Hx.
    apply lookup_take_Some in Hx as [Hx _]. rewrite <- Hx. f_equal. lia.
Qed.

Section pool.
Context {W Conn : Type}.
Implicit Types p : @Pool Conn.

Lemma least_spec p first others :
  (least p first others ∈ first :: others) /\
  forall i, i ∈ first :: others -> activeOf p (least p first others) <= activeOf p i.
Proof.
  unfold least. revert first. induction others as [|j others IH]; intros first; cbn [foldl].
  { split; [left|]. intros i ->%list_elem_of_singleton. lia. }
  destruct (Z.ltb_spec (activeOf p j) (activeOf p first)) as [Hlt|Hge].
  - destruct (IH j) as [Hin Hmin]. split; [right; exact Hin|].
    intros i [->|Hi]%elem_of_cons; [|by apply Hmin].
    pose proof (Hmin j ltac:(left)). lia.
  - destruct (IH first) as [Hin Hmin]. split; [set_solver|].
    intros i [->|[->|Hi]%elem_of_cons]%elem_of_cons; [apply Hmin; left| |apply Hmin; by right].
    pose proof (Hmin first ltac:(left)). lia.
Qed.

Lemma NoDup_healthy p : NoDup (healthyIndices p).
Proof. unfold healthyIndices. apply NoDup_ListNoDup, List.NoDup_filter, seq_NoDup. Qed.

Lemma elem_of_healthy p i :
  i ∈ healthyIndices p <-> exists u, ups p !! i = Some u /\ healthy u = true.
Proof.
  unfold healthyIndices. rewrite list_elem_of_In, filter_In, in_seq. split.
  - intros [_ Hi]. destruct (ups p !! i) as [u|]; [|done]. by exists u.
  - intros (u & Hu & Hh). rewrite Hu, Hh. apply lookup_lt_Some in Hu. split; [lia|done].
Qed.

Lemma best_first_perm (b : nat) l :
  NoDup l -> b ∈ l -> b :: List.filter (fun i => negb (i =? b)%nat) l ≡ₚ l.
Proof.
  intros Hnd Hb. apply NoDup_Permutation; [|done|].
  - constructor; [|by apply NoDup_ListNoDup, List.NoDup_filter, NoDup_ListNoDup].
    rewrite list_elem_of_In, filter_In, Nat.eqb_refl. by intros [].
  - intros i. rewrite elem_of_cons, !list_elem_of_In, filter_In. split.
    + intros [->|[? _]]; [by apply list_elem_of_In|done].
    + intros Hi. destruct (Nat.eqb_spec i b); [by left|by right].
Qed.

(** What [pick] answers in each strategy. *)
Lemma pick_cases p :
  0 <= next p < 2 ^ 63 - 1 -> len (ups p) < 2 ^ 62 ->
  let h := healthyIndices p in
  (h = [] -> pick p = (Some [], p)) /\
  (h <> [] -> exists cands p', pick p = (Some cands, p') /\ cands ≡ₚ h /\
     cfg p' = cfg p /\ ups p' = ups p /\
     (beq (Strategy (cfg p)) LeastConnections = true ->
        p' = p /\ forall b, head cands = Some b -> forall i, i ∈ h -> activeOf p b <= activeOf p i) /\
     (beq (Strategy (cfg p)) LeastConnections = false ->
        next p' = next p + 1 /\
        let k := Z.to_nat (next p `mod` len h) in cands = drop k h ++ take k h)).
Proof.
  intros Hn Hl h. unfold pick. fold h. pose proof (NoDup_healthy p) as Hnd. fold h in Hnd.
  assert (len h <= len (ups p)) as Hlh.
  { unfold len, h, healthyIndices. pose proof (List.filter_length_le
      (fun i => match ups p !! i with Some u => healthy u | None => false end) (seq 0 (length (ups p)))) as Hf.
    rewrite length_seq in Hf. lia. }
  destruct h as [|first others] eqn:Eh; [by split|]. rewrite <- Eh in *. split; [by rewrite Eh|]. intros _.
  assert (0 < len h) by (rewrite Eh, len_cons; pose proof (len_nonneg others); lia).
  destruct (beq (Strategy (cfg p)) LeastConnections) eqn:Es.
  - destruct (least_spec p first others) as [Hin Hmin]. rewrite <- Eh in Hin, Hmin.
    eexists _, p. split; [done|]. split_and!; [by apply best_first_perm|done|done| |done].
    intros _. split; [done|]. intros b [= <-]. exact Hmin.
  - unfold uwrap64 at 1 2 3. rewrite (Z.mod_small (next p + 1)) by lia.
    replace (next p + 1 - 1) with (next p) by lia. rewrite Z.mod_small by lia.
    rewrite wrap64_id by (unfold int64_ok; lia). rewrite Z.rem_mod_nonneg by lia.
    pose proof (Z.mod_pos_bound (next p) (len h)). rewrite rotate_spec by lia.
    eexists _, _. split; [done|]. split_and!; [|done|done|done|done].
    rewrite Permutation_app_comm. by rewrite take_drop.
Qed.

(** C27: candidate selection.  With no healthy upstream there is no candidate.
    Otherwise every healthy upstream is a candidate exactly once, none other is,
    and: under least-connections the first has the fewest requests in flight;
    under round-robin the order is a rotation that starts one further with each
    request, so [len] consecutive requests start at each candidate once. *)
Theorem pick_candidates p :
  0 <= next p < 2 ^ 63 - 1 -> len (ups p) < 2 ^ 62 ->
  let h := healthyIndices p in
  (h = [] -> pick p = (Some [], p)) /\
  (h <> [] -> exists cands p', pick p = (Some cands, p') /\ cands ≡ₚ h /\
     cfg p' = cfg p /\ ups p' = ups p /\
     (beq (Strategy (cfg p)) LeastConnections = true ->
        p' = p /\ forall b, head cands = Some b -> forall i, i ∈ h -> activeOf p b <= activeOf p i) /\
     (beq (Strategy (cfg p)) LeastConnections = false ->
        next p' = next p + 1 /\
        let k := Z.to_nat (next p `mod` len h) in cands = drop k h ++ take k h)).
Proof. apply pick_cases. Qed.

End pool.

(** ** The pool around an exchange *)

(** The network leaves the pool alone. *)
Class NetFrame (W Conn : Type) `{@Network W Conn} `{Lens W (@Pool Conn)} := {
  frame_dial : forall a t (st : W), view (netDial a t st).2 = view (A := @Pool Conn) st;
  frame_exchange : forall c b (st : W), view (netExchange c b st).2 = view (A := @Pool Conn) st;
  frame_close : forall c (st : W), view (netClose c st) = view (A := @Pool Conn) st;
}.
#[export] Hint Rewrite @frame_dial @frame_exchange @frame_close : pulse.

(** Upstream by upstream: addresses kept, idle connections still within the
    pool size, [active] moved by [d], and health as [hl] says. *)
Record upRel {Conn} (size : Z) (d : Z) (hl : bool -> bool) (u u' : @Upstream Conn) : Prop := {
  ur_addr : UpAddr u' = UpAddr u;
  ur_active : active u' = wrap64 (active u + d);
  ur_health : healthy u' = hl (healthy u);
  ur_conns : len (conns u) <= size -> len (conns u') <= size;
}.

Definition poolRel {Conn} (d : nat -> Z) (hl : nat -> bool -> bool) (p p' : @Pool Conn) : Prop :=
  cfg p' = cfg p /\ next p' = next p /\ length (ups p') = length (ups p) /\
  forall i u, ups p !! i = Some u ->
    exists u', ups p' !! i = Some u' /\ upRel (PoolSize (cfg p)) (d i) (hl i) u u'.

(** Every gauge is an [int64]. *)
Definition gaugesOk {Conn} (p : @Pool Conn) : Prop :=
  forall i u, ups p !! i = Some u -> int64_ok (active u).

Lemma poolRel_refl {Conn} (p : @Pool Conn) : gaugesOk p -> poolRel (fun _ => 0) (fun _ b => b) p p.
Proof.
  intros Hg. split_and!; [done..|]. intros i u Hu. exists u. split; [done|].
  constructor; [done| |done|done]. rewrite Z.add_0_r. by rewrite wrap64_id; [|by eapply Hg].
Qed.

Lemma poolRel_trans {Conn} d1 d2 h1 h2 (p1 p2 p3 : @Pool Conn) :
  poolRel d1 h1 p1 p2 -> poolRel d2 h2 p2 p3 ->
  poolRel (fun i => d1 i + d2 i) (fun i b => h2 i (h1 i b)) p1 p3.
Proof.
  intros (C1 & N1 & L1 & R1) (C2 & N2 & L2 & R2). split_and!; [congruence..|].
  intros i u Hu. destruct (R1 i u Hu) as (u2 & Hu2 & [A1 B1 H1 S1]).
  destruct (R2 i u2 Hu2) as (u3 & Hu3 & [A2 B2 H2 S2]). exists u3. split; [done|].
  rewrite C1 in S2. constructor; [congruence| |congruence|auto].
  rewrite B2, B1, wrap64_add_l. f_equal. lia.
Qed.

Lemma poolRel_gauges {Conn} d h (p p' : @Pool Conn) : poolRel d h p p' -> gaugesOk p'.
Proof.
  intros (_ & _ & L & R) i u' Hu'.
  destruct (lookup_lt_is_Some_2 (ups p) i) as [u Hu]; [apply lookup_lt_Some in Hu'; lia|].
  destruct (R i u Hu) as (u2 & Hu2 & [_ B _ _]). simplify_eq. rewrite B. apply wrap64_ok.
Qed.

Lemma poolRel_ext {Conn} d d' h h' (p p' : @Pool Conn) :
  (forall i, d i = d' i) -> (forall i b, h i b = h' i b) -> poolRel d h p p' -> poolRel d' h' p p'.
Proof.
  intros Hd Hh (C & N & L & R). split_and!; [done..|]. intros i u Hu.
  destruct (R i u Hu) as (u' & Hu' & [A B H S]). exists u'. split; [done|].
  constructor; [done|by rewrite <- Hd|by rewrite <- Hh|done].
Qed.

(** Updating one upstream. *)
Lemma onUp_rel {Conn} j f d hl (p : @Pool Conn) :
  gaugesOk p -> (forall u, ups p !! j = Some u -> upRel (PoolSize (cfg p)) d hl u (f u)) ->
  poolRel (fun i => if decide (i = j) then d else 0) (fun i b => if decide (i = j) then hl b else b)
    p (onUp j f p).
Proof.
  intros Hg Hf. split_and!; [done|done|apply length_alter|]. intros i u Hu. cbn [onUp ups].
  destruct (decide (i = j)) as [->|Hne].
  - exists (f u). split; [by rewrite list_lookup_alter_eq, Hu|by apply Hf].
  - exists u. split; [by rewrite list_lookup_alter_ne|]. constructor; [done| |done|done].
    rewrite Z.add_0_r, wrap64_id; [done|by eapply Hg].
Qed.

Section exchange.
Context {W Conn : Type} `{Network W Conn} `{!Lens W (@Pool Conn)} `{!NetFrame W Conn}.
Implicit Types st : W.

Definition keeps (p p' : @Pool Conn) : Prop := poolRel (fun _ => 0) (fun _ b => b) p p'.

Lemma keeps_refl p : gaugesOk p -> keeps p p.
Proof. apply poolRel_refl. Qed.

Lemma keeps_trans p1 p2 p3 : keeps p1 p2 -> keeps p2 p3 -> keeps p1 p3.
Proof. intros R1 R2. eapply poolRel_ext; [| |exact (poolRel_trans _ _ _ _ _ _ _ R1 R2)]; done. Qed.

Lemma keeps_conns (p : @Pool Conn) i l :
  gaugesOk p -> (forall u, ups p !! i = Some u -> len (conns u) <= PoolSize (cfg p) -> len l <= PoolSize (cfg p)) ->
  keeps p (onUp i (setConns l) p).
Proof.
  intros Hg Hl. refine (poolRel_ext _ _ _ _ _ _ _ _ (onUp_rel i (setConns l) 0 (fun b => b) p Hg _)).
  - intros k. by destruct (decide (k = i)).
  - intros k b. by destruct (decide (k = i)).
  - intros u Hu. constructor; [done| |done|exact (Hl u Hu)].
    rewrite Z.add_0_r. symmetry. apply wrap64_id. exact (Hg i u Hu).
Qed.

Lemma view_onPool f st : view (onPool f st) = f (view (A := @Pool Conn) st).
Proof. unfold onPool. by rewrite view_put. Qed.

Lemma putConn_keeps i c st : gaugesOk (view st) -> keeps (view st) (view (putConn i c st)).
Proof.
  intros Hg. unfold putConn. destruct (ups (view st) !! i) as [u|] eqn:Eu; [|by apply keeps_refl].
  destruct (Z.ltb_spec (len (conns u)) (PoolSize (cfg (view st)))) as [Hlt|].
  - rewrite view_onPool. apply keeps_conns; [done|]. intros u' Hu' _.
    rewrite len_app. change (len [c]) with 1. lia.
  - rewrite frame_close. by apply keeps_refl.
Qed.

Lemma getConn_keeps i a st : gaugesOk (view st) -> keeps (view st) (view (getConn i a st).2).
Proof.
  intros Hg. unfold getConn. destruct (conns <$> ups (view st) !! i) as [[|c l]|] eqn:Ec.
  2: { cbn [snd]. rewrite view_onPool. apply keeps_conns; [done|]. intros u Hu Hl. rewrite Hu in Ec.
       cbn in Ec. injection Ec as Ec. rewrite Ec, len_cons in Hl. lia. }
  all: pose proof (frame_dial a (DialTimeout (cfg (view st))) st) as Hf;
    destruct (netDial a _ st) as [[c|e] st']; cbn [snd] in *; rewrite Hf; by apply keeps_refl.
Qed.

Lemma relayConn_keeps c i a req w st :
  gaugesOk (view st) -> keeps (view st) (view (relayConn c i a req w st).2).
Proof.
  intros Hg. unfold relayConn. pose proof (frame_exchange c (upstreamRequest req) st) as Hf.
  destruct (netExchange c _ st) as [[[e|] r] st']; cbn [snd] in *.
  - rewrite frame_close, Hf. by apply keeps_refl.
  - destruct (readUpstream _ a r) as [[u|e] r']; cbn [snd].
    + destruct (upReuse u); [|rewrite frame_close, Hf; by apply keeps_refl].
      rewrite <- Hf. apply putConn_keeps. by rewrite Hf.
    + rewrite frame_close, Hf. by apply keeps_refl.
Qed.

Lemma relay_keeps i a req w st :
  gaugesOk (view st) -> keeps (view st) (view (relay i a req w st).2).
Proof.
  intros Hg. unfold relay. pose proof (getConn_keeps i a st Hg) as K1.
  destruct (getConn i a st) as [[[c reused]|e] st1]; cbn [snd] in *; [|done].
  pose proof (poolRel_gauges _ _ _ _ K1) as Hg1. pose proof (relayConn_keeps c i a req w st1 Hg1) as K2.
  destruct (relayConn c i a req w st1) as [[[e|] w'] st2]; cbn [snd] in *.
  2: { by eapply keeps_trans. }
  pose proof (keeps_trans _ _ _ K1 K2) as K12. destruct reused; [|done].
  pose proof (frame_dial a (DialTimeout (cfg (view st2))) st2) as Hf.
  destruct (netDial a _ st2) as [[c'|e'] st3]; cbn [snd] in *; [|by rewrite Hf].
  eapply keeps_trans; [exact K12|]. rewrite <- Hf. apply relayConn_keeps. rewrite Hf.
  by eapply poolRel_gauges.
Qed.

(** The writer is touched only by an exchange that succeeds. *)
Lemma relay_writer i a req w st :
  let '(err, w', _) := relay i a req w st in
  match err with
  | Some _ => w' = w
  | None => exists u r r', readUpstream (cfg (view st)) a r = (inl u, r') /\ w' = applyUpstream u w
  end.
Proof.
  assert (forall c st1, cfg (view st1) = cfg (view (A := @Pool Conn) st) ->
    let '(err, w', _) := relayConn c i a req w st1 in
    match err with
    | Some _ => w' = w
    | None => exists u r r', readUpstream (cfg (view st)) a r = (inl u, r') /\ w' = applyUpstream u w
    end) as Hrc.
  { intros c st1 Hc. unfold relayConn. pose proof (frame_exchange c (upstreamRequest req) st1) as Hf.
    destruct (netExchange c _ st1) as [[[e|] r] st']; cbn [snd] in *; [done|].
    rewrite Hf, Hc. destruct (readUpstream _ a r) as [[u|e] r'] eqn:Er; [|done].
    by exists u, r, r'. }
  unfold relay. destruct (getConn i a st) as [[[c reused]|e] st1] eqn:Eg; [|done].
  assert (cfg (view st1) = cfg (view st)) as Hc1.
  { unfold getConn in Eg. destruct (conns <$> ups (view st) !! i) as [[|c' l]|].
    2: { injection Eg as _ _ <-. by rewrite view_onPool. }
    all: pose proof (frame_dial a (DialTimeout (cfg (view st))) st) as Hf;
      destruct (netDial a _ st) as [[c'|e'] st']; cbn [snd] in *; simplify_eq; by rewrite Hf. }
  pose proof (Hrc c st1 Hc1) as H1. destruct (relayConn c i a req w st1) as [[[e|] w'] st2] eqn:E2; [|done].
  destruct reused; [|done]. subst w'.
  assert (cfg (view st2) = cfg (view st)) as Hc2.
  { unfold relayConn in E2. pose proof (frame_exchange c (upstreamRequest req) st1) as Hf.
    destruct (netExchange c _ st1) as [[[e1|] r] st']; cbn [snd] in *; simplify_eq; [by rewrite frame_close, Hf|].
    destruct (readUpstream _ a r) as [[u|e1] r']; simplify_eq. by rewrite frame_close, Hf. }
  pose proof (frame_dial a (DialTimeout (cfg (view st2))) st2) as Hf.
  destruct (netDial a _ st2) as [[c'|e'] st3]; cbn [snd] in *; [|done].
  apply Hrc. by rewrite Hf.
Qed.

End exchange.

(** ** Failover *)

Section failover.
Context {W Conn : Type} `{Network W Conn} `{!Lens W (@Pool Conn)} `{!NetFrame W Conn}.

Definition pool (x : Exch W) : @Pool Conn := view (xst x).
Definition addrOf (p : @Pool Conn) (i : nat) : bytes :=
  match ups p !! i with Some u => UpAddr u | None => [] end.

(** Every gauge and idle bound as before, and exactly [failed] marked down. *)
Definition settled (failed : list nat) (p p' : @Pool Conn) : Prop :=
  poolRel (fun _ => 0) (fun i b => if decide (i ∈ failed) then false else b) p p'.

Lemma addActive_rel (p : @Pool Conn) i d :
  gaugesOk p ->
  poolRel (fun j => if decide (j = i) then d else 0) (fun j b => if decide (j = i) then b else b)
    p (onUp i (addActive d) p).
Proof. intros Hg. apply (onUp_rel i (addActive d) d (fun b => b) p Hg). by constructor. Qed.

(** One attempt: the gauge goes up and comes back. *)
Lemma attempt_keeps i a req w st :
  gaugesOk (view st) ->
  let '(_, _, st') := relay i a req w (onPool (onUp i (addActive 1)) st) in
  keeps (view (A := @Pool Conn) st) (view (onPool (onUp i (addActive (-1))) st')).
Proof.
  intros Hg. pose proof (addActive_rel (view st) i 1 Hg) as R1.
  assert (gaugesOk (onUp i (addActive 1) (view st))) as Hg1 by (by eapply poolRel_gauges).
  pose proof (relay_keeps i a req w (onPool (onUp i (addActive 1)) st)) as R2.
  rewrite view_onPool in R2. specialize (R2 Hg1).
  destruct (relay i a req w _) as [[err w'] st']. cbn [snd] in R2.
  pose proof (addActive_rel (view st') i (-1) (poolRel_gauges _ _ _ _ R2)) as R3.
  rewrite view_onPool. refine (poolRel_ext _ _ _ _ _ _ _ _ (poolRel_trans _ _ _ _ _ _ _ (poolRel_trans _ _ _ _ _ _ _ R1 R2) R3)).
  - intros j. cbv beta. by destruct (decide (j = i)).
  - intros j b. cbv beta. by destruct (decide (j = i)).
Qed.

Lemma settled_addr failed p p' i : settled failed p p' -> (i < length (ups p))%nat -> addrOf p' i = addrOf p i.
Proof.
  intros (_ & _ & _ & R) Hi. unfold addrOf.
  destruct (lookup_lt_is_Some_2 (ups p) i Hi) as [u Hu]. destruct (R i u Hu) as (u' & Hu' & [A _ _ _]).
  by rewrite Hu, Hu'.
Qed.

Lemma attemptLoop_spec left cands le (x : Exch W) :
  gaugesOk (pool x) -> (forall i, i ∈ cands -> (i < length (ups (pool x)))%nat) ->
  let '(r, x') := attemptLoop left cands le x in
  exists failed others, cands = failed ++ others /\ (length failed <= left)%nat /\
    xreq x' = xreq x /\ settled failed (pool x) (pool x') /\
    match r with
    | None => exists i others' u stream stream',
        others = i :: others' /\ (length failed < left)%nat /\
        readUpstream (cfg (pool x)) (addrOf (pool x) i) stream = (inl u, stream') /\
        xw x' = setHeader (applyUpstream u (xw x)) $"X-Upstream" (addrOf (pool x) i)
    | Some _ => xw x' = xw x /\ length failed = Nat.min left (length cands)
    end.
Proof.
  revert cands le x. induction left as [|left IH]; intros cands le x Hg Hin; cbn [attemptLoop].
  { exists [], cands. split_and!; [done|done|done| |done|done]. by apply poolRel_refl. }
  destruct cands as [|i cands].
  { exists [], []. split_and!; [done|cbn; lia|done| |done|done]. by apply poolRel_refl. }
  fold (pool x). fold (addrOf (pool x) i).
  pose proof (attempt_keeps i (addrOf (pool x) i) (xreq x) (xw x) (xst x) Hg) as K.
  pose proof (relay_writer i (addrOf (pool x) i) (xreq x) (xw x) (onPool (onUp i (addActive 1)) (xst x))) as Hw.
  destruct (relay i (addrOf (pool x) i) (xreq x) (xw x) _) as [[[e|] w'] st'].
  2: { destruct Hw as (u & r & r' & Er & ->). rewrite view_onPool in Er.
       exists [], (i :: cands). split_and!; [done|cbn; lia|done| |].
       - refine (poolRel_ext _ _ _ _ _ _ _ _ K); [done|]. intros j b. by rewrite decide_False by apply not_elem_of_nil.
       - exists i, cands, u, r, r'. split_and!; [done|cbn; lia|exact Er|done]. }
  subst w'. set (st2 := onPool (onUp i (addActive (-1))) st') in *.
  set (x2 := {| xreq := xreq x; xw := xw x; xst := onPool (onUp i (setHealthy false)) st2 |}).
  assert (settled [i] (pool x) (pool x2)) as K2.
  { unfold pool at 2, x2. cbn [xst]. rewrite view_onPool.
    refine (poolRel_ext _ _ _ _ _ _ _ _ (poolRel_trans _ _ _ _ _ _ _ K
      (onUp_rel i (setHealthy false) 0 (fun _ => false) (view st2) (poolRel_gauges _ _ _ _ K) _))).
    - intros j. cbv beta. by destruct (decide (j = i)).
    - intros j b. cbv beta. destruct (decide (j = i)) as [->|Hne].
      + by rewrite decide_True by left.
      + rewrite decide_False; [done|]. by intros ->%list_elem_of_singleton.
    - intros u Hu. constructor; [done| |done|done]. rewrite Z.add_0_r. symmetry. apply wrap64_id.
      exact (poolRel_gauges _ _ _ _ K i u Hu). }
  pose proof K2 as (Hcfg & _ & Hlen & _).
  specialize (IH cands e x2 (poolRel_gauges _ _ _ _ K2)). destruct (attemptLoop left cands e x2) as [r x'].
  destruct IH as (failed & others & -> & Hl & Hq & Hs & Hr).
  { intros j Hj. rewrite Hlen. apply Hin. by right. }
  exists (i :: failed), others. split_and!; [done|cbn; lia|done| |].
  - refine (poolRel_ext _ _ _ _ _ _ _ _ (poolRel_trans _ _ _ _ _ _ _ K2 Hs)); [done|].
    intros j b. cbv beta. destruct (decide (j ∈ failed)) as [Hj|Hj].
    + rewrite decide_True by (by right). done.
    + destruct (decide (j = i)) as [->|Hne].
      * rewrite !decide_True by (left || apply list_elem_of_singleton; done). done.
      * rewrite !decide_False; [done| |]; [by intros [|]%elem_of_cons|by intros ->%list_elem_of_singleton].
  - destruct r as [le'|].
    + destruct Hr as [-> Hlen']. split; [done|]. cbn. rewrite length_app in *. cbn. lia.
    + destruct Hr as (j & others' & u & s & s' & -> & Hlt & Er & Ew). exists j, others', u, s, s'.
      assert (addrOf (pool x2) j = addrOf (pool x) j) as Ea.
      { eapply settled_addr; [exact K2|]. apply Hin. right. set_solver. }
      rewrite <- Ea, <- Hcfg. split_and!; [done|cbn; lia|exact Er|exact Ew].
Qed.

End failover.


(** ** Health checks and the end of the pool *)

Section health.
Context {W Conn : Type} `{Network W Conn} `{!Lens W (@Pool Conn)} `{!NetFrame W Conn}.
Implicit Types st : W.

Variable up : bytes -> bool.    (* who listens *)
Definition reaches : Prop :=
  forall a d st, (exists c, (netDial a d st).1 = inl c) <-> up a = true.
Hypothesis Hup : reaches.

(** Only the health of an upstream is of interest to a check. *)
Definition addresses (p : @Pool Conn) : list bytes := UpAddr <$> ups p.
Definition checked (u : @Upstream Conn) : @Upstream Conn := setHealthy (up (UpAddr u)) u.

Lemma checkUpstream_pool i st : view (checkUpstream i st) = onUp i checked (view (A := @Pool Conn) st).
Proof.
  unfold checkUpstream. destruct (ups (view st) !! i) as [u|] eqn:Eu.
  - pose proof (frame_dial (UpAddr u) (DialTimeout (cfg (view st))) st) as Hf.
    pose proof (Hup (UpAddr u) (DialTimeout (cfg (view st))) st) as Ha.
    assert (forall b (st' : W), view (A := @Pool Conn) st' = view (A := @Pool Conn) st -> b = up (UpAddr u) ->
      view (onPool (onUp i (setHealthy b)) st') = onUp i checked (view (A := @Pool Conn) st)) as Hv.
    { intros b st' Es ->. unfold onPool. rewrite view_put, Es. unfold onUp. f_equal. apply list_eq. intros j.
      destruct (decide (j = i)) as [->|Hne]; [|by rewrite !list_lookup_alter_ne].
      rewrite !list_lookup_alter_eq, Eu. done. }
    destruct (netDial _ _ st) as [[c|e] st']; cbn [fst snd] in *; apply Hv; rewrite ?frame_close; try done.
    + symmetry. apply Ha. by eexists.
    + destruct (up (UpAddr u)) eqn:E; [|done]. by destruct (proj2 Ha eq_refl).
  - unfold onUp. destruct (view st) as [c us n]. cbn in *. f_equal. apply list_eq. intros j.
    destruct (decide (j = i)) as [->|Hne]; [|by rewrite list_lookup_alter_ne]. by rewrite list_lookup_alter_eq, Eu.
Qed.

(** A check sets every upstream's health to whether it is reachable. *)
Lemma check_pool st :
  view (check st) = {| cfg := cfg (view st); ups := checked <$> ups (view st); next := next (view (A := @Pool Conn) st) |}.
Proof.
  unfold check. set (p0 := view st). assert (forall n, (n <= length (ups p0))%nat ->
    view (foldl (fun st i => checkUpstream i st) st (seq 0 n)) =
    {| cfg := cfg p0; ups := (checked <$> firstn n (ups p0)) ++ skipn n (ups p0); next := next p0 |}) as Hn.
  { induction n as [|n IH]; intros Hn; [cbn [seq foldl firstn skipn fmap list_fmap app]; unfold p0; destruct (view (A := @Pool Conn) st); reflexivity|].
    rewrite seq_S, foldl_app. cbn [foldl Nat.add]. rewrite checkUpstream_pool, IH by lia. unfold onUp. cbn [cfg ups next]. f_equal.
    destruct (lookup_lt_is_Some_2 (ups p0) n ltac:(lia)) as [u Hu].
    rewrite (drop_S _ _ _ Hu), (take_S_r _ _ _ Hu), fmap_app, <- app_assoc.
    assert (n = length (checked <$> firstn n (ups p0)) + 0)%nat as En by (rewrite length_fmap, length_firstn; lia).
    rewrite En at 1. by rewrite alter_app_r. }
  rewrite Hn by done. by rewrite firstn_all, drop_all, app_nil_r.
Qed.

Lemma healthy_check st i :
  i ∈ healthyIndices (view (check st)) <-> exists u, ups (view (A := @Pool Conn) st) !! i = Some u /\ up (UpAddr u) = true.
Proof.
  rewrite elem_of_healthy, check_pool. cbn [ups]. split.
  - intros (u' & (u & -> & Hu)%list_lookup_fmap_Some & Hh). by exists u.
  - intros (u & Hu & Hh). exists (checked u). by rewrite list_lookup_fmap, Hu.
Qed.


Lemma addresses_check st : addresses (view (check st)) = addresses (view st).
Proof. rewrite check_pool. unfold addresses. cbn [ups]. rewrite <- list_fmap_compose. by apply list_fmap_ext. Qed.

Lemma addresses_lookup p i a : addresses p !! i = Some a <-> exists u, ups p !! i = Some u /\ UpAddr u = a.
Proof.
  unfold addresses. rewrite list_lookup_fmap. destruct (ups p !! i) as [u|]; cbn; [|split; [done|by intros (? & ? & _)]].
  split; [intros [= <-]; by exists u|by intros (? & [= <-] & <-)].
Qed.

Lemma healthLoop_last others st :
  exists st', healthLoop others st = check st' /\
    ((forall g, g ∈ others -> forall s, addresses (view (A := @Pool Conn) (g s)) = addresses (view s)) ->
     addresses (view st') = addresses (view (A := @Pool Conn) st)).
Proof.
  unfold healthLoop. induction others as [|g others IH] using rev_ind; [by exists st|].
  rewrite foldl_app. cbn [foldl]. eexists. split; [done|]. intros Hg. destruct IH as (st' & -> & Hst).
  rewrite Hg by set_solver. rewrite addresses_check. apply Hst. intros g' ?. apply Hg. set_solver.
Qed.
End health.

(** The connections [Stop] closes, seen by anything that counts closings. *)
Section stop.
Context {W Conn : Type} `{Network W Conn} `{!Lens W (@Pool Conn)} `{!NetFrame W Conn}.
Variable closed : W -> list Conn.
Hypothesis closed_close : forall c (st : W), closed (netClose c st) = closed st ++ [c].
Hypothesis closed_put : forall (p : @Pool Conn) st, closed (put p st) = closed st.

Lemma close_all l (st : W) :
  closed (foldl (fun st c => netClose c st) st l) = closed st ++ l /\
  view (A := @Pool Conn) (foldl (fun st c => netClose c st) st l) = view st.
Proof.
  revert st. induction l as [|c l IH]; intros st; cbn [foldl]; [by rewrite app_nil_r|].
  destruct (IH (netClose c st)) as [-> ->]. by rewrite closed_close, <- app_assoc, frame_close.
Qed.

Lemma Stop_closes (st : W) :
  closed (Stop st) = closed st ++ (ups (view st) ≫= conns) /\
  view (Stop st) = {| cfg := cfg (view st); ups := setConns [] <$> ups (view st); next := next (view (A := @Pool Conn) st) |}.
Proof.
  unfold Stop. set (p0 := view st). set (one := fun (s : W) (i : nat) => _).
  assert (forall n, (n <= length (ups p0))%nat ->
    closed (foldl one st (seq 0 n)) = closed st ++ (firstn n (ups p0) ≫= conns) /\
    view (foldl one st (seq 0 n)) =
    {| cfg := cfg p0; ups := (setConns [] <$> firstn n (ups p0)) ++ skipn n (ups p0); next := next p0 |}) as Hn.
  { induction n as [|n IH]; intros Hn.
    - cbn [seq foldl firstn skipn fmap list_fmap app mbind list_bind]. split; [by rewrite app_nil_r|].
      unfold p0. destruct (view (A := @Pool Conn) st). reflexivity.
    - destruct (IH ltac:(lia)) as [IHc IHv]. rewrite seq_S, foldl_app. cbn [foldl Nat.add]. unfold one at 1 3.
      destruct (lookup_lt_is_Some_2 (ups p0) n ltac:(lia)) as [u Hu].
      assert (n = length (setConns [] <$> firstn n (ups p0)) + 0)%nat as En by (rewrite length_fmap, length_firstn; lia).
      assert (ups (view (foldl one st (seq 0 n))) !! n = Some u) as ->.
      { rewrite IHv. cbn [ups]. rewrite (drop_S _ _ _ Hu). apply list_lookup_middle. lia. }
      destruct (close_all (conns u) (foldl one st (seq 0 n))) as [Ec Ev]. unfold onPool. rewrite closed_put, view_put, Ec, Ev, IHc, IHv.
      rewrite (take_S_r _ _ _ Hu), bind_app, fmap_app. split; [cbn [mbind list_bind]; by rewrite app_nil_r, <- app_assoc|].
      unfold onUp. cbn [cfg ups next]. f_equal. rewrite (drop_S _ _ _ Hu), <- app_assoc, En at 1. by rewrite alter_app_r. }
  destruct (Hn (length (ups p0)) ltac:(done)) as [E1 E2]. rewrite E1, E2. by rewrite firstn_all, drop_all, app_nil_r.
Qed.
End stop.

(** C28: the health loop decides the candidates.  Whatever the rest of the process
    does to the pool between two checks, as long as the upstreams stay, after
    every check the candidates are exactly the upstreams that can be dialled:
    an upstream an exchange marked down comes back, and one that died leaves. *)
Theorem healthLoop_restores {W Conn : Type} `{Network W Conn} `{!Lens W (@Pool Conn)} `{!NetFrame W Conn}
    (up : bytes -> bool) (others : list (W -> W)) (st : W) :
  reaches (W := W) (Conn := Conn) up ->
  (forall g, g ∈ others -> forall s, addresses (view (A := @Pool Conn) (g s)) = addresses (view s)) ->
  let p := view (A := @Pool Conn) (healthLoop others st) in
  addresses p = addresses (view st) /\
  (forall i, i ∈ healthyIndices p <-> exists a, addresses (view st) !! i = Some a /\ up a = true).
Proof.
  intros Hup Hg p. subst p. destruct (healthLoop_last up Hup others st) as (st' & -> & Ha). specialize (Ha Hg).
  rewrite (addresses_check up Hup), Ha. split; [done|]. intros i. rewrite (healthy_check up Hup), <- Ha. split.
  - intros (u & Hu & Hh). exists (UpAddr u). split; [|done]. apply addresses_lookup. by exists u.
  - intros (a & (u & Hu & <-)%addresses_lookup & Hh). by exists u.
Qed.

(** ** A network to compute with: nobody listens at an address starting with
    "x", everyone else answers with the stream kept for it *)

Definition scripted (addr : bytes) : bytes :=
  $"HTTP/1.1 200 OK" ++ CRLF ++ $"Content-Length: 2" ++ CRLF ++ CRLF ++ addr.

Definition demoWorld : Type := @Pool bytes.
#[local] Instance demoNetwork : @Network demoWorld bytes := {|
  netDial addr _ st := (if HasPrefix addr $"x" then inr NetFailure else inl addr, st);
  netExchange c _ st := ((None, mkReader (scripted c) EOF 4096), st);
  netClose _ st := st;
  errText _ := $"error";
|}.
#[local] Instance demoFrame : NetFrame demoWorld bytes.
Proof. constructor; intros; reflexivity. Defined.

Definition demoPool (addrs : list bytes) (strategy : bytes) : demoWorld :=
  NewPool (mkConfig addrs strategy 0 0 0 0 0 0).

Definition demoExch (addrs : list bytes) : Exch demoWorld :=
  {| xreq := exampleRequest; xw := NewResponseWriter; xst := demoPool addrs [] |}.

Lemma demoPool_gauges addrs s : gaugesOk (demoPool addrs s).
Proof.
  intros i u Hu. unfold demoPool, NewPool in Hu. cbn [ups] in Hu.
  apply list_lookup_fmap_Some in Hu as (a & -> & _). split; [done|by vm_compute].
Qed.


Lemma pick_candidates_witness :
  exists cands p', pick (demoPool [$"a"; $"b"; $"c"] []) = (Some cands, p') /\ cands ≡ₚ [0; 1; 2]%nat.
Proof.
  destruct (pick_candidates (demoPool [$"a"; $"b"; $"c"] [])) as [_ P]; [by vm_compute..|].
  destruct P as (cands & p' & E & HP & _); [by vm_compute|]. exists cands, p'. split; [exact E|].
  rewrite HP. by vm_compute.
Defined.

(** An exchange marks upstream 1 down; the next check brings it back, and keeps
    the unreachable one out. *)
Lemma healthLoop_restores_witness :
  let markDown (p : demoWorld) : demoWorld := onUp 1 (setHealthy false) p in
  let p := healthLoop [markDown] (demoPool [$"x1"; $"u2"; $"u3"] []) in
  1%nat ∈ healthyIndices p /\ 0%nat ∉ healthyIndices p.
Proof.
  intros markDown p. destruct (healthLoop_restores (fun a => negb (HasPrefix a $"x")) [markDown]
    (demoPool [$"x1"; $"u2"; $"u3"] [])) as [_ HR].
  - intros a d st. cbn. destruct (HasPrefix a $"x"); cbn; split; try done; [by intros []|by eexists].
  - intros g ->%list_elem_of_singleton s0. unfold addresses, markDown. cbn. unfold onUp. cbn [ups].
    apply list_eq. intros j. rewrite !list_lookup_fmap. destruct (decide (j = 1%nat)) as [->|Hne].
    + rewrite list_lookup_alter_eq. by destruct (ups s0 !! 1%nat).
    + by rewrite list_lookup_alter_ne.
  - split; [apply HR; by exists $"u2"|]. intros (a & Ha & Hu)%HR. cbn in Ha. injection Ha as <-. by vm_compute in Hu.
Defined.

(** What an upstream sends is relayed as it is: an interim response is taken for
    the final one and the final one for its body, and names no header can have
    reach the client. *)
Example relays_as_is :
  readUpstream (withDefaults (mkConfig [] [] 0 0 0 0 0 0)) $"u"
    (mkReader ($"HTTP/1.1 100 Continue" ++ CRLF ++ $"a b: 1" ++ CRLF ++ CRLF ++ scripted $"ok") EOF 4096) =
  (inl {| upStatus := 100; upHeaders := [($"a b", $"1")]; upBody := scripted $"ok"; upReuse := false |},
   mkReader [] EOF 4096).
Proof. by vm_compute. Qed.
