(* ===== verification/Wire.v ===== *)
(** * Reading back what the server writes

    Lemmas shared by the clients of the wire format, the load balancer and the
    load generator: lines, header lines and the names they compare. *)

From S2P Require Import Prelude GoStrings GoIO Headers Status Request RequestFacts RequestRoundtrip Response.

Lemma ReadString_crlf line more e b :
  nl ∉ line ->
  ReadString (mkReader (line ++ CRLF ++ more) e b) = (line ++ CRLF, None, mkReader more e b).
Proof.
  intros Hn. rewrite (ReadString_line _ (line ++ [cr]) more).
  - cbn [ending bufsize]. by rewrite <- app_assoc.
  - cbn [rest]. by rewrite <- app_assoc.
  - intros [?|?%list_elem_of_singleton]%elem_of_app; done.
Qed.

Lemma trimLeftBy_all f a s : Forall (fun c => f c = true) a -> trimLeftBy f (a ++ s) = trimLeftBy f s.
Proof. intros HF. induction HF as [|c a Hc HF IH]; [done|]. simpl. by rewrite Hc. Qed.

Lemma TrimRight_crlf line :
  (forall c, last line = Some c -> c <> cr /\ c <> nl) -> TrimRight (line ++ CRLF) CRLF = line.
Proof.
  intros Hl. unfold TrimRight, trimRightBy. rewrite rev_app_distr.
  rewrite trimLeftBy_all by (by repeat constructor).
  destruct line as [|c l _] using rev_ind; [done|]. rewrite rev_app_distr. cbn [rev app trimLeftBy].
  destruct (Hl c (last_snoc c l)) as [H1 H2].
  rewrite bool_decide_false by (unfold CRLF; set_solver). cbn [rev]. by rewrite rev_involutive.
Qed.

(** A trimmed string does not end in a one-byte space. *)
Lemma TrimSpace_last v c : TrimSpace v = v -> last v = Some c -> space1 c = false.
Proof.
  intros Ht Hl. unfold TrimSpace in Ht.
  destruct (trimSpaces_suffix (fun a b => space2 b a) (fun a b c => space3 c b a)
    (rev (trimSpaces space2 space3 v))) as [_ Hs].
  apply (f_equal (@rev ascii)) in Ht. rewrite rev_involutive in Ht. rewrite Ht in Hs.
  apply last_Some in Hl as [l ->]. rewrite rev_app_distr in Hs. cbn [rev app startsSpace] in Hs.
  by apply orb_false_iff in Hs as [? _].
Qed.

Lemma headerLine_last k v c :
  cleanValue v -> last (headerLine (k, v)) = Some c -> c <> cr /\ c <> nl.
Proof.
  intros [_ Ht] Hl. unfold headerLine in Hl. cbn [fst snd] in Hl. rewrite !last_app in Hl.
  destruct (last v) as [d|] eqn:Ev.
  - simplify_eq. pose proof (TrimSpace_last v c Ht Ev). by split; intros ->.
  - destruct (last $": ") as [d|] eqn:Ed; [|by vm_compute in Ed]. vm_compute in Ed. by simplify_eq.
Qed.

Lemma headerLine_nl k v : cleanName k -> cleanValue v -> nl ∉ headerLine (k, v).
Proof.
  intros (_ & Hk & _) [Hv _]. unfold headerLine. cbn [fst snd]. rewrite !elem_of_app.
  intros [?|[Hx|?]]; [done|absurd_elem Hx|done].
Qed.

Lemma headerLine_nonempty k v : cleanName k -> headerLine (k, v) <> [].
Proof. intros (Hk & _). unfold headerLine. by destruct k. Qed.

(** ** Clean values *)

Lemma clean_nil : cleanValue [].
Proof. split; [apply not_elem_of_nil|done]. Qed.

Lemma clean_graphic v : Forall (fun c => graphic c = true) v -> cleanValue v.
Proof.
  intros HF. split; [|by apply TrimSpace_graphic]. intros Hx. rewrite Forall_forall in HF. by apply HF in Hx.
Qed.

Lemma Itoa_graphic n : Forall (fun c => graphic c = true) (Itoa n).
Proof.
  unfold Itoa, FormatInt. destruct (Z.ltb_spec n 0).
  - constructor; [by vm_compute|]. apply FormatUint_graphic; lia.
  - apply FormatUint_graphic; lia.
Qed.

Lemma hexEncode_graphic s : Forall (fun c => graphic c = true) (hexEncode s).
Proof.
  unfold hexEncode. induction s as [|c s IH]; [constructor|]. cbn [mbind list_bind]. apply Forall_app. split; [|done].
  destruct c as [[] [] [] [] [] [] [] []]; repeat constructor.
Qed.

Lemma Join_graphic vs :
  vs <> [] -> Forall (fun v => v <> [] /\ Forall (fun c => graphic c = true) v) vs -> cleanValue (Join vs $", ").
Proof.
  intros Hne HF. split.
  - clear Hne. induction HF as [|v vs [_ Hv] HF IH]; [apply not_elem_of_nil|].
    assert (nl ∉ v) as Hn by (intros Hx; rewrite Forall_forall in Hv; by apply Hv in Hx).
    destruct vs as [|v' vs]; [done|]. cbn [Join]. cbn [Join] in IH. rewrite !elem_of_app.
    intros [?|[Hx|?]]; [done|absurd_elem Hx|done].
  - apply TrimSpace_id.
    + destruct vs as [|v vs]; [done|]. apply Forall_cons in HF as [[Hv HF] _].
      destruct v as [|c v]; [done|]. apply Forall_cons in HF as [? _]. destruct vs; intros d [= <-]; done.
    + clear Hne. intros c. induction HF as [|v vs [Hv HF] HFs IH]; [done|].
      destruct vs as [|v' vs].
      * intros Hl. rewrite Forall_forall in HF. by apply HF, last_Some_elem_of.
      * cbn [Join]. cbn [Join] in IH. rewrite !last_app. intros Hl. apply IH.
        destruct (last (match vs with [] => v' | _ => _ end)) eqn:E; [done|]. exfalso. apply last_None in E.
        apply Forall_cons in HFs as [[Hv' _] _]. destruct vs; [done|]. by destruct v'.
Qed.

(** ** Names compared without case *)

Lemma digit_last n c : 0 <= n -> last (Itoa n) = Some c -> c <> cr /\ c <> nl.
Proof.
  intros Hn Hl. unfold Itoa, FormatInt in Hl. destruct (Z.ltb_spec n 0); [lia|].
  pose proof (FormatUint_graphic 10 n ltac:(lia) Hn) as HF. rewrite Forall_forall in HF.
  specialize (HF c (last_Some_elem_of _ _ Hl)). by split; intros ->.
Qed.

(** When a lower-cased name has no "i" and no "k", only its ASCII letters were
    changed. *)
Lemma ToLower_plain s t : ToLower s = t -> "i"%char ∉ t -> "k"%char ∉ t -> lowerByte <$> s = t.
Proof.
  revert t. remember (length s) as n eqn:Hn. revert s Hn. induction n as [n IH] using lt_wf_ind.
  intros s -> t E Hi Hk. destruct s as [|c1 s1]; [done|]. cbn [fmap list_fmap].
  assert (ToLower (c1 :: s1) = lowerByte c1 :: ToLower s1 -> lowerByte c1 :: (lowerByte <$> s1) = t) as Hstep.
  { intros E1. rewrite E1 in E. subst t. f_equal. apply (IH (length s1)); [simpl; lia|done|done|..].
    - intros ?. apply Hi. by right.
    - intros ?. apply Hk. by right. }
  destruct s1 as [|c2 s2]; [by apply Hstep|]. cbn [ToLower] in E, Hstep.
  destruct (_ && _) in E, Hstep; [(exfalso; apply Hi; rewrite <- E; by left)|].
  destruct s2 as [|c3 s3]; [by apply Hstep|].
  destruct (_ && _ && _) in E, Hstep; [(exfalso; apply Hk; rewrite <- E; by left)|by apply Hstep].
Qed.

(** Likewise for case folding, which keeps an "s" and a "k" apart. *)
Lemma fold_plain s t : fold s = t -> "s"%char ∉ t -> "k"%char ∉ t -> lowerByte <$> s = t.
Proof.
  revert t. remember (length s) as n eqn:Hn. revert s Hn. induction n as [n IH] using lt_wf_ind.
  intros s -> t E Hi Hk. destruct s as [|c1 s1]; [done|]. cbn [fmap list_fmap].
  assert (fold (c1 :: s1) = lowerByte c1 :: fold s1 -> lowerByte c1 :: (lowerByte <$> s1) = t) as Hstep.
  { intros E1. rewrite E1 in E. subst t. f_equal. apply (IH (length s1)); [simpl; lia|done|done|..].
    - intros ?. apply Hi. by right.
    - intros ?. apply Hk. by right. }
  destruct s1 as [|c2 s2]; [by apply Hstep|]. cbn [fold] in E, Hstep.
  destruct (_ && _) in E, Hstep; [(exfalso; apply Hi; rewrite <- E; by left)|].
  destruct s2 as [|c3 s3]; [by apply Hstep|].
  destruct (_ && _ && _) in E, Hstep; [(exfalso; apply Hk; rewrite <- E; by left)|by apply Hstep].
Qed.

Lemma bz_lowerByte c : bz (lowerByte c) < 128 -> bz c < 128.
Proof.
  unfold lowerByte, isUpperAlpha. destruct (between 65 (bz c) 90) eqn:E; [|done].
  apply between_spec in E. lia.
Qed.

(** On ASCII strings both are [lowerByte] byte by byte. *)
Lemma lower_ascii s :
  Forall (fun c => bz c < 128) (lowerByte <$> s) -> ToLower s = lowerByte <$> s /\ fold s = lowerByte <$> s.
Proof.
  induction s as [|c1 s1 IH]; [done|]. cbn [fmap list_fmap]. intros [Hc%bz_lowerByte HF]%Forall_cons.
  destruct (IH HF) as [E1 E2].
  assert (forall z, 128 <= z -> (bz c1 =? z) = false) as Hz by (intros z ?; apply Z.eqb_neq; lia).
  cbn [ToLower fold]. rewrite !Hz by lia. cbn [andb]. rewrite E1, E2.
  by destruct s1 as [|c2 [|c3 s3]].
Qed.

Lemma EqualFold_content_length k : EqualFold k $"Content-Length" = beq (ToLower k) $"content-length".
Proof.
  assert (fold $"Content-Length" = $"content-length") as E by (by vm_compute).
  assert (Forall (fun c => bz c < 128) $"content-length") as HF by (refine (bool_decide_unpack _ _); by vm_compute).
  unfold EqualFold, beq. rewrite E. apply bool_decide_ext. split; intros Ek.
  - apply fold_plain in Ek; [|intros Hx; absurd_elem Hx..].
    destruct (lower_ascii k) as [-> _]; [by rewrite Ek|done].
  - apply ToLower_plain in Ek; [|intros Hx; absurd_elem Hx..].
    destruct (lower_ascii k) as [_ ->]; [by rewrite Ek|done].
Qed.

Lemma lower_canonical k t :
  forallb validHeaderFieldByte t = true -> (lowerByte <$> t) = t ->
  ToLower k = t -> "i"%char ∉ t -> "k"%char ∉ t -> canonical k = canonical t.
Proof.
  intros Hv Ht E Hi Hk. symmetry. apply canonical_same_name; [done|]. unfold same_name.
  by rewrite Ht, (ToLower_plain k t).
Qed.

(** ** The status line *)

Lemma phrase_clean s :
  nl ∉ ReasonPhrase s /\ forall c, last (ReasonPhrase s) = Some c -> c <> cr /\ c <> nl.
Proof.
  assert (Forall (fun p => nl ∉ p /\ bool_decide (last p = Some cr) = false) ($"Status" :: reasonPhraseList.*2)) as HF.
  { refine (bool_decide_unpack _ _). by vm_compute. }
  rewrite Forall_forall in HF. assert (ReasonPhrase s ∈ $"Status" :: reasonPhraseList.*2) as Hin.
  { unfold ReasonPhrase. destruct (reasonPhrases !! s) as [p|] eqn:E; [right|by left].
    apply elem_of_list_to_map_2 in E. by apply (list_elem_of_fmap_2 snd) in E. }
  destruct (HF _ Hin) as [Hnl Hcr]. split; [done|]. intros c Hc. split; intros ->.
  - by rewrite bool_decide_true in Hcr.
  - apply Hnl. by apply last_Some_elem_of.
Qed.
