(* ===== verification/ProxyWire.v ===== *)
(** * The load balancer on the wire

    What the proxy reads of a response the server wrote, and what the server's
    parser reads of a request the proxy wrote. *)

From S2P Require Import Prelude GoStrings GoIO GoURL GoTime Headers Status Request RequestFacts RequestRoundtrip Response Handler Proxy Wire Examples.

(** ** Responses *)

(** Header names the proxy does not relay. *)
Definition hopUp (k : bytes) : bool :=
  bool_decide (ToLower k ∈ [$"content-length"; $"connection"; $"keep-alive"; $"transfer-encoding"; $"date"; $"server"]).

Definition relayed (hs : list (bytes * bytes)) : list (bytes * bytes) :=
  filter (fun kv => hopUp kv.1 = false) hs.

(** The [Content-Length] the header loop ends with. *)
Definition clOf (cl : Z) (hs : list (bytes * bytes)) : Z :=
  foldl (fun cl kv => if beq (ToLower kv.1) $"content-length" then (ParseInt kv.2 10).1 else cl) cl hs.

Lemma upHeaderLoop_wire fuel addr hs more e b cl acc :
  (length hs < fuel)%nat ->
  Forall (fun kv => cleanName kv.1 /\ cleanValue kv.2) hs ->
  upHeaderLoop fuel addr (mkReader (headerWire hs ++ CRLF ++ more) e b) cl acc =
  (inl (clOf cl hs, acc ++ relayed hs), mkReader more e b).
Proof.
  revert fuel cl acc. induction hs as [|[k v] hs IH]; intros [|fuel] cl acc Hf HC; simpl in Hf; try lia.
  - cbn [upHeaderLoop headerWire mbind list_bind app].
    rewrite (ReadString_crlf [] more) by apply not_elem_of_nil.
    rewrite TrimRight_crlf by done. by rewrite app_nil_r.
  - apply Forall_cons in HC as [[Hk Hv] HC]. cbn [fst snd] in Hk, Hv.
    change (headerWire ((k, v) :: hs)) with ((headerLine (k, v) ++ CRLF) ++ headerWire hs).
    rewrite <- !app_assoc. cbn [upHeaderLoop].
    rewrite ReadString_crlf by by apply headerLine_nl.
    rewrite TrimRight_crlf by (intros c; by apply headerLine_last).
    unfold beq at 1. rewrite bool_decide_false by by apply headerLine_nonempty.
    rewrite cleanName_colon by apply Hk. rewrite TrimSpace_sp. destruct Hv as [_ Hv]. rewrite Hv.
    unfold clOf, relayed. cbn [foldl fst snd].
    destruct (beq (ToLower k) $"content-length") eqn:Ecl.
    + apply bool_decide_eq_true in Ecl. rewrite filter_cons_False; [by apply IH; [lia|]|].
      cbn [fst]. unfold hopUp. rewrite Ecl. by vm_compute.
    + unfold beq in Ecl. apply bool_decide_eq_false in Ecl.
      destruct (bool_decide (ToLower k ∈ [$"connection"; _; _; _; _])) eqn:Eh.
      * apply bool_decide_eq_true in Eh. rewrite filter_cons_False; [by apply IH; [lia|]|].
        cbn [fst]. unfold hopUp. rewrite bool_decide_true by (by right). done.
      * apply bool_decide_eq_false in Eh. rewrite filter_cons_True.
        -- rewrite IH by (done || lia). by rewrite <- app_assoc.
        -- cbn [fst]. unfold hopUp. apply bool_decide_eq_false. by intros [?|?]%elem_of_cons.
Qed.

Lemma clOf_const cl hs x :
  (forall kv, kv ∈ hs -> ToLower kv.1 = $"content-length" -> kv.2 = x) ->
  (exists kv, kv ∈ hs /\ ToLower kv.1 = $"content-length") ->
  clOf cl hs = (ParseInt x 10).1.
Proof.
  intros Hall (kv0 & Hin & E0). revert cl. induction hs as [|kv hs IH] using rev_ind; intros cl.
  { by apply elem_of_nil in Hin. }
  unfold clOf. rewrite foldl_app. cbn [foldl]. unfold beq. case_bool_decide as Ek.
  - rewrite (Hall kv); [done|set_solver|done].
  - apply IH; [intros; apply Hall; [set_solver|done]|].
    apply elem_of_app in Hin as [?|Hin]; [done|]. apply list_elem_of_singleton in Hin as ->. done.
Qed.

Lemma elem_of_flat_Values h k v :
  wf h -> canonicalKeys h -> (k, v) ∈ flat (entries h) -> canonical k = k /\ v ∈ Values h k.
Proof.
  intros W HC Hin. unfold flat in Hin. apply list_elem_of_bind in Hin as ([k' vs] & Hin & He).
  apply list_elem_of_fmap in Hin as (v' & [= <- <-] & Hv).
  unfold entries in He. apply list_elem_of_fmap in He as (k'' & [= -> ->] & Hk).
  unfold canonicalKeys in HC. rewrite Forall_forall in HC. pose proof (HC _ Hk) as Ek.
  split; [done|]. unfold Values. by rewrite Ek.
Qed.

Lemma Values_elem_of_flat h k v : wf h -> v ∈ Values h k -> (canonical k, v) ∈ flat (entries h).
Proof.
  intros W Hv. unfold Values in Hv. destruct (vals h !! canonical k) as [vs|] eqn:E; [|by apply elem_of_nil in Hv].
  unfold flat. apply list_elem_of_bind. exists (canonical k, vs). split; [by apply list_elem_of_fmap_2|].
  unfold entries. apply list_elem_of_fmap. exists (canonical k). rewrite E. split; [done|].
  apply (wf_dom _ W). by eexists.
Qed.

Lemma cl_name k : ToLower k = $"content-length" -> canonical k = $"Content-Length".
Proof.
  intros E. rewrite (lower_canonical k $"content-length"); [by vm_compute|by vm_compute|by vm_compute|done|..];
    intros Hx; absurd_elem Hx.
Qed.

(** The length the client sees is the one the server set. *)
Lemma clOf_entries h n cl :
  wf h -> canonicalKeys h -> Values h $"Content-Length" = [Itoa n] -> 0 <= n < 2 ^ 63 ->
  clOf cl (flat (entries h)) = n.
Proof.
  intros W HC Hv Hn. rewrite (clOf_const _ _ (Itoa n)).
  - unfold Itoa. by rewrite ParseInt_FormatInt by lia.
  - intros [k v] Hin Ek. cbn [fst snd] in *.
    destruct (elem_of_flat_Values h k v W HC Hin) as [Hck Hvk].
    assert (k = $"Content-Length") as -> by (rewrite <- Hck; by apply cl_name).
    rewrite Hv in Hvk. by apply list_elem_of_singleton in Hvk.
  - exists ($"Content-Length", Itoa n). split; [|by vm_compute].
    assert (canonical $"Content-Length" = $"Content-Length") as Hck by (by vm_compute).
    rewrite <- Hck. apply Values_elem_of_flat; [done|]. rewrite Hv. by left.
Qed.

Lemma clOf_no_length h cl :
  wf h -> canonicalKeys h -> Values h $"Content-Length" = [] -> clOf cl (flat (entries h)) = cl.
Proof.
  intros W HK Hv.
  assert (forall kv, kv ∈ flat (entries h) -> ToLower kv.1 <> $"content-length") as Hno.
  { intros [k v] Hin Ek. cbn [fst] in Ek. destruct (elem_of_flat_Values _ _ _ W HK Hin) as [Hck Hx].
    rewrite (cl_name k Ek) in Hck. rewrite <- Hck, Hv in Hx. by apply elem_of_nil in Hx. }
  revert Hno. generalize (flat (entries h)). intros l Hno. unfold clOf.
  induction l as [|kv l IH]; [done|]. cbn [foldl]. unfold beq at 2.
  rewrite bool_decide_false by (apply Hno; left). apply IH. intros kv' ?. apply Hno. by right.
Qed.

(** ** The headers a response ends up with are clean *)

Lemma canonicalKeys_Set h k v : canonicalKeys h -> canonicalKeys (Set_ h k v).
Proof.
  intros HC. unfold canonicalKeys, Set_, noteKey. cbn [keys]. destruct (vals h !! canonical k); [done|].
  apply Forall_app. split; [done|]. constructor; [apply canonical_idem|constructor].
Qed.

Lemma cleanHeaders_Set h k v :
  cleanHeaders h -> cleanName k -> cleanValue v -> cleanHeaders (Set_ h k v).
Proof.
  intros HC Hk Hv. unfold cleanHeaders, Set_. cbn [vals]. apply map_Forall_insert_2; [|done].
  split; [by apply cleanName_canonical|by constructor].
Qed.

Lemma cleanHeaders_Del h k : cleanHeaders h -> cleanHeaders (Del h k).
Proof.
  intros HC. unfold Del. destruct (vals h !! canonical k); [|done].
  unfold cleanHeaders. cbn [vals]. by apply map_Forall_delete.
Qed.

Lemma canonicalKeys_Del h k : wf h -> canonicalKeys h -> canonicalKeys (Del h k).
Proof.
  intros W HC. unfold canonicalKeys in *. rewrite Forall_forall in *. intros k' Hk'. apply HC.
  apply (wf_dom _ (wf_Del h k W)) in Hk'. apply (wf_dom _ W). revert Hk'. unfold Del.
  destruct (vals h !! canonical k); [|done]. cbn [vals]. intros [vs [_ Hvs]%lookup_delete_Some]. by exists vs.
Qed.

Ltac clean_const :=
  split; [intros Hx; absurd_elem Hx|by vm_compute].

Lemma Itoa_clean n : cleanValue (Itoa n).
Proof. apply clean_graphic, Itoa_graphic. Qed.

Lemma Itoa_nonl n : nl ∉ Itoa n.
Proof. apply Itoa_clean. Qed.

Lemma pad_nonl width n : nl ∉ pad width n.
Proof.
  unfold pad. intros [Hx|Hx]%elem_of_app; [|by apply Itoa_nonl in Hx].
  apply elem_of_replicate in Hx as [E _]. done.
Qed.

Lemma names_nonl (l : list bytes) i :
  bool_decide (Forall (fun d => nl ∉ d) l) = true -> nl ∉ default [] (l !! i).
Proof.
  intros HF%bool_decide_eq_true. destruct (l !! i) as [d|] eqn:E; [|apply not_elem_of_nil].
  rewrite Forall_forall in HF. apply HF. by eapply list_elem_of_lookup_2.
Qed.

Lemma httpDate_clean now : cleanValue (httpDate now).
Proof.
  unfold httpDate. destruct (civil _) as [[y m] d]. split.
  - rewrite !elem_of_app. intros Hx.
    repeat match type of Hx with _ \/ _ => destruct Hx as [Hx|Hx] end;
      first [by apply pad_nonl in Hx|by (apply names_nonl in Hx; vm_compute)|absurd_elem Hx].
  - apply TrimSpace_id.
    + intros c. set (i := Z.to_nat _).
      assert (i < 7)%nat as Hi.
      { unfold i. pose proof (Z.mod_pos_bound (now / Second / 86400 + 4) 7). lia. }
      do 7 (destruct i as [|i]; [by (intros E; vm_compute in E; injection E as <-)|]). lia.
    + intros c. rewrite !last_app. destruct (last $" GMT") as [t|] eqn:Et; [|by vm_compute in Et].
      vm_compute in Et. injection Et as <-. intros E. injection E as <-. done.
Qed.

Lemma finalHeaders_clean w keepAlive now :
  wf (headers w) -> cleanHeaders (headers w) -> canonicalKeys (headers w) ->
  let h := finalHeaders w keepAlive now in wf h /\ cleanHeaders h /\ canonicalKeys h.
Proof.
  intros W HC HK h. unfold h, finalHeaders. clear h.
  assert (forall k v h, cleanName k -> cleanValue v -> wf h /\ cleanHeaders h /\ canonicalKeys h ->
    wf (Set_ h k v) /\ cleanHeaders (Set_ h k v) /\ canonicalKeys (Set_ h k v)) as HSet.
  { intros k v h Hk Hv (? & ? & ?). split_and!;
      [by apply wf_Set|by apply cleanHeaders_Set|by apply canonicalKeys_Set]. }
  assert (forall k, bool_decide (cleanName k) = true -> cleanName k) as Hn by (intros k; apply bool_decide_eq_true_1).
  assert (forall b h h', (wf h /\ cleanHeaders h /\ canonicalKeys h) -> (wf h' /\ cleanHeaders h' /\ canonicalKeys h') ->
    let g := (if b : bool then h else h') in wf g /\ cleanHeaders g /\ canonicalKeys g) as Hif by (by intros []).
  assert (forall v, bool_decide (nl ∉ v) && beq (TrimSpace v) v = true -> cleanValue v) as Hv.
  { intros v [H1%bool_decide_eq_true H2%bool_decide_eq_true]%andb_prop. by split. }
  set (h1 := if Has (headers w) $"Date" then _ else _).
  assert (wf h1 /\ cleanHeaders h1 /\ canonicalKeys h1) as H1.
  { apply Hif; [done|]. apply HSet; [by apply Hn; vm_compute|apply httpDate_clean|done]. }
  set (h2 := if Has h1 $"Server" then _ else _).
  assert (wf h2 /\ cleanHeaders h2 /\ canonicalKeys h2) as H2.
  { apply Hif; [done|]. apply HSet; [by apply Hn; vm_compute|by apply Hv; vm_compute|done]. }
  set (h3 := if bodyless (status w) then _ else _).
  assert (wf h3 /\ cleanHeaders h3 /\ canonicalKeys h3) as H3.
  { apply Hif.
    - destruct H2 as (? & ? & ?). split_and!; [by apply wf_Del|by apply cleanHeaders_Del|by apply canonicalKeys_Del].
    - apply HSet; [by apply Hn; vm_compute|apply Itoa_clean|done]. }
  apply Hif; apply HSet; try done; try (by apply Hn; vm_compute); by apply Hv; vm_compute.
Qed.

(** The head of a response: the status line and the header lines. *)
Lemma serialize_head w keepAlive now more :
  let h := finalHeaders w keepAlive now in
  (serialize w $"HTTP/1.1" keepAlive now).2 ++ more =
  ($"HTTP/1.1" ++ [sp] ++ Itoa (status w) ++ [sp] ++ ReasonPhrase (status w)) ++ CRLF ++
  headerWire (flat (entries h)) ++ CRLF ++
  (if negb (isHead w) && negb (bodyless (status w)) then body w else []) ++ more.
Proof. intros h. rewrite serialize_bytes, headerWire_flat. fold h. by rewrite <- !app_assoc. Qed.

Lemma statusLine_nl s : nl ∉ $"HTTP/1.1" ++ [sp] ++ Itoa s ++ [sp] ++ ReasonPhrase s.
Proof.
  rewrite !elem_of_app. intros [Hx|[Hx|[Hx|[Hx|Hx]]]];
    [absurd_elem Hx|absurd_elem Hx|by apply Itoa_nonl in Hx|absurd_elem Hx|by apply (phrase_clean s) in Hx].
Qed.

Lemma statusLine_last s c :
  last ($"HTTP/1.1" ++ [sp] ++ Itoa s ++ [sp] ++ ReasonPhrase s) = Some c -> c <> cr /\ c <> nl.
Proof.
  rewrite !last_app. destruct (last (ReasonPhrase s)) as [d|] eqn:E.
  - intros [= ->]. by apply (phrase_clean s).
  - cbn. intros [= <-]. done.
Qed.

Lemma SplitN_statusLine s :
  0 <= s ->
  SplitN ($"HTTP/1.1" ++ [sp] ++ Itoa s ++ [sp] ++ ReasonPhrase s) sp 3 =
  [$"HTTP/1.1"; Itoa s; ReasonPhrase s].
Proof.
  cbn [app].
  intros Hs. cbn [SplitN]. rewrite (Cut_app $"HTTP/1.1") by (intros Hx; absurd_elem Hx).
  rewrite (Cut_app (Itoa s)); [done|]. intros Hx.
  pose proof (FormatUint_graphic 10 s ltac:(lia) Hs) as HF. rewrite Forall_forall in HF.
  unfold Itoa, FormatInt in Hx. destruct (Z.ltb_spec s 0); [lia|]. by apply HF in Hx.
Qed.

Lemma length_headerWire_le hs more : (length hs < S (length (headerWire hs ++ more)))%nat.
Proof. rewrite length_app. pose proof (length_headerWire hs). lia. Qed.

(** The client side of the head, whatever follows it. *)
Lemma readUpstream_head c addr w keepAlive now tl e b :
  0 <= status w < 2 ^ 63 -> wf (headers w) -> cleanHeaders (headers w) -> canonicalKeys (headers w) ->
  let h := finalHeaders w keepAlive now in
  let r := mkReader tl e b in
  readUpstream c addr (mkReader (($"HTTP/1.1" ++ [sp] ++ Itoa (status w) ++ [sp] ++ ReasonPhrase (status w)) ++
    CRLF ++ headerWire (flat (entries h)) ++ CRLF ++ tl) e b) =
  let cl := clOf (-1) (flat (entries h)) in
  let hs := relayed (flat (entries h)) in
  if 0 <=? cl then
    if RelayMaxBodyBytes c <? cl then (inr (Some (BodyTooLarge addr cl)), r)
    else match ReadFull r cl with
         | (inr e, r) => (inr (Some (ReadBodyErr addr e)), r)
         | (inl body, r) => (inl (mkUpResponse (status w) hs body true), r)
         end
  else match ReadAllLimit r (wrap64 (RelayMaxBodyBytes c + 1)) with
       | (inr e, r) => (inr (Some (ReadBodyErr addr e)), r)
       | (inl body, r) =>
         if RelayMaxBodyBytes c <? len body then (inr (Some (BodyExceeds addr)), r)
         else (inl (mkUpResponse (status w) hs body false), r)
       end.
Proof.
  intros Hs W HC HK h r. destruct (finalHeaders_clean w keepAlive now W HC HK) as (W' & HC' & HK').
  fold h in W', HC', HK'. unfold readUpstream.
  rewrite ReadString_crlf by apply statusLine_nl.
  rewrite TrimRight_crlf by apply statusLine_last. rewrite SplitN_statusLine by lia.
  change (negb (HasPrefix $"HTTP/1.1" $"HTTP/1.")) with false. cbv iota.
  unfold Atoi, Itoa. rewrite ParseInt_FormatInt by lia. cbn [rest].
  rewrite upHeaderLoop_wire; [done|apply length_headerWire_le|by apply flat_clean].
Qed.

(** ** Properties *)

(** The proxy reads one serialized response. *)
Lemma readUpstream_wire (c : Config) (addr : bytes) (w : ResponseWriter) (keepAlive : bool)
    (now : Z) (more : bytes) (e : ioerr) (b : nat) :
  isHead w = false -> bodyless (status w) = false -> 0 <= status w < 2 ^ 63 ->
  wf (headers w) -> cleanHeaders (headers w) -> canonicalKeys (headers w) ->
  len (body w) <= RelayMaxBodyBytes c -> len (body w) < 2 ^ 63 ->
  let h := headers (serialize w $"HTTP/1.1" keepAlive now).1 in
  readUpstream c addr (mkReader ((serialize w $"HTTP/1.1" keepAlive now).2 ++ more) e b) =
  (inl {| upStatus := status w; upHeaders := relayed (flat (entries h)); upBody := body w; upReuse := true |},
   mkReader more e b).
Proof.
  intros Hh Hb Hs W HC HK Hl Hl2 h. rewrite serialize_head, readUpstream_head by done.
  destruct (finalHeaders_clean w keepAlive now W HC HK) as (W' & _ & HK').
  destruct (Values_finalHeaders w keepAlive now) as (_ & Hcl & _). rewrite Hb in Hcl.
  pose proof (len_nonneg (body w)). rewrite (clOf_entries _ (len (body w))) by (done || lia).
  rewrite Hh, Hb. cbn [negb andb].
  destruct (Z.leb_spec 0 (len (body w))); [|lia].
  destruct (Z.ltb_spec (RelayMaxBodyBytes c) (len (body w))); [lia|].
  by rewrite (ReadFull_app _ (body w) more).
Qed.

(** The proxy reads back what the server writes.  A response with a body,
    serialized by the server and followed by anything, comes out of the proxy's
    reader with its status, its body and every header but the hop-by-hop ones,
    [Date] and [Server]; exactly its bytes are consumed, so the connection can
    be reused. *)
Theorem readUpstream_serialize (c : Config) (addr : bytes) (w : ResponseWriter) (keepAlive : bool)
    (now : Z) (more : bytes) (e : ioerr) (b : nat) :
  isHead w = false -> bodyless (status w) = false -> 0 <= status w < 2 ^ 63 ->
  wf (headers w) -> cleanHeaders (headers w) -> canonicalKeys (headers w) ->
  len (body w) <= RelayMaxBodyBytes c -> len (body w) < 2 ^ 63 ->
  let h := headers (serialize w $"HTTP/1.1" keepAlive now).1 in
  readUpstream c addr (mkReader ((serialize w $"HTTP/1.1" keepAlive now).2 ++ more) e b) =
  (inl {| upStatus := status w; upHeaders := relayed (flat (entries h)); upBody := body w; upReuse := true |},
   mkReader more e b).
Proof. apply readUpstream_wire. Qed.

Lemma fresh_clean : cleanHeaders NewHeaders /\ canonicalKeys NewHeaders.
Proof. split; [apply map_Forall_empty|constructor]. Qed.

(** C40: responses without a body stall the proxy.  The server keeps the
    connection open after a response to HEAD, which announces the length of the
    body it leaves out, and after a 204 or 304, which has no length; the proxy
    waits for the missing body or for the end of the connection, and when the
    deadline strikes the exchange counts as a failure of the upstream. *)
Theorem bodyless_upstream_fails (c : Config) (addr : bytes) (w : ResponseWriter) (now : Z) (b : nat) :
  0 <= status w < 2 ^ 63 -> wf (headers w) -> cleanHeaders (headers w) -> canonicalKeys (headers w) ->
  0 <= RelayMaxBodyBytes c < 2 ^ 63 - 1 -> len (body w) <= RelayMaxBodyBytes c ->
  bodyless (status w) = true \/ isHead w = true /\ body w <> [] ->
  (readUpstream c addr (mkReader (serialize w $"HTTP/1.1" true now).2 NetTimeout b)).1 =
  inr (Some (ReadBodyErr addr NetTimeout)).
Proof.
  intros Hs W HC HK Hm Hl Hcase. rewrite <- (app_nil_r (serialize w _ _ _).2), serialize_head.
  destruct (finalHeaders_clean w true now W HC HK) as (W' & _ & HK').
  destruct (Values_finalHeaders w true now) as (_ & Hcl & _).
  assert ((if negb (isHead w) && negb (bodyless (status w)) then body w else []) ++ [] = []) as ->.
  { destruct Hcase as [->|[-> _]]; [by rewrite andb_false_r|done]. }
  rewrite readUpstream_head by done.
  destruct (bodyless (status w)) eqn:Eb.
  - rewrite clOf_no_length by done.
    cbn [Z.leb]. change (0 <=? -1) with false. cbv iota.
    rewrite wrap64_id by (unfold int64_ok; lia). unfold ReadAllLimit. cbn [rest ending].
    destruct (Z.leb_spec (RelayMaxBodyBytes c + 1) (len (@nil ascii))); [rewrite len_nil in *; lia|done].
  - destruct Hcase as [|[_ Hne]]; [done|].
    rewrite (clOf_entries _ (len (body w))) by (done || (pose proof (len_nonneg (body w)); lia)).
    pose proof (len_pos (body w) Hne).
    cbv zeta. assert ((0 <=? len (body w)) = true) as -> by (apply Z.leb_le; lia).
    assert ((RelayMaxBodyBytes c <? len (body w)) = false) as -> by (apply Z.ltb_ge; lia).
    unfold ReadFull. cbn [rest ending].
    assert ((len (body w) <=? len (@nil ascii)) = false) as -> by (apply Z.leb_gt; rewrite len_nil; lia).
    reflexivity.
Qed.

Definition relayConfig : Config := withDefaults (mkConfig [] [] 0 0 0 0 0 0).
Definition helloWriter : ResponseWriter := Write NewResponseWriter $"hello".

Lemma readUpstream_serialize_witness :
  exists r, (readUpstream relayConfig $"u" (mkReader ((serialize helloWriter $"HTTP/1.1" true 0).2 ++ $"next") EOF 16)) =
    (inl r, mkReader $"next" EOF 16) /\ upStatus r = 200 /\ upBody r = $"hello".
Proof.
  destruct fresh_clean as [HC HK].
  eexists. split; [apply (readUpstream_serialize relayConfig $"u" helloWriter true 0 $"next" EOF 16)|by split].
  - reflexivity.
  - reflexivity.
  - vm_compute. split; congruence.
  - apply wf_New.
  - exact HC.
  - exact HK.
  - vm_compute. congruence.
  - by vm_compute.
Defined.

Lemma bodyless_upstream_fails_witness :
  (readUpstream relayConfig $"u"
    (mkReader (serialize (withIsHead helloWriter true) $"HTTP/1.1" true 0).2 NetTimeout 16)).1 =
  inr (Some (ReadBodyErr $"u" NetTimeout)).
Proof.
  destruct fresh_clean as [HC HK].
  apply (bodyless_upstream_fails relayConfig $"u" (withIsHead helloWriter true) 0 16).
  - vm_compute. split; congruence.
  - apply wf_New.
  - exact HC.
  - exact HK.
  - vm_compute. split; [congruence|done].
  - vm_compute. congruence.
  - right. by vm_compute.
Defined.
