(* ===== verification/ProxyForward.v ===== *)
(** * What the load balancer forwards

    The request the proxy writes to an upstream, as the upstream's parser reads
    it. *)

From S2P Require Import Prelude.
From S2P Require Import GoStrings.
From S2P Require Import GoIO.
From S2P Require Import GoURL.
From S2P Require Import Headers.
From S2P Require Import Status.
From S2P Require Import Request.
From S2P Require Import RequestFacts.
From S2P Require Import RequestRoundtrip.
From S2P Require Import Response.
From S2P Require Import Handler.
From S2P Require Import Proxy.
From S2P Require Import Wire.
From S2P Require Import ProxyWire.
From S2P Require Import Examples.

(** ** The header lines *)

Definition hopDown (k : bytes) : bool :=
  bool_decide (ToLower k ∈ [$"connection"; $"keep-alive"; $"transfer-encoding"; $"content-length"]).
Definition isXFF (k : bytes) : bool := beq (ToLower k) $"x-forwarded-for".

(** The client's address joins the end of every [X-Forwarded-For]. *)
Definition withClient (host : bytes) (kv : bytes * bytes) : bytes * bytes :=
  if isXFF kv.1 then (kv.1, kv.2 ++ $", " ++ host) else kv.

Definition endToEnd (hs : list (bytes * bytes)) : list (bytes * bytes) :=
  filter (fun kv => hopDown kv.1 = false) hs.

Definition forwarded (req : Request) : list (bytes * bytes) :=
  let hs := flat (entries (ReqHeaders req)) in
  (withClient (clientHost req) <$> endToEnd hs) ++
  (if existsb (fun kv => isXFF kv.1) hs then [] else [($"X-Forwarded-For", clientHost req)]) ++
  [($"Content-Length", Itoa (len (Body req))); ($"Connection", $"keep-alive")].

Lemma Range_flat {S} h (fn : bytes -> bytes -> S -> S) s :
  Range h fn s = foldl (fun s kv => fn kv.1 kv.2 s) s (flat (entries h)).
Proof.
  unfold Range, entries. revert s. induction (keys h) as [|k ks IH]; intros s; [done|].
  cbn [foldl fmap list_fmap]. rewrite IH.
  change (flat ((k, default [] (vals h !! k)) :: ((fun k => (k, default [] (vals h !! k))) <$> ks)))
    with ((pair k <$> default [] (vals h !! k)) ++ flat ((fun k => (k, default [] (vals h !! k))) <$> ks)).
  rewrite foldl_app. f_equal. clear. generalize (default [] (vals h !! k)). intros vs. revert s.
  induction vs as [|v vs IH]; intros s; [done|]. cbn [foldl fmap list_fmap fst snd]. apply IH.
Qed.

Lemma isXFF_hop k : isXFF k = true -> hopDown k = false.
Proof.
  unfold isXFF, hopDown, beq. intros E%bool_decide_eq_true. rewrite E. by vm_compute.
Qed.

Lemma forwardHeader_fold req hs b x :
  foldl (fun s kv => forwardHeader req kv.1 kv.2 s) (b, x) hs =
  (b ++ headerWire (withClient (clientHost req) <$> endToEnd hs), x || existsb (fun kv => isXFF kv.1) hs).
Proof.
  revert b x. induction hs as [|[k v] hs IH]; intros b x.
  { cbn. by rewrite app_nil_r, orb_false_r. }
  cbn [foldl fst snd existsb]. unfold forwardHeader at 2, endToEnd. fold (hopDown k). fold (isXFF k).
  destruct (hopDown k) eqn:Eh.
  - assert (isXFF k = false) as -> by (destruct (isXFF k) eqn:E; [by rewrite (isXFF_hop k E) in Eh|done]).
    rewrite filter_cons_False by (cbn [fst]; congruence). apply IH.
  - rewrite filter_cons_True by done. cbn [fmap list_fmap]. unfold withClient at 1. cbn [fst snd].
    destruct (isXFF k); rewrite IH; unfold headerWire at 2; cbn [mbind list_bind]; unfold headerLine; cbn [fst snd].
    + rewrite orb_true_r. cbn [orb]. f_equal. unfold headerWire, endToEnd. by rewrite <- !app_assoc.
    + cbn [orb]. f_equal. unfold headerWire, endToEnd. by rewrite <- !app_assoc.
Qed.

(** The request is a request line, header lines and the body. *)
Lemma upstreamRequest_wire req :
  upstreamRequest req =
  requestLine (Method req) (RawTarget req) $"HTTP/1.1" ++ CRLF ++ headerWire (forwarded req) ++ CRLF ++ Body req.
Proof.
  unfold upstreamRequest. rewrite Range_flat, forwardHeader_fold. unfold forwarded, requestLine.
  rewrite !headerWire_app. cbn [orb].
  assert (forall k v, headerWire [(k, v)] = k ++ $": " ++ v ++ CRLF) as H1.
  { intros k v. unfold headerWire, headerLine. cbn [mbind list_bind fst snd]. by rewrite app_nil_r, <- !app_assoc. }
  assert (forall kv l, headerWire (kv :: l) = headerWire [kv] ++ headerWire l) as H2 by (intros; apply (headerWire_app [_])).
  rewrite (H2 _ [_]), !H1.
  change ([sp] ++ RawTarget req ++ [sp] ++ $"HTTP/1.1") with ($" " ++ RawTarget req ++ $" HTTP/1.1").
  change $"Content-Length: " with ($"Content-Length" ++ $": ").
  change $"Connection: keep-alive" with ($"Connection" ++ $": " ++ $"keep-alive").
  change $"X-Forwarded-For: " with ($"X-Forwarded-For" ++ $": ").
  destruct (existsb _ _); rewrite ?H1; rewrite <- !app_assoc; reflexivity.
Qed.

(** ** Clean values *)

Lemma startsSpace_comma v t :
  startsSpace space2 space3 v = false -> startsSpace space2 space3 (v ++ comma :: t) = false.
Proof.
  assert (forall c, space2 c comma = false) as H2 by (intros; unfold space2; by rewrite andb_false_r).
  assert (forall c d, space3 c comma d = false) as H3.
  { intros. unfold space3. change (bz comma) with 44. cbn. by rewrite !andb_false_r. }
  assert (forall c d, space3 c d comma = false) as H4.
  { intros. unfold space3. change (bz comma) with 44. cbn. by rewrite !andb_false_r. }
  destruct v as [|c1 [|c2 [|c3 v]]]; cbn [startsSpace app]; [|..|done].
  - intros _. destruct t as [|c2 [|c3 t]]; done.
  - intros Hv. rewrite orb_false_r in Hv. rewrite Hv, H2. destruct t; [done|]. by rewrite H3.
  - intros Hv. rewrite orb_false_r in Hv. apply orb_false_iff in Hv as [-> ->]. by rewrite H4.
Qed.

Lemma TrimSpace_starts v : TrimSpace v = v -> startsSpace space2 space3 v = false.
Proof.
  intros Ht. rewrite <- Ht. unfold TrimSpace. destruct (trimSpaces_suffix space2 space3 v) as [_ Es].
  destruct (trimSpaces_suffix (fun a b => space2 b a) (fun a b c => space3 c b a)
    (rev (trimSpaces space2 space3 v))) as [[q Eq] _].
  apply (f_equal (@rev ascii)) in Eq. rewrite rev_involutive, rev_app_distr in Eq.
  eapply startsSpace_app. by rewrite <- Eq.
Qed.

Lemma TrimSpace_ends s c :
  startsSpace space2 space3 s = false -> last s = Some c -> graphic c = true -> TrimSpace s = s.
Proof.
  intros Hs Hl Hc. unfold TrimSpace. rewrite (trimSpaces_stopped _ _ _ Hs). apply last_Some in Hl as [l ->].
  rewrite rev_app_distr. cbn [rev app]. rewrite trimSpaces_stop.
  - cbn [rev]. by rewrite rev_involutive.
  - by apply graphic_space1.
  - intros a. exact (proj2 (graphic_space2 _ _ Hc)).
  - intros a b. exact (proj2 (graphic_space3 _ _ _ Hc)).
Qed.

Lemma cleanValue_join v host :
  cleanValue v -> host <> [] -> Forall (fun c => graphic c = true) host -> cleanValue (v ++ $", " ++ host).
Proof.
  intros [Hv Ht] Hne HF. destruct (clean_graphic host HF) as [Hh _]. split.
  - rewrite !elem_of_app. intros [?|[Hx|?]]; [done|absurd_elem Hx|done].
  - destruct (last host) as [c|] eqn:El; [|by apply last_None in El].
    apply (TrimSpace_ends _ c).
    + apply (startsSpace_comma v (sp :: host)). by apply TrimSpace_starts.
    + rewrite !last_app, El. done.
    + rewrite Forall_forall in HF. apply HF. by apply last_Some_elem_of.
Qed.

(** ** The header map the upstream builds *)

Definition named (k : bytes) (hs : list (bytes * bytes)) : list bytes :=
  (filter (fun kv => canonical kv.1 = canonical k) hs).*2.

Lemma Values_addAll h hs k : Values (addAll h hs) k = Values h k ++ named k hs.
Proof.
  revert h. induction hs as [|[k' v] hs IH]; intros h; cbn [addAll foldl].
  { by rewrite app_nil_r. }
  change (foldl (fun h kv => Add h kv.1 kv.2) (Add h k' v) hs) with (addAll (Add h k' v) hs).
  rewrite IH, Values_Add. unfold named. cbn [fst snd]. destruct (decide (canonical k' = canonical k)) as [E|E].
  - rewrite filter_cons_True by done. cbn [fmap list_fmap snd]. by rewrite <- app_assoc.
  - by rewrite filter_cons_False by done.
Qed.

Lemma Has_addAll h hs k : Has (addAll h hs) k = Has h k || existsb (fun kv => bool_decide (canonical kv.1 = canonical k)) hs.
Proof.
  revert h. induction hs as [|[k' v] hs IH]; intros h; cbn [addAll foldl existsb].
  { by rewrite orb_false_r. }
  change (foldl (fun h kv => Add h kv.1 kv.2) (Add h k' v) hs) with (addAll (Add h k' v) hs).
  rewrite IH, Has_Add. cbn [fst]. by destruct (bool_decide _), (Has h k).
Qed.

Lemma entryBytes_addAll h hs :
  wf h -> entryBytes (entries (addAll h hs)) <= entryBytes (entries h) + foldr (fun kv n => len (headerLine kv) + n) 0 hs.
Proof.
  revert h. induction hs as [|[k v] hs IH]; intros h W; cbn [addAll foldl foldr]; [lia|].
  change (foldl (fun h kv => Add h kv.1 kv.2) (Add h k v) hs) with (addAll (Add h k v) hs).
  specialize (IH (Add h k v) (wf_Add _ _ _ W)).
  rewrite entries_Add, entryBytes_add, len_canonical in IH by done.
  assert (len (headerLine (k, v)) = len k + (len $": " + len v)) as E by (unfold headerLine; by rewrite !len_app).
  pose proof (len_nonneg $": "). eapply Z.le_trans; [exact IH|]. rewrite E. lia.
Qed.

Lemma cleanHeaders_addAll h hs :
  cleanHeaders h -> Forall (fun kv => cleanName kv.1 /\ cleanValue kv.2) hs -> cleanHeaders (addAll h hs).
Proof.
  intros HC HF. revert h HC. induction HF as [|[k v] hs [? ?] HF IH]; intros h HC; [done|].
  apply IH. by apply cleanHeaders_Add.
Qed.

(** The values of a name in a printed map. *)
Lemma named_flat h k : wf h -> canonicalKeys h -> named k (flat (entries h)) = Values h k.
Proof.
  intros W HK. rewrite <- (addAll_flat h W HK) at 2. rewrite Values_addAll. done.
Qed.

Lemma named_app k a b : named k (a ++ b) = named k a ++ named k b.
Proof. unfold named. by rewrite filter_app, fmap_app. Qed.

Lemma named_none k hs : (forall kv, kv ∈ hs -> canonical kv.1 <> canonical k) -> named k hs = [].
Proof.
  intros Hn. unfold named. induction hs as [|kv hs IH]; [done|].
  rewrite filter_cons_False by (apply Hn; left). apply IH. intros kv' ?. apply Hn. by right.
Qed.

(** ** The forwarded request *)

Definition asForwarded (remoteAddr : bytes) (req : Request) : Request :=
  mkRequest (Method req) (RawTarget req) (Path req) $"HTTP/1.1" (Query req)
    (addAll NewHeaders (forwarded req)) (Body req) remoteAddr ∅ ∅.

Lemma elem_endToEnd kv hs : kv ∈ endToEnd hs <-> kv ∈ hs /\ hopDown kv.1 = false.
Proof. unfold endToEnd. rewrite list_elem_of_filter. tauto. Qed.

Lemma withClient_name host kv : (withClient host kv).1 = kv.1.
Proof. unfold withClient. by destruct (isXFF kv.1). Qed.

Section forwarding.
Variable req : Request.
Hypothesis W : wf (ReqHeaders req).
Hypothesis HC : cleanHeaders (ReqHeaders req).
Hypothesis HK : canonicalKeys (ReqHeaders req).
Hypothesis Hhost : clientHost req <> [] /\ Forall (fun c => graphic c = true) (clientHost req).

Lemma forwarded_clean : Forall (fun kv => cleanName kv.1 /\ cleanValue kv.2) (forwarded req).
Proof.
  assert (forall k, bool_decide (cleanName k) = true -> cleanName k) as Hn by (intros k; apply bool_decide_eq_true_1).
  destruct Hhost as [Hne Hg]. unfold forwarded. cbv zeta. apply Forall_app. split; [|apply Forall_app; split].
  - apply Forall_fmap. apply Forall_forall. intros [k v] [Hin _]%elem_endToEnd.
    pose proof (flat_clean _ W HC) as HF. rewrite Forall_forall in HF. destruct (HF _ Hin) as [Hk Hv]. cbn [fst snd] in *.
    unfold compose, withClient. cbn [fst snd]. destruct (isXFF k); cbn [fst snd]; split; try done. by apply cleanValue_join.
  - destruct (existsb _ _); [constructor|]. constructor; [|constructor]. split; [by apply Hn; vm_compute|by apply clean_graphic].
  - constructor; [split; [by apply Hn; vm_compute|apply Itoa_clean]|].
    constructor; [split; [by apply Hn; vm_compute|clean_const]|constructor].
Qed.

(** The values of each name after the hop-by-hop lines are dropped. *)
Lemma named_endToEnd k hs :
  canonical k = k -> (forall kv, kv ∈ hs -> canonical kv.1 = kv.1) ->
  named k (withClient (clientHost req) <$> endToEnd hs) =
  if hopDown k then [] else
  if isXFF k then (fun v => v ++ $", " ++ clientHost req) <$> named k hs else named k hs.
Proof.
  intros Hk Hcan. unfold named. rewrite Hk. induction hs as [|[k' v] hs IH].
  { cbn. by destruct (hopDown k), (isXFF k). }
  assert (canonical k' = k') as Ek by (apply (Hcan (k', v)); by left).
  specialize (IH (fun kv Hin => Hcan kv ltac:(by right))). unfold endToEnd in *.
  destruct (decide (k' = k)) as [->|Hne].
  - rewrite (filter_cons_True (fun kv => canonical kv.1 = k)) by done. destruct (hopDown k) eqn:Eh.
    + by rewrite filter_cons_False by (cbn [fst]; congruence).
    + rewrite (filter_cons_True (fun kv => hopDown kv.1 = false)) by done. cbn [fmap list_fmap].
      rewrite filter_cons_True by (by rewrite withClient_name). cbn [fmap list_fmap].
      rewrite IH. unfold withClient. cbn [fst snd]. by destruct (isXFF k).
  - rewrite (filter_cons_False (fun kv => canonical kv.1 = k)) by (cbn [fst]; congruence).
    destruct (hopDown k') eqn:Eh'.
    + by rewrite filter_cons_False by (cbn [fst]; congruence).
    + rewrite (filter_cons_True (fun kv => hopDown kv.1 = false)) by done. cbn [fmap list_fmap].
      by rewrite filter_cons_False by (rewrite withClient_name; cbn [fst]; congruence).
Qed.

Lemma flat_canonical kv : kv ∈ flat (entries (ReqHeaders req)) -> canonical kv.1 = kv.1.
Proof. destruct kv as [k v]. intros Hin. by destruct (elem_of_flat_Values _ _ _ W HK Hin). Qed.

Lemma isXFF_name k : canonical k = k -> isXFF k = bool_decide (k = $"X-Forwarded-For").
Proof.
  intros Hk. unfold isXFF, beq. apply bool_decide_ext. split; [|intros ->; by vm_compute].
  intros E. rewrite <- Hk. rewrite (lower_canonical k $"x-forwarded-for"); [by vm_compute|by vm_compute|by vm_compute|done|..];
    intros Hx; absurd_elem Hx.
Qed.

Lemma hasXFF :
  existsb (fun kv => isXFF kv.1) (flat (entries (ReqHeaders req))) =
  negb (bool_decide (Values (ReqHeaders req) $"X-Forwarded-For" = [])).
Proof.
  apply Bool.eq_iff_eq_true. rewrite existsb_exists, negb_true_iff, bool_decide_eq_false. split.
  - intros ([k v] & Hin%list_elem_of_In & Hx). cbn [fst] in Hx.
    destruct (elem_of_flat_Values _ _ _ W HK Hin) as [Hk Hv]. rewrite isXFF_name in Hx by done.
    apply bool_decide_eq_true in Hx as ->. intros E. rewrite E in Hv. by apply elem_of_nil in Hv.
  - intros Hne. destruct (Values (ReqHeaders req) $"X-Forwarded-For") as [|v vs] eqn:E; [done|].
    exists ($"X-Forwarded-For", v). split; [|by vm_compute]. apply list_elem_of_In.
    change $"X-Forwarded-For" with (canonical $"X-Forwarded-For"). apply Values_elem_of_flat; [done|].
    rewrite E. by left.
Qed.

(** What the upstream finds under each name. *)
Lemma Values_forwarded k :
  canonical k = k ->
  Values (addAll NewHeaders (forwarded req)) k =
  if bool_decide (k = $"Content-Length") then [Itoa (len (Body req))]
  else if bool_decide (k = $"Connection") then [$"keep-alive"]
  else if hopDown k then []
  else if bool_decide (k = $"X-Forwarded-For") then
    match Values (ReqHeaders req) k with
    | [] => [clientHost req]
    | vs => (fun v => v ++ $", " ++ clientHost req) <$> vs
    end
  else Values (ReqHeaders req) k.
Proof.
  intros Hk. rewrite Values_addAll. change (Values NewHeaders k) with (@nil bytes). cbn [app].
  unfold forwarded. cbv zeta. rewrite !named_app, (named_endToEnd _ _ Hk flat_canonical), named_flat by done.
  rewrite hasXFF, (isXFF_name k Hk).
  assert (forall n v, canonical n = n -> named k [(n, v)] = if bool_decide (k = n) then [v] else []) as H1.
  { intros n v Hn. unfold named. rewrite Hk. case_bool_decide as E.
    - subst. by rewrite filter_cons_True.
    - by rewrite filter_cons_False by (cbn [fst]; congruence). }
  change [($"Content-Length", Itoa (len (Body req))); ($"Connection", $"keep-alive")]
    with ([($"Content-Length", Itoa (len (Body req)))] ++ [($"Connection", $"keep-alive")]).
  rewrite named_app, !H1 by (by vm_compute).
  assert (named k (if negb (bool_decide (Values (ReqHeaders req) $"X-Forwarded-For" = [])) then []
      else [($"X-Forwarded-For", clientHost req)]) =
    if bool_decide (Values (ReqHeaders req) $"X-Forwarded-For" = []) && bool_decide (k = $"X-Forwarded-For")
    then [clientHost req] else []) as ->.
  { destruct (bool_decide (Values _ _ = [])); [|done]. cbn [negb andb]. apply H1. by vm_compute. }
  assert (hopDown $"Content-Length" = true /\ hopDown $"Connection" = true /\ hopDown $"X-Forwarded-For" = false)
    as (E1 & E2 & E3) by (split_and!; by vm_compute).
  destruct (decide (k = $"Content-Length")) as [->|N1].
  { rewrite E1, andb_false_r. done. }
  rewrite (bool_decide_false (k = $"Content-Length")) by done.
  destruct (decide (k = $"Connection")) as [->|N2].
  { rewrite E2, andb_false_r. done. }
  rewrite (bool_decide_false (k = $"Connection")) by done.
  destruct (decide (k = $"X-Forwarded-For")) as [->|N3].
  - rewrite E3, !(bool_decide_true ($"X-Forwarded-For" = _)) by done. rewrite andb_true_r.
    destruct (Values (ReqHeaders req) $"X-Forwarded-For"); cbn; by rewrite ?app_nil_r.
  - rewrite !(bool_decide_false (k = $"X-Forwarded-For")) by done. rewrite andb_false_r.
    by destruct (hopDown k); rewrite !app_nil_r.
Qed.
End forwarding.

Lemma Has_Values h k : wf h -> Has h k = negb (bool_decide (Values h k = [])).
Proof.
  intros W. unfold Has, Values. destruct (vals h !! canonical k) as [vs|] eqn:E; [|done].
  by rewrite bool_decide_false by (by eapply wf_vals).
Qed.

(** The upstream reads one forwarded request. *)
Lemma forwarded_parses `{GoRuntime} (lim lim2 : Limits) (addr addr2 : bytes) (req : Request) (more : bytes) (e : ioerr) (b : nat) :
  accepted lim addr req -> canonicalKeys (ReqHeaders req) -> Has (ReqHeaders req) $"Host" = true ->
  clientHost req <> [] -> Forall (fun c => graphic c = true) (clientHost req) ->
  (0 < b)%nat -> sane lim2 -> 1 < MaxHeaderLine lim2 -> headersFit lim2 (forwarded req) ->
  Len (addAll NewHeaders (forwarded req)) <= MaxHeaderCount lim2 -> len (Body req) <= MaxBodyBytes lim2 ->
  len (requestLine (Method req) (RawTarget req) $"HTTP/1.1") + 1 < MaxRequestLine lim2 ->
  let up := asForwarded addr2 req in
  ParseRequest lim2 addr2 (mkReader (upstreamRequest req ++ more) e b) = (Ret up, mkReader more e b) /\
  wantClose up = false /\
  forall k, canonical k = k -> Values (ReqHeaders up) k =
    if bool_decide (k = $"Content-Length") then [Itoa (len (Body req))]
    else if bool_decide (k = $"Connection") then [$"keep-alive"]
    else if hopDown k then []
    else if bool_decide (k = $"X-Forwarded-For") then
      match Values (ReqHeaders req) k with
      | [] => [clientHost req]
      | vs => (fun v => v ++ $", " ++ clientHost req) <$> vs
      end
    else Values (ReqHeaders req) k.
Proof.
  intros HA HK HHost Hne Hg Hb Hs2 H1 HFit HLen HBody HLine up.
  destruct (ac_headers _ _ _ HA) as [total HI]. pose proof (hi_wf _ _ _ HI) as W. pose proof (hi_clean _ _ _ HI) as HC.
  assert (forall k, canonical k = k -> Values (ReqHeaders up) k = _) as HV by exact (Values_forwarded req W HK).
  destruct (wf_addAll NewHeaders (forwarded req) wf_New) as [W2 _].
  pose proof (forwarded_clean req W HC (conj Hne Hg)) as HCl.
  assert (forall k, canonical k = k -> Has (ReqHeaders up) k = negb (bool_decide (Values (ReqHeaders up) k = []))) as HH
    by (intros; by apply Has_Values).
  assert (accepted lim2 addr2 up) as HA2.
  { destruct HA as [HM _ [HT _] HTc HP HQ _ _ _ _ _]. constructor; try done.
    - by left.
    - split; [done|]. unfold requestLine in HLine. rewrite !len_app in HLine. cbn [RawTarget up asForwarded].
      pose proof (len_nonneg (Method req)). pose proof (len_nonneg [sp]). pose proof (len_nonneg $"HTTP/1.1"). lia.
    - eexists. constructor; [exact W2|apply cleanHeaders_addAll; [apply map_Forall_empty|done]|done|].
      split; [apply entryBytes_addAll, wf_New|]. apply HFit.
    - intros _. rewrite HH, HV by (by vm_compute). rewrite Has_Values in HHost by done.
      assert (hopDown $"Host" = false) as -> by (by vm_compute). exact HHost. }
  split_and!; [|..|exact HV].
  - rewrite upstreamRequest_wire, <- !app_assoc.
    apply (ParseRequest_wire lim2 Hs2 up addr2 (forwarded req)); try done.
    unfold framed. rewrite !HH by (by vm_compute). unfold Get. rewrite !HV by (by vm_compute). split; [by vm_compute|].
    left. by split.
  - unfold wantClose, ContainsToken. rewrite !HV by (by vm_compute). by vm_compute.
Qed.

(** C17: what the upstream reads of a forwarded request.  A request the server
    accepted, from a client with an address, is written so that the upstream's
    parser accepts it within its own limits: same method, target, path, query
    and body, HTTP/1.1; the length is the body's and the connection is kept
    alive, hop-by-hop headers are gone, [X-Forwarded-For] ends with the client
    and every other header has the values it came with; and exactly the bytes
    written are consumed, whatever follows them. *)
Theorem upstreamRequest_parses `{GoRuntime} (lim lim2 : Limits) (addr addr2 : bytes) (req : Request) (more : bytes) (e : ioerr) (b : nat) :
  accepted lim addr req -> canonicalKeys (ReqHeaders req) -> Has (ReqHeaders req) $"Host" = true ->
  clientHost req <> [] -> Forall (fun c => graphic c = true) (clientHost req) ->
  (0 < b)%nat -> sane lim2 -> 1 < MaxHeaderLine lim2 -> headersFit lim2 (forwarded req) ->
  Len (addAll NewHeaders (forwarded req)) <= MaxHeaderCount lim2 -> len (Body req) <= MaxBodyBytes lim2 ->
  len (requestLine (Method req) (RawTarget req) $"HTTP/1.1") + 1 < MaxRequestLine lim2 ->
  let up := asForwarded addr2 req in
  ParseRequest lim2 addr2 (mkReader (upstreamRequest req ++ more) e b) = (Ret up, mkReader more e b) /\
  wantClose up = false /\
  forall k, canonical k = k -> Values (ReqHeaders up) k =
    if bool_decide (k = $"Content-Length") then [Itoa (len (Body req))]
    else if bool_decide (k = $"Connection") then [$"keep-alive"]
    else if hopDown k then []
    else if bool_decide (k = $"X-Forwarded-For") then
      match Values (ReqHeaders req) k with
      | [] => [clientHost req]
      | vs => (fun v => v ++ $", " ++ clientHost req) <$> vs
      end
    else Values (ReqHeaders req) k.
Proof. apply forwarded_parses. Qed.

Lemma upstreamRequest_parses_witness :
  @ParseRequest exampleRuntime DefaultLimits $"10.0.0.1:4000" (mkReader (upstreamRequest exampleRequest ++ $"next") EOF 16) =
    (Ret (asForwarded $"10.0.0.1:4000" exampleRequest), mkReader $"next" EOF 16) /\
  Values (ReqHeaders (asForwarded $"10.0.0.1:4000" exampleRequest)) $"X-Forwarded-For" = [$"1.2.3.4"].
Proof.
  split; [|by vm_compute].
  apply (@upstreamRequest_parses exampleRuntime DefaultLimits DefaultLimits $"1.2.3.4:5" $"10.0.0.1:4000"
    exampleRequest $"next" EOF 16).
  - exact exampleRequest_accepted.
  - exact exampleRequest_canonical.
  - by vm_compute.
  - by vm_compute.
  - refine (bool_decide_unpack _ _). by vm_compute.
  - lia.
  - exact sane_DefaultLimits.
  - by vm_compute.
  - constructor; [refine (bool_decide_unpack _ _); by vm_compute|vm_compute; congruence].
  - vm_compute. congruence.
  - vm_compute. congruence.
  - by vm_compute.
Defined.
