(* ===== verification/WellFormed.v ===== *)
(** * Well-formed responses

    A request and a response have a type: canonical, unique header names that
    are tokens, and trimmed values without a line feed.  Every middleware, the
    router and the connection loop keep it, so a client cannot smuggle a header
    or a second response into an answer. *)

From stdpp Require Import fin_maps.
From S2P Require Import Prelude.
From S2P Require Import GoStrings.
From S2P Require Import GoFloat.
From S2P Require Import GoIO.
From S2P Require Import GoTime.
From S2P Require Import GoJSON.
From S2P Require Import Headers.
From S2P Require Import Status.
From S2P Require Import Request.
From S2P Require Import RequestFacts.
From S2P Require Import RequestRoundtrip.
From S2P Require Import Response.
From S2P Require Import Handler.
From S2P Require Import Middleware.
From S2P Require Import Router.
From S2P Require Import RateLimit.
From S2P Require Import Cache.
From S2P Require Import Metrics.
From S2P Require Import Proxy.
From S2P Require Import Server.
From S2P Require Import ServerProps.
From S2P Require Import Wire.
From S2P Require Import ProxyWire.

Record headersOk (h : Headers) : Prop := {
  ho_wf : wf h;
  ho_clean : cleanHeaders h;
  ho_canonical : canonicalKeys h;
}.

(** [hd] is what is known of its [isHead]. *)
Record respOk (hd : bool -> Prop) (w : ResponseWriter) : Prop := {
  ro_headers : headersOk (headers w);
  ro_status : 200 <= status w < 600;
  ro_head : hd (isHead w);
}.

(** The header section of an accepted request. *)
Definition reqOk (req : Request) : Prop := wf (ReqHeaders req) /\ cleanHeaders (ReqHeaders req).

Lemma headersOk_Set h k v : headersOk h -> cleanName k -> cleanValue v -> headersOk (Set_ h k v).
Proof. intros [] ??. constructor; [by apply wf_Set|by apply cleanHeaders_Set|by apply canonicalKeys_Set]. Qed.

Lemma respOk_set hd w k v : respOk hd w -> cleanName k -> cleanValue v -> respOk hd (setHeader w k v).
Proof. intros [] ??. constructor; [by apply headersOk_Set|done|done]. Qed.

(** Closed names and values. *)
Ltac clean_name := apply (bool_decide_eq_true_1 (cleanName _)); by vm_compute.
Ltac clean_value := let Hc := fresh "Hc" in split; [intros Hc; absurd_elem Hc|by vm_compute].
#[export] Hint Extern 1 (cleanName (list_ascii_of_string _)) => clean_name : pulse.
#[export] Hint Extern 1 (cleanValue (list_ascii_of_string _)) => clean_value : pulse.

Lemma respOk_WriteHeader hd w s : respOk hd w -> 200 <= s < 600 -> respOk hd (WriteHeader w s).
Proof. intros [] ?. unfold WriteHeader. by destruct (hijacked w). Qed.

Lemma respOk_Write hd w p : respOk hd w -> respOk hd (Write w p).
Proof. intros []. unfold Write. by destruct (hijacked w). Qed.

Lemma respOk_JSON hd w s p : respOk hd w -> 200 <= s < 600 -> respOk hd (JSON w s p).
Proof. intros. unfold JSON. apply respOk_Write, respOk_set; auto with pulse. by apply respOk_WriteHeader. Qed.

Lemma respOk_Error hd w s msg : respOk hd w -> 200 <= s < 600 -> respOk hd (Error w s msg).
Proof.
  intros Hw Hs. unfold Error. destruct (hijacked w); [done|]. cbv zeta.
  assert (respOk hd (setHeader (withBody (withStatus w s) []) $"Content-Type" $"text/plain; charset=utf-8")) as [? ? ?]
    by (apply respOk_set; [by destruct Hw|clean_name|clean_value]).
  by constructor.
Qed.

Lemma respOk_body hd w b : respOk hd w -> respOk hd (SetBody w b).
Proof. by intros []. Qed.

Lemma respOk_Hijack hd w : respOk hd w -> respOk hd (Hijack w).
Proof. by intros []. Qed.

Lemma respOk_new hd b : hd b -> respOk hd (withIsHead NewResponseWriter b).
Proof. destruct fresh_clean. constructor; [constructor; [apply wf_New|done|done]|vm_compute; split; congruence|done]. Qed.
#[export] Hint Resolve respOk_set respOk_WriteHeader respOk_Write respOk_JSON respOk_Error respOk_body respOk_Hijack : pulse.

(** ** Values that come from data *)

Lemma Get_clean h k : cleanHeaders h -> cleanValue (Get h k).
Proof.
  intros HC. unfold Get, Values. destruct (vals h !! canonical k) as [[|v vs]|] eqn:E; [apply clean_nil| |apply clean_nil].
  destruct (HC _ _ E) as [_ HF]. by apply Forall_cons in HF as [? _].
Qed.

Lemma etagFor_clean b : cleanValue (etagFor b).
Proof.
  apply clean_graphic. unfold etagFor. constructor; [by vm_compute|].
  apply Forall_app. split; [apply hexEncode_graphic|]. by repeat constructor.
Qed.


(** ** Handlers that keep the type *)

Section keeps.
Context {W : Type}.
Variable I : W -> Prop.    (* the invariant of the shared world *)
Variable hd : bool -> Prop.    (* what is known of the writer's HEAD flag *)
Variable Q : Headers -> bytes -> Prop.    (* what is known of the request's headers and protocol *)

Record exchOk (x : Exch W) : Prop := {
  xo_req : reqOk (xreq x);
  xo_known : Q (ReqHeaders (xreq x)) (Proto (xreq x));
  xo_resp : respOk hd (xw x);
  xo_st : I (xst x);
}.

Definition keeps (h : Handler W) : Prop := forall x, exchOk x -> exchOk (h x).2.

Lemma exchOk_onW f x : exchOk x -> (respOk hd (xw x) -> respOk hd (f (xw x))) -> exchOk (onW f x).
Proof. intros [] Hf. constructor; [done|done|by apply Hf|done]. Qed.

Lemma exchOk_withSt st x : exchOk x -> I st -> exchOk (withSt st x).
Proof. intros [] ?. by constructor. Qed.

Lemma exchOk_onReq f x :
  exchOk x -> ReqHeaders (f (xreq x)) = ReqHeaders (xreq x) /\ Proto (f (xreq x)) = Proto (xreq x) ->
  exchOk (onReq f x).
Proof. intros [Hr Hq ? ?] [E Ep]. constructor; [| |done|done]; unfold reqOk; cbn [onReq xreq]; by rewrite E, ?Ep. Qed.

Lemma keeps_respond f :
  (forall req w, reqOk req -> respOk hd w -> respOk hd (f req w)) -> keeps (respond f).
Proof. intros Hf x Hx. cbn [respond snd]. apply exchOk_onW; [done|]. apply Hf, Hx. Qed.

Lemma exchOk_andThen m k : exchOk m.2 -> (forall x, exchOk x -> exchOk (k x).2) -> exchOk (andThen m k).2.
Proof. destruct m as [[] x]; simpl; auto. Qed.

(** What every middleware of a stack keeps of a handler, the stack keeps. *)
Lemma Chain_keeps (P : Handler W -> Prop) h (mws : list (Middleware W)) :
  P h -> Forall (fun mw : Middleware W => forall h, P h -> P (mw h)) mws -> P (Chain h mws).
Proof.
  intros Hh HF. unfold Chain. generalize (length mws). intros n. revert h Hh.
  induction n as [|n IH]; intros h Hh; [exact Hh|]. cbn [chainLoop]. destruct (mws !! n) as [mw|] eqn:E; [|exact Hh].
  apply IH. rewrite Forall_lookup in HF. exact (HF n mw E h Hh).
Qed.

Lemma keeps_Recover h : keeps h -> keeps (Recover h).
Proof.
  intros Hh x Hx. unfold Recover, withRecover. pose proof (Hh x Hx). destruct (h x) as [[] x']; [done|].
  apply exchOk_onW; [done|]. intros. apply respOk_Error; [done|by vm_compute].
Qed.

Lemma keeps_BearerAuth cfg h : keeps h -> keeps (BearerAuth cfg h).
Proof.
  intros Hh x Hx. unfold BearerAuth. cbv zeta. destruct (_ =? _); [by apply Hh|].
  destruct (CutPrefix _ _) as [token isBearer]. destruct (_ || _).
  { apply keeps_respond; [|done]. intros req w _ Hw. apply respOk_Error; [|by vm_compute]. apply respOk_set; [done|clean_name|].
    split; [intros Hx'; absurd_elem Hx'|by vm_compute]. }
  destruct (Tokens cfg !! _).
  - destruct (_ <? _); [|apply Hh, exchOk_onReq; done].
    apply keeps_respond; [|done]. intros. apply respOk_Error; [done|by vm_compute].
  - apply keeps_respond; [|done]. intros req w _ Hw. apply respOk_Error; [|by vm_compute]. apply respOk_set; [done|clean_name|].
    split; [intros Hx'; absurd_elem Hx'|by vm_compute].
Qed.

(** Verbs a 405 may list. *)
Definition plainMethod (m : bytes) : Prop := m <> [] /\ Forall (fun c => graphic c = true) m.

Lemma dispatchLoop_keeps (rts : list (route W)) parts m allowed :
  Forall (fun rt => keeps (handler rt) /\ plainMethod (method rt)) rts -> set_Forall plainMethod allowed ->
  match dispatchLoop rts parts m allowed with
  | inl (_, h) => keeps h
  | inr allowed' => set_Forall plainMethod allowed'
  end.
Proof.
  intros HF. revert allowed. induction HF as [|rt rts [Hk Hm] HF IH]; intros allowed Ha; [done|].
  cbn [dispatchLoop]. destruct (match_ _ _); [|by apply IH]. destruct (methodOk _ _); [exact Hk|].
  apply IH. by apply set_Forall_union; [apply set_Forall_singleton|].
Qed.

Lemma keeps_Serve (r : Router W) :
  Forall (fun rt => keeps (handler rt) /\ plainMethod (method rt)) (routes r) -> keeps (NotFound r) ->
  keeps (Serve r).
Proof.
  intros HF HN x Hx. unfold Serve. cbv zeta.
  pose proof (dispatchLoop_keeps (routes r) (splitPath (Path (xreq x))) (Method (xreq x)) ∅ HF (set_Forall_empty _)) as Hd.
  destruct (dispatchLoop _ _ _ _) as [[params h]|allowed]; [by apply Hd, exchOk_onReq|].
  destruct (Z.ltb_spec 0 (Z.of_nat (size allowed))) as [Hs|]; [|by apply HN].
  apply keeps_respond; [|done]. intros req w _ Hw. apply respOk_Error; [|by vm_compute].
  apply respOk_set; [done|clean_name|].
  pose proof (merge_sort_Permutation bytes_le (elements allowed)) as HP.
  apply Join_graphic.
  - intros E. unfold sortStrings in E. rewrite E in HP. apply Permutation_nil_l in HP.
    assert (size allowed = 0%nat) by (unfold size, set_size; simpl; by rewrite <- HP). lia.
  - unfold sortStrings. rewrite HP. apply Forall_forall. intros v Hv%elem_of_elements. by apply Hd.
Qed.

Section state.
Context `{GoRuntime} `{Clock W} `{Entropy W}.
Hypothesis I_clock : forall st, I st -> I (timeNow st).2.
Hypothesis I_rand : forall n st, I st -> I (randRead n st).2.

Lemma keeps_RequestID h : keeps h -> keeps (RequestID h).
Proof.
  intros Hh x Hx. unfold RequestID. cbv zeta.
  destruct (beq _ []) eqn:E.
  - pose proof (I_rand 6 (xst x) (xo_st x Hx)). destruct (randRead 6 (xst x)) as [b st]. apply Hh.
    apply exchOk_onW; [apply exchOk_onReq; [by apply exchOk_withSt|done]|].
    intros. apply respOk_set; [done|clean_name|]. apply clean_graphic, hexEncode_graphic.
  - apply Hh. apply exchOk_onW; [by apply exchOk_onReq|]. intros. apply respOk_set; [done|clean_name|].
    apply Get_clean, Hx.
Qed.

Lemma keeps_Logging `{Lens W LogSink} h :
  (forall l st, I st -> I (put (A := LogSink) l st)) -> keeps h -> keeps (Logging h).
Proof.
  intros Hput Hh x Hx. unfold Logging. pose proof (I_clock _ (xo_st x Hx)) as Hc.
  destruct (timeNow (xst x)) as [start st]. apply exchOk_andThen; [by apply Hh, exchOk_withSt|].
  intros y Hy. pose proof (I_clock _ (xo_st y Hy)) as Hc'. destruct (timeNow (xst y)) as [now st'].
  apply exchOk_withSt; [done|]. by apply Hput.
Qed.

Section metrics.
Context `{Lens W Registry}.
Hypothesis I_registry : forall r st, I st -> I (put (A := Registry) r st).

Lemma keeps_Metrics h : keeps h -> keeps (MetricsMiddleware h).
Proof.
  intros Hh x Hx. unfold MetricsMiddleware, onRegistry. cbv zeta.
  assert (exchOk (withSt (put (addInflight 1 (view (xst x))) (xst x)) x)) as Hx1.
  { apply exchOk_withSt; [done|]. apply I_registry, Hx. }
  pose proof (I_clock _ (xo_st _ Hx1)) as Hc. destruct (timeNow _) as [started st].
  apply exchOk_andThen; [by apply Hh, exchOk_withSt|]. intros y Hy.
  assert (exchOk (withSt (put (addInflight (-1) (view (xst y))) (xst y)) y)) as Hx2.
  { apply exchOk_withSt; [done|]. apply I_registry, Hy. }
  pose proof (I_clock _ (xo_st _ Hx2)) as Hc'. destruct (timeNow (xst (withSt _ y))) as [now st'].
  apply exchOk_withSt; [by apply exchOk_withSt|]. by apply I_registry.
Qed.

Lemma keeps_MetricsHandler : keeps MetricsHandler.
Proof.
  intros x Hx. unfold MetricsHandler. pose proof (I_clock _ (xo_st x Hx)) as Hc.
  destruct (timeNow (xst x)) as [now st]. apply keeps_respond; [|by apply exchOk_withSt].
  intros. apply respOk_JSON; [done|by vm_compute].
Qed.
End metrics.

Lemma keeps_RateLimit `{Lens W RateLimiter} cfg h :
  (forall l st, I st -> I (put (A := RateLimiter) l st)) -> keeps h -> keeps (RateLimit cfg h).
Proof.
  intros Hput Hh x Hx. unfold RateLimit. cbv zeta. pose proof (I_clock _ (xo_st x Hx)) as Hc.
  destruct (timeNow (xst x)) as [now st]. destruct (RateLimit.take _ _ _ _) as [[[allowed remaining] wait] rl].
  assert (forall k n y, cleanName k -> exchOk y -> exchOk (onW (fun w => setHeader w k (Itoa n)) y)) as Hset.
  { intros k n y Hk Hy. apply exchOk_onW; [done|]. intros. apply respOk_set; [done|done|apply Itoa_clean]. }
  assert (exchOk (withSt (put rl st) x)) as Hx1 by (apply exchOk_withSt; auto).
  destruct allowed; cbn [negb].
  - apply Hh. repeat (apply Hset; [clean_name|]). done.
  - apply keeps_respond; [|repeat (apply Hset; [clean_name|]); done].
    intros. apply respOk_Error; [done|by vm_compute].
Qed.

(** ** The cache *)

Definition entryOk (e : entry) : Prop := cleanValue (contentType e) /\ cleanValue (etag e).
Definition cacheOk (c : Cache) : Prop := map_Forall (fun _ el => entryOk (Value el)) (items c).

Lemma cacheOk_get c k now e c' : cacheOk c -> LRU.get c k now = (e, c') -> cacheOk c' /\ forall e', e = Some e' -> entryOk e'.
Proof.
  unfold LRU.get. intros Hc. destruct (items c !! k) as [el|] eqn:Ek; [|by intros [= <- <-]].
  pose proof (Hc _ _ Ek) as He. cbv beta in He.
  destruct (timeAfter _ _); intros [= <- <-]; (split; [|intros e' [= <-] || intros e' [=]]); try done.
  unfold cacheOk. cbn [items withLists]. by apply map_Forall_delete.
Qed.

Lemma cacheOk_lookup c k now e c' : cacheOk c -> lookupStep k now c = (e, c') -> cacheOk c' /\ forall e', e = Some e' -> entryOk e'.
Proof.
  unfold lookupStep. intros Hc. destruct (LRU.get c k now) as [o c1] eqn:Eg.
  destruct (cacheOk_get _ _ _ _ _ Hc Eg) as [Hx1 Hx2]. destruct o; intros [= <- <-]; (split; [exact Hx1|]); auto; done.
Qed.

Lemma cacheOk_invalidate c k : cacheOk c -> cacheOk (LRU.invalidate c k).
Proof.
  unfold LRU.invalidate. intros Hc. destruct (items c !! k); [|done].
  unfold cacheOk. cbn [items withLists]. by apply map_Forall_delete.
Qed.

Lemma evict_Forall (P : bytes -> element -> Prop) fuel cap l m l' m' :
  LRU.evict fuel cap l m = Some (l', m') -> map_Forall P m -> map_Forall P m'.
Proof.
  revert l m. induction fuel as [|fuel IH]; intros l m; cbn [LRU.evict]; destruct (_ <=? cap).
  - by intros [= <- <-].
  - done.
  - by intros [= <- <-].
  - destruct (list.last l); [|done]. intros He Hm. eapply IH; [done|]. by apply map_Forall_delete.
Qed.

Lemma cacheOk_put c e c' : LRU.put c e = Some c' -> cacheOk c -> entryOk e -> cacheOk c'.
Proof.
  unfold LRU.put. intros Hp Hc He.
  assert (map_Forall (fun _ el => entryOk (Value el))
    (match items c !! key e with Some _ => delete (key e) (items c) | None => items c end)) as Hm
    by (destruct (items c !! key e); [by apply map_Forall_delete|done]).
  destruct (items c !! key e); (destruct (LRU.evict _ _ _ _) as [[l m]|] eqn:Ev; [|done]); injection Hp as <-;
    apply (evict_Forall _ _ _ _ _ _ _ Ev); by apply map_Forall_insert_2.
Qed.

Lemma respOk_serveHit e req w : entryOk e -> respOk hd w -> respOk hd (serveHit e req w).
Proof.
  intros [Hct Het] Hw. unfold serveHit. cbv zeta.
  assert (respOk hd (setHeader (setHeader w $"ETag" (etag e)) $"X-Cache" $"HIT")) as Hx1
    by (apply respOk_set; [apply respOk_set; [done|clean_name|done]|clean_name|clean_value]).
  destruct (beq _ (etag e)); [apply respOk_Hijack, respOk_WriteHeader; [done|by vm_compute]|].
  apply respOk_Hijack, respOk_body, respOk_WriteHeader; [|by vm_compute].
  destruct (beq (contentType e) []); [done|]. apply respOk_set; [done|clean_name|done].
Qed.

Lemma respOk_serveMiss e req w : cleanValue (etag e) -> respOk hd w -> respOk hd (serveMiss e req w).
Proof.
  intros Het Hw. unfold serveMiss. cbv zeta.
  assert (respOk hd (setHeader (setHeader w $"ETag" (etag e)) $"X-Cache" $"MISS")) as Hx1
    by (apply respOk_set; [apply respOk_set; [done|clean_name|done]|clean_name|clean_value]).
  destruct (beq _ (etag e)); [|done]. apply respOk_body, respOk_WriteHeader; [done|by vm_compute].
Qed.

Lemma storable_entryOk def k now w e : respOk hd w -> storable def k now w = Some e -> entryOk e.
Proof.
  intros Hw. unfold storable. cbv zeta. destruct (Contains _ _); [done|]. destruct (_ =? _); [|done].
  intros [= <-]. split; cbn [contentType etag]; [apply Get_clean, Hw|apply etagFor_clean].
Qed.

Lemma keeps_Cache `{Lens W Cache} h :
  (forall st, I st -> cacheOk (view st)) -> (forall c st, I st -> cacheOk c -> I (put c st)) ->
  keeps h -> keeps (CacheMiddleware h).
Proof.
  intros Hview Hput Hh x Hx. unfold CacheMiddleware. cbv zeta. destruct (negb _).
  - apply exchOk_andThen; [by apply Hh|]. intros y Hy. destruct (mutating _); [|done].
    apply exchOk_withSt; [done|]. apply Hput; [apply Hy|]. apply cacheOk_invalidate, cacheOk_invalidate, Hview, Hy.
  - pose proof (I_clock _ (xo_st x Hx)) as Hc. destruct (timeNow (xst x)) as [now st]. cbn [snd] in Hc.
    assert (forall e y, exchOk y -> (forall e', e = Some e' -> entryOk e') -> exchOk (match e with
      | Some e => respond (serveHit e) y
      | None => andThen (h y) (fun x0 =>
          match storable (ttl (view (xst x0))) (RawTarget (xreq x)) now (xw x0) with
          | None => (Returned, x0)
          | Some e => match LRU.put (view (xst x0)) e with
                      | None => (Panicked, x0)
                      | Some c => respond (serveMiss e) (withSt (put c (xst x0)) x0)
                      end
          end)
      end).2) as Hrest.
    { intros [e|] y Hy He.
      - apply keeps_respond; [|done]. intros. apply respOk_serveHit; auto.
      - apply exchOk_andThen; [by apply Hh|]. intros z Hz. destruct (storable _ _ _ _) as [e|] eqn:Es; [|done].
        pose proof (storable_entryOk _ _ _ _ _ (xo_resp z Hz) Es) as Heo.
        destruct (LRU.put _ e) as [c|] eqn:Ep; [|done]. apply keeps_respond.
        + intros. apply respOk_serveMiss; [apply Heo|done].
        + apply exchOk_withSt; [done|]. apply Hput; [apply Hz|].
          eapply cacheOk_put; [exact Ep|apply Hview, Hz|done]. }
    destruct (ContainsToken _ _ _); [apply (Hrest None (withSt st x)); [by apply exchOk_withSt|done]|].
    destruct (lookupStep _ _ _) as [e c] eqn:El.
    destruct (cacheOk_lookup _ _ _ _ _ (Hview _ Hc) El). apply (Hrest e (withSt (put c st) x)); [|done].
    apply exchOk_withSt; [done|]. by apply Hput.
Qed.

(** ** The load balancer *)

Section proxy.
Context {Conn : Type} `{@Network W Conn} `{!Lens W (@Pool Conn)}.

(** Addresses that can stand in a header, and a configuration of Go [int]s with a
    cap on bodies below the largest, so that one byte more is still a length. *)
Definition poolOk (p : @Pool Conn) : Prop :=
  Forall (fun u => cleanValue (UpAddr u)) (ups p) /\
  RelayMaxBodyBytes (cfg p) < 2 ^ 63 - 1 /\ int64_ok (MaxAttempts (cfg p)).

(** An answer whose headers and status can be relayed. *)
Definition cleanAnswer (r : reader) : Prop :=
  forall c a u r', readUpstream c a r = (inl u, r') ->
  200 <= upStatus u < 600 /\ Forall (fun kv => cleanName kv.1 /\ cleanValue kv.2) (upHeaders u).

Hypothesis I_addrs : forall st, I st -> poolOk (view st).
Hypothesis I_pool : forall p st, I st -> poolOk p -> I (put p st).
Hypothesis I_dial : forall a d st, I st -> I (netDial a d st).2.
Hypothesis I_close : forall c st, I st -> I (netClose c st).
Hypothesis I_exchange : forall c b st, I st -> I (netExchange c b st).2 /\ cleanAnswer (netExchange c b st).1.2.

Lemma I_onUp i f st : I st -> (forall u, UpAddr (f u) = UpAddr u) -> I (onPool (onUp i f) st).
Proof.
  intros HI Hf. apply I_pool; [done|]. destruct (I_addrs _ HI) as [HA Hcap]. split; [|done]. cbn [onUp ups].
  rewrite Forall_lookup in *. intros j u. destruct (decide (j = i)) as [->|Hne].
  - rewrite list_lookup_alter_eq. intros (u0 & Hu & ->)%fmap_Some. rewrite Hf. by eapply HA.
  - rewrite list_lookup_alter_ne by done. apply HA.
Qed.

Lemma respOk_applyUpstream u w :
  200 <= upStatus u < 600 -> Forall (fun kv => cleanName kv.1 /\ cleanValue kv.2) (upHeaders u) ->
  respOk hd w -> respOk hd (applyUpstream u w).
Proof.
  intros Hs HF Hw. unfold applyUpstream. apply respOk_body. pose proof (respOk_WriteHeader hd w _ Hw Hs) as Hw'.
  revert Hw'. generalize (WriteHeader w (upStatus u)). induction HF as [|kv hs [Hk Hv] HF IH]; intros w' Hw'; [done|].
  cbn [foldl]. by apply IH, respOk_set.
Qed.

Lemma relayConn_ok c i a req w st :
  I st -> respOk hd w -> let '(_, w', st') := relayConn c i a req w st in I st' /\ respOk hd w'.
Proof.
  intros HI Hw. unfold relayConn. destruct (I_exchange c (upstreamRequest req) st HI) as [HI1 Hr].
  destruct (netExchange c _ st) as [[[e|] r] st1]; cbn [fst snd] in *; [by split; [apply I_close|]|].
  destruct (readUpstream _ a r) as [[u|e] r'] eqn:Er; [|by split; [apply I_close|]].
  destruct (Hr _ _ _ _ Er) as [Hs HF]. split; [|by apply respOk_applyUpstream].
  destruct (upReuse u); [|by apply I_close]. unfold putConn. destruct (ups _ !! i); [|done].
  destruct (_ <? _); [|by apply I_close]. by apply I_onUp.
Qed.

Lemma I_getConn i a st : I st -> I (getConn i a st).2.
Proof.
  intros HI. unfold getConn. pose proof (I_dial a (DialTimeout (cfg (view st))) st HI) as Hd.
  destruct (conns <$> _) as [[|c l]|]; [|by apply I_onUp|].
  all: by destruct (netDial a _ st) as [[]].
Qed.

Lemma relay_ok i a req w st :
  I st -> respOk hd w -> let '(_, w', st') := relay i a req w st in I st' /\ respOk hd w'.
Proof.
  intros HI Hw. unfold relay.
  pose proof (I_getConn i a st HI) as HI1.
  destruct (getConn i a st) as [[[c reused]|e] st1]; [|done]. cbn [snd] in HI1.
  pose proof (relayConn_ok c i a req w st1 HI1 Hw) as HR.
  destruct (relayConn c i a req w st1) as [[[e|] w'] st2]; [|done]. destruct HR as [HI2 Hw2]. destruct reused; [|done].
  pose proof (I_dial a (DialTimeout (cfg (view st2))) st2 HI2) as Hd.
  destruct (netDial a _ st2) as [[c2|e2] st3]; [|done]. by apply relayConn_ok.
Qed.

(** How long its answers are. *)
Definition small (w : ResponseWriter) : Prop := len (body w) < 2 ^ 63 - 1.

Lemma readUpstream_small c a r u r' :
  readUpstream c a r = (inl u, r') -> RelayMaxBodyBytes c < 2 ^ 63 - 1 -> len (upBody u) < 2 ^ 63 - 1.
Proof.
  intros Hu Hc. unfold readUpstream in Hu. repeat case_match; simplify_eq/=;
    repeat match goal with
      | E : (_ <=? _) = true |- _ => apply Z.leb_le in E
      | E : (_ <? _) = false |- _ => apply Z.ltb_ge in E
      end; [|lia].
  match goal with E : ReadFull _ _ = _ |- _ => apply ReadFull_inl in E as [-> _]; lia end.
Qed.

Lemma applyUpstream_small u w : len (upBody u) < 2 ^ 63 - 1 -> small (applyUpstream u w).
Proof. done. Qed.

Lemma relayConn_small c i a req w st : I st -> small w -> small (relayConn c i a req w st).1.2.
Proof.
  intros HI Hw. unfold relayConn. destruct (I_exchange c (upstreamRequest req) st HI) as [HI1 _].
  destruct (netExchange c _ st) as [[[e|] r] st1]; cbn [fst snd] in *; [done|].
  destruct (readUpstream _ a r) as [[u|e] r'] eqn:Er; cbn [fst snd]; [|done].
  apply applyUpstream_small, (readUpstream_small _ _ _ _ _ Er), (I_addrs _ HI1).
Qed.

Lemma relay_small i a req w st : I st -> respOk hd w -> small w -> small (relay i a req w st).1.2.
Proof.
  intros HI Hr Hw. unfold relay.
  pose proof (I_getConn i a st HI) as HI1.
  destruct (getConn i a st) as [[[c reused]|e] st1]; [|done]. cbn [snd] in HI1.
  pose proof (relayConn_ok c i a req w st1 HI1 Hr) as HR. pose proof (relayConn_small c i a req w st1 HI1 Hw) as HS.
  destruct (relayConn c i a req w st1) as [[[e|] w'] st2]; [|done]. destruct HR as [HI2 _]. destruct reused; [|done].
  pose proof (I_dial a (DialTimeout (cfg (view st2))) st2 HI2) as Hd.
  destruct (netDial a _ st2) as [[c2|e2] st3]; [|done]. by apply relayConn_small.
Qed.

(** One attempt, up to its gauges. *)
Lemma attempt_ok i x :
  exchOk x ->
  let a := match ups (view (xst x)) !! i with Some u => UpAddr u | None => [] end in
  let '(err, w, st) := relay i a (xreq x) (xw x) (onPool (onUp i (addActive 1)) (xst x)) in
  cleanValue a /\ exchOk {| xreq := xreq x; xw := w; xst := onPool (onUp i (addActive (-1))) st |} /\
  (small (xw x) -> small w).
Proof.
  intros [Hq Hk Hr HI] a.
  assert (cleanValue a) as Ha.
  { unfold a. destruct (I_addrs _ HI) as [HA _]. destruct (ups _ !! i) as [u|] eqn:Eu; [|apply clean_nil].
    by apply (Forall_lookup_1 _ _ _ _ HA Eu). }
  assert (I (onPool (onUp i (addActive 1)) (xst x))) as HI1 by by apply I_onUp.
  pose proof (relay_ok i a (xreq x) (xw x) _ HI1 Hr) as HR.
  pose proof (fun Hs => relay_small i a (xreq x) (xw x) _ HI1 Hr Hs) as HS.
  destruct (relay i a _ _ _) as [[err w] st]. destruct HR as [HI2 Hw]. split; [exact Ha|]. split; [|exact HS].
  constructor; cbn [xreq xw xst]; try done. by apply I_onUp.
Qed.

Lemma attemptLoop_ok left cands le x :
  exchOk x ->
  exchOk (attemptLoop left cands le x).2 /\ (small (xw x) -> small (xw (attemptLoop left cands le x).2)).
Proof.
  revert cands le x. induction left as [|left IH]; intros [|i cands] le x Hx; [done..|]. cbn [attemptLoop]. cbv zeta.
  pose proof (attempt_ok i x Hx) as HA. cbv zeta in HA.
  destruct (relay i _ _ _ _) as [[err w] st]. destruct HA as (Ha & [Hq Hk Hw HI] & Hs). cbn [xreq xw xst] in *.
  destruct err as [e|]; cbn [snd xw].
  - destruct (IH cands e {| xreq := xreq x; xw := w; xst := onPool (onUp i (setHealthy false)) (onPool (onUp i (addActive (-1))) st) |})
      as [Hy Hys]; [constructor; cbn [xreq xw xst]; try done; by apply I_onUp|].
    split; [exact Hy|]. intros Hx'. by apply Hys, Hs.
  - split; [|exact Hs]. constructor; cbn [xreq xw xst]; try done. by apply respOk_set; [|clean_name|].
Qed.

Lemma pick_ok x : exchOk x -> exchOk (withSt (put (pick (view (xst x))).2 (xst x)) x).
Proof.
  intros Hx. apply exchOk_withSt; [done|]. apply I_pool; [apply Hx|]. pose proof (I_addrs _ (xo_st _ Hx)) as HA.
  unfold pick. destruct (healthyIndices _); [done|]. by destruct (beq (Strategy _) LeastConnections).
Qed.

Lemma keeps_Proxy : keeps ProxyHandler.
Proof.
  intros x Hx. unfold ProxyHandler. pose proof (pick_ok x Hx) as Hx1.
  destruct (pick (view (xst x))) as [[[|i cands]|] p]; cbn [snd] in Hx1; [| |done].
  - apply keeps_respond; [|done]. intros. apply respOk_Error; [|by vm_compute].
    apply respOk_set; [done|clean_name|clean_value].
  - destruct (attemptLoop_ok (Z.to_nat (Z.min (MaxAttempts (cfg p)) (len (i :: cands)))) (i :: cands) None _ Hx1) as [HA _].
    destruct (attemptLoop _ _ _ _) as [[le|] y]; [|done].
    apply keeps_respond; [|done]. intros. apply respOk_Error; [done|by vm_compute].
Qed.

Lemma Itoa_small n : int64_ok n -> len (Itoa n) <= 20.
Proof.
  unfold int64_ok. intros Hn. unfold Itoa, FormatInt.
  assert (forall k, 0 <= k <= 2 ^ 63 -> len (FormatUint k 10) <= 19) as HU.
  { intros k Hk. destruct (FormatUint_spec 10 k) as (_ & _ & _ & HL); [done|lia|]. apply HL; lia. }
  destruct (Z.ltb_spec n 0); rewrite ?len_cons; [specialize (HU (- n) ltac:(lia))|specialize (HU n ltac:(lia))]; lia.
Qed.

Lemma Error_small w s msg : int64_ok s -> msg <> [] -> len msg < 2 ^ 62 -> small w -> small (Error w s msg).
Proof.
  intros Hs Hne Hm Hw. unfold Error. destruct (hijacked w); [done|]. unfold small.
  cbn [withBody withStatus setHeader withHeaders body app]. unfold beq. rewrite bool_decide_false by done.
  pose proof (Itoa_small s Hs). rewrite !len_app. change (len $" ") with 1. change (len [nl]) with 1. lia.
Qed.

Lemma ProxyHandler_small x :
  (forall e, len (errText (W := W) e) < 2 ^ 61) -> exchOk x -> small (xw x) -> small (xw (ProxyHandler x).2).
Proof.
  intros He Hx Hs. unfold ProxyHandler. pose proof (pick_ok x Hx) as Hx1.
  destruct (pick (view (xst x))) as [[[|i cands]|] p]; cbn [snd] in Hx1; [| |done].
  - by apply Error_small; [by vm_compute|done|by vm_compute|].
  - set (n := Z.min (MaxAttempts (cfg p)) (len (i :: cands))).
    destruct (attemptLoop_ok (Z.to_nat n) (i :: cands) None _ Hx1) as [_ HA]. specialize (HA Hs).
    destruct (attemptLoop _ _ _ _) as [[le|] y]; [|done]. apply Error_small; [by vm_compute|done| |done].
    assert (int64_ok n) as Hn.
    { destruct (I_addrs _ (xo_st _ Hx1)) as (_ & _ & HM). cbn [withSt xst] in HM. rewrite view_put in HM.
      pose proof (len_nonneg (i :: cands)). unfold int64_ok, n in *. lia. }
    pose proof (Itoa_small n Hn). specialize (He le). rewrite !len_app. change (len $"all ") with 4.
    change (len $" upstream attempts failed: ") with 27. lia.
Qed.
End proxy.

(** A handler that keeps the type and the size. *)
Definition keepsSmall (h : Handler W) : Prop :=
  keeps h /\ forall x, exchOk x -> small (xw x) -> small (xw (h x).2).

(** A middleware that calls the next handler once, with the body as it is, and
    leaves the body it made; what it calls it with is what it leaves when that
    panics. *)
Definition around (mw : Middleware W) : Prop :=
  (forall h x, body (xw (mw h x).2) = body (xw (h (mw (fun y => (Panicked, y)) x).2).2)) /\
  (forall x, body (xw (mw (fun y => (Panicked, y)) x).2) = body (xw x)).

Lemma keepsSmall_around (mw : Middleware W) h :
  around mw -> (forall h, keeps h -> keeps (mw h)) -> keepsSmall h -> keepsSmall (mw h).
Proof.
  intros [Ho Hi] Hk [Hh Hs]. split; [by apply Hk|]. intros x Hx Hw. unfold small. rewrite Ho. apply Hs.
  - apply Hk; [by intros y|done].
  - unfold small. by rewrite Hi.
Qed.

Lemma keepsSmall_Recover h : keepsSmall h -> keepsSmall (Recover h).
Proof.
  intros [Hh Hs]. split; [by apply keeps_Recover|]. intros x Hx Hw. specialize (Hs x Hx Hw). unfold Recover.
  destruct (h x) as [[] y]; [done|]. by apply Error_small; [by vm_compute|done|by vm_compute|].
Qed.

Lemma around_RequestID : around RequestID.
Proof.
  split; intros; unfold RequestID; destruct (beq _ []); [|done| |done]; by destruct (randRead 6 (xst x)).
Qed.

Lemma around_Logging `{Lens W LogSink} : around Logging.
Proof.
  split; intros; unfold Logging; destruct (timeNow (xst x)) as [start st]; [|done]. cbn [andThen snd].
  destruct (h (withSt st x)) as [[] y]; [|done]. cbn [andThen snd]. by destruct (timeNow (xst y)).
Qed.

Lemma around_Metrics `{Lens W Registry} : around MetricsMiddleware.
Proof.
  split; intros; unfold MetricsMiddleware, onRegistry; cbv zeta; destruct (timeNow _) as [started st]; [|done]. cbn [andThen snd].
  destruct (h _) as [[] y]; [|done]. cbn [andThen snd]. by destruct (timeNow _).
Qed.

(** ** The connection loop *)

(** A response the loop wrote: the writer, its keep-alive decision and the time. *)
Definition message (m : ResponseWriter * bool * Z) : bytes := (serialize m.1.1 $"HTTP/1.1" m.1.2 m.2).2.

(** What a client of the loop reads first can be relayed. *)
Lemma cleanAnswer_messages ms e b :
  Forall (fun m => respOk hd m.1.1) ms -> (0 < b)%nat -> cleanAnswer (mkReader (ms ≫= message) e b).
Proof.
  intros HF Hb c a u r'. destruct ms as [|[[w ka] now] ms].
  { cbn [mbind list_bind]. unfold readUpstream, ReadString. cbn. done. }
  apply Forall_cons in HF as [[[W0 HC HK] Hs _] _]. cbn [fst snd] in *.
  cbn [mbind list_bind]. unfold message at 1. cbn [fst snd]. rewrite serialize_head, readUpstream_head by (done || lia).
  destruct (finalHeaders_clean w ka now W0 HC HK) as (W1 & HC1 & HK1). cbv zeta.
  set (hs := relayed _).
  assert (Forall (fun kv => cleanName kv.1 /\ cleanValue kv.2) hs) as Hhs.
  { pose proof (flat_clean _ W1 HC1) as HF1. rewrite Forall_forall in *. intros kv [_ ?]%list_elem_of_filter. by apply HF1. }
  repeat case_match; intros; simplify_eq; by split.
Qed.

Definition answeredError (r : @connResult W) : Z := match connEnded r with ParseFailed _ => 1 | _ => 0 end.

Lemma errorResponse_ok s : hd false -> 200 <= s < 600 -> respOk hd (errorResponse s).
Proof.
  intros Hf Hs. unfold errorResponse. cbv zeta.
  assert (respOk hd (Error NewResponseWriter s [])) by (apply respOk_Error; [by apply (respOk_new hd false)|done]).
  destruct (_ || _); [|done]. apply respOk_set; [done|clean_name|clean_value].
Qed.

Lemma safeHandle_ok h x : keeps h -> exchOk x -> exchOk (safeHandle h x).
Proof.
  intros Hh Hx. unfold safeHandle, withRecover. pose proof (Hh x Hx) as Hx1. destruct (h x) as [[] y]; [done|].
  apply exchOk_onW; [done|]. intros [? ? ?]. apply respOk_Error; [|by vm_compute]. by constructor.
Qed.

Lemma accepted_reqOk lim addr req : accepted lim addr req -> reqOk req.
Proof. intros Ha. destruct (ac_headers _ _ _ Ha) as [total [? ? _ _]]. by split. Qed.

(** What one turn of the loop does to an exchange that starts from an accepted request. *)
Lemma turn_ok h req st :
  keeps h -> reqOk req -> Q (ReqHeaders req) (Proto req) -> hd (beq (Method req) $"HEAD") -> I st ->
  exchOk (safeHandle h {| xreq := req; xw := withIsHead NewResponseWriter (beq (Method req) $"HEAD"); xst := st |}).
Proof. intros. apply safeHandle_ok; [done|]. constructor; [done|done|by apply respOk_new|done]. Qed.

Lemma turn_small h req st :
  keepsSmall h -> reqOk req -> Q (ReqHeaders req) (Proto req) -> hd (beq (Method req) $"HEAD") -> I st ->
  small (xw (safeHandle h {| xreq := req; xw := withIsHead NewResponseWriter (beq (Method req) $"HEAD"); xst := st |})).
Proof.
  intros [_ Hh] Hr HQ Hhd HI. set (x := {| xreq := req |}).
  assert (small (xw (h x).2)) as Hs by (apply Hh; [constructor; [done|done|by apply respOk_new|done]|done]).
  unfold safeHandle, withRecover. destruct (h x) as [[] y]; [done|].
  by apply Error_small; [by vm_compute|done|by vm_compute|].
Qed.

(** What is on the wire after some turns of the loop: [bw] and then messages. *)
Definition wrote (bw : writer) (n : Z) (out : bytes) : Prop :=
  exists ms : list (ResponseWriter * bool * Z),
    Forall (fun m => respOk hd m.1.1) ms /\ out = sent bw ++ (ms ≫= message) /\ len ms = n.

Lemma wrote_nothing bw : wrote bw 0 (sent bw).
Proof. exists []. split_and!; [constructor|by rewrite app_nil_r|done]. Qed.

Lemma wrote_cons bw m n out :
  respOk hd m.1.1 -> wrote (mkWriter (sent bw ++ message m) None) n out -> wrote bw (n + 1) out.
Proof.
  intros Hm (ms & HF & -> & <-). exists (m :: ms). split_and!; [by constructor| |rewrite len_cons; lia].
  cbn [sent mbind list_bind]. by rewrite <- app_assoc.
Qed.

Lemma wrote_one bw m : respOk hd m.1.1 -> wrote bw 1 (sent bw ++ message m).
Proof. intros Hm. exact (wrote_cons bw m 0 _ Hm (wrote_nothing (mkWriter (sent bw ++ message m) None))). Qed.

(** The answer to a request that does not parse. *)
Lemma writeError_ok bw err st :
  hd false -> parserErr err -> err <> errCleanClose -> accepts bw = None -> I st ->
  wrote bw 1 (sent (writeError bw (errorStatus err) st).1) /\ I (writeError bw (errorStatus err) st).2.
Proof.
  intros Hf He Hne Hbw HI. destruct (parserErr_answer err He) as [Hans|]; [|done].
  assert (200 <= errorStatus err < 600) as Hst.
  { revert Hans. generalize (errorStatus err). intros z. rewrite !elem_of_cons, elem_of_nil. lia. }
  unfold writeError. pose proof (I_clock _ HI). destruct (timeNow st) as [now st1]. unfold flushTo. rewrite Hbw.
  split; [|done]. apply (wrote_one bw (errorResponse (errorStatus err), false, now)). by apply errorResponse_ok.
Qed.

Lemma serveLoop_messages (cfg : Config W) remoteAddr drain fuel served br bw st :
  sane (CfgLimits cfg) -> keeps (CfgHandler cfg) ->
  (forall req, accepted (CfgLimits cfg) remoteAddr req -> Q (ReqHeaders req) (Proto req)) ->
  (forall b, hd b) ->
  (0 < bufsize br)%nat -> accepts bw = None -> I st ->
  let r := serveLoop cfg remoteAddr drain fuel served br bw st in
  wrote bw (connServed r - served + answeredError r) (sent (connOut r)) /\ I (connSt r).
Proof.
  intros Hs Hh HQ Hhd. revert served br bw st. induction fuel as [|fuel IH]; intros served br bw st Hb Hbw HI.
  all: pose proof (wrote_nothing bw) as Hnone; replace 0 with (served - served + 0) in Hnone by lia.
  { by split. }
  cbn [serveLoop]. unfold answeredError. destruct (_ && _); [by split|]. destruct (Peek1 br); [by split|].
  destruct (ParseRequest _ _ br) as [[req|err| |] br1] eqn:EP; [..|by split|by split].
  - destruct (ParseRequest_Ret _ Hs _ _ _ _ Hb EP) as [Ha Hlater].
    pose proof (turn_ok _ req st Hh (accepted_reqOk _ _ _ Ha) (HQ _ Ha) (Hhd _) HI) as Hy.
    cbv zeta. set (y := safeHandle _ _) in *.
    pose proof (I_clock _ (xo_st _ Hy)) as Hc. destruct (timeNow (xst y)) as [now st1]. cbn [snd] in Hc.
    set (ka := keepAliveAfter _ _ _ _). unfold flushTo. rewrite Hbw. destruct ka; cbn [negb].
    + destruct (IH (served + 1) br1 (mkWriter (sent bw ++ message (xw y, true, now)) None) st1) as [Hw HI'];
        [by rewrite (later_buf _ _ Hlater)|done|exact Hc|].
      split; [|exact HI']. apply wrote_cons in Hw; [|apply Hy]. revert Hw. unfold answeredError, message. cbn [fst snd].
      match goal with |- wrote _ ?n _ -> wrote _ ?m _ => replace n with m by lia end. done.
    + split; [|exact Hc]. cbn [connServed connEnded connOut]. replace (served + 1 - served + 0) with 1 by lia.
      apply (wrote_one bw (xw y, false, now)), Hy.
  - assert (err = errCleanClose \/ err <> errCleanClose) as [->|Hne] by (destruct err; (by left) || by right); [by split|].
    destruct (writeError_ok bw err st (Hhd _) (ParseRequest_Raise _ Hs _ _ _ _ Hb EP) Hne Hbw HI) as [Hw HI'].
    destruct (writeError bw (errorStatus err) st) as [bw1 st1].
    replace 1 with (served - served + 1) in Hw by lia. by destruct err.
Qed.
End state.
End keeps.
