(* ===== verification/Site.v ===== *)
(** * A server at the other end of a network

    The connections a server accepted, each with the requests it served: what a
    client of it, the load generator or the load balancer, talks to.  An
    exchange on a connection is one step: the request arrives whole, the
    connection's goroutine runs to its next wait for a byte, and what it wrote
    arrives in time. *)

From S2P Require Import Prelude.
From S2P Require Import GoStrings.
From S2P Require Import GoIO.
From S2P Require Import GoTime.
From S2P Require Import Headers.
From S2P Require Import Request.
From S2P Require Import RequestFacts.
From S2P Require Import Response.
From S2P Require Import Handler.
From S2P Require Import Server.
From S2P Require Import ServerProps.
From S2P Require Import WellFormed.

Section site.
Context {W : Type}.

(** The server's world, and for each connection it accepted the requests it
    served on it; [None] once the connection is closed. *)
Record Site := mkSite {
  world : W;
  opened : list (option Z);
}.

(** A connection the server still serves. *)
Definition live (s : Site) (c : nat) : Prop := exists n, opened s !! c = Some (Some n).

(** Connections other than [c] are as they were. *)
Definition elsewhere (c : nat) (s s' : Site) : Prop :=
  (forall c', c' <> c -> opened s' !! c' = opened s !! c') /\ length (opened s') = length (opened s).

Definition dialSite (s : Site) : nat * Site :=
  (length (opened s), mkSite (world s) (opened s ++ [Some 0])).

Definition closeSite (c : nat) (s : Site) : Site := mkSite (world s) (<[c := None]> (opened s)).

Lemma live_lt s c : live s c -> (c < length (opened s))%nat.
Proof. intros [n Hn]. by eapply lookup_lt_Some. Qed.

Lemma live_elsewhere c c' s s' : elsewhere c s s' -> c' <> c -> live s c' -> live s' c'.
Proof. intros [E _] Hne [n Hn]. exists n. by rewrite E. Qed.

Lemma live_dial s : live (dialSite s).2 (dialSite s).1.
Proof. exists 0. cbn [dialSite opened fst snd]. by rewrite list_lookup_middle. Qed.

Lemma live_dial_old s c : live s c -> live (dialSite s).2 c /\ c <> (dialSite s).1.
Proof.
  intros Hl. pose proof (live_lt s c Hl). cbn [dialSite fst snd]. split; [|lia].
  destruct Hl as [n Hn]. exists n. cbn [opened]. by rewrite lookup_app_l.
Qed.

Lemma elsewhere_close c s : elsewhere c s (closeSite c s).
Proof.
  split; [|by cbn [closeSite opened]; rewrite length_insert].
  intros c' Hne. cbn [closeSite opened]. by rewrite list_lookup_insert_ne.
Qed.

Lemma elsewhere_trans c s1 s2 s3 : elsewhere c s1 s2 -> elsewhere c s2 s3 -> elsewhere c s1 s3.
Proof. intros [E1 L1] [E2 L2]. split; [|congruence]. intros c' Hne. by rewrite E2, E1. Qed.

Context `{GoRuntime} `{Clock W}.
Variables (cfg : Config W) (remoteAddr : bytes).

Definition site_clock : Clock Site :=
  fun s => let (t, w) := timeNow (world s) in (t, mkSite w (opened s)).

Lemma site_now s : timeNow (Clock := site_clock) s = let (t, w) := timeNow (world s) in (t, mkSite w (opened s)).
Proof. done. Qed.

(** The connection's goroutine from one request to its next wait for a byte. *)
Definition turn (served : Z) (request : bytes) (st : W) : @connResult W :=
  serveLoop cfg remoteAddr (fun _ => (false, false)) (S (length request)) served
    (connReader request NetTimeout) (mkWriter [] None) st.

Definition stillOpen (r : @connResult W) : bool := match connEnded r with IdleClose => true | _ => false end.

(** What a request brings back: the bytes, and how the stream then ends; [None]
    on a connection that is closed. *)
Definition sendSite (c : nat) (request : bytes) (s : Site) : option (bytes * ioerr) * Site :=
  match opened s !! c with
  | Some (Some served) =>
    let r := turn served request (world s) in
    (Some (sent (connOut r), if stillOpen r then NetTimeout else EOF),
     mkSite (connSt r) (<[c := if stillOpen r then Some (connServed r) else None]> (opened s)))
  | _ => (None, s)
  end.

Variable I : W -> Prop.
Hypothesis I_clock : forall st, I st -> I (timeNow st).2.
Hypothesis Hmax : MaxRequestsPerConn cfg = 0.

(** The request on the wire, and what the server's parser makes of it. *)
Variables (request : bytes) (req : Request).
Hypothesis Hnonempty : request <> [].
Hypothesis Hreq : reqOk req.
Hypothesis Hparse :
  ParseRequest (CfgLimits cfg) remoteAddr (connReader request NetTimeout) = (Ret req, connReader [] NetTimeout).

(** The handler changes neither the request's headers nor its protocol. *)
Definition sameRequest (h : Headers) (proto : bytes) : Prop := h = ReqHeaders req /\ proto = Proto req.

Hypothesis Hh : keeps I (eq (beq (Method req) $"HEAD")) sameRequest (CfgHandler cfg).

Lemma exchange_ok st : I st -> exchOk I (eq (beq (Method req) $"HEAD")) sameRequest (exchange (CfgHandler cfg) req st).
Proof. intros HI. by apply turn_ok. Qed.

(** One request, one response, and the connection stays open unless the request
    asks for its end. *)
Lemma turn_once served st :
  I st ->
  let x := exchange (CfgHandler cfg) req st in
  let ka := negb (wantClose req) in
  let (now, st') := timeNow (xst x) in
  turn served request st =
  mkConnResult (mkWriter (serialize (xw x) $"HTTP/1.1" ka now).2 None) st' (served + 1)
    (if ka then IdleClose else ResponseClose).
Proof.
  intros HI x ka. destruct (xo_known _ _ _ _ (exchange_ok st HI)) as [EH EP]. fold x in EH, EP.
  assert (Peek1 (connReader request NetTimeout) = None) as Hpeek by by destruct request.
  pose proof (serveLoop_parsed cfg remoteAddr (fun _ => (false, false)) (length request) served _ _ _
    (mkWriter [] None) st Hpeek Hparse eq_refl (or_introl eq_refl)) as E. cbv zeta in E. fold x in E.
  destruct (timeNow (xst x)) as [now st']. unfold turn. rewrite E. cbn [snd].
  assert (keepAliveAfter cfg (xreq x) false (served + 1) = ka) as ->.
  { unfold keepAliveAfter, ka, wantClose. by rewrite EH, EP, Hmax, andb_true_r, andb_true_r. }
  destruct ka; [|done]. by destruct request.
Qed.

Lemma sendSite_ok c s :
  I (world s) -> live s c ->
  let x := exchange (CfgHandler cfg) req (world s) in
  let ka := negb (wantClose req) in
  exists now s',
    sendSite c request s =
      (Some ((serialize (xw x) $"HTTP/1.1" ka now).2, if ka then NetTimeout else EOF), s') /\
    world s' = (timeNow (xst x)).2 /\ I (world s') /\ elsewhere c s s' /\ (ka = true -> live s' c).
Proof.
  intros HI [n Hn] x ka. pose proof (turn_once n (world s) HI) as E. cbv zeta in E. fold x ka in E.
  pose proof (I_clock _ (xo_st _ _ _ _ (exchange_ok _ HI))) as HI'. fold x in HI'.
  destruct (timeNow (xst x)) as [now st'] eqn:Et. unfold sendSite. rewrite Hn, E. cbn [connOut connSt sent connServed].
  assert (stillOpen (mkConnResult (mkWriter (serialize (xw x) $"HTTP/1.1" ka now).2 None) st' (n + 1)
    (if ka then IdleClose else ResponseClose)) = ka) as -> by by destruct ka.
  eexists now, _. split; [reflexivity|]. cbn [world]. split_and!; [done|done| |].
  - split; [|by cbn [opened]; rewrite length_insert]. intros c' Hne. cbn [opened]. by rewrite list_lookup_insert_ne.
  - intros ->. exists (n + 1). cbn [opened]. apply list_lookup_insert_eq. by eapply lookup_lt_Some.
Qed.
End site.
Arguments Site : clear implicits.
