(* ===== verification/BenchProps.v ===== *)
(** * Properties of the load generator *)

From stdpp Require Import fin_maps.
From S2P Require Import Prelude.
From S2P Require Import GoStrings.
From S2P Require Import GoFloat.
From S2P Require Import GoIO.
From S2P Require Import GoTime.
From S2P Require Import Headers.
From S2P Require Import Status.
From S2P Require Import Request.
From S2P Require Import RequestFacts.
From S2P Require Import RequestRoundtrip.
From S2P Require Import Response.
From S2P Require Import Handler.
From S2P Require Import Wire.
From S2P Require Import ProxyWire.
From S2P Require Import Bench.
From S2P Require Import Examples.
From Stdlib Require Import SpecFloat.

(** ** Reading responses *)

Lemma benchHeaders_wire fuel hs more e b cl :
  (length hs < fuel)%nat ->
  Forall (fun kv => cleanName kv.1 /\ cleanValue kv.2) hs ->
  benchHeaders fuel (mkReader (headerWire hs ++ CRLF ++ more) e b) cl = (inl (clOf cl hs), mkReader more e b).
Proof.
  revert fuel cl. induction hs as [|[k v] hs IH]; intros [|fuel] cl Hf HC; simpl in Hf; try lia.
  - cbn [benchHeaders headerWire mbind list_bind app].
    rewrite (ReadString_crlf [] more) by apply not_elem_of_nil.
    by rewrite TrimRight_crlf by done.
  - apply Forall_cons in HC as [[Hk Hv] HC]. cbn [fst snd] in Hk, Hv.
    change (headerWire ((k, v) :: hs)) with ((headerLine (k, v) ++ CRLF) ++ headerWire hs).
    rewrite <- !app_assoc. cbn [benchHeaders].
    rewrite ReadString_crlf by by apply headerLine_nl.
    rewrite TrimRight_crlf by (intros c; by apply headerLine_last).
    unfold beq at 1. rewrite bool_decide_false by by apply headerLine_nonempty.
    rewrite cleanName_colon by apply Hk. rewrite TrimSpace_sp. destruct Hv as [_ Hv]. rewrite Hv.
    cbn [andb]. rewrite EqualFold_content_length. unfold clOf. cbn [foldl fst snd]. unfold Atoi.
    destruct (beq (ToLower k) $"content-length"); apply IH; done || lia.
Qed.

Lemma SplitN_statusLine_crlf s :
  0 <= s ->
  SplitN (($"HTTP/1.1" ++ [sp] ++ Itoa s ++ [sp] ++ ReasonPhrase s) ++ CRLF) sp 3 =
  [$"HTTP/1.1"; Itoa s; ReasonPhrase s ++ CRLF].
Proof.
  intros Hs. rewrite <- !app_assoc. cbn [app]. cbn [SplitN].
  rewrite (Cut_app $"HTTP/1.1") by (intros Hx; absurd_elem Hx).
  rewrite (Cut_app (Itoa s)); [done|]. intros Hx.
  pose proof (FormatUint_graphic 10 s ltac:(lia) Hs) as HF. rewrite Forall_forall in HF.
  unfold Itoa, FormatInt in Hx. destruct (Z.ltb_spec s 0); [lia|]. by apply HF in Hx.
Qed.

(** The load generator reads one serialized response. *)
Lemma readResponse_wire (w : ResponseWriter) (keepAlive : bool) (now : Z) (more : bytes) (e : ioerr) (b : nat) :
  isHead w = false -> 0 <= status w < 2 ^ 63 ->
  wf (headers w) -> cleanHeaders (headers w) -> canonicalKeys (headers w) -> len (body w) < 2 ^ 63 ->
  readResponse (mkReader ((serialize w $"HTTP/1.1" keepAlive now).2 ++ more) e b) =
  (inl (status w), mkReader more e b).
Proof.
  intros Hh Hs W HC HK Hl. rewrite serialize_head.
  destruct (finalHeaders_clean w keepAlive now W HC HK) as (W' & HC' & HK').
  destruct (Values_finalHeaders w keepAlive now) as (_ & Hcl & _).
  unfold readResponse. rewrite ReadString_crlf by apply statusLine_nl.
  rewrite SplitN_statusLine_crlf by lia. unfold Atoi, Itoa. rewrite ParseInt_FormatInt by lia. cbn [rest].
  rewrite benchHeaders_wire; [|apply length_headerWire_le|by apply flat_clean].
  rewrite Hh. cbn [negb andb]. destruct (bodyless (status w)) eqn:Eb; cbn [negb].
  - by rewrite clOf_no_length.
  - pose proof (len_nonneg (body w)). rewrite (clOf_entries _ (len (body w))) by (done || lia).
    unfold discardN. cbn [rest].
    destruct (Z.ltb_spec 0 (len (body w))) as [Hp|Hp].
    + rewrite len_app. destruct (Z.leb_spec (len (body w)) (len (body w) + len more)); [|pose proof (len_nonneg more); lia].
      unfold advance, len. cbn [rest ending bufsize]. by rewrite Nat2Z.id, drop_app_length.
    + destruct (body w); [done|]. rewrite len_cons in Hp. pose proof (len_nonneg l). lia.
Qed.

(** A client that reads [n] responses off a connection. *)
Fixpoint readResponses (n : nat) (r : reader) : list (Z + benchErr) * reader :=
  match n with
  | O => ([], r)
  | S n' =>
    let (s, r) := readResponse r in
    let (l, r) := readResponses n' r in
    (s :: l, r)
  end.

(** C18: the load generator reads back what the server writes.  Whatever
    responses to GETs the server serializes one after the other, with a body or
    bodyless, kept alive or not, and whatever follows them on the connection,
    the client that reads as many gets their statuses in order, and exactly
    their bytes are consumed. *)
Theorem readResponse_serialize (ms : list (ResponseWriter * bool * Z)) (more : bytes) (e : ioerr) (b : nat) :
  Forall (fun m => isHead m.1.1 = false /\ 0 <= status m.1.1 < 2 ^ 63 /\ len (body m.1.1) < 2 ^ 63 /\
    wf (headers m.1.1) /\ cleanHeaders (headers m.1.1) /\ canonicalKeys (headers m.1.1)) ms ->
  readResponses (length ms)
    (mkReader ((ms ≫= fun m => (serialize m.1.1 $"HTTP/1.1" m.1.2 m.2).2) ++ more) e b) =
  ((fun m => inl (status m.1.1)) <$> ms, mkReader more e b).
Proof.
  induction 1 as [|m ms (Hh & Hs & Hl & W & HC & HK) HF IH]; [done|].
  cbn [mbind list_bind length readResponses fmap list_fmap]. rewrite <- app_assoc, readResponse_wire by done.
  by rewrite IH.
Qed.

(** ** A load of requests *)

Definition sumBy {A} (f : A -> Z) (l : list A) : Z := foldr (fun x n => f x + n) 0 l.

Lemma sumBy_app {A} (f : A -> Z) l k : sumBy f (l ++ k) = sumBy f l + sumBy f k.
Proof. induction l as [|x l IH]; simpl; [done|]. rewrite IH. lia. Qed.

Lemma sumBy_snoc {A} (f : A -> Z) l x : sumBy f (l ++ [x]) = sumBy f l + f x.
Proof. rewrite sumBy_app. simpl. lia. Qed.

Lemma sumBy_insert {A} (f : A -> Z) l i x y :
  l !! i = Some x -> sumBy f (<[i := y]> l) = sumBy f l - f x + f y.
Proof.
  intros Hi. rewrite <- (take_drop_middle l i x Hi) at 2. rewrite insert_take_drop by (by eapply lookup_lt_Some).
  rewrite !sumBy_app. simpl. lia.
Qed.

Lemma sumBy_nonneg {A} (f : A -> Z) l : (forall x, 0 <= f x) -> 0 <= sumBy f l.
Proof. intros Hf. induction l as [|x l IH]; simpl; [lia|]. specialize (Hf x). lia. Qed.

Lemma sumBy_le {A} (f : A -> Z) l i x : (forall x, 0 <= f x) -> l !! i = Some x -> f x <= sumBy f l.
Proof.
  intros Hf Hi. pose proof (sumBy_insert f l i x x Hi). rewrite <- (take_drop_middle l i x Hi), sumBy_app. simpl.
  pose proof (sumBy_nonneg f (take i l) Hf). pose proof (sumBy_nonneg f (drop (S i) l) Hf). lia.
Qed.

Definition statusTotal (m : gmap Z Z) : Z := map_fold (fun _ n acc => n + acc) 0 m.

Lemma statusTotal_insert m s n :
  m !! s = None -> statusTotal (<[s := n]> m) = n + statusTotal m.
Proof. intros Hs. unfold statusTotal. apply (map_fold_insert_L (fun _ n acc => n + acc)); [lia|done]. Qed.

Lemma statusTotal_delete m s n : m !! s = Some n -> statusTotal m = n + statusTotal (delete s m).
Proof. intros Hs. unfold statusTotal. apply (map_fold_delete_L (fun _ n acc => n + acc)); [lia|done]. Qed.

Lemma statusTotal_set m s n : statusTotal (<[s := n]> m) = n + statusTotal m - default 0 (m !! s).
Proof.
  destruct (m !! s) as [n0|] eqn:E; simpl.
  - rewrite <- insert_delete_eq, statusTotal_insert by apply lookup_delete_eq.
    rewrite (statusTotal_delete m s n0) by done. lia.
  - rewrite statusTotal_insert by done. lia.
Qed.

Lemma statusTotal_nonneg m : map_Forall (fun _ n => 0 <= n) m -> 0 <= statusTotal m.
Proof.
  intros HF. induction m as [|s n m Hs IH] using map_ind; [done|].
  rewrite statusTotal_insert by done. apply map_Forall_insert in HF as [? HF]; [|done]. specialize (IH HF). lia.
Qed.

(** What one worker counted. *)
Record okResult (r : result) : Prop := {
  ok_errors : 0 <= errors r;
  ok_counts : map_Forall (fun _ n => 0 <= n) (statuses r);
  ok_total : statusTotal (statuses r) = len (latencies r);
}.

Definition attempts (r : result) : Z := len (latencies r) + Z.max 0 (errors r).

Lemma addError_ok r : okResult r -> attempts r < 2 ^ 63 - 1 ->
  okResult (addError r) /\ attempts (addError r) = attempts r + 1.
Proof.
  unfold attempts. intros [He Hc Ht] Hl. pose proof (len_nonneg (latencies r)).
  assert (wrap64 (errors r + 1) = errors r + 1) as E by (apply wrap64_id; unfold int64_ok; lia).
  split; [constructor|]; cbn [addError errors latencies statuses]; rewrite ?E; try done; lia.
Qed.

Lemma addSample_ok d s r : okResult r -> attempts r < 2 ^ 63 - 1 ->
  okResult (addSample d s r) /\ attempts (addSample d s r) = attempts r + 1.
Proof.
  unfold attempts. intros [He Hc Ht] Hl.
  assert (0 <= default 0 (statuses r !! s) <= statusTotal (statuses r)) as Hd.
  { destruct (statuses r !! s) as [n|] eqn:E; simpl; [|split; [lia|by apply statusTotal_nonneg]].
    split; [exact (Hc s n E)|]. rewrite (statusTotal_delete _ s n E).
    pose proof (statusTotal_nonneg (delete s (statuses r)) (map_Forall_delete _ _ _ Hc)). lia. }
  assert (wrap64 (default 0 (statuses r !! s) + 1) = default 0 (statuses r !! s) + 1) as E
    by (apply wrap64_id; unfold int64_ok; lia).
  split; [constructor|]; cbn [addSample errors latencies statuses]; rewrite ?E, ?len_app, ?len_cons, ?len_nil; try lia.
  - apply map_Forall_insert_2; [lia|done].
  - rewrite statusTotal_set. change (len (@nil Z)) with 0. lia.
Qed.

Section load.
Context {E Conn : Type} `{@BenchNet E Conn} `{Clock E}.
Variables (hostport request : bytes) (keepAlive : bool).

Lemma exchange_result w (st : E) :
  let w' := (exchange hostport request keepAlive w st).1 in
  wpc w' = AtAdd /\ (wres w' = addError (wres w) \/ exists d s, wres w' = addSample d s (wres w)).
Proof.
  intros w'. subst w'. unfold exchange.
  assert (forall c st, let w' := (match c with
    | None => (mkWorker AtAdd None (addError (wres w)), st)
    | Some (c, buffered) =>
      let (_, st) := timeNow st in let (t0, st) := timeNow st in
      match benchSend c request st with
      | (Some _, _, st) => (mkWorker AtAdd None (addError (wres w)), benchClose c st)
      | (None, (arrived, e), st) =>
        match readResponse (mkReader (buffered ++ arrived) e (Z.to_nat (Z.shiftl 32 10))) with
        | (inr _, _) => (mkWorker AtAdd None (addError (wres w)), benchClose c st)
        | (inl status, r) =>
          let (t1, st) := timeNow st in
          let res := addSample (timeSub t1 t0) status (wres w) in
          if keepAlive then (mkWorker AtAdd (Some (c, rest r)) res, st)
          else (mkWorker AtAdd None res, benchClose c st)
        end
      end
    end : worker Conn * E).1 in
    wpc w' = AtAdd /\ (wres w' = addError (wres w) \/ exists d s, wres w' = addSample d s (wres w))) as Hx.
  { intros [[c buf]|] s; [|by split; [|left]]. destruct (timeNow s) as [? s1]. destruct (timeNow s1) as [t0 s2].
    destruct (benchSend c request s2) as [[[e|] [arrived e']] s3]; [by split; [|left]|].
    destruct (readResponse _) as [[st'|err] r]; [|by split; [|left]].
    destruct (timeNow s3) as [t1 s4]. destruct keepAlive; (split; [done|right; by eauto]). }
  destruct (wconn w) as [c|]; [apply (Hx (Some c) st)|].
  destruct (benchDial _ _ st) as [[c|e] s]; [apply (Hx (Some (c, [])) s)|by split; [|left]].
Qed.

Definition isPc (pc : workerPc) (w : worker Conn) : Z :=
  match wpc w, pc with AtAdd, AtAdd | AtExchange, AtExchange | WorkerDone, WorkerDone => 1 | _, _ => 0 end.

Definition attempted (l : Load E Conn) : Z := sumBy (fun w => attempts (wres w)) (workers l).
Definition exchanging (l : Load E Conn) : Z := sumBy (isPc AtExchange) (workers l).
Definition ended (l : Load E Conn) : Z := sumBy (isPc WorkerDone) (workers l).

(** What holds of a load of [total] requests over [conc] workers. *)
Record counted (conc total : Z) (l : Load E Conn) : Prop := {
  co_len : len (workers l) = conc;
  co_ok : Forall (fun w => okResult (wres w)) (workers l);
  co_sum : remaining l + attempted l + exchanging l + ended l = total;
  co_le : attempted l + exchanging l <= Z.max 0 total;
  co_end : 0 < ended l -> attempted l + exchanging l = Z.max 0 total;
}.

(** The steps that are left. *)
Definition stepsLeft (l : Load E Conn) : Z :=
  2 * Z.max 0 (remaining l) + sumBy (fun w => isPc AtAdd w + 2 * isPc AtExchange w) (workers l).

Lemma isPc_nonneg pc w : 0 <= isPc pc w.
Proof. unfold isPc. destruct (wpc w), pc; lia. Qed.

Lemma isPc_one (l : list (worker Conn)) : 0 <= sumBy (isPc WorkerDone) l <= len l.
Proof.
  induction l as [|w l IH]; [done|]. rewrite len_cons.
  change (sumBy (isPc WorkerDone) (w :: l)) with (isPc WorkerDone w + sumBy (isPc WorkerDone) l).
  assert (0 <= isPc WorkerDone w <= 1) by (unfold isPc; destruct (wpc w); lia). lia.
Qed.

Lemma attempts_nonneg r : 0 <= attempts r.
Proof. unfold attempts. pose proof (len_nonneg (latencies r)). lia. Qed.

Lemma loadStep_counted conc total i l l' :
  0 <= conc < 2 ^ 62 -> - 2 ^ 62 < total < 2 ^ 63 - 1 -> counted conc total l ->
  loadStep hostport request keepAlive i l = Some l' ->
  counted conc total l' /\ stepsLeft l' = stepsLeft l - 1.
Proof.
  intros Hc Ht [Hl Hok Hs Hle He]. unfold loadStep. intros (w & Hw & Hstep)%bind_Some.
  pose proof (isPc_one (workers l)) as Hend. rewrite Hl in Hend. fold (ended l) in Hend.
  assert (0 <= attempted l) as Ha by (apply sumBy_nonneg; intros; apply attempts_nonneg).
  assert (0 <= exchanging l) as Hx by (apply sumBy_nonneg; intros; apply isPc_nonneg).
  assert (okResult (wres w)) as Hwok by (by apply (Forall_lookup_1 _ _ _ _ Hok Hw)).
  assert (attempts (wres w) + isPc AtExchange w <= attempted l + exchanging l) as Hwle.
  { pose proof (sumBy_le (fun w => attempts (wres w)) _ _ _ (fun w => attempts_nonneg (wres w)) Hw).
    pose proof (sumBy_le (isPc AtExchange) _ _ _ (isPc_nonneg AtExchange) Hw). simpl in *.
    unfold attempted, exchanging. lia. }
  assert (forall w' n st, okResult (wres w') ->
    let l' := mkLoad n (<[i := w']> (workers l)) st in
    len (workers l') = conc /\ Forall (fun w => okResult (wres w)) (workers l') /\
    attempted l' = attempted l - attempts (wres w) + attempts (wres w') /\
    exchanging l' = exchanging l - isPc AtExchange w + isPc AtExchange w' /\
    ended l' = ended l - isPc WorkerDone w + isPc WorkerDone w' /\
    stepsLeft l' = stepsLeft l - 2 * Z.max 0 (remaining l) + 2 * Z.max 0 n
      - (isPc AtAdd w + 2 * isPc AtExchange w) + (isPc AtAdd w' + 2 * isPc AtExchange w')) as Hins.
  { intros w' n st Hw' l0. unfold attempted, exchanging, ended, stepsLeft, l0. cbn [workers remaining].
    rewrite !(sumBy_insert _ _ _ _ _ Hw). unfold len in *. rewrite length_insert.
    split_and!; try done; try lia. by apply Forall_insert. }
  unfold isPc in Hins, Hwle. destruct (wpc w) eqn:Epc; [| |done].
  - rewrite wrap64_id in Hstep by (unfold int64_ok; lia).
    destruct (Z.leb_spec 0 (remaining l - 1)) as [Hr|Hr]; injection Hstep as <-.
    + destruct (Hins (mkWorker AtExchange (wconn w) (wres w)) (remaining l - 1) (lenv l) Hwok) as (E1 & E2 & E3 & E4 & E5 & E6).
      cbn [wpc wres] in *. split; [constructor|]; cbn [remaining]; try done; rewrite ?E3, ?E4, ?E5, ?E6; lia.
    + destruct (Hins (mkWorker WorkerDone None (wres w)) (remaining l - 1)
        (match wconn w with Some (c, _) => benchClose c (lenv l) | None => lenv l end) Hwok) as (E1 & E2 & E3 & E4 & E5 & E6).
      cbn [wpc wres] in *. split; [constructor|]; cbn [remaining]; try done; rewrite ?E3, ?E4, ?E5, ?E6; lia.
  - pose proof (exchange_result w (lenv l)) as Hres. cbv zeta in Hres.
    destruct (exchange hostport request keepAlive w (lenv l)) as [w' st'] eqn:Ex. cbn [fst] in Hres.
    destruct Hres as [Hpc Hres]. injection Hstep as <-.
    assert (okResult (wres w') /\ attempts (wres w') = attempts (wres w) + 1) as [Hok' Hat].
    { destruct Hres as [-> | (d & s & ->)]; [apply addError_ok|apply addSample_ok]; done || lia. }
    destruct (Hins w' (remaining l) st' Hok') as (E1 & E2 & E3 & E4 & E5 & E6). rewrite Hpc in E4, E5, E6.
    split; [constructor|]; cbn [remaining]; try done; rewrite ?E3, ?E4, ?E5, ?E6; lia.
Qed.

Lemma runSchedule_counted conc total sched l l' :
  0 <= conc < 2 ^ 62 -> - 2 ^ 62 < total < 2 ^ 63 - 1 -> counted conc total l ->
  runSchedule hostport request keepAlive sched l = Some l' ->
  counted conc total l' /\ stepsLeft l' = stepsLeft l - len sched.
Proof.
  intros Hc Ht C. unfold runSchedule. revert l'. induction sched as [|i sched IH] using rev_ind; intros l'.
  { intros [= <-]. split; [done|]. change (len (@nil nat)) with 0. lia. }
  rewrite foldl_app. cbn [foldl]. intros (l1 & H1 & H2)%bind_Some. destruct (IH l1 H1) as [C1 E1].
  destruct (loadStep_counted _ _ _ _ _ Hc Ht C1 H2) as [C2 E2]. split; [done|].
  rewrite len_app. change (len [i]) with 1. lia.
Qed.

Lemma sumBy_replicate {A} (f : A -> Z) n x : f x = 0 -> sumBy f (replicate n x) = 0.
Proof. intros Hf. induction n as [|n IH]; simpl; [done|]. rewrite Hf. lia. Qed.

Lemma startLoad_counted conc total st l :
  startLoad (Conn := Conn) conc total st = Some l ->
  0 <= conc /\ counted conc total l /\ stepsLeft l = 2 * Z.max 0 total + conc.
Proof.
  unfold startLoad. destruct (Z.ltb_spec conc 0); [done|]. intros [= <-].
  assert (attempted (mkLoad total (replicate (Z.to_nat conc) (newWorker (Conn := Conn))) st) = 0) as Ea
    by (by apply sumBy_replicate).
  assert (exchanging (mkLoad total (replicate (Z.to_nat conc) (newWorker (Conn := Conn))) st) = 0) as Ex
    by (by apply sumBy_replicate).
  assert (ended (mkLoad total (replicate (Z.to_nat conc) (newWorker (Conn := Conn))) st) = 0) as Ee
    by (by apply sumBy_replicate).
  split; [done|]. split; [constructor|]; rewrite ?Ea, ?Ex, ?Ee; cbn [workers remaining]; try lia.
  - unfold len. rewrite length_replicate. lia.
  - by apply Forall_replicate.
  - unfold stepsLeft. cbn [workers remaining].
    assert (forall n, sumBy (fun w => isPc AtAdd w + 2 * isPc AtExchange w) (replicate n (newWorker (Conn := Conn))) = Z.of_nat n) as ->; [|lia].
    intros n. induction n as [|n IH]; [done|]. cbn [replicate sumBy foldr]. unfold sumBy in IH. rewrite IH.
    unfold isPc. cbn [wpc newWorker]. lia.
Qed.

Lemma stepsLeft_done conc total l :
  0 < conc -> counted conc total l -> loadDone l = true <-> stepsLeft l = 0.
Proof.
  intros Hc [Hl _ Hs Hle He]. unfold loadDone, stepsLeft, ended in *.
  assert (0 <= attempted l) by (apply sumBy_nonneg; intros; apply attempts_nonneg).
  assert (0 <= exchanging l) by (apply sumBy_nonneg; intros; apply isPc_nonneg).
  set (weight := fun w => isPc AtAdd w + 2 * isPc AtExchange w).
  assert (forall w, 0 <= weight w) as Hw by (intros w; unfold weight, isPc; destruct (wpc w); lia).
  split.
  - intros Hd. assert (sumBy weight (workers l) = 0 /\ sumBy (isPc WorkerDone) (workers l) = len (workers l)) as [-> Eend].
    { clear -Hd. induction (workers l) as [|w ws IH]; [done|]. cbn [forallb] in Hd. apply andb_prop in Hd as [Hw Hd].
      destruct (IH Hd) as [E1 E2]. rewrite len_cons. unfold sumBy in *. cbn [foldr]. rewrite E1, E2.
      unfold weight, isPc. destruct (wpc w); done || lia. }
    rewrite Eend, Hl in *. lia.
  - intros Ezero. assert (sumBy weight (workers l) = 0) as E0 by (pose proof (sumBy_nonneg weight (workers l) Hw); lia).
    clear -E0 Hw. induction (workers l) as [|w ws IH]; [done|]. unfold sumBy in *. cbn [foldr forallb] in *.
    pose proof (sumBy_nonneg weight ws Hw). unfold sumBy in *. pose proof (Hw w).
    rewrite IH by lia. unfold weight, isPc in *. destruct (wpc w); done || lia.
Qed.

Lemma load_progress l : loadDone l = false -> exists i l', loadStep hostport request keepAlive i l = Some l'.
Proof.
  intros Hd. assert (exists i w, workers l !! i = Some w /\ wpc w <> WorkerDone) as (i & w & Hw & Hpc).
  { unfold loadDone in Hd. induction (workers l) as [|w ws IH]; [done|]. cbn [forallb] in Hd.
    destruct (wpc w) eqn:Epc; [exists O, w; split; [done|congruence]..|].
    destruct (IH Hd) as (i & w' & ? & ?). by exists (S i), w'. }
  exists i. unfold loadStep. rewrite Hw. cbn [mbind option_bind].
  destruct (wpc w); [destruct (0 <=? _); by eexists|destruct (exchange _ _ _ w _); by eexists|done].
Qed.

Lemma load_completes conc total l :
  0 < conc < 2 ^ 62 -> - 2 ^ 62 < total < 2 ^ 63 - 1 -> counted conc total l ->
  exists sched l', runSchedule hostport request keepAlive sched l = Some l' /\ loadDone l' = true.
Proof.
  intros Hc Ht. remember (Z.to_nat (stepsLeft l)) as n eqn:En. revert l En.
  induction n as [|n IH]; intros l En C.
  - exists [], l. split; [done|]. apply (stepsLeft_done conc total); [lia|done|].
    enough (0 <= stepsLeft l) by lia. unfold stepsLeft.
    pose proof (sumBy_nonneg (fun w => isPc AtAdd w + 2 * isPc AtExchange w) (workers l)
      ltac:(intros w; unfold isPc; destruct (wpc w); lia)). lia.
  - destruct (loadDone l) eqn:Hd; [by exists [], l|]. destruct (load_progress l Hd) as (i & l1 & H1).
    destruct (loadStep_counted conc total i l l1 ltac:(lia) Ht C H1) as [C1 E1].
    destruct (IH l1 ltac:(lia) C1) as (sched & l' & Hr & Hd'). exists (i :: sched), l'. split; [|done].
    unfold runSchedule in *. cbn [foldl]. cbn [mbind option_bind]. by rewrite H1.
Qed.
End load.

(** ** The report *)

Lemma length_allLatencies rs : len (allLatencies rs) = sumBy (fun r => len (latencies r)) rs.
Proof.
  unfold allLatencies, len. rewrite (Permutation_length (merge_sort_Permutation Z.le _)).
  induction rs as [|r rs IH]; [done|]. cbn [mbind list_bind]. rewrite length_app.
  unfold sumBy in *. cbn [foldr]. rewrite <- IH. unfold mbind. lia.
Qed.

Lemma totalErrors_sum rs :
  Forall okResult rs -> sumBy attempts rs < 2 ^ 63 ->
  totalErrors rs = sumBy errors rs /\ 0 <= sumBy errors rs /\
  sumBy attempts rs = sumBy (fun r => len (latencies r)) rs + sumBy errors rs.
Proof.
  unfold totalErrors. induction rs as [|r rs IH] using rev_ind; intros HF Hlt; [done|].
  apply Forall_app in HF as [HF [Hr _]%Forall_cons]. rewrite foldl_app, !sumBy_snoc in *. cbn [foldl] in *. pose proof (attempts_nonneg r).
  destruct IH as (-> & H1 & H2); [done|lia|]. unfold attempts in *. pose proof (len_nonneg (latencies r)).
  pose proof (ok_errors r Hr).
  pose proof (sumBy_nonneg (fun r => len (latencies r)) rs ltac:(intros; apply len_nonneg)).
  rewrite wrap64_id by (unfold int64_ok; lia). lia.
Qed.

Lemma mergeStatuses_total m r :
  map_Forall (fun _ n => 0 <= n) m -> map_Forall (fun _ n => 0 <= n) (statuses r) ->
  statusTotal m + statusTotal (statuses r) < 2 ^ 63 ->
  map_Forall (fun _ n => 0 <= n) (mergeStatuses m r) /\
  statusTotal (mergeStatuses m r) = statusTotal m + statusTotal (statuses r).
Proof.
  intros Hm. unfold mergeStatuses. set (f := fun s n (m : gmap Z Z) => _).
  apply (map_fold_weak_ind (fun acc done =>
    map_Forall (fun _ n => 0 <= n) done -> statusTotal m + statusTotal done < 2 ^ 63 ->
    map_Forall (fun _ n => 0 <= n) acc /\ statusTotal acc = statusTotal m + statusTotal done)).
  - intros _ _. split; [done|]. change (statusTotal ∅) with 0. lia.
  - intros s n done acc Hs IH HF Hlt. rewrite statusTotal_insert in * by done.
    apply map_Forall_insert in HF as [Hn HF]; [|done]. destruct IH as [Ha E]; [done|lia|].
    assert (0 <= default 0 (acc !! s) <= statusTotal acc) as Hd.
    { destruct (acc !! s) as [k|] eqn:Ek; simpl; [|split; [lia|by apply statusTotal_nonneg]].
      split; [exact (Ha s k Ek)|]. rewrite (statusTotal_delete _ s k Ek).
      pose proof (statusTotal_nonneg (delete s acc) (map_Forall_delete _ _ _ Ha)). lia. }
    unfold f. rewrite wrap64_id by (unfold int64_ok; lia).
    split; [apply map_Forall_insert_2; [lia|done]|]. rewrite statusTotal_set. lia.
Qed.

Lemma mergeAll_total rs :
  Forall okResult rs -> sumBy (fun r => len (latencies r)) rs < 2 ^ 63 ->
  map_Forall (fun _ n => 0 <= n) (foldl mergeStatuses ∅ rs) /\
  statusTotal (foldl mergeStatuses ∅ rs) = sumBy (fun r => len (latencies r)) rs.
Proof.
  induction rs as [|r rs IH] using rev_ind; intros HF Hlt; [by split; [apply map_Forall_empty|]|].
  apply Forall_app in HF as [HF [Hr _]%Forall_cons]. rewrite foldl_app, sumBy_snoc in *. cbn [foldl].
  pose proof (len_nonneg (latencies r)). destruct IH as [Hm E]; [done|lia|].
  destruct (mergeStatuses_total (foldl mergeStatuses ∅ rs) r) as [Hm' E']; [done|apply Hr| |].
  - rewrite E, (ok_total r Hr). lia.
  - split; [done|]. rewrite E', E, (ok_total r Hr). lia.
Qed.

(** What the report says of a load whose workers are all done. *)
Lemma load_totals {E Conn : Type} `{@BenchNet E Conn} `{Clock E} `{GoRuntime} conc total elapsed (l : Load E Conn) :
  0 < conc -> total < 2 ^ 63 - 1 -> counted conc total l -> loadDone l = true ->
  let rep := report (wres <$> workers l) elapsed in
  completed rep + rerrors rep = Z.max 0 total /\ statusTotal (rstatuses rep) = completed rep.
Proof.
  intros Hc Ht C Hd rep.
  assert (attempted l = Z.max 0 total) as Ha.
  { assert (exchanging l = 0 /\ ended l = conc) as [Ex Ee].
    { rewrite <- (co_len _ _ _ C). unfold exchanging, ended, loadDone in *. clear -Hd.
      induction (workers l) as [|w ws IH]; [done|]. cbn [forallb] in Hd. apply andb_prop in Hd as [Hw Hd].
      destruct (IH Hd) as [E1 E2]. rewrite len_cons. unfold sumBy in *. cbn [foldr]. rewrite E1, E2.
      unfold isPc. destruct (wpc w); done || lia. }
    pose proof (co_end _ _ _ C). lia. }
  assert (attempted l = sumBy attempts (wres <$> workers l)) as Hat.
  { unfold attempted, sumBy. clear. induction (workers l) as [|w ws IH]; [done|]. cbn [fmap list_fmap foldr]. by rewrite IH. }
  assert (Forall okResult (wres <$> workers l)) as Hok by (apply Forall_fmap; apply C).
  destruct (totalErrors_sum _ Hok) as (He & He0 & Hsum); [lia|].
  subst rep. unfold report. cbn [completed rerrors rstatuses]. rewrite length_allLatencies, He. split; [lia|].
  apply mergeAll_total; [done|lia].
Qed.

(** C16: a load run fires exactly [total] requests.  However its workers are
    scheduled, a run takes at most [2 * total + conc] steps; until all are done
    some worker can step, and a completed run exists; and when all are done,
    every request is either a latency sample with its status or an error, so
    that the report's completions and errors add up to [total]. *)
Theorem runLoad_exact {E Conn : Type} `{@BenchNet E Conn} `{Clock E} `{GoRuntime}
    (hostport request : bytes) (keepAlive : bool) (conc total elapsed : Z) (st : E) (l0 l : Load E Conn)
    (sched : list nat) :
  0 < conc < 2 ^ 62 -> - 2 ^ 62 < total < 2 ^ 63 - 1 -> startLoad conc total st = Some l0 ->
  runSchedule hostport request keepAlive sched l0 = Some l ->
  let rep := report (wres <$> workers l) elapsed in
  len sched <= 2 * Z.max 0 total + conc /\
  (loadDone l = false -> exists i l', loadStep hostport request keepAlive i l = Some l') /\
  (exists sched' l', runSchedule hostport request keepAlive sched' l = Some l' /\ loadDone l' = true) /\
  (loadDone l = true ->
     len sched = 2 * Z.max 0 total + conc /\
     completed rep + rerrors rep = Z.max 0 total /\ statusTotal (rstatuses rep) = completed rep).
Proof.
  intros Hc Ht (_ & C0 & E0)%startLoad_counted Hr rep.
  destruct (runSchedule_counted hostport request keepAlive conc total sched l0 l ltac:(lia) Ht C0 Hr) as [C E1].
  assert (0 <= stepsLeft l) as Hs.
  { unfold stepsLeft. pose proof (sumBy_nonneg (fun w => isPc AtAdd w + 2 * isPc AtExchange w) (workers l)
      ltac:(intros w; unfold isPc; destruct (wpc w); lia)). lia. }
  split_and!; [lia|apply load_progress|by eapply load_completes|]. intros Hd.
  apply (stepsLeft_done conc total) in Hd as Hz; [|lia|done]. split; [lia|].
  by apply (load_totals conc total); [lia..| |].
Qed.

(** Percentiles never go out of range.  For every fraction, NaN and
    infinities included, [pct] picks one of the samples, 0 when there are
    none; [pct(1.0)] is the slowest of them. *)
Theorem pct_in_range `{GoRuntime} (rs : list result) (p : float) :
  (exists d, pct (allLatencies rs) p = Some d /\
     (rs ≫= latencies = [] -> d = 0) /\ (rs ≫= latencies <> [] -> d ∈ rs ≫= latencies)) /\
  (rs ≫= latencies <> [] -> len (rs ≫= latencies) < 2 ^ 53 ->
   exists m, pct (allLatencies rs) (ofInt 1) = Some m /\ Forall (fun d => d <= m) (rs ≫= latencies)).
Proof.
  unfold allLatencies. generalize (rs ≫= latencies). intros l.
  pose proof (merge_sort_Permutation Z.le l) as HP. pose proof (Sorted_merge_sort Z.le l) as HS.
  assert (len (merge_sort Z.le l) = len l) as El by (unfold len; by rewrite HP).
  split.
  - unfold pct. destruct (Z.eqb_spec (len (merge_sort Z.le l)) 0) as [E0|E0].
    + exists 0. split_and!; [done..|]. intros Hne. pose proof (len_pos l Hne). lia.
    + pose proof (len_nonneg (merge_sort Z.le l)). cbv zeta. set (x := wrap64 _).
      set (i := if x <? 0 then 0 else x). assert (0 <= i) by (unfold i; destruct (Z.ltb_spec x 0); lia).
      set (j := if _ <=? i then _ else i). assert (0 <= j < len (merge_sort Z.le l)) as Hj.
      { unfold j. destruct (Z.leb_spec (len (merge_sort Z.le l)) i); lia. }
      destruct (Z.ltb_spec j 0); [lia|]. destruct (merge_sort Z.le l !! Z.to_nat j) as [d|] eqn:Ed.
      * exists d. split_and!; [done|intros ->; by rewrite El in *|]. intros _. rewrite <- HP.
        by eapply list_elem_of_lookup_2.
      * apply lookup_ge_None in Ed. unfold len in Hj. lia.
  - intros Hne Hlt. pose proof (len_pos l Hne). unfold pct. rewrite El.
    destruct (Z.eqb_spec (len l) 0); [lia|]. cbv zeta.
    rewrite !ofInt_canon, fmul_canon, toInt_canon by lia. rewrite wrap64_id by (unfold int64_ok; lia).
    destruct (Z.ltb_spec (1 * len l - 1) 0); [lia|]. destruct (Z.leb_spec (len l) (1 * len l - 1)); [lia|].
    destruct (Z.ltb_spec (1 * len l - 1) 0); [lia|].
    assert (exists l' m, merge_sort Z.le l = l' ++ [m]) as (l' & m & E).
    { destruct (merge_sort Z.le l) as [|m l' _] using rev_ind; [|by exists l', m]. change (len (@nil Z)) with 0 in El. lia. }
    exists m. rewrite E in *. unfold len in *. rewrite length_app in El. cbn [length] in El.
    replace (Z.to_nat _) with (length l') by lia. split; [by rewrite list_lookup_middle|].
    rewrite <- HP. apply Forall_app. split; [|by constructor].
    apply Sorted_StronglySorted in HS; [|intros a b c; lia]. clear -HS.
    induction l' as [|a l' IH]; [constructor|]. cbn [app] in HS. apply StronglySorted_inv in HS as [HS HF].
    constructor; [|by apply IH]. apply Forall_app in HF as [_ HF]. by apply Forall_cons in HF as [? _].
Qed.

(** ** Runs *)

(** A network that answers every request with the same bytes. *)
Definition cannedNet (answer : bytes) : @BenchNet Z unit := {|
  benchDial _ _ st := (inl tt, st);
  benchSend _ _ st := (None, (answer, EOF), st);
  benchClose _ st := st;
|}.

Definition okAnswer : bytes := $"HTTP/1.1 200 OK" ++ CRLF ++ $"Content-Length: 2" ++ CRLF ++ CRLF ++ $"ok".
Definition helloRequest : bytes := buildRequest $"127.0.0.1:8080" $"/healthz" [].
Definition twoWorkers : list nat := [0; 1; 0; 1; 0; 0; 0; 1]%nat.
Definition threeStart : Load Z unit := mkLoad 3 [newWorker; newWorker] 0.

Definition twoAnswers : list (ResponseWriter * bool * Z) :=
  [(helloWriter, true, 0); (WriteHeader NewResponseWriter 304, true, 5)].

Lemma readResponse_serialize_witness :
  readResponses 2 (mkReader ((twoAnswers ≫= fun m => (serialize m.1.1 $"HTTP/1.1" m.1.2 m.2).2) ++ $"next") EOF 16) =
  ([inl 200; inl 304], mkReader $"next" EOF 16).
Proof.
  destruct fresh_clean as [HC HK].
  apply (readResponse_serialize twoAnswers $"next" EOF 16).
  repeat apply Forall_cons_2; [..|apply Forall_nil_2]; cbn [fst twoAnswers]; split_and!;
    solve [reflexivity | by vm_compute | vm_compute; congruence | apply wf_New | exact HC | exact HK].
Defined.

Lemma runLoad_exact_witness :
  exists l, @runSchedule Z unit (cannedNet okAnswer) ClockZ $"h" helloRequest true twoWorkers threeStart = Some l /\
    completed (@report exampleRuntime (wres <$> workers l) 5) + rerrors (@report exampleRuntime (wres <$> workers l) 5) = 3 /\
    completed (@report exampleRuntime (wres <$> workers l) 5) = 3.
Proof.
  eexists. split; [by vm_compute|]. split.
  - eapply (@runLoad_exact Z unit (cannedNet okAnswer) ClockZ exampleRuntime $"h" helloRequest true 2 3 5 0 threeStart
      _ twoWorkers).
    + vm_compute. split; congruence.
    + vm_compute. split; congruence.
    + by vm_compute.
    + by vm_compute.
    + by vm_compute.
  - by vm_compute.
Defined.

Lemma pct_in_range_witness :
  exists m, @pct exampleRuntime (allLatencies [mkResult [7; 3] ∅ 0; mkResult [5] ∅ 1]) (ofInt 1) = Some m /\
    Forall (fun d => d <= m) [7; 3; 5] /\ m = 7.
Proof.
  destruct (@pct_in_range exampleRuntime [mkResult [7; 3] ∅ 0; mkResult [5] ∅ 1] (ofInt 1)) as [_ (m & Hm & HF)].
  - done.
  - by vm_compute.
  - exists m. split; [exact Hm|]. split; [exact HF|]. vm_compute in Hm. congruence.
Defined.
