(* ===== verification/AppProps.v ===== *)
(** * Properties of the demo server

    The whole of [pulsehttp]: what any client gets from it, and who reaches the
    admin route. *)

From stdpp Require Import fin_maps.
From S2P Require Import Prelude.
From S2P Require Import GoStrings.
From S2P Require Import GoFloat.
From S2P Require Import GoIO.
From S2P Require Import GoTime.
From S2P Require Import Headers.
From S2P Require Import Status.
From S2P Require Import Request.
From S2P Require Import RequestFacts.
From S2P Require Import RequestRoundtrip.
From S2P Require Import Response.
From S2P Require Import Handler.
From S2P Require Import Middleware.
From S2P Require Import Router.
From S2P Require Import RateLimit.
From S2P Require Import Cache.
From S2P Require Import Metrics.
From S2P Require Import Proxy.
From S2P Require Import Server.
From S2P Require Import App.
From S2P Require Import Bench.
From S2P Require Import Examples.
From S2P Require Import MiddlewareProps.
From S2P Require Import RouterProps.
From S2P Require Import ServerProps.
From S2P Require Import Wire.
From S2P Require Import ProxyWire.
From S2P Require Import WellFormed.
From S2P Require Import BenchProps.
From Stdlib Require Import SpecFloat.

Section app.
Context {E Conn : Type} `{GoRuntime} `{Clock E} `{Entropy E} `{Sleeper E} `{Network E Conn}.

(** What is known of the environment: the runtime keeps it and so does, in proxy
    mode, the network, whose answers can be relayed. *)
Record envOk (J : E -> Prop) (f : Flags) : Prop := {
  en_clock e : J e -> J (timeNow e).2;
  en_rand n e : J e -> J (randRead n e).2;
  en_sleep d e : J e -> J (sleep d e);
  en_dial a d e : beq (fMode f) $"proxy" = true -> J e -> J (netDial a d e).2;
  en_close c e : beq (fMode f) $"proxy" = true -> J e -> J (netClose c e);
  en_exchange c b e : beq (fMode f) $"proxy" = true -> J e ->
    J (netExchange c b e).2 /\ cleanAnswer (netExchange c b e).1.2;
}.

(** Nothing needs to be known of it when nothing is relayed. *)
Lemma envOk_direct f : beq (fMode f) $"proxy" = false -> envOk (fun _ => True) f.
Proof. intros Hf. constructor; congruence || done. Qed.

(** The part of the world responses are taken from: what the cache holds, the
    addresses [X-Upstream] names and the environment. *)
Definition worldOk (J : E -> Prop) (st : World E Conn) : Prop :=
  cacheOk (rcache st) /\ poolOk (upool st) /\ J (env st).

Lemma worldOk_main (J : E -> Prop) f e :
  Forall cleanValue (Split (fUpstreams f) comma) -> J (timeNow e).2 -> worldOk J (mainWorld f e).
Proof.
  unfold mainWorld. destruct (timeNow e) as [now e']. intros HF HJ. split_and!; [apply map_Forall_empty| |done]. split; [|by vm_compute].
  cbn [upool NewPool ups]. by apply Forall_fmap.
Qed.

Section keeping.
Variable hd : bool -> Prop.    (* what is known of the writer's HEAD flag *)
Variable Q : Headers -> bytes -> Prop.    (* what is known of the request *)
Variable J : E -> Prop.
Variable f : Flags.
Hypothesis HE : envOk J f.

#[local] Abbreviation worldOk := (worldOk J).

Lemma worldOk_env e st : worldOk st -> J e -> worldOk (withEnv e st).
Proof. by intros (? & ? & _) ?. Qed.

Lemma worldOk_clock st : worldOk st -> worldOk (timeNow st).2.
Proof.
  intros Hst. pose proof (en_clock _ _ HE _ (proj2 (proj2 Hst))) as HJ. unfold timeNow, world_clock.
  destruct (timeNow (env st)). by apply worldOk_env.
Qed.

Lemma worldOk_rand n st : worldOk st -> worldOk (randRead n st).2.
Proof.
  intros Hst. pose proof (en_rand _ _ HE n _ (proj2 (proj2 Hst))) as HJ. unfold randRead, world_entropy.
  destruct (randRead n (env st)). by apply worldOk_env.
Qed.

Lemma worldOk_sleep d st : worldOk st -> worldOk (sleep d st).
Proof. intros Hst. apply worldOk_env; [done|]. by apply (en_sleep _ _ HE), Hst. Qed.

Lemma routes_keep :
  Forall (fun rt : route (World E Conn) => keeps worldOk hd Q (handler rt) /\ plainMethod (method rt)) (routes apiRouter).
Proof.
  assert (forall m, bool_decide (plainMethod m) = true -> plainMethod m) as Hm by (intros m; apply bool_decide_eq_true_1).
  assert (keeps worldOk hd Q (MetricsHandler (W := World E Conn))) as HM by (apply keeps_MetricsHandler; apply worldOk_clock).
  assert (forall req w s p, (200 <=? s) && (s <? 600) = true -> reqOk req -> respOk hd w -> respOk hd (JSON w s p)) as HJ.
  { intros req w s p [?%Z.leb_le ?%Z.ltb_lt]%andb_prop _ Hw. by apply respOk_JSON. }
  repeat (apply Forall_cons; split); try (by apply Forall_nil); cbn [handler method];
    (split; [|by apply Hm; vm_compute]); try exact HM.
  - apply keeps_respond. intros. by eapply HJ.
  - apply keeps_respond. intros. by eapply HJ.
  - apply keeps_respond. intros req w ? ?. destruct (Atoi _) as [id []]; [apply respOk_Error; [done|by vm_compute]|by eapply HJ].
  - apply keeps_respond. intros req w [_ HC] Hw. apply respOk_Write, respOk_WriteHeader; [|by vm_compute].
    apply respOk_set; [done|clean_name|by apply Get_clean].
  - apply keeps_respond. intros. by eapply HJ.
  - intros x Hx. unfold slowHandler. cbv zeta. apply keeps_respond; [intros; by eapply HJ|].
    apply exchOk_withSt; [done|apply worldOk_sleep, Hx].
  - apply keeps_respond. intros. by eapply HJ.
  - intros x Hx. exact Hx.
Qed.

Lemma buildAPI_keeps : keeps worldOk hd Q (buildAPI (W := World E Conn)).
Proof.
  apply keeps_Serve; [apply routes_keep|]. apply keeps_respond. intros. apply respOk_Error; [done|by vm_compute].
Qed.

Section network.
Hypothesis Em : beq (fMode f) $"proxy" = true.

Lemma worldOk_dial a d st : worldOk st -> worldOk (netDial a d st).2.
Proof.
  intros Hst. pose proof (en_dial _ _ HE a d _ Em (proj2 (proj2 Hst))) as HJ. cbn.
  destruct (netDial a d (env st)). by apply worldOk_env.
Qed.

Lemma worldOk_close c st : worldOk st -> worldOk (netClose c st).
Proof. intros Hst. apply worldOk_env; [done|]. by apply (en_close _ _ HE), Hst. Qed.

Lemma worldOk_exchange c b st : worldOk st -> worldOk (netExchange c b st).2 /\ cleanAnswer (netExchange c b st).1.2.
Proof.
  intros Hst. destruct (en_exchange _ _ HE c b _ Em (proj2 (proj2 Hst))) as [HJ Ha]. cbn.
  destruct (netExchange c b (env st)). split; [by apply worldOk_env|done].
Qed.

Lemma worldOk_pool p st : worldOk st -> poolOk p -> worldOk (put p st).
Proof. by intros (? & _ & ?). Qed.

Lemma proxy_keeps : keeps worldOk hd Q (ProxyHandler (W := World E Conn)).
Proof.
  apply keeps_Proxy;
    [by intros st (_ & ? & _)|apply worldOk_pool|apply worldOk_dial|apply worldOk_close|apply worldOk_exchange].
Qed.

Lemma proxy_small :
  (forall e, len (errText (W := E) e) < 2 ^ 61) -> keepsSmall worldOk hd Q (ProxyHandler (W := World E Conn)).
Proof.
  intros He. split; [apply proxy_keeps|]. intros x Hx. apply (ProxyHandler_small worldOk hd Q); try done.
  - by intros st (_ & ? & _).
  - apply worldOk_pool.
  - apply worldOk_dial.
  - apply worldOk_close.
  - apply worldOk_exchange.
Qed.
End network.

Lemma metrics_keeps h : keeps worldOk hd Q h -> keeps worldOk hd Q (MetricsMiddleware (W := World E Conn) h).
Proof. intros. by apply keeps_Metrics; [apply worldOk_clock| |]. Qed.

Lemma logging_keeps h : keeps worldOk hd Q h -> keeps worldOk hd Q (Logging (W := World E Conn) h).
Proof. intros. by apply keeps_Logging; [apply worldOk_clock| |]. Qed.

Lemma requestID_keeps h : keeps worldOk hd Q h -> keeps worldOk hd Q (RequestID (W := World E Conn) h).
Proof. intros. by apply keeps_RequestID; [apply worldOk_rand|]. Qed.

Lemma main_keeps : keeps worldOk hd Q (mainHandler f).
Proof.
  unfold mainHandler. apply Chain_keeps.
  { destruct (beq (fMode f) $"proxy") eqn:Em; [by apply proxy_keeps|apply buildAPI_keeps]. }
  pose proof metrics_keeps as K1. pose proof logging_keeps as K2. pose proof requestID_keeps as K3.
  pose proof (keeps_Recover worldOk hd Q) as K4.
  assert (forall h, keeps worldOk hd Q h -> keeps worldOk hd Q (RateLimit (W := World E Conn) (limiterConfig f) h)) as K5
    by (intros; by apply keeps_RateLimit; [apply worldOk_clock| |]).
  assert (forall h, keeps worldOk hd Q h -> keeps worldOk hd Q (BearerAuth (W := World E Conn) demoAuth h)) as K6
    by (intros; by apply keeps_BearerAuth).
  assert (forall h, keeps worldOk hd Q h -> keeps worldOk hd Q (CacheMiddleware (W := World E Conn) h)) as K7
    by (intros; apply keeps_Cache; [apply worldOk_clock|by intros st []|by intros c st []|done]).
  unfold mainMiddlewares. cbv zeta. destruct (fQuiet f), (rateOn f), (beq (fMode f) $"server"), (0 <? fCacheCap f);
    cbn [app]; repeat (apply Forall_cons; split); done || by apply Forall_nil.
Qed.

(** A load balancer that does not limit the rate answers within a Go [int]. *)
Lemma main_small :
  beq (fMode f) $"proxy" = true -> rateOn f = false -> (forall e, len (errText (W := E) e) < 2 ^ 61) ->
  keepsSmall worldOk hd Q (mainHandler f).
Proof.
  intros Em Er He. unfold mainHandler. rewrite Em. apply (Chain_keeps (keepsSmall worldOk hd Q)); [by apply proxy_small|].
  assert (beq (fMode f) $"server" = false) as Es.
  { unfold beq in *. apply bool_decide_eq_true in Em as ->. by vm_compute. }
  unfold mainMiddlewares. cbv zeta. rewrite Er, Es.
  pose proof (fun h => keepsSmall_around worldOk hd Q _ h around_Metrics metrics_keeps) as K1.
  pose proof (fun h => keepsSmall_around worldOk hd Q _ h around_Logging logging_keeps) as K2.
  pose proof (fun h => keepsSmall_around worldOk hd Q _ h around_RequestID requestID_keeps) as K3.
  pose proof (keepsSmall_Recover worldOk hd Q) as K4.
  destruct (fQuiet f); cbn [app]; repeat (apply Forall_cons; split); done || by apply Forall_nil.
Qed.

End keeping.

(** C3: every answer is one well-formed message.  Whatever bytes a client sends
    the demo server, and for every setting of its flags (in proxy mode, over
    a network whose answers have a status and header lines that can be relayed),
    what it receives is a sequence of serialized responses, one per request
    served and one for a request that does not parse, whose header names are not
    empty and hold no colon, space, tab or line feed and whose values hold no
    line feed and no surrounding space, so that a client that reads one of them
    (not an answer to HEAD) gets its status and stops exactly at its end.  The
    cache keeps only such values. *)
Theorem main_serves_messages (J : E -> Prop) (f : Flags) (addr : bytes) (drain : Z -> bool * bool)
    (input : bytes) (e : ioerr) (st : World E Conn) :
  envOk J f -> worldOk J st ->
  let r := serveConn (mainConfig f) addr drain input e (mkWriter [] None) st in
  exists ms, sent (connOut r) = ms ≫= message /\ len ms = connServed r + answeredError r /\
    worldOk J (connSt r) /\
    forall m, m ∈ ms ->
      respOk (fun _ => True) m.1.1 /\
      (isHead m.1.1 = false -> len (body m.1.1) < 2 ^ 63 -> forall more e b,
         readResponse (mkReader (message m ++ more) e b) = (inl (status m.1.1), mkReader more e b)).
Proof.
  intros Hm Hst r.
  destruct (serveLoop_messages (worldOk J) (fun _ => True) (fun _ _ => True) (worldOk_clock J f Hm) (mainConfig f) addr drain (S (length input)) 0
    (connReader input e) (mkWriter [] None) st) as [(ms & HF & Hs & Hl) Hw].
  - exact sane_DefaultLimits.
  - apply main_keeps, Hm.
  - done.
  - done.
  - apply connReader_ok.
  - done.
  - done.
  - exists ms. split_and!; [exact Hs|rewrite Hl; unfold r, serveConn; lia|exact Hw|].
    intros m Hin. rewrite Forall_forall in HF. pose proof (HF m Hin) as Ho. split; [done|].
    intros Hh Hlen more e0 b0. apply readResponse_wire; try done; [pose proof (ro_status _ _ Ho); lia|apply Ho..].
Qed.

(** ** The admin route *)

(** C36: who reads the metrics of [/admin/stats].  A path below [/admin/] is
    refused, 401 or 403, unless the request presents the admin token; but the
    router ignores surrounding slashes and the role check does not, so a path
    such as [//admin/stats] that only the router takes for the admin route is
    answered to anyone. *)
Theorem admin_stats_access (x : Exch (World E Conn)) :
  hijacked (xw x) = false -> Method (xreq x) = $"GET" ->
  (HasPrefix (Path (xreq x)) $"/admin/" = true ->
   (forall tok, presents (ReqHeaders (xreq x)) tok -> App.demoTokens !! tok <> Some RoleAdmin) ->
   exists s, (s = StatusUnauthorized \/ s = StatusForbidden) /\ refused x (BearerAuth demoAuth buildAPI x) s) /\
  (splitPath (Path (xreq x)) = [$"admin"; $"stats"] -> demoRole (Path (xreq x)) = RoleAnonymous ->
   BearerAuth demoAuth buildAPI x = MetricsHandler (onReq (setPathParams ∅) x)).
Proof.
  intros Hh HM. split.
  - intros Hp Htok. assert (demoRole (Path (xreq x)) = RoleAdmin) as Hr by (unfold demoRole; by rewrite Hp).
    destruct (BearerAuth_cases demoAuth buildAPI x Hh) as [[Hn _]|[(_ & tok & role & Hpr & Ht & Hle & _)|
      [(_ & tok & role & _ & _ & _ & Href & _)|(_ & _ & Href & _)]]]; cbn [RequiredRole Tokens demoAuth] in *.
    + by rewrite Hr in Hn.
    + rewrite Hr in Hle. exfalso. apply (Htok tok Hpr). rewrite Ht. f_equal. revert Ht Hle. unfold App.demoTokens, RoleAdmin.
      intros [[_ <-]|[_ [[_ <-]|[_ Ht]]%lookup_insert_Some]]%lookup_insert_Some Hle;
        [unfold RoleUser in Hle; lia|done|by rewrite lookup_empty in Ht].
    + exists StatusForbidden. auto.
    + exists StatusUnauthorized. auto.
  - intros Hsp Hr. unfold BearerAuth. cbn [RequiredRole demoAuth]. rewrite Hr. cbv zeta.
    change (RoleAnonymous =? RoleAnonymous) with true. cbv iota. unfold buildAPI, Serve. cbv zeta. rewrite Hsp, HM.
    reflexivity.
Qed.
End app.

(** ** Runs of a small server *)

#[local] Instance demoEntropy : Entropy Z := fun n e => (replicate (Z.to_nat n) "A"%char, e).
#[local] Instance demoSleeper : Sleeper Z := fun d e => e + d.
#[local] Instance deadNet : @Network Z unit := {|
  netDial _ _ e := (inr NetFailure, e);
  netExchange _ _ e := (Some NetFailure, mkReader [] NetFailure 1, e);
  netClose _ e := e;
  errText _ := [];
|}.
#[local] Existing Instance exampleRuntime.

Definition demoFlags (mode : bytes) : Flags :=
  mkFlags $":8080" mode [] $"round-robin" (ofInt 0) (ofInt 0) 1024 (30 * Second) true None.

Definition getLines (target : bytes) : bytes :=
  $"GET " ++ target ++ $" HTTP/1.1" ++ CRLF ++ $"Host: h" ++ CRLF ++ CRLF.

Definition demoConn (mode target : bytes) : @connResult (World Z unit) :=
  serveConn (mainConfig (demoFlags mode)) $"1.2.3.4:5" (fun _ => (false, false)) (getLines target) EOF
    (mkWriter [] None) (mainWorld (demoFlags mode) 0).

(** The status line of the answer. *)
Definition firstLine (s : bytes) : bytes := (Cut s cr).1.1.

(** The role check of [main] guards the path as written, and only in the mode
    called "server". *)
Example demo_answers :
  firstLine (sent (connOut (demoConn $"server" $"/healthz"))) = $"HTTP/1.1 200 OK" /\
  firstLine (sent (connOut (demoConn $"server" $"/admin/stats"))) = $"HTTP/1.1 401 Unauthorized" /\
  firstLine (sent (connOut (demoConn $"server" $"//admin/stats"))) = $"HTTP/1.1 200 OK" /\
  firstLine (sent (connOut (demoConn $"Server" $"/admin/stats"))) = $"HTTP/1.1 200 OK".
Proof. split_and!; by vm_compute. Qed.

Lemma main_serves_messages_witness :
  exists ms, sent (connOut (demoConn $"server" $"/healthz")) = ms ≫= message /\ len ms = 1.
Proof.
  destruct (main_serves_messages (E := Z) (Conn := unit) (fun _ => True) (demoFlags $"server") $"1.2.3.4:5" (fun _ => (false, false))
    (getLines $"/healthz") EOF (mainWorld (demoFlags $"server") 0)) as (ms & Hs & Hl & _).
  - by apply envOk_direct.
  - apply worldOk_main; [|done]. constructor; [apply clean_nil|constructor].
  - exists ms. split; [exact Hs|]. rewrite Hl. by vm_compute.
Defined.

Definition adminRequest : Request :=
  match (ParseRequest DefaultLimits $"1.2.3.4:5" (mkReader (getLines $"//admin/stats") EOF 16)).1 with
  | Ret req => req
  | _ => mkRequest [] [] [] [] ∅ NewHeaders [] [] ∅ ∅
  end.

Definition adminExch : Exch (World Z unit) :=
  mkExch adminRequest NewResponseWriter (mainWorld (demoFlags $"server") 0).

Lemma admin_stats_access_witness :
  BearerAuth demoAuth buildAPI adminExch = MetricsHandler (onReq (setPathParams ∅) adminExch) /\
  status (xw (BearerAuth demoAuth buildAPI adminExch).2) = 200.
Proof.
  split; [|by vm_compute].
  apply (admin_stats_access (E := Z) (Conn := unit) adminExch).
  - reflexivity.
  - by vm_compute.
  - by vm_compute.
  - by vm_compute.
Defined.
