(* ===== verification/Process.v ===== *)
(** * cmd/pulsehttp/main.go: the process

    [main] in [ListenAndServe], the goroutine that waits for a signal and calls
    [Shutdown], and the server's own goroutines, until [main] returns or calls
    [os.Exit]: then they all end where they are.  The context of ten seconds
    and the grace period are one event of the server, [GraceOver]. *)

From stdpp Require Import relations fin_maps.
From S2P Require Import Prelude.
From S2P Require Import GoStrings.
From S2P Require Import GoFloat.
From S2P Require Import GoIO.
From S2P Require Import GoTime.
From S2P Require Import GoJSON.
From S2P Require Import Request.
From S2P Require Import Handler.
From S2P Require Import Middleware.
From S2P Require Import RateLimit.
From S2P Require Import Metrics.
From S2P Require Import Proxy.
From S2P Require Import Server.
From S2P Require Import ServerLife.
From S2P Require Import App.
From S2P Require Import Examples.
From S2P Require Import ServerLifeProps.
From S2P Require Import AppProps.

(** The calls [main] defers. *)
Inductive deferredCall := StopPool | StopLimiter.

Inductive mainPc :=
| InServe                        (* in [srv.ListenAndServe] *)
| InDefers (ds : list deferredCall)
| Exited (code : Z).

(** The goroutine behind [signal.Notify]. *)
Inductive signalPc := AwaitSignal | InShutdown.

#[global] Instance deferredCall_eq_dec : EqDecision deferredCall.
Proof. solve_decision. Defined.
#[global] Instance signalPc_eq_dec : EqDecision signalPc.
Proof. solve_decision. Defined.

Section process.
Context {E Conn : Type} `{GoRuntime} `{Clock E} `{Entropy E} `{Sleeper E} `{Network E Conn}.
Variable f : Flags.

(** In the order of the [defer] statements. *)
Definition mainDefers : list deferredCall :=
  (if beq (fMode f) $"proxy" then [StopPool] else []) ++ (if rateOn f then [StopLimiter] else []).

(** Stopping the limiter ends the ticks of its janitor. *)
Definition runDeferred (d : deferredCall) (st : World E Conn) : World E Conn :=
  match d with StopPool => Proxy.Stop st | StopLimiter => st end.

Record Process := mkProcess {
  sys : System;
  mainAt : mainPc;
  signalAt : signalPc;
  pst : World E Conn;
}.

(** [SysEvent e st]: a move of the server and the world its handlers left. *)
Inductive pevent :=
| SysEvent (e : event) (st : World E Conn)
| SignalArrives
| MainGo.

(** [main] after [ListenAndServe]; [os.Exit] runs no deferred call. *)
Definition mainGo (p : Process) : option Process :=
  match mainAt p, loop (sys p) with
  | InServe, LoopReturned (Some _) => Some (mkProcess (sys p) (Exited 1) (signalAt p) (pst p))
  | InServe, LoopReturned None => Some (mkProcess (sys p) (InDefers (reverse mainDefers)) (signalAt p) (pst p))
  | InDefers (d :: ds), _ => Some (mkProcess (sys p) (InDefers ds) (signalAt p) (runDeferred d (pst p)))
  | InDefers [], _ => Some (mkProcess (sys p) (Exited 0) (signalAt p) (pst p))
  | _, _ => None
  end.

Definition isCall (e : event) : bool := match e with ShutdownCall => true | _ => false end.

Definition serverMove (e : event) (sig : signalPc) (st : World E Conn) (p : Process) : option Process :=
  (fun s => mkProcess s (mainAt p) sig st) <$> exec (mainConfig (E := E) (Conn := Conn) f) e (sys p).

(** One move of the process; [Shutdown] is the signal's goroutine's to call. *)
Definition pexec (e : pevent) (p : Process) : option Process :=
  match mainAt p, e with
  | Exited _, _ => None
  | _, SysEvent e st => if isCall e then None else serverMove e (signalAt p) st p
  | _, SignalArrives =>
    match signalAt p with
    | AwaitSignal => serverMove ShutdownCall InShutdown (pst p) p
    | InShutdown => None
    end
  | _, MainGo => mainGo p
  end.

Definition pstep (p p' : Process) : Prop := exists e, pexec e p = Some p'.

Definition prun (es : list pevent) (p : Process) : option Process :=
  foldl (fun o e => p ← o; pexec e p) (Some p) es.

(** What [main] starts, or the status it exits with at once. *)
Definition mainProcess (e : E) : Z + Process :=
  match mainStart (Conn := Conn) f e with
  | inl code => inl code
  | inr (c, st) => inr (mkProcess (initSystem (Addr c)) InServe AwaitSignal st)
  end.

Definition preachable (p : Process) : Prop :=
  exists e p0, mainProcess e = inr p0 /\ rtc pstep p0 p.

Lemma prun_rtc es p p' : prun es p = Some p' -> rtc pstep p p'.
Proof.
  unfold prun. revert p p'. induction es as [|e es IH] using rev_ind; intros p p'; [by intros [= <-]|].
  rewrite foldl_app. cbn [foldl]. intros (p1 & Hl & He)%bind_Some. eapply rtc_r; [by apply IH|]. by exists e.
Qed.

Lemma prun_cons e es p : prun (e :: es) p = (p' ← pexec e p; prun es p').
Proof.
  unfold prun. cbn [foldl mbind option_bind]. destruct (pexec e p); [done|]. cbn. by induction es.
Qed.

(** A move is one of the server's or one of [main]. *)
Lemma pexec_cases e p p' : pexec e p = Some p' ->
  (forall code, mainAt p <> Exited code) /\
  ((exists e0, exec (mainConfig (E := E) (Conn := Conn) f) e0 (sys p) = Some (sys p') /\ mainAt p' = mainAt p /\
      signalAt p' = if isCall e0 then InShutdown else signalAt p) \/
   mainGo p = Some p' /\ sys p' = sys p /\ signalAt p' = signalAt p).
Proof.
  assert (forall e0 sig st, serverMove e0 sig st p = Some p' -> sig = (if isCall e0 then InShutdown else signalAt p) ->
    exists e0, exec (mainConfig (E := E) (Conn := Conn) f) e0 (sys p) = Some (sys p') /\ mainAt p' = mainAt p /\
      signalAt p' = if isCall e0 then InShutdown else signalAt p) as Hm.
  { unfold serverMove. intros e0 sig st (s & Hs & ->)%fmap_Some ->. by exists e0. }
  assert (mainGo p = Some p' -> sys p' = sys p /\ signalAt p' = signalAt p) as Hg.
  { unfold mainGo. intros Hp. by repeat case_match; simplify_eq/=. }
  intros He. split; [intros code Em; unfold pexec in He; by rewrite Em in He|]. unfold pexec in He. destruct e as [e st| |].
  - left. assert (isCall e = false /\ serverMove e (signalAt p) st p = Some p') as [Ec Hs]
      by (destruct (mainAt p), (isCall e); done).
    eapply Hm; [exact Hs|by rewrite Ec].
  - left. apply (Hm ShutdownCall InShutdown (pst p)); [|done]. by destruct (mainAt p), (signalAt p).
  - right. assert (mainGo p = Some p') as Hs by (by destruct (mainAt p)). split; [done|by apply Hg].
Qed.

Lemma pstep_sys p p' : pstep p p' -> rtc (step (mainConfig (E := E) (Conn := Conn) f)) (sys p) (sys p').
Proof.
  intros [e [_ [(e0 & He & _)|(_ & -> & _)]]%pexec_cases]; [|done]. by eapply rtc_once, exec_step.
Qed.

Lemma preachable_sys p : preachable p -> reachable (mainConfig (E := E) (Conn := Conn) f) (sys p).
Proof.
  intros (e & p0 & Hp & Hr). unfold mainProcess, mainStart in Hp. repeat case_match; simplify_eq/=.
  unfold reachable. remember (mkProcess _ _ _ _) as q eqn:Eq.
  assert (sys q = initSystem (Addr (mainConfig (E := E) (Conn := Conn) f))) as <- by (by subst).
  clear Eq. induction Hr as [|? ? ? Hst _ IH]; [done|]. etrans; [by apply pstep_sys|done].
Qed.

(** How [main] and the signal's goroutine stand to the server. *)
Record processOk (p : Process) : Prop := {
  ok_signal : signalAt p = AwaitSignal <-> shut (sys p) = NotCalled;
  ok_main : match mainAt p with
            | InServe => True
            | InDefers _ => loop (sys p) = LoopReturned None
            | Exited code => exists err, loop (sys p) = LoopReturned err /\ code = match err with Some _ => 1 | None => 0 end
            end;
}.

Lemma exec_shut {W : Type} (c : Config W) e s s' :
  exec c e s = Some s' -> (shut s' = NotCalled <-> shut s = NotCalled /\ isCall e = false).
Proof.
  destruct e; cbn [exec isCall]; unfold connStep, loopGo, acceptStep, shutdownGo; intros He;
    repeat case_match; simplify_eq/=; try naive_solver;
    apply fmap_Some in He as (? & _ & ->); naive_solver.
Qed.

Lemma step_returned {W : Type} (c : Config W) s s' err :
  step c s s' -> loop s = LoopReturned err -> loop s' = LoopReturned err.
Proof. intros [] ?; cbn; congruence. Qed.

Lemma processOk_step p p' : processOk p -> pstep p p' -> processOk p'.
Proof.
  intros [Hs Hm] [e [Hl [(e0 & He & Em & Es)|(Hg & Ey & Es)]]%pexec_cases].
  - pose proof (exec_step _ _ _ _ He) as Hst. split.
    + rewrite Es, (exec_shut _ _ _ _ He), <- Hs. destruct (isCall e0); naive_solver.
    + rewrite Em. destruct (mainAt p) as [|ds|code]; [done|by eapply step_returned|].
      destruct Hm as (err & Hm & ->). exists err. split; [by eapply step_returned|done].
  - split; [by rewrite Es, Ey|]. unfold mainGo in Hg.
    destruct (mainAt p) as [|[|d ds]|code] eqn:Em; [|..|naive_solver].
    + destruct (loop (sys p)) as [| | | | | | | |[err|]] eqn:El; simplify_eq/=; [by exists (Some err)|done].
    + simplify_eq/=. by exists None.
    + by simplify_eq/=.
Qed.

Lemma preachable_ok p : preachable p -> processOk p.
Proof.
  intros (e & p0 & Hp & Hr). unfold mainProcess in Hp. destruct (mainStart f e) as [code|[c st]]; simplify_eq.
  revert p Hr. apply (rtc_ind_r processOk); [by constructor|]. intros. by eapply processOk_step.
Qed.

Lemma runDefers (ds : list deferredCall) p :
  mainAt p = InDefers ds ->
  exists p', prun (replicate (S (length ds)) MainGo) p = Some p' /\ mainAt p' = Exited 0 /\ sys p' = sys p.
Proof.
  revert p. induction ds as [|d ds IH]; intros p Em; cbn [replicate length]; rewrite prun_cons; unfold pexec, mainGo; rewrite Em; cbn.
  - by eexists.
  - destruct (IH (mkProcess (sys p) (InDefers ds) (signalAt p) (runDeferred d (pst p))) eq_refl) as (p' & Hp & ? & ?).
    by exists p'.
Qed.

(** ** Properties *)

(** The exit status of the process.  It ends with 0 only once a signal arrived
    and [ListenAndServe] returned nil, and with 1 only when [ListenAndServe]
    failed.  Nothing moves after that. *)
Theorem exit_status (p : Process) (code : Z) :
  preachable p -> mainAt p = Exited code ->
  ((code = 0 /\ loop (sys p) = LoopReturned None /\ signalAt p = InShutdown /\ draining (srv (sys p)) = true) \/
   (code = 1 /\ exists err, loop (sys p) = LoopReturned (Some err))) /\
  (forall e, pexec e p = None).
Proof.
  intros Hp Em. destruct (preachable_ok p Hp) as [Hs Hm]. rewrite Em in Hm.
  destruct (reachable_inv _ _ (preachable_sys p Hp)) as [_ P].
  split; [|intros e; unfold pexec; by rewrite Em].
  destruct Hm as ([err|] & Hl & ->); [right; eauto|left]. pose proof (pro_nil _ P Hl) as Hd.
  split_and!; try done. pose proof (pro_draining _ P) as Hd'. destruct (signalAt p); [|done].
  rewrite (proj1 Hs eq_refl) in Hd'. congruence.
Qed.

(** C31: the process does not wait for the drain.  From every state in which [main]
    accepts and [Shutdown] has closed the listener, whatever requests are being
    read, handled or answered, [main] can exit with status 0 before any of the
    connections moves again and before [Shutdown] returns. *)
Theorem exit_abandons (p : Process) :
  preachable p -> mainAt p = InServe -> loop (sys p) = AtAccept -> lnClosed (sys p) = true ->
  exists p', rtc pstep p p' /\ mainAt p' = Exited 0 /\
    goroutines (sys p') = goroutines (sys p) /\ shut (sys p') = shut (sys p) /\ forall e, pexec e p' = None.
Proof.
  intros Hp Em El Hc. destruct (reachable_inv _ _ (preachable_sys p Hp)) as [_ P].
  assert (draining (srv (sys p)) = true) as Hd.
  { rewrite (pro_draining _ P). destruct (pro_closed _ P Hc) as (_ & ? & _). by destruct (shut (sys p)). }
  set (p1 := mkProcess (atLoop (LoopReturned None) (sys p)) InServe (signalAt p) (pst p)).
  set (p2 := mkProcess (sys p1) (InDefers (reverse mainDefers)) (signalAt p) (pst p)).
  destruct (runDefers (reverse mainDefers) p2 eq_refl) as (p' & Hr & Hx & Hy). exists p'. split_and!; [|done|by rewrite Hy..|].
  - apply (prun_rtc (SysEvent (NetAccept AcceptFailed) (pst p) :: MainGo :: replicate (S (length (reverse mainDefers))) MainGo)).
    rewrite prun_cons. unfold pexec at 1. rewrite Em. cbn [isCall]. unfold serverMove. cbn [exec]. rewrite El. cbn [acceptStep].
    rewrite Hd, Em. cbn [fmap option_fmap option_map mbind option_bind]. rewrite prun_cons. exact Hr.
  - intros e. unfold pexec. by rewrite Hx.
Qed.
End process.

(** ** A process to run *)

#[local] Existing Instance exampleRuntime.
#[local] Existing Instances demoEntropy demoSleeper deadNet.

Definition demoWorldOf : World Z unit := mainWorld (demoFlags $"server") 0.

Definition demoProcess : Process := mkProcess (initSystem (Addr (mainConfig (E := Z) (Conn := unit) (demoFlags $"server")))) InServe AwaitSignal demoWorldOf.

(** A request is being handled when the signal comes; [Shutdown] closes the
    listener and waits. *)
Definition signalled : list pevent :=
  ((fun e => SysEvent e demoWorldOf) <$> bindEvents ++ acceptEvents ++ readEvents) ++
  [SignalArrives; SysEvent ShutdownGo demoWorldOf; SysEvent ShutdownGo demoWorldOf].

Definition signalledProcess : Process := default demoProcess (prun (demoFlags $"server") signalled demoProcess).

Lemma signalled_reachable : preachable (demoFlags $"server") signalledProcess.
Proof.
  exists 0, demoProcess. split; [by vm_compute|]. apply (prun_rtc (demoFlags $"server") signalled).
  assert (is_Some (prun (demoFlags $"server") signalled demoProcess)) as [p Hp] by (vm_compute; by eexists).
  unfold signalledProcess. by rewrite Hp.
Qed.

Lemma exit_abandons_witness :
  handling (sys signalledProcess) = true /\
  exists p', rtc (pstep (demoFlags $"server")) signalledProcess p' /\ mainAt p' = Exited 0 /\
    goroutines (sys p') = goroutines (sys signalledProcess).
Proof.
  split; [by vm_compute|].
  destruct (exit_abandons (E := Z) (Conn := unit) (demoFlags $"server") signalledProcess signalled_reachable)
    as (p' & Hr & Hx & Hg & _); [by vm_compute..|].
  exists p'. by split_and!.
Defined.

(** A key pair that does not load, and an address that cannot be bound. *)
Example exits :
  mainProcess (Conn := unit) (mkFlags $":8080" $"server" [] [] (ofInt 0) (ofInt 0) 0 0 true (Some false)) 0 = inl 2 /\
  (mainAt <$> prun (demoFlags $"server") [SysEvent (NetListen None) demoWorldOf; MainGo] demoProcess) = Some (Exited 1).
Proof. split; by vm_compute. Qed.
