(* ===== verification/LoadTest.v ===== *)
(** * The load generator against the server

    The request [pulsebench] builds is one the server's parser accepts, and a
    load against the server, connections and all, ends without an error. *)

From stdpp Require Import fin_maps.
From S2P Require Import Prelude.
From S2P Require Import GoStrings.
From S2P Require Import GoFloat.
From S2P Require Import GoIO.
From S2P Require Import GoURL.
From S2P Require Import GoTime.
From S2P Require Import Headers.
From S2P Require Import Status.
From S2P Require Import Request.
From S2P Require Import RequestFacts.
From S2P Require Import RequestRoundtrip.
From S2P Require Import Response.
From S2P Require Import Handler.
From S2P Require Import Middleware.
From S2P Require Import Router.
From S2P Require Import RateLimit.
From S2P Require Import Cache.
From S2P Require Import Metrics.
From S2P Require Import Proxy.
From S2P Require Import Server.
From S2P Require Import App.
From S2P Require Import Bench.
From S2P Require Import Examples.
From S2P Require Import ServerProps.
From S2P Require Import Wire.
From S2P Require Import ProxyWire.
From S2P Require Import ProxyForward.
From S2P Require Import WellFormed.
From S2P Require Import Site.
From S2P Require Import BenchProps.
From S2P Require Import AppProps.
From Stdlib Require Import SpecFloat.

(** ** The request *)

(** The lines of the [-H] flag. *)
Definition extraLines (extra : bytes) : list bytes :=
  filter (fun h => h <> []) (TrimSpace <$> Split extra ";").

Definition benchFields (hostport : bytes) (hs : list (bytes * bytes)) : list (bytes * bytes) :=
  [($"Host", hostport); ($"User-Agent", $"pulsebench/1.0")] ++ hs.

Lemma buildRequest_wire hostport path extra hs :
  extraLines extra = headerLine <$> hs ->
  buildRequest hostport path extra =
  requestLine $"GET" path $"HTTP/1.1" ++ CRLF ++ headerWire (benchFields hostport hs) ++ CRLF.
Proof.
  intros E. unfold buildRequest, benchFields. rewrite headerWire_app.
  assert (headerWire hs = extraLines extra ≫= fun h => h ++ CRLF) as ->.
  { rewrite E. clear. induction hs as [|kv hs IH]; [done|]. cbn [fmap list_fmap mbind list_bind]. by rewrite <- IH. }
  match goal with |- context[foldl ?f [] ?l] =>
    assert (forall acc, foldl f acc l = acc ++ (extraLines extra ≫= fun h => h ++ CRLF)) as -> end; cycle 1.
  { unfold requestLine, headerWire, headerLine. cbn [mbind list_bind fst snd]. rewrite <- !app_assoc. done. }
  unfold extraLines. induction (Split extra ";") as [|h l IH]; intros acc; [by rewrite app_nil_r|].
  cbn [foldl fmap list_fmap]. rewrite IH. unfold beq. destruct (decide (TrimSpace h = [])) as [Eh|Eh].
  - rewrite filter_cons_False by tauto. by rewrite bool_decide_true.
  - rewrite filter_cons_True, bool_decide_false by done. cbn [mbind list_bind]. by rewrite <- app_assoc.
Qed.

(** The request as the server sees it. *)
Definition benchReq (remoteAddr hostport path p : bytes) (q : URLValues) (hs : list (bytes * bytes)) : Request :=
  mkRequest $"GET" path p $"HTTP/1.1" q (addAll NewHeaders (benchFields hostport hs)) [] remoteAddr ∅ ∅.

(** What the flags must be for the server to take the request. *)
Record sendable (lim : Limits) (hostport path extra p : bytes) (q : URLValues) (hs : list (bytes * bytes)) : Prop := {
  se_target : HasPrefix path $"/" = true;
  se_target_clean : (nl ∉ path) /\ (sp ∉ path);
  se_path : PathUnescape (Cut path "?").1.1 = Some p;
  se_query : ParseQuery (Cut path "?").1.2 = Some q;
  se_extra : extraLines extra = headerLine <$> hs;
  se_clean : Forall (fun kv => cleanName kv.1 /\ cleanValue kv.2) (benchFields hostport hs);
  se_bodyless : existsb (fun kv => bool_decide (canonical kv.1 ∈ [$"Transfer-Encoding"; $"Content-Length"])) hs = false;
  se_fit : headersFit lim (benchFields hostport hs);
  se_count : Len (addAll NewHeaders (benchFields hostport hs)) <= MaxHeaderCount lim;
  se_line : len (requestLine $"GET" path $"HTTP/1.1") + 1 < MaxRequestLine lim;
}.

Section request.
Context `{GoRuntime}.
Variables (lim : Limits) (hostport path extra p : bytes) (q : URLValues) (hs : list (bytes * bytes)).
Hypothesis Hsane : sane lim.
Hypothesis Hse : sendable lim hostport path extra p q hs.
Let req addr := benchReq addr hostport path p q hs.

Lemma benchReq_absent addr k :
  canonical k = k -> k ∈ [$"Transfer-Encoding"; $"Content-Length"] -> Has (ReqHeaders (req addr)) k = false.
Proof.
  intros Hk Hin. cbn [ReqHeaders req benchReq]. rewrite Has_addAll. unfold benchFields. cbn [app existsb fst].
  assert (existsb (fun kv => bool_decide (canonical kv.1 = canonical k)) hs = false) as ->.
  { apply not_true_iff_false. intros (kv & Hkv & E)%existsb_exists. apply bool_decide_eq_true in E.
    pose proof (se_bodyless _ _ _ _ _ _ _ Hse) as Hb. apply not_true_iff_false in Hb. apply Hb, existsb_exists.
    exists kv. split; [done|]. apply bool_decide_eq_true. by rewrite E, Hk. }
  rewrite !elem_of_cons, elem_of_nil in Hin. destruct Hin as [->|[->|[]]]; by vm_compute.
Qed.

Lemma benchReq_accepted addr : accepted lim addr (req addr).
Proof.
  destruct Hse as [HT HTc HP HQ _ HC _ HF HL HLine]. destruct (wf_addAll NewHeaders (benchFields hostport hs) wf_New) as [W _].
  constructor; try done.
  - by left.
  - split; [done|]. unfold requestLine in HLine. rewrite !len_app in HLine. cbn [RawTarget req benchReq].
    pose proof (len_nonneg $"GET"). pose proof (len_nonneg [sp]). pose proof (len_nonneg $"HTTP/1.1"). lia.
  - eexists. constructor; [exact W|apply cleanHeaders_addAll; [apply map_Forall_empty|done]|done|].
    split; [apply entryBytes_addAll, wf_New|]. apply HF.
  - intros _. cbn [ReqHeaders req benchReq]. rewrite Has_addAll. unfold benchFields. cbn [app existsb fst].
    rewrite bool_decide_true by done. by rewrite orb_true_r.
  - cbn [Body req benchReq]. change (len (@nil Ascii.ascii)) with 0. apply Hsane.
Qed.

Lemma benchReq_framed addr : framed (req addr).
Proof.
  split; [apply benchReq_absent; [by vm_compute|set_solver]|]. right.
  split; [apply benchReq_absent; [by vm_compute|set_solver]|done].
Qed.

(** The server's parser reads the load generator's request, and nothing more. *)
Lemma buildRequest_parses addr more e b :
  (0 < b)%nat -> 1 < MaxHeaderLine lim ->
  ParseRequest lim addr (mkReader (buildRequest hostport path extra ++ more) e b) = (Ret (req addr), mkReader more e b).
Proof.
  intros Hb H1. rewrite (buildRequest_wire _ _ _ hs) by apply Hse. rewrite <- !app_assoc.
  apply (ParseRequest_wire lim Hsane (req addr) addr (benchFields hostport hs)); try apply Hse; try done.
  - apply benchReq_accepted.
  - apply benchReq_framed.
Qed.

Lemma buildRequest_nonempty : exists c s, buildRequest hostport path extra = c :: s.
Proof. unfold buildRequest. cbn. eauto. Qed.
End request.

(** ** The server at the other end *)

(** The statuses of the report are those the workers counted. *)
Lemma mergeAll_statuses (P : Z -> Prop) rs :
  Forall (fun r => errors r = 0 /\ map_Forall (fun s _ => P s) (statuses r)) rs ->
  map_Forall (fun s _ => P s) (foldl mergeStatuses ∅ rs).
Proof.
  induction rs as [|r rs IH] using rev_ind; intros HF; [apply map_Forall_empty|].
  apply Forall_app in HF as [HF [[_ Hr] _]%Forall_cons]. rewrite foldl_app. cbn [foldl]. unfold mergeStatuses.
  specialize (IH HF). revert Hr. apply (map_fold_weak_ind (fun acc done =>
    map_Forall (fun s _ => P s) done -> map_Forall (fun s _ => P s) acc)); [done|].
  intros s n done acc Hs IHm HD. apply map_Forall_insert in HD as [? HD]; [|exact Hs].
  apply map_Forall_insert_2; auto.
Qed.

Section site.
Context {W : Type} `{GoRuntime} `{Clock W}.
Variables (cfg : Config W) (remoteAddr : bytes).

#[local] Existing Instance site_clock.

(** The load generator's network is the server. *)
#[local] Instance site_net : @BenchNet (Site W) nat := {|
  benchDial _ _ s := let (c, s) := dialSite s in (inl c, s);
  benchSend c request s :=
    match sendSite cfg remoteAddr c request s with
    | (Some answer, s) => ((None, answer), s)
    | (None, s) => ((Some NetFailure, ([], NetFailure)), s)
    end;
  benchClose := closeSite;
|}.

Variable I : W -> Prop.
Hypothesis I_clock : forall st, I st -> I (timeNow st).2.
Hypothesis Hsane : sane (CfgLimits cfg).
Hypothesis Hline : 1 < MaxHeaderLine (CfgLimits cfg).
Hypothesis Hmax : MaxRequestsPerConn cfg = 0.

Variables (hostport path extra p : bytes) (q : URLValues) (hs : list (bytes * bytes)) (keepAlive : bool).
Hypothesis Hse : sendable (CfgLimits cfg) hostport path extra p q hs.
Let req := benchReq remoteAddr hostport path p q hs.
Let request := buildRequest hostport path extra.

Hypothesis Hh : keeps I (eq false) (sameRequest req) (CfgHandler cfg).
Hypothesis Hfits : forall st, I st -> len (body (xw (ServerProps.exchange (CfgHandler cfg) req st))) < 2 ^ 63.

(** What the server does with the request: one response, which the load
    generator reads to its end. *)
Lemma send_answered c s :
  I (world s) -> live s c ->
  exists out e s', sendSite cfg remoteAddr c request s = (Some (out, e), s') /\
    I (world s') /\ elsewhere c s s' /\ (wantClose req = false -> live s' c) /\
    exists status, 200 <= status < 600 /\
      forall e b, readResponse (mkReader out e b) = (inl status, mkReader [] e b).
Proof.
  intros HI Hl. destruct (buildRequest_nonempty hostport path extra) as (c0 & s0 & Ereq).
  pose proof (buildRequest_parses _ _ _ _ _ _ _ Hsane Hse remoteAddr [] NetTimeout _ connReader_size Hline) as Hp.
  rewrite app_nil_r in Hp.
  assert (reqOk req) as Hr by (eapply accepted_reqOk, benchReq_accepted; [exact Hsane|exact Hse]).
  assert (request <> []) as Hne by (unfold request; by rewrite Ereq).
  destruct (sendSite_ok cfg remoteAddr I I_clock Hmax request req Hne Hr Hp Hh c s HI Hl)
    as (now & s' & E & _ & HI' & He & Hlive).
  pose proof (Site.exchange_ok cfg I req Hr Hh _ HI) as Hx. destruct (xo_resp _ _ _ _ Hx) as [[? ? ?] ? ?].
  eexists _, _, s'. split; [exact E|]. split_and!; [done|done|intros Hwc; apply Hlive; by rewrite Hwc|].
  eexists. split; [done|]. intros e b. rewrite <- (app_nil_r (serialize _ _ _ _).2).
  apply readResponse_wire; try done; [lia|by apply Hfits].
Qed.

(** ** The load *)

Hypothesis Hka : keepAlive = true -> wantClose req = false.

(** What a worker counted so far: no errors, and statuses of responses. *)
Definition cleanResult (r : result) : Prop := errors r = 0 /\ map_Forall (fun s _ => 200 <= s < 600) (statuses r).

Record workerOk (s : Site W) (w : worker nat) : Prop := {
  wo_result : cleanResult (wres w);
  wo_conn : forall c buf, wconn w = Some (c, buf) -> buf = [] /\ live s c;
}.

Lemma addSample_clean d s r : cleanResult r -> 200 <= s < 600 -> cleanResult (addSample d s r).
Proof. intros [? ?] ?. split; [done|]. by apply map_Forall_insert_2. Qed.

Lemma exchange_on (w : worker nat) c (s : Site W) :
  I (world s) -> cleanResult (wres w) -> live s c ->
  let (w', s') := Bench.exchange hostport request keepAlive (mkWorker AtExchange (Some (c, [])) (wres w)) s in
  I (world s') /\ workerOk s' w' /\ (forall c' buf, wconn w' = Some (c', buf) -> c' = c) /\ elsewhere c s s'.
Proof.
  intros HI Hc [n Hn]. unfold Bench.exchange. cbn [wconn wres].
  rewrite (site_now s). pose proof (I_clock _ HI) as HI1. destruct (timeNow (world s)) as [t1 st1].
  rewrite site_now. cbn [world opened snd] in *. pose proof (I_clock _ HI1) as HI2. destruct (timeNow st1) as [t2 st2].
  destruct (send_answered c (mkSite st2 (opened s)) HI2) as (out & e & s' & E & HI3 & He & Hlive & st & Hst & Hr); [by exists n|].
  cbn [benchSend site_net]. rewrite E. cbn [app]. rewrite Hr, site_now.
  pose proof (I_clock _ HI3) as HI4. destruct (timeNow (world s')) as [t3 st3]. cbn [snd] in HI4. destruct keepAlive.
  - split_and!; [exact HI4| |by intros c' buf [= <- _]|exact He].
    constructor; [by apply addSample_clean|]. intros c' buf [= <- <-]. split; [done|]. by apply Hlive, Hka.
  - split_and!; [exact HI4|by constructor; [apply addSample_clean|]|done|].
    exact (elsewhere_trans _ _ _ _ He (elsewhere_close c (mkSite st3 (opened s')))).
Qed.

Record loadOk (l : Load (Site W) nat) : Prop := {
  lo_world : I (world (lenv l));
  lo_workers : forall i w, workers l !! i = Some w -> workerOk (lenv l) w;
  lo_distinct : forall i j w w' c b b', workers l !! i = Some w -> workers l !! j = Some w' ->
    wconn w = Some (c, b) -> wconn w' = Some (c, b') -> i = j;
}.

(** A worker's step leaves the others' connections alone. *)
Lemma loadOk_set l i w w' n s' :
  loadOk l -> workers l !! i = Some w -> I (world s') -> workerOk s' w' ->
  (forall c b, wconn w' = Some (c, b) -> (exists b', wconn w = Some (c, b')) \/ (length (opened (lenv l)) <= c)%nat) ->
  (forall c, live (lenv l) c -> (forall b, wconn w <> Some (c, b)) -> live s' c) ->
  loadOk (mkLoad n (<[i := w']> (workers l)) s').
Proof.
  intros [HI HW HD] Hi HI' Hw' Hown Hothers.
  assert (forall j wj c b, j <> i -> workers l !! j = Some wj -> wconn wj = Some (c, b) ->
    live (lenv l) c /\ live s' c) as Hlive.
  { intros j wj c b Hne Hj Hc. destruct (wo_conn _ _ (HW j wj Hj) _ _ Hc) as [_ Hl]. split; [done|].
    apply Hothers; [done|]. intros b' Hb. by apply Hne, (HD j i wj w c b b'). }
  assert (forall j wj c b b', j <> i -> workers l !! j = Some wj -> wconn w' = Some (c, b) -> wconn wj = Some (c, b') -> False)
    as Hclash.
  { intros j wj c b b' Hne Hj Hc Hcj. destruct (Hown c b Hc) as [[b2 Hb2]|Hge].
    - by apply Hne, (HD j i wj w c b' b2).
    - destruct (Hlive j wj c b' Hne Hj Hcj) as [[k Hk%lookup_lt_Some] _]. lia. }
  constructor; cbn [lenv workers]; [done| |].
  - intros j wj [(<- & <- & _)|[Hne Hj]]%list_lookup_insert_Some; [done|].
    destruct (HW j wj Hj) as [Hr Hc]. constructor; [done|]. intros c b Hcb. split; [by eapply Hc|].
    by eapply Hlive.
  - intros j k wj wk c b b' Hj Hk Hcj Hck.
    apply list_lookup_insert_Some in Hj as [(<- & <- & _)|[Hnj Hj]];
      apply list_lookup_insert_Some in Hk as [(<- & <- & _)|[Hnk Hk]]; [done|..].
    + exfalso. by eapply (Hclash k wk).
    + exfalso. by eapply (Hclash j wj).
    + by eapply HD.
Qed.

Lemma loadStep_ok l i l' : loadOk l -> loadStep hostport request keepAlive i l = Some l' -> loadOk l'.
Proof.
  intros L. pose proof L as [HI HW _]. unfold loadStep. intros (w & Hw & Hstep)%bind_Some.
  destruct (HW i w Hw) as [Hr Hc]. destruct (wpc w); [destruct (0 <=? _)| |done].
  - injection Hstep as <-. eapply loadOk_set; eauto. by constructor.
  - injection Hstep as <-. eapply loadOk_set; eauto; [by destruct (wconn w) as [[]|]|by constructor|done|].
    intros c Hl Hne. destruct (wconn w) as [[c0 b0]|]; [|done].
    eapply live_elsewhere; [apply elsewhere_close|by intros ->; apply (Hne b0)|done].
  - destruct (wconn w) as [[c b]|] eqn:Ec.
    + destruct (Hc c b eq_refl) as [-> Hl]. pose proof (exchange_on w c (lenv l) HI Hr Hl) as Hx.
      replace (Bench.exchange hostport request keepAlive w (lenv l))
        with (Bench.exchange hostport request keepAlive (mkWorker AtExchange (Some (c, [])) (wres w)) (lenv l)) in Hstep
        by (unfold Bench.exchange; by rewrite Ec).
      destruct (Bench.exchange _ _ _ _ _) as [w' s']. destruct Hx as (HI' & Hw' & Hown & Hels). injection Hstep as <-.
      eapply loadOk_set; eauto.
      * intros c' b' Hc'. left. rewrite (Hown c' b' Hc'). by eexists.
      * intros c' Hl' Hne. eapply live_elsewhere; [exact Hels|by intros ->; apply (Hne [])|done].
    + pose proof (exchange_on w _ (dialSite (lenv l)).2 HI Hr (live_dial (lenv l))) as Hx.
      replace (Bench.exchange hostport request keepAlive w (lenv l)) with (Bench.exchange hostport request keepAlive
        (mkWorker AtExchange (Some ((dialSite (lenv l)).1, [])) (wres w)) (dialSite (lenv l)).2)
        in Hstep by (unfold Bench.exchange; by rewrite Ec).
      destruct (Bench.exchange _ _ _ _ _) as [w' s']. destruct Hx as (HI' & Hw' & Hown & Hels). injection Hstep as <-.
      eapply loadOk_set; eauto.
      * intros c' b' Hc'. right. by rewrite (Hown c' b' Hc').
      * intros c' Hl' _. destruct (live_dial_old _ _ Hl'). by eapply live_elsewhere.
Qed.

Lemma runSchedule_ok sched l l' :
  loadOk l -> runSchedule hostport request keepAlive sched l = Some l' -> loadOk l'.
Proof.
  intros L. revert l'. unfold runSchedule. induction sched as [|i sched IH] using rev_ind; intros l'.
  { by intros [= <-]. }
  rewrite foldl_app. cbn [foldl]. intros (l1 & H1 & H2)%bind_Some. apply (loadStep_ok l1 i l'); [by apply IH|exact H2].
Qed.

Lemma startLoad_ok conc total s l :
  I (world s) -> startLoad conc total s = Some l -> loadOk l.
Proof.
  intros HI. unfold startLoad. destruct (conc <? 0); [done|]. intros [= <-]. constructor; cbn [lenv workers]; [done|..].
  - intros i w [-> _]%lookup_replicate. constructor; [split; [done|apply map_Forall_empty]|done].
  - intros i j w w' c b b' [-> _]%lookup_replicate _ [=].
Qed.

(** What is reported of [total] requests the server answered. *)
Definition allAnswered (total : Z) (r : Report) : Prop :=
  completed r = total /\ rerrors r = 0 /\ statusTotal (rstatuses r) = total /\
  map_Forall (fun s _ => 200 <= s < 600) (rstatuses r).

Lemma totalErrors_clean rs : Forall cleanResult rs -> totalErrors rs = 0.
Proof.
  unfold totalErrors. induction rs as [|r rs IH] using rev_ind; intros HF; [done|].
  apply Forall_app in HF as [HF [[Hr _] _]%Forall_cons]. rewrite foldl_app, IH by done. cbn [foldl]. by rewrite Hr.
Qed.

(** A load that ends: no errors, and a status for each of its requests. *)
Lemma runLoad_answered conc total sched s rs s' :
  I (world s) -> 0 < conc < 2 ^ 62 -> 0 <= total < 2 ^ 63 - 1 ->
  runLoad hostport request keepAlive conc total sched s = Some (rs, s') ->
  I (world s') /\ forall elapsed, allAnswered total (report rs elapsed).
Proof.
  intros HI Hc Ht. unfold runLoad. intros (l0 & H0' & (l & Hr & Hend)%bind_Some)%bind_Some.
  destruct (loadDone l) eqn:Hd; [|done]. injection Hend as <- <-.
  pose proof (runSchedule_ok sched l0 l (startLoad_ok _ _ _ _ HI H0') Hr) as L.
  apply startLoad_counted in H0' as (_ & C0 & _).
  destruct (runSchedule_counted hostport request keepAlive conc total sched l0 l ltac:(lia) ltac:(lia) C0 Hr) as [C _].
  split; [apply L|]. intros elapsed. set (rep := report _ elapsed).
  destruct (load_totals conc total elapsed l ltac:(lia) ltac:(lia) C Hd) as [Hsum Hst]. fold rep in Hsum, Hst.
  assert (Forall cleanResult (wres <$> workers l)) as HF.
  { apply Forall_fmap, Forall_lookup. intros i w Hw. by destruct (lo_workers _ L i w Hw). }
  assert (rerrors rep = 0) as He by (by apply totalErrors_clean).
  split_and!; [lia|done|lia|]. by apply mergeAll_statuses.
Qed.

Lemma runLoad_ends conc total s :
  0 < conc < 2 ^ 62 -> 0 <= total < 2 ^ 63 - 1 ->
  exists sched rs s', runLoad hostport request keepAlive conc total sched s = Some (rs, s').
Proof.
  intros Hc Ht. destruct (startLoad (Conn := nat) conc total s) as [l0|] eqn:E0; [|unfold startLoad in E0; destruct (Z.ltb_spec conc 0); [lia|done]].
  destruct (startLoad_counted _ _ _ _ E0) as (_ & C0 & _).
  destruct (load_completes hostport request keepAlive conc total l0 ltac:(lia) ltac:(lia) C0) as (sched & l & Hr & Hd).
  exists sched, (wres <$> workers l), (lenv l). unfold runLoad. rewrite E0. cbn [mbind option_bind]. rewrite Hr.
  cbn [mbind option_bind]. by rewrite Hd.
Qed.
End site.

(** ** [pulsebench]'s [main] *)

Lemma benchMain_answered {E Conn : Type} `{GoRuntime} `{Clock E} `{Entropy E} `{Sleeper E} `{Network E Conn}
    (J : E -> Prop) (f : Flags) (addr : bytes) (bf : BenchFlags) (p : bytes) (q : URLValues) (hs : list (bytes * bytes))
    (st : World E Conn) :
  let req := benchReq addr (splitTarget (bTarget bf)).1 (splitTarget (bTarget bf)).2 p q hs in
  let run ws s := @benchMain _ (Site (World E Conn)) nat (site_net (W := World E Conn) (mainConfig f) addr)
    (site_clock (W := World E Conn)) bf ws s (mkSite st []) in
  envOk J f -> worldOk J st ->
  sendable DefaultLimits (splitTarget (bTarget bf)).1 (splitTarget (bTarget bf)).2 (bHdrs bf) p q hs ->
  (bKeepAlive bf = true -> wantClose req = false) ->
  (forall st, worldOk J st -> len (body (xw (ServerProps.exchange (W := World E Conn) (mainHandler f) req st))) < 2 ^ 63) ->
  0 < bConc bf < 2 ^ 62 -> 0 <= bTotal bf < 2 ^ 63 - 1 -> bWarmup bf < 2 ^ 63 - 1 ->
  (exists ws s out, run ws s = Some out) /\
  forall ws s out st', run ws s = Some (out, st') ->
    worldOk J (world st') /\
    exists r, allAnswered (bTotal bf) r /\
      out = if bJSON bf then default [] (reportJSON r (bConc bf) (bKeepAlive bf))
            else reportText r (bConc bf) (bKeepAlive bf).
Proof.
  intros req run Hm Hst Hse Hka Hfits Hc Ht Hw.
  pose proof (runLoad_answered (mainConfig f) addr (worldOk J) (worldOk_clock J f Hm) sane_DefaultLimits ltac:(by vm_compute) eq_refl
    _ _ _ p q hs (bKeepAlive bf) Hse (main_keeps _ _ J f Hm) Hfits Hka) as HA.
  pose proof (fun st => worldOk_clock (E := E) (Conn := Conn) J f Hm st) as Hclock.
  assert (0 < warmupConc (bConc bf) < 2 ^ 62) as Hwc by (unfold warmupConc; lia).
  subst run. unfold benchMain. destruct (splitTarget (bTarget bf)) as [hostport path]. cbn [fst snd] in *. split.
  - assert (exists ws st1, (if 0 <? bWarmup bf
        then snd <$> @runLoad _ _ (site_net (mainConfig f) addr) site_clock hostport
          (buildRequest hostport path (bHdrs bf)) (bKeepAlive bf) (warmupConc (bConc bf)) (bWarmup bf) ws (mkSite st [])
        else Some (mkSite st [])) = Some st1) as (ws & st1 & E1).
    { destruct (Z.ltb_spec 0 (bWarmup bf)); [|by eexists [], _].
      destruct (runLoad_ends (mainConfig f) addr hostport path (bHdrs bf) (bKeepAlive bf) (warmupConc (bConc bf))
        (bWarmup bf) (mkSite st [])) as (ws & rs & st1 & E1); [lia..|]. exists ws, st1. by rewrite E1. }
    exists ws. rewrite E1. cbn [mbind option_bind]. destruct (timeNow st1) as [start st2].
    destruct (runLoad_ends (mainConfig f) addr hostport path (bHdrs bf) (bKeepAlive bf) (bConc bf)
        (bTotal bf) st2) as (s & rs & st3 & E3); [lia..|]. exists s. rewrite E3. cbn [mbind option_bind].
    destruct (timeNow st3) as [now st4]. by eexists.
  - intros ws s out st' (st1 & E1 & Hrun)%bind_Some.
    assert (worldOk J (world st1)) as W1.
    { destruct (Z.ltb_spec 0 (bWarmup bf)); [|by injection E1 as <-].
      apply fmap_Some in E1 as ([rs st1'] & E1 & ->). refine (proj1 (HA _ _ _ _ _ _ _ Hwc _ E1)); [exact Hst|lia]. }
    rewrite site_now in Hrun. pose proof (Hclock _ W1) as W2. destruct (timeNow (world st1)) as [start w2].
    apply bind_Some in Hrun as ([rs st3] & E3 & Hrun).
    edestruct HA as [W3 HR]; [|exact Hc|exact Ht|exact E3|]; [exact W2|]. rewrite site_now in Hrun. pose proof (Hclock _ W3) as W4.
    destruct (timeNow (world st3)) as [now w4]. injection Hrun as <- <-. split; [exact W4|]. by eexists.
Qed.

(** C4: [pulsebench] against [pulsehttp].  Whatever the flags of the server
    (in proxy mode, over a network whose answers can be relayed), when the
    server's limits admit the request the load generator's flags describe, there
    are schedules of the workers under which the load generator's [main] ends,
    and under every such schedule of the warm-up and of the load no request is
    an error: it prints the report of [total]
    completed requests, whose statuses, each from 200 to 599, add up to
    [total]; and the server keeps the invariant of its cache. *)
Theorem pulsebench_pulsehttp {E Conn : Type} `{GoRuntime} `{Clock E} `{Entropy E} `{Sleeper E} `{Network E Conn}
    (J : E -> Prop) (f : Flags) (addr : bytes) (bf : BenchFlags) (p : bytes) (q : URLValues) (hs : list (bytes * bytes))
    (st : World E Conn) :
  let req := benchReq addr (splitTarget (bTarget bf)).1 (splitTarget (bTarget bf)).2 p q hs in
  let run ws s := @benchMain _ (Site (World E Conn)) nat (site_net (W := World E Conn) (mainConfig f) addr)
    (site_clock (W := World E Conn)) bf ws s (mkSite st []) in
  envOk J f -> worldOk J st ->
  sendable DefaultLimits (splitTarget (bTarget bf)).1 (splitTarget (bTarget bf)).2 (bHdrs bf) p q hs ->
  (bKeepAlive bf = true -> wantClose req = false) ->
  (forall st, worldOk J st -> len (body (xw (ServerProps.exchange (W := World E Conn) (mainHandler f) req st))) < 2 ^ 63) ->
  0 < bConc bf < 2 ^ 62 -> 0 <= bTotal bf < 2 ^ 63 - 1 -> bWarmup bf < 2 ^ 63 - 1 ->
  (exists ws s out, run ws s = Some out) /\
  forall ws s out st', run ws s = Some (out, st') ->
    worldOk J (world st') /\
    exists r, allAnswered (bTotal bf) r /\
      out = if bJSON bf then default [] (reportJSON r (bConc bf) (bKeepAlive bf))
            else reportText r (bConc bf) (bKeepAlive bf).
Proof. apply benchMain_answered. Qed.

(** ** A load of two requests *)

#[local] Existing Instance demoEntropy.
#[local] Existing Instance demoSleeper.
#[local] Existing Instance deadNet.
#[local] Existing Instance exampleRuntime.

Definition loadFlags : Flags := demoFlags $"api".
Definition loadBench : BenchFlags :=
  mkBenchFlags $"127.0.0.1:8080/healthz?n=1" 1 2 true 0 $" X-A: 1 ;; Accept: */*" false.

Lemma loadSendable :
  sendable DefaultLimits (splitTarget (bTarget loadBench)).1 (splitTarget (bTarget loadBench)).2 (bHdrs loadBench)
    $"/healthz" (<[$"n" := [$"1"]]> ∅) [($"X-A", $"1"); ($"Accept", $"*/*")].
Proof.
  constructor; try by vm_compute.
  - split; intros Hx; absurd_elem Hx.
  - unfold benchFields. cbn [app]. repeat constructor; cbn [fst snd]; try (by apply (bool_decide_eq_true_1 (cleanName _)); vm_compute).
    all: try (by vm_compute). all: intros Hx; absurd_elem Hx.
  - constructor; [refine (bool_decide_unpack _ _); by vm_compute|vm_compute; congruence].
Qed.

Lemma healthz_fits (st : World Z unit) :
  len (body (xw (ServerProps.exchange (mainHandler loadFlags)
    (benchReq $"1.2.3.4:5" (splitTarget (bTarget loadBench)).1 (splitTarget (bTarget loadBench)).2
      $"/healthz" (<[$"n" := [$"1"]]> ∅) [($"X-A", $"1"); ($"Accept", $"*/*")]) st))) = 15.
Proof. destruct st. by vm_compute. Qed.

(** One worker, two requests. *)
Definition loadRun : option (bytes * Site (World Z unit)) :=
  @benchMain _ _ _ (site_net (W := World Z unit) (mainConfig loadFlags) $"1.2.3.4:5") (site_clock (W := World Z unit))
    loadBench [] (replicate 5 0%nat) (mkSite (mainWorld loadFlags 0) []).

Example loadRun_report : fst <$> loadRun = Some (
  $"Requests     2 completed, 0 errors in 0.00s" ++ [nl] ++
  $"Throughput   153846154 req/s  (1 conns, keepalive=true)" ++ [nl] ++
  $"Latency      avg 0.00ms | p50 0.00ms | p90 0.00ms | p99 0.00ms | p99.9 0.00ms | max 0.00ms" ++ [nl] ++
  $"Statuses     200:2  " ++ [nl]).
Proof. by vm_compute. Qed.

Lemma pulsebench_pulsehttp_witness :
  exists out st' r, loadRun = Some (out, st') /\ allAnswered 2 r /\ out = reportText r 1 true.
Proof.
  destruct loadRun as [[out st']|] eqn:E; [|by vm_compute in E]. exists out, st'.
  destruct (pulsebench_pulsehttp (fun _ => True) loadFlags $"1.2.3.4:5" loadBench $"/healthz" (<[$"n" := [$"1"]]> ∅)
    [($"X-A", $"1"); ($"Accept", $"*/*")] (mainWorld loadFlags 0)) as [_ HR].
  - by apply envOk_direct.
  - apply worldOk_main; [|done]. constructor; [apply clean_nil|constructor].
  - exact loadSendable.
  - intros _. by vm_compute.
  - intros st _. rewrite healthz_fits. lia.
  - split; by vm_compute.
  - split; [vm_compute; congruence|by vm_compute].
  - by vm_compute.
  - destruct (HR [] (replicate 5 0%nat) out st' E) as (_ & r & Hr & Ho).
    exists r. exact (conj eq_refl (conj Hr Ho)).
Defined.
