(* ===== verification/ProxyChain.v ===== *)
(** * The load balancer in front of the server

    The load balancer's network is a server of this repository: what it relays
    is parsed, handled and answered by the server's own definitions, and its
    answer is read back.  Every upstream address reaches the same server, so a
    choice of upstream is a choice of connection. *)

From S2P Require Import Prelude.
From S2P Require Import GoStrings.
From S2P Require Import GoIO.
From S2P Require Import GoURL.
From S2P Require Import GoTime.
From S2P Require Import GoJSON.
From S2P Require Import Headers.
From S2P Require Import Status.
From S2P Require Import Request.
From S2P Require Import RequestFacts.
From S2P Require Import RequestRoundtrip.
From S2P Require Import Response.
From S2P Require Import Handler.
From S2P Require Import Proxy.
From S2P Require Import Server.
From S2P Require Import Middleware.
From S2P Require Import Router.
From S2P Require Import RateLimit.
From S2P Require Import Cache.
From S2P Require Import Metrics.
From S2P Require Import App.
From S2P Require Import Examples.
From S2P Require Import ServerProps.
From S2P Require Import ProxyProps.
From S2P Require Import Wire.
From S2P Require Import ProxyWire.
From S2P Require Import ProxyForward.
From S2P Require Import WellFormed.
From S2P Require Import Site.
From S2P Require Import AppProps.

(** ** The headers that come back *)

Lemma Values_setAll hs w k :
  Values (headers (foldl (fun w kv => setHeader w kv.1 kv.2) w hs)) k =
  match list.last (named k hs) with Some v => [v] | None => Values (headers w) k end.
Proof.
  revert w. induction hs as [|[k' v] hs IH] using rev_ind; intros w; [done|].
  rewrite foldl_app, named_app, last_app. cbn [foldl fst snd]. unfold setHeader at 1. cbn [headers withHeaders].
  rewrite Values_Set. unfold named at 1. destruct (decide (canonical k' = canonical k)) as [E|E].
  - by rewrite filter_cons_True by done.
  - rewrite filter_cons_False by done. cbn. apply IH.
Qed.

Lemma named_relayed k hs :
  canonical k = k -> (forall kv, kv ∈ hs -> canonical kv.1 = kv.1) ->
  named k (relayed hs) = if hopUp k then [] else named k hs.
Proof.
  intros Hk Hcan. unfold named, relayed. rewrite Hk. induction hs as [|[k' v] hs IH]; [by destruct (hopUp k)|].
  assert (canonical k' = k') as Ek by (apply (Hcan (k', v)); by left).
  specialize (IH (fun kv Hin => Hcan kv ltac:(by right))).
  destruct (decide (k' = k)) as [->|Hne].
  - rewrite (filter_cons_True (fun kv => canonical kv.1 = k)) by done. destruct (hopUp k) eqn:Eh.
    + by rewrite filter_cons_False by (cbn [fst]; congruence).
    + rewrite (filter_cons_True (fun kv => hopUp kv.1 = false)) by done.
      rewrite filter_cons_True by done. cbn [fmap list_fmap]. by rewrite IH.
  - rewrite (filter_cons_False (fun kv => canonical kv.1 = k)) by (cbn [fst]; congruence).
    destruct (hopUp k') eqn:Eh'.
    + by rewrite filter_cons_False by (cbn [fst]; congruence).
    + rewrite filter_cons_True by done. by rewrite filter_cons_False by (cbn [fst]; congruence).
Qed.

Lemma finalHeaders_other w keepAlive now k :
  canonical k = k -> hopUp k = false -> Values (finalHeaders w keepAlive now) k = Values (headers w) k.
Proof.
  intros Hk Hh. unfold finalHeaders.
  assert (forall n, n ∈ [$"Date"; $"Server"; $"Content-Length"; $"Connection"] -> canonical n <> canonical k) as Hne.
  { intros n Hn E. rewrite Hk in E. subst k. revert Hh. rewrite !elem_of_cons, elem_of_nil in Hn.
    destruct Hn as [->|[->|[->|[->|[]]]]]; by vm_compute. }
  destruct (Has (headers w) $"Date"); destruct (Has _ $"Server"); destruct (bodyless (status w)); destruct keepAlive;
    autorewrite with pulse; repeat (rewrite ?decide_False by (apply Hne; set_solver)); done.
Qed.

(** Under each end-to-end name, the last value the upstream sent. *)
Lemma Values_applyUpstream y ka now w k :
  wf (headers y) -> cleanHeaders (headers y) -> canonicalKeys (headers y) -> canonical k = k ->
  Values (headers (applyUpstream {| upStatus := status y;
    upHeaders := relayed (flat (entries (finalHeaders y ka now))); upBody := body y; upReuse := true |} w)) k =
  if hopUp k then Values (headers w) k
  else match list.last (Values (headers y) k) with Some v => [v] | None => Values (headers w) k end.
Proof.
  intros W HC HK Hk. destruct (finalHeaders_clean y ka now W HC HK) as (W' & _ & HK').
  unfold applyUpstream. cbn [upStatus upHeaders upBody]. unfold SetBody. cbn [headers withBody].
  rewrite Values_setAll, named_relayed; [|done|].
  2: { intros [k' v] Hin. by destruct (elem_of_flat_Values _ _ _ W' HK' Hin). }
  assert (headers (WriteHeader w (status y)) = headers w) as -> by (unfold WriteHeader; by destruct (hijacked w)).
  destruct (hopUp k) eqn:Eh; [done|]. by rewrite named_flat, finalHeaders_other by done.
Qed.

Lemma applyUpstream_rest u w :
  hijacked w = false -> status (applyUpstream u w) = upStatus u /\ body (applyUpstream u w) = upBody u.
Proof.
  intros Hh. unfold applyUpstream, SetBody. cbn [status body withBody]. split; [|done].
  assert (forall hs w, status (foldl (fun w kv => setHeader w kv.1 kv.2) w hs) = status w) as ->.
  { intros hs. induction hs as [|kv hs IH]; intros w'; [done|]. cbn [foldl]. by rewrite IH. }
  unfold WriteHeader. by rewrite Hh.
Qed.

(** ** The network *)

Section chain.
Context {W : Type} `{GoRuntime} `{Clock W}.
Variables (ucfg : Server.Config W) (proxyAddr : bytes).    (* the upstream, and the address it sees *)

Record Fleet := mkFleet {
  fpool : @Pool nat;
  fsite : Site W;
}.

#[local, refine] Instance lens_fleet : Lens Fleet (@Pool nat) := {| view := fpool; put p f := mkFleet p (fsite f) |}.
Proof. all: by repeat intros []. Defined.

#[local] Instance fleet_net : @Network Fleet nat := {|
  netDial _ _ f := let (c, s) := dialSite (fsite f) in (inl c, mkFleet (fpool f) s);
  netExchange c request f :=
    match sendSite ucfg proxyAddr c request (fsite f) with
    | (Some (out, e), s) => ((None, mkReader out e 4096), mkFleet (fpool f) s)
    | (None, s) => ((Some NetFailure, mkReader [] NetFailure 4096), mkFleet (fpool f) s)
    end;
  netClose c f := mkFleet (fpool f) (closeSite c (fsite f));
  errText _ := [];
|}.

Variable I : W -> Prop.
Hypothesis I_clock : forall st, I st -> I (timeNow st).2.

(** The connections parked anywhere in the pool. *)
Definition parked (p : @Pool nat) : list nat := ups p ≫= conns.

(** The upstream's world is well, and every parked connection is served and
    parked once. *)
Record fleetOk (f : Fleet) : Prop := {
  fl_world : I (world (fsite f));
  fl_live : Forall (live (fsite f)) (parked (fpool f));
  fl_once : NoDup (parked (fpool f));
}.

Lemma parked_split p i u :
  ups p !! i = Some u ->
  parked p = (firstn i (ups p) ≫= conns) ++ conns u ++ (drop (S i) (ups p) ≫= conns).
Proof.
  intros Hu. unfold parked. rewrite <- (take_drop_middle (ups p) i u Hu) at 1. by rewrite bind_app.
Qed.

Lemma parked_setConns p i u l :
  ups p !! i = Some u ->
  parked (onUp i (setConns l) p) = (firstn i (ups p) ≫= conns) ++ l ++ (drop (S i) (ups p) ≫= conns).
Proof.
  intros Hu. assert (ups (onUp i (setConns l) p) !! i = Some (setConns l u)) as Hu'.
  { cbn [onUp ups]. by rewrite list_lookup_alter_eq, Hu. }
  rewrite (parked_split _ _ _ Hu'). cbn [onUp ups setConns conns]. rewrite take_alter_ge, drop_alter_lt by lia. done.
Qed.

Lemma parked_take p i u c l :
  ups p !! i = Some u -> conns u = c :: l -> parked p ≡ₚ c :: parked (onUp i (setConns l) p).
Proof. intros Hu Hc. rewrite (parked_split _ _ _ Hu), (parked_setConns _ _ _ _ Hu), Hc. symmetry. apply Permutation_middle. Qed.

Lemma parked_put p i u c :
  ups p !! i = Some u -> parked (onUp i (setConns (conns u ++ [c])) p) ≡ₚ c :: parked p.
Proof.
  intros Hu. rewrite (parked_split _ _ _ Hu), (parked_setConns _ _ _ _ Hu), <- !app_assoc, !(app_assoc (firstn i _ ≫= conns)).
  symmetry. apply Permutation_middle.
Qed.

(** ** A request on its way *)

Variable lim : Limits.         (* of the server that runs the load balancer *)
Variables (addr : bytes) (req : Request).

(** A request the load balancer was handed, within the upstream's limits. *)
Record relayable : Prop := {
  rl_accepted : accepted lim addr req;
  rl_canonical : canonicalKeys (ReqHeaders req);
  rl_host : Has (ReqHeaders req) $"Host" = true;
  rl_client : clientHost req <> [] /\ Forall (fun c => graphic c = true) (clientHost req);
  rl_method : beq (Method req) $"HEAD" = false;
  rl_fit : headersFit (CfgLimits ucfg) (forwarded req);
  rl_count : Len (addAll NewHeaders (forwarded req)) <= MaxHeaderCount (CfgLimits ucfg);
  rl_body : len (Body req) <= MaxBodyBytes (CfgLimits ucfg);
  rl_line : len (requestLine (Method req) (RawTarget req) $"HTTP/1.1") + 1 < MaxRequestLine (CfgLimits ucfg);
}.

Hypothesis Hsane : sane (CfgLimits ucfg).
Hypothesis Hline : 1 < MaxHeaderLine (CfgLimits ucfg).
Hypothesis Hmax : MaxRequestsPerConn ucfg = 0.
Hypothesis Hrl : relayable.

(** The request as the upstream's handler sees it, and its exchange there. *)
Let fwd := asForwarded proxyAddr req.
Let answer (st : W) := ServerProps.exchange (CfgHandler ucfg) fwd st.

Hypothesis Hh : keeps I (eq false) (sameRequest fwd) (CfgHandler ucfg).

Lemma forwarded_at_upstream more e b :
  (0 < b)%nat ->
  ParseRequest (CfgLimits ucfg) proxyAddr (mkReader (upstreamRequest req ++ more) e b) = (Ret fwd, mkReader more e b) /\
  wantClose fwd = false.
Proof.
  intros Hb. destruct Hrl as [HA HK HHost [Hne Hg] _ Hfit Hcount Hbody HL].
  by destruct (forwarded_parses lim (CfgLimits ucfg) addr proxyAddr req more e b) as (E1 & E2 & _).
Qed.

Lemma fwd_reqOk : reqOk fwd.
Proof.
  destruct Hrl as [HA HK _ Hc _ _ _ _ _]. destruct (accepted_reqOk _ _ _ HA) as [W0 HC].
  destruct (wf_addAll NewHeaders (forwarded req) wf_New) as [W1 _]. split; [exact W1|].
  apply cleanHeaders_addAll; [apply map_Forall_empty|]. by apply forwarded_clean.
Qed.

(** The pool's configuration, and responses it can relay: with a body, none
    over the cap. *)
Variable pc : Proxy.Config.
Hypothesis Hanswers : forall st, I st ->
  bodyless (status (xw (answer st))) = false /\ len (body (xw (answer st))) <= RelayMaxBodyBytes pc /\
  len (body (xw (answer st))) < 2 ^ 63.

Definition relayedFrom (y : ResponseWriter) (now : Z) : upResponse := {|
  upStatus := status y;
  upHeaders := relayed (flat (entries (finalHeaders y true now)));
  upBody := body y;
  upReuse := true |}.

Lemma send_relayed c f :
  I (world (fsite f)) -> live (fsite f) c ->
  exists out now s', sendSite ucfg proxyAddr c (upstreamRequest req) (fsite f) = (Some (out, NetTimeout), s') /\
    world s' = (timeNow (xst (answer (world (fsite f))))).2 /\ I (world s') /\
    elsewhere c (fsite f) s' /\ live s' c /\
    forall a, (readUpstream pc a (mkReader out NetTimeout 4096)).1 =
      inl (relayedFrom (xw (answer (world (fsite f)))) now).
Proof.
  intros HI Hl. pose proof (forwarded_at_upstream [] NetTimeout _ connReader_size) as [Hp Hwc]. rewrite app_nil_r in Hp.
  assert (upstreamRequest req <> []) as Hne.
  { rewrite upstreamRequest_wire. unfold requestLine. destruct Hrl as [HA _ _ _ _ _ _ _ _].
    pose proof (ac_method _ _ _ HA) as HM. destruct (Method req); [by vm_compute in HM|done]. }
  assert (keeps I (eq (beq (Method fwd) $"HEAD")) (sameRequest fwd) (CfgHandler ucfg)) as Hh'.
  { cbn [fwd asForwarded Method]. by rewrite (rl_method Hrl). }
  destruct (sendSite_ok ucfg proxyAddr I I_clock Hmax _ fwd Hne fwd_reqOk Hp Hh' c (fsite f) HI Hl)
    as (now & s' & E & Ew & HI' & He & Hlive).
  pose proof (Site.exchange_ok ucfg I fwd fwd_reqOk Hh' _ HI) as Hx. fold (answer (world (fsite f))) in *.
  destruct (xo_resp _ _ _ _ Hx) as [[W0 HC HK] Hs Hhd]. cbn [fwd asForwarded Method] in Hhd. rewrite (rl_method Hrl) in Hhd.
  rewrite Hwc in *. destruct (Hanswers _ HI) as (Hb & Hcap & Hlen).
  eexists _, now, s'. split; [exact E|]. split_and!; [exact Ew|exact HI'|exact He|by apply Hlive|].
  intros a. rewrite <- (app_nil_r (serialize _ _ _ _).2). by rewrite readUpstream_wire by (done || lia).
Qed.

(** What of the pool an exchange does not touch. *)
Definition poolView (p : @Pool nat) : Proxy.Config * Z * list (bytes * bool * Z) :=
  (cfg p, next p, (fun u => (UpAddr u, healthy u, active u)) <$> ups p).

Lemma poolView_setConns i l p : poolView (onUp i (setConns l) p) = poolView p.
Proof.
  unfold poolView. cbn [onUp cfg next ups]. f_equal. apply list_eq. intros j.
  rewrite !list_lookup_fmap. destruct (decide (j = i)) as [->|Hne].
  - rewrite list_lookup_alter_eq. by destruct (ups p !! i).
  - by rewrite list_lookup_alter_ne.
Qed.

Lemma fleetOk_put f i u c :
  fleetOk f -> ups (fpool f) !! i = Some u -> live (fsite f) c -> c ∉ parked (fpool f) ->
  fleetOk (mkFleet (onUp i (setConns (conns u ++ [c])) (fpool f)) (fsite f)).
Proof.
  intros [HI HL HN] Hu Hl Hc. pose proof (parked_put _ _ _ c Hu) as P. constructor; cbn [fpool fsite]; [done|..].
  - rewrite P. by constructor.
  - rewrite P. by constructor.
Qed.

Lemma fleetOk_away f c s :
  fleetOk f -> c ∉ parked (fpool f) -> I (world s) -> elsewhere c (fsite f) s -> fleetOk (mkFleet (fpool f) s).
Proof.
  intros [_ HL HN] Hc HI He. constructor; cbn [fpool fsite]; [done| |done].
  rewrite Forall_forall in *. intros c' Hin. eapply live_elsewhere; [exact He| |by apply HL]. by intros ->.
Qed.

(** What an exchange through the pool comes to: the upstream's answer on the
    writer, and a fleet as well as before. *)
Definition relayedOn (f : Fleet) (w : ResponseWriter) (r : option (option relayErr) * ResponseWriter * Fleet) : Prop :=
  let y := answer (world (fsite f)) in
  exists now f', r = (None, applyUpstream (relayedFrom (xw y) now) w, f') /\
    fleetOk f' /\ world (fsite f') = (timeNow (xst y)).2 /\ poolView (fpool f') = poolView (fpool f).

Lemma relayConn_server c i u a w f :
  fleetOk f -> cfg (fpool f) = pc -> ups (fpool f) !! i = Some u -> live (fsite f) c -> c ∉ parked (fpool f) ->
  relayedOn f w (relayConn c i a req w f).
Proof.
  intros Hf Hpc Hu Hl Hc.
  destruct (send_relayed c f (fl_world _ Hf) Hl) as (out & now & s' & E & Ew & HI & He & Hl' & Hr).
  specialize (Hr a). unfold relayConn. cbn [netExchange fleet_net]. rewrite E. cbn [view lens_fleet fpool].
  rewrite Hpc. destruct (readUpstream pc a _) as [o r']. cbn [fst] in Hr. subst o. cbn [upReuse relayedFrom].
  pose proof (fleetOk_away f c s' Hf Hc HI He) as Hf'. unfold putConn. cbn [view lens_fleet fpool]. rewrite Hu.
  destruct (_ <? _).
  - eexists now, _. split; [reflexivity|]. split_and!; [|exact Ew|apply poolView_setConns].
    by apply (fleetOk_put (mkFleet (fpool f) s')).
  - eexists now, _. split; [reflexivity|]. split_and!; [|exact Ew|done].
    cbn [netClose fleet_net fpool fsite]. apply (fleetOk_away f c); [done|done|done|].
    exact (elsewhere_trans _ _ _ _ He (elsewhere_close c s')).
Qed.

Lemma relay_server i u a w f :
  fleetOk f -> cfg (fpool f) = pc -> ups (fpool f) !! i = Some u -> relayedOn f w (relay i a req w f).
Proof.
  intros Hf Hpc Hu. pose proof Hf as [HI HL HN].
  assert (forall c reused f1, fleetOk f1 -> cfg (fpool f1) = pc -> world (fsite f1) = world (fsite f) ->
    poolView (fpool f1) = poolView (fpool f) -> (exists u1, ups (fpool f1) !! i = Some u1) ->
    live (fsite f1) c -> c ∉ parked (fpool f1) ->
    relayedOn f w (match relayConn c i a req w f1 with
      | (Some e, w, st) =>
        if reused : bool then
          match netDial a (DialTimeout (cfg (view st))) st with
          | (inr e, st) => (Some (Some (StaleDialErr a e)), w, st)
          | (inl conn, st) => relayConn conn i a req w st
          end
        else (Some e, w, st)
      | ok => ok
      end)) as Hconn.
  { intros c reused f1 Hf1 Hpc1 Ew Ev [u1 Hu1] Hl Hc.
    destruct (relayConn_server c i u1 a w f1 Hf1 Hpc1 Hu1 Hl Hc) as (now & f' & -> & Hf' & Ew' & Ev').
    exists now, f'. rewrite Ew in *. split_and!; [done|done|done|congruence]. }
  unfold relay, getConn. cbn [view lens_fleet]. rewrite Hu. cbn [fmap option_fmap option_map].
  destruct (conns u) as [|c l] eqn:Ec.
  - cbn [netDial fleet_net]. apply (Hconn _ false (mkFleet (fpool f) (dialSite (fsite f)).2)); try done.
    + constructor; cbn [fpool fsite]; [done| |done]. eapply Forall_impl; [exact HL|]. intros c Hl. by apply live_dial_old.
    + by exists u.
    + apply live_dial.
    + cbn [fpool]. intros Hin. rewrite Forall_forall in HL. by destruct (live_dial_old _ _ (HL _ Hin)).
  - pose proof (parked_take _ _ _ _ _ Hu Ec) as P. rewrite P in HL, HN.
    apply Forall_cons in HL as [Hl HL]. apply NoDup_cons in HN as [Hc HN].
    apply (Hconn c true (onPool (onUp i (setConns l)) f)); try done.
    + apply poolView_setConns.
    + exists (setConns l u). cbn. by rewrite list_lookup_alter_eq, Hu.
Qed.

Lemma parked_onUp i g p : (forall u, conns (g u) = conns u) -> parked (onUp i g p) = parked p.
Proof.
  intros Hg. unfold parked. cbn [onUp ups]. revert i. induction (ups p) as [|u l IH]; intros i; [done|].
  destruct i as [|i]; cbn [alter list_alter mbind list_bind]; [by rewrite Hg|]. by rewrite <- (IH i).
Qed.

Lemma fleetOk_onPool i g f : (forall u, conns (g u) = conns u) -> fleetOk f -> fleetOk (onPool (onUp i g) f).
Proof. intros Hg [HI HL HN]. constructor; unfold onPool; cbn [put view lens_fleet fpool fsite]; rewrite ?parked_onUp by done; done. Qed.

Lemma poolView_active i p p' :
  gaugesOk p -> poolView p' = poolView (onUp i (addActive 1) p) -> poolView (onUp i (addActive (-1)) p') = poolView p.
Proof.
  unfold poolView. cbn [onUp cfg next ups]. intros Hg [= E1 E2 E3]. rewrite E1, E2. f_equal.
  apply list_eq. intros j. pose proof (f_equal (fun l => l !! j) E3) as Ej. cbv beta in Ej.
  rewrite !list_lookup_fmap in *. destruct (decide (j = i)) as [->|Hne].
  - rewrite list_lookup_alter_eq in *. destruct (ups p !! i) as [u|] eqn:Eu, (ups p' !! i) as [u'|]; try done.
    cbn in *. injection Ej as Ea Eh En. rewrite Ea, Eh, En, wrap64_add_l.
    replace (active u + 1 + -1) with (active u) by lia. by rewrite wrap64_id by exact (Hg i u Eu).
  - by rewrite list_lookup_alter_ne in * by done.
Qed.

Lemma ProxyHandler_server (x : Exch Fleet) :
  xreq x = req -> fleetOk (xst x) -> gaugesOk (fpool (xst x)) -> cfg (fpool (xst x)) = pc ->
  healthyIndices (fpool (xst x)) <> [] -> 0 < MaxAttempts pc ->
  0 <= next (fpool (xst x)) < 2 ^ 63 - 1 -> len (ups (fpool (xst x))) < 2 ^ 62 ->
  let y := answer (world (fsite (xst x))) in
  exists i u now f', ups (fpool (xst x)) !! i = Some u /\ healthy u = true /\
    ProxyHandler x = (Returned, {| xreq := req;
      xw := setHeader (applyUpstream (relayedFrom (xw y) now) (xw x)) $"X-Upstream" (UpAddr u); xst := f' |}) /\
    fleetOk f' /\ world (fsite f') = (timeNow (xst y)).2 /\
    (poolView (fpool f')).1.1 = pc /\ (poolView (fpool f')).2 = (poolView (fpool (xst x))).2.
Proof.
  intros Hreq Hf Hg Hpc Hne Hmaxa Hn Hl y. destruct (pick_cases (fpool (xst x)) Hn Hl) as [_ Hp].
  destruct (Hp Hne) as (cands & p1 & Ep & HP & Ec & Eu & _). unfold ProxyHandler. cbn [view lens_fleet]. rewrite Ep.
  destruct cands as [|i cands]; [by apply Permutation_nil_l in HP|].
  assert (i ∈ healthyIndices (fpool (xst x))) as Hi by (rewrite <- HP; left).
  apply elem_of_healthy in Hi as (u & Hu & Hhu). rewrite Ec, Hpc.
  destruct (Z.to_nat (Z.min (MaxAttempts pc) (len (i :: cands)))) as [|n] eqn:En.
  { rewrite len_cons in En. pose proof (len_nonneg cands). lia. }
  cbn [attemptLoop withSt xst xreq xw]. cbn [put lens_fleet view fpool]. rewrite Eu, Hu.
  set (f1 := onPool (onUp i (addActive 1)) (mkFleet p1 (fsite (xst x)))).
  assert (fleetOk f1) as Hf1.
  { apply fleetOk_onPool; [done|]. destruct Hf as [HI HL HN]. constructor; cbn [fpool fsite]; [done|..];
      unfold parked; by rewrite Eu. }
  destruct (relay_server i (addActive 1 u) (UpAddr u) (xw x) f1) as (now & f' & E & Hf' & Ew & Ev);
    [done|by cbn; rewrite Ec|by cbn; rewrite list_lookup_alter_eq, Eu, Hu|].
  rewrite Hreq, E. exists i, u, now. eexists. split; [done|]. split; [done|]. split; [reflexivity|].
  pose proof (poolView_active i p1 (fpool f')) as Hv. cbn in Ev.
  assert (gaugesOk p1) as Hg1 by (intros j u' Hj; rewrite Eu in Hj; exact (Hg j u' Hj)).
  specialize (Hv Hg1 Ev). split_and!.
  - by apply fleetOk_onPool.
  - exact Ew.
  - cbn [onPool put view lens_fleet fpool]. rewrite Hv. cbn. congruence.
  - cbn [onPool put view lens_fleet fpool]. rewrite Hv. cbn. by rewrite Eu.
Qed.
End chain.

(** ** Properties *)

(** C9: the load balancer is transparent.  A request handed to it while an upstream
    is healthy is answered by one exchange with a healthy upstream, without
    failover, whether the connection was parked or fresh: the client gets the
    status and the body the upstream's handler gave to the request it forwards,
    [X-Upstream] names the upstream, and under every other name the last value
    the upstream sent, hop-by-hop headers, [Date] and [Server] apart.  The
    upstream's world moves by that one exchange; health and load of every
    upstream are as before, and every parked connection is still served and
    parked once. *)
Theorem ProxyHandler_transparent {W : Type} `{GoRuntime} `{Clock W} (ucfg : Server.Config W) (proxyAddr : bytes)
    (I : W -> Prop) (lim : Limits) (addr : bytes) (pc : Proxy.Config) (x : Exch (Fleet (W := W))) :
  let fwd := asForwarded proxyAddr (xreq x) in
  let answer st := ServerProps.exchange (CfgHandler ucfg) fwd st in
  let y := answer (world (fsite (xst x))) in
  let handler := @ProxyHandler (Fleet (W := W)) nat (fleet_net ucfg proxyAddr) lens_fleet in
  (forall st, I st -> I (timeNow st).2) -> sane (CfgLimits ucfg) -> 1 < MaxHeaderLine (CfgLimits ucfg) ->
  MaxRequestsPerConn ucfg = 0 -> relayable ucfg lim addr (xreq x) ->
  keeps I (eq false) (sameRequest fwd) (CfgHandler ucfg) ->
  (forall st, I st -> bodyless (status (xw (answer st))) = false /\
     len (body (xw (answer st))) <= RelayMaxBodyBytes pc /\ len (body (xw (answer st))) < 2 ^ 63) ->
  fleetOk I (xst x) -> gaugesOk (fpool (xst x)) -> cfg (fpool (xst x)) = pc ->
  healthyIndices (fpool (xst x)) <> [] -> 0 < MaxAttempts pc -> hijacked (xw x) = false ->
  0 <= next (fpool (xst x)) < 2 ^ 63 - 1 -> len (ups (fpool (xst x))) < 2 ^ 62 ->
  exists i u x', ups (fpool (xst x)) !! i = Some u /\ healthy u = true /\ handler x = (Returned, x') /\
    xreq x' = xreq x /\ status (xw x') = status (xw y) /\ body (xw x') = body (xw y) /\
    (forall k, canonical k = k -> Values (headers (xw x')) k =
       if bool_decide (k = $"X-Upstream") then [UpAddr u]
       else if hopUp k then Values (headers (xw x)) k
       else match list.last (Values (headers (xw y)) k) with Some v => [v] | None => Values (headers (xw x)) k end) /\
    fleetOk I (xst x') /\ world (fsite (xst x')) = (timeNow (xst y)).2 /\
    (poolView (fpool (xst x'))).2 = (poolView (fpool (xst x))).2.
Proof.
  intros fwd answer y handler HIc Hs Hl Hm Hrl Hh Ha Hf Hg Hpc Hne Hat Hhj Hn Hu.
  destruct (ProxyHandler_server ucfg proxyAddr I HIc lim addr (xreq x) Hs Hl Hm Hrl Hh pc Ha x eq_refl Hf Hg Hpc Hne Hat Hn Hu)
    as (i & u & now & f' & Hiu & Hhu & E & Hf' & Ew & _ & Ev). cbv zeta in Ew.
  assert (keeps I (eq (beq (Method fwd) $"HEAD")) (sameRequest fwd) (CfgHandler ucfg)) as Hh'.
  { cbn [fwd asForwarded Method]. by rewrite (rl_method _ _ _ _ Hrl). }
  pose proof (fwd_reqOk ucfg proxyAddr lim addr (xreq x) Hrl) as Hrq.
  pose proof (Site.exchange_ok ucfg I fwd Hrq Hh' _ (fl_world _ _ Hf)) as Hx.
  destruct (xo_resp _ _ _ _ Hx) as [[W0 HC HK] _ _].
  destruct (applyUpstream_rest (relayedFrom (xw y) now) (xw x) Hhj) as [Hst Hbd].
  eexists i, u, _. split; [done|]. split; [done|]. split; [exact E|]. cbn [xreq xw xst].
  split_and!; [done|exact Hst|exact Hbd| |exact Hf'|exact Ew|exact Ev].
  intros k Hk. unfold setHeader. cbn [headers withHeaders]. rewrite Values_Set.
  change (canonical $"X-Upstream") with $"X-Upstream". rewrite Hk. case_bool_decide as Ek.
  - by rewrite decide_True.
  - rewrite decide_False by congruence. by apply Values_applyUpstream.
Qed.

(** ** The demo server behind the load balancer *)

#[local] Existing Instance demoEntropy.
#[local] Existing Instance demoSleeper.
#[local] Existing Instance deadNet.
#[local] Existing Instance exampleRuntime.

Definition upstreamFlags : Flags := demoFlags $"api".

Definition healthzRequest : Request :=
  match (ParseRequest DefaultLimits $"1.2.3.4:5" (mkReader (getLines $"/healthz") EOF 16)).1 with
  | Ret req => req
  | _ => adminRequest
  end.

Definition twoUpstreams : Proxy.Config :=
  Proxy.withDefaults (Proxy.mkConfig [$"10.0.0.1:80"; $"10.0.0.2:80"] $"least-conn" 0 0 0 0 0 0).

Definition chainExch : Exch (Fleet (W := World Z unit)) :=
  mkExch healthzRequest NewResponseWriter (mkFleet (NewPool twoUpstreams) (mkSite (mainWorld upstreamFlags 0) [])).

Lemma healthzRequest_relayable :
  relayable (mainConfig (E := Z) (Conn := unit) upstreamFlags) DefaultLimits $"1.2.3.4:5" healthzRequest.
Proof.
  assert (exists r', ParseRequest DefaultLimits $"1.2.3.4:5" (mkReader (getLines $"/healthz") EOF 16) =
    (Ret healthzRequest, r')) as [r' EP] by (eexists; by vm_compute).
  destruct (ParseRequest_Ret DefaultLimits sane_DefaultLimits $"1.2.3.4:5"
    (mkReader (getLines $"/healthz") EOF 16) _ _ (Nat.lt_0_succ 15) EP) as [Ha _].
  constructor; [exact Ha|..]; try by vm_compute.
  - refine (bool_decide_unpack _ _). by vm_compute.
  - split; [by vm_compute|]. refine (bool_decide_unpack _ _). by vm_compute.
  - constructor; [refine (bool_decide_unpack _ _); by vm_compute|vm_compute; congruence].
Qed.

Definition okBody : bytes := $"{" ++ [dquote] ++ $"status" ++ [dquote] ++ $":" ++ [dquote] ++ $"ok" ++ [dquote] ++ $"}".

Lemma healthz_relays (st : World Z unit) :
  let y := ServerProps.exchange (mainHandler upstreamFlags) (asForwarded $"10.0.0.9:7" healthzRequest) st in
  status (xw y) = 200 /\ body (xw y) = okBody.
Proof. destruct st. split; by vm_compute. Qed.

Lemma ProxyHandler_transparent_witness :
  exists x', @ProxyHandler _ _ (fleet_net (mainConfig upstreamFlags) $"10.0.0.9:7") lens_fleet chainExch = (Returned, x') /\
    status (xw x') = 200 /\ body (xw x') = okBody.
Proof.
  destruct (ProxyHandler_transparent (mainConfig (E := Z) (Conn := unit) upstreamFlags) $"10.0.0.9:7" (worldOk (fun _ => True))
    DefaultLimits $"1.2.3.4:5" twoUpstreams chainExch) as (i & u & x' & _ & _ & E & _ & Es & Eb & _).
  - apply (worldOk_clock _ upstreamFlags). by apply envOk_direct.
  - exact sane_DefaultLimits.
  - by vm_compute.
  - reflexivity.
  - exact healthzRequest_relayable.
  - apply main_keeps. by apply envOk_direct.
  - intros st _. destruct (healthz_relays st) as [E1 E2]. cbn [CfgHandler] in *.
    change (xreq chainExch) with healthzRequest.
    change (CfgHandler (mainConfig (E := Z) (Conn := unit) upstreamFlags)) with (mainHandler (E := Z) (Conn := unit) upstreamFlags).
    rewrite E1, E2. by vm_compute.
  - constructor; [|constructor|constructor]. apply worldOk_main; [constructor; [apply clean_nil|constructor]|done].
  - intros j u Hj. by destruct j as [|[|j]]; vm_compute in Hj; simplify_eq; vm_compute.
  - reflexivity.
  - by vm_compute.
  - by vm_compute.
  - reflexivity.
  - by vm_compute.
  - by vm_compute.
  - exists x'. split; [exact E|]. destruct (healthz_relays (world (fsite (xst chainExch)))) as [E1 E2].
    exact (conj (eq_trans Es E1) (eq_trans Eb E2)).
Defined.
