(* ===== verification/Stack.v ===== *)
(** * The load generator, the load balancer and the server

    A host that runs the program with its own clock, entropy and timer, on a
    network where another instance of the program listens.  The load balancer's
    guarantees ask the network for answers it can relay; the server's responses
    are such answers, so the guarantees of every instance, a load balancer in
    front of load balancers included, follow from those of the ones behind it. *)

From S2P Require Import Prelude.
From S2P Require Import GoStrings.
From S2P Require Import GoFloat.
From S2P Require Import GoIO.
From S2P Require Import GoURL.
From S2P Require Import GoTime.
From S2P Require Import GoJSON.
From S2P Require Import Headers.
From S2P Require Import Status.
From S2P Require Import Request.
From S2P Require Import RequestFacts.
From S2P Require Import RequestRoundtrip.
From S2P Require Import Response.
From S2P Require Import Handler.
From S2P Require Import Middleware.
From S2P Require Import Router.
From S2P Require Import RateLimit.
From S2P Require Import Cache.
From S2P Require Import Metrics.
From S2P Require Import Proxy.
From S2P Require Import Server.
From S2P Require Import App.
From S2P Require Import Bench.
From S2P Require Import Examples.
From S2P Require Import ServerProps.
From S2P Require Import Wire.
From S2P Require Import ProxyWire.
From S2P Require Import WellFormed.
From S2P Require Import Site.
From S2P Require Import BenchProps.
From S2P Require Import AppProps.
From S2P Require Import LoadTest.

Section lan.
Context {E E' Conn : Type} `{GoRuntime}.
Context `{Clock E} `{Entropy E} `{Sleeper E}.                            (* the host *)
Context `{Clock E'} `{Entropy E'} `{Sleeper E'} `{Network E' Conn}.      (* the one behind it *)
Variables (g : Flags) (hostAddr : bytes).      (* its flags, and the address it sees *)
Variable listening : bytes -> bool.            (* the addresses that reach it *)

Record Lan := mkLan {
  own : E;
  far : Site (World E' Conn);
}.

#[local] Instance lan_clock : Clock Lan := fun e => let (t, o) := timeNow (own e) in (t, mkLan o (far e)).
#[local] Instance lan_entropy : Entropy Lan := fun n e => let (b, o) := randRead n (own e) in (b, mkLan o (far e)).
#[local] Instance lan_sleeper : Sleeper Lan := fun d e => mkLan (sleep d (own e)) (far e).

Definition farConfig : Server.Config (World E' Conn) := mainConfig g.

#[local] Instance lan_net : @Network Lan nat := {|
  netDial a _ e :=
    if listening a then let (c, s) := dialSite (far e) in (inl c, mkLan (own e) s) else (inr NetFailure, e);
  netExchange c request e :=
    match sendSite farConfig hostAddr c request (far e) with
    | (Some (out, ending), s) => ((None, mkReader out ending 4096), mkLan (own e) s)
    | (None, s) => ((Some NetFailure, mkReader [] NetFailure 4096), mkLan (own e) s)
    end;
  netClose c e := mkLan (own e) (closeSite c (far e));
  errText _ := [];
|}.

Variable J : E' -> Prop.
Hypothesis Hfar : envOk (Conn := Conn) J g.

(** The instance behind the network is well. *)
Definition farOk (e : Lan) : Prop := worldOk J (world (far e)).

(** Whatever the bytes of a request, the answer can be relayed. *)
Lemma send_clean c request s :
  worldOk J (world s) ->
  let (a, s') := sendSite farConfig hostAddr c request s in
  worldOk J (world s') /\ match a with Some (out, ending) => cleanAnswer (mkReader out ending 4096) | None => True end.
Proof.
  intros Hs. unfold sendSite. destruct (opened s !! c) as [[served|]|]; [|done..].
  destruct (serveLoop_messages (worldOk J) (fun _ => True) (fun _ _ => True) (worldOk_clock J g Hfar) farConfig hostAddr
    (fun _ => (false, false)) (S (length request)) served (connReader request NetTimeout) (mkWriter [] None) (world s))
    as [(ms & HF & Hout & _) Hw]; [exact sane_DefaultLimits|by apply main_keeps|done..|apply connReader_size|done|exact Hs|].
  unfold turn. rewrite Hout. split; [exact Hw|]. cbn [sent app]. apply (cleanAnswer_messages _ _ _ _ HF). lia.
Qed.

(** The server keeps what the load balancer asks of the network. *)
Theorem lan_envOk (f : Flags) : envOk (Conn := nat) farOk f.
Proof.
  unfold farOk. constructor.
  - intros e He. unfold timeNow, lan_clock. by destruct (timeNow (own e)).
  - intros n e He. unfold randRead, lan_entropy. by destruct (randRead n (own e)).
  - done.
  - intros a d e _ He. cbn. by destruct (listening a).
  - done.
  - intros c b e _ He. cbn. pose proof (send_clean c b (far e) He) as Hs.
    destruct (sendSite _ _ c b (far e)) as [[[out ending]|] s]; destruct Hs; [done|]. split; [done|].
    apply (cleanAnswer_messages (fun _ => True) [] NetFailure 4096); [done|lia].
Qed.

(** So every response of the host, whatever its flags, is well formed, and
    everyone behind it stays well. *)
Corollary host_keeps (f : Flags) hd Q : keeps (worldOk (Conn := nat) farOk) hd Q (mainHandler f).
Proof. apply main_keeps, lan_envOk. Qed.

(** ** Properties *)

(** C5: three tiers.  [pulsebench] against a [pulsehttp] load balancer, whose
    rate limiter is off, in front of another [pulsehttp], of any flags: when the
    load balancer's limits admit the request, there are schedules of the workers
    under which the load generator's [main] ends, and under every such schedule
    no request is an error: it prints the report of [total] completed requests
    whose statuses, each from 200 to 599, add up to [total]; and what both
    programs keep for later responses stays well formed.  Nothing is assumed of
    what passes between the load balancer and the server. *)
Theorem pulsebench_stack (f : Flags) (addr : bytes) (bf : BenchFlags) (p : bytes) (q : URLValues)
    (hs : list (bytes * bytes)) (st : World Lan nat) :
  let req := benchReq addr (splitTarget (bTarget bf)).1 (splitTarget (bTarget bf)).2 p q hs in
  let run ws s := @benchMain _ (Site (World Lan nat)) nat (site_net (W := World Lan nat) (mainConfig f) addr)
    (site_clock (W := World Lan nat)) bf ws s (mkSite st []) in
  beq (fMode f) $"proxy" = true -> rateOn f = false -> worldOk farOk st ->
  sendable DefaultLimits (splitTarget (bTarget bf)).1 (splitTarget (bTarget bf)).2 (bHdrs bf) p q hs ->
  (bKeepAlive bf = true -> wantClose req = false) ->
  0 < bConc bf < 2 ^ 62 -> 0 <= bTotal bf < 2 ^ 63 - 1 -> bWarmup bf < 2 ^ 63 - 1 ->
  (exists ws s out, run ws s = Some out) /\
  forall ws s out st', run ws s = Some (out, st') ->
    worldOk farOk (world st') /\
    exists r, allAnswered (bTotal bf) r /\
      out = if bJSON bf then default [] (reportJSON r (bConc bf) (bKeepAlive bf))
            else reportText r (bConc bf) (bKeepAlive bf).
Proof.
  intros req run Em Er Hst Hse Hka Hc Ht Hw.
  assert (forall st1, worldOk farOk st1 ->
    len (body (xw (ServerProps.exchange (mainHandler (E := Lan) (Conn := nat) f) req st1))) < 2 ^ 63) as Hfits.
  { intros st1 Hst1. apply (Z.lt_trans _ (2 ^ 63 - 1)); [|lia].
    apply (turn_small (worldOk farOk) (fun _ => True) (fun _ _ => True)); [| |exact I|exact I|exact Hst1].
    - apply main_small; [apply lan_envOk|exact Em|exact Er|]. intros e. by vm_compute.
    - eapply accepted_reqOk, benchReq_accepted; [exact sane_DefaultLimits|exact Hse]. }
  exact (benchMain_answered farOk f addr bf p q hs st (lan_envOk f) Hst Hse Hka Hfits Hc Ht Hw).
Qed.
End lan.

(** ** A load through a load balancer *)

#[local] Existing Instance demoEntropy.
#[local] Existing Instance demoSleeper.
#[local] Existing Instance deadNet.
#[local] Existing Instance exampleRuntime.

(** Of two upstreams the first is not reachable. *)
Definition frontFlags : Flags :=
  mkFlags $":8080" $"proxy" $"10.0.0.1:80,10.0.0.2:80" $"round-robin" (ofInt 0) (ofInt 0) 1024 (30 * Second) true None.

Definition backFlags : Flags := demoFlags $"server".

Definition reachable2 (a : bytes) : bool := beq a $"10.0.0.2:80".

Definition stackWorld : World (@Lan Z Z unit) nat :=
  @mainWorld _ nat (lan_clock (E := Z) (E' := Z) (Conn := unit)) frontFlags (mkLan 0 (mkSite (mainWorld backFlags 0) [])).

Definition stackRun : option (bytes * Site (World (@Lan Z Z unit) nat)) :=
  @benchMain _ _ nat
    (@site_net _ exampleRuntime (@world_clock _ nat (lan_clock (E := Z) (E' := Z) (Conn := unit)))
      (@mainConfig _ nat exampleRuntime lan_clock lan_entropy lan_sleeper (lan_net backFlags $"10.0.0.9:7" reachable2) frontFlags)
      $"1.2.3.4:5")
    (@site_clock _ (@world_clock _ nat (lan_clock (E := Z) (E' := Z) (Conn := unit))))
    loadBench [] (replicate 5 0%nat) (mkSite stackWorld []).

(** The first request fails over to the upstream that listens; both are answered
    by the server's route. *)
Example stackRun_statuses :
  (fun o => HasSuffix o.1 ($"Statuses     200:2  " ++ [nl])) <$> stackRun = Some true.
Proof. by vm_compute. Qed.

Lemma stackWorld_ok : worldOk (farOk (E := Z) (E' := Z) (Conn := unit) (fun _ => True)) stackWorld.
Proof.
  apply worldOk_main.
  - repeat constructor; refine (bool_decide_unpack _ _); by vm_compute.
  - apply worldOk_main; [|done]. constructor; [apply clean_nil|constructor].
Qed.

Lemma pulsebench_stack_witness :
  exists out st' r, stackRun = Some (out, st') /\ allAnswered 2 r /\ out = reportText r 1 true.
Proof.
  destruct stackRun as [[out st']|] eqn:E; [|by vm_compute in E]. exists out, st'.
  destruct (pulsebench_stack (E := Z) (E' := Z) (Conn := unit) backFlags $"10.0.0.9:7" reachable2 (fun _ => True)
    (envOk_direct backFlags eq_refl) frontFlags $"1.2.3.4:5" loadBench $"/healthz" (<[$"n" := [$"1"]]> ∅)
    [($"X-A", $"1"); ($"Accept", $"*/*")] stackWorld) as [_ HR].
  - by vm_compute.
  - by vm_compute.
  - exact stackWorld_ok.
  - exact loadSendable.
  - intros _. by vm_compute.
  - split; by vm_compute.
  - split; [vm_compute; congruence|by vm_compute].
  - by vm_compute.
  - destruct (HR [] (replicate 5 0%nat) out st' E) as (_ & r & Hr & Ho).
    exists r. exact (conj eq_refl (conj Hr Ho)).
Defined.
